(* ===== verification/_CoqProject ===== *)
-Q . S2P
Prelude.v
JsString.v
Acceptors.v
PathInfo.v
WordcutCore.v
WordcutDict.v
WordcutRules.v
Wordcut.v
JsRegExp.v
PosixPath.v
PathIsAbsolute.v
Balanced.v
BraceExpansion.v
Minimatch.v
MinimatchFacts.v
GlobCommon.v
GlobSync.v
GlobFacts.v
GlobAsync.v
GlobAsyncFacts.v
GlobAgree.v
GlobAsyncSafety.v
ProcessTick.v
CallOnce.v
EventEmitter.v
TinyTables.v
TinySegmenter.v
InputSplit.v
Shuffle.v
ShuffleFacts.v
MapReduce.v
MapReduceFacts.v
Scheduler.v
SchedulerSpec.v
SchedulerFacts.v
SchedulerStatus.v
SchedulerSystem.v
SchedulerTheorems.v
RateLimit.v
Underscore.v
UnderscoreFacts.v
JsValue.v
DeepEqual.v
Inspect.v
InspectFacts.v
UtilFormat.v
UnderscoreWrapper.v
Template.v
Assert.v
AssertFacts.v
