(* ===== verification/Prelude.v ===== *)
(** * A verification development for KubeMapReduce

    The repository is a MapReduce platform: Go services that split, schedule and
    run jobs, and a documentation site whose search page segments Thai and
    Japanese text in JavaScript.  The JavaScript is modelled as a whole,
    [site/assets/javascripts/lunr/wordcut.js] (a bundle of 29 modules, called
    "module n" below) and [tinyseg.js]; of the Go code the scheduler of the
    manager and the path of the data of a job are: input splits, map output, shuffle
    and reduce input.

    ** The program and the files that model it

    - The segmenter (modules 1 to 8).  [wordcut.cut] runs one dynamic program
      over the characters of a text.  A collection of acceptors ([Acceptors],
      module 1, a client of the class [AcceptorOps]) is driven by the dictionary
      ([WordcutDict], module 2, sorted words and a binary search) and by the
      Latin, Thai, number and symbol rules ([WordcutRules], modules 3 and 6);
      the acceptors that end at a character give candidate paths, of which one
      is selected ([PathInfo], modules 4 and 5); the driver ([WordcutCore],
      module 8, and [Wordcut], module 7) turns the path into ranges and tokens.
      The entries of the path are records that the source mutates when it
      merges unknown characters: the model keeps the path as a store.
    - The glob library, with which the segmenter finds dictionary files.
      [JsRegExp] has the regular expressions the other modules build at run
      time; [Balanced] is module 10, [BraceExpansion] modules 11 and 13,
      [Minimatch] module 20 (theorems in [MinimatchFacts]), [PosixPath]
      module 22, [PathIsAbsolute] module 23, [GlobCommon] module 15,
      [GlobSync] the synchronous walker, module 17 (theorems on both in
      [GlobFacts]), and [GlobAsync] the asynchronous one, module 16: its methods
      push commands on a stack, its requests to the file system wait in a list
      and are answered in any order, callbacks of the same request share an entry
      of the table of [inflight], and [process.nextTick] has its queue.
      [GlobAsyncFacts] shows that it finds what it should, [GlobAgree] that the
      two walkers agree, [GlobAsyncSafety] what holds in every state and some
      cases where the library fails.  The file system is a record of functions,
      since [fs] is an empty module in the bundle.
    - The runtime shims.  [ProcessTick] is module 24 (the queue of
      [process.nextTick] and its timers), [CallOnce] modules 18, 21 and 29
      (inflight, once, wrappy), [EventEmitter] module 14 with listeners that
      may call the emitter back and a table of events that, being a plain object,
      also finds the functions of Object.prototype.
    - underscore, module 25.  [Underscore] has the collection, array, object
      and function helpers (theorems in [UnderscoreFacts]), [RateLimit] has
      [_.throttle] and [_.debounce] as machines driven by calls and timers,
      [DeepEqual] has [_.isEqual] on the values and heaps of [JsValue],
      [UnderscoreWrapper] has wrapper objects and chains, the binding of arguments
      and the tests of types, and [Template] the compiler of [_.template], up to the
      call of [new Function].
    - util, modules 27 and 28: [Inspect] prints the values of [JsValue] (theorems
      in [InspectFacts]) and [UtilFormat] is [format].  [Assert] is module 9, the assertions, with the
      coercions of [==] and the JSON of messages (theorems in [AssertFacts]).
    - The Japanese segmenter: [TinyTables] are the weights and [TinySegmenter]
      the code of tinyseg.js.
    - [InputSplit]: how the manager cuts an object into byte ranges
      ([buildInputSplits] of manager-service/internal/api/handlers.go) and how
      the worker reads the records of a range ([readSplitRecordsStreaming] of
      worker-service/internal/worker/split.go over the ranged downloads of
      download.go).
    - [Shuffle]: the external merge of worker-service/internal/shuffle/merge.go,
      with the heap, the line scanner and the JSON encoder it uses (theorems in
      [ShuffleFacts]).  [MapReduce]: the sorter that spills (spill.go), a map task
      (map.go) with the writers of its partitions (partition_writer.go), the
      shuffle service (manager-service/internal/grpc/shuffle.go) and the download
      and merge of a reduce task (reduce.go); theorems in [MapReduceFacts].
    - The scheduler (manager-service/internal/manager, with the SQL of queries.go and
      the schema of migrations/0001_initial_schema.sql).  [Scheduler] has the tables as
      a record of maps, each handler of scheduler.go as a transaction in the monad
      [tx] over them, and the memory of a manager: pending cleanups, heartbeats, the
      calls to the orchestrator.  [SchedulerSpec] is what the handlers may do to the
      tables, an abstract relation [action], with the invariant [wf] that it keeps;
      [SchedulerFacts] shows that every handler refines it, [SchedulerStatus] which of
      them do not look at the status of a job; [SchedulerSystem] has any
      number of managers on one database, which starts with the seeded configuration,
      none or another one, with restarts, failing commits, interleaved
      operations and the goroutines of the reconciler; [SchedulerTheorems] has what
      holds in every reachable state, and composes the scheduler with [runMap].

    [Prelude] (this file) has the outcomes of a computation, arrays indexed by
    numbers, tactics and hint databases; [JsString] has strings as lists of
    UTF-16 code units and the parts of the standard library that are used.

    ** How code is translated

    A function of the source is a function of the model with its name.  State
    is passed: a store of path entries, the queues and timers of the process
    shim, the caches of the glob walker (a state monad), the stack and requests
    of the asynchronous walker, the table of an emitter, a heap of objects, the
    payloads of the shuffle service, the tables of the database.  What throws or may not end returns an
    [outcome].  What is not under the repository (the file system, the case
    data and [localeCompare] of the engine, random numbers, the clock, object
    storage, SHA-256, the text of uuids) is an argument; so are conversions by an object's own
    methods, [json.Unmarshal] and the order that [sort.Slice] leaves open, with
    hypotheses on what the theorems need of them.

    ** What the theorems show

    - The scheduler, in every state that any number of managers can reach while no job
      is submitted twice or after its cancellation ([reach]; [ScheduleJob] does not check
      this, and [terminal_states_left] shows what a late submission does): a task has
      at most one running and one successful attempt; no reduce task starts before
      the map tasks of its job are done; a completed task and its outputs never
      change; [CompleteTask] succeeds exactly for the current attempt with a valid
      lease; the status of a job says the truth about its tasks and moves along the
      state machine, where only the reaper leaves a terminal state, from Failed to
      Cleaning; running attempts stay within the quota, and the attempts of a task
      within [MaxTaskAttempts] plus one for every start of its manager that finds it in
      progress with its attempts used up.
    - The data path of a job delivers every record of the mappers to the reducer
      of its partition, once and sorted, whatever the memory budget of the
      sorter, the order of the pushes and the batch size of the merge; the merge
      is stable and bounds the streams it has open.  The splits of an object
      that ends in a newline are read to every record exactly once, for target sizes up
      to 512 KiB when the records fit a split; larger splits and longer records show the
      limits of the chunked reader.
    - Segmentation is total and lossless for every dictionary and text, its
      entry points agree, a text made of dictionary words is segmented without
      unknown characters; the dictionary acceptor recognises exactly the words,
      the selected path is minimal.  Japanese segmentation is lossless.
    - [matchOne] decides the declarative meaning of a pattern, partial matching
      never prunes a match, parsing is total, literals and stars match what
      they say; balanced matching returns what it should; brace
      expansion ends where no sequence can occur, and a sequence expands to its items;
      path normalisation is a walk, idempotent and inverted by [relative].
      On a finite tree [glob.sync] ends and returns exactly the paths that its
      own matcher accepts, each once and sorted; [glob] stops after a bounded
      number of steps in every order of events, calls back once, and with the
      same list.  In every state of the asynchronous walker, with any options and
      file system, callbacks get arguments of the kind they take.
    - The shim of [nextTick] refines a queue and drains it; once, inflight and
      the emitter call what they should, as often as they should: [emit] calls the
      listeners that are registered when it starts, whatever they add and remove; the
      table of an emitter stays well-formed under reentrant listeners.
    - [_.isEqual] terminates on cyclic values, is sound for bisimilarity (hidden
      properties of its second argument count, those of the first do not) and
      complete where the cycles are matched by a function; throttled and
      debounced calls keep their distance and lose no last call; unescaping
      inverts escaping; the binary and the linear search agree; a template is
      compiled to its code and to literals that denote its text.
    - [inspect] ends on cyclic values at every depth and reads nothing beyond its
      depth; a printed string denotes itself; [format] is one pass over its text, each
      argument printed once.  A chain of calls computes what the calls compute.  A
      Windows path is absolute when it starts with a separator, or a drive and one.
      The deep comparison of assert ends
      on values without cycles and is symmetric.
    - Error behaviour that the theorems state as it is: an unknown character
      takes the last letter of the text before it, a sequence of step zero does
      not end, a missing path below a file is reported as a match, an ignored
      alternative ends an asynchronous walk before the others have started, the
      deep comparison of assert never ends on cycles, a split of more than 1 MiB
      is truncated, a reduce task fails when segments are pushed in another order
      than their tasks complete, outputs of a map task are numbered by position and
      not by partition, the reaper leaves sibling tasks bound to attempts it has failed,
      submission, assignment and the reaper ignore the status of a job, so that a
      cancelled or failed one can become active again; lemmas show smaller ones
      ([removeAll_missing_throws], [isEqual_wrapped_null],
      [lastIndexOf_nan_before_start], [inspect_key_backslash], [throws_judges],
      [async_examples], [abort_stores], [escaped_record_too_long],
      [missing_path_reported], [deepEqual_cycle_diverges], [chain_chain_diverges],
      [isNaN_boxed], [isEqual_hidden]).

    ** Fuel

    Loops that are not structural take fuel, and the theorems say that the fuel
    the entry points pass is enough: the number of characters left for scanning
    loops, the length of the range for binary searches, the length of a pattern
    for its parser, the size of the heap for [eq], [formatValue] and [jsonText] (an object is
    on their stacks at most once), the depth of the tree and the length of the
    pattern for the glob walker, [stepsFor] (a bound on the events of the walk,
    from the depth and width of the tree and the length of the pattern) for the
    asynchronous one, the number of items for a heap, of bytes for a merge and of
    streams for its passes.  Where the code itself may run forever (a zero step, a
    cycle) the theorem is that no fuel is enough.

    Handlers of the scheduler are total; their loops run over lists.  A method of a
    chain takes two calls of [result], any fuel from 2 on.  An emission whose listeners
    do not emit nests five calls, any fuel from 5 on.

    ** Not modelled

    [debuglog] of util builds an expression with word boundaries from its argument;
    inherits (19, 26) is prototype wiring; module 12 is empty.  Of underscore,
    [_.isFinite] needs fractions, [_.delay] and [_.defer] are timers of the host, and
    the code that [_.template] compiles is run by the engine.  The emitter leaves out
    the types "__proto__", "__defineGetter__" and "__defineSetter__".  The bounds of brace
    sequences are integers, exact below 2^53.  Of the Go code, HTTP and
    gRPC handlers, the relay of the outbox, Kubernetes, subprocesses and object storage
    are I/O around what is modelled; in the scheduler, the reads that nothing decides
    on, timestamps and log lines, and a number of replicas that is a multiple of 2^32,
    for which [ComputeReplicaIndex] panics.  Transactions are taken as serial.  The
    minified bundles, the load test, generated code, tests and deployment files are not
    modelled: they are third-party, generated or configuration. *)
From Stdlib Require Import ZArith Lia.
From stdpp Require Import base gmap strings list sorting.

Local Open Scope Z_scope.

(** * Outcomes of JavaScript and Go code

    A computation returns a value, throws an exception (or returns a Go
    error), or runs out of the fuel that bounds a loop of the model. *)
Inductive outcome (A : Type) : Type :=
| Ret (a : A)
| Throw (msg : string)
| OutOfFuel.
Arguments Ret {A} a.
Arguments Throw {A} msg.
Arguments OutOfFuel {A}.

#[export] Instance outcome_ret : MRet outcome := fun A a => Ret a.
#[export] Instance outcome_bind : MBind outcome := fun A B f m =>
  match m with
  | Ret a => f a
  | Throw e => Throw e
  | OutOfFuel => OutOfFuel
  end.
#[export] Instance outcome_fmap : FMap outcome := fun A B f m =>
  match m with
  | Ret a => Ret (f a)
  | Throw e => Throw e
  | OutOfFuel => OutOfFuel
  end.

(** [returns m P]: [m] terminates normally with a value satisfying [P]. *)
Definition returns {A} (m : outcome A) (P : A -> Prop) : Prop :=
  exists a, m = Ret a /\ P a.

(** A JavaScript property access on [undefined] throws a [TypeError]. *)
Definition orTypeError {A} (o : option A) : outcome A :=
  match o with
  | Some a => Ret a
  | None => Throw "TypeError"
  end.

(** Monadic map, left to right (the order of [Array.prototype.map]). *)
Fixpoint mapO {A B} (f : A -> outcome B) (l : list A) : outcome (list B) :=
  match l with
  | [] => Ret []
  | x :: l' => y ← f x; ys ← mapO f l'; Ret (y :: ys)
  end.

(** Monadic left fold (a [for] loop over an array with a mutable state). *)
Fixpoint foldO {A S} (f : S -> A -> outcome S) (l : list A) (s : S) : outcome S :=
  match l with
  | [] => Ret s
  | x :: l' => s' ← f s x; foldO f l' s'
  end.

(** * Arrays indexed by JavaScript numbers *)

(** [a[i]]: [None] is [undefined] (out of range or negative index). *)
Definition idx {A} (l : list A) (i : Z) : option A :=
  if i <? 0 then None else l !! Z.to_nat i.

Definition len {A} (l : list A) : Z := Z.of_nat (length l).

(** [a[i] = x] on an existing slot. *)
Definition setidx {A} (i : Z) (x : A) (l : list A) : list A :=
  if i <? 0 then l else <[Z.to_nat i := x]> l.

(** The last element [a[a.length - 1]]. *)
Definition lastof {A} (l : list A) : option A := last l.

(** [a, a+1, ..., b] (empty when [b < a]): the indices a counting loop visits. *)
Definition zrange (a b : Z) : list Z :=
  map (fun k => a + Z.of_nat k) (seq 0 (Z.to_nat (b - a + 1))).

(** * Scopes, hint databases and tactics *)

Declare Scope js_scope.
Delimit Scope js_scope with js.
Notation "l !!z i" := (idx l i) (at level 20) : js_scope.
Create HintDb jsdb.
Create Rewrite HintDb jsrw.

(** Case analysis on the innermost match or conditional of the goal. *)
Ltac break_match :=
  match goal with
  | |- context [match ?x with _ => _ end] =>
      lazymatch x with
      | context [match _ with _ => _ end] => fail
      | _ => destruct x eqn:?
      end
  end.
Ltac break_match_in H :=
  match type of H with
  | context [match ?x with _ => _ end] =>
      lazymatch x with
      | context [match _ with _ => _ end] => fail
      | _ => destruct x eqn:?
      end
  end.

(** A closed decidable proposition (membership in a list of literals, say), by
    evaluation. *)
Ltac in_list := apply (bool_decide_unpack _); vm_compute; exact I.

(** Turn every boolean equation in the context into the proposition it decides. *)
Ltac boolprop :=
  repeat match goal with
  | H : _ && _ = true |- _ => apply andb_true_iff in H; destruct H
  | H : _ || _ = false |- _ => apply orb_false_iff in H; destruct H
  | H : _ && _ = false |- _ => apply andb_false_iff in H
  | H : _ || _ = true |- _ => apply orb_true_iff in H
  | H : negb _ = true |- _ => apply negb_true_iff in H
  | H : negb _ = false |- _ => apply negb_false_iff in H
  | H : bool_decide _ = true |- _ => apply bool_decide_eq_true in H
  | H : bool_decide _ = false |- _ => apply bool_decide_eq_false in H
  | H : (_ <? _)%Z = true |- _ => apply Z.ltb_lt in H
  | H : (_ <? _)%Z = false |- _ => apply Z.ltb_ge in H
  | H : (_ <=? _)%Z = true |- _ => apply Z.leb_le in H
  | H : (_ <=? _)%Z = false |- _ => apply Z.leb_gt in H
  | H : (_ =? _)%Z = true |- _ => apply Z.eqb_eq in H
  | H : (_ =? _)%Z = false |- _ => apply Z.eqb_neq in H
  end.

(** * Generic lemmas *)

Lemma bind_Ret {A B} (f : A -> outcome B) (a : A) : (Ret a ≫= f) = f a.
Proof. reflexivity. Qed.

Lemma bind_Ret_inv {A B} (m : outcome A) (f : A -> outcome B) (b : B) : (m ≫= f) = Ret b -> exists a, m = Ret a /\ f a = Ret b.
Proof. destruct m as [a| |]; cbn; try done. eauto. Qed.

Lemma bind_returns {A B} (m : outcome A) (f : A -> outcome B) (P : A -> Prop) (Q : B -> Prop) :
  returns m P -> (forall a, P a -> returns (f a) Q) -> returns (m ≫= f) Q.
Proof. intros (a & -> & HP) H. exact (H a HP). Qed.

Lemma returns_ret {A} (a : A) (P : A -> Prop) : P a -> returns (Ret a) P.
Proof. exists a. auto. Qed.

Lemma returns_mono {A} (m : outcome A) (P Q : A -> Prop) :
  returns m P -> (forall a, P a -> Q a) -> returns m Q.
Proof. intros (a & -> & HP) H. exists a. auto. Qed.

Lemma mapO_returns {A B} (f : A -> outcome B) (P : A -> Prop) (Q : A -> B -> Prop) l :
  Forall P l -> (forall x, P x -> returns (f x) (Q x)) -> returns (mapO f l) (Forall2 Q l).
Proof.
  intros Hl Hf. induction Hl as [|x l Hx Hl IH]; simpl.
  - exists []. split; [done | constructor].
  - destruct (Hf x Hx) as (y & -> & Hy). destruct IH as (ys & -> & Hys).
    exists (y :: ys). split; [done | by constructor].
Qed.

Lemma len_nonneg {A} (l : list A) : 0 <= len l.
Proof. unfold len. lia. Qed.

Lemma len_app {A} (l k : list A) : len (l ++ k) = len l + len k.
Proof. unfold len. rewrite length_app. lia. Qed.

Lemma len_cons {A} (x : A) l : len (x :: l) = len l + 1.
Proof. unfold len. simpl. lia. Qed.

Lemma len_nil {A} : len (@nil A) = 0.
Proof. reflexivity. Qed.

Lemma idx_Some_range {A} (l : list A) i x : idx l i = Some x -> 0 <= i < len l.
Proof.
  unfold idx, len. destruct (Z.ltb_spec i 0); [done|].
  intros Hx%lookup_lt_Some. lia.
Qed.

Lemma idx_is_Some {A} (l : list A) i : 0 <= i < len l -> exists x, idx l i = Some x.
Proof.
  unfold idx, len. intros H. destruct (Z.ltb_spec i 0); [lia|].
  destruct (lookup_lt_is_Some_2 l (Z.to_nat i)) as [x Hx]; [lia|]. eauto.
Qed.

Lemma idx_app_l {A} (l k : list A) i : i < len l -> idx (l ++ k) i = idx l i.
Proof.
  unfold idx, len. intros H. destruct (Z.ltb_spec i 0); [done|].
  rewrite lookup_app_l by lia. done.
Qed.

Lemma idx_app_r {A} (l k : list A) i : len l <= i -> idx (l ++ k) i = idx k (i - len l).
Proof.
  unfold idx, len. intros H. destruct (Z.ltb_spec i 0), (Z.ltb_spec (i - Z.of_nat (length l)) 0); try lia.
  rewrite lookup_app_r by lia. f_equal. lia.
Qed.

Lemma idx_app_here {A} (l k : list A) x : idx (l ++ x :: k) (len l) = Some x.
Proof. rewrite idx_app_r by lia. by rewrite Z.sub_diag. Qed.

Lemma idx_snoc {A} (l : list A) x : idx (l ++ [x]) (len l) = Some x.
Proof. rewrite idx_app_r by lia. by rewrite Z.sub_diag. Qed.

Lemma len_setidx {A} i (x : A) l : len (setidx i x l) = len l.
Proof. unfold setidx, len. destruct (i <? 0); [done|]. by rewrite length_insert. Qed.

Lemma idx_setidx_eq {A} i (x : A) l : 0 <= i < len l -> idx (setidx i x l) i = Some x.
Proof.
  unfold idx, setidx, len. intros H. destruct (Z.ltb_spec i 0); [lia|].
  apply list_lookup_insert_eq. lia.
Qed.

Lemma idx_setidx_ne {A} i j (x : A) l : i <> j -> idx (setidx i x l) j = idx l j.
Proof.
  unfold idx, setidx. intros H. destruct (Z.ltb_spec i 0), (Z.ltb_spec j 0); try done.
  apply list_lookup_insert_ne. lia.
Qed.

Lemma elem_of_zrange a b k : k ∈ zrange a b <-> a <= k <= b.
Proof.
  unfold zrange. rewrite list_elem_of_fmap. setoid_rewrite elem_of_seq. split.
  - intros (n & -> & Hn). lia.
  - intros H. exists (Z.to_nat (k - a)). lia.
Qed.

#[export] Hint Rewrite @len_app @len_cons @len_nil @len_setidx : jsrw.
#[export] Hint Resolve len_nonneg returns_ret : jsdb.

(** Invariant rule for a counting loop [for (k = a; k <= b; k++)]. *)
Lemma zrange_snoc a b : a <= b -> zrange a b = zrange a (b - 1) ++ [b].
Proof.
  intros H. unfold zrange. replace (Z.to_nat (b - a + 1)) with (S (Z.to_nat (b - 1 - a + 1))) by lia.
  rewrite seq_S, map_app. cbn. repeat f_equal. lia.
Qed.

Lemma foldO_ext {A S} (f g : S -> A -> outcome S) l s : (forall s a, a ∈ l -> f s a = g s a) -> foldO f l s = foldO g l s.
Proof.
  revert s. induction l as [|a l IH]; intros s H; [done|]. cbn [foldO]. rewrite H by left. destruct (g s a) as [s'| |]; [|done..]. rewrite !bind_Ret.
  apply IH. intros t b Hb. apply H. by right.
Qed.

Lemma foldO_zrange_inv {S} (f : S -> Z -> outcome S) (I : Z -> S -> Prop) a b s :
  a <= b + 1 -> I a s ->
  (forall k s, a <= k <= b -> I k s -> returns (f s k) (I (k + 1))) ->
  returns (foldO f (zrange a b) s) (I (b + 1)).
Proof.
  intros Hab HI Hstep. unfold zrange.
  assert (Hgen : forall n m s, I (a + Z.of_nat m) s -> Z.of_nat (m + n) = b - a + 1 ->
    returns (foldO f (map (fun k => a + Z.of_nat k) (seq m n)) s) (I (b + 1))).
  { induction n as [|n IH]; intros m s' HIm Hm; cbn [seq map foldO].
    - apply returns_ret. by replace (b + 1) with (a + Z.of_nat m) by lia.
    - destruct (Hstep (a + Z.of_nat m) s') as (s'' & -> & Hs''); [lia|done|].
      rewrite bind_Ret. apply IH; [|lia].
      by replace (a + Z.of_nat (Datatypes.S m)) with (a + Z.of_nat m + 1) by lia. }
  apply Hgen; [|lia]. by replace (a + Z.of_nat 0) with a by lia.
Qed.

(** Invariant rule for a loop over an array. *)
Lemma foldO_inv {A S} (f : S -> A -> outcome S) (I : S -> Prop) (P : A -> Prop) l s :
  Forall P l -> I s -> (forall s x, P x -> I s -> returns (f s x) I) ->
  returns (foldO f l s) I.
Proof.
  intros Hl HI Hf. revert s HI. induction Hl as [|x l Hx _ IH]; intros s HI; cbn [foldO].
  - by apply returns_ret.
  - destruct (Hf s x Hx HI) as (s' & -> & Hs'). rewrite bind_Ret. auto.
Qed.

Lemma StronglySorted_nth {A} (R : A -> A -> Prop) l i j x y :
  StronglySorted R l -> (i < j)%nat -> l !! i = Some x -> l !! j = Some y -> R x y.
Proof.
  intros Hs. revert i j. induction Hs as [|z l Hs IH Hall]; intros i j Hij Hi Hj; [done|].
  destruct j as [|j]; [lia|]. destruct i as [|i]; simpl in *.
  - injection Hi as ->. by eapply Forall_lookup_1 in Hall.
  - apply (IH i j); [lia|done..].
Qed.

Lemma idx_of_elem {A} (l : list A) x : x ∈ l <-> exists k, idx l k = Some x.
Proof.
  rewrite list_elem_of_lookup. split.
  - intros [k Hk]. exists (Z.of_nat k). unfold idx.
    destruct (Z.ltb_spec (Z.of_nat k) 0); [lia|]. by rewrite Nat2Z.id.
  - intros [k Hk]. unfold idx in Hk. destruct (k <? 0); [done|]. eauto.
Qed.

Lemma foldO_app {A S} (f : S -> A -> outcome S) l k s :
  foldO f (l ++ k) s = (foldO f l s ≫= foldO f k).
Proof.
  revert s. induction l as [|x l IH]; intros s; cbn [app foldO]; [done|].
  destruct (f s x); try done. apply IH.
Qed.

Lemma StronglySorted_filter_sub {A} (R : A -> A -> Prop) (P : A -> Prop) `{!forall x, Decision (P x)} l :
  StronglySorted R l -> StronglySorted R (filter P l).
Proof.
  induction 1 as [|x l Hl IH Hx]; [constructor|]. rewrite filter_cons. case_decide; [|done]. constructor; [done|].
  rewrite Forall_forall in *. intros y [_ Hy]%list_elem_of_filter. auto.
Qed.

Lemma concat_elem {A B} (f : A -> list B) l y : y ∈ concat (map f l) <-> exists x, x ∈ l /\ y ∈ f x.
Proof.
  induction l as [|x l IH]; cbn [map concat]; [setoid_rewrite elem_of_nil; naive_solver|].
  rewrite elem_of_app, IH. setoid_rewrite elem_of_cons. naive_solver.
Qed.

Lemma filter_id {A} (P : A -> Prop) `{!forall x, Decision (P x)} l : Forall P l -> filter P l = l.
Proof.
  induction 1 as [|x l Hx _ IH]; [done|]. rewrite filter_cons, decide_True by done. by rewrite IH.
Qed.

Lemma idx_drop {A} (s : list A) p j : 0 <= p -> 0 <= j -> idx (drop (Z.to_nat p) s) j = idx s (p + j).
Proof.
  intros Hp Hj. unfold idx. destruct (Z.ltb_spec j 0), (Z.ltb_spec (p + j) 0); try lia.
  rewrite lookup_drop. f_equal. lia.
Qed.

Lemma idx_take {A} (l : list A) n j : 0 <= j < n -> idx (take (Z.to_nat n) l) j = idx l j.
Proof.
  intros Hj. unfold idx. destruct (j <? 0); [done|]. apply lookup_take_lt. lia.
Qed.

Lemma take_add_drop {A} (l : list A) n m : take n l ++ take m (drop n l) = take (n + m) l.
Proof.
  revert l. induction n as [|n IH]; intros [|x l]; cbn; [by destruct m|done|by destruct m|by rewrite IH].
Qed.
