(* ===== verification/JsString.v ===== *)
(** JavaScript strings: a string value is the list of its UTF-16 code units.
    The definitions below model the operations of [String.prototype] and
    [Array.prototype] (ECMAScript standard library) that the modelled
    JavaScript uses, with the lemmas the components share. *)
From Stdlib Require Import ZArith Lia Ascii String.
From stdpp Require Import base gmap strings list sorting.
From S2P Require Import Prelude.

Local Open Scope Z_scope.
Open Scope js_scope.

(** A string value. *)
Abbreviation jsstr := (list Z).

(** A literal whose characters are ASCII. *)
Definition js (s : string) : jsstr :=
  map (fun a => Z.of_nat (nat_of_ascii a)) (list_ascii_of_string s).

(** [s.charAt(i)]: the empty string out of range. *)
Definition charAt (s : jsstr) (i : Z) : jsstr :=
  match s !!z i with Some c => [c] | None => [] end.

(** [s.substring(a, b)] for [a <= b] (both clamped to the string). *)
Definition substring (s : jsstr) (a b : Z) : jsstr :=
  let a' := Z.min (Z.max a 0) (len s) in
  let b' := Z.min (Z.max b 0) (len s) in
  let lo := Z.min a' b' in
  let hi := Z.max a' b' in
  take (Z.to_nat (hi - lo)) (drop (Z.to_nat lo) s).

(** [s.slice(a, b)] on strings and arrays: negative positions count from the end. *)
Definition slice {A} (s : list A) (a b : Z) : list A :=
  let norm i := if i <? 0 then Z.max 0 (len s + i) else Z.min i (len s) in
  take (Z.to_nat (norm b - norm a)) (drop (Z.to_nat (norm a)) s).

(** [s.slice(a)]. *)
Definition sliceFrom {A} (s : list A) (a : Z) : list A := slice s a (len s).

(** [s.substr(a, n)]. *)
Definition substr (s : jsstr) (a n : Z) : jsstr :=
  let a' := if a <? 0 then Z.max 0 (len s + a) else a in
  take (Z.to_nat n) (drop (Z.to_nat a') s).

(** [s.substr(a)]. *)
Definition substrFrom (s : jsstr) (a : Z) : jsstr := substr s a (len s).

(** Equality of strings ([===]). *)
Definition str_eqb (s t : jsstr) : bool := bool_decide (s = t).

(** [s < t] on strings: lexicographic on code units, a proper prefix is smaller. *)
Fixpoint str_ltb (s t : jsstr) : bool :=
  match s, t with
  | _, [] => false
  | [], _ :: _ => true
  | c :: s', d :: t' => (c <? d) || ((c =? d) && str_ltb s' t')
  end.

Definition str_leb (s t : jsstr) : bool := negb (str_ltb t s).

Definition str_le (s t : jsstr) : Prop := str_leb s t = true.

#[export] Instance str_le_dec : RelDecision str_le := fun s t => decide (str_leb s t = true).

(** [a.sort()] on an array of strings: ascending code-unit order. *)
Definition sortStrings (a : list jsstr) : list jsstr := merge_sort str_le a.

(** Does [s] start with [p]? *)
Fixpoint isPrefix (p s : jsstr) : bool :=
  match p, s with
  | [], _ => true
  | _ :: _, [] => false
  | c :: p', d :: s' => (c =? d) && isPrefix p' s'
  end.

(** Position of the first occurrence of [p] in [s], counting from [i]. *)
Fixpoint find_at (p s : jsstr) (i : Z) : Z :=
  if isPrefix p s then i else
  match s with
  | [] => -1
  | _ :: s' => find_at p s' (i + 1)
  end.

(** [s.indexOf(p, from)]: [-1] when there is no occurrence at or after [from]. *)
Definition indexOf (s p : jsstr) (from : Z) : Z :=
  let f := Z.min (Z.max from 0) (len s) in
  find_at p (drop (Z.to_nat f) s) f.

(** [s.split(c)] on one separator character, or on a one-character class. *)
Fixpoint splitOn (p : Z -> bool) (s : jsstr) : list jsstr :=
  match s with
  | [] => [[]]
  | c :: s' =>
      if p c then [] :: splitOn p s'
      else match splitOn p s' with
           | [] => [[c]]
           | w :: ws => (c :: w) :: ws
           end
  end.

Definition split1 (c : Z) (s : jsstr) : list jsstr := splitOn (Z.eqb c) s.

(** [s.split(/X+/)] for a one-character class [X]: a run of separators splits once. *)
Fixpoint splitRun (p : Z -> bool) (insep : bool) (s : jsstr) : list jsstr :=
  match s with
  | [] => [[]]
  | c :: s' =>
      if p c then (if insep then splitRun p true s' else [] :: splitRun p true s')
      else match splitRun p false s' with
           | [] => [[c]]
           | w :: ws => (c :: w) :: ws
           end
  end.

(** [s.split(sep)] for a separator string of any positive length. *)
Fixpoint splitStr (sep : jsstr) (skip : nat) (s : jsstr) : list jsstr :=
  match s with
  | [] => [[]]
  | c :: s' =>
      match skip with
      | S k => splitStr sep k s'
      | O =>
          if isPrefix sep s then [] :: splitStr sep (length sep - 1) s'
          else match splitStr sep 0 s' with
               | [] => [[c]]
               | w :: ws => (c :: w) :: ws
               end
      end
  end.

(** [a.join(sep)]. *)
Fixpoint join (sep : jsstr) (a : list jsstr) : jsstr :=
  match a with
  | [] => []
  | [w] => w
  | w :: a' => w ++ sep ++ join sep a'
  end.

(** White space and line terminators removed by [trim] and matched by [\s]. *)
Definition isSpace (c : Z) : bool :=
  bool_decide (c ∈ [9; 10; 11; 12; 13; 32; 160; 5760; 8232; 8233; 8239; 8287; 12288; 65279])
  || ((8192 <=? c) && (c <=? 8202)).

Fixpoint dropWhile (p : Z -> bool) (s : jsstr) : jsstr :=
  match s with
  | [] => []
  | c :: s' => if p c then dropWhile p s' else s
  end.

Definition trim (s : jsstr) : jsstr :=
  rev (dropWhile isSpace (rev (dropWhile isSpace s))).

(** [ch.toLowerCase()] of one code unit, exact on every unit whose image
    starts with an ASCII character: A-Z, U+0130 and the Kelvin sign U+212A.
    The image of any other unit starts with a unit above [z] (or is the unit
    itself), which is all that a comparison with ["a"] and ["z"] observes. *)
Definition toLowerCase1 (c : Z) : jsstr :=
  if (65 <=? c) && (c <=? 90) then [c + 32]
  else if c =? 304 then [105; 775]
  else if c =? 8490 then [107]
  else [c].

(** Decimal digits. *)
Definition isDigit (c : Z) : bool := (48 <=? c) && (c <=? 57).
Definition isAlpha (c : Z) : bool :=
  ((97 <=? c) && (c <=? 122)) || ((65 <=? c) && (c <=? 90)).

(** * Objects used as sets of strings *)

(** The value of a canonical array index, a key that enumeration puts first. *)
Fixpoint indexVal (v : Z) (s : jsstr) : option Z :=
  match s with
  | [] => Some v
  | c :: s' => if isDigit c then indexVal (10 * v + (c - 48)) s' else None
  end.

Definition arrayIndex (s : jsstr) : option Z :=
  match s with
  | [] => None
  | [48] => Some 0
  | 48 :: _ => None
  | _ => match indexVal 0 s with
         | Some v => if v <? 4294967295 then Some v else None
         | None => None
         end
  end.

Definition isIndex (s : jsstr) : bool := bool_decide (is_Some (arrayIndex s)).

(** The keys of an object without a prototype, in the order of insertion. *)
Abbreviation keySet := (list jsstr).

(** [o[k] = true]. *)
Definition setKey (k : jsstr) (o : keySet) : keySet := if decide (k ∈ o) then o else o ++ [k].

(** [Object.keys(o)], and the order of [for (k in o)]. *)
Definition indexLe (a b : jsstr) : Prop := default 0 (arrayIndex a) <= default 0 (arrayIndex b).
#[export] Instance indexLe_dec a b : Decision (indexLe a b).
Proof. unfold indexLe. apply _. Defined.

Definition objectKeys (o : keySet) : list jsstr :=
  merge_sort indexLe (filter (fun k => isIndex k = true) o) ++ filter (fun k => isIndex k = false) o.

(** * Lemmas *)

Lemma str_eqb_eq s t : str_eqb s t = true <-> s = t.
Proof. unfold str_eqb. apply bool_decide_eq_true. Qed.

Lemma str_eqb_refl s : str_eqb s s = true.
Proof. by apply str_eqb_eq. Qed.

Lemma str_ltb_irrefl s : str_ltb s s = false.
Proof. induction s as [|c s IH]; simpl; [done|]. rewrite IH. lia. Qed.

Lemma str_ltb_trans s t u : str_ltb s t = true -> str_ltb t u = true -> str_ltb s u = true.
Proof.
  revert t u. induction s as [|c s IH]; intros [|d t] [|e u]; simpl; try done.
  intros H1 H2. boolprop.
  destruct H1 as [H1|[H1a H1b]%andb_true_iff], H2 as [H2|[H2a H2b]%andb_true_iff]; boolprop;
    apply orb_true_iff.
  1,2,3: left; lia.
  right. rewrite (IH _ _ H1b H2b). lia.
Qed.

Lemma str_ltb_total s t : str_ltb s t = false -> str_ltb t s = false -> s = t.
Proof.
  revert t. induction s as [|c s IH]; intros [|d t]; simpl; try done.
  intros H1 H2. apply orb_false_iff in H1 as [H1 H1'], H2 as [H2 H2'].
  assert (c = d) as -> by lia. rewrite Z.eqb_refl in *. simpl in *. f_equal. eauto.
Qed.

Lemma str_ltb_asym s t : str_ltb s t = true -> str_ltb t s = false.
Proof.
  intros H. destruct (str_ltb t s) eqn:E; [|done].
  pose proof (str_ltb_trans _ _ _ H E) as Hx. by rewrite str_ltb_irrefl in Hx.
Qed.

#[export] Instance str_le_trans : Transitive str_le.
Proof.
  unfold Transitive, str_le, str_leb. intros s t u H1 H2. boolprop. apply negb_true_iff.
  destruct (str_ltb u s) eqn:E; [|done].
  destruct (str_ltb s t) eqn:E1.
  - by rewrite (str_ltb_trans _ _ _ E E1) in H2.
  - rewrite (str_ltb_total _ _ E1 H1) in E. congruence.
Qed.

#[export] Instance str_le_total : Total str_le.
Proof.
  unfold Total, str_le, str_leb. intros s t.
  destruct (str_ltb t s) eqn:E; [right|left]; [|done].
  by rewrite (str_ltb_asym _ _ E).
Qed.

Lemma sortStrings_sorted a : StronglySorted str_le (sortStrings a).
Proof. apply StronglySorted_merge_sort; apply _. Qed.

Lemma sortStrings_perm a : sortStrings a ≡ₚ a.
Proof. apply merge_sort_Permutation. Qed.

Lemma substring_split s a b :
  0 <= a <= b -> b <= len s ->
  substring s a b = take (Z.to_nat (b - a)) (drop (Z.to_nat a) s).
Proof. intros H1 H2. unfold substring, len in *. repeat f_equal; lia. Qed.

Lemma substring_app s a b c :
  0 <= a <= b -> b <= c <= len s -> substring s a b ++ substring s b c = substring s a c.
Proof.
  intros H1 H2. rewrite !substring_split by lia.
  replace (drop (Z.to_nat b) s) with (drop (Z.to_nat (b - a)) (drop (Z.to_nat a) s)).
  2:{ rewrite drop_drop. f_equal. lia. }
  rewrite take_take_drop. f_equal. lia.
Qed.

Lemma substring_full s : substring s 0 (len s) = s.
Proof.
  pose proof (len_nonneg s). rewrite substring_split by lia.
  simpl. rewrite take_ge; [done|]. rewrite drop_0. unfold len. lia.
Qed.

Lemma isPrefix_app p s : isPrefix p s = true <-> exists t, s = p ++ t.
Proof.
  revert s. induction p as [|c p IH]; intros s; simpl.
  - split; [intros _; by exists s | done].
  - destruct s as [|d s]; [split; [done | intros (t & ?); done]|].
    rewrite andb_true_iff, IH, Z.eqb_eq. split.
    + intros (-> & t & ->). by exists t.
    + intros (t & [= -> ->]). eauto.
Qed.

Lemma join_cons sep w ws : ws <> [] -> join sep (w :: ws) = w ++ sep ++ join sep ws.
Proof. by destruct ws. Qed.

Lemma splitOn_nonempty p s : splitOn p s <> [].
Proof. destruct s as [|c s]; simpl; [done|]. destruct (p c), (splitOn p s); done. Qed.

Lemma splitOn_no_sep p s : Forall (Forall (fun c => p c = false)) (splitOn p s).
Proof.
  induction s as [|c s IH]; simpl; [by repeat constructor|].
  destruct (p c) eqn:E; [by constructor|].
  destruct (splitOn p s); [by repeat constructor|].
  inversion IH; subst. repeat constructor; done.
Qed.

Lemma join_split1 c s : join [c] (split1 c s) = s.
Proof.
  unfold split1. induction s as [|d s IH]; simpl; [done|].
  destruct (Z.eqb_spec c d) as [->|Hne].
  - rewrite join_cons by apply splitOn_nonempty. by rewrite IH.
  - pose proof (splitOn_nonempty (Z.eqb c) s).
    destruct (splitOn (Z.eqb c) s) as [|w [|w' ws]]; [done|..]; simpl in *; congruence.
Qed.

Lemma split1_id c s : Forall (fun d => d <> c) s -> split1 c s = [s].
Proof.
  unfold split1. induction 1 as [|d s Hd Hs IH]; simpl; [done|].
  rewrite IH. destruct (Z.eqb_spec c d); congruence.
Qed.

Lemma split1_app c w s :
  Forall (fun d => d <> c) w -> split1 c (w ++ c :: s) = w :: split1 c s.
Proof.
  unfold split1. induction 1 as [|d w Hd Hw IH]; simpl.
  - by rewrite Z.eqb_refl.
  - rewrite IH. destruct (Z.eqb_spec c d); congruence.
Qed.

Lemma split1_join c ws :
  ws <> [] -> Forall (Forall (fun d => d <> c)) ws -> split1 c (join [c] ws) = ws.
Proof.
  intros Hne H. induction H as [|w ws Hw Hws IH]; [done|].
  destruct ws as [|w' ws]; [by apply split1_id|].
  rewrite join_cons by done. cbn [app]. rewrite split1_app by done. by rewrite IH.
Qed.

#[export] Hint Rewrite str_eqb_refl str_ltb_irrefl substring_full : jsrw.

Lemma join_nil a : join [] a = concat a.
Proof.
  induction a as [|w a IH]; [done|]. destruct a as [|w' a]; [simpl; by rewrite app_nil_r|].
  rewrite join_cons by done. cbn [concat app]. by rewrite IH.
Qed.

Lemma splitOn_app_sep p s c t :
  p c = true -> splitOn p (s ++ c :: t) = splitOn p s ++ splitOn p t.
Proof.
  intros Hc. induction s as [|d s IH]; simpl; [by rewrite Hc|].
  rewrite IH. destruct (p d); [done|].
  pose proof (splitOn_nonempty p s). by destruct (splitOn p s).
Qed.

Lemma slice_full {A} (s : list A) : slice s 0 (len s) = s.
Proof.
  unfold slice. cbv zeta. pose proof (len_nonneg s). destruct (Z.ltb_spec (len s) 0); [lia|].
  simpl. rewrite Z.min_id, Z.min_l by lia. rewrite Z.sub_0_r. simpl. rewrite drop_0.
  apply take_ge. unfold len. lia.
Qed.
