(* ===== verification/Acceptors.v ===== *)
(** The acceptor collection of the Thai word segmenter (wordcut.js, module 1)
    and the interface its creators and acceptors satisfy.

    JavaScript dispatches [creator.createAcceptor(tag)] and
    [acceptor.transit(ch)] dynamically; here the methods and fields a creator
    and an acceptor must have are the class [AcceptorOps], and what the
    segmenter relies on is the class [AcceptorLaws].  The theorems about the
    segmenter are proved against these classes; the rules and the dictionary
    are instances (files WordcutRules and Wordcut). *)
From Stdlib Require Import ZArith Lia.
From stdpp Require Import base gmap strings list.
From S2P Require Import Prelude JsString.

Local Open Scope Z_scope.

(** Methods and fields of creators [C] and acceptors [A]. *)
Class AcceptorOps (A C : Type) := {
  createAcceptor : C -> gmap string A -> option A;
  acc_transit : A -> Z -> outcome A;
  strOffset : A -> Z;
  isFinal : A -> bool;
  isError : A -> bool;
  acc_tag : A -> string;
  acc_type : A -> string;
  acc_w : A -> Z;
  acc_unk : A -> option Z;
  acc_mw : A -> option Z
}.

(** [acceptor.unk ? acceptor.unk : 0] and [acceptor.mw === undefined ? 0 : acceptor.mw]. *)
Definition orZero (o : option Z) : Z := default 0 o.

(** What the segmenter relies on: a fresh acceptor has read nothing; an
    acceptor that accepts a character has read exactly one more; its costs are
    not negative; [transit] never throws. *)
Class AcceptorLaws (A C : Type) `{AcceptorOps A C} := {
  creator_ok : C -> Prop;
  acc_ok : A -> Prop;
  create_law : forall c t a, creator_ok c -> createAcceptor c t = Some a ->
    acc_ok a /\ strOffset a = 0 /\ isFinal a = false /\ isError a = false;
  transit_law : forall a ch, acc_ok a -> isError a = false ->
    returns (acc_transit a ch) (fun a' => isError a' = false ->
      acc_ok a' /\ strOffset a' = strOffset a + 1);
  cost_law : forall a, acc_ok a ->
    0 <= acc_w a /\ 0 <= orZero (acc_unk a) /\ 0 <= orZero (acc_mw a)
}.

Section Acceptors.
Context {A C : Type} `{Ops : AcceptorOps A C}.

(** [var Acceptors = {creators, current, tag}]. *)
Record Acceptors := mkAcceptors {
  creators : list C;
  current : list A;
  tag : gmap string A
}.

(** [init]. *)
Definition acceptors_init : Acceptors := mkAcceptors [] [] ∅.

(** [reset]. *)
Definition reset (s : Acceptors) : Acceptors := mkAcceptors (creators s) [] ∅.

(** The body of the first loop of [transit]: the creators' new acceptors. *)
Definition newAcceptors (s : Acceptors) : list A :=
  omap (fun c => createAcceptor c (tag s)) (creators s).

(** One iteration of the second loop of [transit]: [st] is [(_current, self.tag)]. *)
Definition transitOne (ch : Z) (st : list A * gmap string A) (a : A)
    : outcome (list A * gmap string A) :=
  a' ← acc_transit a ch;
  if isError a' then Ret st
  else Ret (st.1 ++ [a'], <[acc_tag a' := a']> st.2).

(** [transit(ch)]. *)
Definition transit (s : Acceptors) (ch : Z) : outcome Acceptors :=
  '(cur, tg) ← foldO (transitOne ch) (current s ++ newAcceptors s) ([], ∅);
  Ret (mkAcceptors (creators s) cur tg).

(** [getFinalAcceptors()]. *)
Definition getFinalAcceptors (s : Acceptors) : list A :=
  filter (fun a => isFinal a = true) (current s).

End Acceptors.
Arguments Acceptors A C : clear implicits.

Section AcceptorsFacts.
Context {A C : Type} {Ops : AcceptorOps A C} {Laws : AcceptorLaws A C}.

(** Invariant after [n] characters: every live acceptor is well formed, has
    read between one and [n] characters and is not in error. *)
Definition live (n : Z) (a : A) : Prop :=
  acc_ok a /\ isError a = false /\ 1 <= strOffset a <= n.

Definition acceptors_inv (n : Z) (s : Acceptors A C) : Prop :=
  Forall creator_ok (creators s) /\ Forall (live n) (current s).

Lemma newAcceptors_ok s :
  Forall creator_ok (creators s) ->
  Forall (fun a => acc_ok a /\ isError a = false /\ strOffset a = 0) (newAcceptors s).
Proof.
  intros Hc. unfold newAcceptors. induction Hc as [|c cs Hc _ IH]; simpl; [constructor|].
  destruct (createAcceptor c (tag s)) eqn:E; [|done].
  destruct (create_law _ _ _ Hc E) as (? & ? & ? & ?). by constructor.
Qed.

Lemma transit_loop_ok n ch l st :
  Forall (fun a => acc_ok a /\ isError a = false /\ 0 <= strOffset a <= n) l ->
  Forall (live (n + 1)) st.1 ->
  returns (foldO (transitOne ch) l st) (fun st' => Forall (live (n + 1)) st'.1).
Proof.
  intros Hl. revert st. induction Hl as [|a l (Hok & He & Ho) _ IH]; intros st Hst; simpl.
  - by apply returns_ret.
  - destruct (transit_law a ch Hok He) as (a' & Ht & Ha').
    unfold transitOne. rewrite Ht. simpl. destruct (isError a') eqn:E; simpl; [by apply IH|].
    apply IH. simpl. apply Forall_app. split; [done|]. constructor; [|done].
    destruct (Ha' eq_refl) as [? ?]. unfold live. split_and!; try done; lia.
Qed.

Lemma transit_inv n s ch :
  0 <= n -> acceptors_inv n s ->
  returns (transit s ch) (fun s' => acceptors_inv (n + 1) s' /\ creators s' = creators s).
Proof.
  intros Hn [Hc Hcur]. unfold transit.
  destruct (transit_loop_ok n ch (current s ++ newAcceptors s) ([], ∅)) as ([cur tg] & E & H).
  - apply Forall_app. split.
    + eapply Forall_impl; [exact Hcur|]. intros a (? & ? & ?). split_and!; try done; lia.
    + eapply Forall_impl; [by apply newAcceptors_ok|]. intros a (? & ? & ?). split_and!; try done; lia.
  - constructor.
  - rewrite E. simpl. apply returns_ret. done.
Qed.

Lemma reset_inv n s : Forall creator_ok (creators s) -> acceptors_inv n (reset s).
Proof. intros H. split; [done | constructor]. Qed.

Lemma getFinal_live n s :
  acceptors_inv n s -> Forall (live n) (getFinalAcceptors s).
Proof. intros [_ H]. unfold getFinalAcceptors. rewrite !Forall_forall in *.
  intros a [_ Ha]%list_elem_of_filter. auto. Qed.

End AcceptorsFacts.
