(* ===== verification/PathInfo.v ===== *)
(** Path entries of the Thai word segmenter: the builder of candidate entries
    (wordcut.js, module 4, path_info_builder) and the selector of the best
    candidate (module 5, path_selector). *)
From Stdlib Require Import ZArith Lia.
From stdpp Require Import base gmap strings list.
From S2P Require Import Prelude JsString Acceptors.

Local Open Scope Z_scope.
Open Scope js_scope.

(** An entry of the path: the best way to reach a text position.  [ip] is the
    start of the last token ([null] for the initial entry), [imerge] the
    [merge] property ([undefined] until a PART acceptor sets it). *)
Record info := mkInfo {
  ip : option Z;
  imw : Z;
  iw : Z;
  iunk : Z;
  itype : string;
  imerge : option Z
}.

Definition setMerge (m : Z) (x : info) : info :=
  mkInfo (ip x) (imw x) (iw x) (iunk x) (itype x) (Some m).

(** * Selector *)

(** The reducer of [selectPath]. *)
Definition selectStep (selectedPath : option info) (path : info) : option info :=
  match selectedPath with
  | None => Some path
  | Some sel =>
      if iunk path <? iunk sel then Some path
      else if (iunk path =? iunk sel) then
        if imw path <? imw sel then Some path
        else if (imw path =? imw sel) && (iw path <? iw sel) then Some path
        else Some sel
      else Some sel
  end.

(** [selectPath(paths)]. *)
Definition selectPath (paths : list info) : option info :=
  fold_left selectStep paths None.

(** [createPath()]. *)
Definition createPath : list info := [mkInfo None 0 0 0 "INIT" None].

(** * Builder *)

Section Builder.
Context {A C : Type} `{Ops : AcceptorOps A C}.

(** [for(var j = p + 1; j <= i; j++) path[j].merge = p]. *)
Definition markMerge (p i : Z) (path : list info) : outcome (list info) :=
  foldO (fun path j => x ← orTypeError (path !!z j); Ret (setidx j (setMerge p x) path))
        (zrange (p + 1) i) path.

(** The mapped function of [buildByAcceptors]: the state is the (mutated) path
    and the infos built so far. *)
Definition buildOne (i : Z) (st : list info * list info) (a : A)
    : outcome (list info * list info) :=
  let path := st.1 in
  let p := i - strOffset a + 1 in
  _info ← orTypeError (path !!z p);
  let x := mkInfo (Some p)
             (imw _info + orZero (acc_mw a))
             (acc_w a + iw _info)
             (orZero (acc_unk a) + iunk _info)
             (acc_type a) None in
  if bool_decide (acc_type a = "PART"%string) then
    path' ← markMerge p i path;
    Ret (path', st.2 ++ [setMerge p x])
  else Ret (path, st.2 ++ [x]).

(** [buildByAcceptors(path, finalAcceptors, i)]: the path after the [merge]
    updates and the infos, in the order of the acceptors. *)
Definition buildByAcceptors (path : list info) (finalAcceptors : list A) (i : Z)
    : outcome (list info * list info) :=
  foldO (buildOne i) finalAcceptors (path, []).

(** [/[\u0E48-\u0E4E]/] : tone marks and signs. *)
Definition isToneMark (c : Z) : bool := (0x0E48 <=? c) && (c <=? 0x0E4E).

(** [fallback(path, leftBoundary, text, i)]. *)
Definition fallback (path : list info) (leftBoundary : Z) (text : jsstr) (i : Z) : outcome info :=
  _info ← orTypeError (path !!z leftBoundary);
  ch ← orTypeError (text !!z i);
  if isToneMark ch then
    let lb := if leftBoundary =? 0 then Some leftBoundary else ip _info in
    Ret (mkInfo lb 0 (1 + iw _info) (1 + iunk _info) "UNK" None)
  else
    Ret (mkInfo (Some leftBoundary) (imw _info) (1 + iw _info) (1 + iunk _info) "UNK" None).

(** [build(path, finalAcceptors, i, leftBoundary, text)]. *)
Definition build (path : list info) (finalAcceptors : list A) (i leftBoundary : Z) (text : jsstr)
    : outcome (list info * list info) :=
  '(path', basicPathInfos) ← buildByAcceptors path finalAcceptors i;
  if 0 <? len basicPathInfos then Ret (path', basicPathInfos)
  else x ← fallback path' leftBoundary text i; Ret (path', [x]).

End Builder.

(** * Facts about the selector *)

(** Lexicographic order on (unk, mw, w), the order [selectPath] minimises. *)
Definition better_eq (x y : info) : Prop :=
  iunk x < iunk y \/
  iunk x = iunk y /\ (imw x < imw y \/ imw x = imw y /\ iw x <= iw y).

Lemma better_eq_refl x : better_eq x x.
Proof. unfold better_eq. lia. Qed.

Lemma better_eq_trans x y z : better_eq x y -> better_eq y z -> better_eq x z.
Proof. unfold better_eq. lia. Qed.

Lemma selectStep_spec sel x :
  (selectStep (Some sel) x = Some x /\ better_eq x sel /\ ~ better_eq sel x) \/
  (selectStep (Some sel) x = Some sel /\ better_eq sel x).
Proof. unfold selectStep, better_eq. repeat break_match; boolprop; lia || (left; split; [done|lia]) || (right; split; [done|lia]). Qed.

Lemma selectPath_fold paths sel :
  exists x, fold_left selectStep paths (Some sel) = Some x /\
    (x = sel \/ x ∈ paths) /\ better_eq x sel /\ Forall (better_eq x) paths.
Proof.
  revert sel. induction paths as [|y paths IH]; intros sel; cbn [fold_left].
  - exists sel. split_and!; [done | by left | apply better_eq_refl | constructor].
  - destruct (selectStep_spec sel y) as [(-> & H & _)|(-> & H)].
    + destruct (IH y) as (x & -> & Hin & Hb & Hall). exists x. split_and!; [done|..].
      * right. destruct Hin as [->|?]; set_solver.
      * eauto using better_eq_trans.
      * by constructor.
    + destruct (IH sel) as (x & -> & Hin & Hb & Hall). exists x. split_and!; [done|..].
      * destruct Hin as [->|?]; set_solver.
      * done.
      * constructor; eauto using better_eq_trans.
Qed.

Lemma selectPath_some paths :
  paths <> [] -> exists x, selectPath paths = Some x /\ x ∈ paths /\ Forall (better_eq x) paths.
Proof.
  destruct paths as [|y paths]; [done|]. intros _. unfold selectPath. cbn [fold_left].
  destruct (selectPath_fold paths y) as (x & E & Hin & Hb & Hall).
  exists x. cbn [selectStep]. split_and!; [exact E| set_solver | by constructor].
Qed.

(** C14. [selectPath] minimises: on a non-empty list of candidates it returns one
    of them, and none is smaller in the lexicographic order on (unk, mw, w); on
    the empty list it returns [null]. *)
Theorem selectPath_minimal (paths : list info) :
  match selectPath paths with
  | Some x => x ∈ paths /\ Forall (better_eq x) paths
  | None => paths = []
  end.
Proof.
  destruct paths as [|y paths]; [done|].
  by destruct (selectPath_some (y :: paths)) as (x & -> & ?).
Qed.
