(* ===== verification/WordcutCore.v ===== *)
(** The segmentation driver of the Thai word segmenter (wordcut.js, module 8,
    wordcut_core): the left-to-right dynamic program [buildPath], the
    right-to-left walk [pathToRanges] and the entry points [cut],
    [cutIntoRanges] and [cutIntoArray], over the interface of file Acceptors. *)
From Stdlib Require Import ZArith Lia.
From stdpp Require Import base gmap strings list.
From S2P Require Import Prelude JsString Acceptors PathInfo.

Local Open Scope Z_scope.
Open Scope js_scope.

(** A token: [{s, e}]. *)
Record range := mkRange { rs : option Z; re : Z }.

Section Core.
Context {A C : Type} {Ops : AcceptorOps A C}.

(** State of the loop of [buildPath]. *)
Record buildState := mkBuild {
  b_acceptors : Acceptors A C;
  b_path : list info;
  b_leftBoundary : Z
}.

(** One iteration of the loop of [buildPath] at text index [i]. *)
Definition buildStep (text : jsstr) (st : buildState) (i : Z) : outcome buildState :=
  ch ← orTypeError (text !!z i);
  acceptors ← transit (b_acceptors st) ch;
  '(path, possiblePathInfos) ←
    build (b_path st) (getFinalAcceptors acceptors) i (b_leftBoundary st) text;
  selectedPath ← orTypeError (selectPath possiblePathInfos);
  Ret (mkBuild acceptors (path ++ [selectedPath])
         (if bool_decide (itype selectedPath = "UNK"%string) then b_leftBoundary st else i)).

(** [buildPath(text)]: the final acceptors are kept, the object is reused by the next call. *)
Definition buildPathState (acceptors : Acceptors A C) (text : jsstr) : outcome buildState :=
  foldO (buildStep text) (zrange 0 (len text - 1))
        (mkBuild (reset acceptors) createPath 0).

Definition buildPath (acceptors : Acceptors A C) (text : jsstr) : outcome (list info) :=
  b_path <$> buildPathState acceptors text.

(** The [while (e > 0)] loop of [pathToRanges]; the fuel bounds its iterations. *)
Fixpoint rangesLoop (fuel : nat) (path : list info) (e : Z) (ranges : list range)
    : outcome (list range) :=
  if 0 <? e then
    match fuel with
    | O => OutOfFuel
    | S fuel =>
        info ← orTypeError (path !!z e);
        match imerge info, last ranges with
        | Some m, Some r =>
            rangesLoop fuel path m (take (length ranges - 1) ranges ++ [mkRange (Some m) (re r)])
        | _, _ =>
            let ranges' := ranges ++ [mkRange (ip info) e] in
            match ip info with
            | Some s => rangesLoop fuel path s ranges'
            | None => Ret ranges'
            end
        end
    end
  else Ret ranges.

(** [pathToRanges(path)]: every iteration decreases [e], so [path.length] of them are enough. *)
Definition pathToRanges (path : list info) : outcome (list range) :=
  reverse <$> rangesLoop (length path) path (len path - 1) [].

(** [text.substring(r.s, r.e)]; [null] converts to 0. *)
Definition rangeText (text : jsstr) (r : range) : jsstr :=
  substring text (orZero (rs r)) (re r).

(** [rangesToText(text, ranges, delimiter)]. *)
Definition rangesToText (text : jsstr) (ranges : list range) (delimiter : jsstr) : jsstr :=
  join delimiter (map (rangeText text) ranges).

(** [cut(text, delimiter)]: the default delimiter is ["|"]. *)
Definition cut (acceptors : Acceptors A C) (text : jsstr) (delimiter : option jsstr) : outcome jsstr :=
  path ← buildPath acceptors text;
  ranges ← pathToRanges path;
  Ret (rangesToText text ranges (default (js "|") delimiter)).

(** [cutIntoRanges(text, noText)]: each range with its [text] unless [noText]. *)
Definition cutIntoRanges (acceptors : Acceptors A C) (text : jsstr) (noText : bool)
    : outcome (list (range * option jsstr)) :=
  path ← buildPath acceptors text;
  ranges ← pathToRanges path;
  Ret (map (fun r => (r, if noText then None else Some (rangeText text r))) ranges).

(** [cutIntoArray(text)]. *)
Definition cutIntoArray (acceptors : Acceptors A C) (text : jsstr) : outcome (list jsstr) :=
  path ← buildPath acceptors text;
  ranges ← pathToRanges path;
  Ret (map (rangeText text) ranges).

End Core.
Arguments buildState A C : clear implicits.

(** * The path invariant *)

(** The entry at index [k] of a path. *)
Definition info_ok (k : Z) (x : info) : Prop :=
  0 <= imw x /\ 0 <= iw x /\ 0 <= iunk x /\
  (0 < k -> exists p, ip x = Some p /\ 0 <= p < k) /\
  (forall m, imerge x = Some m -> 0 <= m < k).

(** After [n] characters the path has [n + 1] entries, each well formed. *)
Definition path_inv (n : Z) (path : list info) : Prop :=
  len path = n + 1 /\ (forall k x, path !!z k = Some x -> info_ok k x).

(** Two paths that differ only in their [merge] marks. *)
Definition sameCost (x y : info) : Prop :=
  ip x = ip y /\ imw x = imw y /\ iw x = iw y /\ iunk x = iunk y /\ itype x = itype y.

Definition samePath (p q : list info) : Prop :=
  forall k, option_relation sameCost (fun _ => False) (fun _ => False) (p !!z k) (q !!z k).

Lemma sameCost_refl x : sameCost x x.
Proof. repeat split. Qed.

Lemma sameCost_trans x y z : sameCost x y -> sameCost y z -> sameCost x z.
Proof. unfold sameCost. intuition congruence. Qed.

Lemma samePath_refl p : samePath p p.
Proof. intros k. destruct (p !!z k); simpl; [apply sameCost_refl | done]. Qed.

Lemma samePath_trans p q r : samePath p q -> samePath q r -> samePath p r.
Proof.
  intros H1 H2 k. specialize (H1 k). specialize (H2 k).
  destruct (p !!z k), (q !!z k), (r !!z k); simpl in *; try done.
  eauto using sameCost_trans.
Qed.

Lemma samePath_lookup p q k x :
  samePath p q -> p !!z k = Some x -> exists y, q !!z k = Some y /\ sameCost x y.
Proof.
  intros H E. specialize (H k). rewrite E in H. destruct (q !!z k); simpl in H; [eauto|done].
Qed.

Lemma samePath_setMerge p k m x :
  p !!z k = Some x -> samePath p (setidx k (setMerge m x) p).
Proof.
  intros Hx j. destruct (decide (k = j)) as [<-|Hne].
  - rewrite idx_setidx_eq by (by eapply idx_Some_range). rewrite Hx. repeat split.
  - rewrite idx_setidx_ne by done. destruct (p !!z j); simpl; [apply sameCost_refl|done].
Qed.

Lemma path_inv_setMerge n path k m x :
  path_inv n path -> path !!z k = Some x -> 0 <= m < k ->
  path_inv n (setidx k (setMerge m x) path).
Proof.
  intros [Hlen Hok] Hx Hm. split; [by rewrite len_setidx|].
  intros j y. destruct (decide (k = j)) as [<-|Hne].
  - rewrite idx_setidx_eq by (by eapply idx_Some_range). intros [= <-].
    destruct (Hok _ _ Hx) as (? & ? & ? & ? & _). unfold info_ok. simpl.
    split_and!; try done. intros m' [= <-]. lia.
  - rewrite idx_setidx_ne by done. apply Hok.
Qed.

Section CoreFacts.
Context {A C : Type} {Ops : AcceptorOps A C} {Laws : AcceptorLaws A C}.
Implicit Types (path infos : list info) (text : jsstr).

Lemma markMerge_ok n path p i :
  path_inv n path -> 0 <= p -> i <= n -> p <= i ->
  returns (markMerge p i path) (fun path' => path_inv n path' /\ samePath path path').
Proof.
  intros Hinv Hp Hi Hpi. unfold markMerge.
  apply (foldO_zrange_inv _ (fun _ path' => path_inv n path' /\ samePath path path')); [lia|..].
  - split; [done | apply samePath_refl].
  - intros k path' Hk [Hinv' Hsame].
    destruct (idx_is_Some path' k) as [x Hx]; [destruct Hinv' as [-> _]; lia|].
    rewrite Hx. simpl. apply returns_ret. split.
    + apply path_inv_setMerge; [done..|lia].
    + eauto using samePath_trans, samePath_setMerge.
Qed.

(** What one acceptor contributes to the candidates at index [i]. *)
Definition contributes (i : Z) (path : list info) (a : A) (x : info) : Prop :=
  let p := i - strOffset a + 1 in
  exists y, path !!z p = Some y /\ ip x = Some p /\
    imw x = imw y + orZero (acc_mw a) /\ iw x = acc_w a + iw y /\
    iunk x = orZero (acc_unk a) + iunk y /\ itype x = acc_type a /\
    imerge x = (if bool_decide (acc_type a = "PART"%string) then Some p else None).

Lemma contributes_ok i path a x :
  path_inv i path -> live (i + 1) a -> contributes i path a x -> info_ok (i + 1) x.
Proof.
  intros [_ Hok] (Ha & _ & Ho) (y & Hy & Hp & Hmw & Hw & Hunk & _ & Hm).
  destruct (cost_law a Ha) as (? & ? & ?). destruct (Hok _ _ Hy) as (? & ? & ? & _ & _).
  unfold info_ok. split_and!; try lia.
  - intros _. eexists. split; [exact Hp|]. lia.
  - intros m. rewrite Hm. case_bool_decide; [|done]. intros [= <-]. lia.
Qed.

Lemma contributes_same i path path' a x :
  samePath path' path -> contributes i path' a x -> contributes i path a x.
Proof.
  intros Hs (y & Hy & ?). destruct (samePath_lookup _ _ _ _ Hs Hy) as (z & Hz & ? & ? & ? & ? & ?).
  exists z. intuition congruence.
Qed.

Lemma samePath_sym p q : samePath p q -> samePath q p.
Proof.
  intros H k. specialize (H k). destruct (p !!z k), (q !!z k); simpl in *; try done.
  unfold sameCost in *. intuition congruence.
Qed.

Lemma buildOne_ok i path path1 infos a :
  path_inv i path1 -> samePath path path1 -> live (i + 1) a ->
  returns (buildOne i (path1, infos) a) (fun '(path2, infos2) =>
    path_inv i path2 /\ samePath path path2 /\ exists x, infos2 = infos ++ [x] /\ contributes i path a x).
Proof.
  intros Hinv Hsame (Ha & He & Ho). unfold buildOne. simpl.
  destruct (idx_is_Some path1 (i - strOffset a + 1)) as [y Hy]; [destruct Hinv as [-> _]; lia|].
  rewrite Hy. simpl. case_bool_decide as Ht.
  - destruct (markMerge_ok i path1 (i - strOffset a + 1) i) as (path2 & -> & Hinv2 & Hs2); [done|lia..|].
    simpl. apply returns_ret. split_and!; [done | by eapply samePath_trans|].
    eexists. split; [done|]. apply (contributes_same i path path1); [by apply samePath_sym|].
    exists y. simpl. rewrite bool_decide_eq_true_2 by done. split_and!; done.
  - apply returns_ret. split_and!; [done..|]. eexists. split; [done|].
    apply (contributes_same i path path1); [by apply samePath_sym|].
    exists y. simpl. rewrite bool_decide_eq_false_2 by done. split_and!; done.
Qed.

Lemma buildByAcceptors_ok i path accs :
  path_inv i path -> Forall (live (i + 1)) accs ->
  returns (buildByAcceptors path accs i) (fun '(path', infos) =>
    path_inv i path' /\ samePath path path' /\ Forall2 (contributes i path) accs infos).
Proof.
  intros Hinv Hlive. unfold buildByAcceptors.
  assert (Hgen : forall accs done_ path1 infos, Forall (live (i + 1)) accs ->
    path_inv i path1 -> samePath path path1 -> Forall2 (contributes i path) done_ infos ->
    returns (foldO (buildOne i) accs (path1, infos)) (fun '(path', infos') =>
      path_inv i path' /\ samePath path path' /\ Forall2 (contributes i path) (done_ ++ accs) infos')).
  { clear. induction accs as [|a accs IH]; intros done_ path1 infos Hl Hinv Hs Hd; cbn [foldO].
    - apply returns_ret. by rewrite app_nil_r.
    - inversion Hl; subst.
      destruct (buildOne_ok i path path1 infos a) as ([path2 infos2] & -> & Hinv2 & Hs2 & x & -> & Hx); [done..|].
      rewrite bind_Ret. replace (done_ ++ a :: accs) with ((done_ ++ [a]) ++ accs) by by rewrite <- app_assoc.
      apply IH; try done. apply Forall2_app; [done|]. by repeat constructor. }
  apply (Hgen accs [] path []); try done. apply samePath_refl.
Qed.

Lemma fallback_ok i path lb text :
  path_inv i path -> 0 <= lb <= i -> i < len text ->
  returns (fallback path lb text i) (fun x => info_ok (i + 1) x /\ itype x = "UNK"%string).
Proof.
  intros [Hlen Hok] Hlb Hi. unfold fallback.
  destruct (idx_is_Some path lb) as [y Hy]; [lia|]. destruct (idx_is_Some text i) as [ch Hch]; [lia|].
  rewrite Hy, Hch. simpl. destruct (Hok _ _ Hy) as (? & ? & ? & Hp & _).
  destruct (isToneMark ch).
  - apply returns_ret. split; [|done]. unfold info_ok. simpl. split_and!; try lia; [|done].
    intros _. destruct (Z.eqb_spec lb 0) as [->|Hne].
    + exists 0. split; [done|lia].
    + destruct Hp as (p & -> & Hp); [lia|]. exists p. split; [done|lia].
  - apply returns_ret. split; [|done]. unfold info_ok. simpl. split_and!; try lia; [|done].
    intros _. exists lb. split; [done|lia].
Qed.

Lemma build_ok i path accs lb text :
  path_inv i path -> Forall (live (i + 1)) accs -> 0 <= lb <= i -> i < len text ->
  returns (build path accs i lb text) (fun '(path', infos) =>
    path_inv i path' /\ samePath path path' /\ infos <> [] /\ Forall (info_ok (i + 1)) infos /\
    (forall a, a ∈ accs -> exists x, x ∈ infos /\ contributes i path a x) /\
    (accs <> [] -> Forall2 (contributes i path) accs infos)).
Proof.
  intros Hinv Hlive Hlb Hi. unfold build.
  destruct (buildByAcceptors_ok i path accs) as ([path' infos] & -> & Hinv' & Hs & HF); [done..|].
  rewrite bind_Ret. destruct (Z.ltb_spec 0 (len infos)) as [Hlt|Hge].
  - apply returns_ret. split_and!; [done..| by intros -> | | |done].
    + apply Forall_forall. intros x Hx. destruct (list_elem_of_lookup_1 _ _ Hx) as [k Hk].
      destruct (Forall2_lookup_r _ _ _ _ _ HF Hk) as (a & Hka & Hc).
      apply (contributes_ok i path a); [done| |done]. by eapply Forall_lookup_1.
    + intros a Ha. destruct (list_elem_of_lookup_1 _ _ Ha) as [k Hk].
      destruct (Forall2_lookup_l _ _ _ _ _ HF Hk) as (x & Hx & Hc).
      exists x. split; [by eapply list_elem_of_lookup_2 | done].
  - destruct (fallback_ok i path' lb text) as (x & -> & Hx & _); [done..|].
    assert (infos = []) as ->. { destruct infos; [done|]. rewrite len_cons in Hge. pose proof (len_nonneg infos). lia. }
    inversion HF; subst. simpl. apply returns_ret. split_and!; try done; [by constructor|].
    intros a Ha. by apply elem_of_nil in Ha.
Qed.

Lemma path_inv_snoc i path x :
  path_inv i path -> info_ok (i + 1) x -> path_inv (i + 1) (path ++ [x]).
Proof.
  intros [Hlen Hok] Hx. split; [rewrite len_app, len_cons, len_nil; lia|].
  intros k y Hk. destruct (Z.lt_ge_cases k (len path)) as [Hlt|Hge].
  - rewrite idx_app_l in Hk by done. auto.
  - pose proof (idx_Some_range _ _ _ Hk) as Hr. autorewrite with jsrw in Hr.
    assert (k = i + 1) as -> by lia. rewrite <- Hlen, idx_snoc in Hk. by injection Hk as <-.
Qed.

(** The invariant of the loop of [buildPath] before index [i]. *)
Definition build_inv (i : Z) (st : buildState A C) : Prop :=
  acceptors_inv i (b_acceptors st) /\ path_inv i (b_path st) /\ 0 <= b_leftBoundary st <= i.

Lemma createPath_inv : path_inv 0 createPath.
Proof.
  split; [done|]. intros k x Hk. pose proof (idx_Some_range _ _ _ Hk) as Hr.
  change (len createPath) with 1 in Hr. assert (k = 0) as -> by lia.
  injection Hk as <-. unfold info_ok. simpl. split_and!; try lia. done.
Qed.

Lemma buildStep_inv text st i :
  0 <= i < len text -> build_inv i st -> returns (buildStep text st i) (build_inv (i + 1)).
Proof.
  intros Hi (Hacc & Hpath & Hlb). unfold buildStep.
  destruct (idx_is_Some text i) as [ch Hch]; [lia|]. rewrite Hch. simpl.
  destruct (transit_inv i (b_acceptors st) ch) as (acc & -> & Hacc' & _); [lia|done|].
  rewrite bind_Ret.
  destruct (build_ok i (b_path st) (getFinalAcceptors acc) (b_leftBoundary st) text)
    as ([path infos] & -> & Hp & _ & Hne & Hinfos & _); [done|by apply getFinal_live|lia..|].
  rewrite bind_Ret. destruct (selectPath_some infos Hne) as (x & -> & Hx & _). simpl.
  apply returns_ret. unfold build_inv. simpl. split_and!; [done|..].
  - apply path_inv_snoc; [done|]. by eapply Forall_forall in Hinfos.
  - case_bool_decide; lia.
  - case_bool_decide; lia.
Qed.

Lemma buildPathState_ok acc text :
  Forall creator_ok (creators acc) ->
  returns (buildPathState acc text) (build_inv (len text)).
Proof.
  intros Hc. pose proof (len_nonneg text). unfold buildPathState.
  replace (len text) with (len text - 1 + 1) at 2 by lia.
  apply foldO_zrange_inv; [lia|..].
  - split_and!; [by apply reset_inv | apply createPath_inv | simpl; lia..].
  - intros k st Hk. apply buildStep_inv. lia.
Qed.

Lemma buildPath_ok acc text :
  Forall creator_ok (creators acc) -> returns (buildPath acc text) (path_inv (len text)).
Proof.
  intros Hc. unfold buildPath.
  destruct (buildPathState_ok acc text Hc) as (st & -> & _ & Hp & _). by eexists.
Qed.

End CoreFacts.

(** * Tokens tile the text *)

(** [tiling a b l]: the ranges of [l], left to right, are adjacent, not empty,
    and cover exactly the positions from [a] to [b]. *)
Inductive tiling : Z -> Z -> list range -> Prop :=
| tiling_nil a : tiling a a []
| tiling_cons a m b l : a < m -> tiling m b l -> tiling a b (mkRange (Some a) m :: l).

Lemma tiling_le a b l : tiling a b l -> a <= b.
Proof. induction 1; lia. Qed.

Lemma tiling_text text a b l :
  tiling a b l -> 0 <= a -> b <= len text ->
  concat (map (rangeText text) l) = substring text a b.
Proof.
  induction 1 as [a|a m b l Ham Ht IH]; intros Ha Hb; cbn [map concat].
  - rewrite substring_split by lia. by rewrite Z.sub_diag.
  - apply tiling_le in Ht as Hle. rewrite IH by lia. unfold rangeText. simpl.
    apply substring_app; lia.
Qed.

Lemma tiling_nonempty text a b l :
  tiling a b l -> 0 <= a -> b <= len text -> Forall (fun w => w <> []) (map (rangeText text) l).
Proof.
  induction 1 as [a|a m b l Ham Ht IH]; intros Ha Hb; cbn [map]; constructor.
  - apply tiling_le in Ht. unfold rangeText. simpl. rewrite substring_split by lia.
    intros E%(f_equal length). rewrite length_take, length_drop in E. unfold len in Hb. simpl in E. lia.
  - apply IH; lia.
Qed.

Lemma rangesLoop_ok n path fuel e ranges :
  path_inv n path -> 0 <= e <= n -> e <= Z.of_nat fuel ->
  tiling e n (reverse ranges) ->
  returns (rangesLoop fuel path e ranges) (fun ranges' => tiling 0 n (reverse ranges')).
Proof.
  intros [Hlen Hok]. revert e ranges. induction fuel as [|fuel IH]; intros e ranges He Hf Ht; cbn [rangesLoop].
  - assert (e = 0) as -> by lia. by apply returns_ret.
  - destruct (Z.ltb_spec 0 e) as [Hpos|Hz]; [|assert (e = 0) as -> by lia; by apply returns_ret].
    destruct (idx_is_Some path e) as [x Hx]; [lia|]. rewrite Hx. simpl.
    destruct (Hok _ _ Hx) as (_ & _ & _ & Hp & Hm). destruct (Hp Hpos) as (p & Hip & Hp').
    assert (Hpush : returns (rangesLoop fuel path p (ranges ++ [mkRange (Some p) e]))
                      (fun ranges' => tiling 0 n (reverse ranges'))).
    { apply IH; [lia..|]. rewrite reverse_snoc. constructor; [lia|done]. }
    destruct (imerge x) as [m|] eqn:Em; [|by rewrite Hip].
    specialize (Hm m eq_refl).
    destruct (last ranges) as [r|] eqn:El; [|by rewrite Hip].
    apply last_Some in El as [l ->]. apply IH; [lia..|].
    rewrite length_app. simpl. replace (length l + 1 - 1)%nat with (length l) by lia.
    rewrite take_app_length. rewrite reverse_snoc in Ht |- *.
    inversion Ht; subst. cbn [re]. constructor; [lia|done].
Qed.

Lemma pathToRanges_ok n path :
  0 <= n -> path_inv n path -> returns (pathToRanges path) (tiling 0 n).
Proof.
  intros Hn Hinv. unfold pathToRanges. destruct Hinv as [Hlen Hok].
  rewrite Hlen. replace (n + 1 - 1) with n by lia.
  destruct (rangesLoop_ok n path (length path) n []) as (l & -> & Hl).
  - done.
  - lia.
  - unfold len in Hlen. lia.
  - constructor.
  - simpl. by eexists.
Qed.

Section CutFacts.
Context {A C : Type} {Ops : AcceptorOps A C} {Laws : AcceptorLaws A C}.

Lemma segment_ok (acc : Acceptors A C) text :
  Forall creator_ok (creators acc) ->
  exists path ranges, buildPath acc text = Ret path /\ path_inv (len text) path /\
    pathToRanges path = Ret ranges /\ tiling 0 (len text) ranges.
Proof.
  intros Hc. destruct (buildPath_ok acc text Hc) as (path & Hb & Hp).
  destruct (pathToRanges_ok (len text) path) as (ranges & Hr & Ht); [apply len_nonneg | done|].
  eauto 10.
Qed.

End CutFacts.

(** * An unknown character after a known one *)

(** The last entry of the path, where the first range starts. *)
Lemma rangesLoop_first path fuel e ranges r out : rangesLoop fuel path e ranges = Ret out ->
  (forall k x, path !!z k = Some x -> info_ok k x) ->
  head ranges = Some r -> (length ranges = 1%nat -> rs r = Some e) -> exists r', head out = Some r' /\ re r' = re r /\ orZero (rs r') <= orZero (rs r).
Proof.
  revert e ranges r. induction fuel as [|fuel IH]; intros e ranges r; cbn [rangesLoop]; (destruct (Z.ltb_spec 0 e) as [He|He]; [|intros [= <-]; eauto using Z.le_refl]); [done|].
  destruct (path !!z e) as [x|] eqn:Hx; [|done]. cbn [orTypeError]. rewrite bind_Ret. intros H Hok Hr Hone. destruct (Hok _ _ Hx) as (_ & _ & _ & _ & Hm).
  destruct ranges as [|r0 l]; [done|]. cbn [head] in Hr. injection Hr as ->.
  assert (Hpush : forall p, rangesLoop fuel path p ((r :: l) ++ [mkRange (Some p) e]) = Ret out -> exists r', head out = Some r' /\ re r' = re r /\ orZero (rs r') <= orZero (rs r)).
  { intros p Hp. apply (IH p _ r Hp Hok); [done|]. cbn. rewrite length_app. cbn. lia. }
  destruct (imerge x) as [m|] eqn:Em; cycle 1.
  { destruct (ip x) as [p|]; [by apply (Hpush p)|]. injection H as <-. exists r. auto using Z.le_refl. }
  specialize (Hm m eq_refl). destruct (last (r :: l)) as [q|] eqn:El; [|by destruct l using rev_ind; [|rewrite app_comm_cons, last_snoc in El]].
  destruct l as [|r1 l].
  - injection El as <-. cbn in H. destruct (IH m _ (mkRange (Some m) (re r)) H Hok eq_refl ltac:(done)) as (r' & ? & ? & Hle). exists r'. split_and!; [done..|].
    rewrite (Hone eq_refl). cbn in *. lia.
  - apply (IH m _ r H Hok); [done|]. rewrite length_app, length_take. cbn. lia.
Qed.

Lemma tiling_last a b l r : tiling a b (l ++ [r]) -> exists m, r = mkRange (Some m) b /\ a <= m < b.
Proof.
  revert a. induction l as [|x l IH]; intros a H; cbn in H.
  - inversion H as [|? m ? ? Hm Ht]; subst. inversion Ht; subst. exists a. split; [done|lia].
  - inversion H as [|? m ? ? Hm Ht]; subst. destruct (IH _ Ht) as (k & -> & ?). exists k. split; [done|lia].
Qed.

(** A last entry without a merge mark gives the last range its start, which later marks
    may only move to the left. *)
Lemma unknown_ranges n path x ranges : path_inv (n + 1) path -> last path = Some x -> ip x = Some (n - 1) -> imerge x = None -> pathToRanges path = Ret ranges -> 0 < n ->
  exists l r, ranges = l ++ [r] /\ re r = n + 1 /\ orZero (rs r) <= n - 1.
Proof.
  intros [Hlen Hok] Hx Hip Hm Hr Hn. unfold pathToRanges in Hr. rewrite Hlen in Hr. replace (n + 1 + 1 - 1) with (n + 1) in Hr by lia.
  apply last_Some in Hx as [path0 ->]. assert (Hp : (path0 ++ [x]) !!z (n + 1) = Some x).
  { rewrite len_app, len_cons, len_nil in Hlen. replace (n + 1) with (len path0) by lia. apply idx_snoc. }
  destruct (length (path0 ++ [x])) as [|fuel] eqn:Ef; [by rewrite length_app in Ef; cbn in Ef; lia|]. cbn [rangesLoop] in Hr.
  destruct (Z.ltb_spec 0 (n + 1)); [|lia]. rewrite Hp in Hr. cbn [orTypeError] in Hr. rewrite bind_Ret, Hm, Hip in Hr. cbn [last app] in Hr.
  destruct (rangesLoop fuel _ _ _) as [out| |] eqn:Eo; [|done..]. injection Hr as <-.
  destruct (rangesLoop_first _ _ _ _ (mkRange (Some (n - 1)) (n + 1)) _ Eo Hok eq_refl ltac:(done)) as (r & Hh & Hre & Hrs).
  destruct out as [|r0 out]; [done|]. injection Hh as ->. exists (reverse out), r. by rewrite reverse_cons.
Qed.

Lemma substring_app_snoc u (c : Z) a : 0 <= a <= len u -> substring (u ++ [c]) a (len u + 1) = substring u a (len u) ++ [c].
Proof.
  intros Ha. rewrite !substring_split by (rewrite ?len_app, ?len_cons, ?len_nil; lia). unfold len in *. rewrite drop_app_le by lia.
  rewrite (take_ge (drop _ u)) by (rewrite length_drop; lia). apply take_ge. rewrite length_app, length_drop. cbn. lia.
Qed.

Section Unknown.
Context {A C : Type} {Ops : AcceptorOps A C} {Laws : AcceptorLaws A C}.

(** Whether the text is recognised up to its end. *)
Definition endsWith (P : string -> Prop) (acc : Acceptors A C) (text : jsstr) : Prop :=
  exists path x, buildPath acc text = Ret path /\ last path = Some x /\ P (itype x).

Lemma buildStep_app u v st i : 0 <= i < len u -> buildStep (u ++ v) st i = buildStep u st i.
Proof.
  intros Hi. unfold buildStep, build, fallback. by rewrite idx_app_l by lia.
Qed.

Lemma buildStep_last text st i st' : buildStep text st i = Ret st' ->
  exists x path, b_path st' = path ++ [x] /\ b_leftBoundary st' = (if bool_decide (itype x = "UNK"%string) then b_leftBoundary st else i).
Proof.
  unfold buildStep. destruct (text !!z i) as [ch|]; [|done]. cbn [orTypeError]. rewrite bind_Ret. destruct (transit _ ch) as [acc| |]; cbn; try done.
  destruct (build _ _ _ _ _) as [[path infos]| |]; cbn; try done. destruct (selectPath infos) as [x|]; [|done]. cbn. intros [= <-]. cbn. eauto.
Qed.

Lemma buildPathState_snoc acc u c : buildPathState acc (u ++ [c]) = (st ← buildPathState acc u; buildStep (u ++ [c]) st (len u)).
Proof.
  pose proof (len_nonneg u). unfold buildPathState. replace (len (u ++ [c]) - 1) with (len u) by (autorewrite with jsrw; lia).
  rewrite (zrange_snoc 0 (len u)) by lia. rewrite foldO_app. rewrite (foldO_ext (buildStep (u ++ [c])) (buildStep u)).
  - destruct (foldO (buildStep u) _ _); [|done..]. rewrite !bind_Ret. cbn [foldO]. by destruct (buildStep _ _ _).
  - intros st i Hi%elem_of_zrange. apply buildStep_app. lia.
Qed.

(** After a recognised character the left boundary is its index. *)
Lemma recognised_boundary acc u st x : u <> [] -> buildPathState acc u = Ret st -> last (b_path st) = Some x -> itype x <> "UNK"%string -> b_leftBoundary st = len u - 1.
Proof.
  destruct u as [|d u _] using rev_ind; [done|]. intros _. rewrite buildPathState_snoc. destruct (buildPathState acc u) as [st0| |]; [|done..]. rewrite bind_Ret.
  intros (y & path & -> & ->)%buildStep_last. rewrite last_snoc. intros [= ->] Hx. rewrite bool_decide_eq_false_2 by done. rewrite len_app, len_cons, len_nil. lia.
Qed.

(** The step that finds no acceptor for a character that is no tone mark. *)
Lemma unknown_step text st i ch st' x : (forall a : A, acc_type a <> "UNK"%string) -> build_inv i st -> 0 <= i -> text !!z i = Some ch -> isToneMark ch = false ->
  buildStep text st i = Ret st' -> last (b_path st') = Some x -> itype x = "UNK"%string -> ip x = Some (b_leftBoundary st) /\ imerge x = None.
Proof.
  intros Hty (Hacc & Hpath & Hlb) Hi Hch Htone. pose proof (idx_Some_range _ _ _ Hch). unfold buildStep. rewrite Hch. cbn [orTypeError]. rewrite bind_Ret.
  destruct (transit_inv i (b_acceptors st) ch) as (acc & -> & Hacc' & _); [lia|done|]. rewrite bind_Ret. unfold build.
  destruct (buildByAcceptors_ok i (b_path st) (getFinalAcceptors acc)) as ([path infos] & -> & Hp & _ & HF); [done|by apply getFinal_live|]. rewrite bind_Ret.
  destruct (Z.ltb_spec 0 (len infos)) as [Hlt|Hge].
  - rewrite bind_Ret. destruct (selectPath_some infos) as (y & -> & Hy & _); [by intros ->|]. cbn [orTypeError]. rewrite bind_Ret. intros [= <-]. cbn [b_path]. rewrite last_snoc. intros [= ->] Hx.
    exfalso. destruct (list_elem_of_lookup_1 _ _ Hy) as [k Hk]. destruct (Forall2_lookup_r _ _ _ _ _ HF Hk) as (a & _ & z & _ & _ & _ & _ & _ & Ht & _). apply (Hty a). congruence.
  - unfold fallback. destruct (idx_is_Some path (b_leftBoundary st)) as [y Hy]; [destruct Hp as [-> _]; lia|]. rewrite Hy, Hch. cbn [orTypeError]. rewrite !bind_Ret, Htone, !bind_Ret. cbn.
    intros [= <-]. cbn [b_path]. rewrite last_snoc. by intros [= <-].
Qed.

Lemma unknown_after_known acc u c : Forall creator_ok (creators acc) -> (forall a : A, acc_type a <> "UNK"%string) -> u <> [] -> isToneMark c = false ->
  endsWith (fun t => t <> "UNK"%string) acc u -> endsWith (fun t => t = "UNK"%string) acc (u ++ [c]) ->
  exists ts u0 v, cutIntoArray acc (u ++ [c]) = Ret (ts ++ [v ++ [c]]) /\ u = u0 ++ v /\ v <> [].
Proof.
  intros Hc Hty Hu Htone (p1 & x1 & Hp1 & Hx1 & Hk) (p2 & x2 & Hp2 & Hx2 & Hk2).
  destruct (segment_ok acc (u ++ [c]) Hc) as (path & ranges & Hb & Hinv & Hr & Ht). rewrite Hp2 in Hb. injection Hb as <-.
  destruct (buildPathState_ok acc u Hc) as (st & Hst & Hbi). unfold buildPath in Hp1, Hp2. rewrite Hst in Hp1. injection Hp1 as <-. rewrite buildPathState_snoc, Hst, bind_Ret in Hp2.
  destruct (buildStep (u ++ [c]) st (len u)) as [st2| |] eqn:E2; [|done..]. injection Hp2 as <-. pose proof (len_nonneg u).
  destruct (unknown_step _ _ _ c _ x2 Hty Hbi ltac:(lia) ltac:(apply idx_app_here) Htone E2 Hx2 Hk2) as [Hip Hmg].
  rewrite (recognised_boundary acc u st x1 Hu Hst Hx1 Hk) in Hip.
  set (n := len u) in *. assert (Hn : len (u ++ [c]) = n + 1) by (rewrite len_app, len_cons, len_nil; lia). rewrite Hn in *.
  assert (0 < n) by (destruct u; [done|unfold n; rewrite len_cons; pose proof (len_nonneg u); lia]).
  destruct (unknown_ranges n (b_path st2) x2 ranges Hinv Hx2 Hip Hmg Hr ltac:(lia)) as (rs0 & r & -> & Hre & Hrs). apply tiling_last in Ht as (a & -> & Ha). cbn in Hre, Hrs. subst.
  exists (map (rangeText (u ++ [c])) rs0), (substring u 0 a), (substring u a n).
  unfold cutIntoArray, buildPath. rewrite buildPathState_snoc, Hst, bind_Ret. fold n. rewrite E2. cbn. rewrite Hr. cbn. rewrite map_app. cbn. unfold rangeText at 2. cbn. split_and!.
  - repeat f_equal. apply substring_app_snoc. lia.
  - rewrite substring_app by lia. unfold n. symmetry. apply substring_full.
  - intros E%(f_equal len). rewrite substring_split in E by lia. unfold len in *. rewrite length_take, length_drop in E. cbn in E. lia.
Qed.
End Unknown.
