(* ===== verification/WordcutDict.v ===== *)
(** The dictionary of the Thai word segmenter (wordcut.js, module 2, dict):
    loading, sorting and the two binary searches that advance a dictionary
    acceptor by one character.

    The words shipped with the program are one string literal (line 109 of
    wordcut.js, 480 kB); it is the argument [data] of the definitions that
    read it, and the theorems hold for every [data]. *)
From Stdlib Require Import ZArith Lia.
From stdpp Require Import base gmap strings list sorting.
From S2P Require Import Prelude JsString.

Local Open Scope Z_scope.
Open Scope js_scope.

(** [LEFT] and [RIGHT]. *)
Inductive side := LEFT | RIGHT.

(** The [filter] of [sortuniq]: [prev] is [arr[pos - 1]], [None] at [pos = 0]. *)
Fixpoint uniqFrom (prev : option jsstr) (a : list jsstr) : list jsstr :=
  match a with
  | [] => []
  | item :: a' =>
      let keep := match prev with None => true | Some q => negb (str_eqb item q) end in
      if keep then item :: uniqFrom (Some item) a' else uniqFrom (Some item) a'
  end.

(** [sortuniq(a)]. *)
Definition sortuniq (a : list jsstr) : list jsstr := uniqFrom None (sortStrings a).

(** [flatten(a)]. *)
Definition flatten (a : list (list jsstr)) : list jsstr := concat a.

(** [finalizeDict()]. *)
Definition finalizeDict (dict : list jsstr) : list jsstr := sortuniq dict.

(** [finalize === undefined || finalize]. *)
Definition orTrue (o : option bool) : bool := default true o.

(** [addWords(words, finalize)]. *)
Definition addWords (dict words : list jsstr) (finalize : option bool) : list jsstr :=
  let dict' := dict ++ words in
  if orTrue finalize then finalizeDict dict' else dict'.

(** [data.split(/[\r\n]+/).filter(w => w.length > 1)]. *)
Definition dataWords (data : jsstr) : list jsstr :=
  filter (fun w => 1 < len w) (splitRun (fun c => (c =? 13) || (c =? 10)) false data).

(** [addFiles(files, finalize)]: the loop runs once and reads the literal, whatever [files] is. *)
Definition addFiles (data : jsstr) (dict : list jsstr) (files : list jsstr) (finalize : option bool)
    : list jsstr :=
  let dict' := addWords dict (dataWords data) (Some false) in
  if orTrue finalize then finalizeDict dict' else dict'.

(** The argument [dictPathFile] of [init]: one path or an array of paths. *)
Inductive pathArg := OnePath (p : jsstr) | ManyPaths (ps : list jsstr).

(** [dictPath] as [init] computes it.  In the array case the source calls
    [dictPath.concat.apply(dictPath, dictPathFile)] and drops the result, so
    the array leaves [dictPath] as it was. *)
Definition dictPaths (defaultDict : jsstr) (dictPathFile : option pathArg) (withDefault : bool)
    : list jsstr :=
  let base := if withDefault || bool_decide (dictPathFile = None) then [defaultDict] else [] in
  match dictPathFile with
  | None => base
  | Some (ManyPaths _) => base
  | Some (OnePath p) => base ++ [p]
  end.

(** [init(dictPathFile, withDefault, words)]: the final [this.dict]. *)
Definition dict_init (data defaultDict : jsstr) (dictPathFile : option pathArg)
    (withDefault : bool) (words : option (list jsstr)) : list jsstr :=
  let dict := addFiles data [] (dictPaths defaultDict dictPathFile withDefault) (Some false) in
  let dict := match words with None => dict | Some ws => addWords dict ws (Some false) end in
  finalizeDict dict.

(** The loop of [dictSeek(l, r, ch, strOffset, pos)]. *)
Fixpoint dictSeekLoop (fuel : nat) (dict : list jsstr) (l r ch off : Z) (pos : side) (ans : option Z)
    : outcome (option Z) :=
  if l <=? r then
    match fuel with
    | O => OutOfFuel
    | S fuel =>
        let m := (l + r) / 2 in
        dict_item ← orTypeError (dict !!z m);
        if len dict_item <=? off then dictSeekLoop fuel dict (m + 1) r ch off pos ans
        else
          ch_ ← orTypeError (dict_item !!z off);
          if ch_ <? ch then dictSeekLoop fuel dict (m + 1) r ch off pos ans
          else if ch <? ch_ then dictSeekLoop fuel dict l (m - 1) ch off pos ans
          else match pos with
               | LEFT => dictSeekLoop fuel dict l (m - 1) ch off pos (Some m)
               | RIGHT => dictSeekLoop fuel dict (m + 1) r ch off pos (Some m)
               end
    end
  else Ret ans.

(** [dictSeek]: every iteration shrinks [[l, r]], so [r - l + 1] of them are enough. *)
Definition dictSeek (dict : list jsstr) (l r ch off : Z) (pos : side) : outcome (option Z) :=
  dictSeekLoop (Z.to_nat (r - l + 1)) dict l r ch off pos None.

(** The fields of a dictionary acceptor. *)
Record dictAcceptor := mkDictAcc {
  dl : Z; dr : Z; dOffset : Z; dFinal : bool; dError : bool
}.

(** [createAcceptor()]. *)
Definition dictCreate (dict : list jsstr) : dictAcceptor :=
  mkDictAcc 0 (len dict - 1) 0 false false.

(** [isFinal(acceptor)]. *)
Definition dictIsFinal (dict : list jsstr) (l off : Z) : outcome bool :=
  w ← orTypeError (dict !!z l); Ret (len w =? off).

(** [transit(acceptor, ch)].  When the left search finds an entry so does the
    right one (lemma [dictTransit_ok]), so the model has no [null] right end. *)
Definition dictTransit (dict : list jsstr) (a : dictAcceptor) (ch : Z) : outcome dictAcceptor :=
  l ← dictSeek dict (dl a) (dr a) ch (dOffset a) LEFT;
  match l with
  | Some l =>
      r ← dictSeek dict l (dr a) ch (dOffset a) RIGHT;
      r ← orTypeError r;
      fin ← dictIsFinal dict l (dOffset a + 1);
      Ret (mkDictAcc l r (dOffset a + 1) fin (dError a))
  | None => Ret (mkDictAcc (dl a) (dr a) (dOffset a) (dFinal a) true)
  end.

(** Reading a whole string. *)
Definition dictRun (dict : list jsstr) (s : jsstr) : outcome dictAcceptor :=
  foldO (fun a ch => if dError a then Ret a else dictTransit dict a ch) s (dictCreate dict).

(** * Sorting *)

(** A finalized dictionary: strictly increasing. *)
Definition strictly_sorted (dict : list jsstr) : Prop :=
  StronglySorted (fun s t => str_ltb s t = true) dict.

Lemma uniqFrom_elem q a x :
  StronglySorted str_le a -> match q with Some q => Forall (str_le q) a | None => True end ->
  x ∈ uniqFrom q a <-> x ∈ a /\ q <> Some x.
Proof.
  intros Hs. revert q. induction Hs as [|item a Hs IH Hall]; intros q Hq; cbn [uniqFrom].
  - set_solver.
  - assert (Hx : x ∈ uniqFrom (Some item) a <-> x ∈ a /\ Some item <> Some x) by by apply IH.
    destruct q as [q|].
    + unfold str_eqb. case_bool_decide as E; subst; simpl.
      * rewrite Hx, elem_of_cons. naive_solver.
      * rewrite !elem_of_cons, Hx. destruct (decide (x = item)) as [->|]; [naive_solver|].
        split; [intros [?|[? ?]]; [done|]|naive_solver]. split; [by right|]. intros [= ->].
        inversion Hq as [|? ? Hqi _]; subst. rewrite Forall_forall in Hall.
        specialize (Hall x ltac:(done)). unfold str_le, str_leb in *. boolprop.
        by rewrite (str_ltb_total _ _ Hall Hqi) in *.
    + rewrite !elem_of_cons, Hx. destruct (decide (x = item)); naive_solver.
Qed.

Lemma uniqFrom_strict q a :
  StronglySorted str_le a -> match q with Some q => Forall (str_le q) a | None => True end ->
  strictly_sorted (uniqFrom q a).
Proof.
  unfold strictly_sorted. intros Hs. revert q.
  induction Hs as [|item a Hs IH Hall]; intros q Hq; cbn [uniqFrom]; [constructor|].
  assert (Hrest : StronglySorted (fun s t => str_ltb s t = true) (uniqFrom (Some item) a)) by by apply IH.
  destruct (match q with Some q0 => negb (str_eqb item q0) | None => true end); [|done].
  constructor; [done|]. apply Forall_forall. intros x Hx.
  apply uniqFrom_elem in Hx as [Hx Hne]; [|done..]. rewrite Forall_forall in Hall.
  specialize (Hall x Hx). unfold str_le, str_leb in Hall. boolprop.
  destruct (str_ltb item x) eqn:E; [done|]. by rewrite (str_ltb_total _ _ E Hall) in Hne.
Qed.

Lemma sortuniq_elem a x : x ∈ sortuniq a <-> x ∈ a.
Proof.
  unfold sortuniq. rewrite uniqFrom_elem by (apply sortStrings_sorted || done).
  rewrite sortStrings_perm. naive_solver.
Qed.

Lemma sortuniq_strict a : strictly_sorted (sortuniq a).
Proof. apply uniqFrom_strict; [apply sortStrings_sorted | done]. Qed.

(** * The binary searches *)

(** How the entry at index [k] compares with [ch] at position [off]; an entry
    too short to have that position comes before every character. *)
Definition clsAt (dict : list jsstr) (ch off k : Z) : comparison :=
  match dict !!z k with
  | Some w => match w !!z off with Some c => (c ?= ch) | None => Lt end
  | None => Lt
  end.

Definition monotone_on (cls : Z -> comparison) (l r : Z) : Prop :=
  forall j k, l <= j <= k -> k <= r -> (cls k = Lt -> cls j = Lt) /\ (cls j = Gt -> cls k = Gt).

Lemma monotone_on_sub cls l r l' r' :
  monotone_on cls l r -> l <= l' -> r' <= r -> monotone_on cls l' r'.
Proof. intros H ? ? j k ? ?. apply H; lia. Qed.

Lemma idx_None_iff {A} (w : list A) off : 0 <= off -> w !!z off = None <-> len w <= off.
Proof.
  intros Ho. unfold idx, len. destruct (Z.ltb_spec off 0); [lia|].
  rewrite lookup_ge_None. lia.
Qed.

(** What a search returns: the extreme index of the class [Eq], or the initial answer. *)
Definition seekPost (cls : Z -> comparison) (l r : Z) (pos : side) (ans o : option Z) : Prop :=
  (exists k, o = Some k /\ l <= k <= r /\ cls k = Eq /\
     forall j, l <= j <= r -> cls j = Eq -> match pos with LEFT => k <= j | RIGHT => j <= k end) \/
  (o = ans /\ forall j, l <= j <= r -> cls j <> Eq).

(** The four ways an iteration narrows [[l, r]] at [m]. *)
Section Narrow.
Context (cls : Z -> comparison) (l m r : Z) (Hm : l <= m <= r) (Hmono : monotone_on cls l r).

Lemma seekPost_low pos ans o :
  cls m = Lt -> seekPost cls (m + 1) r pos ans o -> seekPost cls l r pos ans o.
Proof.
  intros HL. assert (Hlow : forall j, l <= j <= m -> cls j <> Eq).
  { intros j Hj. rewrite (proj1 (Hmono j m ltac:(lia) ltac:(lia)) HL). done. }
  intros [(k & -> & Hk & Hc & Hbest)|[-> Hno]]; [left; exists k|right]; split_and!; try done; try lia.
  - intros j Hj Hcj. destruct (Z.le_gt_cases j m); [by apply Hlow in Hcj; [|lia]|].
    apply Hbest; [lia|done].
  - intros j Hj. destruct (Z.le_gt_cases j m); [apply Hlow|apply Hno]; lia.
Qed.

Lemma seekPost_high pos ans o :
  cls m = Gt -> seekPost cls l (m - 1) pos ans o -> seekPost cls l r pos ans o.
Proof.
  intros HG. assert (Hhigh : forall j, m <= j <= r -> cls j <> Eq).
  { intros j Hj. rewrite (proj2 (Hmono m j ltac:(lia) ltac:(lia)) HG). done. }
  intros [(k & -> & Hk & Hc & Hbest)|[-> Hno]]; [left; exists k|right]; split_and!; try done; try lia.
  - intros j Hj Hcj. destruct (Z.lt_ge_cases j m); [|by apply Hhigh in Hcj; [|lia]].
    apply Hbest; [lia|done].
  - intros j Hj. destruct (Z.lt_ge_cases j m); [apply Hno|apply Hhigh]; lia.
Qed.

Lemma seekPost_hit_left ans o :
  cls m = Eq -> seekPost cls l (m - 1) LEFT (Some m) o -> seekPost cls l r LEFT ans o.
Proof.
  intros Heq [(k & -> & Hk & Hck & Hbest)|[-> Hno]]; left; [exists k|exists m];
    split_and!; try done; try lia; intros j Hj Hcj; destruct (Z.lt_ge_cases j m); try lia.
  - apply Hbest; [lia|done].
  - by apply Hno in Hcj; [|lia].
Qed.

Lemma seekPost_hit_right ans o :
  cls m = Eq -> seekPost cls (m + 1) r RIGHT (Some m) o -> seekPost cls l r RIGHT ans o.
Proof.
  intros Heq [(k & -> & Hk & Hck & Hbest)|[-> Hno]]; left; [exists k|exists m];
    split_and!; try done; try lia; intros j Hj Hcj; destruct (Z.le_gt_cases j m); try lia.
  - apply Hbest; [lia|done].
  - by apply Hno in Hcj; [|lia].
Qed.

End Narrow.

Lemma dictSeekLoop_ok fuel dict l r ch off pos ans :
  0 <= off -> 0 <= l -> r < len dict -> r - l + 1 <= Z.of_nat fuel ->
  monotone_on (clsAt dict ch off) l r ->
  returns (dictSeekLoop fuel dict l r ch off pos ans) (seekPost (clsAt dict ch off) l r pos ans).
Proof.
  intros Ho. revert l r ans. induction fuel as [|fuel IH]; intros l r ans Hl Hr Hf Hmono; cbn [dictSeekLoop].
  { destruct (Z.leb_spec l r); [lia|]. apply returns_ret. right. split; [done|]. lia. }
  destruct (Z.leb_spec l r) as [Hlr|]; [|apply returns_ret; right; split; [done|]; lia].
  set (m := (l + r) / 2).
  assert (Hm : l <= m <= r) by (unfold m; split; [apply Z.div_le_lower_bound | apply Z.div_le_upper_bound]; lia).
  destruct (idx_is_Some dict m) as [w Hw]; [lia|]. rewrite Hw. simpl.
  assert (Hcls : clsAt dict ch off m = match w !!z off with Some c => (c ?= ch) | None => Lt end)
    by (unfold clsAt; by rewrite Hw).
  assert (Hsub : forall l' r' ans', l <= l' -> r' <= r -> r' - l' + 1 <= Z.of_nat fuel ->
    returns (dictSeekLoop fuel dict l' r' ch off pos ans') (seekPost (clsAt dict ch off) l' r' pos ans')).
  { intros l' r' ans' ? ? ?. apply IH; try lia. by eapply monotone_on_sub. }
  destruct (Z.leb_spec (len w) off) as [Hshort|Hlong].
  { eapply returns_mono; [apply Hsub; lia|]. intros o. apply seekPost_low; [done..|].
    rewrite Hcls. by apply idx_None_iff in Hshort as ->. }
  destruct (idx_is_Some w off) as [c Hc]; [lia|]. rewrite Hc in *. simpl.
  destruct (Z.ltb_spec c ch) as [Hlt|Hge].
  { eapply returns_mono; [apply Hsub; lia|]. intros o. apply seekPost_low; [done..|].
    rewrite Hcls. by apply Z.compare_lt_iff. }
  destruct (Z.ltb_spec ch c) as [Hgt|Hle].
  { eapply returns_mono; [apply Hsub; lia|]. intros o. apply seekPost_high; [done..|].
    rewrite Hcls. by apply Z.compare_gt_iff. }
  assert (Heq : clsAt dict ch off m = Eq) by (rewrite Hcls; apply Z.compare_eq_iff; lia).
  destruct pos; (eapply returns_mono; [apply Hsub; lia|]); intros o.
  - by apply seekPost_hit_left.
  - by apply seekPost_hit_right.
Qed.

Lemma dictSeek_ok dict l r ch off pos :
  0 <= off -> 0 <= l -> r < len dict -> monotone_on (clsAt dict ch off) l r ->
  returns (dictSeek dict l r ch off pos) (seekPost (clsAt dict ch off) l r pos None).
Proof. intros. apply dictSeekLoop_ok; try done. lia. Qed.

(** * The acceptor recognises the dictionary *)

(** [seg dict s l r]: the indices from [l] to [r] are exactly those of the
    words that start with [s]. *)
Definition seg (dict : list jsstr) (s : jsstr) (l r : Z) : Prop :=
  0 <= l /\ r < len dict /\
  forall k w, dict !!z k = Some w -> (l <= k <= r <-> isPrefix s w = true).

Lemma sorted_lookup dict j k v w :
  strictly_sorted dict -> dict !!z j = Some v -> dict !!z k = Some w -> j < k ->
  str_ltb v w = true.
Proof.
  intros Hs Hj Hk Hjk. pose proof (idx_Some_range _ _ _ Hj). pose proof (idx_Some_range _ _ _ Hk).
  unfold idx in *. destruct (Z.ltb_spec j 0), (Z.ltb_spec k 0); try lia.
  refine (StronglySorted_nth _ _ _ _ _ _ Hs _ Hj Hk). lia.
Qed.

Lemma str_ltb_app s a b : str_ltb (s ++ a) (s ++ b) = str_ltb a b.
Proof. induction s as [|c s IH]; simpl; [done|]. rewrite IH, Z.ltb_irrefl, Z.eqb_refl. done. Qed.

Lemma idx_app_head (s t : jsstr) : (s ++ t) !!z (len s) = head t.
Proof. rewrite idx_app_r by lia. rewrite Z.sub_diag. by destruct t. Qed.

Lemma clsAt_app dict ch s k t :
  dict !!z k = Some (s ++ t) ->
  clsAt dict ch (len s) k = match t with c :: _ => (c ?= ch) | [] => Lt end.
Proof. intros Hk. unfold clsAt. rewrite Hk, idx_app_head. by destruct t. Qed.

Lemma seg_word dict s l r k :
  seg dict s l r -> l <= k <= r -> exists t, dict !!z k = Some (s ++ t).
Proof.
  intros (Hl & Hr & Hseg) Hk. destruct (idx_is_Some dict k) as [w Hw]; [lia|].
  pose proof (proj1 (Hseg k w Hw) Hk) as Hp. apply isPrefix_app in Hp as [t ->]. eauto.
Qed.

Lemma seg_monotone dict s l r ch :
  strictly_sorted dict -> seg dict s l r -> monotone_on (clsAt dict ch (len s)) l r.
Proof.
  intros Hs Hseg j k Hj Hk. destruct (decide (j = k)) as [->|Hne]; [done|].
  destruct (seg_word _ _ _ _ j Hseg) as [a Ha]; [lia|].
  destruct (seg_word _ _ _ _ k Hseg) as [b Hb]; [lia|].
  pose proof (sorted_lookup _ _ _ _ _ Hs Ha Hb ltac:(lia)) as Hlt. rewrite str_ltb_app in Hlt.
  rewrite (clsAt_app _ _ _ _ _ Ha), (clsAt_app _ _ _ _ _ Hb).
  destruct a as [|c a], b as [|d b]; simpl in Hlt; try done.
  apply orb_true_iff in Hlt as [Hlt|[Hlt _]%andb_true_iff]; boolprop;
    rewrite !Z.compare_lt_iff, !Z.compare_gt_iff; lia.
Qed.

Lemma isPrefix_snoc s ch t :
  isPrefix (s ++ [ch]) (s ++ t) = true <-> exists t', t = ch :: t'.
Proof.
  rewrite isPrefix_app. setoid_rewrite <- app_assoc. split.
  - intros (u & E). apply app_inv_head in E. eauto.
  - intros (u & ->). by exists u.
Qed.

Lemma clsAt_Eq_iff dict ch s k t :
  dict !!z k = Some (s ++ t) ->
  clsAt dict ch (len s) k = Eq <-> isPrefix (s ++ [ch]) (s ++ t) = true.
Proof.
  intros Hk. rewrite (clsAt_app _ _ _ _ _ Hk), isPrefix_snoc.
  destruct t as [|c t]; [naive_solver|]. rewrite Z.compare_eq_iff. naive_solver.
Qed.

Lemma isPrefix_weaken s ch w : isPrefix (s ++ [ch]) w = true -> isPrefix s w = true.
Proof. rewrite !isPrefix_app. intros (t & ->). exists (ch :: t). by rewrite <- app_assoc. Qed.

(** The least word of a segment is the prefix itself when the prefix is a word. *)
Lemma seg_final dict s l r w :
  strictly_sorted dict -> seg dict s l r -> l <= r -> dict !!z l = Some w ->
  (len w =? len s) = true <-> s ∈ dict.
Proof.
  intros Hs Hseg Hlr Hw. destruct (seg_word _ _ _ _ l Hseg) as [t Ht]; [lia|].
  rewrite Ht in Hw. injection Hw as <-. rewrite Z.eqb_eq, len_app. split.
  - intros Hlen. destruct t; [|rewrite len_cons in Hlen; pose proof (len_nonneg t); lia].
    rewrite app_nil_r in Ht. apply idx_of_elem. eauto.
  - intros [k Hkz]%idx_of_elem. assert (l <= k <= r) as Hin.
    { apply (proj2 (proj2 Hseg) _ _ Hkz). apply isPrefix_app. exists []. by rewrite app_nil_r. }
    destruct (decide (l = k)) as [->|Hne].
    + rewrite Hkz in Ht. injection Ht as Ht. apply (f_equal len) in Ht. rewrite len_app in Ht. lia.
    + pose proof (sorted_lookup _ _ _ _ _ Hs Ht Hkz ltac:(lia)) as Hlt.
      rewrite <- (app_nil_r s) in Hlt at 2. rewrite str_ltb_app in Hlt. by destruct t.
Qed.

(** Between the extreme indices of class [Eq] lie exactly the words that continue with [ch]. *)
Lemma seg_narrow dict s l0 r0 ch l r :
  strictly_sorted dict -> seg dict s l0 r0 -> l0 <= l <= r -> r <= r0 ->
  clsAt dict ch (len s) l = Eq -> clsAt dict ch (len s) r = Eq ->
  (forall j, l0 <= j <= r0 -> clsAt dict ch (len s) j = Eq -> l <= j) ->
  (forall j, l <= j <= r0 -> clsAt dict ch (len s) j = Eq -> j <= r) ->
  seg dict (s ++ [ch]) l r.
Proof.
  intros Hs Hseg Hl Hr Hcl Hcr Hbest Hbest'.
  pose proof (seg_monotone dict s _ _ ch Hs Hseg) as Hmono.
  pose proof Hseg as (Hl0 & Hr0 & Hiff). split_and!; [lia..|]. intros k w Hk. split.
  - intros Hkr. destruct (seg_word dict s l0 r0 k) as [t Ht]; [done|lia|].
    rewrite Ht in Hk. injection Hk as <-. apply (clsAt_Eq_iff dict ch s k t Ht).
    destruct (Hmono l k ltac:(lia) ltac:(lia)) as [Hlt _].
    destruct (Hmono k r ltac:(lia) ltac:(lia)) as [_ Hgt].
    destruct (clsAt dict ch (len s) k) eqn:E; [done| |].
    + rewrite (Hlt eq_refl) in Hcl. done.
    + rewrite (Hgt eq_refl) in Hcr. done.
  - intros Hp. pose proof (isPrefix_weaken _ _ _ Hp) as Hp'.
    assert (l0 <= k <= r0) as Hk' by by apply (Hiff k w).
    apply isPrefix_app in Hp' as [t ->]. apply (clsAt_Eq_iff dict ch s k t Hk) in Hp.
    split; [by apply Hbest|]. apply Hbest'; [|done]. split; [by apply Hbest|lia].
Qed.

(** State of an acceptor that has read [s] and is not in error. *)
Definition dictReads (dict : list jsstr) (s : jsstr) (a : dictAcceptor) : Prop :=
  dError a = false /\ dOffset a = len s /\ seg dict s (dl a) (dr a) /\
  (dFinal a = true <-> s <> [] /\ s ∈ dict) /\ (s <> [] -> dl a <= dr a).

Lemma dictCreate_reads dict : dictReads dict [] (dictCreate dict).
Proof.
  unfold dictReads, dictCreate, seg. simpl. split_and!; try done; try lia.
  - intros k w Hk. apply idx_Some_range in Hk. split; [done|]. intros _. lia.
  - split; [done|]. by intros [? _].
Qed.

Lemma dictTransit_ok dict s a ch :
  strictly_sorted dict -> dictReads dict s a ->
  returns (dictTransit dict a ch) (fun a' =>
    dictReads dict (s ++ [ch]) a' \/
    (dError a' = true /\ forall w, w ∈ dict -> isPrefix (s ++ [ch]) w = false)).
Proof.
  intros Hs (He & Hoff & Hseg & Hfin & Hne). unfold dictTransit. rewrite Hoff.
  pose proof (seg_monotone dict s _ _ ch Hs Hseg) as Hmono. pose proof Hseg as (Hl & Hr & Hiff).
  pose proof (len_nonneg s).
  destruct (dictSeek_ok dict (dl a) (dr a) ch (len s) LEFT) as (ol & -> & HL); [lia..|done|].
  rewrite bind_Ret. destruct HL as [(l & -> & Hlr & Hcl & Hbest)|[-> Hno]].
  - destruct (dictSeek_ok dict l (dr a) ch (len s) RIGHT) as (or & -> & HR);
      [lia..|by eapply monotone_on_sub; eauto; lia|].
    rewrite bind_Ret. destruct HR as [(r & -> & Hr' & Hcr & Hbest')|[_ Hno]].
    2:{ exfalso. apply (Hno l); [lia|done]. }
    simpl. assert (Hseg' : seg dict (s ++ [ch]) l r) by (apply (seg_narrow _ _ (dl a) (dr a)); done || lia).
    destruct (idx_is_Some dict l) as [w Hw]; [lia|]. unfold dictIsFinal. rewrite Hw. simpl.
    apply returns_ret. left. unfold dictReads. simpl.
    rewrite !len_app, len_cons, len_nil. split_and!; try done; try lia.
    rewrite <- (seg_final dict (s ++ [ch]) l r w); [|done..|lia|done].
    rewrite len_app, len_cons, len_nil. replace (len s + (0 + 1)) with (len s + 1) by lia.
    split; [intros ?; split; [by destruct s|done] | by intros [_ ?]].
  - apply returns_ret. right. split; [done|]. intros w [k Hkz]%idx_of_elem.
    destruct (isPrefix (s ++ [ch]) w) eqn:E; [|done]. exfalso.
    pose proof (isPrefix_weaken _ _ _ E) as Hp. pose proof (proj2 (Hiff _ _ Hkz) Hp) as Hin.
    apply isPrefix_app in Hp as [t ->]. apply (Hno _ Hin). by apply (clsAt_Eq_iff dict ch s _ t Hkz).
Qed.

(** After reading all of [s] the acceptor is in error iff no word starts with
    [s] (and [s] is not empty), and it accepts iff [s] is a word. *)
Definition recognises (dict : list jsstr) (s : jsstr) (a : dictAcceptor) : Prop :=
  (dError a = true <-> s <> [] /\ forall w, w ∈ dict -> isPrefix s w = false) /\
  (dError a = false /\ dFinal a = true <-> s <> [] /\ s ∈ dict).

Lemma isPrefix_refl s : isPrefix s s = true.
Proof. apply isPrefix_app. exists []. by rewrite app_nil_r. Qed.

Lemma dictReads_recognises dict s a : dictReads dict s a -> recognises dict s a.
Proof.
  intros (He & Ho & Hseg & Hf & Hne). split.
  - rewrite He. split; [done|]. intros [Hs Hno]. exfalso. specialize (Hne Hs).
    destruct (seg_word dict s _ _ (dl a) Hseg) as [t Ht]; [lia|].
    specialize (Hno (s ++ t)). rewrite (proj2 (isPrefix_app s (s ++ t))) in Hno by eauto.
    ospecialize (Hno _); [apply idx_of_elem; eauto|done].
  - rewrite Hf. naive_solver.
Qed.

Lemma dictRun_reads dict s :
  strictly_sorted dict ->
  returns (dictRun dict s) (fun a => dictReads dict s a \/
    (dError a = true /\ s <> [] /\ forall w, w ∈ dict -> isPrefix s w = false)).
Proof.
  intros Hs. unfold dictRun. induction s as [|ch s IH] using rev_ind.
  - apply returns_ret. left. apply dictCreate_reads.
  - rewrite foldO_app. destruct IH as (a & -> & Ha). rewrite bind_Ret. cbn [foldO].
    destruct Ha as [Ha|(He & Hne & Hno)].
    + rewrite (proj1 Ha). destruct (dictTransit_ok dict s a ch Hs Ha) as (a' & -> & Ha').
      rewrite bind_Ret. apply returns_ret. destruct Ha' as [?|[? ?]]; [by left|right].
      split_and!; try done. by destruct s.
    + rewrite He, bind_Ret. apply returns_ret. right. split_and!; [done|by destruct s|].
      intros w Hw. specialize (Hno w Hw). destruct (isPrefix (s ++ [ch]) w) eqn:E; [|done].
      by rewrite (isPrefix_weaken _ _ _ E) in Hno.
Qed.

Lemma dictRun_recognises dict s :
  strictly_sorted dict -> returns (dictRun dict s) (recognises dict s).
Proof.
  intros Hs. eapply returns_mono; [by apply dictRun_reads|].
  intros a [Ha|(He & Hne & Hno)]; [by apply dictReads_recognises|].
  split; rewrite He; [done|]. split; [by intros [? _]|]. intros [_ Hin].
  specialize (Hno s Hin). by rewrite isPrefix_refl in Hno.
Qed.

(** * Properties *)

(** [finalizeDict] yields a strictly increasing array in code-unit order
    with exactly the words it was given: [sortuniq] sorts and drops duplicates. *)
Lemma finalizeDict_sorted_set (dict : list jsstr) :
  strictly_sorted (finalizeDict dict) /\ (forall w, w ∈ finalizeDict dict <-> w ∈ dict).
Proof. split; [apply sortuniq_strict | apply sortuniq_elem]. Qed.

(** C12. The dictionary acceptor recognises exactly the dictionary: after reading
    any string [s] character by character with the two binary searches, it is
    in error iff no word starts with [s], and it accepts iff [s] is a word.  The
    searches terminate and never index outside the array. *)
Theorem dict_acceptor_recognises (words : list jsstr) (s : jsstr) :
  returns (dictRun (finalizeDict words) s) (fun a =>
    (dError a = true <-> s <> [] /\ forall w, w ∈ words -> isPrefix s w = false) /\
    (dError a = false /\ dFinal a = true <-> s <> [] /\ s ∈ words)).
Proof.
  eapply returns_mono; [apply dictRun_recognises, sortuniq_strict|].
  intros a [He Hf]. unfold finalizeDict in *. rewrite He, Hf. rewrite sortuniq_elem.
  split; [|done]. by setoid_rewrite sortuniq_elem.
Qed.

(** [dictSeek] finds the extreme matching entry: on a range of entries that
    share the first [len s] characters of [s], the search for the character
    [ch] after them returns the least ([LEFT]) or greatest ([RIGHT]) index of
    the range whose word continues with [ch], and [null] iff there is none. *)
Lemma dictSeek_extreme dict s l r ch pos :
  strictly_sorted dict -> seg dict s l r ->
  returns (dictSeek dict l r ch (len s) pos) (fun o =>
    match o with
    | Some k => l <= k <= r /\ (exists w, dict !!z k = Some w /\ isPrefix (s ++ [ch]) w = true) /\
        forall j w, l <= j <= r -> dict !!z j = Some w -> isPrefix (s ++ [ch]) w = true ->
          match pos with LEFT => k <= j | RIGHT => j <= k end
    | None => forall w, w ∈ dict -> isPrefix (s ++ [ch]) w = false
    end).
Proof.
  intros Hs Hseg. pose proof Hseg as (Hl & Hr & Hiff).
  eapply returns_mono; [apply dictSeek_ok; [apply len_nonneg | done | done | by apply seg_monotone]|].
  intros o [(k & -> & Hk & Hc & Hbest)|[-> Hno]].
  - destruct (seg_word dict s l r k Hseg Hk) as [t Ht]. split_and!; [lia..| |].
    + exists (s ++ t). split; [done|]. by apply (clsAt_Eq_iff dict ch s k t).
    + intros j w Hj Hw Hp. destruct (seg_word dict s l r j Hseg Hj) as [u Hu].
      rewrite Hu in Hw. injection Hw as <-. apply Hbest; [done|]. by apply (clsAt_Eq_iff dict ch s j u).
  - intros w [k Hk]%idx_of_elem. destruct (isPrefix (s ++ [ch]) w) eqn:E; [|done]. exfalso.
    pose proof (isPrefix_weaken _ _ _ E) as Hp. pose proof (proj2 (Hiff _ _ Hk) Hp) as Hin.
    apply isPrefix_app in Hp as [t ->]. apply (Hno _ Hin). by apply (clsAt_Eq_iff dict ch s k t).
Qed.
