(* ===== verification/WordcutRules.v ===== *)
(** The rule acceptors of the Thai word segmenter: the Latin rules
    (wordcut.js, module 3, latin_rules), the Thai rules (module 6, thai_rules)
    and the dictionary acceptor of file WordcutDict, as one instance of the
    interface of file Acceptors. *)
From Stdlib Require Import ZArith Lia.
From stdpp Require Import base gmap strings list.
From S2P Require Import Prelude JsString Acceptors WordcutDict.

Local Open Scope Z_scope.
Open Scope js_scope.

(** The objects with a [createAcceptor] method. *)
Inductive creator :=
| WordRule | SpaceRule | SingleSymbolRule | NumberRule
| Rule0 | PartRule
| DictCreator (dict : list jsstr).

(** What distinguishes the acceptors each of them creates. *)
Inductive payload :=
| PWord | PSpace | PSinSym | PNumber | PThai
| PPart (patterns : list jsstr)
| PDict (dict : list jsstr) (l r : Z).

(** An acceptor object: the fields that change, and its class. *)
Record acceptor := mkAcc { pay : payload; off : Z; fin : bool; err : bool }.

(** The constant fields [tag], [type] and [unk] of the object literals. *)
Definition ruleTag (p : payload) : string :=
  match p with
  | PWord => "WORD_RULE" | PSpace => "SPACE_RULE" | PSinSym => "SINSYM"
  | PNumber => "NUMBER_RULE" | PThai => "THAI_RULE" | PPart _ => "PART" | PDict _ _ _ => "DICT"
  end.

Definition ruleUnk (p : payload) : option Z :=
  match p with PPart _ => Some 1 | _ => None end.

(** * Latin rules *)

(** [WordRule]: [lch >= "a" && lch <= "z"] for [lch = ch.toLowerCase()]. *)
Definition isWordChar (ch : Z) : bool :=
  let lch := toLowerCase1 ch in
  str_leb (js "a") lch && str_leb lch (js "z").

Definition isNumberChar (ch : Z) : bool :=
  str_leb (js "0") [ch] && str_leb [ch] (js "9").

(** Space, tab, CR, LF, no-break space and em space. *)
Definition isSpaceChar (ch : Z) : bool :=
  (ch =? 32) || (ch =? 9) || (ch =? 13) || (ch =? 10) || (ch =? 0x00A0) || (ch =? 0x2003).

(** At sign, parentheses, slash, comma, minus, full stop, double quote, back quote. *)
Definition isSingleSymbol (ch : Z) : bool :=
  bool_decide (ch ∈ [64; 40; 41; 47; 44; 45; 46; 34; 96]).

(** * Thai rules *)

Definition isConsonant (c : Z) : bool := (0x0E01 <=? c) && (c <=? 0x0E2E).

(** [isMatch(pat, offset, ch)]. *)
Definition isMatch (pat : jsstr) (offset ch : Z) : bool :=
  if len pat <=? offset then false
  else match pat !!z offset with
       | None => false
       | Some _ch =>
           (_ch =? ch) ||
           (((_ch =? 0x0E01) || (_ch =? 0x0E02)) && isConsonant ch) ||
           (((_ch =? 0x0E21) || (_ch =? 0x0E1A)) && isConsonant ch) ||
           ((_ch =? 0x0E49) && ((0x0E48 <=? ch) && (ch <=? 0x0E4B)))
       end.

(** [Rule0.pat]. *)
Definition rule0Pat : jsstr := [0x0E40; 0x0E2B; 0x0E01; 0x0E47; 0x0E21].

(** [patterns] of [PartRule]. *)
Definition partPatterns : list jsstr :=
  [ [0x0E41; 0x0E01]; [0x0E40; 0x0E01]; [0x0E01; 0x0E49]; [0x0E01; 0x0E01; 0x0E4C];
    [0x0E01; 0x0E32]; [0x0E01; 0x0E35]; [0x0E01; 0x0E34]; [0x0E01; 0x0E37; 0x0E01] ].

(** * The objects *)

(** A new acceptor object of a class. *)
Definition freshAcc (p : payload) : acceptor := mkAcc p 0 false false.

(** [if (tag[t]) return null;] before the object literal. *)
Definition unlessTagged (tag : gmap string acceptor) (t : string) (p : payload) : option acceptor :=
  match tag !! t with Some _ => None | None => Some (freshAcc p) end.

(** [if (test) { this.isFinal = final; this.strOffset++; } else { this.isError = true; }]. *)
Definition advance (a : acceptor) (test final : bool) : acceptor :=
  if test then mkAcc (pay a) (off a + 1) final (err a)
  else mkAcc (pay a) (off a) (fin a) true.

(** [WordRule]. *)
Definition wordRuleCreate (tag : gmap string acceptor) : option acceptor :=
  unlessTagged tag "WORD_RULE" PWord.
Definition wordRuleTransit (a : acceptor) (ch : Z) : acceptor :=
  advance a (isWordChar ch) true.

(** [NumberRule]. *)
Definition numberRuleCreate (tag : gmap string acceptor) : option acceptor :=
  unlessTagged tag "NUMBER_RULE" PNumber.
Definition numberRuleTransit (a : acceptor) (ch : Z) : acceptor :=
  advance a (isNumberChar ch) true.

(** [SpaceRule]. *)
Definition spaceRuleCreate (tag : gmap string acceptor) : option acceptor :=
  unlessTagged tag "SPACE_RULE" PSpace.
Definition spaceRuleTransit (a : acceptor) (ch : Z) : acceptor :=
  advance a (isSpaceChar ch) true.

(** [SingleSymbolRule]. *)
Definition singleSymbolCreate (tag : gmap string acceptor) : option acceptor :=
  Some (freshAcc PSinSym).
Definition singleSymbolTransit (a : acceptor) (ch : Z) : acceptor :=
  advance a ((off a =? 0) && isSingleSymbol ch) true.

(** [Rule0]. *)
Definition rule0Create (tag : gmap string acceptor) : option acceptor := Some (freshAcc PThai).
Definition rule0Transit (a : acceptor) (ch : Z) : acceptor :=
  advance a (isMatch rule0Pat (off a) ch) (off a + 1 =? len rule0Pat).

(** [PartRule]: the patterns shrink even in the error case. *)
Definition partRuleCreate (tag : gmap string acceptor) : option acceptor :=
  Some (freshAcc (PPart partPatterns)).
Definition partRuleTransit (a : acceptor) (patterns : list jsstr) (ch : Z) : acceptor :=
  let offset := off a in
  let patterns' := filter (fun pat => isMatch pat offset ch = true) patterns in
  if 0 <? len patterns' then
    let final := existsb (fun pat => len pat =? 1 + offset) patterns' in
    mkAcc (PPart patterns') (off a + 1) final (err a)
  else mkAcc (PPart patterns') (off a) (fin a) true.

(** The dictionary of file WordcutDict: [createAcceptor()] and [transit: this.dict.transit(this, ch)]. *)
Definition dictRuleCreate (dict : list jsstr) : option acceptor :=
  let d := dictCreate dict in
  Some (mkAcc (PDict dict (dl d) (dr d)) (dOffset d) (dFinal d) (dError d)).
Definition dictRuleTransit (a : acceptor) (dict : list jsstr) (l r ch : Z) : outcome acceptor :=
  d ← dictTransit dict (mkDictAcc l r (off a) (fin a) (err a)) ch;
  Ret (mkAcc (PDict dict (dl d) (dr d)) (dOffset d) (dFinal d) (dError d)).

(** Dynamic dispatch of [creator.createAcceptor(tag)] and [acceptor.transit(ch)]. *)
Definition ruleCreate (c : creator) (tag : gmap string acceptor) : option acceptor :=
  match c with
  | WordRule => wordRuleCreate tag
  | SpaceRule => spaceRuleCreate tag
  | SingleSymbolRule => singleSymbolCreate tag
  | NumberRule => numberRuleCreate tag
  | Rule0 => rule0Create tag
  | PartRule => partRuleCreate tag
  | DictCreator dict => dictRuleCreate dict
  end.

Definition ruleTransit (a : acceptor) (ch : Z) : outcome acceptor :=
  match pay a with
  | PWord => Ret (wordRuleTransit a ch)
  | PSpace => Ret (spaceRuleTransit a ch)
  | PSinSym => Ret (singleSymbolTransit a ch)
  | PNumber => Ret (numberRuleTransit a ch)
  | PThai => Ret (rule0Transit a ch)
  | PPart patterns => Ret (partRuleTransit a patterns ch)
  | PDict dict l r => dictRuleTransit a dict l r ch
  end.

#[export] Instance ruleOps : AcceptorOps acceptor creator := {
  createAcceptor := ruleCreate;
  acc_transit := ruleTransit;
  strOffset := off;
  isFinal := fin;
  isError := err;
  acc_tag a := ruleTag (pay a);
  acc_type a := ruleTag (pay a);
  acc_w _ := 1;
  acc_unk a := ruleUnk (pay a);
  acc_mw _ := None
}.

(** * The laws of the interface *)

(** A dictionary creator holds a finalized dictionary. *)
Definition ruleCreatorOk (c : creator) : Prop :=
  match c with DictCreator dict => strictly_sorted dict | _ => True end.

(** A dictionary acceptor without error holds the segment of what it has read. *)
Definition ruleAccOk (a : acceptor) : Prop :=
  match pay a with
  | PDict dict l r => strictly_sorted dict /\
      exists s, dictReads dict s (mkDictAcc l r (off a) (fin a) (err a))
  | _ => True
  end.

Lemma rule_create_law c t a :
  ruleCreatorOk c -> ruleCreate c t = Some a ->
  ruleAccOk a /\ off a = 0 /\ fin a = false /\ err a = false.
Proof.
  intros Hc E. destruct c; simpl in *; unfold wordRuleCreate, spaceRuleCreate, numberRuleCreate,
    singleSymbolCreate, rule0Create, partRuleCreate, dictRuleCreate, unlessTagged in *; repeat break_match_in E; simplify_eq; simpl; try done.
  split_and!; try done. split; [done|]. exists []. apply dictCreate_reads.
Qed.

Lemma advance_law a test final :
  match pay a with PDict _ _ _ => False | _ => True end ->
  err (advance a test final) = false -> ruleAccOk (advance a test final) /\ off (advance a test final) = off a + 1.
Proof.
  intros Hp. unfold advance. destruct test; simpl; [|done].
  intros _. split; [|done]. unfold ruleAccOk. simpl. by destruct (pay a).
Qed.

Lemma rule_transit_law a ch :
  ruleAccOk a -> err a = false ->
  returns (ruleTransit a ch) (fun a' => err a' = false -> ruleAccOk a' /\ off a' = off a + 1).
Proof.
  intros Hok He. unfold ruleTransit. destruct (pay a) eqn:Ep;
    try (apply returns_ret; apply advance_law; by rewrite Ep).
  - apply returns_ret. unfold partRuleTransit. break_match; simpl; [done|done].
  - unfold ruleAccOk in Hok. rewrite Ep in Hok. destruct Hok as (Hs & s & Hr).
    unfold dictRuleTransit.
    destruct (dictTransit_ok dict s _ ch Hs Hr) as (d & -> & Hd). simpl. apply returns_ret. simpl.
    intros Hde. destruct Hd as [Hd|[Hd _]]; [|congruence]. unfold ruleAccOk. simpl.
    split; [split; [done|]; exists (s ++ [ch]); by destruct d|].
    destruct Hd as (_ & -> & _). destruct Hr as (_ & Ho & _). simpl in Ho. rewrite Ho, len_app. done.
Qed.

Lemma rule_cost_law a :
  ruleAccOk a -> 0 <= acc_w a /\ 0 <= orZero (acc_unk a) /\ 0 <= orZero (acc_mw a).
Proof. intros _. simpl. destruct (pay a); unfold orZero; simpl; lia. Qed.

#[export] Instance ruleLaws : AcceptorLaws acceptor creator := {
  creator_ok := ruleCreatorOk;
  acc_ok := ruleAccOk;
  create_law := rule_create_law;
  transit_law := rule_transit_law;
  cost_law := rule_cost_law
}.

Lemma str_leb_unit a b : str_leb [a] [b] = (a <=? b).
Proof. unfold str_leb. simpl. rewrite andb_false_r, orb_false_r. lia. Qed.

(** [isWordChar] is the ASCII letters and the two units that lower to one. *)
Lemma isWordChar_spec ch :
  isWordChar ch = true <-> 97 <= ch <= 122 \/ 65 <= ch <= 90 \/ ch = 304 \/ ch = 8490.
Proof.
  unfold isWordChar, toLowerCase1. change (js "a") with [97]. change (js "z") with [122].
  destruct ((65 <=? ch) && (ch <=? 90)) eqn:E1.
  { rewrite !str_leb_unit. lia. }
  destruct (Z.eqb_spec ch 304) as [->|]; [split; [lia|reflexivity]|].
  destruct (Z.eqb_spec ch 8490) as [->|]; [split; [lia|reflexivity]|].
  rewrite !str_leb_unit. lia.
Qed.
