(* ===== verification/Wordcut.v ===== *)
(** The Thai word segmenter as the documentation search uses it (wordcut.js,
    module 7, wordcut): initialisation, and the theorems about segmenting a
    text with the rules and a dictionary. *)
From Stdlib Require Import ZArith Lia.
From stdpp Require Import base gmap strings list.
From S2P Require Import Prelude JsString Acceptors PathInfo WordcutCore WordcutDict WordcutRules.

Local Open Scope Z_scope.
Open Scope js_scope.

(** [LatinRules] and [ThaiRules]. *)
Definition latinRules : list creator := [WordRule; SpaceRule; SingleSymbolRule; NumberRule].
Definition thaiRules : list creator := [Rule0; PartRule].

(** [self.acceptors.creators.push(c)]. *)
Definition pushCreator (s : Acceptors acceptor creator) (c : creator) : Acceptors acceptor creator :=
  mkAcceptors (creators s ++ [c]) (current s) (tag s).

(** [Wordcut.initNoDict()]. *)
Definition initNoDict : Acceptors acceptor creator :=
  fold_left pushCreator thaiRules (fold_left pushCreator latinRules acceptors_init).

(** [Wordcut.init(dict_path, withDefault, additionalWords)]; [data] and
    [defaultDict] are the embedded word list and the default path of file WordcutDict. *)
Definition wordcut_init (data defaultDict : jsstr) (dict_path : option pathArg)
    (withDefault : bool) (additionalWords : option (list jsstr)) : Acceptors acceptor creator :=
  pushCreator initNoDict (DictCreator (dict_init data defaultDict dict_path withDefault additionalWords)).

(** A segmenter with a given finalized dictionary. *)
Definition withDict (dict : list jsstr) : Acceptors acceptor creator :=
  pushCreator initNoDict (DictCreator dict).

Lemma withDict_ok dict : strictly_sorted dict -> Forall creator_ok (creators (withDict dict)).
Proof. intros H. simpl. repeat constructor. done. Qed.

Lemma dict_init_sorted data dd path b words : strictly_sorted (dict_init data dd path b words).
Proof. apply sortuniq_strict. Qed.

Lemma wordcut_init_ok data dd path b words :
  Forall creator_ok (creators (wordcut_init data dd path b words)).
Proof. apply withDict_ok, dict_init_sorted. Qed.

(** * Completeness: text made of dictionary words has no unknown part *)

Section Complete.
Context (dict : list jsstr) (Hdict : strictly_sorted dict).

(** Some dictionary acceptor of [l] has read exactly [s]. *)
Definition reading (l : list acceptor) (s : jsstr) : Prop :=
  exists a lo hi, a ∈ l /\ pay a = PDict dict lo hi /\ err a = false /\
    dictReads dict s (mkDictAcc lo hi (off a) (fin a) (err a)).

(** [s] begins some word. *)
Definition viable (s : jsstr) : Prop := exists w, w ∈ dict /\ isPrefix s w = true.

Lemma transit_loop_keeps ch l st st' a a' :
  foldO (transitOne ch) l st = Ret st' ->
  (a' ∈ st.1 -> a' ∈ st'.1) /\
  (a ∈ l -> acc_transit a ch = Ret a' -> isError a' = false -> a' ∈ st'.1).
Proof.
  revert st. induction l as [|b l IH]; intros st E; cbn [foldO] in E.
  { injection E as <-. split; [done|]. intros Ha. by apply elem_of_nil in Ha. }
  destruct (transitOne ch st b) as [st1| |] eqn:E1; simpl in E; try done.
  assert (Hmono : a' ∈ st.1 -> a' ∈ st1.1).
  { unfold transitOne in E1. destruct (acc_transit b ch) as [b'| |]; simpl in E1; try done.
    destruct (err b'); simplify_eq; simpl; [done|]. intros ?. apply elem_of_app. by left. }
  destruct (IH st1 E) as [IH1 IH2]. split; [auto|].
  intros [->|Ha]%elem_of_cons Ht He; [|by apply IH2]. apply IH1.
  unfold transitOne in E1. rewrite Ht in E1. simpl in E1, He. rewrite He in E1.
  simplify_eq. simpl. apply elem_of_app. right. by apply list_elem_of_singleton.
Qed.

Lemma transit_reading s s' ch str :
  transit s ch = Ret s' -> reading (current s ++ newAcceptors s) str ->
  viable (str ++ [ch]) -> reading (current s') (str ++ [ch]).
Proof.
  unfold transit. destruct (foldO _ _ _) as [[cur tg]| |] eqn:E; simpl; [|done..].
  intros [= <-] (a & lo & hi & Ha & Hp & He & Hr) (w & Hw & Hpre).
  destruct (dictTransit_ok dict str _ ch Hdict Hr) as (d & Ed & Hd).
  destruct Hd as [Hd|[_ Hno]]; [|by rewrite (Hno w Hw) in Hpre].
  set (a' := mkAcc (PDict dict (dl d) (dr d)) (dOffset d) (dFinal d) (dError d)).
  assert (Hin : a' ∈ cur).
  { eapply (transit_loop_keeps ch _ _ _ a a' E); [done| |exact (proj1 Hd)].
    simpl. unfold ruleTransit, dictRuleTransit. rewrite Hp, Ed. done. }
  exists a', (dl d), (dr d). simpl. split_and!; [done..|exact (proj1 Hd)|]. by destruct d.
Qed.

Lemma new_reading s : DictCreator dict ∈ creators s -> reading (newAcceptors s) [].
Proof.
  intros Hc. exists (mkAcc (PDict dict 0 (len dict - 1)) 0 false false), 0, (len dict - 1).
  simpl. split_and!; try done; [|apply dictCreate_reads].
  unfold newAcceptors. apply list_elem_of_omap. by exists (DictCreator dict).
Qed.

(** Every viable piece of the text that ends at [i] is being read. *)
Definition all_reading (text : jsstr) (i : Z) (s : Acceptors acceptor creator) : Prop :=
  DictCreator dict ∈ creators s /\
  forall p, 0 <= p < i -> viable (substring text p i) -> reading (current s) (substring text p i).

Lemma substring_snoc text p i ch :
  0 <= p <= i -> text !!z i = Some ch -> substring text p (i + 1) = substring text p i ++ [ch].
Proof.
  intros Hp Hch. pose proof (idx_Some_range _ _ _ Hch).
  rewrite <- (substring_app text p i (i + 1)) by lia. f_equal.
  rewrite substring_split by lia. replace (i + 1 - i) with 1 by lia.
  unfold idx in Hch. destruct (Z.ltb_spec i 0); [lia|].
  by rewrite (drop_S _ _ _ Hch).
Qed.

Lemma substring_nil text p : 0 <= p <= len text -> substring text p p = [].
Proof. intros H. rewrite substring_split by lia. by rewrite Z.sub_diag. Qed.

Lemma viable_weaken s ch : viable (s ++ [ch]) -> viable s.
Proof. intros (w & Hw & Hp). exists w. eauto using isPrefix_weaken. Qed.

Lemma reading_app_l l k s : reading l s -> reading (l ++ k) s.
Proof. intros (a & lo & hi & Ha & H). exists a, lo, hi. split; [apply elem_of_app; by left|done]. Qed.

Lemma reading_app_r l k s : reading k s -> reading (l ++ k) s.
Proof. intros (a & lo & hi & Ha & H). exists a, lo, hi. split; [apply elem_of_app; by right|done]. Qed.

Lemma transit_all_reading text i s s' ch :
  all_reading text i s -> text !!z i = Some ch -> transit s ch = Ret s' ->
  creators s' = creators s -> all_reading text (i + 1) s'.
Proof.
  intros [Hc Hr] Hch Ht Hcs. pose proof (idx_Some_range _ _ _ Hch).
  split; [by rewrite Hcs|]. intros p Hp Hv. rewrite (substring_snoc text p i ch) in * by (done || lia).
  eapply transit_reading; [exact Ht| |done].
  destruct (decide (p = i)) as [->|Hne].
  - rewrite substring_nil by lia. by apply reading_app_r, new_reading.
  - apply reading_app_l, Hr; [lia|]. by eapply viable_weaken.
Qed.

(** A prefix of the text is a sequence of words. *)
Inductive segmentable (text : jsstr) : Z -> Prop :=
| seg_start : segmentable text 0
| seg_word_step p q : segmentable text p -> 0 <= p < q -> q <= len text ->
    substring text p q ∈ dict -> segmentable text q.

(** Reachable word boundaries cost nothing. *)
Definition no_unk (text : jsstr) (i : Z) (path : list info) : Prop :=
  forall q x, q <= i -> segmentable text q -> path !!z q = Some x -> iunk x = 0.

Lemma final_reading s' str :
  reading (current s') str -> str <> [] -> str ∈ dict ->
  exists a, a ∈ getFinalAcceptors s' /\ off a = len str /\ ruleUnk (pay a) = None.
Proof.
  intros (a & lo & hi & Ha & Hp & He & Hr) Hne Hin. exists a.
  destruct Hr as (_ & Ho & _ & Hf & _). simpl in *. split_and!; [|done|by rewrite Hp].
  unfold getFinalAcceptors. apply list_elem_of_filter. split; [|done]. simpl. by apply Hf.
Qed.

Definition complete_inv (text : jsstr) (i : Z) (st : buildState acceptor creator) : Prop :=
  build_inv i st /\ all_reading text i (b_acceptors st) /\ no_unk text i (b_path st).

Lemma selected_no_unk text i s' path path' infos x :
  0 <= i < len text -> path_inv i path -> no_unk text i path ->
  all_reading text (i + 1) s' -> acceptors_inv (i + 1) s' ->
  (forall a, a ∈ getFinalAcceptors s' -> exists y, y ∈ infos /\ contributes i path a y) ->
  x ∈ infos -> Forall (better_eq x) infos -> info_ok (i + 1) x ->
  samePath path path' -> path_inv i path' ->
  no_unk text (i + 1) (path' ++ [x]).
Proof.
  intros Hi Hpi Hno [_ Hr] Hacc Hall Hx Hbest (_ & _ & Hunk & _) Hsame Hpi' q z Hq Hseg Hz.
  destruct (decide (q <= i)) as [Hle|Hgt].
  - rewrite idx_app_l in Hz by (rewrite (proj1 Hpi'); lia).
    apply samePath_sym in Hsame.
    destruct (samePath_lookup _ _ _ _ Hsame Hz) as (y & Hy & _ & _ & _ & -> & _). eauto.
  - assert (q = i + 1) as -> by lia. rewrite <- (proj1 Hpi'), idx_snoc in Hz. injection Hz as <-.
    inversion Hseg as [|p q' Hp Hpq Hqt Hin]; subst; [lia|].
    assert (Hlen : len (substring text p (i + 1)) = i + 1 - p).
    { rewrite substring_split by lia. unfold len in *. rewrite length_take, length_drop. lia. }
    destruct (final_reading s' (substring text p (i + 1))) as (a & Ha & Ho & Hu); [|by intros E; rewrite E in Hlen; unfold len in Hlen; simpl in Hlen; lia|done|].
    { apply Hr; [lia|]. exists (substring text p (i + 1)). split; [done | apply isPrefix_refl]. }
    destruct (Hall a Ha) as (y & Hy & u & Hu' & _ & _ & _ & Hyu & _). simpl in Hyu, Hu'.
    rewrite Ho, Hlen in Hu'. replace (i - (i + 1 - p) + 1) with p in Hu' by lia.
    pose proof (Hno p u ltac:(lia) Hp Hu') as Hz. rewrite Hz, Hu in Hyu. unfold orZero in Hyu. simpl in Hyu.
    rewrite Forall_forall in Hbest. specialize (Hbest y Hy). unfold better_eq in Hbest. lia.
Qed.

Lemma buildStep_complete text st i :
  0 <= i < len text -> complete_inv text i st ->
  returns (buildStep text st i) (complete_inv text (i + 1)).
Proof.
  intros Hi (Hb & Hr & Hno). destruct (buildStep_inv text st i Hi Hb) as (st' & Hst & Hb').
  exists st'. split; [done|]. split; [done|].
  revert Hst. unfold buildStep. destruct Hb as (Hacc & Hpath & Hlb).
  destruct (idx_is_Some text i) as [ch Hch]; [lia|]. rewrite Hch. simpl.
  destruct (transit_inv i (b_acceptors st) ch) as (acc & Ht & Hacc' & Hcs); [lia|done|].
  rewrite Ht, bind_Ret. pose proof (transit_all_reading _ _ _ _ _ Hr Hch Ht Hcs) as Hr'.
  destruct (build_ok i (b_path st) (getFinalAcceptors acc) (b_leftBoundary st) text)
    as ([path infos] & -> & Hp & Hsame & Hne & Hinfos & Hall & _); [done|by apply getFinal_live|lia..|].
  rewrite bind_Ret. destruct (selectPath_some infos Hne) as (x & -> & Hx & Hbest). simpl.
  intros [= <-]. simpl. split; [done|].
  apply (selected_no_unk text i acc (b_path st) path infos x); try done.
  by eapply Forall_forall in Hinfos.
Qed.

Lemma buildPath_complete acc text :
  Forall creator_ok (creators acc) -> DictCreator dict ∈ creators acc ->
  returns (buildPath acc text) (fun path => path_inv (len text) path /\ no_unk text (len text) path).
Proof.
  intros Hc Hin. pose proof (len_nonneg text). unfold buildPath.
  assert (returns (buildPathState acc text) (complete_inv text (len text))) as (st & -> & (_ & Hp & _) & _ & Hno).
  - unfold buildPathState. replace (len text) with (len text - 1 + 1) at 2 by lia.
    apply foldO_zrange_inv; [lia|..].
    + split; [split_and!; [by apply reset_inv | apply createPath_inv | simpl; lia..]|]. split.
      * split; [done|]. intros p Hp. lia.
      * intros q x Hq Hs Hx. pose proof (idx_Some_range _ _ _ Hx). change (len createPath) with 1 in *.
        assert (q = 0) as -> by lia. by injection Hx as <-.
    + intros k st Hk. apply buildStep_complete. lia.
  - by eexists.
Qed.

End Complete.

(** * Properties *)

(** C11. Segmentation is total and lossless: for every word list, every argument
    of [init] and every text, [cutIntoArray] returns normally, no token is
    empty, and the tokens in order spell the text. *)
Theorem cut_lossless data defaultDict dict_path withDefault words text :
  returns (cutIntoArray (wordcut_init data defaultDict dict_path withDefault words) text)
    (fun tokens => concat tokens = text /\ Forall (fun w => w <> []) tokens).
Proof.
  destruct (segment_ok (wordcut_init data defaultDict dict_path withDefault words) text)
    as (path & ranges & Hb & Hp & Hr & Ht); [apply wordcut_init_ok|].
  unfold cutIntoArray. rewrite Hb, bind_Ret, Hr, bind_Ret. apply returns_ret. split.
  - rewrite (tiling_text text 0 (len text)); [apply substring_full | done | lia..].
  - apply (tiling_nonempty text 0 (len text)); [done | lia..].
Qed.

(** The three entry points agree: [cutIntoRanges] returns ranges that tile
    the text from 0 to its length (each one the text of its token), [cutIntoArray]
    returns those tokens, and [cut] joins them with the delimiter ("|" by
    default); with the empty delimiter [cut] is the identity. *)
Lemma cut_entry_points_agree data defaultDict dict_path withDefault words text delimiter :
  let acc := wordcut_init data defaultDict dict_path withDefault words in
  exists ranges,
    cutIntoRanges acc text true = Ret (map (fun r => (r, None)) ranges) /\
    cutIntoRanges acc text false = Ret (map (fun r => (r, Some (rangeText text r))) ranges) /\
    tiling 0 (len text) ranges /\
    cutIntoArray acc text = Ret (map (rangeText text) ranges) /\
    cut acc text delimiter = Ret (join (default (js "|") delimiter) (map (rangeText text) ranges)) /\
    cut acc text (Some []) = Ret text.
Proof.
  intros acc. destruct (segment_ok acc text) as (path & ranges & Hb & Hp & Hr & Ht); [apply wordcut_init_ok|].
  exists ranges. unfold cutIntoRanges, cutIntoArray, cut, rangesToText.
  rewrite Hb, !bind_Ret, Hr, !bind_Ret. split_and!; try done. simpl. f_equal.
  rewrite join_nil, (tiling_text text 0 (len text)) by (done || lia). apply substring_full.
Qed.

(** C13. Completeness of the dynamic program: when the text is a sequence of
    words of the dictionary, the path [buildPath] chooses for the whole text
    contains no unknown part (its [unk] cost is 0), whatever other rules match. *)
Theorem dictionary_text_has_no_unknown data defaultDict dict_path withDefault words text :
  segmentable (dict_init data defaultDict dict_path withDefault words) text (len text) ->
  returns (buildPath (wordcut_init data defaultDict dict_path withDefault words) text)
    (fun path => exists x, path !!z (len text) = Some x /\ iunk x = 0).
Proof.
  intros Hseg. set (dict := dict_init data defaultDict dict_path withDefault words) in *.
  destruct (buildPath_complete dict (dict_init_sorted _ _ _ _ _)
              (wordcut_init data defaultDict dict_path withDefault words) text)
    as (path & -> & [Hlen Hok] & Hno); [apply wordcut_init_ok | simpl; set_solver |].
  apply returns_ret. pose proof (len_nonneg text).
  destruct (idx_is_Some path (len text)) as [x Hx]; [lia|]. exists x. split; [done|].
  by apply (Hno (len text) x).
Qed.

Lemma dictionary_text_witness :
  exists path x, buildPath (wordcut_init [] [] None false (Some [js "foo"; js "foobar"; js "bar"])) (js "barfoobar") = Ret path
    /\ path !!z 9 = Some x /\ iunk x = 0.
Proof.
  destruct (dictionary_text_has_no_unknown [] [] None false (Some [js "foo"; js "foobar"; js "bar"]) (js "barfoobar"))
    as (path & Hp & x & Hx & Hu).
  - apply (seg_word_step _ _ 3 9); [| lia | vm_compute; done |].
    + apply (seg_word_step _ _ 0 3); [constructor | lia | vm_compute; done |].
      apply list_elem_of_In. vm_compute. tauto.
    + apply list_elem_of_In. vm_compute. tauto.
  - exists path, x. exact (conj Hp (conj Hx Hu)).
Defined.

(** What the dictionary of [init] contains: the words of the embedded list
    longer than one character and the additional words, and nothing else; the
    paths the caller passes have no effect. *)
Lemma dict_init_words data defaultDict dict_path withDefault words w :
  w ∈ dict_init data defaultDict dict_path withDefault words <->
  w ∈ dataWords data \/ w ∈ default [] words.
Proof.
  unfold dict_init, finalizeDict. rewrite sortuniq_elem.
  destruct words as [ws|]; unfold addFiles, addWords; simpl; rewrite ?elem_of_app; set_solver.
Qed.

(** C15. An unknown character takes the last letter of the text before it.  When [u] is
    recognised up to its end and the character [c] after it is not (it ends no word of
    any rule or of the dictionary, and is no tone mark), the last token of [u] and [c]
    is [c] together with at least the last character of [u], whatever word that
    character belongs to: the left boundary of an unknown token is the index of the last
    recognised character and not the index after it.  ["ab#"] is cut into ["a"] and
    ["b#"]. *)
Theorem unknown_takes_last_letter data defaultDict dict_path withDefault words u c :
  let acc := wordcut_init data defaultDict dict_path withDefault words in
  u <> [] -> isToneMark c = false ->
  endsWith (fun type => type <> "UNK"%string) acc u -> endsWith (fun type => type = "UNK"%string) acc (u ++ [c]) ->
  exists ts u0 v, cutIntoArray acc (u ++ [c]) = Ret (ts ++ [v ++ [c]]) /\ u = u0 ++ v /\ v <> [].
Proof. intros acc. apply unknown_after_known; [apply wordcut_init_ok|]. intros a. cbn. by destruct (pay a). Qed.

Lemma unknown_takes_last_letter_witness :
  (cutIntoArray (wordcut_init [] [] None false None) (js "ab") = Ret [js "ab"] /\
   cutIntoArray (wordcut_init [] [] None false None) (js "ab#") = Ret [js "a"; js "b#"]) /\
  exists ts u0 v, cutIntoArray (wordcut_init [] [] None false None) (js "ab" ++ js "#") = Ret (ts ++ [v ++ js "#"]) /\ js "ab" = u0 ++ v /\ v <> [].
Proof.
  split; [split; vm_compute; reflexivity|]. apply (unknown_takes_last_letter [] [] None false None (js "ab") 35); [discriminate|reflexivity| |];
    eexists _, _; (split; [vm_compute; reflexivity|split; [reflexivity|]]); [discriminate|reflexivity].
Defined.
