(* ===== verification/JsRegExp.v ===== *)
(** ECMAScript regular expressions, as far as the modelled JavaScript uses
    them: character classes, groups, greedy and lazy quantifiers, lookahead
    and the anchors, with the backtracking order of the standard; and the
    parser of pattern sources that [new RegExp(source)] runs. *)
From Stdlib Require Import ZArith Lia.
From stdpp Require Import base gmap strings list.
From S2P Require Import Prelude JsString.

Local Open Scope Z_scope.
Open Scope js_scope.

(** A set of characters: a union of ranges, possibly negated. *)
Record charset := mkSet { cs_neg : bool; cs_ranges : list (Z * Z) }.

Definition inSet (cs : charset) (c : Z) : bool :=
  xorb (cs_neg cs) (existsb (fun '(a, b) => (a <=? c) && (c <=? b)) (cs_ranges cs)).

(** Patterns.  [RRepeat greedy min max r] is [r{min,max}] ([max = None]: no bound). *)
Inductive re :=
| REmpty
| RSet (cs : charset)
| RSeq (r1 r2 : re)
| RAlt (r1 r2 : re)
| RGroup (n : nat) (r : re)
| RRepeat (greedy : bool) (min : nat) (max : option nat) (r : re)
| RLook (negative : bool) (r : re)
| RBol
| REol.

Definition rchar (c : Z) : re := RSet (mkSet false [(c, c)]).
Definition rany : re := RSet (mkSet true [(10, 10); (13, 13); (8232, 8233)]).
Definition rlit (s : jsstr) : re := foldr (fun c r => RSeq (rchar c) r) REmpty s.

(** The groups inside a pattern: a new iteration of a quantifier clears them. *)
Fixpoint groups (r : re) : list nat :=
  match r with
  | RSeq r1 r2 | RAlt r1 r2 => groups r1 ++ groups r2
  | RGroup n r => n :: groups r
  | RRepeat _ _ _ r | RLook _ r => groups r
  | _ => []
  end.

(** Captured substrings by group number. *)
Abbreviation captures := (gmap nat jsstr).

(** State of a match: what is left of the input and the captures. *)
Definition mstate : Type := jsstr * captures.

Definition cont : Type := mstate -> option mstate.

(** [RepeatMatcher]; the count [n] bounds the iterations (each one after the
    first [min] consumes a character, or fails). *)
Fixpoint repeatMatch (n : nat) (body : mstate -> cont -> option mstate) (gs : list nat)
    (greedy : bool) (min : nat) (max : option nat) (x : mstate) (c : cont) : option mstate :=
  match n with
  | O => None
  | S n =>
      match max with
      | Some O => c x
      | _ =>
          let d (y : mstate) :=
            if (bool_decide (min = 0%nat)) && (len y.1 =? len x.1) then None
            else repeatMatch n body gs greedy (min - 1) (option_map pred max) y c in
          let x' := (x.1, foldr (fun g m => delete g m) x.2 gs) in
          match min with
          | S _ => body x' d
          | O =>
              if greedy then
                match body x' d with Some z => Some z | None => c x end
              else
                match c x with Some z => Some z | None => body x' d end
          end
      end
  end.

(** The matcher: [whole] is the complete input (for the anchor [^]). *)
Fixpoint mtch (whole : jsstr) (r : re) (x : mstate) (c : cont) {struct r} : option mstate :=
  match r with
  | REmpty => c x
  | RSet cs =>
      match x.1 with
      | ch :: rest => if inSet cs ch then c (rest, x.2) else None
      | [] => None
      end
  | RSeq r1 r2 => mtch whole r1 x (fun y => mtch whole r2 y c)
  | RAlt r1 r2 =>
      match mtch whole r1 x c with Some z => Some z | None => mtch whole r2 x c end
  | RGroup n r =>
      mtch whole r x (fun y =>
        c (y.1, <[n := take (length x.1 - length y.1) x.1]> y.2))
  | RRepeat greedy min max r =>
      repeatMatch (min + length x.1 + 2) (mtch whole r) (groups r) greedy min max x c
  | RLook false r =>
      match mtch whole r x Some with
      | Some z => c (x.1, z.2)
      | None => None
      end
  | RLook true r =>
      match mtch whole r x Some with
      | Some _ => None
      | None => c x
      end
  | RBol => if len x.1 =? len whole then c x else None
  | REol => match x.1 with [] => c x | _ => None end
  end.

(** A match starting exactly at a position: the rest of the input and the captures. *)
Definition matchHere (whole : jsstr) (r : re) (rest : jsstr) : option mstate :=
  mtch whole r (rest, ∅) Some.

(** [r.exec(s)]: the first position where the pattern matches, as
    [(index, matched text, captures, rest)]. *)
Fixpoint execFrom (whole : jsstr) (r : re) (rest : jsstr) (i : Z)
    : option (Z * jsstr * captures * jsstr) :=
  match matchHere whole r rest with
  | Some (rest', caps) => Some (i, take (length rest - length rest') rest, caps, rest')
  | None =>
      match rest with
      | [] => None
      | _ :: rest1 => execFrom whole r rest1 (i + 1)
      end
  end.

Definition exec (r : re) (s : jsstr) : option (Z * jsstr * captures * jsstr) := execFrom s r s 0.

(** [r.test(s)]. *)
Definition re_test (r : re) (s : jsstr) : bool :=
  match exec r s with Some _ => true | None => false end.

(** [s.replace(r, f)] with a pattern that has the flag [g] and matches no
    empty text: [f] gets the matched text and the captures. *)
Fixpoint replaceAll (n : nat) (whole : jsstr) (r : re) (f : jsstr -> captures -> jsstr) (s : jsstr) : jsstr :=
  match n with
  | O => s
  | S n =>
      match s with
      | [] => []
      | ch :: rest =>
          match matchHere whole r s with
          | Some (rest', caps) =>
              if len rest' =? len s then ch :: replaceAll n whole r f rest
              else f (take (length s - length rest') s) caps ++ replaceAll n whole r f rest'
          | None => ch :: replaceAll n whole r f rest
          end
      end
  end.

Definition replaceG (r : re) (f : jsstr -> captures -> jsstr) (s : jsstr) : jsstr :=
  replaceAll (S (length s)) s r f s.

(** [s.replace(r, t)] without the flag [g]: the first match only. *)
Definition replaceFirst (r : re) (t : jsstr) (s : jsstr) : jsstr :=
  match exec r s with
  | Some (i, _, _, rest) => take (Z.to_nat i) s ++ t ++ rest
  | None => s
  end.

(** * Sources *)

(** One escape sequence after the backslash: [\d \D \s \S \w \W], the control
    letters [\n \r \t], and identity escapes (no source modelled here writes a
    numeric, hexadecimal, Unicode or word-boundary escape). *)
Definition digitRanges : list (Z * Z) := [(48, 57)].
Definition wordRanges : list (Z * Z) := [(48, 57); (65, 90); (95, 95); (97, 122)].
Definition spaceRanges : list (Z * Z) :=
  [(9, 13); (32, 32); (160, 160); (5760, 5760); (8192, 8202); (8232, 8233); (8239, 8239);
   (8287, 8287); (12288, 12288); (65279, 65279)].

(** The units outside sorted, disjoint ranges. *)
Fixpoint complement (from : Z) (rs : list (Z * Z)) : list (Z * Z) :=
  match rs with
  | [] => [(from, 65535)]
  | (a, b) :: rs' => (from, a - 1) :: complement (b + 1) rs'
  end.

Definition escapeRanges (c : Z) : list (Z * Z) :=
  if c =? 100 then digitRanges
  else if c =? 68 then complement 0 digitRanges
  else if c =? 115 then spaceRanges
  else if c =? 83 then complement 0 spaceRanges
  else if c =? 119 then wordRanges
  else if c =? 87 then complement 0 wordRanges
  else if c =? 110 then [(10, 10)]
  else if c =? 114 then [(13, 13)]
  else if c =? 116 then [(9, 9)]
  else [(c, c)].

(** Is the escape a class of several characters (no range end)? *)
Definition isClassEscape (c : Z) : bool := bool_decide (c ∈ js "dDsSwW").

(** Body of a bracket expression, after the opening bracket and the optional
    caret.  [None] is a SyntaxError (no closing bracket, or a range out of
    order).  [prev] is a pending single character that may start a range. *)
Fixpoint parseClass (n : nat) (s : jsstr) (prev : option Z) (dash : bool) (acc : list (Z * Z))
    : option (list (Z * Z) * jsstr) :=
  match n with
  | O => None
  | S n =>
      let flush := match prev with Some p => (p, p) :: acc | None => acc end in
      let flushDash := if dash then (45, 45) :: flush else flush in
      let atom (c : Z) (s' : jsstr) :=
        if dash then
          match prev with
          | Some p => if c <? p then None else parseClass n s' None false ((p, c) :: acc)
          | None => parseClass n s' (Some c) false flushDash
          end
        else parseClass n s' (Some c) false flush in
      match s with
      | [] => None
      | 93 :: s' => Some (flushDash, s')
      | 92 :: c :: s' =>
          if isClassEscape c then
            parseClass n s' None false (escapeRanges c ++ flushDash)
          else match escapeRanges c with
               | [(a, _)] => atom a s'
               | _ => None
               end
      | 92 :: [] => None
      | 45 :: s' =>
          match prev, dash with
          | Some _, false => parseClass n s' prev true acc
          | _, _ => atom 45 s'
          end
      | c :: s' => atom c s'
      end
  end.

(** [{n}], [{n,}] and [{n,m}] after the opening brace. *)
Fixpoint parseNat (s : jsstr) (v : nat) (any : bool) : option (nat * jsstr) :=
  match s with
  | c :: s' =>
      if isDigit c then parseNat s' (10 * v + Z.to_nat (c - 48)) true
      else if any then Some (v, s) else None
  | [] => if any then Some (v, s) else None
  end.

Definition parseBounds (s : jsstr) : option (nat * option nat * jsstr) :=
  match parseNat s 0 false with
  | Some (a, 125 :: s') => Some (a, Some a, s')
  | Some (a, 44 :: 125 :: s') => Some (a, None, s')
  | Some (a, 44 :: s') =>
      match parseNat s' 0 false with
      | Some (b, 125 :: s'') => if (b <? a)%nat then None else Some (a, Some b, s'')
      | _ => None
      end
  | _ => None
  end.

(** A quantifier after an atom. *)
Definition quantify (r : re) (s : jsstr) : re * jsstr :=
  let lazyOf (min : nat) (max : option nat) (s' : jsstr) :=
    match s' with
    | 63 :: s'' => (RRepeat false min max r, s'')
    | _ => (RRepeat true min max r, s')
    end in
  match s with
  | 42 :: s' => lazyOf 0%nat None s'
  | 43 :: s' => lazyOf 1%nat None s'
  | 63 :: s' => lazyOf 0%nat (Some 1%nat) s'
  | 123 :: s' =>
      match parseBounds s' with
      | Some (a, b, s'') => lazyOf a b s''
      | None => (r, s)
      end
  | _ => (r, s)
  end.

(** Disjunction, up to a closing parenthesis or the end.  The result is the
    pattern, the rest of the source and the next group number; [None] is a
    SyntaxError.  [alt] is the sequence read so far in this alternative. *)
Fixpoint parseRe (n : nat) (s : jsstr) (g : nat) (alt : re) : option (re * jsstr * nat) :=
  match n with
  | O => None
  | S n =>
      let add (r : re) (s' : jsstr) (g' : nat) :=
        let '(q, s'') := quantify r s' in parseRe n s'' g' (RSeq alt q) in
      let group (mk : re -> re) (s' : jsstr) (g' : nat) :=
        match parseRe n s' g' REmpty with
        | Some (r, 41 :: s'', g'') => add (mk r) s'' g''
        | _ => None
        end in
      let class (neg : bool) (s' : jsstr) :=
        match parseClass (S (length s')) s' None false [] with
        | Some (rs, s'') => add (RSet (mkSet neg rs)) s'' g
        | None => None
        end in
      match s with
      | [] => Some (alt, [], g)
      | c :: s' =>
          if c =? 41 then Some (alt, s, g)
          else if c =? 124 then
            match parseRe n s' g REmpty with
            | Some (r, s'', g') => Some (RAlt alt r, s'', g')
            | None => None
            end
          else if c =? 94 then parseRe n s' g (RSeq alt RBol)
          else if c =? 36 then parseRe n s' g (RSeq alt REol)
          else if c =? 40 then
            match s' with
            | 63 :: 58 :: s'' => group (fun r => r) s'' g
            | 63 :: 33 :: s'' => group (RLook true) s'' g
            | 63 :: 61 :: s'' => group (RLook false) s'' g
            | 63 :: _ => None
            | _ => group (RGroup g) s' (S g)
            end
          else if c =? 91 then
            match s' with
            | 94 :: s'' => class true s''
            | _ => class false s'
            end
          else if c =? 92 then
            match s' with
            | d :: s'' => add (RSet (mkSet false (escapeRanges d))) s'' g
            | [] => None
            end
          else if (c =? 42) || (c =? 43) || (c =? 63) then None
          else if c =? 46 then add rany s' g
          else if c =? 123 then
            match parseBounds s' with Some _ => None | None => add (rchar 123) s' g end
          else add (rchar c) s' g
      end
  end.

(** [new RegExp(source)]: [None] is a SyntaxError. *)
Definition newRegExp (source : jsstr) : option re :=
  match parseRe (S (length source)) source 1 REmpty with
  | Some (r, [], _) => Some r
  | _ => None
  end.
