(* ===== verification/PosixPath.v ===== *)
(** The POSIX path module (wordcut.js, module 22, path-browserify, and module
    23, path-is-absolute), with the current directory of the process shim
    (module 24). *)
From Stdlib Require Import ZArith Lia.
From stdpp Require Import base gmap strings list.
From S2P Require Import Prelude JsString JsRegExp.

Local Open Scope Z_scope.
Open Scope js_scope.

Abbreviation SLASH := 47.
Abbreviation DOT := 46.
Definition dot : jsstr := [DOT].
Definition dotdot : jsstr := [DOT; DOT].

(** [process.cwd()] of the shim. *)
Definition process_cwd : jsstr := js "/".

(** The body of the loop of [normalizeArray], from the last part to the first:
    the parts kept so far and the counter [up]. *)
Definition normStep (last : jsstr) (st : list jsstr * nat) : list jsstr * nat :=
  let '(kept, up) := st in
  if str_eqb last dot then (kept, up)
  else if str_eqb last dotdot then (kept, S up)
  else match up with
       | O => (last :: kept, up)
       | S up' => (kept, up')
       end.

(** [normalizeArray(parts, allowAboveRoot)]. *)
Definition normalizeArray (parts : list jsstr) (allowAboveRoot : bool) : list jsstr :=
  let '(kept, up) := foldr normStep ([], 0%nat) parts in
  if allowAboveRoot then replicate up dotdot ++ kept else kept.

(** [isAbsolute(path)] (module 22) and [posix(path)] (module 23). *)
Definition isAbsolute (path : jsstr) : bool := str_eqb (charAt path 0) [SLASH].

(** [filter(path.split('/'), function(p) { return !!p; })]. *)
Definition segments (path : jsstr) : list jsstr :=
  filter (fun p => p <> []) (split1 SLASH path).

(** [normalize(path)]. *)
Definition normalize (path : jsstr) : jsstr :=
  let isAbs := isAbsolute path in
  let trailingSlash := str_eqb (substrFrom path (-1)) [SLASH] in
  let p := join [SLASH] (normalizeArray (segments path) (negb isAbs)) in
  let p := if bool_decide (p = []) && negb isAbs then dot else p in
  let p := if bool_decide (p <> []) && trailingSlash then p ++ [SLASH] else p in
  (if isAbs then [SLASH] else []) ++ p.

(** An argument of a variadic path function: [None] is a value that is not a string. *)
Abbreviation pathArgs := (list (option jsstr)).

(** The loop of [resolve], over the arguments from the last to the first and
    then the current directory. *)
Fixpoint resolveLoop (args : pathArgs) (resolvedPath : jsstr) : outcome (jsstr * bool) :=
  match args with
  | [] => Ret (resolvedPath, false)
  | None :: _ => Throw "TypeError: Arguments to path.resolve must be strings"
  | Some path :: args' =>
      if bool_decide (path = []) then resolveLoop args' resolvedPath
      else
        let resolvedPath' := path ++ [SLASH] ++ resolvedPath in
        if isAbsolute path then Ret (resolvedPath', true)
        else resolveLoop args' resolvedPath'
  end.

(** [resolve(...args)] with the current directory [cwd]. *)
Definition resolve (cwd : jsstr) (args : pathArgs) : outcome jsstr :=
  '(resolvedPath, resolvedAbsolute) ← resolveLoop (rev args ++ [Some cwd]) [];
  let p := join [SLASH] (normalizeArray (segments resolvedPath) (negb resolvedAbsolute)) in
  let p := (if resolvedAbsolute then [SLASH] else []) ++ p in
  Ret (if bool_decide (p = []) then dot else p).

(** [join(...args)] (here [joinPath]; [join] is the array method). *)
Fixpoint joinArgs (args : pathArgs) : outcome (list jsstr) :=
  match args with
  | [] => Ret []
  | None :: _ => Throw "TypeError: Arguments to path.join must be strings"
  | Some p :: args' =>
      ps ← joinArgs args'; Ret (if bool_decide (p = []) then ps else p :: ps)
  end.

Definition joinPath (args : pathArgs) : outcome jsstr :=
  ps ← joinArgs args; Ret (normalize (join [SLASH] ps)).

(** [trim(arr)] of [relative]: the slice ends at [end - start + 1], a length
    and not a position. *)
Fixpoint countEmpty (arr : list jsstr) : Z :=
  match arr with
  | [] :: arr' => countEmpty arr' + 1
  | _ => 0
  end.

Definition trimArr (arr : list jsstr) : list jsstr :=
  let start := countEmpty arr in
  let stop := len arr - 1 - countEmpty (rev arr) in
  if stop <? start then [] else slice arr start (stop - start + 1).

(** Length of the common prefix of two part lists. *)
Fixpoint samePartsLength (from to : list jsstr) : nat :=
  match from, to with
  | f :: from', t :: to' => if str_eqb f t then S (samePartsLength from' to') else 0
  | _, _ => 0
  end.

(** [relative(from, to)]. *)
Definition relative (cwd from to : jsstr) : outcome jsstr :=
  from ← resolve cwd [Some from];
  to ← resolve cwd [Some to];
  let fromParts := trimArr (split1 SLASH (substrFrom from 1)) in
  let toParts := trimArr (split1 SLASH (substrFrom to 1)) in
  let n := samePartsLength fromParts toParts in
  Ret (join [SLASH] (replicate (length fromParts - n) dotdot ++ drop n toParts)).

(** [splitPathRe]: root, directory, base name and extension. *)
Definition splitPathRe : re :=
  let slash := rchar SLASH in
  let notSlash := RSet (mkSet true [(SLASH, SLASH)]) in
  let any := RSet (mkSet false [(0, 65535)]) in
  let dots := RRepeat true 1 (Some 2%nat) (rchar DOT) in
  let name := RAlt dots (RAlt (RRepeat false 1 None notSlash) REmpty) in
  let ext := RAlt (RSeq (rchar DOT)
                     (RRepeat true 0 None (RSet (mkSet true [(DOT, DOT); (SLASH, SLASH)])))) REmpty in
  RSeq RBol
  (RSeq (RGroup 1 (RAlt (RRepeat true 0 (Some 1%nat) slash) REmpty))
  (RSeq (RGroup 2 (RRepeat false 0 None any))
  (RSeq (RGroup 3 (RSeq name (RGroup 4 ext)))
  (RSeq (RRepeat true 0 None slash) REol)))).

(** [splitPath(filename)]: the four captures, [None] when the pattern fails
    (the source would throw on [null.slice]). *)
Definition splitPath (filename : jsstr) : outcome (jsstr * jsstr * jsstr * jsstr) :=
  match exec splitPathRe filename with
  | Some (_, _, c, _) =>
      let g n := default [] (c !! n) in
      Ret (g 1%nat, g 2%nat, g 3%nat, g 4%nat)
  | None => Throw "TypeError"
  end.

(** [dirname(path)]. *)
Definition dirname (path : jsstr) : outcome jsstr :=
  '(root, dir, _, _) ← splitPath path;
  if bool_decide (root = []) && bool_decide (dir = []) then Ret dot
  else
    let dir := if bool_decide (dir <> []) then substr dir 0 (len dir - 1) else dir in
    Ret (root ++ dir).

(** [basename(path, ext)]. *)
Definition basename (path : jsstr) (ext : jsstr) : outcome jsstr :=
  '(_, _, f, _) ← splitPath path;
  if bool_decide (ext <> []) && str_eqb (substrFrom f (-1 * len ext)) ext
  then Ret (substr f 0 (len f - len ext))
  else Ret f.

(** [extname(path)]. *)
Definition extname (path : jsstr) : outcome jsstr :=
  '(_, _, _, e) ← splitPath path; Ret e.

(** * Reference: resolving parts from left to right with a stack *)

(** [(ups, stack)]: leading [..]s that climb above the start, and the names
    entered since, innermost first. *)
Definition walkStep (st : nat * list jsstr) (part : jsstr) : nat * list jsstr :=
  let '(ups, stack) := st in
  if str_eqb part dot then st
  else if str_eqb part dotdot then
    match stack with
    | [] => (S ups, [])
    | _ :: stack' => (ups, stack')
    end
  else (ups, part :: stack).

Definition walk (parts : list jsstr) : nat * list jsstr := fold_left walkStep parts (0%nat, []).

Lemma walk_normStep parts ups stack :
  let '(kept, up) := foldr normStep ([], 0%nat) parts in
  fold_left walkStep parts (ups, stack) =
    ((ups + (up - length stack))%nat, rev kept ++ drop up stack).
Proof.
  revert ups stack. induction parts as [|x parts IH]; intros ups stack; cbn [foldr fold_left].
  - rewrite drop_0. simpl. f_equal. lia.
  - destruct (foldr normStep ([], 0%nat) parts) as [kept up] eqn:E.
    unfold normStep, walkStep at 2. destruct (str_eqb x dot); [apply IH|].
    destruct (str_eqb x dotdot).
    + destruct stack as [|t stack]; rewrite IH; simpl.
      * rewrite !drop_nil. f_equal. lia.
      * f_equal.
    + destruct up as [|up]; rewrite IH.
      * simpl. rewrite <- app_assoc. simpl. by rewrite drop_0.
      * simpl. f_equal; lia.
Qed.

(** * Clean part lists *)

(** A part list in normal form: names (not empty, without slash, not [.] nor
    [..]) after some leading [..]s. *)
Definition isName (p : jsstr) : Prop :=
  p <> [] /\ Forall (fun c => c <> SLASH) p /\ p <> dot /\ p <> dotdot.

Definition rawPart (p : jsstr) : Prop := p <> [] /\ Forall (fun c => c <> SLASH) p.

Lemma segments_raw path : Forall rawPart (segments path).
Proof.
  unfold segments. apply Forall_forall. intros p [Hne Hin]%list_elem_of_filter. split; [done|].
  pose proof (splitOn_no_sep (Z.eqb SLASH) path) as H. rewrite Forall_forall in H.
  specialize (H p Hin). eapply Forall_impl; [exact H|]. intros c Hc ->. simpl in Hc. discriminate Hc.
Qed.

Lemma normStep_names parts :
  Forall rawPart parts -> Forall isName (foldr normStep ([], 0%nat) parts).1.
Proof.
  induction 1 as [|x parts [Hne Hs] _ IH]; cbn [foldr]; [constructor|].
  destruct (foldr normStep ([], 0%nat) parts) as [kept up]. unfold normStep, str_eqb.
  case_bool_decide; [done|]. case_bool_decide; [done|].
  destruct up; simpl in *; [|done]. constructor; [|done]. done.
Qed.

Lemma normStep_id names up :
  Forall isName names -> foldr normStep ([], 0%nat) (replicate up dotdot ++ names) = (names, up).
Proof.
  intros Hn. induction up as [|up IH]; cbn [replicate app].
  - induction Hn as [|x names (Hx & _ & Hd & Hdd) _ IH]; cbn [foldr]; [done|].
    rewrite IH. unfold normStep, str_eqb. by rewrite !bool_decide_eq_false_2 by done.
  - cbn [foldr]. rewrite IH. done.
Qed.

Lemma normalizeArray_idem parts b :
  Forall rawPart parts -> normalizeArray (normalizeArray parts b) b = normalizeArray parts b.
Proof.
  intros Hp. unfold normalizeArray. pose proof (normStep_names parts Hp) as Hn.
  destruct (foldr normStep ([], 0%nat) parts) as [kept up]. simpl in Hn. destruct b.
  - by rewrite normStep_id.
  - pose proof (normStep_id kept 0 Hn) as E. simpl in E. by rewrite E.
Qed.

Lemma normalizeArray_raw parts b : Forall rawPart parts -> Forall rawPart (normalizeArray parts b).
Proof.
  intros Hp. unfold normalizeArray. pose proof (normStep_names parts Hp) as Hn.
  destruct (foldr normStep ([], 0%nat) parts) as [kept up]. simpl in Hn.
  assert (Forall rawPart kept) as Hk by (eapply Forall_impl; [exact Hn|]; by intros p (? & ? & _)).
  destruct b; [|done]. apply Forall_app. split; [|done].
  apply Forall_replicate. split; [done|]. by repeat constructor.
Qed.

Lemma segments_join parts : Forall rawPart parts -> segments (join [SLASH] parts) = parts.
Proof.
  intros Hp. unfold segments. destruct parts as [|p parts]; [done|].
  rewrite split1_join; [|done|eapply Forall_impl; [exact Hp|]; by intros ? [_ ?]].
  apply filter_id. eapply Forall_impl; [exact Hp|]. by intros ? [? _].
Qed.

Lemma segments_app a b : segments (a ++ SLASH :: b) = segments a ++ segments b.
Proof. unfold segments, split1. rewrite splitOn_app_sep by done. apply filter_app. Qed.

Lemma segments_slash_l p : segments (SLASH :: p) = segments p.
Proof. apply (segments_app [] p). Qed.

Lemma segments_slash_r p : segments (p ++ [SLASH]) = segments p.
Proof. rewrite segments_app. apply app_nil_r. Qed.

Lemma normalizeArray_walk parts b :
  normalizeArray parts b =
    (if b then replicate (walk parts).1 dotdot else []) ++ rev (walk parts).2.
Proof.
  unfold normalizeArray, walk. pose proof (walk_normStep parts 0 []) as H.
  destruct (foldr normStep ([], 0%nat) parts) as [kept up]. rewrite H. cbn [fst snd length].
  rewrite drop_nil, app_nil_r, rev_involutive. replace (0 + (up - 0))%nat with up by lia. by destruct b.
Qed.

Lemma normalizeArray_names parts : Forall rawPart parts -> Forall isName (normalizeArray parts false).
Proof.
  intros Hp. unfold normalizeArray. pose proof (normStep_names parts Hp).
  by destruct (foldr normStep ([], 0%nat) parts).
Qed.

(** ** First and last character of joined parts *)

Lemma join_parts_head parts : Forall rawPart parts -> head (join [SLASH] parts) <> Some SLASH.
Proof.
  intros [|p parts' [Hne Hs] _]; [done|].
  destruct p as [|c p]; [done|]. inversion Hs; subst.
  assert (head (join [SLASH] ((c :: p) :: parts')) = Some c) as -> by by destruct parts'. congruence.
Qed.

Lemma join_parts_last parts : Forall rawPart parts -> last (join [SLASH] parts) <> Some SLASH.
Proof.
  induction 1 as [|p parts' [Hne Hs] Hrest IH]; [done|].
  destruct parts' as [|q parts'].
  - cbn [join]. intros Hl%last_Some_elem_of. rewrite Forall_forall in Hs. by apply (Hs _ Hl).
  - rewrite join_cons by done. rewrite !last_app.
    destruct (last (join [SLASH] (q :: parts'))) eqn:E; [done|].
    apply last_None in E. inversion Hrest as [|? ? [Hq _] _]; subst. by destruct q, parts'.
Qed.

Lemma join_parts_nil parts : Forall rawPart parts -> join [SLASH] parts = [] <-> parts = [].
Proof.
  intros [|p parts' [Hne _] _]; [done|]. split; [|done].
  destruct p; [done|]. by destruct parts'.
Qed.

Lemma isAbsolute_head p : isAbsolute p = bool_decide (head p = Some SLASH).
Proof.
  unfold isAbsolute, charAt, str_eqb. destruct p as [|c p]; [done|]. simpl.
  change (idx (c :: p) 0) with (Some c). apply bool_decide_ext. split; congruence.
Qed.

Lemma trailing_last p : str_eqb (substrFrom p (-1)) [SLASH] = bool_decide (last p = Some SLASH).
Proof.
  unfold str_eqb. apply bool_decide_ext. unfold substrFrom, substr. simpl.
  destruct p as [|c p _] using rev_ind; [done|].
  rewrite last_snoc, len_app, len_cons, len_nil. pose proof (len_nonneg p).
  replace (Z.max 0 (len p + (0 + 1) + -1)) with (len p) by lia.
  unfold len. rewrite Nat2Z.id, drop_app_length.
  replace (Z.to_nat (Z.of_nat (length p) + (0 + 1))) with (S (length p)) by lia.
  simpl. rewrite take_nil. split; congruence.
Qed.

(** The shape of a normalized path. *)
Lemma normalize_shape p :
  let parts := normalizeArray (segments p) (negb (isAbsolute p)) in
  normalize p =
    (if isAbsolute p then [SLASH] else []) ++
    (if bool_decide (parts = []) then
       (if isAbsolute p then [] else dot ++ (if bool_decide (last p = Some SLASH) then [SLASH] else []))
     else join [SLASH] parts ++ (if bool_decide (last p = Some SLASH) then [SLASH] else [])).
Proof.
  intros parts. unfold normalize. rewrite trailing_last. fold parts.
  assert (Hraw : Forall rawPart parts) by apply normalizeArray_raw, segments_raw.
  pose proof (join_parts_nil parts Hraw) as Hnil.
  destruct (bool_decide (parts = [])) eqn:E; boolprop.
  - rewrite E. cbn [join]. destruct (isAbsolute p); cbn; [done|].
    by destruct (bool_decide (last p = Some SLASH)).
  - rewrite (bool_decide_eq_false_2 (join [SLASH] parts = [])) by tauto.
    rewrite (bool_decide_eq_true_2 (join [SLASH] parts <> [])) by tauto.
    simpl. destruct (bool_decide (last p = Some SLASH)); [done|]. by rewrite app_nil_r.
Qed.

Lemma last_slash_tail core (b : bool) :
  core <> [] -> last core <> Some SLASH ->
  bool_decide (last (core ++ (if b then [SLASH] else [])) = Some SLASH) = b.
Proof.
  intros Hne Hl. destruct b; [by rewrite last_snoc|]. rewrite app_nil_r.
  by apply bool_decide_eq_false.
Qed.

Lemma segments_tail core (b : bool) : segments (core ++ (if b then [SLASH] else [])) = segments core.
Proof. destruct b; [apply segments_slash_r | by rewrite app_nil_r]. Qed.

(** ** Facts about [resolve] and [relative] *)

Lemma resolveLoop_acc l acc :
  resolveLoop l acc = (fun '(p, b) => (p ++ acc, b)) <$> resolveLoop l [].
Proof.
  revert acc. induction l as [|[p|] l IH]; intros acc; cbn [resolveLoop]; [done| |done].
  case_bool_decide; [apply IH|]. destruct (isAbsolute p).
  - simpl. by rewrite <- app_assoc.
  - rewrite IH, (IH (p ++ [SLASH] ++ [])). destruct (resolveLoop l []) as [[q b]| |]; simpl; [|done..].
    by rewrite <- !app_assoc.
Qed.

Lemma resolveLoop_abs l cwd :
  Forall is_Some l -> isAbsolute cwd = true ->
  exists raw, resolveLoop (l ++ [Some cwd]) [] = Ret (raw, true).
Proof.
  intros Hl Hc. assert (Hne : cwd <> []) by by intros ->.
  induction Hl as [|o l [p ->] _ IH]; cbn [app resolveLoop].
  - rewrite bool_decide_eq_false_2 by done. rewrite Hc. eauto.
  - case_bool_decide; [done|]. destruct (isAbsolute p); [eauto|].
    rewrite resolveLoop_acc. destruct IH as [raw ->]. simpl. eauto.
Qed.

Lemma resolveLoop_bad rest l acc :
  Forall (fun a => isAbsolute a = false) rest ->
  resolveLoop (map Some rest ++ None :: l) acc = Throw "TypeError: Arguments to path.resolve must be strings".
Proof.
  intros H. revert acc. induction H as [|a rest' Ha _ IH]; intros acc; cbn [map app resolveLoop]; [done|].
  case_bool_decide; [apply IH|]. rewrite Ha. apply IH.
Qed.

(** The raw path [resolve] normalizes. *)
Lemma resolve_raw cwd args :
  Forall is_Some args -> isAbsolute cwd = true ->
  exists raw, resolveLoop (rev args ++ [Some cwd]) [] = Ret (raw, true) /\
    resolve cwd args = Ret (SLASH :: join [SLASH] (normalizeArray (segments raw) false)).
Proof.
  intros Ha Hc. destruct (resolveLoop_abs (rev args) cwd) as [raw Hraw]; [by apply Forall_rev|done|].
  exists raw. split; [done|]. unfold resolve. by rewrite Hraw.
Qed.

(** Appending a relative path to the arguments appends its segments. *)
Lemma resolve_raw_snoc cwd from r raw :
  isAbsolute cwd = true -> isAbsolute r = false ->
  resolveLoop (rev [Some from] ++ [Some cwd]) [] = Ret (raw, true) ->
  resolve cwd [Some from; Some r] =
    Ret (SLASH :: join [SLASH] (normalizeArray (segments raw ++ segments r) false)).
Proof.
  intros Hc Hr Hraw. unfold resolve. cbn [rev app] in *.
  change (resolveLoop (Some r :: [Some from; Some cwd]) []) with
    (if bool_decide (r = []) then resolveLoop [Some from; Some cwd] [] else
     if isAbsolute r then Ret (r ++ [SLASH] ++ [], true) else
     resolveLoop [Some from; Some cwd] (r ++ [SLASH] ++ [])).
  case_bool_decide as E.
  - subst r. rewrite Hraw. cbn [mbind outcome_bind negb app]. by rewrite app_nil_r.
  - rewrite Hr, resolveLoop_acc, Hraw. cbn [fmap outcome_fmap mbind outcome_bind negb app].
    do 4 f_equal. rewrite <- segments_slash_r.
    assert (exists raw', raw = raw' ++ [SLASH]) as [raw' ->].
    { clear -Hraw Hc. cbn [resolveLoop] in Hraw. repeat case_bool_decide; simplify_eq.
      - rewrite Hc in Hraw. injection Hraw as <-. eauto.
      - destruct (isAbsolute from); [injection Hraw as <-; eauto|]. rewrite Hc in Hraw.
        injection Hraw as <-. exists (cwd ++ SLASH :: from). by rewrite <- !app_assoc. }
    rewrite <- !app_assoc. cbn [app]. rewrite segments_app, segments_app, segments_slash_r.
    simpl. by rewrite !app_nil_r.
Qed.

Lemma trimArr_names parts : Forall isName parts -> trimArr (split1 SLASH (join [SLASH] parts)) = parts.
Proof.
  intros Hn. destruct Hn as [|p parts Hp Hps]; [done|].
  rewrite split1_join; [|done|].
  2:{ constructor; [apply Hp|]. eapply Forall_impl; [exact Hps|]. by intros ? (? & ? & _). }
  assert (Hz : forall l, Forall isName l -> countEmpty l = 0).
  { intros l [|q l' (Hq & _) _]; [done|]. by destruct q. }
  assert (Hall : Forall isName (p :: parts)) by by constructor.
  set (arr := p :: parts) in *.
  assert (Hpos : 0 < len arr) by (unfold arr; rewrite len_cons; pose proof (len_nonneg parts); lia).
  unfold trimArr. rewrite (Hz arr Hall), (Hz (rev arr)) by by apply Forall_rev.
  destruct (Z.ltb_spec (len arr - 1 - 0) 0); [lia|].
  replace (len arr - 1 - 0 - 0 + 1) with (len arr) by lia. apply slice_full.
Qed.

Lemma samePartsLength_take F T :
  take (samePartsLength F T) F = take (samePartsLength F T) T.
Proof.
  revert T. induction F as [|f F IH]; intros [|t T]; simpl; try done.
  unfold str_eqb. case_bool_decide as E; [|done]. subst. simpl. f_equal. apply IH.
Qed.

Lemma samePartsLength_le F T : (samePartsLength F T <= length F)%nat.
Proof.
  revert T. induction F as [|f F IH]; intros [|t T]; simpl; try lia.
  destruct (str_eqb f t); simpl; [|lia]. specialize (IH T). lia.
Qed.

Lemma walk_ups k u stack :
  (k <= length stack)%nat -> fold_left walkStep (replicate k dotdot) (u, stack) = (u, drop k stack).
Proof.
  revert stack. induction k as [|k IH]; intros stack Hk; cbn [replicate fold_left]; [by rewrite drop_0|].
  destruct stack as [|x stack]; simpl in Hk; [lia|]. cbn. apply IH. lia.
Qed.

Lemma walk_names names u stack :
  Forall isName names -> fold_left walkStep names (u, stack) = (u, rev names ++ stack).
Proof.
  intros Hn. revert stack. induction Hn as [|x names (_ & _ & Hd & Hdd) _ IH]; intros stack; [done|].
  cbn [fold_left]. unfold walkStep at 2, str_eqb. rewrite !bool_decide_eq_false_2 by done.
  rewrite IH. simpl. by rewrite <- app_assoc.
Qed.

(** Walking from the parts [F] along the relative parts leads to [T]. *)
Lemma walk_relative parts F T :
  normalizeArray parts false = F -> Forall isName T ->
  let n := samePartsLength F T in
  normalizeArray (parts ++ replicate (length F - n) dotdot ++ drop n T) false = T.
Proof.
  intros HF HT n. rewrite normalizeArray_walk in *. cbn [app] in *. unfold walk in *.
  destruct (fold_left walkStep parts (0%nat, [])) as [u stack] eqn:E. simpl in HF.
  rewrite !fold_left_app, E. subst F. rewrite length_rev in *.
  rewrite walk_ups by lia. rewrite walk_names by by apply Forall_drop. simpl.
  rewrite rev_app_distr, rev_involutive.
  pose proof (samePartsLength_le (rev stack) T) as Hle. fold n in Hle. rewrite length_rev in Hle.
  assert (rev (drop (length stack - n) stack) = take n (rev stack)) as ->.
  { rewrite firstn_rev. done. }
  unfold n. rewrite samePartsLength_take. apply take_drop.
Qed.

Lemma relative_not_absolute k T :
  Forall isName T -> isAbsolute (join [SLASH] (replicate k dotdot ++ T)) = false.
Proof.
  intros HT. rewrite isAbsolute_head. apply bool_decide_eq_false.
  apply join_parts_head, Forall_app. split.
  - apply Forall_replicate. split; [done|]. by repeat constructor.
  - eapply Forall_impl; [exact HT|]. by intros ? (? & ? & _).
Qed.

(** * Properties *)

(** The right-to-left loop of [normalizeArray] computes what walking the
    parts from left to right computes: [.] stays, [..] leaves the innermost
    directory or climbs above the start, a name enters it; the climbs are kept
    as leading [..]s exactly when [allowAboveRoot]. *)
Lemma normalizeArray_is_walk (parts : list jsstr) (allowAboveRoot : bool) :
  normalizeArray parts allowAboveRoot =
    (if allowAboveRoot then replicate (walk parts).1 dotdot else []) ++ rev (walk parts).2.
Proof. apply normalizeArray_walk. Qed.

(** [normalize] is idempotent on every path, absolute or relative, with or
    without a trailing slash. *)
Lemma normalize_idempotent (p : jsstr) : normalize (normalize p) = normalize p.
Proof.
  rewrite (normalize_shape p). set (parts := normalizeArray (segments p) (negb (isAbsolute p))).
  set (tr := bool_decide (last p = Some SLASH)).
  assert (Hraw : Forall rawPart parts) by apply normalizeArray_raw, segments_raw.
  destruct (bool_decide (parts = [])) eqn:E.
  { destruct (isAbsolute p); [by vm_compute|]. by destruct tr; vm_compute. }
  boolprop. pose proof (join_parts_nil parts Hraw) as Hnil. pose proof (join_parts_head parts Hraw) as Hhd.
  pose proof (join_parts_last parts Hraw) as Hlast. set (core := join [SLASH] parts) in *.
  assert (Hc : core <> []) by tauto.
  assert (Hidem : normalizeArray parts (negb (isAbsolute p)) = parts) by apply normalizeArray_idem, segments_raw.
  assert (Hseg : segments core = parts) by by apply segments_join.
  rewrite normalize_shape. destruct (isAbsolute p) eqn:Ea; cbn [app negb] in *.
  - rewrite isAbsolute_head, segments_slash_l, segments_tail. cbn [head]. rewrite bool_decide_eq_true_2 by done.
    cbn [negb]. rewrite Hseg, Hidem, bool_decide_eq_false_2 by done. fold core. do 3 f_equal.
    rewrite last_cons. destruct (last (core ++ _)) eqn:El.
    + rewrite <- El. by rewrite last_slash_tail.
    + apply last_None in El. by destruct core.
  - rewrite isAbsolute_head, segments_tail.
    assert (head (core ++ (if tr then [SLASH] else [])) <> Some SLASH) as Hh by by destruct core.
    rewrite bool_decide_eq_false_2 by done. cbn [negb app].
    rewrite Hseg, Hidem, bool_decide_eq_false_2 by done. fold core. by rewrite last_slash_tail.
Qed.

(** [resolve] always yields a clean absolute path: with an absolute current
    directory and string arguments it returns a slash and names joined with
    slashes, none of them empty, [.] or [..]; an argument that is not a string
    and is reached from the right makes it throw. *)
Lemma resolve_clean (cwd : jsstr) (args : list jsstr) (bad : pathArgs) :
  isAbsolute cwd = true ->
  returns (resolve cwd (map Some args)) (fun p =>
    exists names, p = SLASH :: join [SLASH] names /\ Forall isName names) /\
  (forall rest, Forall (fun a => isAbsolute a = false) rest ->
     resolve cwd (bad ++ [None] ++ map Some rest) =
       Throw "TypeError: Arguments to path.resolve must be strings").
Proof.
  intros Hc. split.
  - destruct (resolve_raw cwd (map Some args)) as (raw & _ & ->); [|done|].
    + apply Forall_map, Forall_forall. eauto.
    + apply returns_ret. eexists. split; [done|]. apply normalizeArray_names, segments_raw.
  - intros rest Hrest. unfold resolve. rewrite !rev_app_distr, <- !app_assoc, <- map_rev.
    cbn [rev app]. apply Forall_rev in Hrest. by rewrite resolveLoop_bad.
Qed.

(** C19. [relative] inverts [resolve]: resolving the result of [relative(from, to)]
    against [from] gives the same absolute path as resolving [to], for all
    strings [from] and [to]. *)
Theorem relative_roundtrip (cwd from to : jsstr) :
  isAbsolute cwd = true ->
  returns (relative cwd from to) (fun r =>
    resolve cwd [Some from; Some r] = resolve cwd [Some to]).
Proof.
  intros Hc. destruct (resolve_raw cwd [Some from]) as (rf & Hrf & Ef); [by repeat constructor|done|].
  destruct (resolve_raw cwd [Some to]) as (rt & Hrt & Et); [by repeat constructor|done|].
  unfold relative. rewrite Ef, bind_Ret, Et, bind_Ret. apply returns_ret.
  set (F := normalizeArray (segments rf) false). set (T := normalizeArray (segments rt) false).
  assert (HF : Forall isName F) by apply normalizeArray_names, segments_raw.
  assert (HT : Forall isName T) by apply normalizeArray_names, segments_raw.
  assert (Hsub : forall s, substrFrom (SLASH :: s) 1 = s).
  { intros s. unfold substrFrom, substr, len. simpl. rewrite drop_0. apply take_ge. lia. }
  rewrite !Hsub, !trimArr_names by done. set (n := samePartsLength F T).
  rewrite (resolve_raw_snoc cwd from _ rf Hc); [|by apply relative_not_absolute, Forall_drop|done].
  do 3 f_equal. rewrite segments_join.
  - by apply walk_relative.
  - apply Forall_app. split.
    + apply Forall_replicate. split; [done|]. by repeat constructor.
    + apply Forall_drop. eapply Forall_impl; [exact HT|]. by intros ? (? & ? & _).
Qed.

Lemma relative_roundtrip_witness :
  returns (relative (js "/w") (js "a/b/c") (js "../x/d")) (fun r => resolve (js "/w") [Some (js "a/b/c"); Some r] = Ret (js "/x/d")).
Proof.
  eapply returns_mono; [exact (relative_roundtrip (js "/w") (js "a/b/c") (js "../x/d") eq_refl)|].
  intros r ->. vm_compute. reflexivity.
Defined.
