(* ===== verification/PathIsAbsolute.v ===== *)
(** path-is-absolute (wordcut.js, module 23): the test of POSIX paths, which is that
    of module 22, and the test of Windows paths by [splitDeviceRe].

    The pattern is run by the matcher of [JsRegExp]; [win32_is_absolute] shows what it
    decides. *)
From Stdlib Require Import ZArith Lia.
From stdpp Require Import base gmap strings list.
From S2P Require Import Prelude JsString JsRegExp PosixPath.

Local Open Scope Z_scope.
Open Scope js_scope.

Definition COLON : Z := 58.
Definition letters : charset := mkSet false [(97, 122); (65, 90)].
Definition seps : charset := mkSet false [(92, 92); (47, 47)].
Definition notSeps : charset := mkSet true [(92, 92); (47, 47)].

(** A drive, or the server and the share of a UNC path. *)
Definition driveRe : re := RSeq (RSet letters) (rchar COLON).
Definition shareRe : re := RSeq (RRepeat true 1 None (RSet notSeps)) (RSeq (RRepeat true 1 None (RSet seps)) (RRepeat true 1 None (RSet notSeps))).
Definition deviceRe : re := RAlt driveRe (RSeq (RRepeat true 2 (Some 2%nat) (RSet seps)) shareRe).
Definition afterDeviceRe : re :=
  RSeq (RRepeat true 0 (Some 1%nat) (RGroup 2 (RSet seps))) (RSeq (RGroup 3 (RRepeat false 0 None (RSet (mkSet true [])))) REol).
Definition splitDeviceRe : re := RSeq RBol (RSeq (RRepeat true 0 (Some 1%nat) (RGroup 1 deviceRe)) afterDeviceRe).

Definition posix (path : jsstr) : bool := isAbsolute path.

(** [result[1] || ''], [Boolean(result[2] || isUnc)]: what the captures say. *)
Definition absoluteBy (result : captures) : bool :=
  let device := default [] (result !! 1%nat) in
  let isUnc := bool_decide (device <> []) && negb (str_eqb (charAt device 1) [COLON]) in
  bool_decide (default [] (result !! 2%nat) <> []) || isUnc.
Definition win32 (path : jsstr) : outcome bool :=
  match exec splitDeviceRe path with
  | Some (_, _, result, _) => Ret (absoluteBy result)
  | None => Throw "TypeError"
  end.

(** [module.exports], with its two members. *)
Definition pathIsAbsolute (platform : jsstr) (path : jsstr) : outcome bool :=
  if str_eqb platform (js "win32") then win32 path else Ret (posix path).

(** * The matcher *)

Lemma orElse_Some {A} (o p : option A) z : match o with Some a => Some a | None => p end = Some z -> o = Some z \/ p = Some z.
Proof. destruct o; [intros [= ->]|]; auto. Qed.

(** A match hands its continuation a suffix of its input. *)
Lemma repeat_suffix n body gs greedy min max x c z :
  (forall x c z, body x c = Some z -> exists y, c y = Some z /\ y.1 `suffix_of` x.1) ->
  repeatMatch n body gs greedy min max x c = Some z -> exists y, c y = Some z /\ y.1 `suffix_of` x.1.
Proof.
  intros Hb. revert min max x. induction n as [|n IH]; intros min max x; cbn; [done|].
  assert (Hd : forall x' (c' := fun y : mstate => if bool_decide (min = 0%nat) && (len y.1 =? len x.1) then None else repeatMatch n body gs greedy (min - 1) (option_map pred max) y c),
    x'.1 = x.1 -> body x' c' = Some z -> exists y, c y = Some z /\ y.1 `suffix_of` x.1).
  { intros x' c' Hx (y & Hy & Hs)%Hb. unfold c' in Hy. case_match; [done|]. apply IH in Hy as (y' & ? & ?). exists y'. split; [done|]. rewrite <- Hx. by etrans. }
  assert (Hc : c x = Some z -> exists y, c y = Some z /\ y.1 `suffix_of` x.1) by eauto.
  destruct max as [[|m]|]; [exact Hc|..]; (destruct min as [|k]; [|by apply Hd]); destruct greedy;
    (intros [H|H]%orElse_Some; first [exact (Hc H)|exact (Hd (x.1, _) eq_refl H)]).
Qed.

Lemma mtch_suffix whole r x c z : mtch whole r x c = Some z -> exists y, c y = Some z /\ y.1 `suffix_of` x.1.
Proof.
  revert x c z. induction r as [|cs|r1 IH1 r2 IH2|r1 IH1 r2 IH2|g r IH|greedy min max r IH|neg r IH| |]; intros x c z; cbn [mtch].
  - eauto.
  - destruct x as [[|ch rest] caps]; cbn; [done|]. destruct (inSet cs ch); [|done]. intros Hz. eexists. split; [exact Hz|]. cbn. by apply suffix_cons_r.
  - intros (y & Hy & Hs)%IH1. apply IH2 in Hy as (y' & ? & ?). exists y'. split; [done|]. by etrans.
  - destruct (mtch whole r1 x c) eqn:E; [intros [= <-]|]; eauto.
  - intros (y & Hy & Hs)%IH. eauto.
  - apply repeat_suffix. exact IH.
  - destruct neg, (mtch whole r x Some); intros Hz; try done; eexists; (split; [exact Hz|done]).
  - case_match; [eauto|done].
  - destruct x as [[|] caps]; cbn; [eauto|done].
Qed.

(** The last group takes everything that is left. *)
Lemma lazy_rest n body (s : jsstr) caps c : (forall ch rest cp k, body (ch :: rest, cp) k = k (rest, cp)) -> (length s < n)%nat ->
  (forall r cp, r <> [] -> c (r, cp) = None) -> is_Some (c ([], caps)) -> repeatMatch n body [] false 0 None (s, caps) c = c ([], caps).
Proof.
  intros Hb Hn Hc [z Hz]. revert n Hn. induction s as [|ch s IH]; intros [|n] Hn; cbn [length] in Hn; try lia; cbn; [by rewrite Hz|].
  rewrite Hc by done. rewrite Hb. cbn [fst snd]. replace (len s =? len (ch :: s)) with false; [apply IH; lia|].
  symmetry. apply Z.eqb_neq. rewrite len_cons. lia.
Qed.

Definition sepHead (s : jsstr) : bool := match s with d :: _ => inSet seps d | [] => false end.
Lemma rest_runs whole s caps :
  mtch whole (RSeq (RGroup 3 (RRepeat false 0 None (RSet (mkSet true [])))) REol) (s, caps) Some = Some ([], <[3%nat := s]> caps).
Proof.
  cbn [mtch groups fst snd]. rewrite lazy_rest; cbn [length fst snd]; [by rewrite Nat.sub_0_r, firstn_all|done|lia|by intros [|]|by eexists].
Qed.

#[local] Arguments inSet : simpl never.

Lemma tail_runs whole s caps : exists z, mtch whole afterDeviceRe (s, caps) Some = Some z
  /\ z.2 !! 1%nat = caps !! 1%nat /\ z.2 !! 2%nat = if sepHead s then Some (take 1 s) else caps !! 2%nat.
Proof.
  unfold afterDeviceRe. pose proof (rest_runs whole) as Hr. revert Hr. generalize (RSeq (RGroup 3 (RRepeat false 0 None (RSet (mkSet true [])))) REol). intros rest Hr.
  change (mtch whole (RSeq ?a rest) (s, caps) Some) with (mtch whole a (s, caps) (fun y => mtch whole rest y Some)).
  cbn [mtch groups fst snd Nat.add]. rewrite Nat.add_comm. destruct s as [|d s]; cbn.
  - rewrite Hr. eexists. split; [done|]. cbn. by rewrite !lookup_insert_ne.
  - rewrite !Hr. destruct (inSet seps d); cbn.
    + replace (len s =? len (d :: s)) with false by (symmetry; apply Z.eqb_neq; rewrite len_cons; lia). cbn. eexists. split; [done|]. cbn.
      rewrite !(lookup_insert_ne _ 3%nat) by done. rewrite (lookup_insert_ne _ 2%nat 1%nat), lookup_delete_ne, lookup_insert_eq by done. split; [done|].
      by replace (S (length s) - length s)%nat with 1%nat by lia.
    + eexists. split; [done|]. cbn. by rewrite !lookup_insert_ne.
Qed.

Definition driveHead (s : jsstr) : bool := match s with c :: d :: _ => inSet letters c && (d =? COLON) | _ => false end.

Lemma colon_set d : inSet (mkSet false [(COLON, COLON)]) d = (d =? COLON).
Proof. unfold inSet. cbn. rewrite orb_false_r. destruct (Z.eqb_spec d COLON) as [->|]; [done|]. apply andb_false_iff. rewrite !Z.leb_gt. lia. Qed.

Lemma sep_not d : inSet seps d = true -> inSet letters d = false /\ d <> COLON.
Proof. unfold inSet. cbn. rewrite !orb_false_r, orb_true_iff, !andb_true_iff, !Z.leb_le. intros H. assert (d = 92 \/ d = 47) as [-> | ->] by lia; done. Qed.

(** ** The two kinds of device *)

Lemma device_drive whole c s caps k : inSet letters c = true -> is_Some (k (s, caps)) -> mtch whole deviceRe (c :: COLON :: s, caps) k = k (s, caps).
Proof. intros Hc [z Hz]. unfold deviceRe, driveRe, rchar. cbn [mtch fst snd]. rewrite Hc, colon_set, Z.eqb_refl. by rewrite Hz. Qed.

Lemma device_none whole s caps k : driveHead s = false -> sepHead s = false -> mtch whole deviceRe (s, caps) k = None.
Proof.
  intros Hd Hs. unfold deviceRe, driveRe, rchar. cbn [mtch fst snd]. destruct s as [|c s]; [done|]. cbn in Hs |- *. rewrite Hs.
  destruct (inSet letters c) eqn:Hc; [|done]. destruct s as [|d s]; [done|]. cbn in Hd. rewrite Hc in Hd. cbn in Hd. by rewrite colon_set, Hd.
Qed.

(** A UNC device starts with two separators. *)
Lemma device_unc whole c s caps k z : inSet seps c = true -> mtch whole deviceRe (c :: s, caps) k = Some z ->
  exists d s' y, s = d :: s' /\ inSet seps d = true /\ k y = Some z /\ y.1 `suffix_of` s'.
Proof.
  intros Hc. destruct (sep_not c Hc) as [Hl _]. unfold deviceRe, driveRe, rchar. generalize shareRe. intros share. cbn [mtch fst snd length Nat.add]. rewrite Hl. cbn. rewrite Hc. cbn.
  destruct s as [|d s]; [done|]. cbn. destruct (inSet seps d) eqn:Hd; [|done]. cbn. intros (y & Hy & Hs)%mtch_suffix. eauto 10.
Qed.

(** ** The decision *)

Lemma optional_once whole r x k : mtch whole (RRepeat true 0 (Some 1%nat) r) x k =
  match mtch whole r (x.1, foldr (fun g m => delete g m) x.2 (groups r)) (fun y => if len y.1 =? len x.1 then None else k y) with Some z => Some z | None => k x end.
Proof. cbn [mtch]. rewrite Nat.add_comm. reflexivity. Qed.

Lemma absoluteBy_sep caps d : caps !! 2%nat = Some [d] -> absoluteBy caps = true.
Proof. unfold absoluteBy. by intros ->. Qed.

Lemma absoluteBy_unc caps c d s : inSet seps d = true -> caps !! 1%nat = Some (c :: d :: s) -> absoluteBy caps = true.
Proof.
  intros [_ Hd]%sep_not H. unfold absoluteBy. rewrite H. cbn [default]. change (charAt (c :: d :: s) 1) with [d].
  unfold str_eqb. rewrite (bool_decide_eq_false_2 ([d] = [COLON])) by congruence. by rewrite orb_true_r.
Qed.

Lemma split_runs whole p : len whole = len p -> exists z, matchHere whole splitDeviceRe p = Some z /\ absoluteBy z.2 = sepHead p || (driveHead p && sepHead (drop 2 p)).
Proof.
  intros Hw. unfold matchHere, splitDeviceRe. change (groups (RGroup 1 deviceRe)) with [1%nat].
  change (mtch whole (RSeq RBol ?r) (p, ∅) Some) with (if len p =? len whole then mtch whole r (p, ∅) Some else None). rewrite Hw, Z.eqb_refl.
  change (mtch whole (RSeq ?a afterDeviceRe) (p, ∅) Some) with (mtch whole a (p, ∅) (fun y => mtch whole afterDeviceRe y Some)). rewrite optional_once.
  change (groups (RGroup 1 deviceRe)) with [1%nat]. cbn [foldr fst snd]. rewrite (delete_empty 1%nat).
  change (mtch whole (RGroup 1 deviceRe) (p, ?cp) ?k) with (mtch whole deviceRe (p, cp) (fun y => k (y.1, <[1%nat := take (length p - length y.1) p]> y.2))). cbn [fst snd].
  destruct (sepHead p) eqn:Hs; [|destruct (driveHead p) eqn:Hd].
  - destruct p as [|c p]; [done|]. cbn in Hs. match goal with |- context [match ?m with Some _ => _ | None => _ end] => destruct m as [z|] eqn:E end.
    + apply (device_unc whole c p _ _ _ Hs) in E as (d & p' & [y caps] & -> & Hd & Hk & [pre ->]). exists z. split; [done|].
      cbn [fst snd] in Hk. case_match; [done|]. destruct (tail_runs whole y (<[1%nat := take (length (c :: d :: pre ++ y) - length y) (c :: d :: pre ++ y)]> caps)) as (z' & Hz & H1 & _).
      rewrite Hk in Hz. injection Hz as <-. rewrite lookup_insert_eq in H1. cbn [length] in H1. rewrite length_app in H1.
      replace (S (S (length pre + length y)) - length y)%nat with (S (S (length pre))) in H1 by lia. by apply (absoluteBy_unc _ c d (take (length pre) (pre ++ y))).
    + destruct (tail_runs whole (c :: p) ∅) as (z & -> & _ & H2). exists z. split; [done|]. cbn [sepHead] in H2. rewrite Hs in H2. by apply (absoluteBy_sep _ c).
  - destruct p as [|c [|d p]]; [done..|]. cbn in Hd. apply andb_true_iff in Hd as [Hc ->%Z.eqb_eq]. cbn [drop skipn].
    destruct (tail_runs whole p (<[1%nat := [c; COLON]]> ∅)) as (z & Hz & H1 & H2). rewrite device_drive; [|done|].
    all: cbn [fst snd length]; replace (S (S (length p)) - length p)%nat with 2%nat by lia; cbn [take firstn].
    all: rewrite ?take_0; replace (len p =? len (c :: COLON :: p)) with false by (symmetry; apply Z.eqb_neq; rewrite !len_cons; lia); rewrite Hz.
    2: by eexists.
    exists z. split; [done|]. rewrite lookup_insert_eq in H1. rewrite lookup_insert_ne, lookup_empty in H2 by done. unfold absoluteBy. rewrite H1, H2.
    destruct p as [|e p]; cbn; [done|]. by destruct (inSet seps e).
  - rewrite device_none by done. destruct (tail_runs whole p ∅) as (z & -> & H1 & H2). exists z. split; [done|]. rewrite Hs in H2. unfold absoluteBy. by rewrite H1, H2.
Qed.

(** A Windows path is absolute when it starts with a separator, or with a drive and a
    separator; the pattern always matches, so the test never throws. *)
Lemma win32_is_absolute p : win32 p = Ret (sepHead p || (driveHead p && sepHead (drop 2 p))).
Proof.
  unfold win32, exec. destruct (split_runs p p eq_refl) as ([rest caps] & H & Ha). destruct p as [|c p]; cbn [execFrom]; rewrite H; cbn [snd] in Ha; by rewrite Ha.
Qed.

(** On a POSIX platform the test agrees with [isAbsolute] of module 22, and every path
    that is absolute there is absolute on Windows as well. *)
Lemma posix_win32 p : posix p = true -> win32 p = Ret true.
Proof.
  intros H. rewrite win32_is_absolute. destruct p as [|c p]; [done|]. assert (c = 47) as ->; [|done].
  unfold posix, isAbsolute, str_eqb in H. change (charAt (c :: p) 0) with [c] in H. apply bool_decide_eq_true in H. by injection H.
Qed.
