(* ===== verification/Balanced.v ===== *)
(** Balanced pairs of delimiters (wordcut.js, module 10, balanced-match). *)
From Stdlib Require Import ZArith Lia.
From stdpp Require Import base gmap strings list.
From S2P Require Import Prelude JsString JsRegExp.

Local Open Scope Z_scope.
Open Scope js_scope.

(** The variables of the loop of [range]; [begs] is a stack, top first. *)
Record rangeState := mkRS {
  r_i : Z; r_ai : Z; r_bi : Z;
  r_begs : list Z; r_left : Z; r_right : option Z;
  r_result : option (Z * Z)
}.

(** The body of the [while] loop of [range(a, b, str)]. *)
Definition rangeStep (a b str : jsstr) (s : rangeState) : rangeState :=
  let i := r_i s in
  let s' :=
    if i =? r_ai s then
      mkRS i (indexOf str a (i + 1)) (r_bi s) (i :: r_begs s) (r_left s) (r_right s) None
    else match r_begs s with
         | [beg] => mkRS i (r_ai s) (r_bi s) [] (r_left s) (r_right s) (Some (beg, r_bi s))
         | [] => mkRS i (r_ai s) (indexOf str b (i + 1)) [] (r_left s) (r_right s) None
         | beg :: begs =>
             let '(lf, rt) :=
               if beg <? r_left s then (beg, Some (r_bi s)) else (r_left s, r_right s) in
             mkRS i (r_ai s) (indexOf str b (i + 1)) begs lf rt None
         end in
  mkRS (if (r_ai s' <? r_bi s') && (0 <=? r_ai s') then r_ai s' else r_bi s')
       (r_ai s') (r_bi s') (r_begs s') (r_left s') (r_right s') (r_result s').

Fixpoint rangeLoop (fuel : nat) (a b str : jsstr) (s : rangeState) : outcome rangeState :=
  if (0 <=? r_i s) && bool_decide (r_result s = None) then
    match fuel with
    | O => OutOfFuel
    | S fuel => rangeLoop fuel a b str (rangeStep a b str s)
    end
  else Ret s.

(** [range(a, b, str)]: [None] is [undefined].  The position [i] grows in every
    iteration but the last one, so [str.length + 1] iterations are enough.  A
    pair whose right end was never set ([undefined]) is a [Throw]; it does not
    occur (lemma [range_ok]). *)
Definition range (a b str : jsstr) : outcome (option (Z * Z)) :=
  let ai := indexOf str a 0 in
  let bi := indexOf str b (ai + 1) in
  if (0 <=? ai) && (0 <? bi) then
    s ← rangeLoop (S (length str)) a b str (mkRS ai ai bi [] (len str) None None);
    match r_begs s with
    | [] => Ret (r_result s)
    | _ => rt ← orTypeError (r_right s); Ret (Some (r_left s, rt))
    end
  else Ret None.

(** The object [balanced] returns. *)
Record bmatch := mkMatch {
  m_start : Z; m_end : Z; m_pre : jsstr; m_body : jsstr; m_post : jsstr
}.

(** A delimiter: a string, or a pattern that [maybeMatch] turns into the text it matches first. *)
Inductive delim := DStr (s : jsstr) | DRe (r : re).

(** [maybeMatch(reg, str)], applied when the delimiter is a pattern; [None] is [null]. *)
Definition maybeMatch (d : delim) (str : jsstr) : option jsstr :=
  match d with
  | DStr s => Some s
  | DRe r => match exec r str with Some (_, t, _, _) => Some t | None => None end
  end.

(** [balanced(a, b, str)]: [str.indexOf(null)] searches the text "null". *)
Definition balancedWith (da db : delim) (str : jsstr) : outcome (option bmatch) :=
  let a := maybeMatch da str in
  let b := maybeMatch db str in
  r ← range (default (js "null") a) (default (js "null") b) str;
  match r with
  | None => Ret None
  | Some (s, e) =>
      a ← orTypeError a; b ← orTypeError b;
      Ret (Some (mkMatch s e (slice str 0 s) (slice str (s + len a) e) (sliceFrom str (e + len b))))
  end.

(** [balanced(a, b, str)] with string delimiters. *)
Definition balanced (a b str : jsstr) : outcome (option bmatch) := balancedWith (DStr a) (DStr b) str.

(** * Facts: single-character delimiters *)

(** [depth a b d w]: the nesting depth after [w], starting from [d]; [None]
    when a closing delimiter comes with no open one. *)
Fixpoint depth (a b : Z) (d : nat) (w : jsstr) : option nat :=
  match w with
  | [] => Some d
  | c :: w' =>
      if c =? a then depth a b (S d) w'
      else if c =? b then match d with O => None | S d' => depth a b d' w' end
      else depth a b d w'
  end.

Definition balancedText (a b : Z) (w : jsstr) : Prop := depth a b 0 w = Some 0%nat.

Lemma depth_app a b d w1 w2 :
  depth a b d (w1 ++ w2) = depth a b d w1 ≫= fun d' => depth a b d' w2.
Proof.
  revert d. induction w1 as [|c w1 IH]; intros d; simpl; [done|].
  destruct (c =? a); [apply IH|]. destruct (c =? b); [destruct d; [done|apply IH]|apply IH].
Qed.

Lemma depth_shift a b d k w e : depth a b d w = Some e -> depth a b (d + k) w = Some (e + k)%nat.
Proof.
  revert d. induction w as [|c w IH]; intros d; simpl; [congruence|].
  destruct (c =? a); [apply IH|].
  destruct (c =? b); [destruct d; [done|apply IH]|apply IH].
Qed.

Lemma balanced_app a b w1 w2 : balancedText a b w1 -> balancedText a b w2 -> balancedText a b (w1 ++ w2).
Proof. unfold balancedText. intros H1 H2. rewrite depth_app, H1. done. Qed.

Lemma balanced_wrap a b w : a <> b -> balancedText a b w -> balancedText a b (a :: w ++ [b]).
Proof.
  unfold balancedText. intros Hab Hw. simpl. rewrite Z.eqb_refl, depth_app.
  change 1%nat with (0 + 1)%nat. rewrite (depth_shift a b 0 1 w 0 Hw). simpl.
  destruct (Z.eqb_spec b a); [congruence|]. by rewrite Z.eqb_refl.
Qed.

Lemma balanced_plain a b w : Forall (fun c => c <> a /\ c <> b) w -> balancedText a b w.
Proof.
  unfold balancedText. generalize 0%nat as d. induction w as [|c w IH]; intros d Hw; simpl; [done|].
  inversion Hw as [|? ? [Ha Hb] Hw']; subst.
  rewrite (proj2 (Z.eqb_neq c a) Ha), (proj2 (Z.eqb_neq c b) Hb). by apply IH.
Qed.

(** [indexOf] of one character. *)
Lemma find_at_spec c s i :
  (find_at [c] s i = -1 /\ Forall (fun d => d <> c) s) \/
  (exists k, find_at [c] s i = i + k /\ s !!z k = Some c /\ forall j d, s !!z j = Some d -> j < k -> d <> c).
Proof.
  revert i. induction s as [|d s IH]; intros i; simpl; [left; auto|].
  rewrite andb_true_r. destruct (Z.eqb_spec c d) as [->|Hne].
  - right. exists 0. split_and!; [lia|done|]. intros j e Hj Hlt. apply idx_Some_range in Hj. lia.
  - destruct (IH (i + 1)) as [[-> Hall]|(k & -> & Hk & Hmin)].
    + left. split; [done|]. constructor; [congruence|done].
    + right. exists (k + 1). pose proof (idx_Some_range _ _ _ Hk). split_and!; [lia|..].
      * change (d :: s) with ([d] ++ s). rewrite idx_app_r by (change (len [d]) with 1; lia).
        change (len [d]) with 1. by replace (k + 1 - 1) with k by lia.
      * intros j e Hj Hlt. destruct (decide (j = 0)) as [->|].
        { injection Hj as <-. congruence. }
        pose proof (idx_Some_range _ _ _ Hj). change (d :: s) with ([d] ++ s) in Hj.
        rewrite idx_app_r in Hj by (change (len [d]) with 1; lia). change (len [d]) with 1 in Hj.
        apply (Hmin (j - 1) e Hj). lia.
Qed.

(** [firstAt str c p k]: [k] is the first position of [c] at or after [p], or -1. *)
Definition firstAt (str : jsstr) (c p k : Z) : Prop :=
  (k = -1 /\ forall j d, p <= j -> str !!z j = Some d -> d <> c) \/
  (p <= k /\ str !!z k = Some c /\ forall j d, p <= j < k -> str !!z j = Some d -> d <> c).


Lemma indexOf_firstAt str c p : 0 <= p -> firstAt str c p (indexOf str [c] p).
Proof.
  intros Hp. unfold indexOf. pose proof (len_nonneg str).
  set (f := Z.min (Z.max p 0) (len str)). assert (Hf : f = Z.min p (len str)) by (unfold f; lia). clearbody f.
  destruct (find_at_spec c (drop (Z.to_nat f) str) f) as [[-> Hall]|(k & -> & Hk & Hmin)].
  - left. split; [done|]. intros j d Hj Hd. pose proof (idx_Some_range _ _ _ Hd).
    rewrite Forall_forall in Hall. apply Hall, idx_of_elem. exists (j - f).
    rewrite idx_drop by lia. by replace (f + (j - f)) with j by lia.
  - pose proof (idx_Some_range _ _ _ Hk). rewrite idx_drop in Hk by lia.
    pose proof (idx_Some_range _ _ _ Hk). right.
    assert (p = f \/ len str <= p) as [Hpf|Hpf] by lia; [|lia].
    split_and!; [lia|done|]. intros j d Hj Hd. apply (Hmin (j - f)); [|lia].
    rewrite idx_drop by lia. by replace (f + (j - f)) with j by lia.
Qed.

Section RangeFacts.
Context (a b : Z) (Hab : a <> b) (str : jsstr).

(** [pairOk l r]: an opening delimiter at [l] and a closing one at [r] with balanced text between. *)
Definition pairOk (l r : Z) : Prop :=
  0 <= l < r /\ str !!z l = Some a /\ str !!z r = Some b /\ balancedText a b (substring str (l + 1) r).

(** The open delimiters, innermost first, with balanced text after each. *)
Fixpoint stackOk (begs : list Z) (p : Z) : Prop :=
  match begs with
  | [] => True
  | t :: begs' => 0 <= t < p /\ str !!z t = Some a /\ balancedText a b (substring str (t + 1) p) /\ stackOk begs' t
  end.

(** Invariant of the loop at scan position [p]; [f0] is the first opening delimiter. *)
Record rangeInv (f0 p : Z) (s : rangeState) : Prop := {
  ri_p : 0 <= f0 <= p /\ p <= len str;
  ri_ai : firstAt str a p (r_ai s);
  ri_bi : firstAt str b p (r_bi s);
  ri_i : r_i s = if (r_ai s <? r_bi s) && (0 <=? r_ai s) then r_ai s else r_bi s;
  ri_stack : stackOk (r_begs s) p;
  ri_ge : Forall (fun t => f0 <= t) (r_begs s);
  ri_bottom : (r_begs s = [] /\ p = f0 /\ r_ai s = f0 /\ r_i s = f0) \/ last (r_begs s) = Some f0;
  ri_left : (r_right s = None /\ r_left s = len str) \/
            (exists r, r_right s = Some r /\ f0 <= r_left s /\ pairOk (r_left s) r);
  ri_nob : forall j, f0 <= j < p -> str !!z j = Some b -> r_left s < j
}.

Lemma substring_balanced_grow t p i :
  0 <= t -> t + 1 <= p <= i -> i <= len str -> balancedText a b (substring str (t + 1) p) ->
  (forall j d, p <= j < i -> str !!z j = Some d -> d <> a /\ d <> b) ->
  balancedText a b (substring str (t + 1) i).
Proof.
  intros Ht Hp Hi Hbal Hno. rewrite <- (substring_app str (t + 1) p i) by lia.
  apply balanced_app; [done|]. apply balanced_plain, Forall_forall.
  intros d [k Hk]%idx_of_elem. pose proof (idx_Some_range _ _ _ Hk) as Hr.
  rewrite substring_split in Hk, Hr by lia. unfold len in Hr. rewrite length_take, length_drop in Hr.
  apply (Hno (p + k) d); [unfold len in *; lia|].
  rewrite <- idx_drop by lia. unfold idx in *. destruct (k <? 0); [done|].
  rewrite lookup_take_lt in Hk by lia. done.
Qed.

Lemma substring_cons p q c :
  0 <= p < q -> q <= len str -> str !!z p = Some c -> substring str p q = c :: substring str (p + 1) q.
Proof.
  intros Hp Hq Hc. rewrite <- (substring_app str p (p + 1) q) by lia.
  rewrite (substring_split str p (p + 1)) by lia. replace (p + 1 - p) with 1 by lia.
  unfold idx in Hc. destruct (Z.ltb_spec p 0); [lia|]. by rewrite (drop_S _ _ _ Hc).
Qed.

(** Closing the innermost delimiter at [i] extends the text after the next one. *)
Lemma stackOk_pop t begs i :
  stackOk (t :: begs) i -> i < len str -> str !!z i = Some b -> stackOk begs (i + 1).
Proof.
  intros (Ht & Ha & Hbal & Hrest) Hi Hb. destruct begs as [|u begs]; [done|].
  destruct Hrest as (Hu & Hua & Hubal & Hrest). split_and!; [lia..|done| |done].
  rewrite <- (substring_app str (u + 1) t (i + 1)) by lia. apply balanced_app; [done|].
  rewrite (substring_cons t (i + 1) a) by (done || lia).
  rewrite <- (substring_app str (t + 1) i (i + 1)) by lia.
  rewrite (substring_cons i (i + 1) b) by (done || lia).
  rewrite (substring_split str (i + 1) (i + 1)) by lia. rewrite Z.sub_diag. by apply balanced_wrap.
Qed.

(** Between the scan position and [i] there is no delimiter. *)
Lemma scan_gap f0 p s j d :
  rangeInv f0 p s -> 0 <= r_i s -> p <= j < r_i s -> str !!z j = Some d -> d <> a /\ d <> b.
Proof.
  intros [Hp Hai Hbi Hi _ _ _ _ _] Hi0 Hj Hd. rewrite Hi in *.
  unfold firstAt in *. destruct ((r_ai s <? r_bi s) && (0 <=? r_ai s)) eqn:E.
  - boolprop. destruct Hai as [[? ?]|(? & ? & Ha)]; [lia|]. split; [by apply (Ha j d); [lia|]|].
    destruct Hbi as [[? Hb]|(? & ? & Hb)]; [by apply (Hb j d); [lia|]|by apply (Hb j d); [lia|]].
  - apply andb_false_iff in E. destruct Hbi as [[? ?]|(? & ? & Hb)]; [lia|].
    split; [|by apply (Hb j d); [lia|]].
    destruct Hai as [[? Ha]|(? & ? & Ha)]; [by apply (Ha j d); [lia|]|].
    apply (Ha j d); [|done]. destruct E as [E|E]; boolprop; lia.
Qed.

Lemma firstAt_skip c p q k :
  0 <= p -> firstAt str c p k -> p <= q -> (k = -1 \/ q <= k) -> firstAt str c q k.
Proof.
  intros Hp [[-> H]|(H1 & H2 & H3)] Hq Hk; [left; split; [done|] | right; split_and!; [lia|done|]];
    intros j d Hj; [apply H | apply H3]; lia.
Qed.

Lemma firstAt_range c p k : firstAt str c p k -> k = -1 \/ p <= k < len str.
Proof. intros [[-> _]|(? & Hk & _)]; [by left|right]. apply idx_Some_range in Hk. lia. Qed.

(** Opening delimiter. *)
Lemma rangeStep_open f0 p s :
  rangeInv f0 p s -> 0 <= r_i s -> r_i s = r_ai s -> p <= r_i s ->
  rangeInv f0 (r_i s + 1) (rangeStep [a] [b] str s) /\ r_result (rangeStep [a] [b] str s) = None.
Proof.
  intros Hinv Hi0 Hia Hpi. pose proof Hinv as [Hp Hai Hbi Hi Hstack Hge Hbot Hleft Hnob].
  pose proof (firstAt_range _ _ _ Hai) as Hr.
  assert (Ha : str !!z r_i s = Some a) by (destruct Hai as [[? _]|(_ & Ha & _)]; [lia|by rewrite Hia]).
  assert (Hbi' : firstAt str b (r_i s + 1) (r_bi s)).
  { apply (firstAt_skip b p); [lia|done|lia|]. destruct (firstAt_range _ _ _ Hbi) as [|Hb]; [by left|right].
    assert (str !!z r_bi s = Some b) as Hbb by (destruct Hbi as [[? _]|(_ & ? & _)]; [lia|done]).
    assert (r_ai s <> r_bi s) by congruence.
    destruct (Z.ltb_spec (r_ai s) (r_bi s)), (Z.leb_spec 0 (r_ai s)); cbn in Hi; lia. }
  unfold rangeStep. rewrite (proj2 (Z.eqb_eq _ _) Hia). cbn [r_i r_ai r_bi r_begs r_left r_right r_result].
  split; [|done]. constructor; cbn [r_i r_ai r_bi r_begs r_left r_right r_result]; try done.
  - lia.
  - apply indexOf_firstAt. lia.
  - split_and!; [lia..|done| |].
    + rewrite substring_split by lia. replace (r_i s + 1 - (r_i s + 1)) with 0 by lia. done.
    + destruct (r_begs s) as [|t begs]; [done|]. destruct Hstack as (Ht & Hta & Htb & Hrest).
      split_and!; [lia..|done| |done]. apply (substring_balanced_grow t p); [lia..|done|].
      intros j d Hj Hd. by apply (scan_gap f0 p s j d).
  - constructor; [lia|done].
  - right. destruct Hbot as [(-> & _ & _ & Hf)|Hl]; [simpl; by rewrite Hf|].
    destruct (r_begs s); [done|]. exact Hl.
  - intros j Hj Hjb. destruct (decide (j < p)); [apply Hnob; [lia|done]|].
    destruct (decide (j = r_i s)) as [->|]; [congruence|].
    by destruct (scan_gap f0 p s j b Hinv Hi0 ltac:(lia) Hjb).
Qed.

(** Closing delimiter with an outer one still open. *)
Lemma rangeStep_close f0 p s t u begs :
  rangeInv f0 p s -> 0 <= r_i s -> r_i s <> r_ai s -> p <= r_i s -> r_begs s = t :: u :: begs ->
  rangeInv f0 (r_i s + 1) (rangeStep [a] [b] str s) /\ r_result (rangeStep [a] [b] str s) = None.
Proof.
  intros Hinv Hi0 Hia Hpi Hb. pose proof Hinv as [Hp Hai Hbi Hi Hstack Hge Hbot Hleft Hnob].
  assert (Hib : r_i s = r_bi s).
  { rewrite Hi in *. destruct ((r_ai s <? r_bi s) && (0 <=? r_ai s)); [done|done]. }
  pose proof (firstAt_range _ _ _ Hbi) as Hr.
  assert (Hbb : str !!z r_i s = Some b) by (destruct Hbi as [[? _]|(_ & Hx & _)]; [lia|by rewrite Hib]).
  rewrite Hb in Hstack, Hge. destruct Hstack as (Ht & Hta & Htb & Hrest).
  assert (Htb' : balancedText a b (substring str (t + 1) (r_i s))).
  { apply (substring_balanced_grow t p); [lia..|done|]. intros j d Hj Hd. by apply (scan_gap f0 p s j d). }
  assert (Hpop : stackOk (u :: begs) (r_i s + 1)).
  { apply (stackOk_pop t (u :: begs)); [|lia|done]. split_and!; [lia..|done|done|done]. }
  inversion Hge as [|? ? Htf Hge']; subst.
  assert (Hai' : firstAt str a (r_i s + 1) (r_ai s)).
  { apply (firstAt_skip a p); [lia|done|lia|]. destruct (firstAt_range _ _ _ Hai) as [|Ha]; [by left|right].
    rewrite Hi in *. destruct ((r_ai s <? r_bi s) && (0 <=? r_ai s)) eqn:E; boolprop; [done|].
    destruct E; boolprop; lia. }
  unfold rangeStep. rewrite (proj2 (Z.eqb_neq _ _) Hia), Hb.
  destruct (t <? r_left s) eqn:El; cbn [r_i r_ai r_bi r_begs r_left r_right r_result]; split; try done;
    constructor; cbn [r_i r_ai r_bi r_begs r_left r_right r_result]; try done; boolprop; try lia.
  all: try (apply indexOf_firstAt; lia).
  all: try (right; destruct Hbot as [(Hx & _)|Hl]; [congruence|]; rewrite Hb in Hl; exact Hl).
  - right. exists (r_bi s). split; [done|]. split; [lia|]. unfold pairOk. rewrite <- Hib. split_and!; done || lia.
  - intros j Hj Hjb. destruct (decide (j < p)); [pose proof (Hnob j ltac:(lia) Hjb); lia|lia].
  - intros j Hj Hjb. destruct (decide (j < p)); [apply Hnob; [lia|done]|].
    destruct (decide (j = r_i s)) as [->|]; [lia|].
    by destruct (scan_gap f0 p s j b Hinv Hi0 ltac:(lia) Hjb).
Qed.

(** Closing delimiter of the outermost open one: the result. *)
Lemma rangeStep_last f0 p s t :
  rangeInv f0 p s -> 0 <= r_i s -> r_i s <> r_ai s -> p <= r_i s -> r_begs s = [t] ->
  r_result (rangeStep [a] [b] str s) = Some (f0, r_bi s) /\ r_begs (rangeStep [a] [b] str s) = [] /\
  pairOk f0 (r_bi s).
Proof.
  intros Hinv Hi0 Hia Hpi Hb. pose proof Hinv as [Hp Hai Hbi Hi Hstack Hge Hbot Hleft Hnob].
  assert (t = f0) as ->.
  { destruct Hbot as [(Hx & _)|Hl]; [congruence|]. rewrite Hb in Hl. by injection Hl. }
  assert (Hib : r_i s = r_bi s).
  { rewrite Hi in *. destruct ((r_ai s <? r_bi s) && (0 <=? r_ai s)); [done|done]. }
  rewrite Hb in Hstack. destruct Hstack as (Ht & Hta & Htb & _).
  unfold rangeStep. rewrite (proj2 (Z.eqb_neq _ _) Hia), Hb. cbn. split; [done|]. split; [done|].
  pose proof (firstAt_range _ _ _ Hbi). split; [lia|]. split; [done|]. split.
  - destruct Hbi as [[? _]|(_ & Hx & _)]; [lia|done].
  - rewrite <- Hib. apply (substring_balanced_grow f0 p); [lia..|done|].
    intros j d Hj Hd. by apply (scan_gap f0 p s j d).
Qed.

(** What the loop ends with. *)
Definition rangeEnd (f0 : Z) (s : rangeState) : Prop :=
  (r_begs s = [] /\ exists e, r_result s = Some (f0, e) /\ pairOk f0 e) \/
  (r_begs s <> [] /\ r_i s < 0 /\ exists p, rangeInv f0 p s).

Lemma rangeLoop_ok fuel f0 p s :
  rangeInv f0 p s -> r_result s = None -> (0 <= r_i s -> p <= r_i s) -> (r_begs s = [] -> 0 <= r_i s) ->
  len str - p + 1 <= Z.of_nat fuel ->
  returns (rangeLoop fuel [a] [b] str s) (rangeEnd f0).
Proof.
  revert p s. induction fuel as [|fuel IH]; intros p s Hinv Hres Hpi Hne Hf.
  { destruct (ri_p _ _ _ Hinv). lia. }
  cbn [rangeLoop]. rewrite Hres. rewrite (bool_decide_eq_true_2 (None = None)) by done.
  destruct (Z.leb_spec 0 (r_i s)) as [Hi0|Hneg]; cbn [andb].
  2:{ apply returns_ret. right. split_and!; [|lia|eauto]. intros E. specialize (Hne E). lia. }
  specialize (Hpi Hi0).
  assert (Hnext : forall s', rangeInv f0 (r_i s + 1) s' -> r_result s' = None -> r_begs s' <> [] ->
    returns (rangeLoop fuel [a] [b] str s') (rangeEnd f0)).
  { intros s' Hinv' Hres' Hb'. apply (IH (r_i s + 1)); [done..| |done|lia].
    rewrite (ri_i _ _ _ Hinv'). intros Hpos. pose proof (firstAt_range _ _ _ (ri_ai _ _ _ Hinv')).
    pose proof (firstAt_range _ _ _ (ri_bi _ _ _ Hinv')).
    destruct ((r_ai s' <? r_bi s') && (0 <=? r_ai s')) eqn:E; boolprop; lia. }
  destruct (decide (r_i s = r_ai s)) as [Hia|Hia].
  - destruct (rangeStep_open f0 p s) as [Hinv' Hres']; [done..|]. apply Hnext; try done.
    unfold rangeStep. rewrite (proj2 (Z.eqb_eq _ _) Hia). done.
  - destruct (r_begs s) as [|t [|u begs]] eqn:Eb.
    + destruct (ri_bottom _ _ _ Hinv) as [(_ & _ & ? & ?)|Hl]; [congruence|]. by rewrite Eb in Hl.
    + destruct (rangeStep_last f0 p s t) as (Hr & Hb' & Hpair); [done..|].
      destruct fuel; cbn [rangeLoop]; rewrite Hr, andb_false_r; apply returns_ret; left; eauto.
    + destruct (rangeStep_close f0 p s t u begs) as [Hinv' Hres']; [done..|]. apply Hnext; try done.
      unfold rangeStep. rewrite (proj2 (Z.eqb_neq _ _) Hia), Eb. destruct (t <? r_left s); done.
Qed.

(** The result of [range] when there is an opening delimiter at [f0] first. *)
Lemma range_ok :
  (range [a] [b] str = Ret None /\ forall j k, j < k -> str !!z j = Some a -> str !!z k <> Some b) \/
  (exists f0 s e, range [a] [b] str = Ret (Some (s, e)) /\ pairOk s e /\ f0 <= s /\
     (forall j, j < f0 -> str !!z j <> Some a) /\ (forall j, f0 <= j < s -> str !!z j <> Some b)).
Proof.
  unfold range. pose proof (indexOf_firstAt str a 0 ltac:(lia)) as Ha.
  set (f0 := indexOf str [a] 0) in *. destruct (firstAt_range _ _ _ Ha) as [Hf0|Hf0].
  { left. rewrite Hf0. split; [done|]. intros j k _ Hj. pose proof (idx_Some_range _ _ _ Hj).
    destruct Ha as [[_ Hno]|(? & _)]; [|lia]. by destruct (Hno j a ltac:(lia) Hj). }
  assert (Hfa : str !!z f0 = Some a) by (destruct Ha as [[? _]|(_ & ? & _)]; [lia|done]).
  assert (Hmin : forall j, j < f0 -> str !!z j <> Some a).
  { intros j Hj Hja. pose proof (idx_Some_range _ _ _ Hja). destruct Ha as [[? _]|(_ & _ & Hno)]; [lia|].
    by destruct (Hno j a ltac:(lia) Hja). }
  pose proof (indexOf_firstAt str b (f0 + 1) ltac:(lia)) as Hb. set (b0 := indexOf str [b] (f0 + 1)) in *.
  destruct (firstAt_range _ _ _ Hb) as [Hb0|Hb0].
  { left. rewrite Hb0. rewrite andb_false_r. split; [done|]. intros j k Hjk Hj Hk.
    assert (f0 <= j) by (destruct (Z.lt_ge_cases j f0); [by destruct (Hmin j)|lia]).
    destruct Hb as [[_ Hno]|(? & _)]; [|lia]. by destruct (Hno k b ltac:(lia) Hk). }
  right. destruct (Z.leb_spec 0 f0); [|lia]. destruct (Z.ltb_spec 0 b0); [|lia]. cbn [andb].
  destruct (rangeLoop_ok (S (length str)) f0 f0 (mkRS f0 f0 b0 [] (len str) None None)) as (s & -> & Hs); cbn.
  - constructor; cbn; try done; try lia.
    + right. split_and!; [lia|done|lia].
    + destruct Hb as [[? _]|(? & Hbb & Hno)]; [lia|]. right. split_and!; [lia|done|].
      intros j d Hj Hd. destruct (decide (j = f0)) as [->|]; [congruence|]. by apply (Hno j d); [lia|].
    + destruct (Z.ltb_spec f0 b0), (Z.leb_spec 0 f0); cbn; lia.
    + left. split_and!; done.
    + left. split; done.
  - done.
  - lia.
  - lia.
  - unfold len. lia.
  - destruct Hs as [(Hbegs & e & Hres & Hpair)|(Hbegs & Hi & p & Hinv)].
    + rewrite Hbegs, Hres. exists f0, f0, e. split; [done|]. split; [done|]. split_and!; [lia|done|lia].
    + destruct Hinv as [Hp _ Hbi Hi' _ _ _ Hleft Hnob].
      assert (r_bi s < 0) as Hneg by (rewrite Hi' in Hi; destruct ((r_ai s <? r_bi s) && (0 <=? r_ai s)) eqn:E; boolprop; lia).
      assert (Hb0b : str !!z b0 = Some b) by (destruct Hb as [[? _]|(_ & ? & _)]; [lia|done]).
      assert (b0 < p) as Hlt.
      { destruct (Z.lt_ge_cases b0 p); [done|]. destruct Hbi as [[_ Hno]|(? & _)]; [|lia].
        by destruct (Hno b0 b ltac:(lia) Hb0b). }
      pose proof (Hnob b0 ltac:(lia) Hb0b) as Hl. destruct Hleft as [[_ El]|(r & Hr & Hge & Hpair)]; [lia|].
      destruct (r_begs s) eqn:Eb; [done|]. rewrite Hr. exists f0, (r_left s), r.
      split; [done|]. split; [done|]. split; [lia|]. split; [done|]. intros j Hj Hjb. pose proof (idx_Some_range _ _ _ Hjb).
      assert (j < p).
      { destruct (Z.lt_ge_cases j p); [done|]. destruct Hbi as [[_ Hno]|(? & _)]; [|lia].
        by destruct (Hno j b ltac:(lia) Hjb). }
      pose proof (Hnob j ltac:(lia) Hjb). lia.
Qed.

End RangeFacts.

(** * Properties *)

Lemma slice_substring (s : jsstr) i j : 0 <= i <= j -> j <= len s -> slice s i j = substring s i j.
Proof.
  intros Hi Hj. rewrite substring_split by lia. unfold slice. cbv zeta.
  destruct (Z.ltb_spec i 0), (Z.ltb_spec j 0); try lia. repeat f_equal; lia.
Qed.

(** What [balanced] promises about its result. *)
Definition balancedPost (a b : Z) (str : jsstr) (o : option bmatch) : Prop :=
  match o with
  | None => forall j k, j < k -> str !!z j = Some a -> str !!z k <> Some b
  | Some m =>
      str = m_pre m ++ a :: m_body m ++ b :: m_post m /\
      len (m_pre m) = m_start m /\ len (m_pre m ++ a :: m_body m) = m_end m /\
      balancedText a b (m_body m) /\
      (forall j k, j < k -> m_pre m !!z j = Some a -> m_pre m !!z k <> Some b)
  end.

Lemma balanced_ok a b str : a <> b -> returns (balanced [a] [b] str) (balancedPost a b str).
Proof.
  intros Hab. unfold balanced, balancedWith. cbn [maybeMatch from_option id].
  destruct (range_ok a b Hab str) as [[-> Hno]|(f0 & s & e & -> & Hpair & Hf & Hmin & Hnob)].
  { apply returns_ret. exact Hno. }
  destruct Hpair as (Hse & Ha & Hb & Hbal). pose proof (idx_Some_range _ _ _ Hb).
  rewrite bind_Ret. cbn [orTypeError]. rewrite !bind_Ret. apply returns_ret.
  unfold balancedPost. cbn [m_start m_end m_pre m_body m_post]. change (len [a]) with 1. change (len [b]) with 1.
  unfold sliceFrom. rewrite !slice_substring by lia.
  assert (Hlen : forall i j, 0 <= i <= j -> j <= len str -> len (substring str i j) = j - i).
  { intros i j Hi Hj. rewrite substring_split by lia. unfold len in *. rewrite length_take, length_drop. lia. }
  split_and!.
  - rewrite <- (substring_full str) at 1. rewrite <- (substring_app str 0 s (len str)) by lia. f_equal.
    rewrite (substring_cons str s (len str) a) by (done || lia). f_equal.
    rewrite <- (substring_app str (s + 1) e (len str)) by lia. f_equal.
    by rewrite (substring_cons str e (len str) b) by (done || lia).
  - rewrite Hlen by lia. lia.
  - rewrite len_app, len_cons, !Hlen by lia. lia.
  - done.
  - assert (Hpre : forall j c, substring str 0 s !!z j = Some c -> str !!z j = Some c /\ j < s).
    { intros j c Hj. pose proof (idx_Some_range _ _ _ Hj) as Hr. rewrite Hlen in Hr by lia.
      rewrite substring_split in Hj by lia. unfold idx in *. destruct (j <? 0); [done|].
      rewrite lookup_take_lt in Hj by lia. rewrite drop_0 in Hj. split; [done|lia]. }
    intros j k Hjk [Hj _]%Hpre [Hk Hks]%Hpre. destruct (Z.lt_ge_cases j f0); [by destruct (Hmin j)|].
    by destruct (Hnob k ltac:(lia)).
Qed.

(** C17. [balanced(a, b, str)] with two different one-character delimiters
    terminates and is sound and complete: it finds nothing exactly when no
    opening delimiter is followed by a closing one; otherwise [pre], the opening
    delimiter, [body], the closing delimiter and [post] spell [str], the
    positions are right, the body is balanced, and [pre] contains no pair. *)
Theorem balanced_correct (a b : Z) (str : jsstr) :
  a <> b -> returns (balanced [a] [b] str) (balancedPost a b str).
Proof. apply balanced_ok. Qed.

Lemma balanced_correct_witness :
  returns (balanced (js "{") (js "}") (js "x{a{b}c}y}")) (fun o => exists m, o = Some m /\ m_body m = js "a{b}c").
Proof.
  destruct (balanced_correct 123 125 (js "x{a{b}c}y}") ltac:(lia)) as (o & Ho & _).
  exists o. split; [exact Ho|]. vm_compute in Ho. injection Ho as <-. eauto.
Defined.
