(* ===== verification/BraceExpansion.v ===== *)
(** Brace expansion (wordcut.js, module 11, brace-expansion, with module 13,
    concat-map): [a{b,c}d] and [{1..5}] in glob patterns.

    The five escape markers contain a random number each
    ('\0SLASH' + Math.random() + '\0' and so on); the digits of these numbers
    are the arguments of the section below.  Sequence bounds are JavaScript
    numbers; the model computes with integers, which agrees as long as they
    are below 2^53. *)
From Stdlib Require Import ZArith Lia.
From stdpp Require Import base gmap strings list pretty.
From S2P Require Import Prelude JsString JsRegExp Balanced.

Local Open Scope Z_scope.
Open Scope js_scope.

Abbreviation OPEN := 123.
Abbreviation CLOSE := 125.
Abbreviation COMMA := 44.
Abbreviation BACKSLASH := 92.

(** [concatMap(xs, fn)] for a function that returns arrays. *)
Fixpoint concatMap {A B} (xs : list A) (fn : A -> outcome (list B)) : outcome (list B) :=
  match xs with
  | [] => Ret []
  | x :: xs' => y ← fn x; ys ← concatMap xs' fn; Ret (y ++ ys)
  end.

(** [String(i)]. *)
Definition numToStr (i : Z) : jsstr := js (pretty i).

(** Value of a string of decimal digits. *)
Definition digitsVal (s : jsstr) : Z := fold_left (fun v c => 10 * v + (c - 48)) s 0.

(** [-?\d+]. *)
Definition isInt (s : jsstr) : bool :=
  match s with
  | 45 :: s' => negb (bool_decide (s' = [])) && forallb isDigit s'
  | _ => negb (bool_decide (s = [])) && forallb isDigit s
  end.

Definition isLetter (s : jsstr) : bool :=
  match s with [c] => isAlpha c | _ => false end.

(** [numeric(str)]: the value of an integer literal, the code of the first
    character otherwise (the callers pass integers and letters only). *)
Definition numeric (str : jsstr) : Z :=
  if isInt str then
    match str with
    | 45 :: s' => - digitsVal s'
    | _ => digitsVal str
    end
  else default 0 (head str).

(** [body.split(/\.\./)]. *)
Definition dotsParts (body : jsstr) : list jsstr := splitStr (js "..") 0 body.

(** [isNumericSequence]: two or three integers separated by two dots each. *)
Definition isNumericSequence (body : jsstr) : bool :=
  match dotsParts body with
  | [x; y] => isInt x && isInt y
  | [x; y; z] => isInt x && isInt y && isInt z
  | _ => false
  end.

(** [isAlphaSequence]: two letters and an optional integer step. *)
Definition isAlphaSequence (body : jsstr) : bool :=
  match dotsParts body with
  | [x; y] => isLetter x && isLetter y
  | [x; y; z] => isLetter x && isLetter y && isInt z
  | _ => false
  end.

(** [isPadded(el)]: an optional minus, a zero and another digit. *)
Definition isPadded (el : jsstr) : bool :=
  match el with
  | 45 :: 48 :: c :: _ => isDigit c
  | 48 :: c :: _ => isDigit c
  | _ => false
  end.

(** [lte] and [gte]. *)
Definition lte (i y : Z) : bool := i <=? y.
Definition gte (i y : Z) : bool := y <=? i.

(** [for (var i = x; test(i, y); i += incr)]: the values of [i]. *)
Fixpoint seqLoop (fuel : nat) (test : Z -> Z -> bool) (i y incr : Z) : outcome (list Z) :=
  if test i y then
    match fuel with
    | O => OutOfFuel
    | S fuel => l ← seqLoop fuel test (i + incr) y incr; Ret (i :: l)
    end
  else Ret [].

(** The text of one element of a sequence. *)
Definition seqItem (isAlpha pad : bool) (width i : Z) : jsstr :=
  if isAlpha then
    let c := [i mod 65536] in
    if str_eqb c [BACKSLASH] then [] else c
  else
    let c := numToStr i in
    if pad then
      let need := width - len c in
      if 0 <? need then
        let z := replicate (Z.to_nat need) 48 in
        if i <? 0 then [45] ++ z ++ sliceFrom c 1 else z ++ c
      else c
    else c.

(** The sequence branch of [expand]: [n] are the parts of the body, [fuel] bounds the
    turns of the loop. *)
Definition sequenceWithin (fuel : nat) (isAlpha : bool) (n : list jsstr) : outcome (list jsstr) :=
  match n with
  | n0 :: n1 :: rest =>
      let x := numeric n0 in
      let y := numeric n1 in
      let width := Z.max (len n0) (len n1) in
      let incr := match rest with [n2] => Z.abs (numeric n2) | _ => 1 end in
      let reverse := y <? x in
      let incr := if reverse then incr * -1 else incr in
      let test := if reverse then gte else lte in
      let pad := existsb isPadded n in
      vals ← seqLoop fuel test x y incr;
      Ret (map (seqItem isAlpha pad width) vals)
  | _ => Throw "TypeError"
  end.

(** When the step is not zero the loop visits at most [|y - x| + 1] values; when it is
    zero no number of turns is enough ([zero_step] below). *)
Definition expandSequence (isAlpha : bool) (n : list jsstr) : outcome (list jsstr) :=
  sequenceWithin (match n with n0 :: n1 :: _ => Z.to_nat (Z.abs (numeric n1 - numeric n0) + 1) | _ => O end) isAlpha n.

(** [p[p.length-1] += s]. *)
Fixpoint appendLast (p : list jsstr) (s : jsstr) : list jsstr :=
  match p with
  | [] => []
  | [w] => [w ++ s]
  | w :: p' => w :: appendLast p' s
  end.

(** [parseCommaParts(str)]: recursion on the text after the first brace set. *)
Fixpoint parseCommaParts (fuel : nat) (str : jsstr) : outcome (list jsstr) :=
  match fuel with
  | O => OutOfFuel
  | S fuel =>
      if bool_decide (str = []) then Ret [[]]
      else
        m ← balanced [OPEN] [CLOSE] str;
        match m with
        | None => Ret (split1 COMMA str)
        | Some m =>
            let p := split1 COMMA (m_pre m) in
            let p := appendLast p ([OPEN] ++ m_body m ++ [CLOSE]) in
            postParts ← parseCommaParts fuel (m_post m);
            if bool_decide (m_post m = []) then Ret p
            else match postParts with
                 | [] => Ret p
                 | h :: t => Ret (appendLast p h ++ t)
                 end
        end
  end.

Definition embrace (str : jsstr) : jsstr := [OPEN] ++ str ++ [CLOSE].

(** [/,.*\}/] : a comma and, later on the same line, a closing brace. *)
Definition isLineTerminator (c : Z) : bool :=
  (c =? 10) || (c =? 13) || (c =? 8232) || (c =? 8233).

Fixpoint closeOnLine (s : jsstr) : bool :=
  match s with
  | [] => false
  | c :: s' => (c =? CLOSE) || (negb (isLineTerminator c) && closeOnLine s')
  end.

Fixpoint commaThenClose (s : jsstr) : bool :=
  match s with
  | [] => false
  | c :: s' => ((c =? COMMA) && closeOnLine s') || commaThenClose s'
  end.

Section Expand.
(** The random digits in the markers. *)
Context (rSlash rOpen rClose rComma rPeriod : jsstr).

Definition marker (name : string) (r : jsstr) : jsstr := [0] ++ js name ++ r ++ [0].
Definition escSlash := marker "SLASH" rSlash.
Definition escOpen := marker "OPEN" rOpen.
Definition escClose := marker "CLOSE" rClose.
Definition escComma := marker "COMMA" rComma.
Definition escPeriod := marker "PERIOD" rPeriod.

(** [s.split(x).join(y)]. *)
Definition replaceStr (x y s : jsstr) : jsstr := join y (splitStr x 0 s).

(** [escapeBraces(str)]. *)
Definition escapeBraces (str : jsstr) : jsstr :=
  replaceStr [BACKSLASH; 46] escPeriod
  (replaceStr [BACKSLASH; COMMA] escComma
  (replaceStr [BACKSLASH; CLOSE] escClose
  (replaceStr [BACKSLASH; OPEN] escOpen
  (replaceStr [BACKSLASH; BACKSLASH] escSlash str)))).

(** [unescapeBraces(str)]. *)
Definition unescapeBraces (str : jsstr) : jsstr :=
  replaceStr escPeriod [46]
  (replaceStr escComma [COMMA]
  (replaceStr escClose [CLOSE]
  (replaceStr escOpen [OPEN]
  (replaceStr escSlash [BACKSLASH] str)))).

(** The final double loop of [expand]. *)
Definition combine_ (isTop isSequence : bool) (pre : jsstr) (N post : list jsstr) : list jsstr :=
  concat (map (fun nj => filter (fun e => negb isTop || isSequence || bool_decide (e <> []) = true)
                (map (fun pk => pre ++ nj ++ pk) post)) N).

(** [expand(str, isTop)]. *)
Fixpoint expand (fuel : nat) (str : jsstr) (isTop : bool) : outcome (list jsstr) :=
  match fuel with
  | O => OutOfFuel
  | S fuel =>
      m ← balanced [OPEN] [CLOSE] str;
      match m with
      | None => Ret [str]
      | Some m =>
          if bool_decide (last (m_pre m) = Some 36) then Ret [str]
          else
            let isNum := isNumericSequence (m_body m) in
            let isAlph := isAlphaSequence (m_body m) in
            let isSequence := isNum || isAlph in
            let isOptions := 0 <=? indexOf (m_body m) [COMMA] 0 in
            if negb isSequence && negb isOptions then
              if commaThenClose (m_post m) then
                expand fuel (m_pre m ++ [OPEN] ++ m_body m ++ escClose ++ m_post m) false
              else Ret [str]
            else
              let postOf (_ : unit) :=
                if bool_decide (m_post m = []) then Ret [[]] else expand fuel (m_post m) false in
              if isSequence then
                post ← postOf tt;
                N ← expandSequence isAlph (dotsParts (m_body m));
                Ret (combine_ isTop isSequence (m_pre m) N post)
              else
                n ← parseCommaParts (S (length (m_body m))) (m_body m);
                n' ← match n with
                     | [n0] => l ← expand fuel n0 false; Ret (map embrace l)
                     | _ => Ret n
                     end;
                match n, n' with
                | [_], [e0] =>
                    post ← postOf tt; Ret (map (fun p => m_pre m ++ e0 ++ p) post)
                | _, _ =>
                    post ← postOf tt;
                    N ← concatMap n' (fun el => expand fuel el false);
                    Ret (combine_ isTop isSequence (m_pre m) N post)
                end
      end
  end.

(** Number of closing braces: it decreases in every recursive call of [expand]. *)
Definition closes (s : jsstr) : nat := length (filter (fun c => c = CLOSE) s).

(** [expandTop(str)]. *)
Definition expandTop (str : jsstr) : outcome (list jsstr) :=
  if bool_decide (str = []) then Ret []
  else
    let str := if str_eqb (substr str 0 2) [OPEN; CLOSE]
               then [BACKSLASH; OPEN; BACKSLASH; CLOSE] ++ substrFrom str 2 else str in
    let s := escapeBraces str in
    l ← expand (S (closes s)) s true;
    Ret (map unescapeBraces l).

End Expand.

(** * Sequences *)



(** * Measures and shapes *)

Lemma closes_app s t : closes (s ++ t) = (closes s + closes t)%nat.
Proof. unfold closes. by rewrite filter_app, length_app. Qed.

Lemma closes_cons c s : closes (c :: s) = ((if decide (c = CLOSE) then 1 else 0) + closes s)%nat.
Proof. unfold closes. rewrite filter_cons. by case_decide. Qed.

(** A character other than a dot, a brace and a comma. *)
Definition plain (c : Z) : bool := negb ((c =? 46) || (c =? COMMA) || (c =? OPEN) || (c =? CLOSE)).

Section Dots.
(** The side of a dot on which a plain character must stand: [true] is left. *)
Context (side : bool).

(** Every dot of a text has a plain character on the given side, so that the
    dots of two pieces of it never meet. *)
Definition dotOk (s : jsstr) : Prop :=
  forall u v, s = u ++ 46 :: v ->
    exists c, (if side then last u else head v) = Some c /\ plain c = true.

Lemma dotOk_nil : dotOk [].
Proof. intros u v E. by destruct u. Qed.

Lemma dotOk_app s t : dotOk s -> dotOk t -> dotOk (s ++ t).
Proof.
  intros Hs Ht u v E. apply app_eq_inv in E as [(k & -> & E)|(k & -> & E)].
  - destruct k as [|d k]; simpl in E.
    + destruct (Ht [] v) as (c & Hc & Hp); [by rewrite <- E|]. exists c. split; [|done]. by destruct side.
    + injection E as <- ->. destruct (Hs u k eq_refl) as (c & Hc & Hp). exists c. split; [|done].
      destruct side; [done|]. by destruct k.
  - destruct (Ht k v E) as (c & Hc & Hp). exists c. split; [|done]. destruct side; [|done].
    by rewrite last_app, Hc.
Qed.

Lemma dotOk_cons c s : c <> 46 -> dotOk s -> dotOk (c :: s).
Proof.
  intros Hc Hs. apply (dotOk_app [c]); [|done]. intros u v E. destruct u as [|d [|]]; simplify_eq/=.
Qed.

Lemma dotOk_inv s c t : plain c = false -> c <> 46 -> dotOk (s ++ c :: t) -> dotOk s /\ dotOk t.
Proof.
  intros Hc Hd H. split.
  - intros u v E. subst s. destruct (H u (v ++ c :: t)) as (d & H2 & H3); [by rewrite <- app_assoc|].
    destruct side; [eauto|]. destruct v as [|e v]; simpl in H2; [congruence|]. simpl. eauto.
  - intros u v E. subst t. destruct (H (s ++ c :: u) v) as (d & H1 & H2); [by rewrite <- app_assoc|].
    destruct side; [|eauto]. rewrite last_app, last_cons in H1. destruct (last u); [eauto|congruence].
Qed.

Lemma dotOk_dots s u v : dotOk s -> s <> u ++ 46 :: 46 :: v.
Proof.
  intros H E. destruct side eqn:Es.
  - destruct (H (u ++ [46]) v) as (c & Hc & Hp); [by rewrite <- app_assoc|].
    rewrite Es, last_snoc in Hc. injection Hc as <-. discriminate Hp.
  - destruct (H u (46 :: v) E) as (c & Hc & Hp). rewrite Es in Hc. injection Hc as <-. discriminate Hp.
Qed.

Lemma splitStr_none sep s :
  (forall u v, s <> u ++ sep ++ v) -> splitStr sep 0 s = [s].
Proof.
  induction s as [|c s IH]; intros H; [done|]. cbn [splitStr].
  destruct (isPrefix sep (c :: s)) eqn:E.
  - apply isPrefix_app in E as [t E]. by destruct (H [] t).
  - rewrite IH; [done|]. intros u v ->. by apply (H (c :: u) v).
Qed.

Lemma dotsParts_id s : dotOk s -> dotsParts s = [s].
Proof. intros H. apply splitStr_none. intros u v. by apply dotOk_dots. Qed.

Lemma not_sequence s : dotOk s -> isNumericSequence s = false /\ isAlphaSequence s = false.
Proof. intros H. unfold isNumericSequence, isAlphaSequence. by rewrite dotsParts_id. Qed.

(** * Termination *)

(** The digits of a random number: a decimal numeral, possibly with an exponent. *)
Definition numeral (r : jsstr) : Prop :=
  Forall (fun c => isDigit c = true \/ c = 46 \/ c = 101 \/ c = 45) r /\
  (forall u v, r = u ++ 46 :: v ->
     (exists c, last u = Some c /\ isDigit c = true) /\ (exists c, head v = Some c /\ isDigit c = true)).

Lemma digit_plain c : isDigit c = true -> plain c = true.
Proof.
  unfold isDigit, plain. intros H. boolprop.
  destruct (Z.eqb_spec c 46), (Z.eqb_spec c COMMA), (Z.eqb_spec c OPEN), (Z.eqb_spec c CLOSE); done || lia.
Qed.

Lemma numeral_dotOk r : numeral r -> dotOk r.
Proof.
  intros [_ H] u v E. destruct (H u v E) as [(c & Hc & Hd) (c' & Hc' & Hd')].
  destruct side; [exists c|exists c']; split; eauto using digit_plain.
Qed.

(** A piece of a text: no dot problem, at most [n] closing braces. *)
Definition piece (n : nat) (s : jsstr) : Prop := dotOk s /\ (closes s <= n)%nat.

Lemma numeral_closes r : numeral r -> closes r = 0%nat.
Proof.
  intros [Hr _]. induction Hr as [|c r Hc _ IH]; [done|]. rewrite closes_cons, IH.
  case_decide as E; [|done]. subst c. destruct Hc as [Hc|[Hc|[Hc|Hc]]]; [|lia..]. discriminate Hc.
Qed.

Lemma marker_piece r : numeral r -> piece 0 (marker "CLOSE" r).
Proof.
  intros Hr. unfold piece, marker. rewrite !closes_app, (numeral_closes r Hr). split; [|done].
  cbn [app]. apply dotOk_cons; [done|]. repeat (apply dotOk_cons; [done|]).
  apply dotOk_app; [by apply numeral_dotOk|]. apply dotOk_cons; [done|apply dotOk_nil].
Qed.

Lemma splitOn_pieces s :
  dotOk s -> Forall (fun p => dotOk p /\ (closes p <= closes s)%nat) (split1 COMMA s).
Proof.
  intros Hs.
  assert (Hgen : forall ws, Forall (Forall (fun c => c <> COMMA)) ws -> ws <> [] ->
    dotOk (join [COMMA] ws) -> Forall (fun p => dotOk p /\ (closes p <= closes (join [COMMA] ws))%nat) ws).
  { induction ws as [|w [|w' ws] IH]; intros Hw Hne Hd; [done|by constructor; [split|]|].
    rewrite join_cons in * by done. cbn [app] in *. inversion Hw; subst.
    apply dotOk_inv in Hd as [Hd1 Hd2]; [|done..]. specialize (IH ltac:(done) ltac:(done) Hd2).
    rewrite closes_app, closes_cons, decide_False by done. constructor; [split; [done|lia]|].
    eapply Forall_impl; [exact IH|]. intros p [? ?]. split; [done|lia]. }
  rewrite <- (join_split1 COMMA s) in Hs.
  replace (closes s) with (closes (join [COMMA] (split1 COMMA s))) by by rewrite join_split1.
  apply Hgen; [| apply splitOn_nonempty | done].
  eapply Forall_impl; [apply splitOn_no_sep|]. intros w Hw. eapply Forall_impl; [exact Hw|].
  intros c Hc ->. discriminate Hc.
Qed.

Lemma appendLast_pieces n k p s :
  Forall (piece n) p -> dotOk s -> (n + closes s <= k)%nat -> Forall (piece k) (appendLast p s).
Proof.
  intros Hp Hs Hk. induction Hp as [|w p [Hw Hn] Hp IH]; [constructor|].
  destruct p as [|w' p]; cbn [appendLast].
  - constructor; [|done]. split; [by apply dotOk_app|]. rewrite closes_app. lia.
  - constructor; [|done]. split; [done|lia].
Qed.

Lemma appendLast_nonempty p s : p <> [] -> appendLast p s <> [].
Proof. by destruct p as [|w [|w' p]]. Qed.

Lemma piece_mono n k s : piece n s -> (n <= k)%nat -> piece k s.
Proof. intros [? ?] ?. split; [done|lia]. Qed.

Lemma piece_empty n : Forall (piece n) [[]].
Proof. constructor; [split; [apply dotOk_nil|unfold closes; simpl; lia]|done]. Qed.

Lemma embrace_ok e : dotOk e -> dotOk (embrace e) /\ closes (embrace e) = S (closes e).
Proof.
  intros He. unfold embrace. split.
  - cbn [app]. apply dotOk_cons; [done|]. apply dotOk_app; [done|]. apply dotOk_cons; [done|apply dotOk_nil].
  - rewrite !closes_app. change (closes [OPEN]) with 0%nat. change (closes [CLOSE]) with 1%nat. lia.
Qed.

(** The parts of a match of a dot-safe text. *)
Lemma match_pieces str m :
  dotOk str -> balancedPost OPEN CLOSE str (Some m) ->
  dotOk (m_pre m) /\ dotOk (m_body m) /\ dotOk (m_post m) /\
  closes str = (closes (m_pre m) + closes (m_body m) + 1 + closes (m_post m))%nat /\
  (length (m_body m) < length str)%nat /\ (length (m_post m) < length str)%nat.
Proof.
  intros Hd (E & _). rewrite E in Hd |- *. apply dotOk_inv in Hd as [H1 Hd]; [|done..].
  apply dotOk_inv in Hd as [H2 H3]; [|done..].
  rewrite closes_app, closes_cons, closes_app, closes_cons, decide_False, decide_True by done.
  rewrite !length_app. simpl. rewrite length_app. simpl. split_and!; try done; lia.
Qed.

Lemma parseCommaParts_ok fuel str :
  dotOk str -> (length str < fuel)%nat ->
  returns (parseCommaParts fuel str) (fun n => n <> [] /\ Forall (piece (closes str)) n).
Proof.
  revert str. induction fuel as [|fuel IH]; intros str Hd Hf; [lia|]. cbn [parseCommaParts].
  case_bool_decide as E.
  { apply returns_ret. split; [done|]. apply piece_empty. }
  destruct (balanced_ok OPEN CLOSE str) as ([m|] & -> & Hm); [done| |].
  - rewrite bind_Ret. destruct (match_pieces str m Hd Hm) as (H1 & H2 & H3 & Hc & Hl1 & Hl2).
    destruct (IH (m_post m) H3) as (n & -> & Hne & Hn); [lia|]. rewrite bind_Ret.
    set (p := appendLast (split1 COMMA (m_pre m)) ([OPEN] ++ m_body m ++ [CLOSE])).
    assert (Hp : p <> [] /\ Forall (piece (closes (m_pre m) + closes (m_body m) + 1)) p).
    { split; [apply appendLast_nonempty, splitOn_nonempty|].
      apply (appendLast_pieces (closes (m_pre m))).
      - eapply Forall_impl; [by apply splitOn_pieces|]. done.
      - cbn [app]. apply dotOk_cons; [done|]. apply dotOk_app; [done|]. apply dotOk_cons; [done|apply dotOk_nil].
      - rewrite !closes_app. change (closes [OPEN]) with 0%nat. change (closes [CLOSE]) with 1%nat. lia. }
    destruct Hp as [Hpne Hp]. case_bool_decide; [|destruct n as [|h t]; [done|]].
    + apply returns_ret. split; [done|]. eapply Forall_impl; [exact Hp|].
      intros w Hw. eapply piece_mono; [exact Hw|lia].
    + apply returns_ret. inversion Hn as [|? ? [Hh1 Hh2] Ht]; subst. split.
      * pose proof (appendLast_nonempty p h Hpne). by destruct (appendLast p h).
      * apply Forall_app. split.
        -- eapply appendLast_pieces; [exact Hp|done|lia].
        -- eapply Forall_impl; [exact Ht|]. intros w Hw. eapply piece_mono; [exact Hw|lia].
  - rewrite bind_Ret. apply returns_ret. split; [apply splitOn_nonempty|]. by apply splitOn_pieces.
Qed.

Lemma concatMap_returns {A B} (xs : list A) (fn : A -> outcome (list B)) (P : A -> Prop) (Q : B -> Prop) :
  Forall P xs -> (forall x, P x -> returns (fn x) (Forall Q)) -> returns (concatMap xs fn) (Forall Q).
Proof.
  intros Hx Hf. induction Hx as [|x xs Hx _ IH]; cbn [concatMap]; [apply returns_ret; constructor|].
  destruct (Hf x Hx) as (y & -> & Hy). destruct IH as (ys & -> & Hys). rewrite !bind_Ret.
  apply returns_ret. by apply Forall_app.
Qed.

Section Terminates.
Context (rClose : jsstr) (Hr : numeral rClose).

(** What the expansions of a text keep: dots stay apart, closing braces do not
    multiply, and they diminish unless the text has one expansion. *)
Definition expansions (n : nat) (l : list jsstr) : Prop :=
  Forall (piece n) l /\ (length l <> 1%nat -> Forall (fun e => (closes e < n)%nat) l).

Lemma combine_pieces isTop isSeq pre N post nN nP n :
  dotOk pre -> Forall (piece nN) N -> Forall (piece nP) post -> (closes pre + nN + nP < n)%nat ->
  expansions n (combine_ isTop isSeq pre N post).
Proof.
  intros Hpre HN Hpost Hn.
  assert (Forall (fun e => dotOk e /\ (closes e < n)%nat) (combine_ isTop isSeq pre N post)) as H.
  { unfold combine_. apply Forall_concat, Forall_map. eapply Forall_impl; [exact HN|].
    intros nj [Hj1 Hj2]. apply Forall_forall. intros e [_ He]%list_elem_of_filter.
    apply list_elem_of_fmap in He as (pk & -> & Hpk). rewrite Forall_forall in Hpost.
    destruct (Hpost pk Hpk) as [Hk1 Hk2]. split; [by repeat apply dotOk_app|]. rewrite !closes_app. lia. }
  split; [|intros _]; eapply Forall_impl; [exact H| |exact H|]; intros e [? ?]; [split; [done|lia]|done].
Qed.

(** One part that expands to one text: the braces stay. *)
Lemma single_pieces pre e post nb np n :
  dotOk pre -> piece nb e -> expansions np post -> (n = closes pre + nb + 1 + np)%nat ->
  expansions n (map (fun p => pre ++ embrace e ++ p) post).
Proof.
  intros Hpre [He Hb] [Hp Hp'] Hn. destruct (embrace_ok e He) as [He1 He2].
  split; [|rewrite length_map; intros Hl; specialize (Hp' Hl)]; apply Forall_map.
  - eapply Forall_impl; [exact Hp|]. intros p [? ?].
    split; [by apply dotOk_app, dotOk_app|]. cbn beta. rewrite closes_app, closes_app, He2. lia.
  - eapply Forall_impl; [exact Hp'|]. cbn beta. intros p ?. rewrite closes_app, closes_app, He2. lia.
Qed.

Lemma embraced_pieces n l :
  Forall (piece n) l -> Forall (fun e => (closes e < n)%nat) l -> Forall (piece n) (map embrace l).
Proof.
  rewrite !Forall_forall. intros H1 H2 w (e & -> & He')%list_elem_of_fmap.
  destruct (H1 e He') as [He _]. specialize (H2 e He'). destruct (embrace_ok e He) as [? Hc]. split; [done|]. rewrite Hc. lia.
Qed.

Lemma expandAll_pieces fuel n l :
  (forall s top, dotOk s -> (closes s < fuel)%nat -> returns (expand rClose fuel s top) (expansions (closes s))) ->
  (n < fuel)%nat -> Forall (piece n) l ->
  returns (concatMap l (fun el => expand rClose fuel el false)) (Forall (piece n)).
Proof.
  intros IH Hn Hl. apply (concatMap_returns _ _ (piece n)); [done|].
  intros el [Hel1 Hel2]. eapply returns_mono; [apply IH; [done|lia]|].
  intros l' [Hl1 _]. eapply Forall_impl; [exact Hl1|]. intros w Hw. eapply piece_mono; [exact Hw|lia].
Qed.

(** Escaping the closing brace of a set that is no set. *)
Lemma escaped_ok str m :
  dotOk str -> balancedPost OPEN CLOSE str (Some m) ->
  let str' := m_pre m ++ [OPEN] ++ m_body m ++ escClose rClose ++ m_post m in
  dotOk str' /\ (closes str' < closes str)%nat.
Proof.
  intros Hd Hm. destruct (match_pieces str m Hd Hm) as (H1 & H2 & H3 & Hc & _).
  destruct (marker_piece rClose Hr) as [Hm1 Hm2]. split.
  - apply dotOk_app; [done|]. cbn [app]. apply dotOk_cons; [done|]. apply dotOk_app; [done|]. by apply dotOk_app.
  - rewrite !closes_app. change (closes [OPEN]) with 0%nat. unfold escClose. lia.
Qed.

Lemma expansions_mono n k l : expansions n l -> (n < k)%nat -> expansions k l.
Proof.
  intros [Hl _] Hk. split; [|intros _]; (eapply Forall_impl; [exact Hl|]); intros e [? ?]; [split; [done|lia]|lia].
Qed.

Lemma expansions_self str : dotOk str -> expansions (closes str) [str].
Proof. intros. by split; [by constructor; [split|]|]. Qed.

Lemma expand_ok fuel str isTop :
  dotOk str -> (closes str < fuel)%nat ->
  returns (expand rClose fuel str isTop) (expansions (closes str)).
Proof.
  revert str isTop. induction fuel as [|fuel IH]; intros str isTop Hd Hf; [lia|]. cbn [expand].
  pose proof (expansions_self str Hd) as Hself.
  destruct (balanced_ok OPEN CLOSE str) as ([m|] & -> & Hm); [done| |by apply returns_ret].
  rewrite bind_Ret. case_bool_decide; [by apply returns_ret|].
  destruct (match_pieces str m Hd Hm) as (H1 & H2 & H3 & Hc & _).
  destruct (not_sequence (m_body m) H2) as [-> ->]. cbn [orb negb andb].
  assert (returns (if bool_decide (m_post m = []) then Ret [[]] else expand rClose fuel (m_post m) false)
            (expansions (closes (m_post m)))) as (post & Epost & Hp).
  { case_bool_decide as E; [|apply IH; [done|lia]]. apply returns_ret. rewrite E.
    split; [apply piece_empty|done]. }
  destruct (0 <=? indexOf (m_body m) [COMMA] 0); cbn [negb].
  - destruct (parseCommaParts_ok (S (length (m_body m))) (m_body m) H2) as (n & -> & Hne & Hn); [lia|].
    rewrite bind_Ret, Epost. destruct n as [|n0 [|n1 n]]; [done| |].
    + inversion Hn as [|? ? [Hn0 Hn0'] _]; subst.
      destruct (IH n0 false Hn0) as (l & -> & Hl & Hl'); [lia|]. rewrite !bind_Ret.
      destruct l as [|e0 [|e1 l]].
      * apply returns_ret. split; constructor.
      * cbn [map]. rewrite bind_Ret. apply returns_ret. inversion Hl as [|? ? He _]; subst.
        eapply (single_pieces _ _ _ (closes (m_body m))); [done|eapply piece_mono; [exact He|lia]|exact Hp|lia].
      * specialize (Hl' ltac:(done)). cbn [map].
        destruct (expandAll_pieces fuel (closes n0) (map embrace (e0 :: e1 :: l))) as (N & HN' & HN);
          [done|lia|by apply embraced_pieces|]. cbn [map] in HN'. rewrite HN', bind_Ret. apply returns_ret.
        eapply combine_pieces; [done|exact HN|apply Hp|lia].
    + rewrite !bind_Ret.
      destruct (expandAll_pieces fuel (closes (m_body m)) (n0 :: n1 :: n)) as (N & -> & HN); [done|lia|done|].
      rewrite bind_Ret. apply returns_ret. eapply combine_pieces; [done|exact HN|apply Hp|lia].
  - destruct (commaThenClose (m_post m)); [|by apply returns_ret].
    destruct (escaped_ok str m Hd Hm) as [Hd' Hc'].
    eapply returns_mono; [apply IH; [done|lia]|]. intros l Hl. eapply expansions_mono; [exact Hl|done].
Qed.

End Terminates.
End Dots.

(** * The exported function *)

Lemma replaceStr_none x y s : (forall u v, s <> u ++ x ++ v) -> replaceStr x y s = s.
Proof. intros H. unfold replaceStr. by rewrite splitStr_none. Qed.

Lemma replaceStr_absent c x y s : Forall (fun d => d <> c) s -> replaceStr (c :: x) y s = s.
Proof.
  intros H. apply replaceStr_none. intros u v ->. apply Forall_app in H as [_ H].
  inversion H. congruence.
Qed.

Section Top.
(** The random digits of the five markers. *)
Context (r1 r2 r3 r4 r5 : jsstr).

Lemma escapeBraces_id s : Forall (fun c => c <> BACKSLASH) s -> escapeBraces r1 r2 r3 r4 r5 s = s.
Proof. intros H. unfold escapeBraces. by rewrite !(replaceStr_absent _ _ _ s H). Qed.

Lemma unescapeBraces_id s : Forall (fun c => c <> 0) s -> unescapeBraces r1 r2 r3 r4 r5 s = s.
Proof.
  intros H. unfold unescapeBraces, escSlash, escOpen, escClose, escComma, escPeriod, marker.
  cbn [app]. by rewrite !(replaceStr_absent _ _ _ s H).
Qed.

Lemma unescape_map_id l :
  Forall (Forall (fun c => c <> 0)) l -> map (unescapeBraces r1 r2 r3 r4 r5) l = l.
Proof. induction 1 as [|s l Hs _ IH]; [done|]. cbn [map]. by rewrite unescapeBraces_id, IH. Qed.

(** A text without escapes whose first two characters are not a pair of braces. *)
Definition unescaped (s : jsstr) : Prop :=
  s <> [] /\ Forall (fun c => c <> BACKSLASH) s /\ forall v, s <> OPEN :: CLOSE :: v.

Lemma expandTop_unescaped s :
  unescaped s ->
  expandTop r1 r2 r3 r4 r5 s =
    (l ← expand r3 (S (closes s)) s true; Ret (map (unescapeBraces r1 r2 r3 r4 r5) l)).
Proof.
  intros (Hne & Hb & Hp). unfold expandTop. rewrite bool_decide_false by done.
  destruct (str_eqb (substr s 0 2) [OPEN; CLOSE]) eqn:E; [|by rewrite escapeBraces_id].
  apply str_eqb_eq in E. destruct s as [|c [|d s]]; [done|discriminate E|].
  injection E as -> ->. by destruct (Hp s).
Qed.

(** A text without braces has one expansion, itself. *)
Lemma balanced_none s : Forall (fun c => c <> OPEN) s -> balanced [OPEN] [CLOSE] s = Ret None.
Proof.
  intros H. destruct (balanced_ok OPEN CLOSE s) as ([m|] & -> & Hm); [done| |done].
  destruct Hm as (E & _). exfalso. rewrite E in H. apply Forall_app in H as [_ H]. inversion H. done.
Qed.

Lemma expand_literal fuel s isTop :
  Forall (fun c => c <> OPEN) s -> (0 < fuel)%nat -> expand r3 fuel s isTop = Ret [s].
Proof. intros H Hf. destruct fuel; [lia|]. cbn [expand]. by rewrite balanced_none. Qed.

Lemma expandTop_literal s :
  s <> [] -> Forall (fun c => c <> OPEN /\ c <> BACKSLASH /\ c <> 0) s ->
  expandTop r1 r2 r3 r4 r5 s = Ret [s].
Proof.
  intros Hne H. apply Forall_and in H as [H1 [H2 H3]%Forall_and].
  rewrite expandTop_unescaped, expand_literal by (done || lia || (repeat split; try done; intros v ->; inversion H1; done)).
  rewrite bind_Ret. cbn [map]. by rewrite unescapeBraces_id.
Qed.

(** Positions of a character that occurs once. *)
Lemma app_cons_unique (c : Z) p x q y :
  Forall (fun d => d <> c) p -> Forall (fun d => d <> c) x -> p ++ c :: x = q ++ c :: y -> p = q /\ x = y.
Proof.
  intros Hp Hx. revert q. induction Hp as [|d p Hd _ IH]; intros [|e q] E; cbn [app] in E.
  - by injection E as ->.
  - injection E as <- ->. apply Forall_app in Hx as [_ Hx]. inversion Hx. done.
  - by injection E as -> _.
  - injection E as <- E. by destruct (IH q E) as [-> ->].
Qed.

Definition braceFree (s : jsstr) : Prop := Forall (fun c => c <> OPEN /\ c <> CLOSE) s.

Lemma balanced_one pre body post :
  braceFree pre -> braceFree body -> braceFree post ->
  exists m, balanced [OPEN] [CLOSE] (pre ++ OPEN :: body ++ CLOSE :: post) = Ret (Some m) /\
    m_pre m = pre /\ m_body m = body /\ m_post m = post.
Proof.
  intros [Hp1 Hp2]%Forall_and [Hb1 Hb2]%Forall_and [Ho1 Ho2]%Forall_and.
  destruct (balanced_ok OPEN CLOSE (pre ++ OPEN :: body ++ CLOSE :: post)) as ([m|] & Em & Hm); [done| |].
  - exists m. split; [done|]. destruct Hm as (E & _).
    apply app_cons_unique in E as [<- E]; [|done|apply Forall_app; split; [done|by constructor]].
    apply app_cons_unique in E as [<- <-]; done.
  - exfalso. apply (Hm (len pre) (len (pre ++ OPEN :: body))).
    + rewrite len_app, len_cons. pose proof (len_nonneg body). lia.
    + apply idx_app_here.
    + replace (pre ++ OPEN :: body ++ CLOSE :: post) with ((pre ++ OPEN :: body) ++ CLOSE :: post)
        by by rewrite <- app_assoc. apply idx_app_here.
Qed.

(** The pieces of a split hold every character but those of the separator. *)
Lemma splitStr_Forall (P : Z -> Prop) sep k s :
  sep <> [] -> Forall P sep -> Forall (Forall P) (splitStr sep k s) -> Forall P (drop k s).
Proof.
  intros Hne Hsep. revert k. induction s as [|c s IH]; intros k H; [by rewrite drop_nil|].
  destruct k as [|k]; cbn [splitStr] in H; [|by apply IH].
  destruct (isPrefix sep (c :: s)) eqn:E.
  - apply isPrefix_app in E as [t E]. destruct sep as [|d sep]; [done|]. injection E as <- ->.
    inversion H as [|? ? _ H']; subst. apply IH in H'. cbn [length] in H'. rewrite Nat.sub_0_r, drop_app_length in H'.
    inversion Hsep; subst. constructor; [done|]. by apply Forall_app.
  - specialize (IH 0%nat). rewrite drop_0 in *. destruct (splitStr sep 0 s) as [|w ws]; inversion H as [|? ? Hw Hws]; subst;
      inversion Hw; subst; constructor; try done; apply IH; by constructor.
Qed.

Lemma digits_no_comma s : forallb isDigit s = true -> Forall (fun c => c <> COMMA) s.
Proof.
  intros H. rewrite forallb_forall in H. apply Forall_forall. intros c Hc ->.
  apply list_elem_of_In in Hc. discriminate (H _ Hc).
Qed.

Lemma isInt_no_comma s : isInt s = true -> Forall (fun c => c <> COMMA) s.
Proof.
  unfold isInt. intros H. repeat case_match; boolprop; simplify_eq;
    first [by apply digits_no_comma | constructor; [done|by apply digits_no_comma]].
Qed.

Lemma isLetter_no_comma s : isLetter s = true -> Forall (fun c => c <> COMMA) s.
Proof. destruct s as [|c [|]]; [done| |done]. intros H. constructor; [|done]. intros ->. discriminate H. Qed.

Lemma comma_no_sequence body :
  COMMA ∈ body -> isNumericSequence body = false /\ isAlphaSequence body = false.
Proof.
  intros Hc. assert (H : ~ Forall (Forall (fun c => c <> COMMA)) (dotsParts body)).
  { intros H. apply splitStr_Forall in H; [|done|by repeat constructor]. rewrite drop_0, Forall_forall in H.
    by destruct (H COMMA Hc). }
  unfold isNumericSequence, isAlphaSequence.
  split; apply not_true_iff_false; intros E; apply H; clear H;
    repeat case_match; try discriminate E; boolprop; destruct_and?;
    repeat constructor; eauto using isInt_no_comma, isLetter_no_comma.
Qed.

Lemma parseCommaParts_plain fuel body :
  braceFree body -> (0 < fuel)%nat -> parseCommaParts fuel body = Ret (split1 COMMA body).
Proof.
  intros [H _]%Forall_and Hf. destruct fuel; [lia|]. cbn [parseCommaParts].
  case_bool_decide; [by subst|]. by rewrite balanced_none.
Qed.

Lemma concatMap_literals fuel l :
  (0 < fuel)%nat -> Forall braceFree l -> concatMap l (fun el => expand r3 fuel el false) = Ret l.
Proof.
  intros Hf. induction 1 as [|w l [Hw _]%Forall_and _ IH]; [done|]. cbn [concatMap].
  by rewrite expand_literal, IH.
Qed.

Lemma comma_indexOf body : COMMA ∈ body -> (0 <=? indexOf body [COMMA] 0) = true.
Proof.
  intros (k & Hk)%idx_of_elem. pose proof (idx_Some_range _ _ _ Hk).
  destruct (indexOf_firstAt body COMMA 0 ltac:(lia)) as [[_ Hn]|[Hp _]]; [|by apply Z.leb_le].
  by destruct (Hn k COMMA); [lia| |].
Qed.

Lemma join_comma_elem os : (2 <= length os)%nat -> COMMA ∈ join [COMMA] os.
Proof.
  destruct os as [|o [|o' os]]; cbn [length]; intros H; [lia..|]. rewrite join_cons by done. set_solver.
Qed.

Lemma join_Forall (P : Z -> Prop) os : P COMMA -> Forall (Forall P) os -> Forall P (join [COMMA] os).
Proof.
  intros Hc. induction 1 as [|o [|o' os] Ho Hos IH]; [constructor|done|].
  rewrite join_cons by done. apply Forall_app. split; [done|]. by constructor.
Qed.

End Top.

(** A text of characters that mean themselves in a pattern of braces. *)
Definition literalText (s : jsstr) : Prop :=
  Forall (fun c => c <> OPEN /\ c <> CLOSE /\ c <> BACKSLASH /\ c <> 0) s.

Lemma literalText_braceFree s : literalText s -> braceFree s.
Proof. intros H. eapply Forall_impl; [exact H|]. naive_solver. Qed.

Lemma literalText_app s t : literalText s -> literalText t -> literalText (s ++ t).
Proof. intros. by apply Forall_app. Qed.

Lemma combine_true pre N post :
  combine_ true false pre N [post] = filter (fun e => e <> []) (map (fun o => pre ++ o ++ post) N).
Proof.
  induction N as [|o N IH]; [done|].
  transitivity (combine_ true false pre [o] [post] ++ combine_ true false pre N [post]).
  { unfold combine_. cbn [map concat]. by rewrite app_nil_r. }
  rewrite IH. cbn [map]. unfold combine_. cbn [map concat]. rewrite app_nil_r, !filter_cons, filter_nil.
  cbn [orb negb]. set (e := pre ++ o ++ post).
  destruct e; repeat case_decide; try done.

Qed.

(** Expanding a set of alternatives: [pre{o1,...,on}post] with at least
    two alternatives yields, in order, the texts [pre oi post] that are not
    empty.  The alternatives are free of commas, and no part has braces,
    backslashes or null characters; [pre] does not end in a dollar sign. *)
Lemma expandTop_comma_set r1 r2 r3 r4 r5 (pre post : jsstr) (os : list jsstr) :
  literalText pre -> literalText post -> Forall literalText os ->
  Forall (Forall (fun c => c <> COMMA)) os -> (2 <= length os)%nat -> last pre <> Some 36 ->
  expandTop r1 r2 r3 r4 r5 (pre ++ [OPEN] ++ join [COMMA] os ++ [CLOSE] ++ post) =
    Ret (filter (fun e => e <> []) (map (fun o => pre ++ o ++ post) os)).
Proof.
  intros Hpre Hpost Hos Hnc Hlen Hdol. cbn [app].
  assert (Hbody : literalText (join [COMMA] os)) by (by apply join_Forall).
  set (body := join [COMMA] os) in *. pose proof (join_comma_elem os Hlen) as Hc. fold body in Hc.
  rewrite expandTop_unescaped; cycle 1.
  { split_and!.
    - by destruct pre.
    - apply Forall_app. split; [|constructor; [done|apply Forall_app; split; [|constructor; [done|]]]];
        (eapply Forall_impl; [eassumption|]); naive_solver.
    - intros v E. destruct pre as [|c pre]; [|inversion Hpre; simplify_eq/=; naive_solver].
      destruct body as [|c body]; simplify_eq/=; [by apply elem_of_nil in Hc|].
      inversion Hbody; naive_solver. }
  cbn [expand].
  destruct (balanced_one pre body post) as (m & Em & Hm1 & Hm2 & Hm3);
    [by apply literalText_braceFree..|].
  rewrite Em, bind_Ret, Hm1, Hm2, Hm3, bool_decide_false by done.
  destruct (comma_no_sequence body Hc) as [-> ->]. rewrite (comma_indexOf body Hc). cbn [orb negb andb].
  rewrite parseCommaParts_plain, bind_Ret by (eauto using literalText_braceFree || lia).
  assert (Esplit : split1 COMMA body = os) by (apply split1_join; [by destruct os; simpl in Hlen; [lia|]|done]).
  rewrite !Esplit.
  destruct os as [|o1 [|o2 os]]; [simpl in Hlen; lia..|]. rewrite !bind_Ret.
  assert (Hcl : (0 < closes (pre ++ OPEN :: body ++ CLOSE :: post))%nat).
  { rewrite closes_app, closes_cons, closes_app, closes_cons, (decide_True (P := CLOSE = CLOSE)) by done. lia. }
  rewrite (expand_literal r3 _ post) by (done || (eapply Forall_impl; [exact Hpost|naive_solver])).
  rewrite concatMap_literals by (done || (eapply Forall_impl; [exact Hos|apply literalText_braceFree])).
  transitivity (Ret (map (unescapeBraces r1 r2 r3 r4 r5) (combine_ true false pre (o1 :: o2 :: os) [post]))).
  { case_bool_decide as E; [|done]. by rewrite E. }
  rewrite combine_true, unescape_map_id; [done|].
  apply Forall_forall. intros e [_ (o & -> & Ho)%list_elem_of_fmap]%list_elem_of_filter.
  rewrite Forall_forall in Hos. specialize (Hos o Ho).
  apply (Forall_impl _ _ _ (literalText_app _ _ Hpre (literalText_app _ _ Hos Hpost))). naive_solver.
Qed.

(** C18. Brace expansion terminates: on a pattern without backslashes in which
    every dot has a plain character (no dot, comma or brace) on its left, or
    every dot has one on its right, [expandTop] returns.  The markers hold
    decimal numerals.  The condition excludes the sequences, whose step may
    be zero. *)
Theorem expandTop_terminates side r1 r2 r3 r4 r5 (s : jsstr) :
  numeral r3 -> unescaped s -> dotOk side s ->
  exists l, expandTop r1 r2 r3 r4 r5 s = Ret l.
Proof.
  intros Hr Hs Hd. rewrite expandTop_unescaped by done.
  destruct (expand_ok side r3 Hr (S (closes s)) s true Hd) as (l & -> & _); [lia|].
  rewrite bind_Ret. eauto.
Qed.

Lemma expandTop_terminates_witness :
  exists l, expandTop [] [] (js "0.25") [] [] (js "lib/*.{js,{a,b}c}") = Ret l.
Proof.
  apply (expandTop_terminates true).
  - split; [repeat (constructor; [vm_compute; tauto|]); constructor|].
    intros u v E. vm_compute in E. destruct u as [|a [|b [|c [|d [|e u]]]]]; simplify_eq/=.
    split; eexists; split; reflexivity.
  - split_and!; [done|repeat constructor; discriminate|done].
  - intros u v E. vm_compute in E. do 20 (try (destruct u as [|? u]; simplify_eq/=)); eexists; split; reflexivity.
Defined.



(** ** The text of a sequence *)














