(* ===== verification/Minimatch.v ===== *)
(** Glob patterns (wordcut.js, module 20, minimatch): the translation of a
    pattern to regular expressions and the matching of paths against it.

    The random digits of the brace-expansion markers and the Unicode case data
    of the engine are arguments.  Debug output is not modelled. *)
From Stdlib Require Import ZArith Lia.
From stdpp Require Import base gmap strings list.
From S2P Require Import Prelude JsString JsRegExp Balanced BraceExpansion.

Local Open Scope Z_scope.
Open Scope js_scope.

(** An options object: the flags that are set on it. *)
Abbreviation options := (gmap string bool).
Definition opt (o : options) (k : string) : bool := default false (o !! k).

(** The path separator of module 22. *)
Definition path_sep : jsstr := js "/".
Definition toSlash (s : jsstr) : jsstr :=
  if negb (str_eqb path_sep (js "/")) then join (js "/") (splitStr path_sep 0 s) else s.

(** [plTypes]. *)
Definition plOpen (stateChar : Z) : jsstr := if stateChar =? 33 then js "(?:(?!(?:" else js "(?:".
Definition plClose (stateChar : Z) : jsstr :=
  if stateChar =? 33 then js "))[^/]*?)"
  else if stateChar =? 63 then js ")?"
  else if stateChar =? 43 then js ")+"
  else if stateChar =? 42 then js ")*"
  else js ")".

Definition qmark : jsstr := js "[^/]".
Definition star : jsstr := qmark ++ js "*?".
Definition twoStarDot : jsstr := js "(?:(?!(?:\/|^)(?:\.{1,2})($|\/)).)*?".
Definition twoStarNoDot : jsstr := js "(?:(?!(?:\/|^)\.).)*?".

(** [reSpecials[c]]. *)
Definition reSpecials (c : Z) : bool := bool_decide (c ∈ js "().*{}+?[]^$\!").

Definition isSlash (c : Z) : bool := c =? 47.

(** [s.split(slashSplit)]. *)
Definition slashSplit (s : jsstr) : list jsstr := splitRun isSlash false s.

(** [ext(a, b)]: the keys of both, [a] first. *)
Definition ext (a b : options) : options := a ∪ b.

(** An entry of [patternListStack] and [negativeLists]. *)
Record plEntry := mkPl { pl_type : Z; pl_start : Z; pl_reStart : Z; pl_open : jsstr; pl_close : jsstr; pl_reEnd : Z }.

(** The local variables of [parse].  The heads of the two lists are their last elements. *)
Record pst := mkPst {
  p_re : jsstr;
  p_hasMagic : bool;
  p_escaping : bool;
  p_stack : list plEntry;
  p_negative : list plEntry;
  p_stateChar : option Z;
  p_inClass : bool;
  p_reClassStart : Z;
  p_classStart : Z
}.

Definition set_re (s : pst) (r : jsstr) : pst :=
  mkPst r (p_hasMagic s) (p_escaping s) (p_stack s) (p_negative s) (p_stateChar s) (p_inClass s) (p_reClassStart s) (p_classStart s).
Definition addRe (s : pst) (r : jsstr) : pst := set_re s (p_re s ++ r).
Definition set_magic (s : pst) (b : bool) : pst :=
  mkPst (p_re s) b (p_escaping s) (p_stack s) (p_negative s) (p_stateChar s) (p_inClass s) (p_reClassStart s) (p_classStart s).
Definition set_escaping (s : pst) (b : bool) : pst :=
  mkPst (p_re s) (p_hasMagic s) b (p_stack s) (p_negative s) (p_stateChar s) (p_inClass s) (p_reClassStart s) (p_classStart s).
Definition set_lists (s : pst) (st neg : list plEntry) : pst :=
  mkPst (p_re s) (p_hasMagic s) (p_escaping s) st neg (p_stateChar s) (p_inClass s) (p_reClassStart s) (p_classStart s).
Definition set_stateChar (s : pst) (c : option Z) : pst :=
  mkPst (p_re s) (p_hasMagic s) (p_escaping s) (p_stack s) (p_negative s) c (p_inClass s) (p_reClassStart s) (p_classStart s).
Definition set_class (s : pst) (b : bool) (rs cs : Z) : pst :=
  mkPst (p_re s) (p_hasMagic s) (p_escaping s) (p_stack s) (p_negative s) (p_stateChar s) b rs cs.

Definition parseInit (o : options) : pst := mkPst [] (opt o "nocase") false [] [] None false (-1) (-1).

(** [clearStateChar()]. *)
Definition clearStateChar (s : pst) : pst :=
  match p_stateChar s with
  | None => s
  | Some c =>
      let s := if c =? 42 then set_magic (addRe s star) true
               else if c =? 63 then set_magic (addRe s qmark) true
               else addRe s ([92] ++ [c]) in
      set_stateChar s None
  end.

(** The cases [?*+@!]. *)
Definition caseStateChar (o : options) (i c : Z) (s : pst) : pst :=
  if p_inClass s then addRe s [if (c =? 33) && (i =? p_classStart s + 1) then 94 else c]
  else
    let s := set_stateChar (clearStateChar s) (Some c) in
    if opt o "noext" then clearStateChar s else s.

(** The case [(]. *)
Definition caseOpenParen (i : Z) (s : pst) : pst :=
  if p_inClass s then addRe s (js "(")
  else match p_stateChar s with
       | None => addRe s (js "\(")
       | Some t =>
           let pl := mkPl t (i - 1) (len (p_re s)) (plOpen t) (plClose t) 0 in
           let s := set_lists s (pl :: p_stack s) (p_negative s) in
           let s := addRe s (if t =? 33 then js "(?:(?!(?:" else js "(?:") in
           set_stateChar s None
       end.

(** The case [)]. *)
Definition caseCloseParen (s : pst) : pst :=
  match p_inClass s, p_stack s with
  | false, pl :: _ =>
      let s := set_magic (clearStateChar s) true in
      let s := addRe s (pl_close pl) in
      let pl := mkPl (pl_type pl) (pl_start pl) (pl_reStart pl) (pl_open pl) (pl_close pl) (len (p_re s)) in
      set_lists s (tail (p_stack s)) (if pl_type pl =? 33 then pl :: p_negative s else p_negative s)
  | _, _ => addRe s (js "\)")
  end.

(** The case [|]. *)
Definition casePipe (s : pst) : pst :=
  if p_inClass s || bool_decide (p_stack s = []) || p_escaping s
  then set_escaping (addRe s (js "\|")) false
  else addRe (clearStateChar s) (js "|").

(** The case [[]. *)
Definition caseOpenBracket (i : Z) (s : pst) : pst :=
  let s := clearStateChar s in
  if p_inClass s then addRe s (js "\[")
  else addRe (set_class s true (len (p_re s)) i) (js "[").

(** The default case. *)
Definition caseDefault (c : Z) (s : pst) : pst :=
  let s := clearStateChar s in
  let s := if p_escaping s then set_escaping s false
           else if reSpecials c && negb ((c =? 94) && p_inClass s) then addRe s [92]
           else s in
  addRe s [c].

(** What [parse] returns. *)
Inductive part :=
| PFalse
| PGlobstar
| PStr (s : jsstr)
| PRegExp (r : re) (src : option jsstr) (glob : option jsstr)
| PSub (src : jsstr) (hasMagic : bool).

(** [sp[0]] as text and [sp[1]] as a condition; the elements of anything but
    the pair that a sub-parse returns are [undefined]. *)
Definition sp0 (p : part) : jsstr := match p with PSub s _ => s | _ => js "undefined" end.
Definition sp1 (p : part) : bool := match p with PSub _ b => b | _ => false end.

(** The case []]; [sub] is [this.parse(cs, SUBPARSE)]. *)
Definition caseCloseBracket (sub : jsstr -> outcome part) (pattern : jsstr) (i : Z) (s : pst) : outcome pst :=
  if (i =? p_classStart s + 1) || negb (p_inClass s)
  then Ret (set_escaping (addRe s (js "\]")) false)
  else
    let cs := substring pattern (p_classStart s + 1) i in
    match newRegExp (js "[" ++ cs ++ js "]") with
    | None =>
        sp ← sub cs;
        let s := set_re s (substr (p_re s) 0 (p_reClassStart s) ++ js "\[" ++ sp0 sp ++ js "\]") in
        let s := set_magic s (p_hasMagic s || sp1 sp) in
        Ret (set_class s false (p_reClassStart s) (p_classStart s))
    | Some _ =>
        let s := set_class (set_magic s true) false (p_reClassStart s) (p_classStart s) in
        Ret (addRe s (js "]"))
    end.

(** One iteration of the loop of [parse]; [None] is [return false]. *)
Definition parseStep (sub : jsstr -> outcome part) (o : options) (pattern : jsstr) (i c : Z) (s : pst)
    : outcome (option pst) :=
  if p_escaping s && reSpecials c then Ret (Some (set_escaping (addRe s ([92] ++ [c])) false))
  else if c =? 47 then Ret None
  else if c =? 92 then Ret (Some (set_escaping (clearStateChar s) true))
  else if bool_decide (c ∈ js "?*+@!") then Ret (Some (caseStateChar o i c s))
  else if c =? 40 then Ret (Some (caseOpenParen i s))
  else if c =? 41 then Ret (Some (caseCloseParen s))
  else if c =? 124 then Ret (Some (casePipe s))
  else if c =? 91 then Ret (Some (caseOpenBracket i s))
  else if c =? 93 then s' ← caseCloseBracket sub pattern i s; Ret (Some s')
  else Ret (Some (caseDefault c s)).

Fixpoint parseLoop (sub : jsstr -> outcome part) (o : options) (pattern rest : jsstr) (i : Z) (s : pst)
    : outcome (option pst) :=
  match rest with
  | [] => Ret (Some s)
  | c :: rest' =>
      r ← parseStep sub o pattern i c s;
      match r with
      | None => Ret None
      | Some s' => parseLoop sub o pattern rest' (i + 1) s'
      end
  end.

(** [/((?:\\{2}){0,64})(\\?)\|/g]: backslash pairs, at most one more backslash and a bar. *)
Definition tailRe : re :=
  RSeq (RGroup 1 (RRepeat true 0 (Some 64%nat) (RRepeat true 2 (Some 2%nat) (rchar 92))))
  (RSeq (RGroup 2 (RRepeat true 0 (Some 1%nat) (rchar 92))) (rchar 124)).

Definition escapeTail (tail : jsstr) : jsstr :=
  replaceG tailRe (fun _ caps =>
    let g1 := default [] (caps !! 1%nat) in
    let g2 := default [] (caps !! 2%nat) in
    let g2 := if bool_decide (g2 = []) then [92] else g2 in
    g1 ++ g1 ++ g2 ++ js "|") tail.

(** The loop over the lists left open at the end. *)
Fixpoint unwindLists (stack : list plEntry) (re : jsstr) (magic : bool) : jsstr * bool :=
  match stack with
  | [] => (re, magic)
  | pl :: stack' =>
      let tail := escapeTail (sliceFrom re (pl_reStart pl + len (pl_open pl))) in
      let t := if pl_type pl =? 42 then star
               else if pl_type pl =? 63 then qmark
               else [92; pl_type pl] in
      unwindLists stack' (slice re 0 (pl_reStart pl) ++ t ++ js "\(" ++ tail) true
  end.

(** [/\)[+*?]?/]. *)
Definition closeParenRe : re :=
  RSeq (rchar 41) (RRepeat true 0 (Some 1%nat) (RSet (mkSet false [(43, 43); (42, 42); (63, 63)]))).

Fixpoint cleanAfter (n : nat) (s : jsstr) : jsstr :=
  match n with
  | O => s
  | S n => cleanAfter n (replaceFirst closeParenRe [] s)
  end.

(** One round of the loop over [negativeLists]. *)
Definition negativeList (isSub : bool) (re : jsstr) (nl : plEntry) : jsstr :=
  let nlBefore := slice re 0 (pl_reStart nl) in
  let nlFirst := slice re (pl_reStart nl) (pl_reEnd nl - 8) in
  let nlAfter := sliceFrom re (pl_reEnd nl) in
  let nlLast := slice re (pl_reEnd nl - 8) (pl_reEnd nl) ++ nlAfter in
  let openParensBefore := (length (split1 40 nlBefore) - 1)%nat in
  let nlAfter := cleanAfter openParensBefore nlAfter in
  let dollar := if bool_decide (nlAfter = []) && negb isSub then js "$" else [] in
  nlBefore ++ nlFirst ++ nlAfter ++ dollar ++ nlLast.

(** [globUnescape(s)]: [s.replace(/\\(.)/g, '$1')]. *)
Definition escapedRe : re := RSeq (rchar 92) (RGroup 1 rany).
Definition globUnescape (s : jsstr) : jsstr :=
  replaceG escapedRe (fun _ caps => default [] (caps !! 1%nat)) s.

(** [regExpEscape(s)]. *)
Definition isRegExpSpecial (c : Z) : bool := bool_decide (c ∈ js "-[]{}()*+?.,\^$|#") || isSpace c.
Definition regExpEscape (s : jsstr) : jsstr :=
  concat (map (fun c => if isRegExpSpecial c then [92; c] else [c]) s).

(** [patternStart]. *)
Definition patternStart (o : options) (pattern : jsstr) : jsstr :=
  if str_eqb (charAt pattern 0) (js ".") then []
  else if opt o "dot" then js "(?!(?:^|\/)\.{1,2}(?:$|\/))"
  else js "(?!\.)".

(** The source of the expression from the state at the end of the loop and of
    a class left open. *)
Definition finishRe (isSub : bool) (o : options) (pattern : jsstr) (s : pst) : jsstr * bool :=
  let '(re, magic) := unwindLists (p_stack s) (p_re s) (p_hasMagic s) in
  let s := clearStateChar (set_magic (set_re s re) magic) in
  let s := if p_escaping s then addRe s (js "\\") else s in
  let addPatternStart := bool_decide (head (p_re s) ∈ [Some 46; Some 91; Some 40]) in
  let re := fold_left (negativeList isSub) (p_negative s) (p_re s) in
  let re := if negb (bool_decide (re = [])) && p_hasMagic s then js "(?=.)" ++ re else re in
  (if addPatternStart then patternStart o pattern ++ re else re, p_hasMagic s).

Section CaseData.
(** The code units equal to a unit up to case, and [String.prototype.toLowerCase]. *)
Context (variants : Z -> list Z) (toLowerCase : jsstr -> jsstr).

(** The flag [i]: every set is closed under the variants of its units. *)
Definition foldSet (cs : charset) : charset :=
  mkSet (cs_neg cs)
    (cs_ranges cs ++
     concat (map (fun '(a, b) => concat (map (fun c => map (fun d => (d, d)) (variants c)) (zrange a b))) (cs_ranges cs))).

Fixpoint ignoreCase (r : re) : re :=
  match r with
  | RSet cs => RSet (foldSet cs)
  | RSeq r1 r2 => RSeq (ignoreCase r1) (ignoreCase r2)
  | RAlt r1 r2 => RAlt (ignoreCase r1) (ignoreCase r2)
  | RGroup n r => RGroup n (ignoreCase r)
  | RRepeat g a b r => RRepeat g a b (ignoreCase r)
  | RLook n r => RLook n (ignoreCase r)
  | _ => r
  end.

(** [new RegExp(source, flags)] with [flags] either ['i'] or empty. *)
Definition regExpWith (nocase : bool) (source : jsstr) : option re :=
  (if nocase then ignoreCase else id) <$> newRegExp source.

(** The expression that matches nothing, [new RegExp('$.')]. *)
Definition neverRe : re := RSeq (RSeq REmpty REol) rany.

(** [parse(pattern, isSub)]. *)
Fixpoint parse (fuel : nat) (o : options) (pattern : jsstr) (isSub : bool) : outcome part :=
  match fuel with
  | O => OutOfFuel
  | S fuel =>
      if 1024 * 64 <? len pattern then Throw "TypeError: pattern is too long"
      else if negb (opt o "noglobstar") && str_eqb pattern (js "**") then Ret PGlobstar
      else if bool_decide (pattern = []) then Ret (PStr [])
      else
        let sub cs := parse fuel o cs true in
        r ← parseLoop sub o pattern pattern 0 (parseInit o);
        match r with
        | None => Ret PFalse
        | Some s =>
            s ← if p_inClass s then
                  sp ← sub (substrFrom pattern (p_classStart s + 1));
                  Ret (set_magic (set_re s (substr (p_re s) 0 (p_reClassStart s) ++ js "\[" ++ sp0 sp))
                                 (p_hasMagic s || sp1 sp))
                else Ret s;
            let '(re, magic) := finishRe isSub o pattern s in
            if isSub then Ret (PSub re magic)
            else if negb magic then Ret (PStr (globUnescape pattern))
            else match regExpWith (opt o "nocase") (js "^" ++ re ++ js "$") with
                 | Some rx => Ret (PRegExp rx (Some re) (Some pattern))
                 | None => Ret (PRegExp neverRe None None)
                 end
        end
  end.

(** A matcher object.  [mm_regexp] is [None] for null, [Some None] for false. *)
Record Minimatch := mkMM {
  mm_options : options;
  mm_set : list (list part);
  mm_pattern : jsstr;
  mm_regexp : option (option re);
  mm_negate : bool;
  mm_comment : bool;
  mm_empty : bool;
  mm_globSet : list jsstr;
  mm_globParts : list (list jsstr)
}.

(** [parseNegate()]: the pattern after its leading exclamation marks. *)
Fixpoint countBangs (pattern : jsstr) : nat :=
  match pattern with
  | 33 :: pattern' => S (countBangs pattern')
  | _ => O
  end.

Definition parseNegate (m : Minimatch) : Minimatch :=
  if opt (mm_options m) "nonegate" then m
  else
    let negateOffset := countBangs (mm_pattern m) in
    mkMM (mm_options m) (mm_set m)
      (if (0 <? negateOffset)%nat then substrFrom (mm_pattern m) (Z.of_nat negateOffset) else mm_pattern m)
      (mm_regexp m) (Nat.odd negateOffset) (mm_comment m) (mm_empty m) (mm_globSet m) (mm_globParts m).

(** [/\{.*\}/]. *)
Fixpoint braceThenClose (s : jsstr) : bool :=
  match s with
  | [] => false
  | c :: s' => ((c =? OPEN) && closeOnLine s') || braceThenClose s'
  end.

(** The random digits of the markers of the brace expansion. *)
Context (r1 r2 r3 r4 r5 : jsstr).

(** [braceExpand(pattern, options)]. *)
Definition braceExpand (pattern : jsstr) (o : options) : outcome (list jsstr) :=
  if opt o "nobrace" || negb (braceThenClose pattern) then Ret [pattern]
  else expandTop r1 r2 r3 r4 r5 pattern.

Definition isPFalse (p : part) : bool := match p with PFalse => true | _ => false end.

(** [make()]. *)
Definition make (m : Minimatch) : outcome Minimatch :=
  let o := mm_options m in
  if negb (opt o "nocomment") && str_eqb (charAt (mm_pattern m) 0) (js "#") then
    Ret (mkMM o (mm_set m) (mm_pattern m) (mm_regexp m) (mm_negate m) true (mm_empty m) (mm_globSet m) (mm_globParts m))
  else if bool_decide (mm_pattern m = []) then
    Ret (mkMM o (mm_set m) (mm_pattern m) (mm_regexp m) (mm_negate m) (mm_comment m) true (mm_globSet m) (mm_globParts m))
  else
    let m := parseNegate m in
    globSet ← braceExpand (mm_pattern m) o;
    let globParts := map slashSplit globSet in
    set ← mapO (mapO (fun s => parse (S (length s)) o s false)) globParts;
    let set := filter (fun s => existsb isPFalse s = false) set in
    Ret (mkMM o set (mm_pattern m) (mm_regexp m) (mm_negate m) (mm_comment m) (mm_empty m) globSet globParts).

(** [new Minimatch(pattern, options)]; [None] is a pattern that is not a string. *)
Definition newMinimatch (pattern : option jsstr) (o : options) : outcome Minimatch :=
  match pattern with
  | None => Throw "TypeError: glob pattern string required"
  | Some pattern =>
      let pattern := toSlash (trim pattern) in
      make (mkMM o [] pattern None false false false [] [])
  end.

(** Is a path segment hidden from a globstar? *)
Definition dotBlocked (o : options) (f : jsstr) : bool :=
  str_eqb f (js ".") || str_eqb f (js "..") || (negb (opt o "dot") && str_eqb (charAt f 0) (js ".")).

(** The test of one segment against a pattern other than a globstar. *)
Definition partHit (o : options) (p : part) (f : jsstr) : bool :=
  match p with
  | PStr s => if opt o "nocase" then str_eqb (toLowerCase f) (toLowerCase s) else str_eqb f s
  | PRegExp r _ _ => re_test r f
  | _ => false
  end.

(** [matchOne(file, pattern, partial)]. *)
Fixpoint matchOne (o : options) (partial : bool) (file : list jsstr) (pattern : list part) {struct pattern} : bool :=
  match pattern with
  | [] =>
      match file with
      | [] => true
      | [f] => str_eqb f []
      | _ => false
      end
  | p :: pattern' =>
      match file with
      | [] => partial
      | f :: file' =>
          match p with
          | PFalse => false
          | PGlobstar =>
              match pattern' with
              | [] => forallb (fun f => negb (dotBlocked o f)) file
              | _ =>
                  (fix swallow (file : list jsstr) : bool :=
                     match file with
                     | [] => partial
                     | swallowee :: file' =>
                         if matchOne o partial file pattern' then true
                         else if dotBlocked o swallowee then false
                         else swallow file'
                     end) file
              end
          | _ => if partHit o p f then matchOne o partial file' pattern' else false
          end
      end
  end.

(** The last segment that is not empty, else the first one. *)
Definition baseOf (f : list jsstr) : jsstr :=
  match filter (fun s => s <> []) (rev f) with
  | s :: _ => s
  | [] => default [] (head f)
  end.

(** The loop over the pattern sets. *)
Definition anyHit (o : options) (partial : bool) (f : list jsstr) (set : list (list part)) : bool :=
  existsb (fun pattern =>
    let file := if opt o "matchBase" && bool_decide (length pattern = 1%nat) then [baseOf f] else f in
    matchOne o partial file pattern) set.

(** [match(f, partial)]. *)
Definition match_ (m : Minimatch) (f : jsstr) (partial : bool) : bool :=
  if mm_comment m then false
  else if mm_empty m then str_eqb f []
  else if str_eqb f (js "/") && partial then true
  else
    let o := mm_options m in
    let segs := slashSplit (toSlash f) in
    if anyHit o partial segs (mm_set m)
    then if opt o "flipNegate" then true else negb (mm_negate m)
    else if opt o "flipNegate" then false else mm_negate m.

(** [minimatch(p, pattern, options)]. *)
Definition minimatch (p : jsstr) (pattern : option jsstr) (o : options) : outcome bool :=
  match pattern with
  | None => Throw "TypeError: glob pattern string required"
  | Some pat =>
      if negb (opt o "nocomment") && str_eqb (charAt pat 0) (js "#") then Ret false
      else if bool_decide (trim pat = []) then Ret (str_eqb p [])
      else m ← newMinimatch pattern o; Ret (match_ m p false)
  end.

(** [minimatch.filter(pattern, options)]. *)
Definition filter_ (pattern : option jsstr) (o : options) (p : jsstr) : outcome bool := minimatch p pattern o.

(** [minimatch.defaults(def)] and the constructor it carries. *)
Definition defaults (def : options) (p : jsstr) (pattern : option jsstr) (o : options) : outcome bool :=
  if bool_decide (def = ∅) then minimatch p pattern o else minimatch p pattern (ext def o).
Definition defaultsMinimatch (def : options) (pattern : option jsstr) (o : options) : outcome Minimatch :=
  if bool_decide (def = ∅) then newMinimatch pattern o else newMinimatch pattern (ext def o).

(** [minimatch.match(list, pattern, options)]. *)
Definition matchList (l : list jsstr) (pattern : option jsstr) (o : options) : outcome (list jsstr) :=
  mm ← newMinimatch pattern o;
  let l := filter (fun f => match_ mm f false = true) l in
  Ret (if opt o "nonull" && bool_decide (l = []) then l ++ [default [] pattern] else l).

(** The source text of a part in [makeRe]. *)
Definition partSrc (twoStar : jsstr) (p : part) : jsstr :=
  match p with
  | PGlobstar => twoStar
  | PStr s => regExpEscape s
  | PRegExp _ src _ => default [] src
  | _ => []
  end.

(** [makeRe()]: the matcher with its cached expression, and the expression. *)
Definition makeReSource (m : Minimatch) : jsstr :=
  let o := mm_options m in
  let twoStar := if opt o "noglobstar" then star else if opt o "dot" then twoStarDot else twoStarNoDot in
  let src := join (js "|") (map (fun pattern => join (js "\/") (map (partSrc twoStar) pattern)) (mm_set m)) in
  let src := js "^(?:" ++ src ++ js ")$" in
  if mm_negate m then js "^(?!" ++ src ++ js ").*$" else src.

Definition makeRe (m : Minimatch) : Minimatch * option re :=
  match mm_regexp m with
  | Some r => (m, r)
  | None =>
      let r := if bool_decide (mm_set m = []) then None
               else regExpWith (opt (mm_options m) "nocase") (makeReSource m) in
      (mkMM (mm_options m) (mm_set m) (mm_pattern m) (Some r) (mm_negate m) (mm_comment m) (mm_empty m)
         (mm_globSet m) (mm_globParts m), r)
  end.

(** [minimatch.makeRe(pattern, options)]. *)
Definition makeReOf (pattern : option jsstr) (o : options) : outcome (option re) :=
  m ← newMinimatch pattern o; Ret (makeRe m).2.

End CaseData.
