(* ===== verification/MinimatchFacts.v ===== *)
(** Theorems about the glob matcher of [Minimatch]: the recursive matching of
    path segments against its declarative meaning, negation, literal patterns
    and patterns with a star. *)
From Stdlib Require Import ZArith Lia.
From stdpp Require Import base gmap strings list.
From S2P Require Import Prelude JsString JsRegExp Balanced BraceExpansion Minimatch.

Local Open Scope Z_scope.
Open Scope js_scope.

(** * Segments *)

Section Segments.
Context (toLowerCase : jsstr -> jsstr) (o : options).

Abbreviation hit := (partHit toLowerCase o).
Abbreviation m1 := (matchOne toLowerCase o).

(** What a list of segments means as a match of a list of parts: every part
    but a globstar takes one segment; a globstar takes any number of segments
    that are not hidden from it (at least one at the end of the pattern); a
    path may have one more, empty, segment (a trailing slash). *)
Inductive Matches : list jsstr -> list part -> Prop :=
| Matches_nil : Matches [] []
| Matches_trailing : Matches [[]] []
| Matches_part p f fs ps : hit p f = true -> Matches fs ps -> Matches (f :: fs) (p :: ps)
| Matches_rest f fs : Forall (fun g => dotBlocked o g = false) (f :: fs) -> Matches (f :: fs) [PGlobstar]
| Matches_globstar us f fs p ps :
    Forall (fun g => dotBlocked o g = false) us -> Matches (f :: fs) (p :: ps) ->
    Matches (us ++ f :: fs) (PGlobstar :: p :: ps).

(** The loop of a globstar that is followed by more parts. *)
Fixpoint swallow (partial : bool) (ps : list part) (file : list jsstr) : bool :=
  match file with
  | [] => partial
  | f :: fs => if m1 partial file ps then true else if dotBlocked o f then false else swallow partial ps fs
  end.

Lemma matchOne_globstar partial f fs p ps :
  m1 partial (f :: fs) (PGlobstar :: p :: ps) = swallow partial (p :: ps) (f :: fs).
Proof.
  assert (G : forall l, (fix sw (file : list jsstr) : bool :=
    match file with
    | [] => partial
    | g :: gs => if m1 partial file (p :: ps) then true else if dotBlocked o g then false else sw gs
    end) l = swallow partial (p :: ps) l); [|exact (G (f :: fs))].
  intros l. induction l as [|g gs IH]; [reflexivity|]. cbn [swallow]. rewrite <- IH. reflexivity.
Qed.

Lemma matchOne_part partial f fs p ps :
  p <> PGlobstar -> m1 partial (f :: fs) (p :: ps) = hit p f && m1 partial fs ps.
Proof. intros Hp. cbn [matchOne]. destruct p; try done; by destruct (hit _ f). Qed.

Lemma globstar_dec p : p = PGlobstar \/ p <> PGlobstar.
Proof. destruct p; auto; right; discriminate. Qed.

Lemma swallow_full p ps file :
  swallow false (p :: ps) file = true <->
  exists us f fs, file = us ++ f :: fs /\ Forall (fun g => dotBlocked o g = false) us /\ m1 false (f :: fs) (p :: ps) = true.
Proof.
  induction file as [|f fs IH]; cbn [swallow].
  { split; [done|]. intros (us & f & fs & E & _). by destruct us. }
  destruct (m1 false (f :: fs) (p :: ps)) eqn:Em.
  { split; [|done]. intros _. by exists [], f, fs. }
  split.
  - destruct (dotBlocked o f) eqn:Ed; [done|]. intros (us & g & gs & -> & Hu & Hm)%IH.
    exists (f :: us), g, gs. split; [done|]. split; [by constructor|done].
  - intros (us & g & gs & E & Hu & Hm). destruct us as [|u us]; simplify_eq/=; [congruence|].
    inversion Hu as [|? ? Hb Hu']; subst. rewrite Hb. apply IH. eauto 10.
Qed.

Lemma matchOne_complete file ps : Matches file ps -> m1 false file ps = true.
Proof.
  induction 1 as [| |p f fs ps Hh _ IH|f fs Hf|us f fs p ps Hu _ IH]; try done.
  - destruct p; try done; rewrite matchOne_part by done; by rewrite Hh, IH.
  - cbn [matchOne]. apply forallb_forall. intros g Hg. rewrite Forall_forall in Hf.
    by rewrite Hf by (by apply list_elem_of_In).
  - assert (Hs : swallow false (p :: ps) (us ++ f :: fs) = true) by (apply swallow_full; eauto 10).
    destruct us as [|u us]; cbn [app] in *; by rewrite <- matchOne_globstar in Hs.
Qed.

Lemma matchOne_sound file ps : m1 false file ps = true -> Matches file ps.
Proof.
  revert file. induction ps as [|p ps IH]; intros file Hm.
  { destruct file as [|f [|g fs]]; [constructor| |done]. apply str_eqb_eq in Hm. subst. constructor. }
  destruct file as [|f fs]; [by destruct p|].
  destruct (globstar_dec p) as [->|Hp].
  - destruct ps as [|p ps].
    + apply Matches_rest, Forall_forall. intros g Hg. apply list_elem_of_In in Hg.
      cbn [matchOne] in Hm. rewrite forallb_forall in Hm. by apply negb_true_iff, Hm.
    + rewrite matchOne_globstar in Hm. apply swallow_full in Hm as (us & g & gs & -> & Hu & Hm).
      apply Matches_globstar; [done|]. by apply IH.
  - rewrite matchOne_part in Hm by done. apply andb_true_iff in Hm as [Hh Hm]. constructor; auto.
Qed.

Lemma swallow_partial ps us rest :
  Forall (fun g => dotBlocked o g = false) us ->
  swallow true ps rest = true -> swallow true ps (us ++ rest) = true.
Proof.
  intros Hu Hr. induction Hu as [|u us Hb _ IH]; [done|]. cbn [app swallow]. rewrite Hb, IH.
  by destruct (m1 true _ ps).
Qed.

Lemma partial_prefix file more ps : Matches (file ++ more) ps -> m1 true file ps = true.
Proof.
  intros H. remember (file ++ more) as full eqn:E. revert file more E.
  induction H as [| |p f fs ps Hh _ IH|f fs Hf|us f fs p ps Hu _ IH]; intros file more E.
  - symmetry in E. by apply app_eq_nil in E as [-> _].
  - destruct file as [|g [|]]; simplify_eq/=; done.
  - destruct file as [|g file]; [done|]. injection E as <- E.
    destruct p; try done; rewrite matchOne_part by done; rewrite Hh; by rewrite (IH _ more).
  - destruct file as [|g file]; [done|]. rewrite E in Hf. apply Forall_app in Hf as [Hf _].
    cbn [matchOne]. apply forallb_forall. intros h Hg. rewrite Forall_forall in Hf.
    by rewrite Hf by (by apply list_elem_of_In).
  - assert (Hs : swallow true (p :: ps) file = true).
    { apply app_eq_inv in E as [(k & E1 & E2)|(k & E1 & E2)]; subst.
      - apply Forall_app in Hu as [Hu _]. rewrite <- (app_nil_r file). by apply swallow_partial.
      - apply swallow_partial; [done|]. destruct k as [|g k]; [done|]. injection E2 as <- E2.
        cbn [swallow]. by rewrite (IH (f :: k) more) by (simpl; congruence). }
    destruct file as [|g file]; [done|]. by rewrite matchOne_globstar.
Qed.

(** C16. [matchOne] decides the declarative meaning of a list of parts: outside
    partial mode it returns true exactly when the segments match. *)
Theorem matchOne_iff (file : list jsstr) (ps : list part) : matchOne toLowerCase o false file ps = true <-> Matches file ps.
Proof. split; [apply matchOne_sound | apply matchOne_complete]. Qed.

(** Pruning with partial mode is safe: if some continuation of a path
    matches the parts, then partial mode accepts the path itself, so that a
    traversal that descends only into accepted directories misses no match. *)
Lemma partial_mode_sound (file more : list jsstr) (ps : list part) :
  matchOne toLowerCase o false (file ++ more) ps = true -> matchOne toLowerCase o true file ps = true.
Proof. intros H%matchOne_sound. by eapply partial_prefix. Qed.

End Segments.

(** * Negation *)

Lemma dropWhile_length p s : (length (dropWhile p s) <= length s)%nat.
Proof. induction s as [|c s IH]; [done|]. cbn [dropWhile]. destruct (p c); simpl; lia. Qed.

Lemma dropWhile_head p s : (forall c t, s = c :: t -> p c = false) -> dropWhile p s = s.
Proof. destruct s as [|c s]; [done|]. intros H. cbn [dropWhile]. by rewrite (H c s). Qed.

(** A text that [trim] leaves alone neither starts nor ends with a space. *)
Lemma trim_id_ends s : trim s = s -> (forall c, head s = Some c -> isSpace c = false) /\ (forall c, last s = Some c -> isSpace c = false).
Proof.
  intros E. unfold trim in E. set (d := dropWhile isSpace s) in *.
  pose proof (dropWhile_length isSpace s) as H1. pose proof (dropWhile_length isSpace (rev d)) as H2.
  assert (HL : length s = length (dropWhile isSpace (rev d))) by (by rewrite <- E at 1; rewrite length_rev).
  rewrite length_rev in H2. split.
  - intros c Hc. destruct s as [|c' s]; [done|]. injection Hc as ->. destruct (isSpace c) eqn:Es; [|done].
    subst d. cbn [dropWhile] in H2, HL. rewrite Es in H2, HL. pose proof (dropWhile_length isSpace s). simpl in *. lia.
  - intros c Hc. assert (Hd : d = s).
    { subst d. destruct s as [|c' s]; [done|]. cbn [dropWhile] in *. destruct (isSpace c'); [|done].
      pose proof (dropWhile_length isSpace s). simpl in *. lia. }
    rewrite Hd in *. apply last_Some in Hc as [t ->]. rewrite rev_app_distr in HL. cbn [rev app dropWhile] in HL.
    destruct (isSpace c); [|done]. pose proof (dropWhile_length isSpace (rev t)) as H3.
    rewrite length_rev in H3. rewrite length_app in HL. simpl in HL. lia.
Qed.

Lemma trim_id s : (forall c, head s = Some c -> isSpace c = false) -> (forall c, last s = Some c -> isSpace c = false) -> trim s = s.
Proof.
  intros Hh Hl. unfold trim. rewrite (dropWhile_head _ s) by (intros c t ->; auto).
  rewrite dropWhile_head; [apply rev_involutive|]. intros c t E. apply Hl.
  rewrite <- (rev_involutive s), E. cbn [rev]. apply last_snoc.
Qed.

Lemma trim_bang pat : pat <> [] -> trim pat = pat -> trim (33 :: pat) = 33 :: pat.
Proof.
  intros Hne [_ Hl]%trim_id_ends. apply trim_id; [by intros c [= <-]|].
  intros c Hc. apply Hl. destruct pat; [done|]. by rewrite last_cons_cons in Hc.
Qed.

Lemma charAt_head s c : str_eqb (charAt s 0) [c] = bool_decide (head s = Some c).
Proof. destruct s as [|d s]; [done|]. unfold str_eqb. apply bool_decide_ext. change (charAt (d :: s) 0) with [d]. cbn [head]. split; intros E; by injection E as ->. Qed.

Section Negation.
Context (variants : Z -> list Z) (toLowerCase : jsstr -> jsstr) (r1 r2 r3 r4 r5 : jsstr).
Abbreviation mini := (minimatch variants toLowerCase r1 r2 r3 r4 r5).

Lemma toSlash_id s : toSlash s = s.
Proof. reflexivity. Qed.

(** Dropping the leading exclamation marks of a pattern. *)
Lemma bangs_suffix pat :
  (if (0 <? S (countBangs pat))%nat then substrFrom (33 :: pat) (Z.of_nat (S (countBangs pat))) else 33 :: pat) =
  (if (0 <? countBangs pat)%nat then substrFrom pat (Z.of_nat (countBangs pat)) else pat).
Proof.
  assert (Hs : forall s k, substrFrom s (Z.of_nat k) = drop k s).
  { intros s k. unfold substrFrom, substr. destruct (Z.ltb_spec (Z.of_nat k) 0); [lia|].
    rewrite Nat2Z.id. unfold len. rewrite Nat2Z.id. apply take_ge. rewrite length_drop. lia. }
  rewrite !Hs. by destruct (countBangs pat).
Qed.

(** An exclamation mark negates: for a trimmed pattern that is neither
    empty nor a comment, the pattern with one more leading exclamation mark
    matches exactly the paths that the pattern does not match (and fails
    exactly when it fails), unless the options say otherwise. *)
Lemma minimatch_negation (p pat : jsstr) (o : options) :
  opt o "nonegate" = false -> opt o "flipNegate" = false ->
  pat <> [] -> trim pat = pat -> head pat <> Some 35 ->
  minimatch variants toLowerCase r1 r2 r3 r4 r5 p (Some (33 :: pat)) o = (negb <$> minimatch variants toLowerCase r1 r2 r3 r4 r5 p (Some pat) o).
Proof.
  intros Hn Hf Hne Ht Hc. unfold minimatch, newMinimatch.
  rewrite (trim_bang pat Hne Ht), Ht, !toSlash_id, (bool_decide_false (pat = [])) by done.
  assert (Hc1 : forall b, b && str_eqb (charAt (33 :: pat) 0) (js "#") = false) by (intros b; apply andb_false_r).
  assert (Hc2 : forall b, b && str_eqb (charAt pat 0) (js "#") = false).
  { intros b. change (js "#") with [35]. rewrite charAt_head, bool_decide_false by done. apply andb_false_r. }
  rewrite Hc1, Hc2, bool_decide_false by done. unfold make. cbn [mm_options mm_pattern].
  rewrite Hc1, Hc2, !bool_decide_false by done.
  unfold parseNegate. cbn [mm_options mm_pattern mm_set mm_regexp mm_negate mm_comment mm_empty mm_globSet mm_globParts].
  rewrite Hn. cbn [mm_pattern countBangs]. rewrite bangs_suffix.
  destruct (braceExpand _ _ _ _ _ _ o) as [gs| |]; [|done..]. rewrite !bind_Ret.
  destruct (mapO _ _) as [set| |]; [|done..]. rewrite !bind_Ret. cbn [fmap outcome_fmap]. f_equal.
  unfold match_. cbn [mm_options mm_set mm_pattern mm_negate mm_comment mm_empty].
  rewrite Hf, andb_false_r, Nat.odd_succ, <- Nat.negb_odd. by destruct (anyHit _ _ _ _ _).
Qed.

End Negation.

(** * Literal characters *)

(** A character that [parse] copies, perhaps with a backslash, into the expression. *)
Definition globLit (c : Z) : bool :=
  negb (bool_decide (c ∈ js "/\?*+@!()|[]{}")) && negb (isSpace c).

Definition esc1 (c : Z) : jsstr := if reSpecials c then [92; c] else [c].
Definition escLit (s : jsstr) : jsstr := concat (map esc1 s).

Lemma globLit_not c :
  globLit c = true -> Forall (fun d => c <> d) [47; 92; 63; 42; 43; 64; 33; 40; 41; 124; 91; 93; 123; 125].
Proof.
  intros [H _]%andb_true_iff. apply negb_true_iff, bool_decide_eq_false in H.
  apply Forall_forall. intros d Hd ->. done.
Qed.

Ltac globlit H :=
  let H' := fresh in pose proof (globLit_not _ H) as H'; rewrite !Forall_cons in H'; destruct_and! H'.

Lemma addRe_app s a b : addRe (addRe s a) b = addRe s (a ++ b).
Proof. unfold addRe, set_re. cbn. by rewrite app_assoc. Qed.

Lemma parseStep_lit sub o pat i c s :
  globLit c = true -> p_escaping s = false -> p_inClass s = false -> p_stateChar s = None ->
  parseStep sub o pat i c s = Ret (Some (addRe s (esc1 c))).
Proof.
  intros Hc He Hi Hs. globlit Hc. unfold parseStep. rewrite He. cbn [andb].
  repeat match goal with |- context [c =? ?k] => destruct (Z.eqb_spec c k); [done|] end.
  rewrite bool_decide_false.
  2:{ intros Hin. change (js "?*+@!") with [63; 42; 43; 64; 33] in Hin.
    rewrite !elem_of_cons in Hin. destruct_or! Hin; try done. by apply not_elem_of_nil in Hin. }
  unfold caseDefault, clearStateChar. rewrite Hs, He, Hi, andb_false_r, andb_true_r. unfold esc1.
  destruct (reSpecials c); [apply (f_equal (fun x => Ret (Some x))), addRe_app | done].
Qed.

Lemma parseLoop_lit sub o pat rest i s :
  Forall (fun c => globLit c = true) rest -> p_escaping s = false -> p_inClass s = false -> p_stateChar s = None ->
  parseLoop sub o pat rest i s = Ret (Some (addRe s (escLit rest))).
Proof.
  intros H. revert i s. induction H as [|c rest Hc _ IH]; intros i s He Hi Hs; cbn [parseLoop].
  - f_equal. f_equal. destruct s. unfold addRe, set_re. cbn. by rewrite app_nil_r.
  - rewrite parseStep_lit, bind_Ret by done. rewrite IH by done. by rewrite addRe_app.
Qed.

(** [globUnescape] changes nothing without backslashes. *)
Lemma globUnescape_id s : Forall (fun c => c <> 92) s -> globUnescape s = s.
Proof.
  intros H. unfold globUnescape, replaceG. generalize (S (length s)) as n. generalize s at 1 as whole.
  intros whole n. revert s H. induction n as [|n IH]; intros s H; [done|].
  destruct H as [|c s Hc H]; [done|]. cbn [replaceAll].
  replace (matchHere whole escapedRe (c :: s)) with (@None mstate); [by rewrite IH|].
  unfold matchHere, escapedRe. cbn [mtch]. unfold rchar. cbn [mtch fst]. unfold inSet. cbn [cs_neg cs_ranges existsb].
  destruct (Z.leb_spec 92 c), (Z.leb_spec c 92); cbn; try done. lia.
Qed.

Lemma globLit_no_backslash s : Forall (fun c => globLit c = true) s -> Forall (fun c => c <> 92) s.
Proof. intros H. eapply Forall_impl; [exact H|]. intros c Hc. by globlit Hc. Qed.

Lemma parse_literal variants s :
  Forall (fun c => globLit c = true) s -> len s <= 65536 ->
  parse variants (S (length s)) ∅ s false = Ret (PStr s).
Proof.
  intros Hs Hl. cbn [parse]. destruct (Z.ltb_spec (1024 * 64) (len s)); [lia|].
  replace (negb (opt ∅ "noglobstar") && str_eqb s (js "**")) with false.
  2:{ symmetry. apply bool_decide_eq_false. intros ->. inversion Hs. done. }
  case_bool_decide; [by subst|]. rewrite parseLoop_lit, bind_Ret by done.
  cbn [addRe set_re p_inClass parseInit]. rewrite bind_Ret.
  set (st := addRe _ _). assert (Hm : (finishRe false ∅ s st).2 = false) by reflexivity.
  destruct (finishRe false ∅ s st) as [re magic]. cbn [snd] in Hm. subst magic. cbn [negb].
  by rewrite globUnescape_id by by apply globLit_no_backslash.
Qed.

Lemma splitRun_pieces (P : Z -> Prop) n b s :
  Forall (fun c => P c \/ c = 47) s -> (length s <= n)%nat ->
  Forall (fun w => Forall P w /\ (length w <= n)%nat) (splitRun isSlash b s).
Proof.
  intros H. revert b n. induction H as [|c s Hc _ IH]; intros b n Hn; cbn [splitRun length] in *.
  { constructor; [|done]. split; [done|simpl; lia]. }
  unfold isSlash at 1. destruct (Z.eqb_spec c 47) as [->|Hne].
  - destruct b; [apply IH; lia|]. constructor; [split; [done|simpl; lia]|]. apply IH. lia.
  - destruct Hc as [Hc|]; [|done]. destruct n as [|n]; [lia|]. specialize (IH false n ltac:(lia)).
    assert (Hw : forall ws, Forall (fun w => Forall P w /\ (length w <= n)%nat) ws ->
      Forall (fun w => Forall P w /\ (length w <= S n)%nat) ws).
    { intros ws Hws. eapply Forall_impl; [exact Hws|]. intros w [? ?]. split; [done|lia]. }
    destruct (splitRun isSlash false s) as [|w ws].
    + constructor; [|done]. split; [by repeat constructor|simpl; lia].
    + inversion IH as [|? ? [Hw1 Hw2] Hws]; subst. constructor; [split; [by constructor|simpl; lia]|auto].
Qed.

(** A pattern of literal characters and slashes. *)
Definition litPath (s : jsstr) : Prop :=
  s <> [] /\ Forall (fun c => globLit c = true \/ c = 47) s /\ head s <> Some 35 /\ len s <= 65536.

Lemma globLit_space c : globLit c = true \/ c = 47 -> isSpace c = false.
Proof. intros [[_ H]%andb_true_iff| ->]; [by apply negb_true_iff in H|done]. Qed.

Lemma litPath_trim s : litPath s -> trim s = s.
Proof.
  intros (_ & H & _). rewrite Forall_forall in H. apply trim_id; intros c Hc; apply globLit_space, H.
  - destruct s; simplify_eq/=. apply list_elem_of_here.
  - apply last_Some in Hc as [t ->]. set_solver.
Qed.

Lemma braceThenClose_none s : Forall (fun c => c <> OPEN) s -> braceThenClose s = false.
Proof. induction 1 as [|c s Hc _ IH]; [done|]. cbn [braceThenClose]. rewrite IH. by destruct (Z.eqb_spec c OPEN). Qed.

Lemma mapO_Ret {A B} (f : A -> outcome B) (g : A -> B) l : Forall (fun x => f x = Ret (g x)) l -> mapO f l = Ret (map g l).
Proof. induction 1 as [|x l Hx _ IH]; [done|]. cbn [mapO]. by rewrite Hx, bind_Ret, IH. Qed.

Section Literal.
Context (variants : Z -> list Z) (toLowerCase : jsstr -> jsstr) (r1 r2 r3 r4 r5 : jsstr).
Abbreviation mini := (minimatch variants toLowerCase r1 r2 r3 r4 r5).

(** Building a matcher for a pattern that is neither a comment nor empty nor
    negated and has no braces: the parts of its segments. *)
Lemma newMinimatch_plain s set :
  trim s = s -> s <> [] -> head s <> Some 35 -> head s <> Some 33 -> Forall (fun c => c <> OPEN) s ->
  mapO (fun w => parse variants (S (length w)) ∅ w false) (slashSplit s) = Ret set ->
  existsb isPFalse set = false ->
  newMinimatch variants r1 r2 r3 r4 r5 (Some s) ∅ =
    Ret (mkMM ∅ [set] s None false false false [s] [slashSplit s]).
Proof.
  intros Ht Hne Hh Hb Ho Hset Hf. unfold newMinimatch. rewrite Ht, toSlash_id. unfold make. cbn [mm_options mm_pattern].
  change (js "#") with [35]. rewrite charAt_head, bool_decide_false, andb_false_r, bool_decide_false by done.
  assert (Hbangs : countBangs s = 0%nat).
  { destruct s as [|c s]; [done|]. simpl in Hb. cbn [countBangs]. repeat case_match; simplify_eq; done. }
  assert (Hbr : braceExpand r1 r2 r3 r4 r5 s ∅ = Ret [s]).
  { unfold braceExpand. by rewrite braceThenClose_none. }
  unfold parseNegate. change (opt _ "nonegate") with false. cbn [mm_options mm_pattern].
  rewrite Hbangs. change (0 <? 0)%nat with false. cbn [mm_pattern mm_regexp mm_negate mm_comment mm_empty].
  rewrite Hbr, bind_Ret. cbn [map mapO]. rewrite Hset, !bind_Ret.
  by rewrite filter_cons, decide_True, filter_nil.
Qed.

Lemma minimatch_plain s p set :
  trim s = s -> s <> [] -> head s <> Some 35 -> head s <> Some 33 -> Forall (fun c => c <> OPEN) s ->
  mapO (fun w => parse variants (S (length w)) ∅ w false) (slashSplit s) = Ret set ->
  existsb isPFalse set = false ->
  mini p (Some s) ∅ = Ret (matchOne toLowerCase ∅ false (slashSplit p) set).
Proof.
  intros. unfold minimatch. change (js "#") with [35]. rewrite charAt_head, bool_decide_false, andb_false_r by done.
  rewrite H, bool_decide_false by done. rewrite (newMinimatch_plain s set) by done. rewrite bind_Ret.
  unfold match_. cbn [mm_comment mm_empty mm_options mm_set mm_negate]. rewrite andb_false_r, toSlash_id.
  unfold anyHit. cbn [existsb opt lookup]. rewrite orb_false_r.
  change (opt ∅ "matchBase") with false. change (opt ∅ "flipNegate") with false. cbn [andb negb].
  by destruct (matchOne _ _ _ _ _).
Qed.

Lemma matchOne_strings segs qs :
  matchOne toLowerCase ∅ false segs (map PStr qs) = true <-> segs = qs \/ segs = qs ++ [[]].
Proof.
  revert segs. induction qs as [|q qs IH]; intros segs; cbn [map].
  - destruct segs as [|f [|g fs]]; cbn [matchOne app].
    + naive_solver.
    + rewrite str_eqb_eq. naive_solver.
    + naive_solver.
  - destruct segs as [|f fs]; [naive_solver|]. rewrite matchOne_part by done.
    rewrite andb_true_iff, IH. cbn [partHit]. change (opt ∅ "nocase") with false. cbn beta iota.
    rewrite str_eqb_eq. naive_solver.
Qed.

(** A literal pattern matches itself and nothing else: with the default
    options a pattern without special characters matches exactly the paths
    that have the same segments, up to repeated slashes and one trailing
    slash. *)
Lemma literal_pattern_exact (s p : jsstr) :
  litPath s ->
  exists b, minimatch variants toLowerCase r1 r2 r3 r4 r5 p (Some s) ∅ = Ret b /\
    (b = true <-> slashSplit p = slashSplit s \/ slashSplit p = slashSplit s ++ [[]]).
Proof.
  intros Hs. pose proof (litPath_trim s Hs) as Ht. destruct Hs as (Hne & Hc & Hh & Hl).
  exists (matchOne toLowerCase ∅ false (slashSplit p) (map PStr (slashSplit s))).
  split; [|apply matchOne_strings]. apply minimatch_plain; try done.
  - intros E. destruct s; simplify_eq/=. inversion Hc as [|? ? [Hc'|Hc'] _]; subst; done.
  - eapply Forall_impl; [exact Hc|]. intros c [Hc'| ->]; [|done]. by globlit Hc'.
  - apply mapO_Ret. eapply Forall_impl; [apply (splitRun_pieces (fun c => globLit c = true) (length s)); [exact Hc|done]|].
    intros w [Hw1 Hw2]. apply parse_literal; [done|]. unfold len in *. lia.
  - generalize (slashSplit s). intros l. by induction l.
Qed.

End Literal.

(** * A star and a literal suffix *)

(** The matcher of a sequence of literal characters before a continuation. *)
Fixpoint strip (lit s : jsstr) : option jsstr :=
  match lit, s with
  | [], _ => Some s
  | c :: lit', d :: s' => if c =? d then strip lit' s' else None
  | _ :: _, [] => None
  end.

Definition litSeq (alt : re) (lit : jsstr) : re := fold_left (fun a c => RSeq a (rchar c)) lit alt.

Lemma strip_Some lit s t : strip lit s = Some t <-> s = lit ++ t.
Proof.
  revert s. induction lit as [|c lit IH]; intros s; cbn [strip app].
  - split; [by intros [= ->] | by intros ->].
  - destruct s as [|d s]; [done|]. destruct (Z.eqb_spec c d) as [<-|Hne].
    + rewrite IH. split; [by intros ->|by intros [= ->]].
    + split; [done|]. congruence.
Qed.

Lemma rchar_mtch whole c x k :
  mtch whole (rchar c) x k = match x.1 with d :: rest => if c =? d then k (rest, x.2) else None | [] => None end.
Proof.
  unfold rchar. cbn [mtch]. destruct x.1 as [|d rest]; [done|]. unfold inSet. cbn [cs_neg cs_ranges existsb].
  destruct (Z.eqb_spec c d), (Z.leb_spec c d), (Z.leb_spec d c); cbn; try done; lia.
Qed.

Lemma mtch_litSeq whole lit alt x k :
  mtch whole (RSeq (litSeq alt lit) REol) x k =
  mtch whole (litSeq alt lit) x (fun y => match y.1 with [] => k y | _ => None end).
Proof. reflexivity. Qed.

Section MatcherExt.
Context (whole : jsstr).

Lemma repeatMatch_ext n body gs greedy min max x c c' :
  (forall y, c y = c' y) -> (forall y d d', (forall z, d z = d' z) -> body y d = body y d') ->
  repeatMatch n body gs greedy min max x c = repeatMatch n body gs greedy min max x c'.
Proof.
  intros Hc Hb. revert min max x. induction n as [|n IH]; intros min max x; [done|]. cbn [repeatMatch].
  assert (Hd : forall x' mx, body x' (fun y => if bool_decide (min = 0%nat) && (len y.1 =? len x.1) then None
                 else repeatMatch n body gs greedy (min - 1) mx y c) =
               body x' (fun y => if bool_decide (min = 0%nat) && (len y.1 =? len x.1) then None
                 else repeatMatch n body gs greedy (min - 1) mx y c')).
  { intros x' mx. apply Hb. intros z. case_match; auto. }
  destruct max as [[|k]|]; [apply Hc| |]; rewrite Hd, Hc; done.
Qed.

(** The matcher depends on the values of its continuation only. *)
Lemma mtch_ext r x c c' : (forall y, c y = c' y) -> mtch whole r x c = mtch whole r x c'.
Proof.
  revert x c c'. induction r as [| |r1 IH1 r2 IH2|r1 IH1 r2 IH2|n r IH|g a b r IH|neg r IH| |]; intros x c c' Hc; cbn [mtch].
  - done.
  - destruct x.1; [done|]. by rewrite Hc.
  - apply IH1. intros y. by apply IH2.
  - by rewrite (IH1 x c c' Hc), (IH2 x c c' Hc).
  - apply IH. intros y. apply Hc.
  - apply repeatMatch_ext; [done|]. intros y d d' Hd. by apply IH.
  - destruct neg; case_match; auto.
  - by rewrite Hc.
  - by rewrite Hc.
Qed.

Lemma mtch_lit lit alt x k :
  mtch whole (litSeq alt lit) x k =
  mtch whole alt x (fun y => match strip lit y.1 with Some t => k (t, y.2) | None => None end).
Proof.
  revert alt. induction lit as [|c lit IH]; intros alt; cbn [litSeq fold_left strip].
  - apply mtch_ext. by intros [t caps].
  - fold (litSeq (RSeq alt (rchar c)) lit). rewrite IH. cbn [mtch]. apply mtch_ext. intros y.
    rewrite rchar_mtch. destruct y as [[|d rest] caps]; [done|]. cbn [fst snd]. by destruct (c =? d).
Qed.

(** A lazy star over a set: some prefix inside the set, then the continuation. *)
Lemma lazyStar cs n s caps k :
  (length s < n)%nat ->
  is_Some (repeatMatch n (mtch whole (RSet cs)) [] false 0 None (s, caps) k) <->
  exists u v, s = u ++ v /\ Forall (fun c => inSet cs c = true) u /\ is_Some (k (v, caps)).
Proof.
  revert s. induction n as [|n IH]; intros s Hn; [lia|]. cbn [repeatMatch fst snd foldr].
  destruct (k (s, caps)) as [z|] eqn:Ek.
  { split; [|done]. intros _. exists [], s. rewrite Ek. by split; [|split; [constructor|]]. }
  cbn [mtch fst]. destruct s as [|c s].
  { split; [by intros [? ?]|]. intros (u & v & E & _ & Hk). symmetry in E. apply app_eq_nil in E as [-> ->].
    rewrite Ek in Hk. by destruct Hk. }
  assert (Hl : (len s =? len (c :: s)) = false) by (apply Z.eqb_neq; rewrite len_cons; lia).
  destruct (inSet cs c) eqn:Ec.
  - cbn [bool_decide fst andb]. rewrite Hl, andb_false_r. cbn [option_map]. simpl in Hn.
    rewrite IH by lia. split.
    + intros (u & v & -> & Hu & Hk). exists (c :: u), v. split; [done|]. split; [by constructor|done].
    + intros (u & v & E & Hu & Hk). destruct u as [|d u]; cbn [app] in E.
      * subst v. rewrite Ek in Hk. by destruct Hk.
      * injection E as <- ->. inversion Hu; subst. eauto 10.
  - split; [by intros [? ?]|]. intros (u & v & E & Hu & Hk). destruct u as [|d u]; cbn [app] in E.
    + subst v. rewrite Ek in Hk. by destruct Hk.
    + injection E as <- ->. inversion Hu; congruence.
Qed.

End MatcherExt.

(** The expression of a leading star, up to the star. *)
Definition starAlt : re :=
  RSeq (RSeq (RSeq (RSeq REmpty RBol) (RLook true (RSeq REmpty (rchar 46)))) (RLook false (RSeq REmpty rany)))
       (RRepeat false 0 None (RSet (mkSet true [(47, 47)]))).

(** Characters after which the parser of expressions sees no quantifier. *)
Lemma quantify_none r s :
  head s ∉ [Some 42; Some 43; Some 63; Some 123] -> quantify r s = (r, s).
Proof. intros H. unfold quantify. repeat case_match; subst; try done; exfalso; apply H; set_solver. Qed.

Lemma reSpecials_lit c : globLit c = true -> reSpecials c = true -> c = 46 \/ c = 94 \/ c = 36.
Proof.
  intros H1 H2%bool_decide_eq_true. globlit H1.
  change (js "().*{}+?[]^$\!") with [40; 41; 46; 42; 123; 125; 43; 63; 91; 93; 94; 36; 92; 33] in H2.
  rewrite !elem_of_cons in H2. destruct_or! H2; auto; try done. by apply not_elem_of_nil in H2.
Qed.

Lemma reSpecials_not c : reSpecials c = false -> Forall (fun d => c <> d) [40; 41; 46; 42; 123; 125; 43; 63; 91; 93; 94; 36; 92; 33].
Proof. intros H%bool_decide_eq_false. apply Forall_forall. intros d Hd ->. done. Qed.

Lemma escLit_head lit rest :
  Forall (fun c => globLit c = true) lit -> head rest ∉ [Some 42; Some 43; Some 63; Some 123] ->
  head (escLit lit ++ rest) ∉ [Some 42; Some 43; Some 63; Some 123].
Proof.
  intros H Hr. destruct H as [|c lit Hc _]; [done|]. unfold escLit, esc1. cbn [map concat].
  globlit Hc. destruct (reSpecials c); cbn [app head]; set_solver.
Qed.

Lemma parseRe_plain n c s g alt :
  globLit c = true -> reSpecials c = false -> head s ∉ [Some 42; Some 43; Some 63; Some 123] ->
  parseRe (S n) (c :: s) g alt = parseRe n s g (RSeq alt (rchar c)).
Proof.
  intros Hc Hs Hh. globlit Hc. pose proof (reSpecials_not c Hs) as Hn. rewrite !Forall_cons in Hn. destruct_and! Hn.
  cbn [parseRe]. repeat match goal with |- context [c =? ?k] => destruct (Z.eqb_spec c k); [done|] end.
  cbn [orb]. by rewrite quantify_none.
Qed.

Lemma parseRe_special n c s g alt :
  c = 46 \/ c = 94 \/ c = 36 -> head s ∉ [Some 42; Some 43; Some 63; Some 123] ->
  parseRe (S n) (92 :: c :: s) g alt = parseRe n s g (RSeq alt (rchar c)).
Proof.
  intros Hc Hh. cbn [parseRe]. rewrite quantify_none by done. destruct Hc as [->|[->| ->]]; reflexivity.
Qed.

Lemma parseRe_lit n lit g alt :
  Forall (fun c => globLit c = true) lit -> (length lit + 2 <= n)%nat ->
  parseRe n (escLit lit ++ [36]) g alt = Some (RSeq (litSeq alt lit) REol, [], g).
Proof.
  intros H. revert n alt. induction H as [|c lit Hc Hl IH]; intros n alt Hn.
  { destruct n as [|[|n]]; simpl in Hn; [lia..|]. reflexivity. }
  destruct n as [|n]; [simpl in Hn; lia|]. simpl in Hn.
  assert (Hh : head (escLit lit ++ [36]) ∉ [Some 42; Some 43; Some 63; Some 123]).
  { apply escLit_head; [done|]. set_solver. }
  unfold escLit. cbn [map concat]. fold (escLit lit). unfold esc1. destruct (reSpecials c) eqn:Es; cbn [app].
  - rewrite parseRe_special by (done || by apply reSpecials_lit). rewrite IH by lia. reflexivity.
  - rewrite parseRe_plain by done. rewrite IH by lia. reflexivity.
Qed.

Lemma escLit_length lit : (length lit <= length (escLit lit))%nat.
Proof.
  induction lit as [|c lit IH]; [done|]. unfold escLit. cbn [map concat]. fold (escLit lit). rewrite length_app.
  unfold esc1. destruct (reSpecials c); simpl; lia.
Qed.

(** The source of a leading star, one construct at a time. *)
Lemma parseRe_bol n s g alt : parseRe (S n) (94 :: s) g alt = parseRe n s g (RSeq alt RBol).
Proof. reflexivity. Qed.

Lemma parseRe_noDot n s g alt :
  head s ∉ [Some 42; Some 43; Some 63; Some 123] ->
  parseRe (S (S (S n))) (js "(?!\.)" ++ s) g alt = parseRe (S (S n)) s g (RSeq alt (RLook true (RSeq REmpty (rchar 46)))).
Proof.
  intros H. change (js "(?!\.)" ++ s) with ([40; 63; 33; 92; 46; 41] ++ s). remember (S (S n)) as k eqn:Ek.
  cbn [parseRe app Z.eqb Pos.eqb].
  replace (parseRe k (92 :: 46 :: 41 :: s) g REmpty) with (Some (RSeq REmpty (rchar 46), 41 :: s, g)) by (by subst k).
  cbn beta iota. by rewrite quantify_none.
Qed.

Lemma parseRe_some n s g alt :
  head s ∉ [Some 42; Some 43; Some 63; Some 123] ->
  parseRe (S (S (S n))) (js "(?=.)" ++ s) g alt = parseRe (S (S n)) s g (RSeq alt (RLook false (RSeq REmpty rany))).
Proof.
  intros H. change (js "(?=.)" ++ s) with ([40; 63; 61; 46; 41] ++ s). remember (S (S n)) as k eqn:Ek.
  cbn [parseRe app Z.eqb Pos.eqb].
  replace (parseRe k (46 :: 41 :: s) g REmpty) with (Some (RSeq REmpty rany, 41 :: s, g)) by (by subst k).
  cbn beta iota. by rewrite quantify_none.
Qed.

Lemma parseRe_lazyStar n s g alt :
  parseRe (S n) (js "[^/]*?" ++ s) g alt = parseRe n s g (RSeq alt (RRepeat false 0 None (RSet (mkSet true [(47, 47)])))).
Proof.
  change (js "[^/]*?" ++ s) with ([91; 94; 47; 93; 42; 63] ++ s). cbn [parseRe app Z.eqb Pos.eqb].
  replace (parseClass _ (47 :: 93 :: 42 :: 63 :: s) None false []) with (Some ([(47, 47)], 42 :: 63 :: s)) by done.
  reflexivity.
Qed.

Lemma newRegExp_star lit :
  Forall (fun c => globLit c = true) lit ->
  newRegExp (js "^(?!\.)(?=.)[^/]*?" ++ escLit lit ++ [36]) = Some (RSeq (litSeq starAlt lit) REol).
Proof.
  intros H. unfold newRegExp. pose proof (escLit_length lit) as Hl.
  pose proof (fun n g alt Hn => parseRe_lit n lit g alt H Hn) as HP.
  change (js "^(?!\.)(?=.)[^/]*?" ++ escLit lit ++ [36])
    with (94 :: (js "(?!\.)" ++ (js "(?=.)" ++ (js "[^/]*?" ++ (escLit lit ++ [36]))))).
  set (t := escLit lit ++ [36]) in *. cbn [length]. rewrite !length_app.
  change (length (js "(?!\.)")) with 6%nat. change (length (js "(?=.)")) with 5%nat.
  change (length (js "[^/]*?")) with 6%nat.
  assert (Ht : (length lit + 1 <= length t)%nat) by (unfold t; rewrite length_app; simpl; lia).
  replace (S (S (6 + (5 + (6 + length t)))))%nat with (S (S (S (S (S (14 + length t)))))) by lia.
  rewrite parseRe_bol, parseRe_noDot, parseRe_some by (simpl; set_solver).
  rewrite parseRe_lazyStar. fold starAlt. by rewrite HP by lia.
Qed.

(** The names that a star and a literal suffix stand for: not empty, not
    starting with a dot or a line terminator, the star holding no slash. *)
Definition starName (lit p : jsstr) : Prop :=
  exists c u, head p = Some c /\ c <> 46 /\ isLineTerminator c = false /\
    p = u ++ lit /\ Forall (fun d => d <> 47) u.

Lemma rany_line c : inSet (mkSet true [(10, 10); (13, 13); (8232, 8233)]) c = negb (isLineTerminator c).
Proof.
  unfold inSet, isLineTerminator. cbn [cs_neg cs_ranges existsb xorb]. rewrite orb_false_r.
  destruct (Z.leb_spec 10 c), (Z.leb_spec c 10), (Z.leb_spec 13 c), (Z.leb_spec c 13), (Z.leb_spec 8232 c),
    (Z.leb_spec c 8233), (Z.eqb_spec c 10), (Z.eqb_spec c 13), (Z.eqb_spec c 8232), (Z.eqb_spec c 8233); try done; lia.
Qed.

Lemma notSlash_set c : inSet (mkSet true [(47, 47)]) c = true <-> c <> 47.
Proof.
  unfold inSet. cbn [cs_neg cs_ranges existsb xorb].
  destruct (Z.leb_spec 47 c), (Z.leb_spec c 47); cbn; split; try done; lia.
Qed.

(** Only the start of the input can match an expression that starts with [^]. *)
Lemma execFrom_bol whole r lit rest i :
  (forall x k, len x.1 < len whole -> mtch whole r x k = None) -> len rest < len whole ->
  execFrom whole (RSeq (litSeq r lit) REol) rest i = None.
Proof.
  intros Hr. revert i. induction rest as [|c rest IH]; intros i Hl; cbn [execFrom];
    unfold matchHere; rewrite mtch_litSeq, mtch_lit, Hr by done; [done|].
  apply IH. rewrite len_cons in Hl. lia.
Qed.

Lemma star_test lit p : re_test (RSeq (litSeq starAlt lit) REol) p = true <-> starName lit p.
Proof.
  assert (Hbol : forall x k, len x.1 < len p -> mtch p starAlt x k = None).
  { intros x k Hx. unfold starAlt. cbn [mtch]. replace (len x.1 =? len p) with false; [done|].
    symmetry. apply Z.eqb_neq. lia. }
  assert (E : re_test (RSeq (litSeq starAlt lit) REol) p = true <->
              is_Some (mtch p (RSeq (litSeq starAlt lit) REol) (p, ∅) Some)).
  { unfold re_test, exec. destruct p as [|c p].
    - cbn [execFrom]. unfold matchHere. destruct (mtch _ _ _ _) as [[? ?]|]; split; try done; by intros [? ?].
    - cbn [execFrom]. unfold matchHere. destruct (mtch _ _ (c :: p, ∅) _) as [[? ?]|]; [by split|].
      rewrite execFrom_bol by (done || rewrite len_cons; lia). split; [done|by intros [? ?]]. }
  rewrite E, mtch_litSeq, mtch_lit. unfold starAlt.
  set (notSlash := RSet (mkSet true [(47, 47)])). cbn [mtch fst]. rewrite Z.eqb_refl.
  rewrite rchar_mtch. cbn [fst]. destruct p as [|c p].
  { cbn [mtch rany fst]. split; [by intros [? ?]|]. by intros (? & ? & ? & _). }
  unfold rany. cbn [mtch fst]. rewrite rany_line. destruct (Z.eqb_spec 46 c) as [<-|Hdot].
  { split; [by intros [? ?]|]. intros (? & ? & [= <-] & ? & _). done. }
  destruct (isLineTerminator c) eqn:Ec; cbn [negb snd].
  { split; [by intros [? ?]|]. intros (? & ? & [= <-] & ? & ? & _). congruence. }
  change (groups notSlash) with (@nil nat). unfold notSlash. rewrite lazyStar by (cbn [length]; lia). split.
  - intros (u & v & Ep & Hu & Hk). exists c, u. split_and!; try done.
    + rewrite Ep. cbn [fst] in Hk. destruct (strip lit v) as [t|] eqn:Es; [|by destruct Hk].
      apply strip_Some in Es. destruct t; [by rewrite app_nil_r in Es; subst|by destruct Hk].
    + eapply Forall_impl; [exact Hu|]. intros d. apply notSlash_set.
  - intros (c' & u & [= <-] & _ & _ & Ep & Hu). exists u, lit. split_and!; [done| |].
    + eapply Forall_impl; [exact Hu|]. intros d. apply notSlash_set.
    + cbn [fst snd]. replace (strip lit lit) with (Some (@nil Z)); [done|].
      symmetry. apply strip_Some. by rewrite app_nil_r.
Qed.

Lemma clear_star s : p_stateChar s = Some 42 -> clearStateChar s = set_stateChar (set_magic (addRe s star) true) None.
Proof. intros E. unfold clearStateChar. by rewrite E. Qed.

(** The loop of [parse] on a star and a literal suffix, up to a pending star. *)
Lemma parse_star variants lit :
  Forall (fun c => globLit c = true) lit -> len lit < 65536 ->
  parse variants (S (length (42 :: lit))) ∅ (42 :: lit) false =
    Ret (PRegExp (RSeq (litSeq starAlt lit) REol) (Some (js "(?!\.)(?=.)[^/]*?" ++ escLit lit)) (Some (42 :: lit))).
Proof.
  intros H Hl. cbn [parse]. rewrite len_cons. destruct (Z.ltb_spec (1024 * 64) (len lit + 1)); [lia|].
  replace (negb (opt ∅ "noglobstar") && str_eqb (42 :: lit) (js "**")) with false.
  2:{ symmetry. apply bool_decide_eq_false. intros [= ->]. inversion H. done. }
  rewrite bool_decide_false by done. cbn [parseLoop].
  set (sub := fun cs => parse variants (length (42 :: lit)) ∅ cs true).
  change (parseStep sub ∅ (42 :: lit) 0 42 (parseInit ∅)) with (Ret (Some (set_stateChar (parseInit ∅) (Some 42)))).
  rewrite bind_Ret.
  assert (Hloop : exists s, parseLoop sub ∅ (42 :: lit) lit (0 + 1) (set_stateChar (parseInit ∅) (Some 42)) = Ret (Some s) /\
    p_inClass s = false /\ finishRe false ∅ (42 :: lit) s = (js "(?!\.)(?=.)[^/]*?" ++ escLit lit, true)).
  { destruct H as [|c lit Hc H]; [eexists; split; [reflexivity|by split]|].
    exists (addRe (set_stateChar (set_magic (addRe (parseInit ∅) star) true) None) (escLit (c :: lit))).
    split; [|by split]. cbn [parseLoop].
    replace (parseStep sub ∅ (42 :: c :: lit) (0 + 1) c (set_stateChar (parseInit ∅) (Some 42)))
      with (parseStep sub ∅ (42 :: c :: lit) (0 + 1) c (set_stateChar (set_magic (addRe (parseInit ∅) star) true) None)).
    - rewrite parseStep_lit, bind_Ret by done. rewrite parseLoop_lit by done. by rewrite addRe_app.
    - globlit Hc. unfold parseStep. cbn [p_escaping andb].
      repeat match goal with |- context [c =? ?k] => destruct (Z.eqb_spec c k); [done|] end.
      case_bool_decide as Hin; [|reflexivity].
      change (js "?*+@!") with [63; 42; 43; 64; 33] in Hin. rewrite !elem_of_cons in Hin.
      destruct_or! Hin; try done. }
  destruct Hloop as (s & -> & Hcl & Hfin). rewrite bind_Ret, Hcl, bind_Ret, Hfin. cbn [negb].
  change (opt ∅ "nocase") with false. unfold regExpWith. cbn beta iota.
  rewrite <- app_assoc. change (js "^" ++ js "(?!\.)(?=.)[^/]*?" ++ escLit lit ++ js "$")
    with (js "^(?!\.)(?=.)[^/]*?" ++ escLit lit ++ [36]).
  by rewrite newRegExp_star.
Qed.

Lemma slashSplit_one s : Forall (fun c => c <> 47) s -> slashSplit s = [s].
Proof.
  unfold slashSplit. induction 1 as [|c s Hc _ IH]; [done|]. cbn [splitRun]. unfold isSlash at 1.
  destruct (Z.eqb_spec c 47); [done|]. by rewrite IH.
Qed.

Section Star.
Context (variants : Z -> list Z) (toLowerCase : jsstr -> jsstr) (r1 r2 r3 r4 r5 : jsstr).
Abbreviation mini := (minimatch variants toLowerCase r1 r2 r3 r4 r5).

Lemma one_regexp p r src glob :
  Forall (fun c => c <> 47) p ->
  matchOne toLowerCase ∅ false (slashSplit p) [PRegExp r src glob] = re_test r p.
Proof.
  intros Hp. rewrite slashSplit_one, matchOne_part by done. cbn [partHit matchOne]. apply andb_true_r.
Qed.

(** A star: with the default options the pattern [*] followed by literal
    characters matches a name exactly when the name ends in these characters,
    is not empty and does not start with a dot (or a line terminator). *)
Lemma star_suffix (lit p : jsstr) :
  Forall (fun c => globLit c = true) lit -> len lit < 65536 -> Forall (fun c => c <> 47) p ->
  exists b, minimatch variants toLowerCase r1 r2 r3 r4 r5 p (Some (42 :: lit)) ∅ = Ret b /\ (b = true <-> starName lit p).
Proof.
  intros H Hl Hp. exists (re_test (RSeq (litSeq starAlt lit) REol) p). split; [|apply star_test].
  assert (Hns : Forall (fun c => c <> 47) (42 :: lit)).
  { constructor; [done|]. eapply Forall_impl; [exact H|]. intros c Hc. by globlit Hc. }
  erewrite minimatch_plain, one_regexp; try done.
  - apply trim_id; [by intros c [= <-]|]. intros c Hc. destruct lit as [|d lit]; [by injection Hc as <-|].
    rewrite last_cons_cons in Hc. apply last_Some in Hc as [t Et]. rewrite Et in H. apply Forall_app in H as [_ H].
    inversion H; subst. apply globLit_space. auto.
  - constructor; [done|]. eapply Forall_impl; [exact H|]. intros c Hc. by globlit Hc.
  - rewrite slashSplit_one by done. cbn [mapO]. by rewrite parse_star.
Qed.

(** A bracket left open at the end of a pattern: [this.parse(cs, SUBPARSE)]
    returns the empty string for the empty class body, its element 0 is
    undefined, and the pattern [*[] asks for names that end in the text
    [[undefined] instead of names that end in a bracket. *)
Lemma dangling_bracket (p : jsstr) :
  Forall (fun c => c <> 47) p ->
  exists b, minimatch variants toLowerCase r1 r2 r3 r4 r5 p (Some (js "*[")) ∅ = Ret b /\ (b = true <-> starName (js "[undefined") p).
Proof.
  intros Hp. exists (re_test (RSeq (litSeq starAlt (js "[undefined")) REol) p). split; [|apply star_test].
  erewrite minimatch_plain, one_regexp; try done.
  - repeat constructor; discriminate.
Qed.

End Star.

(** * Totality of [parse] *)

(** The class being read starts before the position of the loop. *)
Definition classOk (i : Z) (s : pst) : Prop :=
  -1 <= p_classStart s < i /\ (p_inClass s = true -> 0 <= p_classStart s).

Lemma classOk_eq i s s' :
  p_classStart s' = p_classStart s -> p_inClass s' = p_inClass s -> classOk i s -> classOk (i + 1) s'.
Proof. unfold classOk. intros -> ->. intuition lia. Qed.

Lemma clearStateChar_class s :
  p_classStart (clearStateChar s) = p_classStart s /\ p_inClass (clearStateChar s) = p_inClass s.
Proof. unfold clearStateChar. destruct (p_stateChar s) as [c|]; [|done]. by destruct (c =? 42), (c =? 63). Qed.

Lemma class_body_shorter pattern k i :
  -1 <= k < i -> i < len pattern -> (length (substring pattern (k + 1) i) < length pattern)%nat.
Proof.
  intros Hk Hi. unfold substring. rewrite length_take, length_drop. unfold len in *. lia.
Qed.

Lemma class_tail_shorter pattern k :
  0 <= k < len pattern -> (length (substrFrom pattern (k + 1)) < length pattern)%nat.
Proof.
  intros Hk. unfold substrFrom, substr. rewrite length_take, length_drop. destruct (Z.ltb_spec (k + 1) 0); [lia|].
  unfold len in *. lia.
Qed.

Section Total.
Context (variants : Z -> list Z) (o : options).

Lemma caseStateChar_class i c s :
  p_classStart (caseStateChar o i c s) = p_classStart s /\ p_inClass (caseStateChar o i c s) = p_inClass s.
Proof.
  unfold caseStateChar. destruct (p_inClass s) eqn:E; [done|].
  set (s' := set_stateChar (clearStateChar s) (Some c)).
  assert (H : p_classStart s' = p_classStart s /\ p_inClass s' = false) by (rewrite <- E; apply (clearStateChar_class s)).
  destruct (opt o "noext"); [|exact H]. destruct (clearStateChar_class s') as [-> ->]; exact H.
Qed.

Lemma caseCloseBracket_ok sub pattern i s :
  classOk i s -> 0 <= i < len pattern ->
  (forall cs, (length cs < length pattern)%nat -> exists p, sub cs = Ret p) ->
  exists s', caseCloseBracket sub pattern i s = Ret s' /\ classOk (i + 1) s'.
Proof.
  intros Hs Hi Hsub. unfold caseCloseBracket. case_match; [|case_match].
  - eexists. split; [reflexivity|]. by eapply classOk_eq; [..|exact Hs].
  - eexists. split; [reflexivity|]. unfold classOk in *. cbn. intuition (done || lia).
  - destruct (Hsub (substring pattern (p_classStart s + 1) i)) as [p ->]; [apply class_body_shorter; [apply Hs|lia]|].
    rewrite bind_Ret. eexists. split; [reflexivity|]. unfold classOk in *. cbn. intuition (done || lia).
Qed.

Lemma parseStep_ok sub pattern i c s :
  classOk i s -> 0 <= i < len pattern ->
  (forall cs, (length cs < length pattern)%nat -> exists p, sub cs = Ret p) ->
  exists r, parseStep sub o pattern i c s = Ret r /\ forall s', r = Some s' -> classOk (i + 1) s'.
Proof.
  intros Hs Hi Hsub. unfold parseStep.
  repeat match goal with |- exists r, (if ?b then _ else _) = _ /\ _ => destruct b end;
    try (eexists; split; [reflexivity|]; intros s' [= <-]).
  - by eapply classOk_eq; [..|exact Hs].
  - eapply classOk_eq; [..|exact Hs]; apply clearStateChar_class.
  - eapply classOk_eq; [..|exact Hs]; apply caseStateChar_class.
  - unfold caseOpenParen. destruct (p_inClass s) eqn:E, (p_stateChar s); by eapply classOk_eq; [..|exact Hs].
  - unfold caseCloseParen. destruct (p_inClass s) eqn:E, (p_stack s); try by eapply classOk_eq; [..|exact Hs].
    eapply classOk_eq; [..|exact Hs]; apply (clearStateChar_class s).
  - unfold casePipe. case_match; [by eapply classOk_eq; [..|exact Hs]|].
    eapply classOk_eq; [..|exact Hs]; apply (clearStateChar_class s).
  - unfold caseOpenBracket. case_match; [eapply classOk_eq; [..|exact Hs]; apply (clearStateChar_class s)|].
    unfold classOk. cbn. lia.
  - destruct (caseCloseBracket_ok sub pattern i s Hs Hi Hsub) as (s' & -> & Hs'). rewrite bind_Ret.
    eexists. split; [reflexivity|]. by intros ? [= <-].
  - eapply classOk_eq; [..|exact Hs]; unfold caseDefault; repeat case_match; apply (clearStateChar_class s).
Qed.

Lemma parseLoop_ok sub pattern rest i s :
  classOk i s -> 0 <= i -> i + len rest = len pattern ->
  (forall cs, (length cs < length pattern)%nat -> exists p, sub cs = Ret p) ->
  exists r, parseLoop sub o pattern rest i s = Ret r /\ forall s', r = Some s' -> classOk (len pattern) s'.
Proof.
  intros Hs Hi Hl Hsub. revert i s Hs Hi Hl. induction rest as [|c rest IH]; intros i s Hs Hi Hl; cbn [parseLoop].
  - eexists. split; [reflexivity|]. intros s' [= <-]. change (len []) with 0 in Hl. by replace (len pattern) with i by lia.
  - rewrite len_cons in Hl. pose proof (len_nonneg rest).
    destruct (parseStep_ok sub pattern i c s Hs ltac:(lia) Hsub) as (r & -> & Hr). rewrite bind_Ret.
    destruct r as [s'|]; [|eexists; split; [reflexivity|done]]. apply IH; [by apply Hr|lia|lia].
Qed.

Lemma parse_ok fuel pattern isSub :
  (length pattern < fuel)%nat -> len pattern <= 65536 ->
  exists p, parse variants fuel o pattern isSub = Ret p.
Proof.
  revert pattern isSub. induction fuel as [|fuel IH]; intros pattern isSub Hf Hl; [lia|]. cbn [parse].
  destruct (Z.ltb_spec (1024 * 64) (len pattern)); [lia|]. case_match; [eauto|]. case_bool_decide as He; [eauto|].
  set (sub := fun cs => parse variants fuel o cs true).
  assert (Hsub : forall cs, (length cs < length pattern)%nat -> exists p, sub cs = Ret p).
  { intros cs Hcs. apply IH; unfold len in *; lia. }
  destruct (parseLoop_ok sub pattern pattern 0 (parseInit o)) as (r & -> & Hr); [..|done|];
    [unfold classOk; cbn; intuition (done || lia)|lia|done|]. rewrite bind_Ret.
  destruct r as [s|]; [|eauto]. destruct (Hr s eq_refl) as [Hc1 Hc2].
  destruct (p_inClass s); [specialize (Hc2 eq_refl);
    destruct (Hsub (substrFrom pattern (p_classStart s + 1))) as [sp Hsp]; [apply class_tail_shorter; lia|];
    unfold sub in Hsp; rewrite Hsp, bind_Ret |];
    rewrite bind_Ret; destruct (finishRe _ _ _ _) as [re magic]; repeat case_match; eauto.
Qed.

(** The translation of a pattern segment is total: with fuel above its
    length [parse] returns on every segment of at most 64 K characters and
    throws on every longer one, whatever the options; the nested parses of
    brackets left open always concern shorter texts. *)
Lemma parse_total (pattern : jsstr) (isSub : bool) :
  if len pattern <=? 65536
  then exists p, parse variants (S (length pattern)) o pattern isSub = Ret p
  else parse variants (S (length pattern)) o pattern isSub = Throw "TypeError: pattern is too long".
Proof.
  destruct (Z.leb_spec (len pattern) 65536) as [Hl|Hl]; [apply parse_ok; [lia|done]|].
  cbn [parse]. by destruct (Z.ltb_spec (1024 * 64) (len pattern)); [|lia].
Qed.

End Total.
