(* ===== verification/GlobCommon.v ===== *)
(** The part of the glob library that its two walkers share (wordcut.js,
    module 15, glob/common.js): the options, the absolute paths, the ignore
    patterns, the marks and the collection of the results.

    The file system ([fs] is an empty module in the bundle) and what the engine
    supplies (case data, [localeCompare], random digits) are arguments. *)
From Stdlib Require Import ZArith Lia.
From stdpp Require Import base gmap strings list sorting.
From S2P Require Import Prelude JsString JsRegExp Balanced BraceExpansion PosixPath Minimatch.

Local Open Scope Z_scope.
Open Scope js_scope.

(** What the JavaScript engine supplies. *)
Record engine := mkEngine {
  en_variants : Z -> list Z;
  en_toLowerCase : jsstr -> jsstr;
  en_localeCompare : jsstr -> jsstr -> Z;
  en_digits : nat -> jsstr
}.

(** The answers of [lstatSync] and [statSync] that the library reads. *)
Record stats := mkStats { isSymbolicLink : bool; isDirectory : bool }.

(** The synchronous file system: [None] and [inl] are exceptions; the string
    is the error code of [readdirSync], the system call of [realpathSync]. *)
Record fileSystem := mkFs {
  lstatSync : jsstr -> option stats;
  statSync : jsstr -> option stats;
  readdirSync : jsstr -> string + list jsstr;
  realpathSync : jsstr -> string + jsstr
}.

(** * The walker *)

(** An entry of [cache]. *)
Inductive cacheVal := CFalse | CTrue | CFile | CDir | CEntries (entries : list jsstr).

(** [c === 'DIR' || Array.isArray(c)]. *)
Definition isDirVal (c : cacheVal) : bool := match c with CDir | CEntries _ => true | _ => false end.

Definition cacheTruthy (c : cacheVal) : bool := match c with CFalse => false | _ => true end.

(** An entry of [ignore]. *)
Record ignoreItem := mkIgnore { matcher : Minimatch; gmatcher : option Minimatch }.

(** [options.ignore]. *)
Inductive ignoreArg := NoIgnore | OneIgnore (p : jsstr) | ManyIgnore (ps : list jsstr).

(** The options object: the flags, and the options that are not flags. *)
Record globOptions := mkGlobOptions {
  go_flags : options;
  go_cwd : option jsstr;
  go_root : option jsstr;
  go_ignore : ignoreArg;
  go_maxLength : option Z;
  go_cache : gmap jsstr cacheVal;
  go_statCache : gmap jsstr (option stats);
  go_symlinks : gmap jsstr bool
}.

(** The fields of a walker that [setopts] fixes. *)
Record conf := mkConf {
  g_silent : bool;
  g_pattern : jsstr;
  g_strict : bool;
  g_realpath : bool;
  g_follow : bool;
  g_dot : bool;
  g_mark : bool;
  g_nodir : bool;
  g_sync : bool;
  g_nounique : bool;
  g_nonull : bool;
  g_nosort : bool;
  g_nocase : bool;
  g_stat : bool;
  g_noprocess : bool;
  g_maxLength : option Z;
  g_ignore : list ignoreItem;
  g_changedCwd : bool;
  g_cwd : jsstr;
  g_root : jsstr;
  g_nomount : bool;
  g_minimatch : Minimatch
}.

(** The fields that change while it walks.  An entry [None] of [s_statCache] is
    false, one of [s_matches] is a hole of the array; [s_console] is what was written to the console. *)
Record walk_state := mkWalk {
  s_cache : gmap jsstr cacheVal;
  s_statCache : gmap jsstr (option stats);
  s_symlinks : gmap jsstr bool;
  s_matches : list (option keySet);
  s_console : list string
}.

Definition set_cache (f : jsstr) (c : cacheVal) (s : walk_state) : walk_state :=
  mkWalk (<[f := c]> (s_cache s)) (s_statCache s) (s_symlinks s) (s_matches s) (s_console s).
Definition set_statCache (f : jsstr) (st : option stats) (s : walk_state) : walk_state :=
  mkWalk (s_cache s) (<[f := st]> (s_statCache s)) (s_symlinks s) (s_matches s) (s_console s).
Definition set_symlink (f : jsstr) (b : bool) (s : walk_state) : walk_state :=
  mkWalk (s_cache s) (s_statCache s) (<[f := b]> (s_symlinks s)) (s_matches s) (s_console s).
Definition set_matches (m : list (option keySet)) (s : walk_state) : walk_state :=
  mkWalk (s_cache s) (s_statCache s) (s_symlinks s) m (s_console s).
Definition log (msg : string) (s : walk_state) : walk_state :=
  mkWalk (s_cache s) (s_statCache s) (s_symlinks s) (s_matches s) (s_console s ++ [msg]).

(** Computations on the state of a walker that may throw. *)
Definition G (A : Type) : Type := walk_state -> outcome (A * walk_state).
#[export] Instance G_ret : MRet G := fun A a s => Ret (a, s).
#[export] Instance G_bind : MBind G := fun A B f m s => '(a, s) ← m s; f a s.

Definition lift {A} (m : outcome A) : G A := fun s => a ← m; Ret (a, s).
Definition modify (f : walk_state -> walk_state) : G unit := fun s => Ret (tt, f s).
Definition gets {A} (f : walk_state -> A) : G A := fun s => Ret (f s, s).
Definition fail {A} (msg : string) : G A := fun _ => Throw msg.

(** A [for] loop over an array. *)
Fixpoint forEach {A} (l : list A) (f : A -> G unit) : G unit :=
  match l with
  | [] => mret tt
  | x :: l' => _ ← f x; forEach l' f
  end.

Fixpoint mapG {A B} (f : A -> G B) (l : list A) : G (list B) :=
  match l with
  | [] => mret []
  | x :: l' => y ← f x; ys ← mapG f l'; mret (y :: ys)
  end.

(** [a.sort(cmp)]: stable. *)
Definition cmpLe (cmp : jsstr -> jsstr -> Z) (a b : jsstr) : Prop := cmp a b <= 0.
#[export] Instance cmpLe_dec cmp a b : Decision (cmpLe cmp a b).
Proof. unfold cmpLe. apply _. Defined.

Definition sortWith (cmp : jsstr -> jsstr -> Z) (l : list jsstr) : list jsstr := merge_sort (cmpLe cmp) l.

Section Engine.
Context (E : engine).

Definition Minimatch_ (pattern : jsstr) (o : options) : outcome Minimatch :=
  newMinimatch (en_variants E) (en_digits E 1) (en_digits E 2) (en_digits E 3) (en_digits E 4) (en_digits E 5) (Some pattern) o.
Definition mmatch (m : Minimatch) (f : jsstr) : bool := match_ (en_toLowerCase E) m f false.

(** [alphasorti] and [alphasort]. *)
Definition alphasorti (a b : jsstr) : Z := en_localeCompare E (en_toLowerCase E a) (en_toLowerCase E b).
Definition alphasort (a b : jsstr) : Z := en_localeCompare E a b.

(** The expression of [ignoreMap]: the trailing repetitions of a slash and two stars. *)
Definition trailingStars : re :=
  RSeq (RRepeat true 1 None (RGroup 1 (RSeq (rchar 47) (RSeq (rchar 42) (rchar 42))))) REol.

(** [ignoreMap]. *)
Definition ignoreMap (pattern : jsstr) : outcome ignoreItem :=
  gm ← (if str_eqb (sliceFrom pattern (-3)) (js "/**")
        then let gpattern := replaceFirst trailingStars [] pattern in
             g ← Minimatch_ gpattern ∅; Ret (Some g)
        else Ret None);
  m ← Minimatch_ pattern ∅;
  Ret (mkIgnore m gm).

(** [setupIgnores]; an empty string is falsy. *)
Definition setupIgnores (a : ignoreArg) : outcome (list ignoreItem) :=
  mapO ignoreMap
    match a with
    | NoIgnore => []
    | OneIgnore p => if bool_decide (p = []) then [] else [p]
    | ManyIgnore ps => ps
    end.

(** [options.k === false ? false : true]. *)
Definition notFalse (o : options) (k : string) : bool := negb (bool_decide (o !! k = Some false)).

(** [deprecationWarning(options)], with the variable [deprecationWarned]; the
    process shim has none of the deprecation settings. *)
Definition deprecationWarning (deprecationWarned : bool) (o : options) : bool * list string :=
  if (negb (opt o "nonegate") || negb (opt o "nocomment")) && negb deprecationWarned
  then (true, ["glob WARNING: comments and negation will be disabled in v6"%string])
  else (deprecationWarned, []).

(** [setopts(self, pattern, options)]: the fields, the first state and the
    variable [deprecationWarned]. *)
Definition setopts (deprecationWarned : bool) (pattern : jsstr) (go : globOptions)
    : outcome (conf * walk_state * bool) :=
  let o := go_flags go in
  pattern ←
    (if opt o "matchBase" && (indexOf pattern (js "/") 0 =? -1)
     then if opt o "noglobstar" then Throw "base matching requires globstar"
          else Ret (js "**/" ++ pattern)
     else Ret pattern);
  let nodir := opt o "nodir" in
  let mark := if nodir then true else opt o "mark" in
  let maxLength := match go_maxLength go with Some 0 | None => None | Some n => Some n end in
  ignore ← setupIgnores (go_ignore go);
  let cwd := process_cwd in
  '(scwd, changedCwd) ←
    match go_cwd go with
    | None => Ret (cwd, false)
    | Some c => r ← resolve process_cwd [Some c]; Ret (c, negb (str_eqb r cwd))
    end;
  root ← (match go_root go with
          | Some (c :: r) => Ret (c :: r)
          | _ => resolve process_cwd [Some scwd; Some (js "/")]
          end);
  root ← resolve process_cwd [Some root];
  let o := <["nonegate" := notFalse o "nonegate"]> o in
  let o := <["nocomment" := notFalse o "nocomment"]> o in
  let '(deprecationWarned, console) := deprecationWarning deprecationWarned o in
  m ← Minimatch_ pattern o;
  Ret (mkConf (opt o "silent") pattern (notFalse o "strict") (opt o "realpath") (opt o "follow") (opt o "dot")
         mark nodir (opt o "sync") (opt o "nounique") (opt o "nonull") (opt o "nosort") (opt o "nocase")
         (opt o "stat") (opt o "noprocess") maxLength ignore changedCwd scwd root (opt o "nomount") m,
       mkWalk (go_cache go) (go_statCache go) (go_symlinks go) [] console,
       deprecationWarned).

(** [makeAbs(self, f)]. *)
Definition makeAbs (g : conf) (f : jsstr) : outcome jsstr :=
  if str_eqb (charAt f 0) (js "/") then joinPath [Some (g_root g); Some f]
  else if isAbsolute f || bool_decide (f = []) then Ret f
  else if g_changedCwd g then resolve process_cwd [Some (g_cwd g); Some f]
  else resolve process_cwd [Some f].

(** [isIgnored(self, path)] and [childrenIgnored(self, path)]. *)
Definition gmatches (path : jsstr) (item : ignoreItem) : bool :=
  match gmatcher item with Some m => mmatch m path | None => false end.
Definition isIgnored (g : conf) (path : jsstr) : bool :=
  existsb (fun item => mmatch (matcher item) path || gmatches path item) (g_ignore g).
Definition childrenIgnored (g : conf) (path : jsstr) : bool := existsb (gmatches path) (g_ignore g).

(** [o[a] = o[b]]. *)
Definition copyEntry {V} (a b : jsstr) (o : gmap jsstr V) : gmap jsstr V :=
  match o !! b with Some v => <[a := v]> o | None => delete a o end.

(** [mark(self, p)]. *)
Definition mark (g : conf) (p : jsstr) : G jsstr :=
  abs ← lift (makeAbs g p);
  c ← gets (fun s => s_cache s !! abs);
  match c with
  | Some c =>
      if cacheTruthy c then
        let isDir := isDirVal c in
        let slash := str_eqb (sliceFrom p (-1)) (js "/") in
        let m := if isDir && negb slash then p ++ js "/"
                 else if negb isDir && slash then slice p 0 (-1)
                 else p in
        if negb (str_eqb m p) then
          mabs ← lift (makeAbs g m);
          _ ← modify (fun s => mkWalk (copyEntry mabs abs (s_cache s)) (copyEntry mabs abs (s_statCache s))
                                 (s_symlinks s) (s_matches s) (s_console s));
          mret m
        else mret m
      else mret p
  | None => mret p
  end.

(** The body of the first loop of [finish]; [all] is an array or a key set. *)
Definition collect (g : conf) (all : list jsstr) (i : nat) (matches : option keySet) : list jsstr :=
  let add l := if g_nounique g then all ++ l else fold_left (fun a k => setKey k a) l all in
  match matches with
  | None | Some [] =>
      if g_nonull g then add [default (js "undefined") (mm_globSet (g_minimatch g) !! i)] else all
  | Some m => add (objectKeys m)
  end.

Fixpoint collectAll (g : conf) (all : list jsstr) (i : nat) (l : list (option keySet)) : list jsstr :=
  match l with
  | [] => all
  | matches :: l' => collectAll g (collect g all i matches) (S i) l'
  end.

(** [/\/$/.test(e)]. *)
Definition endsSlash (e : jsstr) : bool := bool_decide (last e = Some 47).

(** [finish(self)]: the value of [self.found]. *)
Definition finish (g : conf) : G (list jsstr) :=
  all ← gets (fun s => collectAll g [] 0 (s_matches s));
  let all := if g_nounique g then all else objectKeys all in
  let all := if g_nosort g then all else sortWith (if g_nocase g then alphasorti else alphasort) all in
  all ← (if g_mark g then
           all ← mapG (mark g) all;
           mret (if g_nodir g then filter (fun e => endsSlash e = false) all else all)
         else mret all);
  mret (match g_ignore g with
        | [] => all
        | _ => filter (fun m => isIgnored g m = false) all
        end).

End Engine.
