(* ===== verification/GlobSync.v ===== *)
(** The synchronous walker of the glob library (wordcut.js, module 17,
    glob/sync.js). *)
From Stdlib Require Import ZArith Lia.
From stdpp Require Import base gmap strings list.
From S2P Require Import Prelude JsString JsRegExp PosixPath Minimatch GlobCommon.

Local Open Scope Z_scope.
Open Scope js_scope.

(** The argument [options]. *)
Inductive optionsArg := OptUndefined | OptFunction | OptObject (go : globOptions).

Definition noOptions : globOptions := mkGlobOptions ∅ None None NoIgnore None ∅ ∅ ∅.

(** [pattern.slice(0, n)] and [pattern.slice(n)], where [n] is the number of
    leading strings. *)
Fixpoint leading (pattern : list part) : list jsstr * list part :=
  match pattern with
  | PStr s :: pattern' => let '(strs, rest) := leading pattern' in (s :: strs, rest)
  | _ => ([], pattern)
  end.

(** [String(p)] for an element of a pattern, in [pattern.join('/')]. *)
Definition partToString (o : options) (p : part) : jsstr :=
  match p with
  | PStr s => s
  | PFalse => js "false"
  | PGlobstar => js "[object Object]"
  | PRegExp _ src _ => js "/^" ++ default (js "") src ++ js "$/" ++ (if opt o "nocase" then js "i" else [])
  | PSub src _ => src
  end.

Section Walker.
Context (E : engine) (FS : fileSystem) (g : conf).

Definition isSet (v : option (option keySet)) : bool := match v with Some (Some _) => true | _ => false end.

(** [if (!this.matches[index]) this.matches[index] = Object.create(null)]. *)
Definition initMatch (index : nat) : G unit :=
  modify (fun s => if isSet (s_matches s !! index) then s else set_matches (<[index := Some []]> (s_matches s)) s).

(** [this.matches[index][e] = true]. *)
Definition addMatch (index : nat) (e : jsstr) : G unit :=
  modify (fun s => set_matches (alter (fun m => setKey e <$> m) index (s_matches s)) s).

(** The end of [_stat]: the part that asks the file system. *)
Definition statDisk (abs : jsstr) (needDir : bool) : G cacheVal :=
  cached ← gets (fun s => s_statCache s !! abs);
  let stat :=
    match cached with
    | Some (Some stat) => Some stat
    | _ =>
        match lstatSync FS abs with
        | None => None
        | Some lstat =>
            if isSymbolicLink lstat
            then Some (match statSync FS abs with Some stat => stat | None => lstat end)
            else Some lstat
        end
    end in
  match stat with
  | None => mret CFalse
  | Some stat =>
      _ ← modify (set_statCache abs (Some stat));
      let c := if isDirectory stat then CDir else CFile in
      _ ← modify (fun s => match s_cache s !! abs with
                           | Some (CTrue | CFile | CDir | CEntries _) => s
                           | _ => set_cache abs c s
                           end);
      mret (if needDir && negb (isDirectory stat) then CFalse else c)
  end.

(** [_stat(f)]. *)
Definition stat_ (f : jsstr) : G cacheVal :=
  abs ← lift (makeAbs g f);
  let needDir := str_eqb (sliceFrom f (-1)) (js "/") in
  if match g_maxLength g with Some n => n <? len f | None => false end then mret CFalse
  else
    cached ← gets (fun s => s_cache s !! abs);
    match g_stat g, cached with
    | false, Some (CDir | CEntries _) => mret CDir
    | false, Some CFile => mret (if needDir then CFalse else CFile)
    | false, Some c => if needDir then statDisk abs needDir else mret c
    | _, _ => statDisk abs needDir
    end.

(** [_readdirEntries(abs, entries)]. *)
Definition readdirEntries (abs : jsstr) (entries : list jsstr) : G (option (list jsstr)) :=
  _ ← (if negb (g_mark g) && negb (g_stat g)
       then forEach entries (fun e =>
              modify (set_cache (if str_eqb abs (js "/") then abs ++ e else abs ++ js "/" ++ e) CTrue))
       else mret tt);
  _ ← modify (set_cache abs (CEntries entries));
  mret (Some entries).

(** [_readdirError(f, er)]. *)
Definition readdirError (f : jsstr) (code : string) : G unit :=
  abs ← lift (makeAbs g f);
  if bool_decide (code ∈ ["ENOTSUP"; "ENOTDIR"]%string) then modify (set_cache abs CFile)
  else if bool_decide (code ∈ ["ENOENT"; "ELOOP"; "ENAMETOOLONG"; "UNKNOWN"]%string) then modify (set_cache abs CFalse)
  else
    _ ← modify (set_cache abs CFalse);
    if g_strict g then fail code
    else if negb (g_silent g) then modify (log ("glob error " +:+ code)) else mret tt.

(** [_readdir(abs, false)]; the result is [None] for null. *)
Definition readdirPlain (abs : jsstr) : G (option (list jsstr)) :=
  cached ← gets (fun s => s_cache s !! abs);
  match cached with
  | Some (CFalse | CFile) => mret None
  | Some (CEntries c) => mret (Some c)
  | _ =>
      match readdirSync FS abs with
      | inr entries => readdirEntries abs entries
      | inl code => _ ← readdirError abs code; mret None
      end
  end.

(** [_readdirInGlobStar(abs)]. *)
Definition readdirInGlobStar (abs : jsstr) : G (option (list jsstr)) :=
  if g_follow g then readdirPlain abs
  else
    match lstatSync FS abs with
    | None => mret None
    | Some lstat =>
        let isSym := isSymbolicLink lstat in
        _ ← modify (set_symlink abs isSym);
        if negb isSym && negb (isDirectory lstat)
        then _ ← modify (set_cache abs CFile); mret None
        else readdirPlain abs
    end.

(** [_readdir(abs, inGlobStar)]. *)
Definition readdir (abs : jsstr) (inGlobStar : bool) : G (option (list jsstr)) :=
  known ← gets (fun s => bool_decide (is_Some (s_symlinks s !! abs)));
  if inGlobStar && negb known then readdirInGlobStar abs else readdirPlain abs.

(** [_processSimple(prefix, index)]. *)
Definition processSimple (prefix : jsstr) (index : nat) : G unit :=
  exists_ ← stat_ prefix;
  _ ← initMatch index;
  if negb (cacheTruthy exists_) then mret tt
  else
    prefix ←
      (if bool_decide (prefix <> []) && isAbsolute prefix && negb (g_nomount g) then
         let trail := bool_decide (last prefix = Some 47 \/ last prefix = Some 92) in
         if str_eqb (charAt prefix 0) (js "/") then lift (joinPath [Some (g_root g); Some prefix])
         else p ← lift (resolve process_cwd [Some (g_root g); Some prefix]); mret (if trail then p ++ js "/" else p)
       else mret prefix);
    addMatch index prefix.

(** A prefix that is not null and not empty. *)
Definition prefixTruthy (prefix : option jsstr) : option jsstr :=
  match prefix with Some (c :: p) => Some (c :: p) | _ => None end.

(** Does an entry of a directory stand for the part [pn]? *)
Definition entryHit (prefix : option jsstr) (rawGlob : jsstr) (r : re) (e : jsstr) : bool :=
  let dotOk := g_dot g || str_eqb (charAt rawGlob 0) (js ".") in
  (negb (str_eqb (charAt e 0) (js ".")) || dotOk) &&
  (if mm_negate (g_minimatch g) && bool_decide (prefixTruthy prefix = None) then negb (re_test r e) else re_test r e).

(** The path of a matched entry. *)
Definition entryPath (prefix : option jsstr) (e : jsstr) : outcome jsstr :=
  let e := match prefixTruthy prefix with
           | Some p => if negb (str_eqb (sliceFrom p (-1)) (js "/")) then p ++ js "/" ++ e else p ++ e
           | None => e
           end in
  if str_eqb (charAt e 0) (js "/") && negb (g_nomount g) then joinPath [Some (g_root g); Some e] else Ret e.

(** [_processReaddir]; [rec] is [_process] with the current index. *)
Definition processReaddir (rec : list part -> bool -> G unit) (prefix : option jsstr) (abs : jsstr)
    (remain : list part) (index : nat) (inGlobStar : bool) : G unit :=
  entries ← readdir abs inGlobStar;
  match entries with
  | None => mret tt
  | Some entries =>
      match remain with
      | PRegExp r _ glob :: rest =>
          rawGlob ← lift (orTypeError glob);
          let matchedEntries := filter (fun e => entryHit prefix rawGlob r e = true) entries in
          if bool_decide (matchedEntries = []) then mret tt
          else if bool_decide (rest = []) && negb (g_mark g) && negb (g_stat g) then
            _ ← initMatch index;
            forEach matchedEntries (fun e => p ← lift (entryPath prefix e); addMatch index p)
          else
            forEach matchedEntries (fun e =>
              rec (match prefixTruthy prefix with Some p => [PStr p] | None => [] end ++ [PStr e] ++ rest) inGlobStar)
      | _ => fail "TypeError"
      end
  end.

(** [_processGlobStar]. *)
Definition processGlobStar (rec : list part -> bool -> G unit) (prefix : option jsstr) (abs : jsstr)
    (remain : list part) (inGlobStar : bool) : G unit :=
  entries ← readdir abs inGlobStar;
  match entries with
  | None => mret tt
  | Some entries =>
      let remainWithoutGlobStar := drop 1 remain in
      let gspref := match prefixTruthy prefix with Some p => [PStr p] | None => [] end in
      _ ← rec (gspref ++ remainWithoutGlobStar) false;
      isSym ← gets (fun s => default false (s_symlinks s !! abs));
      if isSym && inGlobStar then mret tt
      else
        forEach entries (fun e =>
          if str_eqb (charAt e 0) (js ".") && negb (g_dot g) then mret tt
          else
            _ ← rec (gspref ++ [PStr e] ++ remainWithoutGlobStar) true;
            rec (gspref ++ [PStr e] ++ remain) true)
  end.

(** [prefix] and [read] of [_process], from the leading strings. *)
Definition prefixOf (pattern : list part) : option jsstr :=
  match (leading pattern).1 with
  | [] => None
  | strs =>
      let prefix := join (js "/") strs in
      Some (if (isAbsolute prefix || isAbsolute (join (js "/") (map (partToString (mm_options (g_minimatch g))) pattern)))
               && negb (isAbsolute prefix)
            then js "/" ++ prefix else prefix)
  end.

(** [_process(pattern, index, inGlobStar)]: the fuel bounds the depth of the
    recursion, which a cycle of the file system can make infinite. *)
Fixpoint process (fuel : nat) (index : nat) (pattern : list part) (inGlobStar : bool) : G unit :=
  match fuel with
  | O => fun _ => OutOfFuel
  | S fuel =>
      let '(strs, remain) := leading pattern in
      match remain with
      | [] => processSimple (join (js "/") strs) index
      | pn :: _ =>
          let prefix := prefixOf pattern in
          let read := default (js ".") prefix in
          abs ← lift (makeAbs g read);
          if childrenIgnored E g read then mret tt
          else match pn with
               | PGlobstar => processGlobStar (process fuel index) prefix abs remain inGlobStar
               | _ => processReaddir (process fuel index) prefix abs remain index inGlobStar
               end
      end
  end.

(** [_emitMatch(index, e)]. *)
Definition emitMatch (index : nat) (e : jsstr) : G unit :=
  _ ← lift (makeAbs g e);
  e ← (if g_mark g then mark g e else mret e);
  seen ← gets (fun s => match s_matches s !! index with Some (Some m) => Ret (bool_decide (e ∈ m)) | _ => Throw "TypeError" end);
  seen ← lift seen;
  if (seen : bool) then mret tt
  else
    abs ← lift (makeAbs g e);
    c ← gets (fun s => s_cache s !! abs);
    if g_nodir g && match c with Some c => isDirVal c | None => false end then mret tt
    else
      _ ← addMatch index e;
      if g_stat g then _ ← stat_ e; mret tt else mret tt.

(** The loop of [_finish] for one set of matches. *)
Fixpoint realpaths (ps : list jsstr) (set : keySet) : G keySet :=
  match ps with
  | [] => mret set
  | p :: ps' =>
      p ← lift (makeAbs g p);
      real ← (match realpathSync FS p with
              | inr real => mret real
              | inl syscall => if bool_decide (syscall = "stat"%string) then lift (makeAbs g p) else fail syscall
              end);
      realpaths ps' (setKey real set)
  end.

(** [_finish()]. *)
Definition finish_ : G (list jsstr) :=
  _ ← (if g_realpath g then
         matches ← gets s_matches;
         matches ← mapG (fun m => match m with
                                  | Some m => set ← realpaths (objectKeys m) []; mret (Some set)
                                  | None => mret None
                                  end) matches;
         modify (set_matches matches)
       else mret tt);
  finish E g.

(** The loop of the constructor. *)
Fixpoint processAll (fuel : nat) (index : nat) (set : list (list part)) : G unit :=
  match set with
  | [] => mret tt
  | pattern :: set' => _ ← process fuel index pattern false; processAll fuel (S index) set'
  end.

End Walker.

(** [new GlobSync(pattern, options)]: [found] is [None] when it is undefined. *)
Definition GlobSync (E : engine) (FS : fileSystem) (fuel : nat) (deprecationWarned : bool)
    (pattern : jsstr) (options : optionsArg) (nargs : nat) : outcome (option (list jsstr) * walk_state) :=
  if bool_decide (pattern = []) then Throw "must provide pattern"
  else if match options with OptFunction => true | _ => false end || (nargs =? 3)%nat
  then Throw "TypeError: callback provided to sync glob"
  else
    let go := match options with OptObject go => go | _ => noOptions end in
    '(g, s, _) ← setopts E deprecationWarned pattern go;
    if g_noprocess g then Ret (None, s)
    else
      let set := mm_set (g_minimatch g) in
      let s := set_matches (replicate (length set) None) s in
      '(_, s) ← processAll E FS g fuel 0 set s;
      '(found, s) ← finish_ E FS g s;
      Ret (Some found, s).

(** [globSync(pattern, options)]. *)
Definition globSync (E : engine) (FS : fileSystem) (fuel : nat) (deprecationWarned : bool)
    (pattern : jsstr) (options : optionsArg) (nargs : nat) : outcome (option (list jsstr)) :=
  if match options with OptFunction => true | _ => false end || (nargs =? 3)%nat
  then Throw "TypeError: callback provided to sync glob"
  else fst <$> GlobSync E FS fuel deprecationWarned pattern options 2.
