(* ===== verification/GlobFacts.v ===== *)
(** Theorems about the synchronous glob walker: on a file system that is a
    finite tree, it finds exactly the paths that the matcher accepts; how the
    results are collected; what a missing path below a file does to the cache. *)
From Stdlib Require Import ZArith Lia.
From stdpp Require Import base gmap strings list sorting.
From S2P Require Import Prelude JsString JsRegExp Balanced BraceExpansion PosixPath Minimatch MinimatchFacts GlobCommon GlobSync.

Local Open Scope Z_scope.
Open Scope js_scope.

(** * A file system that is a tree *)

Inductive node := File | Dir (kids : list (jsstr * node)).

Fixpoint child (name : jsstr) (kids : list (jsstr * node)) : option node :=
  match kids with
  | [] => None
  | (k, n) :: kids' => if str_eqb k name then Some n else child name kids'
  end.

Fixpoint nodeAt (n : node) (path : list jsstr) : option node :=
  match path with
  | [] => Some n
  | s :: path' =>
      match n with
      | Dir kids => match child s kids with Some n' => nodeAt n' path' | None => None end
      | File => None
      end
  end.

Fixpoint height (n : node) : nat :=
  match n with
  | File => 0
  | Dir kids => S (foldr (fun kn h => Nat.max (height kn.2) h) 0%nat kids)
  end.

(** The entries of a directory. *)
Definition entriesOf (n : option node) : option (list jsstr) :=
  match n with Some (Dir kids) => Some (map fst kids) | _ => None end.

(** The absolute path of a list of names. *)
Definition absOf (path : list jsstr) : jsstr := SLASH :: join [SLASH] path.

(** The error codes of a directory that cannot be read because it does not
    exist. *)
Definition missingCodes : list string := ["ENOTDIR"; "ENOENT"; "ELOOP"; "ENAMETOOLONG"; "UNKNOWN"].

(** [FS] serves the tree [t], without symbolic links, and all its names are
    names of path segments. *)
Definition servesTree (FS : fileSystem) (t : node) : Prop :=
  forall path, Forall isName path ->
    match nodeAt t path with
    | Some (Dir kids) =>
        readdirSync FS (absOf path) = inr (map fst kids) /\ Forall isName (map fst kids) /\
        lstatSync FS (absOf path) = Some (mkStats false true)
    | Some File => readdirSync FS (absOf path) = inl "ENOTDIR"%string /\ lstatSync FS (absOf path) = Some (mkStats false false)
    | None =>
        (exists code, readdirSync FS (absOf path) = inl code /\ code ∈ missingCodes) /\ lstatSync FS (absOf path) = None
    end.

Lemma nodeAt_app n p q : nodeAt n (p ++ q) = match nodeAt n p with Some m => nodeAt m q | None => None end.
Proof.
  revert n. induction p as [|s p IH]; intros n; cbn; [done|]. destruct n as [|kids]; [done|].
  destruct (child s kids); [apply IH|done].
Qed.

Lemma child_elem s kids n : child s kids = Some n -> (s, n) ∈ kids.
Proof.
  induction kids as [|[k m] kids IH]; cbn; [done|]. unfold str_eqb. case_bool_decide as H.
  - intros [= ->]. subst. apply elem_of_cons. by left.
  - intros ?. apply elem_of_cons. right. auto.
Qed.

Lemma child_is_Some s kids : is_Some (child s kids) <-> s ∈ map fst kids.
Proof.
  induction kids as [|[k m] kids IH]; cbn; [rewrite elem_of_nil; split; [by intros []|done]|].
  unfold str_eqb. rewrite elem_of_cons. case_bool_decide as H; [split; [by left|by eauto]|].
  rewrite IH. split; [by right|]. intros [->|]; done.
Qed.

Lemma child_height s kids n : child s kids = Some n -> (height n < height (Dir kids))%nat.
Proof.
  intros H%child_elem. cbn [height]. apply Nat.lt_succ_r. induction kids as [|[k m] kids IH]; [by apply elem_of_nil in H|].
  cbn [foldr]. apply elem_of_cons in H as [[= <- <-]|H]; cbn [snd]; [lia|]. specialize (IH H). lia.
Qed.

(** The height of what a path leads to. *)
Definition heightAt (t : node) (path : list jsstr) : nat :=
  match nodeAt t path with Some n => height n | None => 0 end.

Lemma nodeAt_height n q m : nodeAt n q = Some m -> (height m <= height n)%nat.
Proof.
  revert n. induction q as [|s q IH]; intros n; cbn; [intros [= ->]; lia|]. destruct n as [|kids]; [done|].
  destruct (child s kids) as [n'|] eqn:E; [|done]. intros H%IH. apply child_height in E. lia.
Qed.

Lemma heightAt_app t p q : (heightAt t (p ++ q) <= heightAt t p)%nat.
Proof.
  unfold heightAt. rewrite nodeAt_app. destruct (nodeAt t p) as [m|]; [|lia].
  destruct (nodeAt m q) eqn:E; [|lia]. by apply nodeAt_height in E.
Qed.

Lemma heightAt_below t p kids e q :
  nodeAt t p = Some (Dir kids) -> (heightAt t (p ++ e :: q) < heightAt t p)%nat.
Proof.
  intros Hp. unfold heightAt. rewrite nodeAt_app, Hp. cbn [nodeAt].
  destruct (child e kids) as [n|] eqn:E; [|cbn; lia]. apply child_height in E.
  destruct (nodeAt n q) eqn:Eq; [|cbn [height] in *; lia]. apply nodeAt_height in Eq. lia.
Qed.

(** * Paths of names *)

Lemma name_raw names : Forall isName names -> Forall rawPart names.
Proof. intros H. eapply Forall_impl; [exact H|]. by intros x (? & ? & _). Qed.

Lemma join_app sep a b : a <> [] -> b <> [] -> join sep (a ++ b) = join sep a ++ sep ++ join sep b.
Proof.
  intros Ha Hb. induction a as [|x a IH]; [done|]. destruct a as [|y a].
  - cbn [app]. by rewrite join_cons.
  - rewrite (join_cons sep x (y :: a)) by done. cbn [app] in *. rewrite join_cons by done.
    rewrite IH by done. by rewrite <- !app_assoc.
Qed.

Lemma absOf_inj p q : Forall isName p -> Forall isName q -> absOf p = absOf q -> p = q.
Proof.
  intros Hp Hq [= E]. rewrite <- (segments_join p), <- (segments_join q) by (by apply name_raw). by rewrite E.
Qed.

Lemma resolve_names names : names <> [] -> Forall isName names ->
  resolve process_cwd [Some (join [SLASH] names)] = Ret (absOf names).
Proof.
  intros Hne Hn. pose proof (name_raw _ Hn) as Hr.
  assert (Hj : join [SLASH] names <> []) by (by rewrite join_parts_nil).
  assert (Ha : isAbsolute (join [SLASH] names) = false).
  { rewrite isAbsolute_head. apply bool_decide_eq_false. by apply join_parts_head. }
  unfold resolve. cbn [rev app resolveLoop]. rewrite bool_decide_eq_false_2, Ha by done.
  change (bool_decide (process_cwd = [])) with false. change (isAbsolute process_cwd) with true. cbn iota.
  rewrite bind_Ret. cbn [negb].
  assert (Hs : segments (SLASH :: SLASH :: (join [SLASH] names ++ [SLASH])) = names)
    by (by rewrite !segments_slash_l, segments_slash_r, segments_join).
  match goal with |- context [segments ?x] => change (segments x) with (segments (SLASH :: SLASH :: (join [SLASH] names ++ [SLASH]))) end.
  rewrite Hs.
  unfold normalizeArray. rewrite (normStep_id names 0 Hn : foldr normStep ([], 0%nat) names = _). done.
Qed.

Lemma sliceFrom_last p : str_eqb (sliceFrom p (-1)) (js "/") = bool_decide (last p = Some SLASH).
Proof.
  rewrite <- trailing_last. f_equal. unfold sliceFrom, slice, substrFrom, substr. cbn [Z.ltb Z.compare].
  pose proof (len_nonneg p). destruct (Z.ltb_spec (len p) 0); [lia|]. unfold len in *.
  rewrite !take_ge by (rewrite length_drop; lia). done.
Qed.

Lemma join_snoc dir e : dir <> [] -> join [SLASH] (dir ++ [e]) = join [SLASH] dir ++ [SLASH] ++ e.
Proof. intros H. by rewrite join_app. Qed.

Lemma alter_as_insert {A} f (l : list A) i x : l !! i = Some x -> alter f i l = <[i := f x]> l.
Proof.
  revert i. induction l as [|y l IH]; intros [|i]; cbn; [done..|intros [= ->]; done|]. intros H. f_equal. by apply IH.
Qed.

Lemma G_bind_Ret {A B} (m : G A) (k : A -> G B) a s s' : m s = Ret (a, s') -> (x ← m; k x) s = k a s'.
Proof. intros Em. unfold mbind, G_bind. by rewrite Em. Qed.

(** * Key sets *)

Lemma elem_of_setKey k x o : k ∈ setKey x o <-> k ∈ o \/ k = x.
Proof. unfold setKey. case_decide; [naive_solver|]. rewrite elem_of_app, list_elem_of_singleton. done. Qed.

Definition setKeys (l : list jsstr) (o : keySet) : keySet := fold_left (fun a k => setKey k a) l o.

Lemma elem_of_setKeys k l o : k ∈ setKeys l o <-> k ∈ o \/ k ∈ l.
Proof.
  revert o. induction l as [|x l IH]; intros o; cbn; [rewrite elem_of_nil; tauto|].
  unfold setKeys in IH. rewrite IH, elem_of_setKey, elem_of_cons. tauto.
Qed.

Lemma NoDup_setKeys l o : NoDup o -> NoDup (setKeys l o).
Proof.
  revert o. induction l as [|x l IH]; intros o Ho; cbn; [done|]. apply IH. unfold setKey. case_decide; [done|].
  apply NoDup_app. split_and!; [done| |apply NoDup_singleton]. intros y Hy ->%list_elem_of_singleton. done.
Qed.

Lemma objectKeys_perm o : objectKeys o ≡ₚ o.
Proof.
  unfold objectKeys. rewrite merge_sort_Permutation. induction o as [|x o IH]; [done|].
  rewrite !filter_cons. destruct (isIndex x) eqn:Ex.
  - rewrite decide_True, decide_False by done. cbn. by rewrite IH.
  - rewrite decide_False, decide_True by done. by rewrite <- Permutation_middle, IH.
Qed.

(** * Walking a tree *)

(** A walker of relative patterns with neither marks, stats, ignores nor a
    changed directory. *)
Definition plainWalker (g : conf) : Prop :=
  g_mark g = false /\ g_stat g = false /\ g_changedCwd g = false /\ g_root g = js "/" /\ g_ignore g = [] /\
  mm_negate (g_minimatch g) = false.

(** An expression lets only those dot files through that its text asks for. *)
Definition dotSafe (dot : bool) (r : re) (glob : jsstr) : Prop :=
  forall e, re_test r e = true -> head e = Some DOT -> dot = true \/ head glob = Some DOT.

Inductive goodPart (dot : bool) : part -> Prop :=
| good_str s : isName s -> goodPart dot (PStr s)
| good_globstar : goodPart dot PGlobstar
| good_re r src glob : dotSafe dot r glob -> goodPart dot (PRegExp r src (Some glob)).

Definition isRegExp (p : part) : Prop := match p with PRegExp _ _ _ => True | _ => False end.
Definition isStr (p : part) : bool := match p with PStr _ => true | _ => false end.

(** Good parts, the last of them an expression. *)
Definition goodPattern (dot : bool) (ps : list part) : Prop :=
  Forall (goodPart dot) ps /\ exists init p, ps = init ++ [p] /\ isRegExp p.

(** The number of parts that are not strings. *)
Definition magic (ps : list part) : nat := length (filter (fun p => isStr p = false) ps).

Section Tree.
Context (E : engine) (FS : fileSystem) (g : conf) (t : node).
Context (Hplain : plainWalker g) (HFS : servesTree FS t).

Abbreviation o := (mm_options (g_minimatch g)).
Context (Hnocase : opt o "nocase" = false) (Hdot : opt o "dot" = g_dot g).

(** What the caches may say: no directory is taken for a file or for missing,
    cached entries are those of the directory, nothing is a symbolic link. *)
Definition Inv (s : walk_state) : Prop :=
  forall path, Forall isName path ->
    (match s_cache s !! absOf path with
     | Some (CFalse | CFile) => entriesOf (nodeAt t path) = None
     | Some (CEntries l) => entriesOf (nodeAt t path) = Some l
     | _ => True
     end) /\ default false (s_symlinks s !! absOf path) = false.

Definition keysAt (index : nat) (s : walk_state) : keySet :=
  match s_matches s !! index with Some (Some m) => m | _ => [] end.

(** [m] returns [a] and does not touch the matches. *)
Definition reads {A} (m : G A) (a : A) : Prop :=
  forall s, Inv s -> exists s', m s = Ret (a, s') /\ Inv s' /\ s_matches s' = s_matches s.

(** [m] adds the keys that satisfy [P] to the matches at [index]. *)
Definition adds (index : nat) (m : G unit) (P : jsstr -> Prop) : Prop :=
  forall s, Inv s -> (index < length (s_matches s))%nat ->
    exists s', m s = Ret (tt, s') /\ Inv s' /\ length (s_matches s') = length (s_matches s) /\
      (forall j, j <> index -> s_matches s' !! j = s_matches s !! j) /\
      (forall k, k ∈ keysAt index s' <-> k ∈ keysAt index s \/ P k).

Lemma reads_ret {A} (a : A) : reads (mret a) a.
Proof. intros s Hs. by exists s. Qed.

Lemma reads_bind {A B} (m : G A) a (k : A -> G B) b : reads m a -> reads (k a) b -> reads (x ← m; k x) b.
Proof.
  intros Hm Hk s Hs. destruct (Hm s Hs) as (s1 & E1 & Hs1 & M1). destruct (Hk s1 Hs1) as (s2 & E2 & Hs2 & M2).
  exists s2. split; [|split; [done|congruence]]. unfold mbind, G_bind. by rewrite E1.
Qed.

Lemma reads_modify f : (forall s, Inv s -> Inv (f s)) -> (forall s, s_matches (f s) = s_matches s) -> reads (modify f) tt.
Proof. intros Hf Hm s Hs. exists (f s). eauto. Qed.

Lemma reads_lift {A} (m : outcome A) a : m = Ret a -> reads (lift m) a.
Proof. intros -> s Hs. by exists s. Qed.

Lemma reads_gets {A B} (f : walk_state -> A) (k : A -> G B) b :
  (forall s, Inv s -> exists s', k (f s) s = Ret (b, s') /\ Inv s' /\ s_matches s' = s_matches s) ->
  reads (x ← gets f; k x) b.
Proof. done. Qed.

Lemma reads_forEach {A} (l : list A) f : (forall x, x ∈ l -> reads (f x) tt) -> reads (forEach l f) tt.
Proof.
  induction l as [|x l IH]; intros H; cbn [forEach]; [apply reads_ret|].
  eapply reads_bind; [apply H; apply elem_of_cons; by left|]. apply IH. intros y Hy. apply H, elem_of_cons. by right.
Qed.

Lemma adds_ext index m P Q : (forall k, P k <-> Q k) -> adds index m P -> adds index m Q.
Proof.
  intros HPQ Hm s Hs Hi. destruct (Hm s Hs Hi) as (s' & ? & ? & ? & ? & Hk). exists s'. split_and!; [done..|].
  intros k. by rewrite Hk, HPQ.
Qed.

Lemma adds_ret index : adds index (mret tt) (fun _ => False).
Proof. intros s Hs Hi. exists s. split_and!; [done..|]. tauto. Qed.

Lemma adds_bind index m k P Q : adds index m P -> adds index k Q -> adds index (_ ← m; k) (fun x => P x \/ Q x).
Proof.
  intros Hm Hk s Hs Hi. destruct (Hm s Hs Hi) as (s1 & E1 & Hs1 & L1 & F1 & K1).
  destruct (Hk s1 Hs1) as (s2 & E2 & Hs2 & L2 & F2 & K2); [lia|].
  exists s2. split_and!; [|done|congruence| |].
  - unfold mbind, G_bind. by rewrite E1.
  - intros j Hj. by rewrite F2, F1.
  - intros x. rewrite K2, K1. tauto.
Qed.

Lemma adds_reads {A} index (m : G A) a k P : reads m a -> adds index (k a) P -> adds index (x ← m; k x) P.
Proof.
  intros Hm Hk s Hs Hi. destruct (Hm s Hs) as (s1 & E1 & Hs1 & M1).
  destruct (Hk s1 Hs1) as (s2 & E2 & Hs2 & L2 & F2 & K2); [congruence|].
  exists s2. rewrite M1 in L2, F2. split_and!; [|done..|].
  - unfold mbind, G_bind. by rewrite E1.
  - intros x. rewrite K2. unfold keysAt. by rewrite M1.
Qed.

Lemma adds_forEach {A} index (l : list A) f (P : A -> jsstr -> Prop) :
  (forall x, x ∈ l -> adds index (f x) (P x)) -> adds index (forEach l f) (fun k => exists x, x ∈ l /\ P x k).
Proof.
  induction l as [|x l IH]; intros H; cbn [forEach].
  - eapply adds_ext, adds_ret. intros k. split; [done|]. intros (y & Hy & _). by apply elem_of_nil in Hy.
  - eapply adds_ext, adds_bind; [|apply H, elem_of_cons; by left|apply IH; intros y Hy; apply H, elem_of_cons; by right].
    intros k. cbn beta. setoid_rewrite elem_of_cons. naive_solver.
Qed.

(** ** The caches *)

Lemma absOf_missing p : Forall isName p -> entriesOf (nodeAt t p) = None -> forall c, c = CFalse \/ c = CFile ->
  forall s, Inv s -> Inv (set_cache (absOf p) c s).
Proof.
  intros Hp Hn c Hc s Hs q Hq. split; [|by apply Hs]. cbn [s_cache set_cache].
  destruct (decide (absOf p = absOf q)) as [Eq|Ne].
  - rewrite Eq, lookup_insert_eq. apply absOf_inj in Eq as <-; [|done..]. destruct Hc as [-> | ->]; done.
  - rewrite lookup_insert_ne by done. by apply Hs.
Qed.

Lemma cache_true_ok f s : Inv s -> Inv (set_cache f CTrue s).
Proof.
  intros Hs q Hq. split; [|by apply Hs]. cbn [s_cache set_cache]. destruct (decide (f = absOf q)) as [->|Ne].
  - by rewrite lookup_insert_eq.
  - rewrite lookup_insert_ne by done. by apply Hs.
Qed.

Lemma cache_entries_ok p l s : Forall isName p -> entriesOf (nodeAt t p) = Some l -> Inv s -> Inv (set_cache (absOf p) (CEntries l) s).
Proof.
  intros Hp Hl Hs q Hq. split; [|by apply Hs]. cbn [s_cache set_cache].
  destruct (decide (absOf p = absOf q)) as [Eq|Ne].
  - rewrite Eq, lookup_insert_eq. by apply absOf_inj in Eq as <-.
  - rewrite lookup_insert_ne by done. by apply Hs.
Qed.

Lemma symlink_ok f s : Inv s -> Inv (set_symlink f false s).
Proof.
  intros Hs q Hq. split; [by apply Hs|]. cbn [s_symlinks set_symlink]. destruct (decide (f = absOf q)) as [->|Ne].
  - by rewrite lookup_insert_eq.
  - rewrite lookup_insert_ne by done. by apply Hs.
Qed.

Lemma makeAbs_abs p : Forall isName p -> makeAbs g (absOf p) = Ret (absOf p).
Proof.
  intros Hp. destruct Hplain as (_ & _ & _ & Hroot & _). unfold makeAbs.
  change (str_eqb (charAt (absOf p) 0) (js "/")) with true. cbn iota. rewrite Hroot. unfold joinPath. cbn [joinArgs].
  rewrite !bind_Ret. change (bool_decide (js "/" = [])) with false. rewrite bool_decide_eq_false_2 by done. f_equal.
  change (join [SLASH] [js "/"; absOf p]) with (SLASH :: SLASH :: SLASH :: join [SLASH] p).
  unfold normalize. change (isAbsolute (SLASH :: SLASH :: SLASH :: join [SLASH] p)) with true. cbn [negb andb].
  rewrite !segments_slash_l, segments_join by (by apply name_raw). unfold normalizeArray.
  rewrite (normStep_id p 0 Hp : foldr normStep ([], 0%nat) p = _), trailing_last, andb_false_r.
  case_bool_decide as Hj; [|done]. cbn [andb].
  rewrite bool_decide_eq_false_2; [done|]. rewrite !last_cons.
  pose proof (join_parts_last p (name_raw _ Hp)) as Hl. destruct (last (join [SLASH] p)) eqn:El; [congruence|].
  by apply last_None in El.
Qed.

(** Reading a directory of the tree. *)
Lemma readdirError_ok p code : Forall isName p -> entriesOf (nodeAt t p) = None -> code ∈ missingCodes ->
  reads (_ ← readdirError g (absOf p) code; mret (@None (list jsstr))) None.
Proof.
  intros Hp Hn Hc. eapply reads_bind; [|apply reads_ret]. unfold readdirError.
  eapply reads_bind; [apply reads_lift, makeAbs_abs, Hp|]. case_bool_decide as Hb.
  - apply reads_modify; [|done]. intros s Hs. apply absOf_missing; auto.
  - rewrite bool_decide_eq_true_2; [apply reads_modify; [|done]; intros s Hs; apply absOf_missing; auto|].
    unfold missingCodes in *. set_solver.
Qed.

Lemma readdirEntries_ok p l : Forall isName p -> entriesOf (nodeAt t p) = Some l ->
  reads (readdirEntries g (absOf p) l) (Some l).
Proof.
  intros Hp Hl. unfold readdirEntries. eapply reads_bind with (a := tt); [|].
  - case_match; [|apply reads_ret]. apply reads_forEach. intros x _. apply reads_modify; [|done]. apply cache_true_ok.
  - eapply reads_bind; [|apply reads_ret]. apply reads_modify; [|done]. intros s Hs. by apply cache_entries_ok.
Qed.

Lemma readdirPlain_ok p : Forall isName p -> reads (readdirPlain FS g (absOf p)) (entriesOf (nodeAt t p)).
Proof.
  intros Hp. apply reads_gets. intros s Hs. destruct (Hs p Hp) as [Hc _]. pose proof (HFS p Hp) as Hf.
  assert (Hread : reads match readdirSync FS (absOf p) with
                        | inr entries => readdirEntries g (absOf p) entries
                        | inl code => _ ← readdirError g (absOf p) code; mret None
                        end (entriesOf (nodeAt t p))).
  { destruct (nodeAt t p) as [[|kids]|] eqn:Ep.
    - destruct Hf as [-> _]. apply readdirError_ok; [done|by rewrite Ep|]. by apply elem_of_cons; left.
    - destruct Hf as [-> _]. apply readdirEntries_ok; [done|by rewrite Ep].
    - destruct Hf as [(code & -> & Hcode) _]. apply readdirError_ok; [done|by rewrite Ep|done]. }
  destruct (s_cache s !! absOf p) as [[| | | |l]|]; try (by apply Hread); rewrite Hc; by exists s.
Qed.

Lemma readdir_ok p b : Forall isName p -> reads (readdir FS g (absOf p) b) (entriesOf (nodeAt t p)).
Proof.
  intros Hp. apply reads_gets. intros s Hs. case_match; [|by apply readdirPlain_ok].
  revert s Hs H. unfold readdirInGlobStar. destruct (g_follow g); [intros s Hs _; by apply readdirPlain_ok|].
  intros s Hs _. revert s Hs. change (reads (match lstatSync FS (absOf p) with
    | None => mret None
    | Some lstat => _ ← modify (set_symlink (absOf p) (isSymbolicLink lstat));
        if negb (isSymbolicLink lstat) && negb (isDirectory lstat)
        then _ ← modify (set_cache (absOf p) CFile); mret None else readdirPlain FS g (absOf p)
    end) (entriesOf (nodeAt t p))).
  pose proof (readdirPlain_ok p Hp) as Hplainread. pose proof (HFS p Hp) as Hf.
  destruct (nodeAt t p) as [[|kids]|] eqn:Ep.
  - destruct Hf as [_ ->]. cbn [isSymbolicLink isDirectory negb andb].
    eapply reads_bind; [apply reads_modify; [apply symlink_ok|done]|].
    eapply reads_bind; [|apply reads_ret]. apply reads_modify; [|done]. intros s Hs. apply absOf_missing; [done|by rewrite Ep|auto|done].
  - destruct Hf as (_ & _ & ->). cbn [isSymbolicLink isDirectory negb andb].
    eapply reads_bind; [apply reads_modify; [apply symlink_ok|done]|]. done.
  - destruct Hf as [_ ->]. apply reads_ret.
Qed.

(** ** Patterns *)

Abbreviation matches := (Matches (en_toLowerCase E) o).

Lemma Matches_nonempty p ps : ~ matches [] (p :: ps).
Proof. intros H. inversion H; subst. by destruct us. Qed.

Lemma Matches_nil_iff sub : Forall isName sub -> matches sub [] <-> sub = [].
Proof.
  intros Hs. split; [|intros ->; constructor]. intros H. inversion H; subst; [done|].
  apply Forall_cons in Hs as [(? & _) _]. done.
Qed.

Lemma Matches_str sub s ps : matches sub (PStr s :: ps) <-> exists fs, sub = s :: fs /\ matches fs ps.
Proof.
  split.
  - intros H. inversion H; subst. cbn [partHit] in *. rewrite Hnocase in *. unfold str_eqb in *. boolprop. subst. eauto.
  - intros (fs & -> & H). constructor; [|done]. cbn [partHit]. rewrite Hnocase. by apply bool_decide_eq_true.
Qed.

Lemma Matches_re sub r src gl ps :
  matches sub (PRegExp r src gl :: ps) <-> exists f fs, sub = f :: fs /\ re_test r f = true /\ matches fs ps.
Proof.
  split; [intros H; inversion H; subst; eauto|]. intros (f & fs & -> & Hr & H). by constructor.
Qed.

Lemma Matches_globstar_iff sub p ps :
  matches sub (PGlobstar :: p :: ps) <->
  matches sub (p :: ps) \/ exists f fs, sub = f :: fs /\ dotBlocked o f = false /\ matches fs (PGlobstar :: p :: ps).
Proof.
  split.
  - intros H. inversion H as [| |? ? ? ? Hh| |us f fs ? ? Hu Hm]; subst; [done|]. destruct us as [|u us]; [by left|].
    right. apply Forall_cons in Hu as [? ?]. eexists _, _. split_and!; [done|done|]. by constructor.
  - intros [H|(f & fs & -> & Hf & H)].
    + destruct sub as [|f fs]; [by apply Matches_nonempty in H|]. by apply (Matches_globstar _ _ [] f fs).
    + inversion H as [| |? ? ? ? Hh| |us f' fs' ? ? Hu Hm]; subst; [done|].
      apply (Matches_globstar _ _ (f :: us) f' fs'); [by constructor|done].
Qed.

(** The keys a pattern contributes below a directory. *)
Definition hits (dir : list jsstr) (ps : list part) (k : jsstr) : Prop :=
  exists sub, k = join [SLASH] (dir ++ sub) /\ Forall isName sub /\ is_Some (nodeAt t (dir ++ sub)) /\ matches sub ps.

Lemma hits_strs strs dir ps k : Forall isName strs -> hits dir (map PStr strs ++ ps) k <-> hits (dir ++ strs) ps k.
Proof.
  intros Hs. revert dir. induction Hs as [|s strs Hn _ IH]; intros dir; [by rewrite app_nil_r|].
  cbn [map app]. replace (dir ++ s :: strs) with ((dir ++ [s]) ++ strs) by (by rewrite <- app_assoc).
  rewrite <- IH. unfold hits. split.
  - intros (sub & -> & Hsub & Hex & (fs & -> & Hm)%Matches_str). exists fs. rewrite <- app_assoc.
    apply Forall_cons in Hsub as [_ ?]. done.
  - intros (fs & -> & Hsub & Hex & Hm). exists (s :: fs). rewrite <- app_assoc in *. split_and!; [done|by constructor|done|].
    apply Matches_str. eauto.
Qed.

Lemma nodeAt_cons_dir dir f fs : is_Some (nodeAt t (dir ++ f :: fs)) ->
  exists kids, nodeAt t dir = Some (Dir kids) /\ f ∈ map fst kids.
Proof.
  rewrite nodeAt_app. destruct (nodeAt t dir) as [[|kids]|]; cbn; [by intros []| |by intros []].
  destruct (child f kids) eqn:Ec; [|by intros []]. intros _. exists kids. split; [done|]. apply child_is_Some. eauto.
Qed.

Lemma hits_no_dir dir p ps k : entriesOf (nodeAt t dir) = None -> ~ hits dir (p :: ps) k.
Proof.
  intros Hn ([|f fs] & -> & _ & Hex & Hm); [by apply Matches_nonempty in Hm|].
  apply nodeAt_cons_dir in Hex as (kids & Hd & _). by rewrite Hd in Hn.
Qed.

Lemma hits_nil dir k : hits dir [] k <-> k = join [SLASH] dir /\ is_Some (nodeAt t dir).
Proof.
  split.
  - intros (sub & -> & Hs & Hex & ->%Matches_nil_iff); [|done]. by rewrite app_nil_r in *.
  - intros [-> Hex]. exists []. rewrite app_nil_r. split_and!; [done|constructor|done|constructor].
Qed.

Lemma kids_names dir kids f : Forall isName dir -> nodeAt t dir = Some (Dir kids) -> f ∈ map fst kids -> isName f.
Proof.
  intros Hd Hn Hf. pose proof (HFS dir Hd) as H. rewrite Hn in H. destruct H as (_ & H & _).
  rewrite Forall_forall in H. auto.
Qed.

Lemma hits_re dir kids r src gl ps k : Forall isName dir -> nodeAt t dir = Some (Dir kids) ->
  hits dir (PRegExp r src gl :: ps) k <-> exists f, (f ∈ map fst kids /\ re_test r f = true) /\ hits (dir ++ [f]) ps k.
Proof.
  intros Hd Hn. split.
  - intros (sub & -> & Hs & Hex & (f & fs & -> & Hr & Hm)%Matches_re).
    destruct (nodeAt_cons_dir _ _ _ Hex) as (kids' & Hn' & Hf). simplify_eq. apply Forall_cons in Hs as [? ?].
    exists f. split; [done|]. exists fs. by rewrite <- app_assoc.
  - intros (f & [Hf Hr] & fs & -> & Hs & Hex & Hm). exists (f :: fs). rewrite <- app_assoc in *. split_and!; [done| |done|].
    + constructor; [by apply (kids_names dir kids)|done].
    + apply Matches_re. eauto.
Qed.

Lemma hits_globstar dir kids p ps k : Forall isName dir -> nodeAt t dir = Some (Dir kids) ->
  hits dir (PGlobstar :: p :: ps) k <->
  hits dir (p :: ps) k \/ exists f, (f ∈ map fst kids /\ dotBlocked o f = false) /\ hits (dir ++ [f]) (PGlobstar :: p :: ps) k.
Proof.
  intros Hd Hn. split.
  - intros (sub & -> & Hs & Hex & [Hm|(f & fs & -> & Hr & Hm)]%Matches_globstar_iff); [left; by exists sub|].
    destruct (nodeAt_cons_dir _ _ _ Hex) as (kids' & Hn' & Hf). simplify_eq. apply Forall_cons in Hs as [? ?].
    right. exists f. split; [done|]. exists fs. by rewrite <- app_assoc.
  - intros [(sub & -> & Hs & Hex & Hm)|(f & [Hf Hr] & fs & -> & Hs & Hex & Hm)].
    + exists sub. split_and!; [done..|]. apply Matches_globstar_iff. by left.
    + exists (f :: fs). rewrite <- app_assoc in *. split_and!; [done| |done|].
      * constructor; [by apply (kids_names dir kids)|done].
      * apply Matches_globstar_iff. right. eauto.
Qed.

(** A directory entry below a globstar. *)
Lemma dotBlocked_name f : isName f -> dotBlocked o f = str_eqb (charAt f 0) (js ".") && negb (g_dot g).
Proof.
  intros (_ & _ & H1 & H2). unfold dotBlocked. rewrite Hdot. unfold str_eqb at 1 2.
  rewrite !bool_decide_eq_false_2 by done. cbn [orb]. apply andb_comm.
Qed.

Lemma entryHit_good prefix r glob e : dotSafe (g_dot g) r glob -> entryHit g prefix glob r e = re_test r e.
Proof.
  intros Hs. destruct Hplain as (_ & _ & _ & _ & _ & Hneg). unfold entryHit. rewrite Hneg. cbn [andb].
  destruct (re_test r e) eqn:Hr; [|by rewrite andb_false_r]. rewrite andb_true_r.
  change (js ".") with [DOT]. rewrite !charAt_head. case_bool_decide as He; [|done]. cbn [negb orb].
  destruct (Hs e Hr He) as [-> | ->]; [done|]. by rewrite bool_decide_eq_true_2, orb_true_r.
Qed.

(** The prefix that stands for a directory. *)
Definition prefixFor (dir : list jsstr) : option jsstr := match dir with [] => None | _ => Some (join [SLASH] dir) end.

Lemma prefixFor_truthy dir : Forall isName dir -> prefixTruthy (prefixFor dir) = prefixFor dir.
Proof.
  intros Hd. destruct dir as [|d dir]; [done|]. cbn [prefixFor].
  assert (join [SLASH] (d :: dir) <> []) by (rewrite join_parts_nil; [done|by apply name_raw]).
  by destruct (join [SLASH] (d :: dir)).
Qed.

Lemma not_absolute_names dir e : Forall isName dir -> str_eqb (charAt (join [SLASH] dir ++ e) 0) (js "/") = false \/ dir = [].
Proof.
  intros Hd. destruct dir as [|d dir]; [by right|left]. change (js "/") with [SLASH]. rewrite charAt_head.
  apply bool_decide_eq_false. pose proof (join_parts_head _ (name_raw _ Hd)) as Hh.
  assert (join [SLASH] (d :: dir) <> []) by (rewrite join_parts_nil; [done|by apply name_raw]).
  by destruct (join [SLASH] (d :: dir)).
Qed.

Lemma entryPath_ok dir e : Forall isName dir -> isName e -> entryPath g (prefixFor dir) e = Ret (join [SLASH] (dir ++ [e])).
Proof.
  intros Hd He. unfold entryPath. rewrite prefixFor_truthy by done. destruct dir as [|d dir].
  - cbn [prefixFor app join]. pose proof (not_absolute_names [e] []) as H. rewrite app_nil_r in H. cbn [join] in H.
    by destruct H as [-> | ?]; [by constructor| |].
  - cbn [prefixFor]. rewrite sliceFrom_last, bool_decide_eq_false_2 by (apply join_parts_last, name_raw, Hd). cbn [negb].
    rewrite join_snoc by done. change (js "/") with [SLASH] at 1.
    destruct (not_absolute_names (d :: dir) ([SLASH] ++ e) Hd) as [H|]; [|done]. rewrite H. done.
Qed.

(** ** The shape of the patterns of the recursive calls *)

Lemma leading_split ps : exists strs remain,
  leading ps = (strs, remain) /\ ps = map PStr strs ++ remain /\ match remain with PStr _ :: _ => False | _ => True end.
Proof.
  induction ps as [|p ps (strs & remain & El & -> & Hr)]; [by exists [], []|].
  destruct p; try (by eexists [], _). exists (s :: strs), remain. split_and!; [|done..]. cbn [leading]. by rewrite El.
Qed.

Lemma leading_app ss ps strs remain : leading ps = (strs, remain) -> leading (map PStr ss ++ ps) = (ss ++ strs, remain).
Proof. intros El. induction ss as [|x ss IH]; [done|]. cbn [map app leading]. by rewrite IH. Qed.

(** [ss] spells the directory [dir]. *)
Definition spells (ss dir : list jsstr) : Prop :=
  join [SLASH] ss = join [SLASH] dir /\ (ss = [] <-> dir = []).

Lemma spells_app ss dir strs : spells ss dir -> spells (ss ++ strs) (dir ++ strs).
Proof.
  intros [Hj He]. destruct (decide (ss = [])) as [->|Hne].
  - rewrite (proj1 He) by done. done.
  - assert (dir <> []) by tauto. destruct strs as [|x strs]; [by rewrite !app_nil_r|].
    split; [by rewrite !join_app, Hj|]. split; intros [? ?]%app_eq_nil; done.
Qed.

Lemma spells_prefix dir : Forall isName dir ->
  exists ss, spells ss dir /\ match prefixTruthy (prefixFor dir) with Some p => [PStr p] | None => [] end = map PStr ss.
Proof.
  intros Hd. rewrite prefixFor_truthy by done. destruct dir as [|d dir]; [by exists []|].
  exists [join [SLASH] (d :: dir)]. done.
Qed.

Lemma prefixOf_ok ss dir strs remain ps :
  Forall isName (dir ++ strs) -> spells ss dir -> leading ps = (strs, remain) -> ps = map PStr strs ++ remain ->
  prefixOf g (map PStr ss ++ ps) = prefixFor (dir ++ strs).
Proof.
  intros Hn Hsp El Hps. unfold prefixOf. rewrite (leading_app _ _ _ _ El). cbn [fst].
  apply (spells_app _ _ strs) in Hsp as [Hj He].
  destruct (ss ++ strs) as [|x l] eqn:Ess; [by rewrite (proj1 He)|].
  assert (Hne : dir ++ strs <> []) by (intros H; by apply He in H).
  change (js "/") with [SLASH]. rewrite Hj.
  assert (HA : isAbsolute (join [SLASH] (dir ++ strs)) = false).
  { rewrite isAbsolute_head. apply bool_decide_eq_false. by apply join_parts_head, name_raw. }
  assert (HB : isAbsolute (join [SLASH] (map (partToString o) (map PStr ss ++ ps))) = false).
  { rewrite Hps, app_assoc, <- map_app, map_app, map_map. cbn [partToString]. rewrite map_id.
    rewrite isAbsolute_head in *. apply bool_decide_eq_false in HA. apply bool_decide_eq_false. rewrite Ess, <- Hj in *.
    destruct (map (partToString o) remain) as [|q qs]; [by rewrite app_nil_r|]. rewrite join_app by done.
    assert (join [SLASH] (x :: l) <> []) by (rewrite Hj, join_parts_nil; [done|by apply name_raw]).
    by destruct (join [SLASH] (x :: l)). }
  rewrite HA, HB. cbn [orb andb negb]. revert Hne. by destruct (dir ++ strs).
Qed.

Lemma makeAbs_dir dir : Forall isName dir -> makeAbs g (default (js ".") (prefixFor dir)) = Ret (absOf dir).
Proof.
  intros Hd. destruct Hplain as (_ & _ & Hcwd & _). unfold makeAbs. rewrite Hcwd.
  destruct dir as [|d dir]; [done|].
  change (default (js ".") (prefixFor (d :: dir))) with (join [SLASH] (d :: dir)).
  destruct (not_absolute_names (d :: dir) [] Hd) as [H|]; [|done]. rewrite app_nil_r in H. rewrite H.
  rewrite (H : isAbsolute (join [SLASH] (d :: dir)) = false). cbn [orb].
  rewrite bool_decide_eq_false_2 by (rewrite join_parts_nil; [done|by apply name_raw]). by apply resolve_names.
Qed.

(** The last part of a pattern: every matched entry is recorded. *)
Lemma addLoop index dir l s m :
  Forall isName dir -> Forall isName l -> s_matches s !! index = Some (Some m) ->
  forEach l (fun e => p ← lift (entryPath g (prefixFor dir) e); addMatch index p) s
  = Ret (tt, set_matches (<[index := Some (setKeys (map (fun e => join [SLASH] (dir ++ [e])) l) m)]> (s_matches s)) s).
Proof.
  intros Hd Hl. revert s m. induction Hl as [|e l He _ IH]; intros s m Hm.
  - cbn. unfold mret, G_ret. rewrite list_insert_id by done. by destruct s.
  - cbn [forEach map].
    rewrite (G_bind_Ret _ _ tt s (set_matches (<[index := Some (setKey (join [SLASH] (dir ++ [e])) m)]> (s_matches s)) s)).
    2: { rewrite (G_bind_Ret _ _ (join [SLASH] (dir ++ [e])) s s) by (unfold lift; by rewrite entryPath_ok).
         unfold addMatch, modify. by rewrite (alter_as_insert _ _ _ _ Hm). }
    rewrite (IH _ (setKey (join [SLASH] (dir ++ [e])) m)).
    + cbn [s_matches set_matches]. by rewrite list_insert_insert_eq.
    + cbn [s_matches set_matches]. apply list_lookup_insert_eq. by eapply lookup_lt_Some.
Qed.

Lemma initMatch_ok index s : (index < length (s_matches s))%nat -> Inv s ->
  exists s', initMatch index s = Ret (tt, s') /\ Inv s' /\ length (s_matches s') = length (s_matches s) /\
    (forall j, j <> index -> s_matches s' !! j = s_matches s !! j) /\ s_matches s' !! index = Some (Some (keysAt index s)).
Proof.
  intros Hi Hs. unfold initMatch, modify, keysAt. destruct (lookup_lt_is_Some_2 _ _ Hi) as [[m|] Hm]; rewrite Hm; cbn [isSet].
  - exists s. by split_and!.
  - eexists. split_and!; [done|done| | |]; cbn [s_matches set_matches].
    + by rewrite length_insert.
    + intros j Hj. by apply list_lookup_insert_ne.
    + by apply list_lookup_insert_eq.
Qed.

Lemma lastPart_ok index dir l : Forall isName dir -> Forall isName l ->
  adds index (_ ← initMatch index; forEach l (fun e => p ← lift (entryPath g (prefixFor dir) e); addMatch index p))
    (fun k => k ∈ map (fun e => join [SLASH] (dir ++ [e])) l).
Proof.
  intros Hd Hl s Hs Hi. destruct (initMatch_ok index s Hi Hs) as (s1 & E1 & Hs1 & L1 & F1 & M1).
  eexists. split_and!.
  - rewrite (G_bind_Ret _ _ _ _ _ E1). by apply addLoop.
  - done.
  - cbn [s_matches set_matches]. by rewrite length_insert.
  - intros j Hj. cbn [s_matches set_matches]. rewrite list_lookup_insert_ne by done. by apply F1.
  - intros k. unfold keysAt at 1. cbn [s_matches set_matches]. rewrite list_lookup_insert_eq by lia. apply elem_of_setKeys.
Qed.

(** One level of a pattern that starts with an expression. *)
Lemma processReaddir_ok rec index dir r src glob ps b :
  Forall isName dir -> dotSafe (g_dot g) r glob ->
  (forall kids f ss, ps <> [] -> nodeAt t dir = Some (Dir kids) -> f ∈ map fst kids -> spells ss dir ->
     adds index (rec (map PStr (ss ++ [f]) ++ ps) b) (hits (dir ++ [f]) ps)) ->
  adds index (processReaddir FS g rec (prefixFor dir) (absOf dir) (PRegExp r src (Some glob) :: ps) index b)
    (hits dir (PRegExp r src (Some glob) :: ps)).
Proof.
  intros Hd Hr Hrec. unfold processReaddir. eapply adds_reads; [by apply readdir_ok|].
  destruct (nodeAt t dir) as [[|kids]|] eqn:Hn; cbn [entriesOf].
  1, 3: eapply adds_ext, adds_ret; intros k; split; [done|]; apply hits_no_dir; by rewrite Hn.
  eapply adds_reads; [by apply reads_lift|]. cbn beta.
  assert (Hentries : forall e, entryHit g (prefixFor dir) glob r e = re_test r e) by (intros; by apply entryHit_good).
  set (l := filter _ (map fst kids)).
  assert (Hl : forall f, f ∈ l <-> f ∈ map fst kids /\ re_test r f = true).
  { intros f. unfold l. rewrite list_elem_of_filter, Hentries. tauto. }
  assert (Hln : Forall isName l) by (apply Forall_forall; intros f [Hf _]%Hl; by apply (kids_names dir kids)).
  assert (Hhits : forall k, hits dir (PRegExp r src (Some glob) :: ps) k <-> exists f, f ∈ l /\ hits (dir ++ [f]) ps k).
  { intros k. rewrite hits_re by done. by setoid_rewrite Hl. }
  destruct Hplain as (Hmark & Hstat & _). rewrite Hmark, Hstat. cbn [negb].
  case_bool_decide as Hnil.
  { eapply adds_ext, adds_ret. intros k. rewrite Hhits, Hnil. setoid_rewrite elem_of_nil. naive_solver. }
  rewrite !andb_true_r. case_bool_decide as Hps.
  - subst ps. eapply adds_ext, lastPart_ok; [|done|done]. intros k. rewrite Hhits, list_elem_of_fmap.
    setoid_rewrite hits_nil. split.
    + intros (f & -> & Hf). exists f. split_and!; [done|done|]. rewrite nodeAt_app, Hn. cbn [nodeAt].
      apply Hl in Hf as [Hf%child_is_Some _]. destruct Hf as [n ->]. eauto.
    + intros (f & Hf & -> & _). eauto.
  - eapply adds_ext; [|apply (adds_forEach _ _ _ (fun f => hits (dir ++ [f]) ps))]; [intros k; by rewrite Hhits|].
    intros f [Hf _]%Hl. destruct (spells_prefix dir Hd) as (ss & Hss & ->).
    replace (map PStr ss ++ [PStr f] ++ ps) with (map PStr (ss ++ [f]) ++ ps)
      by (by rewrite map_app, <- app_assoc). by eapply Hrec.
Qed.

(** One level of a pattern that starts with a globstar; the call with the
    entry instead of the globstar adds nothing that the other two do not. *)
Lemma processGlobStar_ok rec index dir p ps b :
  Forall isName dir ->
  (forall ss, spells ss dir -> adds index (rec (map PStr ss ++ p :: ps) false) (hits dir (p :: ps))) ->
  (forall kids f ss qs, qs = p :: ps \/ qs = PGlobstar :: p :: ps ->
     nodeAt t dir = Some (Dir kids) -> f ∈ map fst kids -> spells ss dir ->
     adds index (rec (map PStr (ss ++ [f]) ++ qs) true) (hits (dir ++ [f]) qs)) ->
  adds index (processGlobStar FS g rec (prefixFor dir) (absOf dir) (PGlobstar :: p :: ps) b) (hits dir (PGlobstar :: p :: ps)).
Proof.
  intros Hd Hzero Hmore. unfold processGlobStar. eapply adds_reads; [by apply readdir_ok|].
  destruct (nodeAt t dir) as [[|kids]|] eqn:Hn; cbn [entriesOf].
  1, 3: eapply adds_ext, adds_ret; intros k; split; [done|]; apply hits_no_dir; by rewrite Hn.
  cbn [drop]. destruct (spells_prefix dir Hd) as (ss & Hss & ->).
  eapply adds_ext, adds_bind; [|by apply Hzero|].
  - intros k. symmetry. apply (hits_globstar dir kids p ps k Hd Hn).
  - apply (adds_reads _ _ false).
    { intros s Hs. exists s. split_and!; [|done..]. unfold gets. by rewrite (proj2 (Hs dir Hd)). }
    cbn [andb]. eapply adds_ext; [|apply (adds_forEach _ _ _ (fun f k => dotBlocked o f = false /\ hits (dir ++ [f]) (PGlobstar :: p :: ps) k))].
    { intros k. split; [intros (f & ? & ? & ?); eauto|intros (f & [? ?] & ?); eauto]. }
    intros f Hf. rewrite dotBlocked_name by (by apply (kids_names dir kids)).
    destruct (_ && _); [eapply adds_ext, adds_ret; intros k; split; [done|by intros [? _]]|].
    eapply adds_ext, adds_bind.
    3: { replace (map PStr ss ++ [PStr f] ++ PGlobstar :: p :: ps) with (map PStr (ss ++ [f]) ++ PGlobstar :: p :: ps)
           by (by rewrite map_app, <- app_assoc). apply (Hmore kids f ss); auto. }
    2: { replace (map PStr ss ++ [PStr f] ++ p :: ps) with (map PStr (ss ++ [f]) ++ p :: ps)
           by (by rewrite map_app, <- app_assoc). apply (Hmore kids f ss); auto. }
    intros k. split; [|tauto]. intros [(sub & -> & Hs & Hex & Hm)|]; [|done]. split; [done|].
    exists sub. split_and!; [done..|]. apply Matches_globstar_iff. by left.
Qed.

Lemma magic_cons p ps : magic (p :: ps) = ((if isStr p then 0 else 1) + magic ps)%nat.
Proof. unfold magic. rewrite filter_cons. by destruct (isStr p). Qed.

Lemma magic_strs strs ps : magic (map PStr strs ++ ps) = magic ps.
Proof. induction strs as [|x strs IH]; [done|]. cbn [map app]. by rewrite magic_cons, IH. Qed.

Lemma goodPattern_tail p ps : goodPattern (g_dot g) (p :: ps) -> ps <> [] -> goodPattern (g_dot g) ps.
Proof.
  intros [Hf (init & q & E1 & Hq)] Hne. apply Forall_cons in Hf as [_ Hf]. split; [done|].
  destruct init as [|x init]; cbn in E1; injection E1 as -> E1; [by subst ps|]. eauto.
Qed.

Lemma goodPattern_strs strs remain : goodPattern (g_dot g) (map PStr strs ++ remain) -> Forall isName strs /\ remain <> [] /\ goodPattern (g_dot g) remain.
Proof.
  induction strs as [|x strs IH]; cbn [map app]; intros Hg.
  - split_and!; [constructor| |done]. destruct Hg as [_ (init & q & -> & _)]. by destruct init.
  - assert (Hne : map PStr strs ++ remain <> []).
    { destruct Hg as [_ (init & q & E1 & Hq)]. intros Hnil. rewrite Hnil in E1.
      destruct init as [|? []]; cbn in E1; try done. by injection E1 as <-. }
    destruct (IH (goodPattern_tail _ _ Hg Hne)) as (? & ? & ?). split_and!; [|done..]. constructor; [|done].
    destruct Hg as [[Hx _]%Forall_cons _]. by inversion Hx.
Qed.

(** The walk below a directory, for enough fuel: the height of the tree plus
    the parts that are not strings. *)
Lemma process_ok fuel index ss dir ps b :
  Forall isName dir -> spells ss dir -> goodPattern (g_dot g) ps -> (magic ps + heightAt t dir < fuel)%nat ->
  adds index (process E FS g fuel index (map PStr ss ++ ps) b) (hits dir ps).
Proof.
  revert ss dir ps b. induction fuel as [|fuel IH]; intros ss dir ps b Hd Hss Hg Hf; [lia|]. cbn [process].
  destruct (leading_split ps) as (strs & remain & El & Hps & Hhead). rewrite (leading_app _ _ _ _ El).
  pose proof Hg as Hg'. rewrite Hps in Hg'. apply goodPattern_strs in Hg' as (Hstrs & Hne & Hgr).
  set (D := dir ++ strs). assert (HD : Forall isName D) by (by apply Forall_app).
  assert (Hhits : forall k, hits dir ps k <-> hits D remain k) by (intros k; rewrite Hps; by apply hits_strs).
  assert (Hbound : (magic remain + heightAt t D <= fuel)%nat).
  { pose proof (heightAt_app t dir strs). rewrite Hps, magic_strs in Hf. unfold D. lia. }
  destruct remain as [|pn remain]; [done|].
  rewrite (prefixOf_ok ss dir strs (pn :: remain) ps) by done. fold D.
  eapply adds_reads; [by apply reads_lift, makeAbs_dir|].
  assert (childrenIgnored E g (default (js ".") (prefixFor D)) = false) as ->.
  { unfold childrenIgnored. by destruct Hplain as (_ & _ & _ & _ & -> & _). }
  eapply adds_ext; [intros k; symmetry; apply Hhits|].
  pose proof Hgr as [[Hpn _]%Forall_cons _]. rewrite magic_cons in Hbound.
  inversion Hpn as [s Hs|E1|r src glob Hsafe E1]; subst pn; [done| |].
  - destruct remain as [|q qs]; [exfalso; destruct Hgr as [_ ([|? []] & z & Hz & Hr)]; cbn in Hz; simplify_eq; done|].
    assert (Hgq : goodPattern (g_dot g) (q :: qs)) by (by eapply goodPattern_tail).
    apply processGlobStar_ok; [done| |].
    + intros ss' Hss'. apply IH; [done..|]. cbn [isStr] in Hbound. lia.
    + intros kids f ss' rest Hrest Hn Hfk Hss'.
      assert (isName f) by (by apply (kids_names D kids)).
      apply IH; [apply Forall_app; split; [done|by constructor]|by apply spells_app| |].
      * destruct Hrest as [-> | ->]; done.
      * pose proof (heightAt_below t D kids f [] Hn). destruct Hrest as [-> | ->]; rewrite ?(magic_cons PGlobstar); cbn [isStr] in *; lia.
  - apply processReaddir_ok; [done|done|]. intros kids f ss' Hne' Hn Hfk Hss'.
    assert (isName f) by (by apply (kids_names D kids)).
    apply IH; [apply Forall_app; split; [done|by constructor]|by apply spells_app|by eapply goodPattern_tail|].
    pose proof (heightAt_below t D kids f [] Hn). cbn [isStr] in *. lia.
Qed.

(** The loop over the alternatives of the pattern. *)
Lemma processAll_ok fuel index set s :
  Forall (fun ps => goodPattern (g_dot g) ps /\ (magic ps + height t < fuel)%nat) set ->
  Inv s -> length (s_matches s) = (index + length set)%nat ->
  exists s', processAll E FS g fuel index set s = Ret (tt, s') /\ Inv s' /\ length (s_matches s') = length (s_matches s) /\
    (forall j, (j < index)%nat -> s_matches s' !! j = s_matches s !! j) /\
    (forall i ps, set !! i = Some ps -> forall k, k ∈ keysAt (index + i) s' <-> k ∈ keysAt (index + i) s \/ hits [] ps k).
Proof.
  intros Hset. revert index s. induction Hset as [|ps set [Hg Hf] _ IH]; intros index s Hs Hlen; cbn [processAll length] in *.
  { exists s. split_and!; try done. }
  destruct (process_ok fuel index [] [] ps false ltac:(constructor) ltac:(done) Hg Hf s Hs ltac:(lia))
    as (s1 & E1 & Hs1 & L1 & F1 & K1).
  destruct (IH (S index) s1 Hs1) as (s2 & E2 & Hs2 & L2 & F2 & K2); [lia|].
  exists s2. split_and!; [|done|lia| |].
  - by rewrite (G_bind_Ret _ _ tt s s1).
  - intros j Hj. rewrite F2, F1; (done || lia).
  - intros [|i] qs Hi k.
    + injection Hi as <-. rewrite Nat.add_0_r. rewrite <- K1. unfold keysAt. by rewrite F2 by lia.
    + specialize (K2 i qs Hi k). rewrite Nat.add_succ_r, <- Nat.add_succ_l. rewrite K2.
      assert (keysAt (S index + i) s1 = keysAt (S index + i) s) as -> by (unfold keysAt; by rewrite F1 by lia). done.
Qed.

(** The whole walk from empty caches. *)
Lemma processAll_fresh fuel set :
  Forall (fun ps => goodPattern (g_dot g) ps /\ (magic ps + height t < fuel)%nat) set ->
  exists s', processAll E FS g fuel 0 set (set_matches (replicate (length set) None) (mkWalk ∅ ∅ ∅ [] [])) = Ret (tt, s') /\
    forall k, (exists i, k ∈ keysAt i s') <-> exists ps, ps ∈ set /\ hits [] ps k.
Proof.
  intros Hset. set (s0 := set_matches _ _).
  assert (Hs0 : Inv s0) by (intros path _; cbn [s0 set_matches s_cache s_symlinks]; by rewrite !lookup_empty).
  assert (Hempty : forall i, keysAt i s0 = []).
  { intros i. unfold keysAt. cbn [s0 set_matches s_matches].
    destruct (replicate _ _ !! i) as [[m|]|] eqn:Er; [by apply lookup_replicate_1 in Er as [Er1 Er2]|done|done]. }
  destruct (processAll_ok fuel 0 set s0) as (s1 & E1 & _ & L1 & _ & K1); [done|done|by cbn; rewrite length_replicate|].
  exists s1. split; [done|]. intros k. split.
  - intros (i & Hi). destruct (set !! i) as [ps|] eqn:Eps.
    + exists ps. split; [by eapply list_elem_of_lookup_2|]. destruct (proj1 (K1 i ps Eps k) Hi) as [Hold|]; [|done].
      cbn [Nat.add] in Hold. rewrite Hempty in Hold. by apply elem_of_nil in Hold.
    + unfold keysAt in Hi. rewrite lookup_ge_None_2 in Hi; [by apply elem_of_nil in Hi|].
      apply lookup_ge_None in Eps. rewrite L1. cbn [s0 set_matches s_matches]. by rewrite length_replicate.
  - intros (ps & Hin & Hh). apply list_elem_of_lookup_1 in Hin as [i Hi]. exists i. apply (K1 i ps Hi). by right.
Qed.

End Tree.

(** * Collecting the results *)

Lemma collectAll_elem g k all i l : g_nonull g = false ->
  k ∈ collectAll g all i l <-> k ∈ all \/ exists m, Some m ∈ l /\ k ∈ m.
Proof.
  intros Hnn. revert all i. induction l as [|matches l IH]; intros all i; cbn [collectAll].
  - setoid_rewrite elem_of_nil. naive_solver.
  - rewrite IH. assert (Hc : k ∈ collect g all i matches <-> k ∈ all \/ exists m, matches = Some m /\ k ∈ m).
    { unfold collect. rewrite Hnn. destruct matches as [[|x m]|]; [|  |naive_solver].
      { split; [by left|]. intros [?|(m & [= <-] & []%elem_of_nil)]; done. }
      destruct (g_nounique g).
      - rewrite elem_of_app, objectKeys_perm. naive_solver.
      - change (fold_left _ ?l ?a) with (setKeys l a). rewrite elem_of_setKeys, objectKeys_perm. naive_solver. }
    rewrite Hc. setoid_rewrite elem_of_cons. naive_solver.
Qed.

Lemma collectAll_NoDup g all i l : g_nounique g = false -> NoDup all -> NoDup (collectAll g all i l).
Proof.
  intros Hn. revert all i. induction l as [|matches l IH]; intros all i Ha; cbn [collectAll]; [done|]. apply IH.
  unfold collect. rewrite Hn. change (fold_left (fun a k => setKey k a)) with setKeys.
  destruct matches as [[|x m]|]; [destruct (g_nonull g)| |destruct (g_nonull g)]; by try apply NoDup_setKeys.
Qed.

(** [finish] turns the matches of all alternatives into the result: without
    marks and [nonull] it changes no cache, returns exactly the matched paths
    that no ignore pattern covers, each once unless [nounique] is set, and
    sorted by [localeCompare] unless [nosort] is set. *)
Lemma finish_ok E g s :
  g_mark g = false -> g_nonull g = false ->
  (forall a b, en_localeCompare E a b <= 0 \/ en_localeCompare E b a <= 0) ->
  (forall a b c, en_localeCompare E a b <= 0 -> en_localeCompare E b c <= 0 -> en_localeCompare E a c <= 0) ->
  exists found, finish E g s = Ret (found, s) /\
    (forall k, k ∈ found <-> (exists m, Some m ∈ s_matches s /\ k ∈ m) /\ isIgnored E g k = false) /\
    (g_nounique g = false -> NoDup found) /\
    (g_nosort g = false -> StronglySorted (cmpLe (if g_nocase g then alphasorti E else alphasort E)) found).
Proof.
  intros Hm Hnn Htot Htrans. unfold finish. rewrite Hm.
  set (cmp := if g_nocase g then alphasorti E else alphasort E).
  set (all := collectAll g [] 0 (s_matches s)).
  set (keys := if g_nounique g then all else objectKeys all).
  set (sorted := if g_nosort g then keys else sortWith cmp keys).
  exists (match g_ignore g with [] => sorted | _ => filter (fun m => isIgnored E g m = false) sorted end).
  assert (Hp : sorted ≡ₚ all).
  { unfold sorted, keys, sortWith. destruct (g_nosort g), (g_nounique g); rewrite ?merge_sort_Permutation, ?objectKeys_perm; done. }
  assert (Hk : forall k, k ∈ sorted <-> exists m, Some m ∈ s_matches s /\ k ∈ m).
  { intros k. rewrite Hp. unfold all. rewrite collectAll_elem by done. rewrite elem_of_nil. tauto. }
  assert (Hss : g_nosort g = false -> StronglySorted (cmpLe cmp) sorted).
  { intros Hns. unfold sorted. rewrite Hns. apply StronglySorted_merge_sort; unfold cmp.
    - intros a b c. destruct (g_nocase g); unfold cmpLe, alphasorti, alphasort; apply Htrans.
    - intros a b. destruct (g_nocase g); unfold cmpLe, alphasorti, alphasort; apply Htot. }
  split_and!.
  - reflexivity.
  - intros k. destruct (g_ignore g) as [|x l] eqn:Ei.
    + rewrite Hk. unfold isIgnored. rewrite Ei. cbn. tauto.
    + rewrite list_elem_of_filter, Hk. tauto.
  - intros Hnu. assert (Hnd : NoDup sorted) by (rewrite Hp; apply collectAll_NoDup; [done|constructor]).
    destruct (g_ignore g); [done|]. by apply NoDup_filter.
  - intros Hns. destruct (g_ignore g); [auto|]. by apply StronglySorted_filter_sub, Hss.
Qed.

(** * The walker on a tree, end to end *)

Lemma slashSplit_join names : names <> [] -> Forall rawPart names -> slashSplit (join [SLASH] names) = names.
Proof.
  intros Hne H. unfold slashSplit.
  assert (Hword : forall w rest b, rawPart w -> splitRun isSlash b (w ++ SLASH :: rest) = w :: splitRun isSlash true rest).
  { intros w rest b [Hw Hs]. revert b. induction Hs as [|c w Hc Hs IH]; intros b; [done|]. cbn [app splitRun].
    unfold isSlash at 1. destruct (Z.eqb_spec c 47); [done|]. destruct w as [|d w]; [done|]. by rewrite IH. }
  assert (Hlast : forall w b, rawPart w -> splitRun isSlash b w = [w]).
  { intros w b [Hw Hs]. revert b. induction Hs as [|c w Hc Hs IH]; intros b; [done|]. cbn [app splitRun].
    unfold isSlash at 1. destruct (Z.eqb_spec c 47); [done|]. destruct w as [|d w]; [done|]. by rewrite IH. }
  generalize false as b. induction H as [|w names Hw _ IH]; intros b; [done|]. destruct names as [|v names]; [by apply Hlast|].
  rewrite join_cons by done. cbn [app]. rewrite Hword by done. f_equal. by apply IH.
Qed.

Lemma newMinimatch_fields E pattern o m : Minimatch_ E pattern o = Ret m ->
  mm_options m = o /\ (opt o "nonegate" = true -> mm_negate m = false) /\
  (opt o "nocomment" = true -> mm_comment m = false) /\ (mm_empty m = true -> mm_set m = []).
Proof.
  unfold Minimatch_, newMinimatch, make. cbn [mm_options mm_pattern mm_set mm_regexp mm_negate mm_comment mm_empty mm_globSet mm_globParts].
  destruct (negb (opt o "nocomment") && _) eqn:Ec.
  { intros [= <-]. cbn. split_and!; [done|done| |done]. intros Hn. rewrite Hn in Ec. done. }
  case_bool_decide; [intros [= <-]; by cbn|]. unfold parseNegate. cbn [mm_options mm_pattern mm_set mm_regexp mm_negate mm_comment mm_empty mm_globSet mm_globParts].
  destruct (opt o "nonegate") eqn:En; cbn [mm_options mm_pattern mm_set mm_regexp mm_negate mm_comment mm_empty mm_globSet mm_globParts];
    
    (destruct (braceExpand _ _ _ _ _ _ _) as [gs| |]; [|done..]); rewrite bind_Ret;
    (destruct (mapO _ _) as [set| |]; [|done..]); rewrite bind_Ret; intros [= <-]; by cbn.
Qed.

(** The options the theorem is about: [o], with the pattern options of the
    library and none of the options that change what a result is. *)
Definition treeOptions (o : options) : Prop :=
  Forall (fun k => opt o k = false)
    ["matchBase"; "mark"; "nodir"; "stat"; "nocase"; "realpath"; "nonull"; "noprocess"; "flipNegate"]%string /\
  notFalse o "nonegate" = true /\ notFalse o "nocomment" = true.

Definition withDefaults (o : options) : options := <["nocomment" := true]> (<["nonegate" := true]> o).

Lemma opt_withDefaults o k : k <> "nocomment"%string -> k <> "nonegate"%string -> opt (withDefaults o) k = opt o k.
Proof. intros H1 H2. unfold opt, withDefaults. by rewrite !lookup_insert_ne. Qed.

(** The fields after [setopts]. *)
Lemma setopts_tree E w pattern o m :
  treeOptions o -> Minimatch_ E pattern (withDefaults o) = Ret m ->
  exists g, setopts E w pattern (mkGlobOptions o None None NoIgnore None ∅ ∅ ∅) = Ret (g, mkWalk ∅ ∅ ∅ [] [], w) /\
    plainWalker g /\ g_minimatch g = m /\ g_dot g = opt o "dot" /\ g_realpath g = false /\ g_nonull g = false /\ g_noprocess g = false /\
    g_nodir g = false /\ g_nounique g = opt o "nounique" /\ g_nosort g = opt o "nosort" /\ g_nocase g = false.
Proof.
  intros (Hf & Hnn & Hnc) Hm.
  assert (Ho : forall k, k ∈ ["matchBase"; "mark"; "nodir"; "stat"; "nocase"; "realpath"; "nonull"; "noprocess"; "flipNegate"]%string -> opt o k = false)
    by (by apply Forall_forall).
  destruct (newMinimatch_fields _ _ _ _ Hm) as (_ & Hneg & _ & _).
  eexists. unfold setopts. cbn [go_flags go_ignore go_cwd go_root go_maxLength go_cache go_statCache go_symlinks].
  rewrite (Ho "matchBase"%string) by in_list. cbn [andb]. rewrite !bind_Ret.
  change (setupIgnores E NoIgnore) with (@Ret (list ignoreItem) []). rewrite !bind_Ret.
  change (resolve process_cwd [Some process_cwd; Some (js "/")]) with (Ret (js "/")). rewrite bind_Ret.
  change (resolve process_cwd [Some (js "/")]) with (Ret (js "/")). rewrite bind_Ret.
  rewrite Hnn. assert (notFalse (<["nonegate" := true]> o) "nocomment" = true) as ->
    by (unfold notFalse in *; by rewrite lookup_insert_ne).
  fold (withDefaults o). unfold deprecationWarning.
  replace (opt (withDefaults o) "nonegate") with true by (unfold opt, withDefaults; by rewrite lookup_insert_ne, lookup_insert_eq).
  replace (opt (withDefaults o) "nocomment") with true by (unfold opt, withDefaults; by rewrite lookup_insert_eq).
  cbn [negb orb andb]. rewrite Hm, bind_Ret. split; [done|].
  rewrite !opt_withDefaults by done. unfold plainWalker.
  cbn [g_mark g_stat g_changedCwd g_root g_ignore g_minimatch g_dot g_realpath g_nonull g_noprocess g_nodir g_nounique g_nosort g_nocase].
  rewrite (Ho "nodir"%string), (Ho "mark"%string) by in_list.
  split_and!; try done; try (apply Ho; in_list).
  apply Hneg. unfold opt, withDefaults. by rewrite lookup_insert_ne, lookup_insert_eq.
Qed.

Lemma match_names E m segs :
  segs <> [] -> Forall isName segs -> mm_comment m = false -> mm_negate m = false ->
  opt (mm_options m) "flipNegate" = false -> opt (mm_options m) "matchBase" = false ->
  (mm_empty m = true -> mm_set m = []) ->
  mmatch E m (join [SLASH] segs) = true <->
  exists ps, ps ∈ mm_set m /\ matchOne (en_toLowerCase E) (mm_options m) false segs ps = true.
Proof.
  intros Hne Hn Hc Hneg Hflip Hbase Hempty. unfold mmatch, match_. rewrite Hc. destruct (mm_empty m) eqn:Em.
  - rewrite Hempty by done. unfold str_eqb. rewrite bool_decide_eq_true, join_parts_nil by (by apply name_raw).
    setoid_rewrite elem_of_nil. naive_solver.
  - rewrite andb_false_r, toSlash_id. change 47 with SLASH. rewrite slashSplit_join by (by try apply name_raw). rewrite Hflip, Hneg.
    unfold anyHit. rewrite Hbase. cbn [andb negb].
    destruct (existsb _ (mm_set m)) eqn:Ex.
    + apply existsb_exists in Ex as (ps & Hin & H). split; [|done]. intros _. exists ps. split; [by apply list_elem_of_In|done].
    + split; [done|]. intros (ps & Hin & H). apply not_true_iff_false in Ex. destruct Ex. apply existsb_exists.
      exists ps. split; [by apply list_elem_of_In|done].
Qed.

Lemma mmatch_names E pattern o m segs :
  treeOptions o -> Minimatch_ E pattern (withDefaults o) = Ret m -> segs <> [] -> Forall isName segs ->
  mmatch E m (join [SLASH] segs) = true <->
  exists ps, ps ∈ mm_set m /\ matchOne (en_toLowerCase E) (mm_options m) false segs ps = true.
Proof.
  intros (Hf & _) Hm Hne Hn. destruct (newMinimatch_fields _ _ _ _ Hm) as (Hmo & Hneg & Hcom & Hemp).
  rewrite Forall_forall in Hf. apply match_names; try done.
  - apply Hcom. unfold opt, withDefaults. by rewrite lookup_insert_eq.
  - apply Hneg. unfold opt, withDefaults. by rewrite lookup_insert_ne, lookup_insert_eq.
  - rewrite Hmo, opt_withDefaults by done. apply Hf. in_list.
  - rewrite Hmo, opt_withDefaults by done. apply Hf. in_list.
Qed.

Lemma matches_keys s k : (exists m, Some m ∈ s_matches s /\ k ∈ m) <-> exists i, k ∈ keysAt i s.
Proof.
  split.
  - intros (m & [i Hi]%list_elem_of_lookup_1 & Hk). exists i. unfold keysAt. by rewrite Hi.
  - intros [i Hi]. unfold keysAt in Hi. destruct (s_matches s !! i) as [[m|]|] eqn:Em; [|by apply elem_of_nil in Hi..].
    exists m. split; [by eapply list_elem_of_lookup_2|done].
Qed.

(** A run of [glob.sync] on a tree: its result has the paths that the
    alternatives of the pattern stand for, without repetitions and in order. *)
Lemma globSync_run E FS t w pattern o m fuel :
  servesTree FS t -> pattern <> [] -> treeOptions o ->
  Minimatch_ E pattern (withDefaults o) = Ret m ->
  Forall (goodPattern (opt o "dot")) (mm_set m) ->
  Forall (fun ps => (magic ps + height t < fuel)%nat) (mm_set m) ->
  (forall a b, en_localeCompare E a b <= 0 \/ en_localeCompare E b a <= 0) ->
  (forall a b c, en_localeCompare E a b <= 0 -> en_localeCompare E b c <= 0 -> en_localeCompare E a c <= 0) ->
  exists g found, g_minimatch g = m /\ globSync E FS fuel w pattern (OptObject (mkGlobOptions o None None NoIgnore None ∅ ∅ ∅)) 2 = Ret (Some found) /\
    (forall path, path ∈ found <-> exists ps, ps ∈ mm_set m /\ hits E g t [] ps path) /\
    (opt o "nounique" = false -> NoDup found) /\
    (opt o "nosort" = false -> StronglySorted (cmpLe (alphasort E)) found).
Proof.
  intros HFS Hpat Hopts Hm Hgood Hfuel Htot Htrans.
  destruct (setopts_tree E w pattern o m Hopts Hm) as (g & Hset & Hplain & Hgm & Hgdot & Hreal & Hnull & Hproc & _ & Huniq & Hsort & Hnocase).
  destruct (newMinimatch_fields _ _ _ _ Hm) as (Hmo & _).
  pose proof Hopts as (Hf & _). rewrite Forall_forall in Hf.
  unfold globSync, GlobSync. cbn [orb Nat.eqb]. rewrite bool_decide_eq_false_2 by done. rewrite Hset, bind_Ret, Hproc, Hgm.
  assert (Hcase : opt (mm_options (g_minimatch g)) "nocase" = false).
  { rewrite Hgm, Hmo, opt_withDefaults by done. apply Hf. in_list. }
  assert (Hdots : opt (mm_options (g_minimatch g)) "dot" = g_dot g) by (by rewrite Hgm, Hmo, Hgdot, opt_withDefaults).
  destruct (processAll_fresh E FS g t Hplain HFS Hcase Hdots fuel (mm_set m)) as (s1 & E1 & K1).
  { apply Forall_and. rewrite Hgdot. done. }
  rewrite E1, bind_Ret. unfold finish_. rewrite Hreal.
  destruct Hplain as (Hmark & _ & _ & _ & Hign & _).
  destruct (finish_ok E g s1 Hmark Hnull Htot Htrans) as (found & Ef & Hk & Hnd & Hss).
  rewrite (G_bind_Ret _ _ tt s1 s1) by done. rewrite Ef, bind_Ret. exists g, found. split; [done|]. split; [done|]. split_and!.
  - intros path. rewrite Hk, matches_keys, K1. unfold isIgnored. rewrite Hign. cbn [existsb]. tauto.
  - by rewrite <- Huniq.
  - rewrite <- Hsort. intros Hns. specialize (Hss Hns). by rewrite Hnocase in Hss.
Qed.

(** What the alternatives stand for is what the matcher accepts. *)
Lemma hits_accepted E g t pattern o m path : treeOptions o -> Minimatch_ E pattern (withDefaults o) = Ret m ->
  Forall (goodPattern (opt o "dot")) (mm_set m) -> g_minimatch g = m ->
  (exists ps, ps ∈ mm_set m /\ hits E g t [] ps path) <->
  exists segs, segs <> [] /\ path = join [SLASH] segs /\ Forall isName segs /\ is_Some (nodeAt t segs) /\ mmatch E m path = true.
Proof.
  intros Hopts Hm Hgood Hgm. split.
  - intros (ps & Hin & sub & -> & Hs & Hex & HM). rewrite Hgm in HM. cbn [app] in *.
    assert (Hsne : sub <> []).
    { intros ->. rewrite Forall_forall in Hgood. destruct (Hgood ps Hin) as [_ (init & q & -> & _)].
      destruct init as [|x init]; inversion HM; by destruct us. }
    exists sub. split_and!; [done..|]. apply (mmatch_names E pattern o); [done..|]. exists ps. split; [done|]. by apply matchOne_complete.
  - intros (segs & Hsne & -> & Hs & Hex & (ps & Hin & HM)%(mmatch_names E pattern o)); [|done..]. exists ps. split; [done|].
    exists segs. cbn [app]. rewrite Hgm. split_and!; [done..|]. by apply matchOne_sound.
Qed.

(** C20. On a file system that is a finite tree, [glob.sync] with a relative
    pattern whose alternatives consist of names, globstars and expressions and
    end in an expression terminates, and its result is exactly the set of the
    paths of the tree that the matcher of the same pattern accepts: the walk
    that lists only the directories it needs, with its caches, implements the
    definition of a match. *)
Theorem globSync_finds_matches E FS t w pattern o m fuel :
  servesTree FS t -> pattern <> [] -> treeOptions o ->
  Minimatch_ E pattern (withDefaults o) = Ret m ->
  Forall (goodPattern (opt o "dot")) (mm_set m) ->
  Forall (fun ps => (magic ps + height t < fuel)%nat) (mm_set m) ->
  (forall a b, en_localeCompare E a b <= 0 \/ en_localeCompare E b a <= 0) ->
  (forall a b c, en_localeCompare E a b <= 0 -> en_localeCompare E b c <= 0 -> en_localeCompare E a c <= 0) ->
  exists found, globSync E FS fuel w pattern (OptObject (mkGlobOptions o None None NoIgnore None ∅ ∅ ∅)) 2 = Ret (Some found) /\
    forall path, path ∈ found <->
      exists segs, segs <> [] /\ path = join [SLASH] segs /\ Forall isName segs /\ is_Some (nodeAt t segs) /\
        mmatch E m path = true.
Proof.
  intros HFS Hpat Hopts Hm Hgood Hfuel Htot Htrans.
  destruct (globSync_run E FS t w pattern o m fuel) as (g & found & Hgm & Hrun & Hk & _); [done..|].
  exists found. split; [exact Hrun|]. intros path. rewrite Hk. by apply (hits_accepted E g t pattern o).
Qed.

(** * A concrete engine and concrete trees *)

Definition codeUnitEngine : engine :=
  mkEngine (fun c => [c]) (fun s => concat (map toLowerCase1 s))
    (fun a b => if str_leb a b then (if str_leb b a then 0 else -1) else 1) (fun n => js "0.5").

Fixpoint wfTree (n : node) : Prop :=
  match n with
  | File => True
  | Dir kids => foldr (fun kn acc => isName kn.1 /\ wfTree kn.2 /\ acc) True kids
  end.

Lemma wfTree_kids kids : wfTree (Dir kids) -> Forall (fun kn => isName kn.1 /\ wfTree kn.2) kids.
Proof. cbn [wfTree]. induction kids as [|[k n] kids IH]; cbn; [done|]. intros (? & ? & ?). constructor; auto. Qed.

Lemma wfTree_at n path m : wfTree n -> nodeAt n path = Some m -> wfTree m.
Proof.
  revert n. induction path as [|x path IH]; intros n Hn; cbn [nodeAt]; [by intros [= <-]|].
  destruct n as [|kids]; [done|]. destruct (child x kids) as [n'|] eqn:Ec; [|done]. apply IH.
  apply child_elem in Ec. apply wfTree_kids in Hn. rewrite Forall_forall in Hn. by apply (Hn (x, n')).
Qed.

(** The file system of a tree. *)
Definition treeFs (t : node) : fileSystem :=
  let stat p := match nodeAt t (segments p) with
                | Some (Dir _) => Some (mkStats false true)
                | Some File => Some (mkStats false false)
                | None => None
                end in
  mkFs stat stat
    (fun p => match nodeAt t (segments p) with
              | Some (Dir kids) => inr (map fst kids)
              | Some File => inl "ENOTDIR"%string
              | None => inl (if existsb (fun k => match nodeAt t (take k (segments p)) with Some File => true | _ => false end)
                                  (seq 0 (length (segments p)))
                             then "ENOTDIR"%string else "ENOENT"%string)
              end)
    inr.

Lemma treeFs_serves t : wfTree t -> servesTree (treeFs t) t.
Proof.
  intros Ht path Hp. cbn [treeFs readdirSync lstatSync].
  assert (segments (absOf path) = path) as -> by (unfold absOf; rewrite segments_slash_l; by apply segments_join, name_raw).
  destruct (nodeAt t path) as [[|kids]|] eqn:En; [done| |].
  - split_and!; [done| |done]. apply (wfTree_at t path _ Ht), wfTree_kids in En. apply Forall_map.
    eapply Forall_impl; [exact En|]. by intros ? [? _].
  - split; [|done]. eexists. split; [done|]. unfold missingCodes. destruct (existsb _ _); set_solver.
Qed.

Lemma codeUnit_le a b : en_localeCompare codeUnitEngine a b <= 0 <-> str_le a b.
Proof.
  cbn [codeUnitEngine en_localeCompare]. unfold str_le. destruct (str_leb a b), (str_leb b a); split; (done || lia).
Qed.

Lemma codeUnit_total a b : en_localeCompare codeUnitEngine a b <= 0 \/ en_localeCompare codeUnitEngine b a <= 0.
Proof. rewrite !codeUnit_le. apply str_le_total. Qed.

Lemma codeUnit_trans a b c :
  en_localeCompare codeUnitEngine a b <= 0 -> en_localeCompare codeUnitEngine b c <= 0 -> en_localeCompare codeUnitEngine a c <= 0.
Proof. rewrite !codeUnit_le. apply str_le_trans. Qed.

Definition sampleTree : node :=
  Dir [(js "a.txt", File); (js "b", File);
       (js "d", Dir [(js "c.txt", File); (js ".h.txt", File)]); (js ".g", Dir [(js "e.txt", File)])].

Lemma sampleTree_wf : wfTree sampleTree.
Proof. cbn. unfold isName. split_and!; try done; by repeat (constructor; [done|]). Qed.

(** The matcher of [**/*.txt]. *)
Definition txtMatcher : Minimatch :=
  mkMM (withDefaults ∅)
    [[PGlobstar; PRegExp (RSeq (litSeq starAlt (js ".txt")) REol) (Some (js "(?!\.)(?=.)[^/]*?\.txt")) (Some (js "*.txt"))]]
    (js "**/*.txt") None false false false [js "**/*.txt"] [[js "**"; js "*.txt"]].

Lemma txt_dotSafe : dotSafe false (RSeq (litSeq starAlt (js ".txt")) REol) (js "*.txt").
Proof. intros e (c & u & Hc & Hne & _)%star_test Hd. rewrite Hd in Hc. injection Hc as <-. done. Qed.

Lemma globSync_finds_matches_witness :
  exists found, globSync codeUnitEngine (treeFs sampleTree) 10 false (js "**/*.txt")
      (OptObject (mkGlobOptions ∅ None None NoIgnore None ∅ ∅ ∅)) 2 = Ret (Some found) /\
    forall path, path ∈ found <->
      exists segs, segs <> [] /\ path = join [SLASH] segs /\ Forall isName segs /\ is_Some (nodeAt sampleTree segs) /\
        mmatch codeUnitEngine txtMatcher path = true.
Proof.
  apply (globSync_finds_matches codeUnitEngine (treeFs sampleTree) sampleTree false (js "**/*.txt") ∅ txtMatcher 10).
  - apply treeFs_serves, sampleTree_wf.
  - done.
  - split_and!; [by repeat (constructor; [reflexivity|])|reflexivity|reflexivity].
  - vm_compute. reflexivity.
  - constructor; [|constructor]. split.
    + constructor; [constructor|]. constructor; [|constructor]. constructor. exact txt_dotSafe.
    + eexists [PGlobstar], _. split; [reflexivity|exact I].
  - constructor; [|constructor]. vm_compute. lia.
  - apply codeUnit_total.
  - apply codeUnit_trans.
Defined.

(** The fields of the walker of [**/*.txt], in the conf of a default call. *)
Definition sampleConf : conf :=
  mkConf false (js "**/*.txt") true false false false false false false false false false false false false None [] false
    process_cwd (js "/") false txtMatcher.

(** The value [_stat] takes from the cache. *)
Lemma stat_cached_file FS g D s : plainWalker g -> g_maxLength g = None -> D <> [] -> Forall isName D ->
  s_cache s !! absOf D = Some CFile -> stat_ FS g (join [SLASH] D) s = Ret (CFile, s).
Proof.
  intros Hp Hmax Hne HD Hc. unfold stat_.
  rewrite (G_bind_Ret _ _ (absOf D) s s).
  - rewrite Hmax, sliceFrom_last, bool_decide_eq_false_2 by (by apply join_parts_last, name_raw).
    rewrite (G_bind_Ret _ _ (Some CFile) s s) by (unfold gets; by rewrite Hc). by destruct Hp as (_ & -> & _).
  - unfold lift. pose proof (makeAbs_dir g Hp D HD) as Ha. destruct D as [|d D]; [done|].
    change (default (js ".") (prefixFor (d :: D))) with (join [SLASH] (d :: D)) in Ha. by rewrite Ha.
Qed.

Lemma leading_strs D ps : leading (map PStr D ++ PGlobstar :: ps) = (D, PGlobstar :: ps).
Proof. induction D as [|d D IH]; [done|]. cbn [map app leading]. by rewrite IH. Qed.

(** A path below a file is reported although nothing is there: reading it
    as a directory fails with ENOTDIR, the walker caches that as an existing
    file, and an alternative that names the path trusts the cache without
    asking the file system, whatever [lstat] would say. *)
Lemma missing_path_reported E FS g D ps :
  plainWalker g -> g_maxLength g = None -> D <> [] -> Forall isName D ->
  readdirSync FS (absOf D) = inl "ENOTDIR"%string ->
  exists s', processAll E FS g 1 0 [map PStr D ++ PGlobstar :: ps; map PStr D]
               (set_matches [None; None] (mkWalk ∅ ∅ ∅ [] [])) = Ret (tt, s') /\
    join [SLASH] D ∈ keysAt 1 s'.
Proof.
  intros Hp Hmax Hne HD Hr. set (s0 := set_matches _ _). set (s1 := set_cache (absOf D) CFile s0).
  assert (H1 : process E FS g 1 0 (map PStr D ++ PGlobstar :: ps) false s0 = Ret (tt, s1)).
  { cbn [process]. rewrite leading_strs.
    rewrite (prefixOf_ok g D D [] (PGlobstar :: ps) (PGlobstar :: ps)) by (rewrite ?app_nil_r; done). rewrite app_nil_r.
    rewrite (G_bind_Ret _ _ (absOf D) s0 s0) by (unfold lift; by rewrite (makeAbs_dir g Hp D HD)).
    assert (childrenIgnored E g (default (js ".") (prefixFor D)) = false) as ->.
    { unfold childrenIgnored. by destruct Hp as (_ & _ & _ & _ & -> & _). }
    unfold processGlobStar. rewrite (G_bind_Ret _ _ None s0 s1); [done|].
    unfold readdir. rewrite (G_bind_Ret _ _ false s0 s0) by done. cbn [andb]. unfold readdirPlain.
    rewrite (G_bind_Ret _ _ None s0 s0) by (unfold gets; cbn [s0 set_matches s_cache]; by rewrite lookup_empty).
    rewrite Hr. rewrite (G_bind_Ret _ _ tt s0 s1); [done|]. unfold readdirError.
    rewrite (G_bind_Ret _ _ (absOf D) s0 s0) by (unfold lift; by rewrite (makeAbs_abs g Hp D HD)). done. }
  assert (H2 : process E FS g 1 1 (map PStr D) false s1 = Ret (tt, set_matches [None; Some [join [SLASH] D]] s1)).
  { cbn [process]. rewrite <- (app_nil_r (map PStr D)), (leading_app D [] [] []), !app_nil_r by done.
    unfold processSimple. change (js "/") with [SLASH].
    rewrite (G_bind_Ret _ _ CFile s1 s1) by (apply stat_cached_file; [done..|]; cbn [s1 set_cache s_cache]; by rewrite lookup_insert_eq).
    cbn [cacheTruthy negb].
    rewrite (G_bind_Ret _ _ tt s1 (set_matches [None; Some []] s1)) by done.
    assert (isAbsolute (join [SLASH] D) = false) as ->.
    { rewrite isAbsolute_head. apply bool_decide_eq_false. by apply join_parts_head, name_raw. }
    rewrite andb_false_r. cbn [andb]. rewrite (G_bind_Ret _ _ (join [SLASH] D) _ (set_matches [None; Some []] s1)) by done.
    done. }
  eexists. split; [cbn [processAll]; rewrite (G_bind_Ret _ _ tt s0 s1 H1), (G_bind_Ret _ _ tt _ _ H2); done|].
  cbn. by apply list_elem_of_singleton.
Qed.

(** The same through the exported function: with a file f, the pattern finds
    the missing f/x; a trailing globstar also reports its directory. *)
Example glob_examples :
  globSync codeUnitEngine (treeFs sampleTree) 10 false (js "{b/x/*,b/x}") OptUndefined 2 = Ret (Some [js "b/x"]) /\
  globSync codeUnitEngine (treeFs sampleTree) 10 false (js "d/**") OptUndefined 2 = Ret (Some [js "d"; js "d/c.txt"]) /\
  globSync codeUnitEngine (treeFs sampleTree) 10 false (js "**/*.txt") OptUndefined 2 = Ret (Some [js "a.txt"; js "d/c.txt"]) /\
  globSync codeUnitEngine (treeFs sampleTree) 10 false (js "*") OptFunction 2 = Throw "TypeError: callback provided to sync glob".
Proof. vm_compute. done. Qed.
