(* ===== verification/GlobAsync.v ===== *)
(** The asynchronous walker of the glob library (wordcut.js, module 16,
    glob/glob.js), as a machine of commands.

    Its methods call each other through callbacks, at once (an answer that is
    in a cache) or later (an answer of the file system).  A callback is the
    name of the function and the variables it has captured; the callback [cb]
    that [_process] takes is always the function [done] of the constructor.
    What the running JavaScript has still to do is the stack [a_stack]; when it
    is empty the event loop picks any pending answer of the file system, or a
    callback of [process.nextTick], or the user calls a method.

    The request table of [inflight] (module 18) is [a_reqs]: an answer takes
    the callbacks out of the entry of its key and leaves the entry, to which
    callbacks registered meanwhile are added (the source leaves them in the
    array and splices them off after the calls).  One walker is modelled, so the
    table has only its own requests, and every function that [makeres] returns
    is called once.  The listeners of the emitter are those of the callback
    given to the constructor; the events are recorded. *)
From Stdlib Require Import ZArith Lia.
From stdpp Require Import base countable gmap strings list.
From S2P Require Import Prelude JsString JsRegExp PosixPath Minimatch GlobCommon GlobSync.

Local Open Scope Z_scope.
Open Scope js_scope.

(** * The state *)

(** The keys of [inflight], which are strings in the source. *)
Inductive gkey := KReaddir (abs : jsstr) (inGlobStar : bool) | KLstat (abs : jsstr) | KStat (abs : jsstr).
#[export] Instance gkey_eq_dec : EqDecision gkey.
Proof. solve_decision. Defined.
#[export] Instance gkey_countable : Countable gkey.
Proof.
  refine (inj_countable'
    (fun k => match k with KReaddir a b => inl (a, b) | KLstat a => inr (inl a) | KStat a => inr (inr a) end)
    (fun x => match x with inl (a, b) => KReaddir a b | inr (inl a) => KLstat a | inr (inr a) => KStat a end) _).
  by intros [].
Defined.

(** The callbacks: those of [_processReaddir], [_processGlobStar] and
    [_processSimple], the function of [makeres], [lstatcb_] of
    [_readdirInGlobStar], [readdirCb], [lstatcb_] of [_stat] and its inner
    function, and the function given to [fs.realpath]. *)
Inductive gcallback :=
| CbReaddir2 (prefix : option jsstr) (abs : jsstr) (remain : list part) (index : nat) (inGlobStar : bool)
| CbGlobStar2 (prefix : option jsstr) (abs : jsstr) (remain : list part) (index : nat) (inGlobStar : bool)
| CbSimple2 (prefix : jsstr) (index : nat)
| CbRes (k : gkey)
| CbLstatGlobStar (abs : jsstr) (cb : gcallback)
| CbReaddirDone (abs : jsstr) (cb : gcallback)
| CbStatLstat (f abs : jsstr) (cb : gcallback)
| CbStatStat (f abs : jsstr) (lstat : stats) (cb : gcallback)
| CbRealpath (index : nat) (p : jsstr).

(** The arguments of a callback: none, entries, what exists, and the answers of
    the file system ([None] and [inl] are errors). *)
Inductive ganswer :=
| ANone
| AEntries (entries : list jsstr)
| AExists (c : cacheVal)
| AStats (r : option stats)
| AReaddir (r : string + list jsstr)
| ARealpath (r : string + jsstr).

(** The requests to the file system. *)
Inductive ioReq :=
| IoReaddir (abs : jsstr) (cb : gcallback)
| IoLstat (abs : jsstr) (cb : gcallback)
| IoStat (abs : jsstr) (cb : gcallback)
| IoRealpath (p : jsstr) (cb : gcallback).

(** What the running code has still to do: a call of [_process], of [done], of
    a callback, the end of a function of [makeres], the rest of
    [_processGlobStar2], an element of the queue of [resume], and the loop of
    [_realpath] with its function [next]. *)
Inductive gcmd :=
| Process (pattern : list part) (index : nat) (inGlobStar : bool)
| Done
| Call (cb : gcallback) (a : ganswer)
| ResEnd (k : gkey) (a : ganswer)
| GlobStar3 (prefix : option jsstr) (abs : jsstr) (remain : list part) (index : nat) (inGlobStar : bool) (entries : list jsstr)
| Reprocess (pattern : list part) (index : nat) (inGlobStar : bool)
| RealpathSet (index : nat)
| RealpathNext.

Inductive gevent :=
| EvMatch (e : jsstr) | EvStat (e : jsstr) (st : stats) | EvEnd (found : list jsstr) | EvError (er : string)
| EvAbort | EvPause | EvResume.

(** The walker and the event loop: [a_answer] is what the callback of the user
    was called with, [a_uncaught] an exception that nothing caught. *)
Record astate := mkA {
  a_walk : walk_state;
  a_processing : Z;
  a_aborted : bool;
  a_paused : bool;
  a_didRealpath : bool;
  a_emitQueue : list (nat * jsstr);
  a_processQueue : list (list part * nat * bool);
  a_reqs : gmap gkey (list gcallback);
  a_io : list ioReq;
  a_ticks : list (gkey * ganswer);
  a_stack : list gcmd;
  a_rpLeft : Z;
  a_rpSets : gmap nat Z;
  a_events : list gevent;
  a_answer : option (string + list jsstr);
  a_uncaught : option string
}.

Definition put_walk (v : walk_state) (s : astate) : astate :=
  mkA v (a_processing s) (a_aborted s) (a_paused s) (a_didRealpath s) (a_emitQueue s) (a_processQueue s) (a_reqs s) (a_io s) (a_ticks s) (a_stack s) (a_rpLeft s) (a_rpSets s) (a_events s) (a_answer s) (a_uncaught s).
Definition put_processing (v : Z) (s : astate) : astate :=
  mkA (a_walk s) v (a_aborted s) (a_paused s) (a_didRealpath s) (a_emitQueue s) (a_processQueue s) (a_reqs s) (a_io s) (a_ticks s) (a_stack s) (a_rpLeft s) (a_rpSets s) (a_events s) (a_answer s) (a_uncaught s).
Definition put_aborted (v : bool) (s : astate) : astate :=
  mkA (a_walk s) (a_processing s) v (a_paused s) (a_didRealpath s) (a_emitQueue s) (a_processQueue s) (a_reqs s) (a_io s) (a_ticks s) (a_stack s) (a_rpLeft s) (a_rpSets s) (a_events s) (a_answer s) (a_uncaught s).
Definition put_paused (v : bool) (s : astate) : astate :=
  mkA (a_walk s) (a_processing s) (a_aborted s) v (a_didRealpath s) (a_emitQueue s) (a_processQueue s) (a_reqs s) (a_io s) (a_ticks s) (a_stack s) (a_rpLeft s) (a_rpSets s) (a_events s) (a_answer s) (a_uncaught s).
Definition put_didRealpath (v : bool) (s : astate) : astate :=
  mkA (a_walk s) (a_processing s) (a_aborted s) (a_paused s) v (a_emitQueue s) (a_processQueue s) (a_reqs s) (a_io s) (a_ticks s) (a_stack s) (a_rpLeft s) (a_rpSets s) (a_events s) (a_answer s) (a_uncaught s).
Definition put_emitQueue (v : list (nat * jsstr)) (s : astate) : astate :=
  mkA (a_walk s) (a_processing s) (a_aborted s) (a_paused s) (a_didRealpath s) v (a_processQueue s) (a_reqs s) (a_io s) (a_ticks s) (a_stack s) (a_rpLeft s) (a_rpSets s) (a_events s) (a_answer s) (a_uncaught s).
Definition put_processQueue (v : list (list part * nat * bool)) (s : astate) : astate :=
  mkA (a_walk s) (a_processing s) (a_aborted s) (a_paused s) (a_didRealpath s) (a_emitQueue s) v (a_reqs s) (a_io s) (a_ticks s) (a_stack s) (a_rpLeft s) (a_rpSets s) (a_events s) (a_answer s) (a_uncaught s).
Definition put_reqs (v : gmap gkey (list gcallback)) (s : astate) : astate :=
  mkA (a_walk s) (a_processing s) (a_aborted s) (a_paused s) (a_didRealpath s) (a_emitQueue s) (a_processQueue s) v (a_io s) (a_ticks s) (a_stack s) (a_rpLeft s) (a_rpSets s) (a_events s) (a_answer s) (a_uncaught s).
Definition put_io (v : list ioReq) (s : astate) : astate :=
  mkA (a_walk s) (a_processing s) (a_aborted s) (a_paused s) (a_didRealpath s) (a_emitQueue s) (a_processQueue s) (a_reqs s) v (a_ticks s) (a_stack s) (a_rpLeft s) (a_rpSets s) (a_events s) (a_answer s) (a_uncaught s).
Definition put_ticks (v : list (gkey * ganswer)) (s : astate) : astate :=
  mkA (a_walk s) (a_processing s) (a_aborted s) (a_paused s) (a_didRealpath s) (a_emitQueue s) (a_processQueue s) (a_reqs s) (a_io s) v (a_stack s) (a_rpLeft s) (a_rpSets s) (a_events s) (a_answer s) (a_uncaught s).
Definition put_stack (v : list gcmd) (s : astate) : astate :=
  mkA (a_walk s) (a_processing s) (a_aborted s) (a_paused s) (a_didRealpath s) (a_emitQueue s) (a_processQueue s) (a_reqs s) (a_io s) (a_ticks s) v (a_rpLeft s) (a_rpSets s) (a_events s) (a_answer s) (a_uncaught s).
Definition put_rpLeft (v : Z) (s : astate) : astate :=
  mkA (a_walk s) (a_processing s) (a_aborted s) (a_paused s) (a_didRealpath s) (a_emitQueue s) (a_processQueue s) (a_reqs s) (a_io s) (a_ticks s) (a_stack s) v (a_rpSets s) (a_events s) (a_answer s) (a_uncaught s).
Definition put_rpSets (v : gmap nat Z) (s : astate) : astate :=
  mkA (a_walk s) (a_processing s) (a_aborted s) (a_paused s) (a_didRealpath s) (a_emitQueue s) (a_processQueue s) (a_reqs s) (a_io s) (a_ticks s) (a_stack s) (a_rpLeft s) v (a_events s) (a_answer s) (a_uncaught s).
Definition put_events (v : list gevent) (s : astate) : astate :=
  mkA (a_walk s) (a_processing s) (a_aborted s) (a_paused s) (a_didRealpath s) (a_emitQueue s) (a_processQueue s) (a_reqs s) (a_io s) (a_ticks s) (a_stack s) (a_rpLeft s) (a_rpSets s) v (a_answer s) (a_uncaught s).
Definition put_answer (v : option (string + list jsstr)) (s : astate) : astate :=
  mkA (a_walk s) (a_processing s) (a_aborted s) (a_paused s) (a_didRealpath s) (a_emitQueue s) (a_processQueue s) (a_reqs s) (a_io s) (a_ticks s) (a_stack s) (a_rpLeft s) (a_rpSets s) (a_events s) v (a_uncaught s).
Definition put_uncaught (v : option string) (s : astate) : astate :=
  mkA (a_walk s) (a_processing s) (a_aborted s) (a_paused s) (a_didRealpath s) (a_emitQueue s) (a_processQueue s) (a_reqs s) (a_io s) (a_ticks s) (a_stack s) (a_rpLeft s) (a_rpSets s) (a_events s) (a_answer s) v.

(** Code that changes the state and may throw. *)
Definition X (A : Type) : Type := astate -> astate * (string + A).
#[export] Instance X_ret : MRet X := fun A a s => (s, inr a).
#[export] Instance X_bind : MBind X := fun A B f m s =>
  match m s with
  | (s, inr a) => f a s
  | (s, inl e) => (s, inl e)
  end.
Definition xmodify (f : astate -> astate) : X unit := fun s => (f s, inr tt).
Definition xgets {A} (f : astate -> A) : X A := fun s => (s, inr (f s)).
Definition xthrow {A} (e : string) : X A := fun s => (s, inl e).

(** Code of the shared modules, none of which takes fuel. *)
Definition xlift {A} (m : outcome A) : X A := fun s =>
  match m with
  | Ret a => (s, inr a)
  | Throw e => (s, inl e)
  | OutOfFuel => (s, inl "OutOfFuel"%string)
  end.
Definition xwalk {A} (m : G A) : X A := fun s =>
  match m (a_walk s) with
  | Ret (a, w) => (put_walk w s, inr a)
  | Throw e => (s, inl e)
  | OutOfFuel => (s, inl "OutOfFuel"%string)
  end.

Fixpoint xforEach {A} (l : list A) (f : A -> X unit) : X unit :=
  match l with
  | [] => mret tt
  | x :: l' => _ ← f x; xforEach l' f
  end.

Section Async.
Context (E : engine) (FS : fileSystem) (g : conf) (hasCb : bool).

(** [this.emit(...)], with the listeners of the constructor: [error] and [end]
    call the callback, once; an error that nobody listens to is thrown. *)
Definition answer (r : string + list jsstr) : X unit :=
  xmodify (fun s => match a_answer s with None => put_answer (Some r) s | Some _ => s end).
Definition emit (ev : gevent) : X unit :=
  _ ← xmodify (fun s => put_events (a_events s ++ [ev]) s);
  match ev with
  | EvEnd found => if hasCb then answer (inr found) else mret tt
  | EvError er => if hasCb then answer (inl er) else xthrow er
  | _ => mret tt
  end.

(** [inflight(key, cb)] (module 18): true when the caller has to ask. *)
Definition inflight_ (k : gkey) (cb : gcallback) : X bool :=
  reqs ← xgets a_reqs;
  match reqs !! k with
  | Some cbs => _ ← xmodify (put_reqs (<[k := cbs ++ [cb]]> reqs)); mret false
  | None => _ ← xmodify (put_reqs (<[k := [cb]]> reqs)); mret true
  end.
Definition request (r : ioReq) : X unit := xmodify (fun s => put_io (a_io s ++ [r]) s).

(** ** Methods *)

(** [abort()]. *)
Definition abort : X unit := _ ← xmodify (put_aborted true); emit EvAbort.

(** [_emitMatch(index, e)]. *)
Definition emitMatch_ (index : nat) (e : jsstr) : X unit :=
  aborted ← xgets a_aborted;
  if (aborted : bool) then mret tt
  else
    m ← xgets (fun s => s_matches (a_walk s) !! index);
    match m with
    | Some (Some m) =>
        if bool_decide (e ∈ (m : list jsstr)) then mret tt
        else if isIgnored E g e then mret tt
        else
          paused ← xgets a_paused;
          if (paused : bool) then xmodify (fun s => put_emitQueue (a_emitQueue s ++ [(index, e)]) s)
          else
            abs ← xlift (makeAbs g e);
            c ← xgets (fun s => s_cache (a_walk s) !! abs);
            if g_nodir g && match c with Some c => isDirVal c | None => false end then mret tt
            else
              e ← (if g_mark g then xwalk (mark g e) else mret e);
              _ ← xwalk (addMatch index e);
              st ← xgets (fun s => s_statCache (a_walk s) !! abs);
              _ ← match st with Some (Some st) => emit (EvStat e st) | _ => mret tt end;
              emit (EvMatch e)
    | _ => xthrow "TypeError"
    end.

(** [_readdirEntries(abs, entries, cb)]: [readdirEntries] is the same code in
    the synchronous walker. *)
Definition readdirEntries_ (abs : jsstr) (entries : list jsstr) (cb : gcallback) : X (list gcmd) :=
  aborted ← xgets a_aborted;
  if (aborted : bool) then mret []
  else
    _ ← xwalk (readdirEntries g abs entries);
    mret [Call cb (AEntries entries)].

(** [_readdirError(f, er, cb)]. *)
Definition readdirError_ (f : jsstr) (code : string) (cb : gcallback) : X (list gcmd) :=
  aborted ← xgets a_aborted;
  if (aborted : bool) then mret []
  else
    abs ← xlift (makeAbs g f);
    _ ← (if bool_decide (code ∈ ["ENOTSUP"; "ENOTDIR"]%string) then xwalk (modify (set_cache abs CFile))
         else if bool_decide (code ∈ ["ENOENT"; "ELOOP"; "ENAMETOOLONG"; "UNKNOWN"]%string) then xwalk (modify (set_cache abs CFalse))
         else
           _ ← xwalk (modify (set_cache abs CFalse));
           _ ← (if g_strict g then _ ← emit (EvError code); abort else mret tt);
           if negb (g_silent g) then xwalk (modify (log ("glob error " +:+ code))) else mret tt);
    mret [Call cb ANone].

(** [_readdir(abs, false, cb)]. *)
Definition readdirPlain_ (abs : jsstr) (cb : gcallback) : X (list gcmd) :=
  aborted ← xgets a_aborted;
  if (aborted : bool) then mret []
  else
    first ← inflight_ (KReaddir abs false) cb;
    if negb first then mret []
    else
      let cb := CbRes (KReaddir abs false) in
      c ← xgets (fun s => s_cache (a_walk s) !! abs);
      match c with
      | Some (CFalse | CFile) => mret [Call cb ANone]
      | Some (CEntries l) => mret [Call cb (AEntries l)]
      | _ => _ ← request (IoReaddir abs (CbReaddirDone abs cb)); mret []
      end.

(** [_readdirInGlobStar(abs, cb)]. *)
Definition readdirInGlobStar_ (abs : jsstr) (cb : gcallback) : X (list gcmd) :=
  aborted ← xgets a_aborted;
  if (aborted : bool) then mret []
  else if g_follow g then readdirPlain_ abs cb
  else
    first ← inflight_ (KLstat abs) (CbLstatGlobStar abs cb);
    _ ← (if (first : bool) then request (IoLstat abs (CbRes (KLstat abs))) else mret tt);
    mret [].

(** [lstatcb_(er, lstat)] of [_readdirInGlobStar]. *)
Definition lstatGlobStar (abs : jsstr) (cb : gcallback) (r : option stats) : X (list gcmd) :=
  match r with
  | None => mret [Call cb ANone]
  | Some lstat =>
      let isSym := isSymbolicLink lstat in
      _ ← xwalk (modify (set_symlink abs isSym));
      if negb isSym && negb (isDirectory lstat)
      then _ ← xwalk (modify (set_cache abs CFile)); mret [Call cb ANone]
      else readdirPlain_ abs cb
  end.

(** [_readdir(abs, inGlobStar, cb)]. *)
Definition readdir_ (abs : jsstr) (inGlobStar : bool) (cb : gcallback) : X (list gcmd) :=
  if negb inGlobStar then readdirPlain_ abs cb
  else
    aborted ← xgets a_aborted;
    if (aborted : bool) then mret []
    else
      first ← inflight_ (KReaddir abs true) cb;
      if negb first then mret []
      else
        let cb := CbRes (KReaddir abs true) in
        known ← xgets (fun s => bool_decide (is_Some (s_symlinks (a_walk s) !! abs)));
        if negb known then readdirInGlobStar_ abs cb
        else
          c ← xgets (fun s => s_cache (a_walk s) !! abs);
          match c with
          | Some (CFalse | CFile) => mret [Call cb ANone]
          | Some (CEntries l) => mret [Call cb (AEntries l)]
          | _ => _ ← request (IoReaddir abs (CbReaddirDone abs cb)); mret []
          end.

(** [_stat2(f, abs, er, stat, cb)]; an [er] is [None] for [stat]. *)
Definition stat2 (f abs : jsstr) (stat : option stats) (cb : gcallback) : X (list gcmd) :=
  match stat with
  | None => _ ← xwalk (modify (set_statCache abs None)); mret [Call cb ANone]
  | Some stat =>
      let needDir := str_eqb (sliceFrom f (-1)) (js "/") in
      _ ← xwalk (modify (set_statCache abs (Some stat)));
      if str_eqb (sliceFrom abs (-1)) (js "/") && negb (isDirectory stat) then mret [Call cb (AExists CFalse)]
      else
        let c := if isDirectory stat then CDir else CFile in
        _ ← xwalk (modify (fun s => match s_cache s !! abs with
                                    | Some (CTrue | CFile | CDir | CEntries _) => s
                                    | _ => set_cache abs c s
                                    end));
        mret [Call cb (if needDir && negb (isDirectory stat) then ANone else AExists c)]
  end.

(** The end of [_stat]: the cache of stats and the file system. *)
Definition statAsk (f abs : jsstr) (cb : gcallback) : X (list gcmd) :=
  let needDir := str_eqb (sliceFrom f (-1)) (js "/") in
  stat ← xgets (fun s => s_statCache (a_walk s) !! abs);
  match stat with
  | Some None => mret [Call cb (AExists CFalse)]
  | Some (Some stat) =>
      mret [Call cb (if needDir && negb (isDirectory stat) then ANone else AExists (if isDirectory stat then CDir else CFile))]
  | None =>
      first ← inflight_ (KStat abs) (CbStatLstat f abs cb);
      _ ← (if (first : bool) then request (IoLstat abs (CbRes (KStat abs))) else mret tt);
      mret []
  end.

(** [_stat(f, cb)]. *)
Definition statCb (f : jsstr) (cb : gcallback) : X (list gcmd) :=
  abs ← xlift (makeAbs g f);
  let needDir := str_eqb (sliceFrom f (-1)) (js "/") in
  if match g_maxLength g with Some n => n <? len f | None => false end then mret [Call cb ANone]
  else
    cached ← xgets (fun s => s_cache (a_walk s) !! abs);
    match g_stat g, cached with
    | false, Some (CDir | CEntries _) => mret [Call cb (AExists CDir)]
    | false, Some CFile => mret [Call cb (if needDir then ANone else AExists CFile)]
    | false, Some c => if needDir then statAsk f abs cb else mret [Call cb (AExists c)]
    | _, _ => statAsk f abs cb
    end.

(** [lstatcb_(er, lstat)] of [_stat]. *)
Definition statLstat (f abs : jsstr) (cb : gcallback) (r : option stats) : X (list gcmd) :=
  match r with
  | Some lstat =>
      if isSymbolicLink lstat then _ ← request (IoStat abs (CbStatStat f abs lstat cb)); mret []
      else stat2 f abs (Some lstat) cb
  | None => stat2 f abs None cb
  end.

(** [_processSimple2(prefix, index, er, exists, cb)]. *)
Definition processSimple2 (prefix : jsstr) (index : nat) (exists_ : bool) : X (list gcmd) :=
  _ ← xwalk (initMatch index);
  if negb exists_ then mret [Done]
  else
    prefix ←
      (if bool_decide (prefix <> []) && isAbsolute prefix && negb (g_nomount g) then
         let trail := bool_decide (last prefix = Some 47 \/ last prefix = Some 92) in
         if str_eqb (charAt prefix 0) (js "/") then xlift (joinPath [Some (g_root g); Some prefix])
         else p ← xlift (resolve process_cwd [Some (g_root g); Some prefix]); mret (if trail then p ++ js "/" else p)
       else mret prefix);
    _ ← emitMatch_ index prefix;
    mret [Done].

(** The path of an entry below a prefix. *)
Definition underPrefix (prefix : option jsstr) (e : jsstr) : jsstr :=
  match prefixTruthy prefix with
  | Some p => if negb (str_eqb p (js "/")) then p ++ js "/" ++ e else p ++ e
  | None => e
  end.

(** [_processReaddir2(prefix, read, abs, remain, index, inGlobStar, entries, cb)]. *)
Definition processReaddir2 (prefix : option jsstr) (remain : list part) (index : nat) (inGlobStar : bool)
    (entries : option (list jsstr)) : X (list gcmd) :=
  match entries with
  | None => mret [Done]
  | Some entries =>
      match remain with
      | PRegExp r _ glob :: rest =>
          rawGlob ← xlift (orTypeError glob);
          let matchedEntries := filter (fun e => entryHit g prefix rawGlob r e = true) entries in
          if bool_decide (matchedEntries = []) then mret [Done]
          else if bool_decide (rest = []) && negb (g_mark g) && negb (g_stat g) then
            _ ← xwalk (initMatch index);
            _ ← xforEach matchedEntries (fun e =>
                  let e := underPrefix prefix e in
                  e ← (if str_eqb (charAt e 0) (js "/") && negb (g_nomount g)
                       then xlift (joinPath [Some (g_root g); Some e]) else mret e);
                  emitMatch_ index e);
            mret [Done]
          else mret (map (fun e => Process (PStr (underPrefix prefix e) :: rest) index inGlobStar) matchedEntries ++ [Done])
      | _ => xthrow "TypeError"
      end
  end.

(** [_processGlobStar2(prefix, read, abs, remain, index, inGlobStar, entries, cb)]:
    up to the call of [_process] without the globstar, and after it. *)
Definition gspref (prefix : option jsstr) : list part :=
  match prefixTruthy prefix with Some p => [PStr p] | None => [] end.
Definition processGlobStar2 (prefix : option jsstr) (abs : jsstr) (remain : list part) (index : nat) (inGlobStar : bool)
    (entries : option (list jsstr)) : X (list gcmd) :=
  match entries with
  | None => mret [Done]
  | Some entries =>
      mret [Process (gspref prefix ++ drop 1 remain) index false; GlobStar3 prefix abs remain index inGlobStar entries]
  end.
Definition globStar3 (prefix : option jsstr) (abs : jsstr) (remain : list part) (index : nat) (inGlobStar : bool)
    (entries : list jsstr) : X (list gcmd) :=
  isSym ← xgets (fun s => default false (s_symlinks (a_walk s) !! abs));
  if isSym && inGlobStar then mret [Done]
  else
    mret (concat (map (fun e =>
            if str_eqb (charAt e 0) (js ".") && negb (g_dot g) then []
            else [Process (gspref prefix ++ [PStr e] ++ drop 1 remain) index true;
                  Process (gspref prefix ++ [PStr e] ++ remain) index true]) entries) ++ [Done]).

(** [_process(pattern, index, inGlobStar, cb)]. *)
Definition process_ (pattern : list part) (index : nat) (inGlobStar : bool) : X (list gcmd) :=
  aborted ← xgets a_aborted;
  if (aborted : bool) then mret []
  else
    _ ← xmodify (fun s => put_processing (a_processing s + 1) s);
    paused ← xgets a_paused;
    if (paused : bool) then
      _ ← xmodify (fun s => put_processQueue (a_processQueue s ++ [(pattern, index, inGlobStar)]) s); mret []
    else
      let '(strs, remain) := leading pattern in
      match remain with
      | [] => let prefix := join (js "/") strs in statCb prefix (CbSimple2 prefix index)
      | pn :: _ =>
          let prefix := prefixOf g pattern in
          let read := default (js ".") prefix in
          abs ← xlift (makeAbs g read);
          if childrenIgnored E g read then mret [Done]
          else
            match pn with
            | PGlobstar => readdir_ abs inGlobStar (CbGlobStar2 prefix abs remain index inGlobStar)
            | _ => readdir_ abs inGlobStar (CbReaddir2 prefix abs remain index inGlobStar)
            end
      end.

(** [_realpath()], [_finish()] and the function [done]. *)
Definition finishWalk : X (list gcmd) :=
  found ← xwalk (finish E g);
  _ ← emit (EvEnd found);
  mret [].
Definition realpath : X (list gcmd) :=
  _ ← xmodify (put_didRealpath true);
  n ← xgets (fun s => length (s_matches (a_walk s)));
  if (n =? 0)%nat then finishWalk
  else
    _ ← xmodify (put_rpLeft (Z.of_nat n));
    mret (map RealpathSet (seq 0 n)).
Definition finishAsync : X (list gcmd) :=
  aborted ← xgets a_aborted;
  if (aborted : bool) then mret []
  else
    did ← xgets a_didRealpath;
    if g_realpath g && negb did then realpath else finishWalk.
Definition done : X (list gcmd) :=
  _ ← xmodify (fun s => put_processing (a_processing s - 1) s);
  n ← xgets a_processing;
  if n <=? 0 then finishAsync else mret [].

(** [_realpathSet(index, cb)], its callback and the function [next]. *)
Definition realpathSet (index : nat) : X (list gcmd) :=
  matchset ← xgets (fun s => s_matches (a_walk s) !! index);
  match matchset with
  | Some (Some (k :: ks)) =>
      let found := objectKeys (k :: ks) in
      _ ← xwalk (modify (fun w => set_matches (<[index := Some []]> (s_matches w)) w));
      _ ← xmodify (fun s => put_rpSets (<[index := len found]> (a_rpSets s)) s);
      _ ← xforEach found (fun p => p ← xlift (makeAbs g p); request (IoRealpath p (CbRealpath index p)));
      mret []
  | _ => mret [RealpathNext]
  end.
Definition realpathCb (index : nat) (p : jsstr) (r : string + jsstr) : X (list gcmd) :=
  _ ← match r with
      | inr real => xwalk (addMatch index real)
      | inl syscall => if bool_decide (syscall = "stat"%string) then xwalk (addMatch index p) else emit (EvError syscall)
      end;
  n ← xgets (fun s => default 0 (a_rpSets s !! index) - 1);
  _ ← xmodify (fun s => put_rpSets (<[index := n]> (a_rpSets s)) s);
  if n =? 0 then mret [RealpathNext] else mret [].
Definition realpathNext : X (list gcmd) :=
  _ ← xmodify (fun s => put_rpLeft (a_rpLeft s - 1) s);
  n ← xgets a_rpLeft;
  if n =? 0 then finishAsync else mret [].

(** The function of [makeres(key)], and what its [finally] does. *)
Definition res (k : gkey) (a : ganswer) : X (list gcmd) :=
  reqs ← xgets a_reqs;
  cbs ← xlift (orTypeError (reqs !! k));
  _ ← xmodify (put_reqs (<[k := []]> reqs));
  mret (map (fun cb => Call cb a) cbs ++ [ResEnd k a]).
Definition resEnd (k : gkey) (a : ganswer) : X (list gcmd) :=
  reqs ← xgets a_reqs;
  _ ← match reqs !! k with
      | Some (_ :: _) => xmodify (fun s => put_ticks (a_ticks s ++ [(k, a)]) s)
      | _ => xmodify (put_reqs (delete k reqs))
      end;
  mret [].

(** A call of a callback; the other combinations do not occur. *)
Definition callback (cb : gcallback) (a : ganswer) : X (list gcmd) :=
  match cb, a with
  | CbRes k, _ => res k a
  | CbReaddir2 prefix _ remain index b, AEntries l => processReaddir2 prefix remain index b (Some l)
  | CbReaddir2 prefix _ remain index b, _ => processReaddir2 prefix remain index b None
  | CbGlobStar2 prefix abs remain index b, AEntries l => processGlobStar2 prefix abs remain index b (Some l)
  | CbGlobStar2 prefix abs remain index b, _ => processGlobStar2 prefix abs remain index b None
  | CbSimple2 prefix index, AExists c => processSimple2 prefix index (cacheTruthy c)
  | CbSimple2 prefix index, _ => processSimple2 prefix index false
  | CbLstatGlobStar abs cb, AStats r => lstatGlobStar abs cb r
  | CbReaddirDone abs cb, AReaddir (inr l) => readdirEntries_ abs l cb
  | CbReaddirDone abs cb, AReaddir (inl code) => readdirError_ abs code cb
  | CbStatLstat f abs cb, AStats r => statLstat f abs cb r
  | CbStatStat f abs lstat cb, AStats (Some stat) => stat2 f abs (Some stat) cb
  | CbStatStat f abs lstat cb, _ => stat2 f abs (Some lstat) cb
  | CbRealpath index p, ARealpath r => realpathCb index p r
  | _, _ => xthrow "TypeError"
  end.

Definition exec_ (c : gcmd) : X (list gcmd) :=
  match c with
  | Process pattern index b => process_ pattern index b
  | Reprocess pattern index b =>
      _ ← xmodify (fun s => put_processing (a_processing s - 1) s); process_ pattern index b
  | Done => done
  | Call cb a => callback cb a
  | ResEnd k a => resEnd k a
  | GlobStar3 prefix abs remain index b entries => globStar3 prefix abs remain index b entries
  | RealpathSet index => realpathSet index
  | RealpathNext => realpathNext
  end.

(** [pause()] and [resume()]. *)
Definition pause : X (list gcmd) :=
  paused ← xgets a_paused;
  if (paused : bool) then mret [] else _ ← xmodify (put_paused true); _ ← emit EvPause; mret [].
Definition resume : X (list gcmd) :=
  paused ← xgets a_paused;
  if negb paused then mret []
  else
    _ ← emit EvResume;
    _ ← xmodify (put_paused false);
    eq ← xgets a_emitQueue;
    _ ← xmodify (put_emitQueue []);
    _ ← xforEach eq (fun '(index, e) => emitMatch_ index e);
    pq ← xgets a_processQueue;
    _ ← xmodify (put_processQueue []);
    mret (map (fun '(p, index, b) => Reprocess p index b) pq).

(** ** The event loop *)

(** Run some code; when it throws, the [finally] blocks of the callers run and
    the exception reaches the event loop. *)
Fixpoint unwind (l : list gcmd) (s : astate) : astate :=
  match l with
  | [] => s
  | ResEnd k a :: l' => unwind l' (resEnd k a s).1
  | _ :: l' => unwind l' s
  end.
Definition runCode (m : X (list gcmd)) (rest : list gcmd) (s : astate) : astate :=
  match m s with
  | (s, inr cs) => put_stack (cs ++ rest) s
  | (s, inl e) => put_stack [] (put_uncaught (Some e) (unwind rest s))
  end.

(** What the file system answers. *)
Definition ioAnswer (r : ioReq) : gcmd :=
  match r with
  | IoReaddir abs cb => Call cb (AReaddir (readdirSync FS abs))
  | IoLstat abs cb => Call cb (AStats (lstatSync FS abs))
  | IoStat abs cb => Call cb (AStats (statSync FS abs))
  | IoRealpath p cb => Call cb (ARealpath (realpathSync FS p))
  end.

(** A step: the next command, or, when nothing runs, the answer of some request,
    the next tick, or a call of the user. *)
Inductive move := MRun | MIo (i : nat) | MTick | MAbort | MPause | MResume.
Definition takeStep (m : move) (s : astate) : option astate :=
  match m, a_stack s with
  | MRun, c :: rest => Some (runCode (exec_ c) rest s)
  | MIo i, [] =>
      match a_io s !! i with
      | Some r => Some (put_stack [ioAnswer r] (put_io (delete i (a_io s)) s))
      | None => None
      end
  | MTick, [] =>
      match a_ticks s with
      | (k, a) :: ticks => Some (put_stack [Call (CbRes k) a] (put_ticks ticks s))
      | [] => None
      end
  | MAbort, [] => Some (runCode (_ ← abort; mret []) [] s)
  | MPause, [] => Some (runCode pause [] s)
  | MResume, [] => Some (runCode resume [] s)
  | _, _ => None
  end.

(** A sequence of moves. *)
Fixpoint takeSteps (ms : list move) (s : astate) : option astate :=
  match ms with
  | [] => Some s
  | m :: ms' => match takeStep m s with Some s' => takeSteps ms' s' | None => None end
  end.

(** The event loop left alone, with the requests answered in their order. *)
Fixpoint drive (fuel : nat) (s : astate) : astate :=
  match fuel with
  | O => s
  | S fuel =>
      match takeStep (match a_stack s, a_ticks s with _ :: _, _ => MRun | [], _ :: _ => MTick | [], [] => MIo 0 end) s with
      | Some s' => drive fuel s'
      | None => s
      end
  end.

End Async.

(** * The constructor and the exported functions *)

(** The patterns of the set, with their indices. *)
Definition startCmds (set : list (list part)) : list gcmd := imap (fun i p => Process p i false) set.

Definition initial (g : conf) (w : walk_state) : astate :=
  let set := mm_set (g_minimatch g) in
  let w := set_matches (replicate (length set) None) w in
  mkA w 0 false false false [] [] ∅ [] []
    (if g_noprocess g then [] else match set with [] => [Done] | _ => startCmds set end) 0 ∅ [] None None.

(** [new Glob(pattern, options, cb)] without the option [sync]. *)
Definition Glob (E : engine) (deprecationWarned : bool) (pattern : jsstr) (options : optionsArg) (cb : bool)
    : outcome (conf * bool * astate) :=
  let '(go, cb) := match options with OptObject go => (go, cb) | OptFunction => (noOptions, true) | OptUndefined => (noOptions, cb) end in
  '(g, w, _) ← setopts E deprecationWarned pattern go;
  Ret (g, cb, initial g w).

(** [glob(pattern, options, cb)]: the result of [glob.sync], or a walker. *)
Definition glob (E : engine) (FS : fileSystem) (fuel : nat) (deprecationWarned : bool) (pattern : jsstr)
    (options : optionsArg) (cb : bool) : outcome (option (list jsstr) + conf * bool * astate) :=
  let sync := match options with OptObject go => opt (go_flags go) "sync" | _ => false end in
  if sync then
    if cb then Throw "TypeError: callback provided to sync glob"
    else found ← globSync E FS fuel deprecationWarned pattern options 2; Ret (inl found)
  else r ← Glob E deprecationWarned pattern options cb; Ret (inr r).

(** [glob.hasMagic(pattern, options)]. *)
Definition hasMagic (E : engine) (deprecationWarned : bool) (pattern : jsstr) (go : globOptions) : outcome bool :=
  let go := mkGlobOptions (<["noprocess" := true]> (go_flags go)) (go_cwd go) (go_root go) (go_ignore go) (go_maxLength go)
              (go_cache go) (go_statCache go) (go_symlinks go) in
  '(g, _, _) ← Glob E deprecationWarned pattern (OptObject go) false;
  let set := mm_set (g_minimatch g) in
  if 1 <? len set then Ret true
  else
    first ← orTypeError (set !! 0%nat);
    Ret (existsb (fun p => match p with PStr _ => false | _ => true end) first).
