(* ===== verification/GlobAsyncFacts.v ===== *)
(** The asynchronous glob walker on a file system that is a finite tree:
    whatever the order of the answers, it stops, calls back once, and with the
    paths that the matcher accepts. *)
From Stdlib Require Import ZArith Lia.
From stdpp Require Import base countable gmap strings list sorting.
From S2P Require Import Prelude JsString JsRegExp PosixPath Minimatch MinimatchFacts GlobCommon GlobSync GlobFacts GlobAsync.

Local Open Scope Z_scope.
Open Scope js_scope.

(** * Running code *)

Lemma xbind_inr {A B} (m : X A) (k : A -> X B) s s' a : m s = (s', inr a) -> (x ← m; k x) s = k a s'.
Proof. intros Em. unfold mbind, X_bind. by rewrite Em. Qed.

Lemma xbind_gets {A B} (f : astate -> A) (k : A -> X B) s : (x ← xgets f; k x) s = k (f s) s.
Proof. done. Qed.

Lemma xbind_modify {B} f (k : unit -> X B) s : (x ← xmodify f; k x) s = k tt (f s).
Proof. done. Qed.

Lemma xbind_lift {A B} (m : outcome A) (k : A -> X B) s a : m = Ret a -> (x ← xlift m; k x) s = k a s.
Proof. intros ->. done. Qed.

Lemma xbind_walk {A B} (m : G A) (k : A -> X B) s a w : m (a_walk s) = Ret (a, w) -> (x ← xwalk m; k x) s = k a (put_walk w s).
Proof. intros Em. apply xbind_inr. unfold xwalk. by rewrite Em. Qed.

(** * What is under way *)

(** Everything the walker has still to do: commands of the running code,
    requests to the file system, ticks, and callbacks that wait for a key. *)
Inductive item := ICmd (c : gcmd) | IIo (r : ioReq) | ITick (k : gkey) (a : ganswer) | IReg (k : gkey) (cb : gcallback).

Definition regs (m : gmap gkey (list gcallback)) : list item :=
  map_to_list m ≫= fun kc => map (IReg kc.1) kc.2.

Definition waiting (s : astate) : list item :=
  map IIo (a_io s) ++ map (fun ka => ITick ka.1 ka.2) (a_ticks s) ++ regs (a_reqs s).

Definition items (s : astate) : list item := map ICmd (a_stack s) ++ waiting s.

Definition keys (s : astate) : list gkey := (map_to_list (a_reqs s)).*1.

(** The callbacks of a directory that the walk has asked for. *)
Definition isCont (cb : gcallback) : bool :=
  match cb with CbReaddir2 _ _ _ _ _ | CbGlobStar2 _ _ _ _ _ => true | _ => false end.

(** How many calls of [done] an item will make. *)
Definition owesDone (i : item) : nat :=
  match i with
  | ICmd Done | ICmd (GlobStar3 _ _ _ _ _ _) => 1
  | ICmd (Call cb _) | IReg _ cb => if isCont cb then 1 else 0
  | _ => 0
  end.

(** The keys whose callbacks an item will call. *)
Fixpoint cbKeys (cb : gcallback) : list gkey :=
  match cb with
  | CbRes k => [k]
  | CbLstatGlobStar _ cb | CbReaddirDone _ cb => cbKeys cb
  | _ => []
  end.
Definition ioCb (r : ioReq) : gcallback :=
  match r with IoReaddir _ cb | IoLstat _ cb | IoStat _ cb | IoRealpath _ cb => cb end.
Definition releases (i : item) : list gkey :=
  match i with
  | ICmd (Call cb _) | IReg _ cb => cbKeys cb
  | ICmd (ResEnd k _) | ITick k _ => [k]
  | IIo r => cbKeys (ioCb r)
  | _ => []
  end.

Definition isProcess (c : gcmd) : bool := match c with Process _ _ _ => true | _ => false end.
Definition live (i : item) : bool :=
  match i with ICmd c => isProcess c || bool_decide (owesDone (ICmd c) <> 0%nat) | _ => bool_decide (owesDone i <> 0%nat) end.

Definition total (f : item -> nat) (l : list item) : nat := sum_list_with f l.
Definition released (l : list item) : list gkey := l ≫= releases.

Lemma total_app f l l' : total f (l ++ l') = (total f l + total f l')%nat.
Proof. apply sum_list_with_app. Qed.

Lemma released_app l l' : released (l ++ l') = released l ++ released l'.
Proof. apply bind_app. Qed.

#[export] Instance total_perm f : Proper ((≡ₚ) ==> eq) (total f).
Proof. intros l l' H. unfold total. induction H; cbn [sum_list_with]; lia. Qed.

#[export] Instance released_perm : Proper ((≡ₚ) ==> (≡ₚ)) released.
Proof. intros l l' H. unfold released. by rewrite H. Qed.

(** ** The table of requests *)

Lemma regs_insert_new m k cbs : m !! k = None -> regs (<[k := cbs]> m) ≡ₚ map (IReg k) cbs ++ regs m.
Proof. intros Hk. unfold regs. by rewrite map_to_list_insert. Qed.

Lemma regs_delete m k cbs : m !! k = Some cbs -> regs m ≡ₚ map (IReg k) cbs ++ regs (delete k m).
Proof. intros Hk. rewrite <- regs_insert_new by apply lookup_delete_eq. by rewrite insert_delete_id. Qed.

Lemma regs_update m k cbs cbs' : m !! k = Some cbs -> regs (<[k := cbs']> m) ≡ₚ map (IReg k) cbs' ++ regs (delete k m).
Proof. intros Hk. rewrite <- regs_insert_new by apply lookup_delete_eq. by rewrite insert_delete_eq. Qed.

Lemma keys_insert_new (m : gmap gkey (list gcallback)) k cbs : m !! k = None -> (map_to_list (<[k := cbs]> m)).*1 ≡ₚ k :: (map_to_list m).*1.
Proof. intros Hk. by rewrite map_to_list_insert. Qed.

Lemma keys_delete (m : gmap gkey (list gcallback)) k cbs : m !! k = Some cbs -> (map_to_list m).*1 ≡ₚ k :: (map_to_list (delete k m)).*1.
Proof. intros Hk. rewrite <- (keys_insert_new _ _ cbs) by apply lookup_delete_eq. by rewrite insert_delete_id. Qed.

Lemma keys_update (m : gmap gkey (list gcallback)) k cbs cbs' : m !! k = Some cbs -> (map_to_list (<[k := cbs']> m)).*1 ≡ₚ (map_to_list m).*1.
Proof.
  intros Hk. rewrite (keys_delete _ _ _ Hk), <- (keys_insert_new _ k cbs') by apply lookup_delete_eq. by rewrite insert_delete_eq.
Qed.

Lemma keys_elem s k : k ∈ keys s <-> is_Some (a_reqs s !! k).
Proof.
  unfold keys. rewrite list_elem_of_fmap. split.
  - intros ([k' c] & -> & H%elem_of_map_to_list). eauto.
  - intros [c H]. exists (k, c). split; [done|]. by apply elem_of_map_to_list.
Qed.

Lemma keys_NoDup s : NoDup (keys s).
Proof. apply NoDup_fst_map_to_list. Qed.

Lemma waiting_reg s k cb cbs : a_reqs s !! k = Some cbs -> cb ∈ cbs -> IReg k cb ∈ waiting s.
Proof.
  intros Hk Hcb. unfold waiting. rewrite (regs_delete _ _ _ Hk), !elem_of_app. right. right. left.
  apply list_elem_of_fmap. eauto.
Qed.

(** * How long the walk can take *)

(** The largest number of entries of a directory. *)
Fixpoint maxKids (n : node) : nat :=
  match n with
  | File => 0
  | Dir kids => Nat.max (length kids) (foldr (fun kn h => Nat.max (maxKids kn.2) h) 0%nat kids)
  end.

Lemma child_maxKids s kids n : child s kids = Some n -> (maxKids n <= maxKids (Dir kids))%nat.
Proof.
  intros H%child_elem. cbn [maxKids]. induction kids as [|[k m] kids IH]; [by apply elem_of_nil in H|].
  cbn [foldr length]. apply elem_of_cons in H as [[= <- <-]|H]; cbn [snd]; [lia|]. specialize (IH H). lia.
Qed.

Lemma nodeAt_maxKids n q kids : nodeAt n q = Some (Dir kids) -> (length kids <= maxKids n)%nat.
Proof.
  revert n. induction q as [|x q IH]; intros n; cbn [nodeAt]; [intros [= ->]; cbn [maxKids]; lia|].
  destruct n as [|kids']; [done|]. destruct (child x kids') as [n'|] eqn:Ec; [|done]. intros H%IH.
  apply child_maxKids in Ec. lia.
Qed.

(** The steps of a walk that can go down [m] more levels, where a directory
    has at most [b] entries. *)
Fixpoint walkSteps (b m : nat) : nat :=
  25 + match m with O => 0 | S m' => (2 * b + 1) * walkSteps b m' end.

Lemma walkSteps_S b m : walkSteps b (S m) = (25 + (2 * b + 1) * walkSteps b m)%nat.
Proof. done. Qed.

Lemma walkSteps_mono b m m' : (m <= m')%nat -> (walkSteps b m <= walkSteps b m')%nat.
Proof.
  intros H. revert m H. induction m' as [|m' IH]; intros m H; [by replace m with 0%nat by lia|].
  destruct m as [|m]; [rewrite walkSteps_S; cbn [walkSteps]; nia|]. rewrite !walkSteps_S. specialize (IH m ltac:(lia)). nia.
Qed.

Section Tree.
Context (E : engine) (FS : fileSystem) (g : conf) (t : node).
Context (Hplain : plainWalker g) (HFS : servesTree FS t).

Abbreviation o := (mm_options (g_minimatch g)).
Context (Hnocase : opt o "nocase" = false) (Hdot : opt o "dot" = g_dot g) (Hnodir : g_nodir g = false) (Hrealpath : g_realpath g = false).
Context (pats : list (list part)).

Abbreviation Inv := (Inv t).
Abbreviation hits := (hits E g t).
Abbreviation bound := (walkSteps (maxKids t)).

(** The levels a walk below a directory can go down. *)
Definition depth (D : list jsstr) (remain : list part) : nat := (magic remain + heightAt t D)%nat.

Fixpoint cbSteps (cb : gcallback) : nat :=
  match cb with
  | CbReaddir2 _ abs remain _ _ | CbGlobStar2 _ abs remain _ _ => bound (depth (segments abs) remain) - 21
  | CbRes _ => 2
  | CbLstatGlobStar _ cb => cbSteps cb + 8
  | CbReaddirDone _ cb => cbSteps cb + 1
  | _ => 0
  end.
Definition steps (i : item) : nat :=
  match i with
  | ICmd (Process p _ _) => bound (depth (segments (join [SLASH] (leading p).1)) (leading p).2)
  | ICmd Done => 1
  | ICmd (Call cb _) => cbSteps cb
  | ICmd (ResEnd _ _) => 4
  | ICmd (GlobStar3 _ abs remain _ _ _) => 2 + 2 * maxKids t * bound (pred (depth (segments abs) remain))
  | ICmd _ => 0
  | IIo r => cbSteps (ioCb r) + 1
  | ITick _ _ => 3
  | IReg _ cb => cbSteps cb + 3
  end.

(** The keys an item will add to the matches of a pattern. *)
Definition owes (i : item) (index : nat) (k : jsstr) : Prop :=
  match i with
  | ICmd (Process p j _) => j = index /\ hits (segments (join [SLASH] (leading p).1)) (leading p).2 k
  | ICmd (Call (CbReaddir2 _ abs remain j _ | CbGlobStar2 _ abs remain j _) _)
  | IReg _ (CbReaddir2 _ abs remain j _ | CbGlobStar2 _ abs remain j _) => j = index /\ hits (segments abs) remain k
  | ICmd (GlobStar3 _ abs remain j _ entries) =>
      j = index /\ exists f, (f ∈ entries /\ dotBlocked o f = false) /\ hits (segments abs ++ [f]) remain k
  | _ => False
  end.

(** ** What the items are *)

Definition keyAbs (k : gkey) : jsstr := match k with KReaddir abs _ | KLstat abs | KStat abs => abs end.
Definition dirPath (abs : jsstr) : Prop := exists D, Forall isName D /\ abs = absOf D.
Definition goodKey (k : gkey) : Prop := dirPath (keyAbs k) /\ match k with KStat _ => False | _ => True end.

(** The answer for a key. *)
Definition answerFor (k : gkey) : ganswer :=
  match k with
  | KReaddir abs _ => match entriesOf (nodeAt t (segments abs)) with Some l => AEntries l | None => ANone end
  | KLstat abs | KStat abs => AStats (lstatSync FS abs)
  end.

Definition goodWork (prefix : option jsstr) (abs : jsstr) (remain : list part) (index : nat) : Prop :=
  (index < length pats)%nat /\ goodPattern (g_dot g) remain /\
  exists D, Forall isName D /\ prefix = prefixFor D /\ abs = absOf D.

(** A callback that waits for a key. *)
Definition goodReg (k : gkey) (cb : gcallback) : Prop :=
  match cb with
  | CbReaddir2 prefix abs remain index _ =>
      (exists b, k = KReaddir abs b) /\ goodWork prefix abs remain index /\
      exists r src gl rest, remain = PRegExp r src gl :: rest
  | CbGlobStar2 prefix abs remain index _ =>
      (exists b, k = KReaddir abs b) /\ goodWork prefix abs remain index /\ exists q rest, remain = PGlobstar :: q :: rest
  | CbRes k' => exists abs, dirPath abs /\ k = KReaddir abs false /\ k' = KReaddir abs true
  | CbLstatGlobStar abs cb => dirPath abs /\ k = KLstat abs /\ cb = CbRes (KReaddir abs true)
  | _ => False
  end.

Definition goodCall (cb : gcallback) (a : ganswer) : Prop :=
  match cb with
  | CbRes k => goodKey k /\ a = answerFor k
  | CbReaddirDone abs cb => dirPath abs /\ (exists b, cb = CbRes (KReaddir abs b)) /\ a = AReaddir (readdirSync FS abs)
  | _ => exists k, goodReg k cb /\ a = answerFor k
  end.

Definition goodIo (r : ioReq) : Prop :=
  match r with
  | IoReaddir abs cb => dirPath abs /\ exists b, cb = CbReaddirDone abs (CbRes (KReaddir abs b))
  | IoLstat abs cb => dirPath abs /\ cb = CbRes (KLstat abs)
  | _ => False
  end.

(** A pattern given to [_process]: strings that spell a directory, and the rest. *)
Definition goodProcess (p : list part) (index : nat) : Prop :=
  (index < length pats)%nat /\
  exists ss D remain, leading p = (ss, remain) /\ p = map PStr ss ++ remain /\ Forall isName D /\ spells ss D /\
    goodPattern (g_dot g) remain /\ match remain with PStr _ :: _ => False | _ => True end.

Definition goodItem (i : item) : Prop :=
  match i with
  | ICmd (Process p index _) => goodProcess p index
  | ICmd Done => True
  | ICmd (Call cb a) => goodCall cb a
  | ICmd (ResEnd k a) | ITick k a => goodKey k /\ a = answerFor k
  | ICmd (GlobStar3 prefix abs remain index _ entries) =>
      goodWork prefix abs remain index /\ (exists q rest, remain = PGlobstar :: q :: rest) /\
      entriesOf (nodeAt t (segments abs)) = Some entries
  | ICmd _ => False
  | IIo r => goodIo r
  | IReg k cb => goodReg k cb
  end.

Lemma segments_absOf D : Forall isName D -> segments (absOf D) = D.
Proof. intros H. unfold absOf. rewrite segments_slash_l. by apply segments_join, name_raw. Qed.

Lemma reg_call k cb : goodReg k cb -> goodCall cb (answerFor k).
Proof.
  destruct cb; cbn [goodReg goodCall]; intros H; try done; try (by eauto).
  destruct H as (abs & Ha & -> & ->). done.
Qed.

Lemma goodReg_key k cb : goodReg k cb -> goodKey k.
Proof.
  destruct cb; cbn [goodReg]; try done.
  - intros ((b & ->) & (_ & _ & D & ? & _ & ->) & _). split; [by exists D|done].
  - intros ((b & ->) & (_ & _ & D & ? & _ & ->) & _). split; [by exists D|done].
  - intros (abs & Ha & -> & _). done.
  - intros (Ha & -> & _). done.
Qed.

(** A new call of [_process] below a directory. *)
Lemma process_item ss dir ps index b :
  (index < length pats)%nat -> Forall isName dir -> spells ss dir -> goodPattern (g_dot g) ps ->
  let i := ICmd (Process (map PStr ss ++ ps) index b) in
  goodItem i /\ (steps i <= bound (depth dir ps))%nat /\ forall j k, owes i j k <-> index = j /\ hits dir ps k.
Proof.
  intros Hi Hd Hss Hg. destruct (leading_split ps) as (strs & remain & El & Hps & Hhead).
  pose proof Hg as Hg'. rewrite Hps in Hg'. apply (goodPattern_strs g) in Hg' as (Hstrs & Hne & Hgr).
  assert (HD : Forall isName (dir ++ strs)) by (by apply Forall_app).
  pose proof (spells_app _ _ strs Hss) as Hss'.
  cbn zeta. cbn [goodItem steps owes]. rewrite (leading_app _ _ _ _ El). cbn [fst snd].
  rewrite (proj1 Hss'), segments_join by (by apply name_raw). split_and!.
  - split; [done|]. exists (ss ++ strs), (dir ++ strs), remain. split_and!; [by apply leading_app| |done..].
    by rewrite Hps, map_app, <- app_assoc.
  - apply walkSteps_mono. unfold depth. rewrite Hps, magic_strs. pose proof (heightAt_app t dir strs). lia.
  - intros j k. rewrite Hps. by rewrite <- (hits_strs E g t Hnocase strs dir remain k Hstrs).
Qed.

(** An item that neither calls [done] nor [_process] adds no match. *)
Lemma dead_item i : live i = false -> owesDone i = 0%nat /\ forall j k, ~ owes i j k.
Proof.
  destruct i as [c|r|k a|k cb]; cbn [live owesDone owes]; intros H.
  - apply orb_false_iff in H as [Hp H]. apply bool_decide_eq_false, dec_stable in H. split; [done|].
    destruct c as [| |cb a| | | | |]; try done; try (by intros ? ? ?). destruct cb; try done; by intros ? ? ?.
  - split; [done|by intros ? ? ?].
  - split; [done|by intros ? ? ?].
  - apply bool_decide_eq_false, dec_stable in H. split; [done|]. destruct cb; try done; by intros ? ? ?.
Qed.

(** ** Asking for the entries of a directory *)

(** [cb] was registered for [k], and when nobody had asked for [k] some items
    that lead to the call of its callbacks. *)
Definition asked (w : nat) (k : gkey) (cb : gcallback) (s : astate) (cs : list gcmd) (s' : astate) : Prop :=
  exists reqs' io' new extra,
    s' = put_io io' (put_reqs reqs' s) /\ waiting s' ≡ₚ new ++ waiting s /\
    map ICmd cs ++ new ≡ₚ IReg k cb :: extra /\ released extra ++ keys s ≡ₚ keys s' /\
    Forall (fun i => goodItem i /\ live i = false) extra /\ (total steps extra <= w)%nat /\
    forall k', reqs' !! k' = Some [] -> a_reqs s !! k' = Some [].

Lemma inflight_asks k cb s :
  exists reqs' new, inflight_ k cb s = (put_reqs reqs' s, inr (bool_decide (a_reqs s !! k = None))) /\
    regs reqs' ≡ₚ IReg k cb :: regs (a_reqs s) /\ (map_to_list reqs').*1 ≡ₚ new ++ (map_to_list (a_reqs s)).*1 /\
    new = (if bool_decide (a_reqs s !! k = None) then [k] else []) /\
    forall k', reqs' !! k' = Some [] -> a_reqs s !! k' = Some [].
Proof.
  unfold inflight_. rewrite xbind_gets. destruct (a_reqs s !! k) as [cbs|] eqn:Ek.
  - eexists _, _. rewrite xbind_modify. split_and!; [done| | |done|].
    + rewrite (regs_update _ _ _ _ Ek), (regs_delete _ _ _ Ek), map_app, <- app_assoc. cbn [map app].
      by rewrite <- Permutation_middle.
    + by rewrite (keys_update _ _ _ _ Ek).
    + intros k'. destruct (decide (k' = k)) as [->|Hne]; [|by rewrite lookup_insert_ne].
      rewrite lookup_insert_eq. intros [= []%app_eq_nil]. done.
  - eexists _, _. rewrite xbind_modify. split_and!; [done| | |done|].
    + by rewrite (regs_insert_new _ _ _ Ek).
    + by rewrite (keys_insert_new _ _ _ Ek).
    + intros k'. destruct (decide (k' = k)) as [->|Hne]; [by rewrite lookup_insert_eq|by rewrite lookup_insert_ne].
Qed.

(** The answer that the cache has. *)
Lemma cached_answer s abs b : Inv (a_walk s) -> dirPath abs ->
  match s_cache (a_walk s) !! abs with
  | Some (CFalse | CFile) => answerFor (KReaddir abs b) = ANone
  | Some (CEntries l) => answerFor (KReaddir abs b) = AEntries l
  | _ => True
  end.
Proof.
  intros Hinv (D & HD & ->). pose proof (proj1 (Hinv D HD)) as Hc. cbn [answerFor]. rewrite segments_absOf by done.
  destruct (s_cache (a_walk s) !! absOf D) as [[]|]; by rewrite ?Hc.
Qed.

(** What [_readdir] does once it has to ask. *)
Lemma ask_cache_or_disk s abs b : Inv (a_walk s) -> dirPath abs ->
  exists cs io',
    match s_cache (a_walk s) !! abs with
    | Some (CFalse | CFile) => mret [Call (CbRes (KReaddir abs b)) ANone]
    | Some (CEntries l) => mret [Call (CbRes (KReaddir abs b)) (AEntries l)]
    | _ => _ ← request (IoReaddir abs (CbReaddirDone abs (CbRes (KReaddir abs b)))); mret []
    end s = (put_io (a_io s ++ io') s, inr cs) /\
    exists x, map ICmd cs ++ map IIo io' = [x] /\ goodItem x /\ live x = false /\ releases x = [KReaddir abs b] /\ (steps x <= 4)%nat.
Proof.
  intros Hinv Ha. pose proof (cached_answer s abs b Hinv Ha) as Hc.
  assert (Hio : put_io (a_io s ++ []) s = s) by (rewrite app_nil_r; by destruct s).
  destruct (s_cache (a_walk s) !! abs) as [[| | | |l]|].
  1, 3: eexists [Call _ ANone], []; rewrite Hio; split; [done|]; eexists; split_and!; [done|by split; [split|]|done|done|cbn; lia].
  3: eexists [Call _ (AEntries l)], []; rewrite Hio; split; [done|]; eexists; split_and!; [done|by split; [split|]|done|done|cbn; lia].
  all: eexists [], [_]; split; [done|]; eexists; split_and!; [done|split; [done|by eexists]|done|done|cbn; lia].
Qed.


Lemma waiting_io io s : waiting (put_io (a_io s ++ io) s) ≡ₚ map IIo io ++ waiting s.
Proof.
  unfold waiting. cbn [a_io a_ticks a_reqs put_io]. rewrite map_app, <- app_assoc. apply Permutation_app_swap_app.
Qed.

Lemma waiting_reqs k cb reqs' s : regs reqs' ≡ₚ IReg k cb :: regs (a_reqs s) -> waiting (put_reqs reqs' s) ≡ₚ IReg k cb :: waiting s.
Proof.
  intros H. unfold waiting. cbn [a_io a_ticks a_reqs put_reqs]. rewrite H.
  by rewrite <- !Permutation_middle.
Qed.

Lemma readdirPlain_asks abs cb s : a_aborted s = false -> Inv (a_walk s) -> dirPath abs ->
  exists cs s', readdirPlain_ abs cb s = (s', inr cs) /\ asked 4 (KReaddir abs false) cb s cs s'.
Proof.
  intros Hab Hinv Ha. unfold readdirPlain_. rewrite xbind_gets, Hab.
  destruct (inflight_asks (KReaddir abs false) cb s) as (reqs' & nk & Ein & Hregs & Hkeys & Hnk & Hne).
  rewrite (xbind_inr _ _ _ _ _ Ein). case_bool_decide as Hk; cbn [negb].
  - rewrite xbind_gets. set (s1 := put_reqs reqs' s).
    destruct (ask_cache_or_disk s1 abs false Hinv Ha) as (cs & io & Eq & x & Hx & Hgx & Hlx & Hrx & Hsx).
    eexists cs, _. split; [exact Eq|]. exists reqs', (a_io s1 ++ io), (IReg (KReaddir abs false) cb :: map IIo io), [x].
    split_and!; [done| | | | | |done].
    + rewrite waiting_io. unfold s1. rewrite (waiting_reqs _ _ _ _ Hregs). by rewrite <- Permutation_middle.
    + rewrite <- Permutation_middle, Hx. done.
    + unfold keys. cbn [a_reqs put_io s1 put_reqs]. rewrite Hkeys, Hnk. unfold released. cbn. by rewrite Hrx.
    + by constructor.
    + unfold total. cbn. lia.
  - eexists [], _. split; [done|]. exists reqs', (a_io s), [IReg (KReaddir abs false) cb], [].
    split_and!; [by destruct s| | | | | |done].
    + by rewrite (waiting_reqs _ _ _ _ Hregs).
    + done.
    + unfold keys. cbn [a_reqs put_reqs]. by rewrite Hkeys, Hnk.
    + constructor.
    + cbn. lia.
Qed.

(** One request that leads to another. *)
Lemma asked_through w k cb k' cb' s cs s2 reqs1 :
  regs reqs1 ≡ₚ IReg k cb :: regs (a_reqs s) -> (map_to_list reqs1).*1 ≡ₚ k :: keys s ->
  (forall k', reqs1 !! k' = Some [] -> a_reqs s !! k' = Some []) ->
  cbKeys cb' = [k] -> goodReg k' cb' -> isCont cb' = false ->
  asked w k' cb' (put_reqs reqs1 s) cs s2 -> asked (w + cbSteps cb' + 3) k cb s cs s2.
Proof.
  intros Hregs Hkeys Hne Hrel Hgood Hcont (reqs2 & io2 & new & extra & -> & Hw & Hx & Hr & Hg & Hs & Hne2).
  exists reqs2, io2, (IReg k cb :: new), (IReg k' cb' :: extra). split_and!.
  - done.
  - rewrite Hw, (waiting_reqs _ _ _ _ Hregs). by rewrite <- Permutation_middle.
  - rewrite <- Permutation_middle. by rewrite Hx.
  - rewrite <- Hr. unfold released. cbn [mbind list_bind releases]. rewrite Hrel. unfold keys at 2. cbn [a_reqs put_reqs].
    rewrite Hkeys. cbn [app]. by rewrite Permutation_middle.
  - constructor; [|done]. split; [done|]. cbn [live owesDone]. by rewrite Hcont.
  - unfold total in *. cbn [sum_list_with steps]. lia.
  - intros k0 H%Hne2. by apply Hne.
Qed.

Lemma lstat_asks abs cb s : dirPath abs -> 
  exists s', (first ← inflight_ (KLstat abs) cb;
              _ ← (if (first : bool) then request (IoLstat abs (CbRes (KLstat abs))) else mret tt);
              mret ([] : list gcmd)) s = (s', inr []) /\ asked 3 (KLstat abs) cb s [] s'.
Proof.
  intros Ha. destruct (inflight_asks (KLstat abs) cb s) as (reqs' & nk & Ein & Hregs & Hkeys & Hnk & Hne).
  rewrite (xbind_inr _ _ _ _ _ Ein). case_bool_decide as Hk.
  - eexists. split; [done|]. set (r := IoLstat abs (CbRes (KLstat abs))).
    exists reqs', (a_io s ++ [r]), [IReg (KLstat abs) cb; IIo r], [IIo r]. split_and!; [done| |done| | |cbn; lia|done].
    + rewrite (waiting_io [r] (put_reqs reqs' s)), (waiting_reqs _ _ _ _ Hregs). apply Permutation_swap.
    + unfold keys. cbn [a_reqs put_io put_reqs]. by rewrite Hkeys, Hnk.
    + constructor; [|constructor]. done.
  - eexists. split; [done|]. exists reqs', (a_io s), [IReg (KLstat abs) cb], [].
    split_and!; [by destruct s| |done| |constructor|cbn; lia|done].
    + by rewrite (waiting_reqs _ _ _ _ Hregs).
    + unfold keys. cbn [a_reqs put_reqs]. by rewrite Hkeys, Hnk.
Qed.

Lemma asked_weaken w w' k cb s cs s' : (w <= w')%nat -> asked w k cb s cs s' -> asked w' k cb s cs s'.
Proof. intros Hw (r & io & new & extra & ? & ? & ? & ? & ? & ? & ?). exists r, io, new, extra. split_and!; [done..|lia|done]. Qed.

(** [_readdir] registers the callback and takes care that it is called. *)
Lemma readdir_asks abs b cb s : a_aborted s = false -> Inv (a_walk s) -> dirPath abs ->
  exists cs s', readdir_ g abs b cb s = (s', inr cs) /\ asked 16 (KReaddir abs b) cb s cs s'.
Proof.
  intros Hab Hinv Ha. unfold readdir_. destruct b; cbn [negb].
  2: { destruct (readdirPlain_asks abs cb s Hab Hinv Ha) as (cs & s' & ? & ?). exists cs, s'. split; [done|]. by apply (asked_weaken 4); [lia|]. }
  rewrite xbind_gets, Hab.
  destruct (inflight_asks (KReaddir abs true) cb s) as (reqs' & nk & Ein & Hregs & Hkeys & Hnk & Hne).
  rewrite (xbind_inr _ _ _ _ _ Ein). case_bool_decide as Hk; cbn [negb].
  2: { eexists [], _. split; [done|]. exists reqs', (a_io s), [IReg (KReaddir abs true) cb], [].
       split_and!; [by destruct s|by rewrite (waiting_reqs _ _ _ _ Hregs)|done| |constructor|cbn; lia|done].
       unfold keys. cbn [a_reqs put_reqs]. by rewrite Hkeys, Hnk. }
  subst nk. set (s1 := put_reqs reqs' s). rewrite xbind_gets. case_bool_decide as Hsym; cbn [negb].
  - rewrite xbind_gets. destruct (ask_cache_or_disk s1 abs true Hinv Ha) as (cs & io & Eq & x & Hx & Hgx & Hlx & Hrx & Hsx).
    eexists cs, _. split; [exact Eq|]. exists reqs', (a_io s1 ++ io), (IReg (KReaddir abs true) cb :: map IIo io), [x].
    split_and!; [done| | | | | |done].
    + rewrite waiting_io. unfold s1. rewrite (waiting_reqs _ _ _ _ Hregs). by rewrite <- Permutation_middle.
    + rewrite <- Permutation_middle, Hx. done.
    + unfold keys. cbn [a_reqs put_io s1 put_reqs]. rewrite Hkeys. unfold released. cbn. by rewrite Hrx.
    + by constructor.
    + unfold total. cbn. lia.
  - unfold readdirInGlobStar_. rewrite xbind_gets. change (a_aborted s1) with (a_aborted s). rewrite Hab.
    destruct (g_follow g).
    + destruct (readdirPlain_asks abs (CbRes (KReaddir abs true)) s1 Hab Hinv Ha) as (cs & s' & Eq & Hask).
      exists cs, s'. split; [done|]. eapply asked_weaken; [|eapply (asked_through 4); [done|done|done| | | |exact Hask]]; [cbn; lia|done| |done].
      by exists abs.
    + destruct (lstat_asks abs (CbLstatGlobStar abs (CbRes (KReaddir abs true))) s1 Ha) as (s' & Eq & Hask).
      exists [], s'. split; [exact Eq|]. eapply asked_weaken; [|eapply (asked_through 3); [done|done|done| | | |exact Hask]]; [cbn; lia|done|done|done].
Qed.

(** ** What a step does *)

Definition isEnd (ev : gevent) : bool := match ev with EvEnd _ => true | _ => false end.
Definition ends (s : astate) : list gevent := filter (fun ev => isEnd ev = true) (a_events s).
Definition told (s : astate) : list gevent * option (string + list jsstr) := (ends s, a_answer s).

Definition owed (l : list item) (index : nat) (k : jsstr) : Prop := exists i, i ∈ l /\ owes i index k.

(** The items [old] were replaced by [new], and the rest of the state agrees. *)
Record change (s s' : astate) (old new : list item) : Prop := mkChange {
  ch_flags : (a_aborted s', a_paused s', a_uncaught s') = (a_aborted s, a_paused s, a_uncaught s);
  ch_inv : Inv (a_walk s');
  ch_len : length (s_matches (a_walk s')) = length (s_matches (a_walk s));
  ch_good : Forall goodItem new;
  ch_keys : released new ++ keys s ≡ₚ released old ++ keys s';
  ch_done : Z.of_nat (total owesDone new) + a_processing s = Z.of_nat (total owesDone old) + a_processing s';
  ch_owes : forall i k, k ∈ keysAt i (a_walk s') \/ owed new i k <-> k ∈ keysAt i (a_walk s) \/ owed old i k;
  ch_steps : (total steps new < total steps old)%nat;
}.

Lemma owed_app l l' i k : owed (l ++ l') i k <-> owed l i k \/ owed l' i k.
Proof. unfold owed. setoid_rewrite elem_of_app. naive_solver. Qed.

Lemma owed_cons x l i k : owed (x :: l) i k <-> owes x i k \/ owed l i k.
Proof. unfold owed. setoid_rewrite elem_of_cons. naive_solver. Qed.

Lemma owed_nil i k : owed [] i k <-> False.
Proof. unfold owed. setoid_rewrite elem_of_nil. naive_solver. Qed.

#[local] Instance owed_perm : Proper ((≡ₚ) ==> eq ==> eq ==> iff) owed.
Proof. intros l l' H i ? <- k ? <-. unfold owed. by setoid_rewrite H. Qed.

Definition anyLive (l : list item) : Prop := exists i, i ∈ l /\ live i = true.

Lemma anyLive_cons x l : anyLive (x :: l) <-> live x = true \/ anyLive l.
Proof. unfold anyLive. setoid_rewrite elem_of_cons. naive_solver. Qed.

Lemma anyLive_app l l' : anyLive (l ++ l') <-> anyLive l \/ anyLive l'.
Proof. unfold anyLive. setoid_rewrite elem_of_app. naive_solver. Qed.

Lemma anyLive_nil : anyLive [] <-> False.
Proof. unfold anyLive. setoid_rewrite elem_of_nil. naive_solver. Qed.

#[local] Instance anyLive_perm : Proper ((≡ₚ) ==> iff) anyLive.
Proof. intros l l' H. unfold anyLive. by setoid_rewrite H. Qed.

Lemma dead_list l : Forall (fun i => goodItem i /\ live i = false) l ->
  Forall goodItem l /\ total owesDone l = 0%nat /\ (forall i k, ~ owed l i k) /\ ~ anyLive l.
Proof.
  induction 1 as [|x l [Hg Hl] _ (IH1 & IH2 & IH3 & IH4)]; [split_and!; [constructor|done|intros i k; rewrite owed_nil; tauto|rewrite anyLive_nil; tauto]|].
  destruct (dead_item x Hl) as [H1 H2]. split_and!; [by constructor| | |].
  - unfold total in *. cbn [sum_list_with]. lia.
  - intros i k. rewrite owed_cons. naive_solver.
  - rewrite anyLive_cons, Hl. naive_solver.
Qed.

(** What a command does when it runs. *)
Definition runs (c : gcmd) (s : astate) : Prop :=
  exists s' cs old new rest,
    exec_ E g true c s = (s', inr cs) /\ a_stack s' = a_stack s /\
    waiting s ≡ₚ old ++ rest /\ waiting s' ≡ₚ new ++ rest /\ change s s' (ICmd c :: old) (map ICmd cs ++ new) /\
    (anyLive (map ICmd cs ++ new) <-> anyLive (ICmd c :: old)) /\ told s' = told s /\
    (forall k, a_reqs s' !! k = Some [] -> a_reqs s !! k = Some [] /\ (forall a, c <> ResEnd k a) \/ exists a, ResEnd k a ∈ cs) /\
    forall l1 p i b l2, cs = l1 ++ Process p i b :: l2 -> total owesDone (map ICmd l2) <> 0%nat.

Lemma work_depth D p rest : isStr p = false -> depth D (p :: rest) = S (pred (depth D (p :: rest))).
Proof. intros Hp. unfold depth. rewrite magic_cons, Hp. lia. Qed.

Lemma no_process_here (cs : list gcmd) : Forall (fun c => isProcess c = false) cs ->
  forall l1 p i b l2, cs = l1 ++ Process p i b :: l2 -> total owesDone (map ICmd l2) <> 0%nat.
Proof. intros H l1 p i b l2 ->. apply Forall_app in H as [_ [H _]%Forall_cons]. done. Qed.

(** A command that asks for a directory hands its work to the callback. *)
Lemma asked_runs w k cb z walk s cs s' c :
  let s1 := put_processing z (put_walk walk s) in
  exec_ E g true c s = (s', inr cs) -> asked w k cb s1 cs s' -> goodReg k cb -> Inv walk -> s_matches walk = s_matches (a_walk s) ->
  z + Z.of_nat (owesDone (ICmd c)) = a_processing s + Z.of_nat (owesDone (IReg k cb)) ->
  cbKeys cb = releases (ICmd c) -> (forall i kk, owes (IReg k cb) i kk <-> owes (ICmd c) i kk) ->
  live (IReg k cb) = live (ICmd c) -> (forall k a, c <> ResEnd k a) ->
  (cbSteps cb + 3 + w < steps (ICmd c))%nat -> runs c s.
Proof.
  intros s1 Eex (reqs' & io' & new & extra & -> & Hw & Hx & Hr & Hg & Hs & Hne) Hreg Hinv Hm Hproc Hkeys Howes Hlive Hc Hsteps.
  destruct (dead_list _ Hg) as (Hg1 & Hg2 & Hg3 & Hg4). exists (put_io io' (put_reqs reqs' s1)), cs, [], new, (waiting s).
  split_and!; [done|done|done|exact Hw| | |done| |].
  - constructor; [done|done| | | | | |].
    + cbn [a_walk put_io put_reqs s1 put_processing put_walk]. by rewrite Hm.
    + rewrite Hx. by constructor.
    + rewrite Hx. unfold released in *. cbn [mbind list_bind releases]. rewrite Hkeys, app_nil_r, <- app_assoc. 
      apply Permutation_app_head. exact Hr.
    + rewrite Hx. unfold total in *. cbn [sum_list_with a_processing put_io put_reqs s1 put_processing]. lia.
    + intros i kk. rewrite Hx, !owed_cons, owed_nil, Howes. cbn [a_walk put_io put_reqs s1 put_processing put_walk]. unfold keysAt. rewrite Hm.
      specialize (Hg3 i kk). tauto.
    + rewrite Hx. unfold total in *. cbn [sum_list_with]. change (steps (IReg k cb)) with (cbSteps cb + 3)%nat. lia.
  - rewrite Hx, !anyLive_cons, anyLive_nil, Hlive. tauto.
  - intros k' Hk'%Hne. left. split; [done|]. intros a. apply Hc.
  - apply no_process_here, Forall_forall. intros c' Hc'. assert (Hin : ICmd c' ∈ IReg k cb :: extra).
    { rewrite <- Hx. apply elem_of_app. left. apply list_elem_of_fmap. eauto. }
    apply elem_of_cons in Hin as [|Hin]; [done|]. rewrite Forall_forall in Hg. destruct (Hg _ Hin) as [_ Hl].
    cbn [live] in Hl. by apply orb_false_iff in Hl as [? _].
Qed.

(** ** The commands *)

Lemma put_same s : put_processing (a_processing s) (put_walk (a_walk s) s) = s.
Proof. by destruct s. Qed.

Lemma childrenIgnored_plain p : childrenIgnored E g p = false.
Proof. unfold childrenIgnored. by destruct Hplain as (_ & _ & _ & _ & -> & _). Qed.

Lemma leading_remain remain : match remain with PStr _ :: _ => False | _ => True end -> leading remain = ([], remain).
Proof. by destruct remain as [|[]]. Qed.

Lemma good_head p rest : goodPattern (g_dot g) (p :: rest) -> isStr p = false ->
  (exists q qs, p = PGlobstar /\ rest = q :: qs) \/ (exists r src gl, p = PRegExp r src (Some gl) /\ dotSafe (g_dot g) r gl).
Proof.
  intros [[Hp _]%Forall_cons Hlast] Hs. inversion Hp as [s Hn|E1|r src gl Hsafe E1]; subst p; [done| |].
  - left. destruct rest as [|q qs]; [|by eauto]. destruct Hlast as ([|? []] & z & Hz & Hr); cbn in Hz; simplify_eq; done.
  - right. eauto.
Qed.

Lemma process_runs p i b s : a_aborted s = false -> a_paused s = false -> Inv (a_walk s) -> goodProcess p i ->
  runs (Process p i b) s.
Proof.
  intros Hab Hpa Hinv (Hi & ss & D & remain & El & Hp & HD & Hss & Hg & Hh).
  destruct remain as [|pn remain]; [by destruct Hg as [_ ([] & ? & ? & _)]|].
  assert (Hpn : isStr pn = false) by (by destruct pn).
  set (z := a_processing s + 1). set (s1 := put_processing z (put_walk (a_walk s) s)).
  set (cb := match pn with PGlobstar => CbGlobStar2 (prefixFor D) (absOf D) (pn :: remain) i b
                         | _ => CbReaddir2 (prefixFor D) (absOf D) (pn :: remain) i b end).
  destruct (readdir_asks (absOf D) b cb s1 Hab Hinv) as (cs & s' & Er & Hask); [by exists D|].
  assert (Hcb : isCont cb = true) by (by destruct pn).
  eapply (asked_runs 16 (KReaddir (absOf D) b) cb z (a_walk s)); [ |exact Hask| |done|done| | | | |done|].
  - cbn [exec_]. unfold process_. rewrite xbind_gets, Hab, xbind_modify, xbind_gets. cbn [a_paused put_processing]. rewrite Hpa, El.
    rewrite Hp, (prefixOf_ok g ss D [] (pn :: remain) (pn :: remain)), app_nil_r; [|by rewrite app_nil_r|done|by apply leading_remain|done].
    rewrite (xbind_lift _ _ _ _ (makeAbs_dir g Hplain D HD)), childrenIgnored_plain.
    replace (put_processing _ s) with s1 by (by destruct s). unfold cb in Er. by destruct pn.
  - destruct (good_head _ _ Hg Hpn) as [(q & qs & -> & ->)|(r & src & gl & -> & _)]; cbn [cb goodReg].
    + split_and!; [by eexists| |by eauto]. split_and!; [done..|]. by exists D.
    + split_and!; [by eexists| |by eauto 10]. split_and!; [done..|]. by exists D.
  - cbn [owesDone]. rewrite Hcb. unfold z. lia.
  - by destruct pn.
  - intros j k. cbn [owes]. rewrite El. cbn [fst snd]. rewrite (proj1 Hss), segments_join by (by apply name_raw).
    unfold cb. destruct pn; cbn [owes]; by rewrite ?segments_absOf.
  - cbn [live owesDone]. rewrite Hcb. done.
  - cbn [steps]. rewrite El. cbn [fst snd]. rewrite (proj1 Hss), segments_join by (by apply name_raw).
    replace (cbSteps cb) with (bound (depth D (pn :: remain)) - 21)%nat by (destruct pn; cbn [cb cbSteps]; by rewrite segments_absOf).
    rewrite (work_depth D pn remain Hpn), walkSteps_S. lia.
Qed.

(** A command that only touches the walk and emits no [end]. *)
Lemma local_runs c s w ev cs :
  exec_ E g true c s = (put_walk w (put_events ev s), inr cs) ->
  filter (fun ev => isEnd ev = true) ev = ends s -> Inv w -> length (s_matches w) = length (s_matches (a_walk s)) ->
  Forall goodItem (map ICmd cs) -> released (map ICmd cs) = releases (ICmd c) ->
  total owesDone (map ICmd cs) = owesDone (ICmd c) ->
  (forall i k, k ∈ keysAt i w \/ owed (map ICmd cs) i k <-> k ∈ keysAt i (a_walk s) \/ owes (ICmd c) i k) ->
  (total steps (map ICmd cs) < steps (ICmd c))%nat ->
  (anyLive (map ICmd cs) <-> live (ICmd c) = true) -> (forall k a, c <> ResEnd k a) ->
  (forall l1 p i b l2, cs = l1 ++ Process p i b :: l2 -> total owesDone (map ICmd l2) <> 0%nat) ->
  runs c s.
Proof.
  intros Eex Hev Hinv Hlen Hg Hr Hd Ho Hs Hl Hc Hp.
  eexists _, cs, [], [], (waiting s). split_and!; [exact Eex|done|done|done| | | | |done].
  - rewrite app_nil_r. constructor; [done|done|done|done| | | |].
    + unfold released at 2. cbn [mbind list_bind]. by rewrite Hr, app_nil_r.
    + unfold total at 2. cbn [sum_list_with]. rewrite Hd. cbn [a_processing put_walk put_events]. lia.
    + intros i k. rewrite owed_cons, owed_nil. cbn [a_walk put_walk]. rewrite Ho. tauto.
    + unfold total at 2. cbn [sum_list_with]. lia.
  - rewrite app_nil_r, anyLive_cons, anyLive_nil, Hl. tauto.
  - unfold told, ends. cbn [a_events put_walk put_events a_answer]. by rewrite Hev.
  - intros k Hk. left. split; [done|]. intros a. apply Hc.
Qed.

Lemma put_walk_same s : put_walk (a_walk s) (put_events (a_events s) s) = s.
Proof. by destruct s. Qed.

(** The answers of the file system. *)
Lemma readdirDone_runs abs b s : a_aborted s = false -> Inv (a_walk s) -> dirPath abs ->
  runs (Call (CbReaddirDone abs (CbRes (KReaddir abs b))) (AReaddir (readdirSync FS abs))) s.
Proof.
  intros Hab Hinv (D & HD & ->). set (a := answerFor (KReaddir (absOf D) b)). pose proof (HFS D HD) as Hf.
  assert (Hex : exists w, callback E g true (CbReaddirDone (absOf D) (CbRes (KReaddir (absOf D) b))) (AReaddir (readdirSync FS (absOf D))) s
                  = (put_walk w s, inr [Call (CbRes (KReaddir (absOf D) b)) a]) /\ Inv w /\ s_matches w = s_matches (a_walk s)).
  { cbn [callback]. unfold a. cbn [answerFor]. rewrite segments_absOf by done.
    destruct (nodeAt t D) as [[|kids]|] eqn:En; cbn [entriesOf].
    - destruct Hf as [-> _]. unfold readdirError_. rewrite xbind_gets, Hab, (xbind_lift _ _ _ _ (makeAbs_abs g Hplain D HD)).
      rewrite bool_decide_eq_true_2 by in_list. eexists. rewrite (xbind_walk _ _ _ tt _ eq_refl). split_and!; [done| |done].
      apply absOf_missing; [done|by rewrite En|auto|done].
    - destruct Hf as (-> & _). unfold readdirEntries_. rewrite xbind_gets, Hab.
      destruct (readdirEntries_ok g t D (map fst kids) HD) with (s := a_walk s) as (w & Ew & Hw & Hm); [by rewrite En|done|].
      rewrite (xbind_walk _ _ _ _ _ Ew). by exists w.
    - destruct Hf as [(code & -> & Hcode) _]. unfold readdirError_. rewrite xbind_gets, Hab, (xbind_lift _ _ _ _ (makeAbs_abs g Hplain D HD)).
      assert (Hcodes : code = "ENOTDIR"%string \/ code ∈ ["ENOENT"; "ELOOP"; "ENAMETOOLONG"; "UNKNOWN"]%string)
        by (unfold missingCodes in Hcode; apply elem_of_cons in Hcode; done).
      assert (Hmiss : forall c, c = CFalse \/ c = CFile -> Inv (set_cache (absOf D) c (a_walk s)))
        by (intros c Hc; apply absOf_missing; [done|by rewrite En|done|done]).
      destruct (bool_decide_reflect (code ∈ ["ENOTSUP"; "ENOTDIR"]%string)) as [Hb|Hb].
      + eexists. rewrite (xbind_walk _ _ _ tt _ eq_refl). split_and!; [done|auto|done].
      + destruct Hcodes as [->|Hcodes]; [destruct Hb; in_list|]. rewrite (bool_decide_eq_true_2 _ Hcodes).
        eexists. rewrite (xbind_walk _ _ _ tt _ eq_refl). split_and!; [done|auto|done]. }
  destruct Hex as (w & Hex & Hw & Hm).
  eapply (local_runs _ s w (a_events s)); [rewrite <- (put_walk_same s) in Hex at 2; exact Hex|done|done|by rewrite Hm| |done|done| | | |done|].
  - constructor; [|constructor]. split; [|done]. split; [by exists D|done].
  - intros i k. cbn [map]. rewrite owed_cons, owed_nil. unfold keysAt. rewrite Hm. cbn [owes]. tauto.
  - cbn. lia.
  - cbn [map]. rewrite anyLive_cons, anyLive_nil. cbn. naive_solver.
  - by apply no_process_here; repeat constructor.
Qed.

Lemma lstatGlobStar_runs abs s : a_aborted s = false -> Inv (a_walk s) -> dirPath abs ->
  runs (Call (CbLstatGlobStar abs (CbRes (KReaddir abs true))) (AStats (lstatSync FS abs))) s.
Proof.
  intros Hab Hinv (D & HD & ->). pose proof (HFS D HD) as Hf. set (k := KReaddir (absOf D) true).
  assert (Hmissing : forall w, entriesOf (nodeAt t D) = None -> Inv w -> s_matches w = s_matches (a_walk s) ->
    callback E g true (CbLstatGlobStar (absOf D) (CbRes k)) (AStats (lstatSync FS (absOf D))) s = (put_walk w s, inr [Call (CbRes k) ANone]) ->
    runs (Call (CbLstatGlobStar (absOf D) (CbRes k)) (AStats (lstatSync FS (absOf D)))) s).
  { intros w Hn Hw Hm Hex.
    eapply (local_runs _ s w (a_events s)); [rewrite <- (put_walk_same s) in Hex at 2; exact Hex|done|done|by rewrite Hm| |done|done| | | |done|].
    - constructor; [|constructor]. split; [split; [by exists D|done]|]. cbn [k answerFor]. by rewrite segments_absOf, Hn.
    - intros i kk. cbn [map]. rewrite owed_cons, owed_nil. unfold keysAt. rewrite Hm. cbn [owes]. tauto.
    - cbn. lia.
    - cbn [map]. rewrite anyLive_cons, anyLive_nil. cbn. naive_solver.
    - by apply no_process_here; repeat constructor. }
  destruct (nodeAt t D) as [[|kids]|] eqn:En.
  - destruct Hf as [_ Hf]. eapply (Hmissing (set_cache (absOf D) CFile (set_symlink (absOf D) false (a_walk s)))); [done| |done|].
    + apply absOf_missing; [done|by rewrite En|auto|by apply symlink_ok].
    + rewrite Hf. done.
  - destruct Hf as (_ & _ & Hf). rewrite Hf. set (w := set_symlink (absOf D) false (a_walk s)).
    assert (Hw : Inv w) by (by apply symlink_ok).
    destruct (readdirPlain_asks (absOf D) (CbRes k) (put_processing (a_processing s) (put_walk w s)) Hab Hw) as (cs & s' & Er & Hask); [by exists D|].
    eapply (asked_runs 4 _ (CbRes k) (a_processing s) w); [ |exact Hask| |done|done|done|done|done|done|done|cbn; lia].
    + cbn [exec_ callback lstatGlobStar isSymbolicLink isDirectory]. rewrite (xbind_walk _ _ _ tt w eq_refl). cbn [negb andb].
      rewrite <- Er. f_equal.
    + exists (absOf D). split_and!; [by exists D|done|done].
  - destruct Hf as [_ Hf]. eapply (Hmissing (a_walk s)); [done|done|done|]. rewrite Hf. by destruct s.
Qed.

(** The functions of [inflight]. *)
Lemma called_regs k a cbs :
  let calls := map (fun cb => ICmd (Call cb a)) cbs in let waits := map (IReg k) cbs in
  released calls = released waits /\ total owesDone calls = total owesDone waits /\
  (total steps calls + 3 * length cbs = total steps waits)%nat /\
  (forall i kk, owed calls i kk <-> owed waits i kk) /\ (anyLive calls <-> anyLive waits).
Proof.
  cbn zeta. induction cbs as [|cb cbs (IH1 & IH2 & IH3 & IH4 & IH5)]; cbn [map length]; [done|].
  unfold released, total in *. cbn [mbind list_bind sum_list_with releases owesDone steps] in *. split_and!.
  - by rewrite IH1.
  - by rewrite IH2.
  - lia.
  - intros i kk. rewrite !owed_cons, IH4. cbn [owes]. by destruct cb.
  - rewrite !anyLive_cons, IH5. cbn [live owesDone isProcess orb]. done.
Qed.

Lemma res_runs k s cbs : Inv (a_walk s) -> goodKey k -> a_reqs s !! k = Some cbs -> cbs <> [] -> Forall (goodReg k) cbs ->
  runs (Call (CbRes k) (answerFor k)) s.
Proof.
  intros Hinv Hkey Hk Hne Hregs. destruct (called_regs k (answerFor k) cbs) as (C1 & C2 & C3 & C4 & C5).
  set (a := answerFor k) in *. set (calls := map (fun cb => ICmd (Call cb a)) cbs) in *.
  assert (Ecs : map ICmd (map (fun cb => Call cb a) cbs ++ [ResEnd k a]) = calls ++ [ICmd (ResEnd k a)])
    by (by rewrite map_app, map_map).
  eexists (put_reqs (<[k := []]> (a_reqs s)) s), (map (fun cb => Call cb a) cbs ++ [ResEnd k a]), (map (IReg k) cbs), [],
    (map IIo (a_io s) ++ map (fun ka => ITick ka.1 ka.2) (a_ticks s) ++ regs (delete k (a_reqs s))).
  rewrite Ecs. split_and!.
  - cbn [exec_ callback]. unfold res. rewrite xbind_gets. rewrite (xbind_lift _ _ _ cbs); [done|]. rewrite Hk. done.
  - done.
  - unfold waiting. rewrite (regs_delete _ _ _ Hk). solve_Permutation.
  - unfold waiting. cbn [a_io a_ticks a_reqs put_reqs]. by rewrite (regs_update _ _ _ _ Hk).
  - rewrite app_nil_r. constructor; [done|done|done| | | | |].
    + apply Forall_app. split; [|by constructor]. apply Forall_map. eapply Forall_impl; [exact Hregs|]. intros cb H. by apply reg_call.
    + rewrite released_app, C1. unfold released at 2 3. cbn [mbind list_bind releases cbKeys]. unfold keys. cbn [a_reqs put_reqs].
      rewrite (keys_update _ _ _ _ Hk). apply Permutation_app_tail. apply Permutation_app_comm.
    + rewrite total_app, C2. unfold total. cbn [sum_list_with owesDone isCont a_processing put_reqs]. lia.
    + intros i kk. rewrite owed_app, !owed_cons, owed_nil, C4. cbn [owes]. cbn [a_walk put_reqs]. tauto.
    + rewrite total_app. unfold total in *. cbn [sum_list_with steps cbSteps]. destruct cbs; [done|]. cbn [length] in C3. lia.
  - rewrite app_nil_r, anyLive_app, !anyLive_cons, anyLive_nil, C5. cbn. naive_solver.
  - done.
  - intros k' Hk'. cbn [a_reqs put_reqs] in Hk'. destruct (decide (k' = k)) as [->|Hkk].
    + right. exists a. apply elem_of_app. right. by apply list_elem_of_singleton.
    + left. by rewrite lookup_insert_ne in Hk'.
  - apply no_process_here, Forall_app. split; [|by repeat constructor]. apply Forall_map, Forall_forall. done.
Qed.

Lemma resEnd_runs k s cbs : Inv (a_walk s) -> goodKey k -> a_reqs s !! k = Some cbs -> runs (ResEnd k (answerFor k)) s.
Proof.
  intros Hinv Hkey Hk. set (a := answerFor k). destruct cbs as [|cb cbs].
  - eexists (put_reqs (delete k (a_reqs s)) s), [], [], [], (map IIo (a_io s) ++ map (fun ka => ITick ka.1 ka.2) (a_ticks s) ++ regs (delete k (a_reqs s))).
    split_and!; [|done| |done| | |done| |by apply no_process_here].
    + cbn [exec_]. unfold resEnd. rewrite xbind_gets. by rewrite Hk.
    + unfold waiting. by rewrite (regs_delete _ _ _ Hk).
    + constructor; [done|done|done|constructor| | | |].
      * unfold keys. cbn [a_reqs put_reqs]. rewrite (keys_delete _ _ _ Hk). done.
      * done.
      * intros i kk. rewrite owed_cons. cbn. tauto.
      * cbn. lia.
    + cbn [map app]. rewrite anyLive_cons, anyLive_nil. cbn. naive_solver.
    + intros k' Hk'. cbn [a_reqs put_reqs] in Hk'. destruct (decide (k' = k)) as [->|Hkk]; [by rewrite lookup_delete_eq in Hk'|].
      rewrite lookup_delete_ne in Hk' by done. left. split; [done|]. by intros a' [= ?].
  - eexists (put_ticks (a_ticks s ++ [(k, a)]) s), [], [], [ITick k a], (waiting s).
    split_and!; [|done|done| | | |done| |by apply no_process_here].
    + cbn [exec_]. unfold resEnd. rewrite xbind_gets. by rewrite Hk.
    + unfold waiting. cbn [a_io a_ticks a_reqs put_ticks]. rewrite map_app, <- !app_assoc. cbn [map app fst snd].
      by rewrite <- !Permutation_middle.
    + constructor; [done|done|done|by constructor|done|done| |cbn; lia].
      intros i kk. cbn [map app]. rewrite !owed_cons. cbn. tauto.
    + cbn [map app]. rewrite !anyLive_cons, anyLive_nil. cbn. naive_solver.
    + intros k' Hk'. cbn [a_reqs put_ticks] in Hk'. left. split; [done|]. intros a' [= ->]. congruence.
Qed.

(** Emitting the matches of a directory. *)
Definition matched (index : nat) (m : keySet) (w : walk_state) : walk_state := set_matches (<[index := Some m]> (s_matches w)) w.

Lemma isIgnored_plain e : isIgnored E g e = false.
Proof. unfold isIgnored. by destruct Hplain as (_ & _ & _ & _ & -> & _). Qed.

Lemma emitMatch_adds index e s m abs :
  a_aborted s = false -> a_paused s = false -> s_matches (a_walk s) !! index = Some (Some m) -> makeAbs g e = Ret abs ->
  exists ev, emitMatch_ E g true index e s = (put_walk (matched index (setKey e m) (a_walk s)) (put_events ev s), inr tt) /\
    filter (fun ev => isEnd ev = true) ev = ends s.
Proof.
  intros Hab Hpa Hm Habs. unfold emitMatch_. rewrite xbind_gets, Hab, xbind_gets, Hm. unfold setKey.
  destruct (decide (e ∈ m)) as [He|He].
  { rewrite bool_decide_eq_true_2 by done. exists (a_events s). split; [|done].
    unfold matched. rewrite list_insert_id by done. destruct s as [w]. by destruct w. }
  rewrite bool_decide_eq_false_2, isIgnored_plain, xbind_gets, Hpa, (xbind_lift _ _ _ _ Habs), xbind_gets, Hnodir by done. cbn [andb].
  destruct Hplain as (Hmark & _). rewrite Hmark.
  rewrite (xbind_inr (mret e) _ s s e) by done.
  rewrite (xbind_walk _ _ _ tt (matched index (m ++ [e]) (a_walk s))).
  2: { unfold addMatch, modify. rewrite (alter_as_insert _ _ _ _ Hm). cbn [fmap option_fmap option_map]. unfold setKey, matched.
       by rewrite decide_False. }
  rewrite xbind_gets. set (s1 := put_walk _ s).
  destruct (s_statCache (a_walk s1) !! abs) as [[st|]|].
  - exists ((a_events s ++ [EvStat e st]) ++ [EvMatch e]). split; [done|]. unfold ends. by rewrite !filter_app, !app_nil_r.
  - exists (a_events s ++ [EvMatch e]). split; [done|]. unfold ends. by rewrite !filter_app, !app_nil_r.
  - exists (a_events s ++ [EvMatch e]). split; [done|]. unfold ends. by rewrite !filter_app, !app_nil_r.
Qed.

Lemma underPrefix_ok D e : Forall isName D -> isName e -> underPrefix (prefixFor D) e = join [SLASH] (D ++ [e]).
Proof.
  intros HD He. unfold underPrefix. rewrite prefixFor_truthy by done. destruct D as [|d D]; [done|]. cbn [prefixFor].
  assert (str_eqb (join [SLASH] (d :: D)) (js "/") = false) as ->.
  { unfold str_eqb. apply bool_decide_eq_false. intros Heq. pose proof (join_parts_head _ (name_raw _ HD)) as Hh.
    by rewrite Heq in Hh. }
  by rewrite join_snoc.
Qed.

Lemma emit_step index D e s m :
  a_aborted s = false -> a_paused s = false -> s_matches (a_walk s) !! index = Some (Some m) -> Forall isName D -> isName e ->
  exists ev, (e ← (let e := underPrefix (prefixFor D) e in
                   if str_eqb (charAt e 0) (js "/") && negb (g_nomount g) then xlift (joinPath [Some (g_root g); Some e]) else mret e);
              emitMatch_ E g true index e) s
    = (put_walk (matched index (setKey (join [SLASH] (D ++ [e])) m) (a_walk s)) (put_events ev s), inr tt) /\
    filter (fun ev => isEnd ev = true) ev = ends s.
Proof.
  intros Hab Hpa Hm HD He. rewrite underPrefix_ok by done. cbn zeta. set (p := join [SLASH] (D ++ [e])).
  assert (HDe : Forall isName (D ++ [e])) by (apply Forall_app; split; [done|by constructor]).
  assert (str_eqb (charAt p 0) (js "/") = false) as ->.
  { destruct (not_absolute_names (D ++ [e]) [] HDe) as [H|H]; [by rewrite app_nil_r in H|by destruct D]. }
  cbn [andb]. rewrite (xbind_inr (mret p) _ s s p) by done.
  apply (emitMatch_adds index p s m (absOf (D ++ [e]))); [done..|].
  pose proof (makeAbs_dir g Hplain (D ++ [e]) HDe) as H. unfold prefixFor in H. revert H. unfold p. by destruct D.
Qed.

Lemma emit_loop index D l s m :
  a_aborted s = false -> a_paused s = false -> s_matches (a_walk s) !! index = Some (Some m) -> Forall isName D -> Forall isName l ->
  exists ev, xforEach l (fun e =>
      let e := underPrefix (prefixFor D) e in
      e ← (if str_eqb (charAt e 0) (js "/") && negb (g_nomount g) then xlift (joinPath [Some (g_root g); Some e]) else mret e);
      emitMatch_ E g true index e) s
    = (put_walk (matched index (setKeys (map (fun e => join [SLASH] (D ++ [e])) l) m) (a_walk s)) (put_events ev s), inr tt) /\
    filter (fun ev => isEnd ev = true) ev = ends s.
Proof.
  intros Hab Hpa Hm HD Hl. revert s m Hab Hpa Hm. induction Hl as [|e l He _ IH]; intros s m Hab Hpa Hm.
  - exists (a_events s). split; [|done]. cbn. unfold matched. rewrite list_insert_id by done. destruct s as [w]. by destruct w.
  - destruct (emit_step index D e s m Hab Hpa Hm HD He) as (ev & Ee & Hev). cbn [xforEach map].
    rewrite (xbind_inr _ _ _ _ _ Ee). set (s1 := put_walk _ _).
    destruct (IH s1 (setKey (join [SLASH] (D ++ [e])) m) Hab Hpa) as (ev' & E' & Hev').
    { cbn. apply list_lookup_insert_eq. by eapply lookup_lt_Some. }
    exists ev'. split.
    + cbn zeta in E'. rewrite E'. cbn [s1 a_walk put_walk]. unfold matched. cbn [s_matches set_matches].
      by rewrite list_insert_insert_eq.
    + rewrite Hev'. unfold ends. cbn [s1 a_events put_walk put_events]. done.
Qed.

(** Calls of [_process], one for each of some entries, and then [done]. *)
Lemma processes_done (cs : list gcmd) N :
  Forall (fun c => isProcess c = true /\ goodItem (ICmd c) /\ (steps (ICmd c) <= N)%nat) cs ->
  let l := map ICmd (cs ++ [Done]) in
  Forall goodItem l /\ released l = [] /\ total owesDone l = 1%nat /\ (total steps l <= length cs * N + 1)%nat /\ anyLive l /\
  (forall i k, owed l i k <-> exists c, c ∈ cs /\ owes (ICmd c) i k) /\
  forall l1 p i b l2, cs ++ [Done] = l1 ++ Process p i b :: l2 -> total owesDone (map ICmd l2) <> 0%nat.
Proof.
  intros Hcs l.
  assert (HF : Forall goodItem (map ICmd cs) /\ released (map ICmd cs) = [] /\ total owesDone (map ICmd cs) = 0%nat /\
               (total steps (map ICmd cs) <= length cs * N)%nat).
  { induction Hcs as [|c cs (Hp & Hg & Hs) _ (IH1 & IH2 & IH3 & IH4)]; [split_and!; [constructor|done|done|cbn; lia]|].
    destruct c; try done. unfold released, total in *. cbn [map mbind list_bind sum_list_with releases owesDone length] in *.
    split_and!; [by constructor|done|done|lia]. }
  destruct HF as (H1 & H2 & H3 & H4). unfold l. rewrite map_app. split_and!.
  - apply Forall_app. split; [done|by repeat constructor].
  - by rewrite released_app, H2.
  - rewrite total_app, H3. done.
  - rewrite total_app. unfold total at 2. cbn. lia.
  - rewrite anyLive_app. right. exists (ICmd Done). split; [by apply list_elem_of_singleton|done].
  - intros i k. rewrite owed_app. cbn [map]. rewrite owed_cons, owed_nil. unfold owed. setoid_rewrite list_elem_of_fmap. cbn [owes]. naive_solver.
  - intros l1 p i b l2 Heq. destruct l2 as [|x l2 _] using rev_ind.
    + apply app_inj_tail in Heq as [_ Heq]. done.
    + rewrite app_comm_cons, app_assoc in Heq. apply app_inj_tail in Heq as [_ <-]. rewrite map_app, total_app. cbn. lia.
Qed.

Lemma done_runs c s w ev cs N :
  exec_ E g true c s = (put_walk w (put_events ev s), inr (cs ++ [Done])) ->
  filter (fun ev => isEnd ev = true) ev = ends s -> Inv w -> length (s_matches w) = length (s_matches (a_walk s)) ->
  Forall (fun c => isProcess c = true /\ goodItem (ICmd c) /\ (steps (ICmd c) <= N)%nat) cs ->
  releases (ICmd c) = [] -> owesDone (ICmd c) = 1%nat -> live (ICmd c) = true -> (length cs * N + 1 < steps (ICmd c))%nat ->
  (forall i k, k ∈ keysAt i w \/ (exists c, c ∈ cs /\ owes (ICmd c) i k) <-> k ∈ keysAt i (a_walk s) \/ owes (ICmd c) i k) ->
  (forall k a, c <> ResEnd k a) -> runs c s.
Proof.
  intros Eex Hev Hinv Hlen Hcs Hr Hd Hl Hs Ho Hc.
  destruct (processes_done cs N Hcs) as (H1 & H2 & H3 & H4 & H5 & H6 & H7).
  apply (local_runs c s w ev (cs ++ [Done])); [done|done|done|done|done|congruence|congruence| |lia| |done|done].
  - intros i k. by rewrite H6, Ho.
  - by split.
Qed.

Lemma cont_steps D p rest : Forall isName D -> isStr p = false ->
  (bound (depth (segments (absOf D)) (p :: rest)) - 21 = 4 + (2 * maxKids t + 1) * bound (pred (depth D (p :: rest))))%nat.
Proof.
  intros HD Hp. rewrite segments_absOf by done. pose proof (work_depth D p rest Hp) as Hw.
  set (m := pred _) in *. rewrite Hw, walkSteps_S. lia.
Qed.

Lemma matched_keys index m w i : (index < length (s_matches w))%nat ->
  keysAt i (matched index m w) = (if decide (i = index) then m else keysAt i w).
Proof.
  intros Hi. unfold keysAt, matched. cbn [s_matches set_matches]. case_decide as He.
  - subst. by rewrite list_lookup_insert_eq.
  - by rewrite list_lookup_insert_ne.
Qed.

(** No entries, or none that match: only [done] is called. *)
Lemma nothing_runs c s : exec_ E g true c s = (s, inr [Done]) -> Inv (a_walk s) -> releases (ICmd c) = [] -> owesDone (ICmd c) = 1%nat ->
  live (ICmd c) = true -> (1 < steps (ICmd c))%nat -> (forall i k, ~ owes (ICmd c) i k) -> (forall k a, c <> ResEnd k a) -> runs c s.
Proof.
  intros Hex Hinv Hr Hd Hl Hs Ho Hc. apply (done_runs c s (a_walk s) (a_events s) [] 0); [by rewrite put_walk_same|done|done|done|constructor|done|done|done|done| |done].
  intros i k. setoid_rewrite elem_of_nil. specialize (Ho i k). naive_solver.
Qed.

(** The last part of a pattern: the matched entries are emitted. *)
Lemma emits_runs c s i D l :
  exec_ E g true c s
  = (_ ← xwalk (initMatch i);
     _ ← xforEach l (fun e =>
           let e := underPrefix (prefixFor D) e in
           e ← (if str_eqb (charAt e 0) (js "/") && negb (g_nomount g) then xlift (joinPath [Some (g_root g); Some e]) else mret e);
           emitMatch_ E g true i e);
     mret [Done]) s ->
  a_aborted s = false -> a_paused s = false -> Inv (a_walk s) -> (i < length (s_matches (a_walk s)))%nat -> Forall isName D -> Forall isName l ->
  (forall j k, owes (ICmd c) j k <-> i = j /\ k ∈ map (fun e => join [SLASH] (D ++ [e])) l) ->
  releases (ICmd c) = [] -> owesDone (ICmd c) = 1%nat -> live (ICmd c) = true -> (1 < steps (ICmd c))%nat -> (forall k a, c <> ResEnd k a) ->
  runs c s.
Proof.
  intros Hex Hab Hpa Hinv Hi HD Hl Ho Hr Hd Hlive Hs Hc.
  destruct (initMatch_ok t i (a_walk s) Hi Hinv) as (w1 & E1 & Hw1 & L1 & F1 & M1).
  destruct (emit_loop i D l (put_walk w1 s) (keysAt i (a_walk s)) Hab Hpa M1 HD Hl) as (ev & Ee & Hev).
  eapply (done_runs c s (matched i (setKeys (map (fun e => join [SLASH] (D ++ [e])) l) (keysAt i (a_walk s))) w1) ev [] 0);
    [|exact Hev|exact Hw1| |constructor|done|done|done|done| |done].
  - rewrite Hex, (xbind_walk _ _ _ tt w1 E1), (xbind_inr _ _ _ _ _ Ee). reflexivity.
  - unfold matched. cbn [s_matches set_matches]. by rewrite length_insert.
  - intros j k. rewrite Ho, matched_keys by lia. setoid_rewrite elem_of_nil. case_decide as Hj.
    + subst j. rewrite elem_of_setKeys. naive_solver.
    + assert (keysAt j w1 = keysAt j (a_walk s)) as -> by (unfold keysAt; by rewrite F1). naive_solver.
Qed.

(** Other parts: every matched entry is processed. *)
Lemma processes_runs c s i (call : jsstr -> gcmd) l N (P : jsstr -> jsstr -> Prop) :
  exec_ E g true c s = (s, inr (map call l ++ [Done])) -> Inv (a_walk s) ->
  (forall f, f ∈ l -> isProcess (call f) = true /\ goodItem (ICmd (call f)) /\ (steps (ICmd (call f)) <= N)%nat /\
     forall j k, owes (ICmd (call f)) j k <-> i = j /\ P f k) ->
  (forall j k, owes (ICmd c) j k <-> i = j /\ exists f, f ∈ l /\ P f k) ->
  releases (ICmd c) = [] -> owesDone (ICmd c) = 1%nat -> live (ICmd c) = true -> (length l * N + 1 < steps (ICmd c))%nat ->
  (forall k a, c <> ResEnd k a) -> runs c s.
Proof.
  intros Hex Hinv Hcall Ho Hr Hd Hlive Hs Hc.
  eapply (done_runs c s (a_walk s) (a_events s) (map call l) N); [by rewrite put_walk_same|done|done|done| |done|done|done| | |done].
  - apply Forall_map, Forall_forall. intros f Hf. by destruct (Hcall f Hf) as (? & ? & ? & _).
  - by rewrite length_map.
  - intros j k. rewrite Ho. setoid_rewrite list_elem_of_fmap. split.
    + intros [?|(c' & (f & -> & Hf) & Hw)]; [by left|]. apply (Hcall f Hf) in Hw as [? ?]. right. eauto.
    + intros [?|(Hj & f & Hf & Hh)]; [by left|]. right. exists (call f). split; [by eauto|]. by apply (Hcall f Hf).
Qed.

(** The callback of [_processReaddir]. *)
Lemma readdir2_runs D r src gl rest i b b' s :
  a_aborted s = false -> a_paused s = false -> Inv (a_walk s) -> (i < length (s_matches (a_walk s)))%nat -> (i < length pats)%nat ->
  Forall isName D -> goodPattern (g_dot g) (PRegExp r src gl :: rest) ->
  runs (Call (CbReaddir2 (prefixFor D) (absOf D) (PRegExp r src gl :: rest) i b) (answerFor (KReaddir (absOf D) b'))) s.
Proof.
  intros Hab Hpa Hinv Hi Hip HD Hg.
  destruct (good_head _ _ Hg ltac:(done)) as [(? & ? & [=] & _)|(? & ? & glob & [= <- <- ->] & Hsafe)].
  cbn [answerFor]. rewrite segments_absOf by done.
  pose proof (cont_steps D (PRegExp r src (Some glob)) rest HD ltac:(done)) as Hsteps.
  set (N := bound (pred (depth D (PRegExp r src (Some glob) :: rest)))) in *.
  destruct (nodeAt t D) as [[|kids]|] eqn:Hn; cbn [entriesOf].
  1, 3: apply nothing_runs; try done; [cbn [steps cbSteps]; rewrite Hsteps; lia|];
        intros j k [_ H]; revert H; rewrite segments_absOf by done; apply hits_no_dir; by rewrite Hn.
  assert (Hentries : forall e, entryHit g (prefixFor D) glob r e = re_test r e) by (intros; by apply entryHit_good).
  set (l := filter (fun e => entryHit g (prefixFor D) glob r e = true) (map fst kids)).
  assert (Hl : forall f, f ∈ l <-> f ∈ map fst kids /\ re_test r f = true).
  { intros f. unfold l. rewrite list_elem_of_filter, Hentries. tauto. }
  assert (Hln : Forall isName l) by (apply Forall_forall; intros f [Hf _]%Hl; by apply (kids_names FS t HFS D kids)).
  assert (Hhits : forall k, hits D (PRegExp r src (Some glob) :: rest) k <-> exists f, f ∈ l /\ hits (D ++ [f]) rest k).
  { intros k. rewrite (hits_re E FS g t HFS D kids) by done. by setoid_rewrite Hl. }
  assert (Hlen : (length l <= maxKids t)%nat).
  { pose proof (nodeAt_maxKids _ _ _ Hn). pose proof (length_filter (fun e => entryHit g (prefixFor D) glob r e = true) (map fst kids)).
    rewrite length_map in *. unfold l. lia. }
  destruct Hplain as (Hmark & Hstat & _).
  assert (Hex : exec_ E g true (Call (CbReaddir2 (prefixFor D) (absOf D) (PRegExp r src (Some glob) :: rest) i b) (AEntries (map fst kids))) s
    = (if bool_decide (l = []) then mret [Done]
       else if bool_decide (rest = []) then
         _ ← xwalk (initMatch i);
         _ ← xforEach l (fun e =>
               let e := underPrefix (prefixFor D) e in
               e ← (if str_eqb (charAt e 0) (js "/") && negb (g_nomount g) then xlift (joinPath [Some (g_root g); Some e]) else mret e);
               emitMatch_ E g true i e);
         mret [Done]
       else mret (map (fun e => Process (PStr (underPrefix (prefixFor D) e) :: rest) i b) l ++ [Done])) s).
  { cbn [exec_ callback processReaddir2]. rewrite (xbind_lift _ _ _ glob) by done. rewrite Hmark, Hstat. cbn [negb]. by rewrite !andb_true_r. }
  assert (Howes : forall j k, owes (ICmd (Call (CbReaddir2 (prefixFor D) (absOf D) (PRegExp r src (Some glob) :: rest) i b) (AEntries (map fst kids)))) j k
            <-> i = j /\ exists f, f ∈ l /\ hits (D ++ [f]) rest k).
  { intros j k. cbn [owes]. by rewrite segments_absOf, Hhits. }
  case_bool_decide as Hnil.
  { apply nothing_runs; try done; [cbn [steps cbSteps]; rewrite Hsteps; lia|]. intros j k. rewrite Howes, Hnil.
    setoid_rewrite elem_of_nil. naive_solver. }
  case_bool_decide as Hrest.
  - subst rest. apply (emits_runs _ s i D l Hex); try done; [|cbn [steps cbSteps]; rewrite Hsteps; lia].
    intros j k. rewrite Howes, list_elem_of_fmap. setoid_rewrite hits_nil. split; [naive_solver|].
    intros (Hj & f & -> & Hf). split; [done|]. exists f. split_and!; [done|done|]. rewrite nodeAt_app, Hn. cbn [nodeAt].
    apply Hl in Hf as [Hf%child_is_Some _]. destruct Hf as [n ->]. eauto.
  - apply (processes_runs _ s i _ l N (fun f k => hits (D ++ [f]) rest k) Hex Hinv); try done; [|cbn [steps cbSteps]; rewrite Hsteps; nia].
    intros f Hf. assert (Hfn : isName f) by (rewrite Forall_forall in Hln; auto).
    destruct (process_item [underPrefix (prefixFor D) f] (D ++ [f]) rest i b Hip) as (P1 & P2 & P3);
      [apply Forall_app; split; [done|by constructor]|by rewrite underPrefix_ok; [split; [|by destruct D]|..]|by eapply goodPattern_tail|].
    split_and!; [done|exact P1| |exact P3]. etrans; [exact P2|]. apply walkSteps_mono. unfold depth.
    apply Hl in Hf as [Hf _]. pose proof (heightAt_below t D kids f [] Hn). rewrite (magic_cons (PRegExp _ _ _)). cbn [isStr]. lia.
Qed.

(** The callback of [_processGlobStar]. *)
Lemma gspref_item D ps i b : (i < length pats)%nat -> Forall isName D -> goodPattern (g_dot g) ps ->
  let c := Process (gspref (prefixFor D) ++ ps) i b in
  goodItem (ICmd c) /\ (steps (ICmd c) <= bound (depth D ps))%nat /\ forall j k, owes (ICmd c) j k <-> i = j /\ hits D ps k.
Proof.
  intros Hi HD Hg. destruct (spells_prefix D HD) as (ss & Hss & Hpre). unfold gspref. rewrite Hpre. by apply process_item.
Qed.

Lemma gspref_child D f kids ps p0 i b : (i < length pats)%nat -> Forall isName D -> goodPattern (g_dot g) ps ->
  nodeAt t D = Some (Dir kids) -> f ∈ map fst kids -> (magic ps <= magic p0)%nat ->
  let c := Process (gspref (prefixFor D) ++ [PStr f] ++ ps) i b in
  goodItem (ICmd c) /\ (steps (ICmd c) <= bound (pred (depth D p0)))%nat /\ forall j k, owes (ICmd c) j k <-> i = j /\ hits (D ++ [f]) ps k.
Proof.
  intros Hi HD Hg Hn Hf Hm. assert (Hfn : isName f) by (by apply (kids_names FS t HFS D kids)).
  destruct (spells_prefix D HD) as (ss & Hss & Hpre). unfold gspref. rewrite Hpre.
  replace (map PStr ss ++ [PStr f] ++ ps) with (map PStr (ss ++ [f]) ++ ps) by (by rewrite map_app, <- app_assoc).
  destruct (process_item (ss ++ [f]) (D ++ [f]) ps i b Hi) as (P1 & P2 & P3);
    [apply Forall_app; split; [done|by constructor]|by apply spells_app|done|].
  split_and!; [exact P1| |exact P3]. etrans; [exact P2|]. apply walkSteps_mono. unfold depth.
  pose proof (heightAt_below t D kids f [] Hn). lia.
Qed.

Lemma globStar2_runs D q rest i b b' s :
  Inv (a_walk s) -> (i < length pats)%nat -> Forall isName D -> goodPattern (g_dot g) (PGlobstar :: q :: rest) ->
  runs (Call (CbGlobStar2 (prefixFor D) (absOf D) (PGlobstar :: q :: rest) i b) (answerFor (KReaddir (absOf D) b'))) s.
Proof.
  intros Hinv Hi HD Hg. cbn [answerFor]. rewrite segments_absOf by done.
  pose proof (cont_steps D PGlobstar (q :: rest) HD ltac:(done)) as Hsteps.
  destruct (nodeAt t D) as [[|kids]|] eqn:Hn; cbn [entriesOf].
  1, 3: apply nothing_runs; try done; [cbn [steps cbSteps]; rewrite Hsteps; lia|];
        intros j k [_ H]; revert H; rewrite segments_absOf by done; apply hits_no_dir; by rewrite Hn.
  destruct (gspref_item D (q :: rest) i false Hi HD) as (P1 & P2 & P3); [by eapply goodPattern_tail|].
  set (c := Process (gspref (prefixFor D) ++ q :: rest) i false) in *.
  set (c3 := GlobStar3 (prefixFor D) (absOf D) (PGlobstar :: q :: rest) i b (map fst kids)).
  eapply (local_runs _ s (a_walk s) (a_events s) [c; c3]); [by rewrite put_walk_same|done|done|done| |done|done| | | |done|].
  - constructor; [done|]. constructor; [|constructor]. split_and!; [|by eauto|by rewrite segments_absOf, Hn].
    split_and!; [done|done|]. by exists D.
  - intros j k. cbn [map]. rewrite !owed_cons, owed_nil, P3. cbn [owes c3]. rewrite segments_absOf by done.
    rewrite (hits_globstar E FS g t HFS D kids q rest k HD Hn). naive_solver.
  - unfold total. cbn [map sum_list_with]. cbn [steps cbSteps c3]. rewrite Hsteps, segments_absOf by done.
    assert (bound (depth D (q :: rest)) <= bound (pred (depth D (PGlobstar :: q :: rest))))%nat.
    { apply walkSteps_mono. unfold depth. rewrite (magic_cons PGlobstar). cbn [isStr]. lia. }
    cbn [steps] in P2. lia.
  - cbn [map]. rewrite !anyLive_cons. cbn. naive_solver.
  - intros [|? [|? []]] ? ? ? ? [=]; subst; done.
Qed.

Lemma globStar3_runs D q rest i b entries s :
  Inv (a_walk s) -> (i < length pats)%nat -> Forall isName D -> goodPattern (g_dot g) (PGlobstar :: q :: rest) ->
  entriesOf (nodeAt t D) = Some entries ->
  runs (GlobStar3 (prefixFor D) (absOf D) (PGlobstar :: q :: rest) i b entries) s.
Proof.
  intros Hinv Hi HD Hg Hentries. destruct (nodeAt t D) as [[|kids]|] eqn:Hn; [done| |done]. injection Hentries as <-.
  set (ps := PGlobstar :: q :: rest) in *. set (N := bound (pred (depth D ps))).
  set (calls := fun e => if str_eqb (charAt e 0) (js ".") && negb (g_dot g) then []
                else [Process (gspref (prefixFor D) ++ [PStr e] ++ q :: rest) i true; Process (gspref (prefixFor D) ++ [PStr e] ++ ps) i true]).
  assert (Hcalls : forall f, f ∈ map fst kids -> (length (calls f) <= 2)%nat /\
    Forall (fun c => isProcess c = true /\ goodItem (ICmd c) /\ (steps (ICmd c) <= N)%nat) (calls f) /\
    forall j k, (exists c, c ∈ calls f /\ owes (ICmd c) j k) <-> i = j /\ dotBlocked o f = false /\ hits (D ++ [f]) ps k).
  { intros f Hf. unfold calls. rewrite (dotBlocked_name g Hdot f) by (by apply (kids_names FS t HFS D kids)).
    destruct (_ && _); [split_and!; [cbn; lia|constructor|]; setoid_rewrite elem_of_nil; naive_solver|].
    destruct (gspref_child D f kids (q :: rest) ps i true Hi HD) as (P1 & P2 & P3);
      [by eapply goodPattern_tail|done|done|unfold ps; rewrite (magic_cons PGlobstar); lia|].
    destruct (gspref_child D f kids ps ps i true Hi HD) as (Q1 & Q2 & Q3); [done|done|done|lia|].
    split_and!; [done|by rewrite Forall_cons, Forall_singleton|]. intros j k. setoid_rewrite elem_of_cons. setoid_rewrite list_elem_of_singleton.
    split.
    - intros (c & [->| ->] & Ho); [apply P3 in Ho as [? Ho]|by apply Q3 in Ho as [? Ho]]. split_and!; [done|done|].
      destruct Ho as (sub & -> & Hs & Hex & Hm). exists sub. split_and!; [done..|]. apply Matches_globstar_iff. by left.
    - intros (? & _ & Ho). eexists. split; [by right|]. by apply Q3. }
  assert (Hall : Forall (fun c => isProcess c = true /\ goodItem (ICmd c) /\ (steps (ICmd c) <= N)%nat) (concat (map calls (map fst kids)))).
  { apply Forall_concat, Forall_map, Forall_forall. intros f Hf. by apply Hcalls. }
  assert (Hlen : (length (concat (map calls (map fst kids))) <= 2 * length kids)%nat).
  { rewrite <- (length_map fst kids). revert Hcalls. clear. induction (map fst kids) as [|f l IH]; intros H; [done|].
    cbn [map concat length]. rewrite length_app. pose proof (proj1 (H f ltac:(left))). specialize (IH ltac:(intros; apply H; by right)). lia. }
  pose proof (nodeAt_maxKids _ _ _ Hn) as Hkids.
  eapply (done_runs _ s (a_walk s) (a_events s) (concat (map calls (map fst kids))) N); [|done|done|done|done|done|done|done| | |done].
  - rewrite put_walk_same. cbn [exec_]. unfold globStar3. rewrite xbind_gets. rewrite (proj2 (Hinv D HD)). done.
  - cbn [steps]. rewrite segments_absOf by done. fold N. nia.
  - intros j k. cbn [owes]. rewrite segments_absOf by done. setoid_rewrite concat_elem. split.
    + intros [?|(c & (f & Hf & Hc) & Ho)]; [by left|]. right.
      destruct (proj1 (proj2 (proj2 (Hcalls f Hf)) j k)) as (Hj & Hd & Hh); [by eauto|]. eauto.
    + intros [?|(Hj & f & [Hf Hd] & Hh)]; [by left|]. right.
      destruct (proj2 (proj2 (proj2 (Hcalls f Hf)) j k)) as (c & Hc & Ho); [done|]. eauto.
Qed.

(** ** The invariant *)

Definition Guarded (l : list gcmd) : Prop :=
  forall l1 p i b l2, l = l1 ++ Process p i b :: l2 -> total owesDone (map ICmd l2) <> 0%nat.

(** While the constructor runs nothing is cached. *)
Definition early (s : astate) : Prop :=
  s_cache (a_walk s) = ∅ /\ Forall (fun c => exists p i, c = Process p i false) (a_stack s).

(** The paths that all the patterns together stand for. *)
Definition complete (found : list jsstr) : Prop :=
  (forall k, k ∈ found <-> exists ps, ps ∈ pats /\ hits [] ps k) /\ (g_nounique g = false -> NoDup found) /\
  (g_nosort g = false -> StronglySorted (cmpLe (if g_nocase g then alphasorti E else alphasort E)) found).

(** The counter, the table of requests, the matches and what is under way agree. *)
Record Balanced (s : astate) : Prop := mkBalanced {
  gd_flags : (a_aborted s, a_paused s, a_uncaught s) = (false, false, None);
  gd_inv : Inv (a_walk s);
  gd_len : length (s_matches (a_walk s)) = length pats;
  gd_items : Forall goodItem (items s);
  gd_keys : released (items s) ≡ₚ keys s;
  gd_done : Z.of_nat (total owesDone (items s)) = a_processing s;
  gd_owes : forall i ps k, pats !! i = Some ps -> k ∈ keysAt i (a_walk s) \/ owed (items s) i k <-> hits [] ps k
}.

Record Good (s : astate) : Prop := mkGood {
  gd_balanced : Balanced s;
  gd_empty : forall k, a_reqs s !! k = Some [] -> exists a, ResEnd k a ∈ a_stack s;
  gd_guard : Guarded (a_stack s) \/ early s;
  gd_told : anyLive (items s) /\ told s = ([], None) \/
            ~ anyLive (items s) /\ exists found, told s = ([EvEnd found], Some (inr found)) /\ complete found
}.

Lemma change_balanced s s' old new rest : Balanced s -> items s ≡ₚ old ++ rest -> items s' ≡ₚ new ++ rest -> change s s' old new ->
  Balanced s' /\ (total steps (items s') < total steps (items s))%nat.
Proof.
  intros [Hf Hi Hl Hg Hk Hd Ho] I1 I2 [Cf Ci Cl Cg Ck Cd Co Cs].
  rewrite I1 in Hg, Hk, Hd. apply Forall_app in Hg as [_ Hg]. rewrite released_app in Hk. rewrite total_app in Hd.
  split; [constructor|].
  - congruence.
  - done.
  - congruence.
  - rewrite I2. by apply Forall_app.
  - rewrite I2, released_app. rewrite <- Hk in Ck.
    apply (Permutation_app_inv_l (released old)). rewrite <- Ck. solve_Permutation.
  - rewrite I2, total_app. lia.
  - intros i ps k Hps. rewrite <- (Ho i ps k Hps), I1, I2, !owed_app. specialize (Co i k). tauto.
  - rewrite I1, I2, !total_app. lia.
Qed.

Lemma items_put_stack l s : items (put_stack l s) = map ICmd l ++ waiting s.
Proof. done. Qed.

Lemma guarded_app cs rest : Guarded cs -> Guarded rest -> Guarded (cs ++ rest).
Proof.
  intros H1 H2 l1 p i b l2 Heq. apply app_eq_app in Heq as [k [[-> Heq]|[-> ->]]]; [|by eapply H2].
  destruct k as [|x k]; cbn in Heq; [by eapply (H2 []); rewrite <- Heq|]. injection Heq as <- ->.
  rewrite map_app, total_app. specialize (H1 _ _ _ _ _ eq_refl). lia.
Qed.

Lemma guarded_tail c l : Guarded (c :: l) -> Guarded l.
Proof. intros H l1 p i b l2 ->. by apply (H (c :: l1) p i b). Qed.

(** Asking from an empty cache leaves nothing to run. *)
Lemma early_process p i s s' cs : early s -> a_aborted s = false -> a_paused s = false -> goodProcess p i ->
  exec_ E g true (Process p i false) s = (s', inr cs) -> cs = [] /\ s_cache (a_walk s') = ∅.
Proof.
  intros [Hc _] Hab Hpa (Hi & ss & D & remain & El & Hp & HD & Hss & Hg & Hh).
  destruct remain as [|pn remain]; [by destruct Hg as [_ ([] & ? & ? & _)]|].
  cbn [exec_]. unfold process_. rewrite xbind_gets, Hab, xbind_modify, xbind_gets. cbn [a_paused put_processing]. rewrite Hpa, El.
  rewrite Hp, (prefixOf_ok g ss D [] (pn :: remain) (pn :: remain)), app_nil_r; [|by rewrite app_nil_r|done|by apply leading_remain|done].
  rewrite (xbind_lift _ _ _ _ (makeAbs_dir g Hplain D HD)), childrenIgnored_plain. set (s1 := put_processing _ s).
  assert (Hread : forall cb, readdir_ g (absOf D) false cb s1 = (s', inr cs) -> cs = [] /\ s_cache (a_walk s') = ∅).
  { intros cb. cbn [readdir_ negb]. unfold readdirPlain_. rewrite xbind_gets. change (a_aborted s1) with (a_aborted s). rewrite Hab.
    destruct (inflight_asks (KReaddir (absOf D) false) cb s1) as (reqs' & nk & Ein & _). rewrite (xbind_inr _ _ _ _ _ Ein).
    case_bool_decide; cbn [negb]; [|by intros [= <- <-]]. rewrite xbind_gets. cbn [a_walk put_reqs s1 put_processing]. rewrite Hc, lookup_empty.
    by intros [= <- <-]. }
  by destruct pn; apply Hread.
Qed.

Lemma quiet_command s c rest : Balanced s -> (forall k, a_reqs s !! k = Some [] -> exists a, ResEnd k a ∈ a_stack s) ->
  a_stack s = c :: rest -> c = Done \/ runs c s.
Proof.
  intros [[= Hab Hpa _] Hinv Hl Hg Hk _ _] He Hs. unfold items in *. rewrite Hs in *. cbn [map app] in *.
  apply Forall_cons in Hg as [Hc Hg]. unfold released in Hk. cbn [mbind list_bind] in Hk. pose proof (keys_NoDup s) as Hnd. rewrite <- Hk in Hnd.
  assert (Hkey : forall k, releases (ICmd c) = [k] -> exists cbs, a_reqs s !! k = Some cbs /\ Forall (goodReg k) cbs /\
                   (cbs = [] -> exists a, c = ResEnd k a)).
  { intros k Hr. assert (Hin : k ∈ keys s) by (rewrite <- Hk, Hr; by left). apply keys_elem in Hin as [cbs Hcbs].
    exists cbs. split_and!; [done| |].
    - apply Forall_forall. intros cb Hcb. rewrite Forall_forall in Hg. apply (Hg (IReg k cb)).
      apply elem_of_app. right. by eapply waiting_reg.
    - intros ->. destruct (He k Hcbs) as [a Ha]. apply elem_of_cons in Ha as [<-|Ha]; [by eauto|exfalso].
      rewrite Hr in Hnd. cbn [app] in Hnd. apply NoDup_cons in Hnd as [Hnd _]. apply Hnd. apply list_elem_of_bind.
      exists (ICmd (ResEnd k a)). split; [by left|]. apply elem_of_app. left. apply list_elem_of_fmap. eauto. }
  destruct c as [p i b| |cb a|k a|pre abs remain i b entries| | |]; try done.
  - right. by apply process_runs.
  - by left.
  - right. destruct cb as [pre abs remain i b|pre abs remain i b| |k|abs cb|abs cb| | |]; try (by destruct Hc as (? & [] & _)).
    + destruct Hc as (k & ((b' & ->) & (Hi & Hp & D & HD & -> & ->) & r & src & gl & rest' & ->) & ->).
      apply readdir2_runs; (done || lia).
    + destruct Hc as (k & ((b' & ->) & (Hi & Hp & D & HD & -> & ->) & q & rest' & ->) & ->). by apply globStar2_runs.
    + destruct Hc as [Hgk ->]. destruct (Hkey k eq_refl) as (cbs & Hcbs & HF & Hne).
      apply (res_runs k s cbs); [done..| |done]. intros [a Ha]%Hne. done.
    + destruct Hc as (k & (Ha & -> & ->) & ->). by apply lstatGlobStar_runs.
    + destruct Hc as (Ha & (b & ->) & ->). by apply readdirDone_runs.
  - right. destruct Hc as [Hgk ->]. destruct (Hkey k eq_refl) as (cbs & Hcbs & _). by eapply resEnd_runs.
  - right. destruct Hc as ((Hi & Hp & D & HD & -> & ->) & (q & rest' & ->) & Hen). rewrite segments_absOf in Hen by done.
    by apply globStar3_runs.
Qed.

(** ** Every step keeps the invariant *)

Context (Hnonull : g_nonull g = false).
Context (Htot : forall a b, en_localeCompare E a b <= 0 \/ en_localeCompare E b a <= 0).
Context (Htrans : forall a b c, en_localeCompare E a b <= 0 -> en_localeCompare E b c <= 0 -> en_localeCompare E a c <= 0).

Definition advances (s s' : astate) : Prop := Good s' /\ (total steps (items s') < total steps (items s))%nat.

Lemma runs_advances s c rest : Good s -> a_stack s = c :: rest -> runs c s -> advances s (runCode (exec_ E g true c) rest s).
Proof.
  intros [Hb He Hgd Ht] Hs (s' & cs & old & new & W & Eex & Est & W1 & W2 & Hch & Hlive & Htold & Hempty & Hproc).
  unfold runCode. rewrite Eex. set (s2 := put_stack (cs ++ rest) s').
  assert (I1 : items s ≡ₚ (ICmd c :: old) ++ map ICmd rest ++ W) by (unfold items; rewrite Hs, W1; cbn [map]; solve_Permutation).
  assert (I2 : items s2 ≡ₚ (map ICmd cs ++ new) ++ map ICmd rest ++ W).
  { unfold s2. rewrite items_put_stack, W2, map_app. solve_Permutation. }
  destruct (change_balanced s s2 _ _ _ Hb I1 I2) as [Hb2 Hsteps]; [by destruct Hch; constructor|].
  split; [|done]. constructor; [done| | |].
  - intros k Hk. destruct (Hempty k Hk) as [[Hk' Hc]|[a Ha]].
    + destruct (He k Hk') as [a Ha]. rewrite Hs in Ha. apply elem_of_cons in Ha as [Ha|Ha]; [by destruct (Hc a)|].
      exists a. apply elem_of_app. by right.
    + exists a. apply elem_of_app. by left.
  - destruct Hgd as [Hgd|Hearly]; [left; rewrite Hs in Hgd; apply guarded_app; [exact Hproc|by eapply guarded_tail]|].
    pose proof Hearly as [_ Hall]. rewrite Hs in Hall. apply Forall_cons in Hall as [(p & i & ->) Hall].
    destruct Hb as [[= Hab Hpa _] _ _ Hg _ _ _]. rewrite I1 in Hg. apply Forall_cons in Hg as [Hg _].
    destruct (early_process p i s s' cs Hearly Hab Hpa Hg Eex) as [-> Hc]. right. by split.
  - change (told s2) with (told s'). rewrite Htold, I2, anyLive_app, Hlive. by rewrite I1, anyLive_app in Ht.
Qed.

Lemma owesDone_live i : owesDone i <> 0%nat -> live i = true.
Proof. intros H. destruct i; cbn [live]; rewrite ?bool_decide_eq_true_2 by done; rewrite ?orb_true_r; done. Qed.

Lemma total_zero l i : total owesDone l = 0%nat -> i ∈ l -> owesDone i = 0%nat.
Proof.
  unfold total. induction l as [|x l IH]; cbn [sum_list_with]; intros H Hi; [by apply elem_of_nil in Hi|].
  apply elem_of_cons in Hi as [->|Hi]; [lia|]. apply IH; [lia|done].
Qed.

Lemma total_pos l : total owesDone l <> 0%nat -> anyLive l.
Proof.
  unfold total. induction l as [|x l IH]; cbn [sum_list_with]; intros H; [done|]. rewrite anyLive_cons.
  destruct (decide (owesDone x = 0%nat)); [right; apply IH; lia|left; by apply owesDone_live].
Qed.

(** When all calls of [done] have been made nothing is left to process. *)
Lemma last_done s rest : Good s -> a_stack s = Done :: rest -> total owesDone (map ICmd rest ++ waiting s) = 0%nat ->
  ~ anyLive (map ICmd rest ++ waiting s).
Proof.
  intros [_ _ Hgd _] Hs Hz (i & Hi & Hl). pose proof (total_zero _ _ Hz Hi) as Ho.
  destruct i as [c|r|k a|k cb]; cbn [live] in Hl; rewrite Ho, bool_decide_eq_false_2, ?orb_false_r in Hl by tauto; try done.
  destruct c as [p j b| | | | | | |]; try done.
  assert (Hin : Process p j b ∈ rest).
  { apply elem_of_app in Hi as [(c & [= <-] & Hc)%list_elem_of_fmap|Hi]; [done|]. unfold waiting in Hi.
    apply elem_of_app in Hi as [(c & [=] & _)%list_elem_of_fmap|Hi].
    apply elem_of_app in Hi as [(c & [=] & _)%list_elem_of_fmap|Hi].
    unfold regs in Hi. apply list_elem_of_bind in Hi as (kc & (cb & [=] & _)%list_elem_of_fmap & _). }
  rewrite Hs in Hgd. destruct Hgd as [Hgd|[_ Hall]]; [|rewrite Hs in Hall; apply Forall_cons in Hall as [(? & ? & [=]) _]].
  apply list_elem_of_split in Hin as (l1 & l2 & ->). apply (Hgd (Done :: l1) p j b l2 eq_refl).
  rewrite map_app, !total_app in Hz. unfold total in *. cbn [map sum_list_with] in Hz. lia.
Qed.

Lemma found_complete s found : Balanced s -> ~ anyLive (items s) ->
  (forall k, k ∈ found <-> (exists m, Some m ∈ s_matches (a_walk s) /\ k ∈ m) /\ isIgnored E g k = false) ->
  (g_nounique g = false -> NoDup found) ->
  (g_nosort g = false -> StronglySorted (cmpLe (if g_nocase g then alphasorti E else alphasort E)) found) -> complete found.
Proof.
  intros [_ _ Hl _ _ _ Ho] Hdead Hk Hnd Hsort. split; [|done].
  assert (Hno : forall i k, ~ owed (items s) i k).
  { intros i k (x & Hx & Hw). destruct (live x) eqn:El; [apply Hdead; by exists x|]. by eapply dead_item. }
  intros k. rewrite Hk, matches_keys, isIgnored_plain. split.
  - intros [[i Hi] _]. destruct (pats !! i) as [ps|] eqn:Ep.
    + exists ps. split; [by eapply list_elem_of_lookup_2|]. apply (Ho i ps k Ep). by left.
    + unfold keysAt in Hi. rewrite lookup_ge_None_2 in Hi; [by apply elem_of_nil in Hi|]. rewrite Hl. by apply lookup_ge_None in Ep.
  - intros (ps & [i Hi]%list_elem_of_lookup_1 & Hh). split; [|done]. exists i.
    apply (Ho i ps k Hi) in Hh as [?|Hh]; [done|]. by apply Hno in Hh.
Qed.

Lemma done_advances s rest : Good s -> a_stack s = Done :: rest -> advances s (runCode (exec_ E g true Done) rest s).
Proof.
  intros Hgood Hs. pose proof (last_done s rest Hgood Hs) as Hlast. destruct Hgood as [Hb He Hgd Ht].
  set (l := map ICmd rest ++ waiting s) in *.
  assert (I1 : items s ≡ₚ [ICmd Done] ++ l) by (unfold items; by rewrite Hs).
  assert (Ht' : told s = ([], None)).
  { destruct Ht as [[_ ?]|[Hn _]]; [done|]. destruct Hn. rewrite I1. exists (ICmd Done). split; [by left|done]. }
  pose proof (gd_done s Hb) as Hd. rewrite I1, total_app in Hd. change (total owesDone [ICmd Done]) with 1%nat in Hd.
  set (s1 := put_processing (a_processing s - 1) s). set (s2 := put_stack rest s1).
  assert (Hch : change s s2 [ICmd Done] []).
  { constructor; [done|apply (gd_inv s Hb)|done|constructor|done| | |cbn; lia].
    - cbn [s2 s1 put_stack put_processing a_processing]. change (total owesDone [ICmd Done]) with 1%nat. cbn. lia.
    - intros i k. rewrite owed_cons, owed_nil. cbn. tauto. }
  destruct (change_balanced s s2 [ICmd Done] [] l Hb I1 (Permutation_refl l) Hch) as [Hb2 Hsteps].
  assert (Hempty : forall k, a_reqs s !! k = Some [] -> exists a, ResEnd k a ∈ rest).
  { intros k [a Ha]%He. rewrite Hs in Ha. apply elem_of_cons in Ha as [[=]|Ha]. eauto. }
  assert (Hguard : Guarded rest \/ early s2).
  { destruct Hgd as [Hgd|[Hc Hall]]; rewrite Hs in *; [left; by eapply guarded_tail|right]. split; [done|]. by apply Forall_cons in Hall as [_ ?]. }
  unfold runCode. cbn [exec_]. unfold done. rewrite xbind_modify, xbind_gets. fold s1. change (a_processing s1) with (a_processing s - 1).
  destruct (Z.leb_spec (a_processing s - 1) 0) as [Hle|Hgt].
  - destruct (finish_ok E g (a_walk s)) as (found & Ef & Hk & Hnd & Hsort); [by destruct Hplain|done|done|done|].
    unfold finishAsync. rewrite xbind_gets. change (a_aborted s1) with (a_aborted s). pose proof (gd_flags s Hb) as [= Hab _ _].
    rewrite Hab, xbind_gets, Hrealpath. cbn [andb]. unfold finishWalk. rewrite (xbind_walk _ _ s1 _ _ Ef).
    assert (Hdead : ~ anyLive l) by (apply Hlast; lia).
    pose proof Ht' as [= Hends Hans].
    set (s3 := put_answer (Some (inr found)) (put_events (a_events s ++ [EvEnd found]) s2)).
    match goal with |- advances s match ?x with _ => _ end => assert (Ex : x = (put_answer (Some (inr found)) (put_events (a_events s ++ [EvEnd found]) s1), inr [])) end.
    { unfold emit, answer, mbind, X_bind, xmodify. cbn. by rewrite Hans. }
    rewrite Ex. change (put_stack _ _) with s3. split; [|exact Hsteps]. constructor.
    + destruct Hb2. by constructor.
    + exact Hempty.
    + exact Hguard.
    + right. split; [exact Hdead|]. exists found. split; [unfold told, ends; cbn; rewrite filter_app; unfold ends in Hends; by rewrite Hends|].
      by apply (found_complete s2).
  - split; [|exact Hsteps]. constructor; [exact Hb2|exact Hempty|exact Hguard|]. left. split; [|exact Ht'].
    apply total_pos. change (items _) with l. lia.
Qed.

(** The answer of the file system, or a tick, when nothing runs. *)
Lemma picked_advances s s1 x cb a : Good s -> a_stack s = [] -> waiting s ≡ₚ x :: waiting s1 ->
  s1 = put_io (a_io s1) (put_ticks (a_ticks s1) s) -> goodCall cb a -> isCont cb = false ->
  cbKeys cb = releases x -> live x = false -> (cbSteps cb < steps x)%nat -> advances s (put_stack [Call cb a] s1).
Proof.
  intros [Hb He Hgd Ht] Hs Hw Hs1 Hc Hcont Hr Hx Hst. set (s2 := put_stack _ s1).
  destruct (dead_item x Hx) as [Hxd Hxo].
  assert (Hl : live (ICmd (Call cb a)) = false) by (cbn [live isProcess owesDone]; by rewrite Hcont).
  destruct (dead_item _ Hl) as [Hcd Hco].
  assert (I1 : items s ≡ₚ [x] ++ waiting s1) by (unfold items; by rewrite Hs).
  assert (I2 : items s2 ≡ₚ [ICmd (Call cb a)] ++ waiting s1) by done.
  destruct (change_balanced s s2 _ _ _ Hb I1 I2) as [Hb2 Hsteps].
  { unfold s2. rewrite Hs1. constructor.
    - done.
    - apply (gd_inv s Hb).
    - done.
    - by constructor.
    - unfold released. cbn [mbind list_bind releases]. by rewrite Hr.
    - unfold total. cbn [sum_list_with]. rewrite Hxd, Hcd. done.
    - intros i k. rewrite !owed_cons, owed_nil. specialize (Hxo i k). specialize (Hco i k).
      cbn [a_walk put_stack put_io put_ticks]. tauto.
    - unfold total. cbn [sum_list_with]. change (steps (ICmd (Call cb a))) with (cbSteps cb). lia. }
  split; [|done]. constructor; [done| | |].
  - intros k Hk. unfold s2 in Hk. rewrite Hs1 in Hk. apply He in Hk as [a' Ha']. rewrite Hs in Ha'. by apply elem_of_nil in Ha'.
  - left. intros [|? []] ? ? ? ? [=].
  - rewrite I2, anyLive_app. rewrite I1, anyLive_app in Ht.
    assert (told s2 = told s) as -> by (unfold s2; by rewrite Hs1).
    rewrite anyLive_cons, anyLive_nil, Hl. rewrite anyLive_cons, anyLive_nil, Hx in Ht. done.
Qed.

(** The moves of the event loop: everything but a call of the user. *)
Definition quiet (m : move) : Prop := match m with MRun | MIo _ | MTick => True | _ => False end.

Lemma step_advances s m s' : Good s -> quiet m -> takeStep E FS g true m s = Some s' -> advances s s'.
Proof.
  intros Hgood Hm Hstep. pose proof Hgood as [Hb He _ _]. destruct m as [|i| | | |]; try done; cbn [takeStep] in Hstep.
  - destruct (a_stack s) as [|c rest] eqn:Hs; [done|]. injection Hstep as <-.
    destruct (quiet_command s c rest Hb) as [->|Hr]; [by rewrite Hs|done|by apply done_advances|by apply runs_advances].
  - destruct (a_stack s) eqn:Hs; [|done]. destruct (a_io s !! i) as [r|] eqn:Hr; [|done]. injection Hstep as <-.
    assert (Hw : waiting s ≡ₚ IIo r :: waiting (put_io (delete i (a_io s)) s)).
    { unfold waiting. cbn [a_io a_ticks a_reqs put_io]. by rewrite (delete_Permutation (a_io s) i r Hr) at 1. }
    assert (Hg : goodIo r).
    { pose proof (gd_items s Hb) as Hg. unfold items in Hg. rewrite Hs, Hw in Hg. by apply Forall_cons in Hg as [Hg _]. }
    destruct r as [abs cb|abs cb| |]; try done; cbn [goodIo] in Hg.
    + destruct Hg as (Ha & b & ->). eapply picked_advances; [done|done|exact Hw|by destruct s| |done|done|done|cbn; lia].
      cbn [goodCall]. split_and!; [done|by eauto|done].
    + destruct Hg as (Ha & ->). eapply picked_advances; [done|done|exact Hw|by destruct s|done|done|done|done|cbn; lia].
  - destruct (a_stack s) eqn:Hs; [|done]. destruct (a_ticks s) as [|[k a] ticks] eqn:Hk; [done|]. injection Hstep as <-.
    assert (Hw : waiting s ≡ₚ ITick k a :: waiting (put_ticks ticks s)).
    { unfold waiting. rewrite Hk. cbn [a_io a_ticks a_reqs put_ticks map fst snd]. solve_Permutation. }
    assert (Hg : goodItem (ITick k a)).
    { pose proof (gd_items s Hb) as Hg. unfold items in Hg. rewrite Hs, Hw in Hg. by apply Forall_cons in Hg as [Hg _]. }
    eapply picked_advances; [done|done|exact Hw|by destruct s|exact Hg|done|done|done|cbn; lia].
Qed.

Lemma steps_advance ms s s' : Good s -> Forall quiet ms -> takeSteps E FS g true ms s = Some s' ->
  Good s' /\ (length ms + total steps (items s') <= total steps (items s))%nat.
Proof.
  intros Hg Hms. revert s Hg. induction Hms as [|m ms Hm _ IH]; intros s Hg; cbn [takeSteps length].
  - intros [= <-]. split; [done|lia].
  - destruct (takeStep E FS g true m s) as [s1|] eqn:Hstep; [|done].
    destruct (step_advances s m s1 Hg Hm Hstep) as [Hg1 Hlt]. intros Hrun. destruct (IH s1 Hg1 Hrun) as [? ?]. split; [done|lia].
Qed.

(** When no move is left everything has been done. *)
Lemma stuck_dead s : Good s -> a_stack s = [] -> a_io s = [] -> a_ticks s = [] -> ~ anyLive (items s).
Proof.
  intros [Hb He _ _] Hs Hio Hti.
  assert (Hitems : items s = regs (a_reqs s)) by (unfold items, waiting; by rewrite Hs, Hio, Hti).
  pose proof (gd_items s Hb) as Hg. pose proof (gd_keys s Hb) as Hk. rewrite Hitems in *. rewrite Forall_forall in Hg.
  assert (Hreg : forall i, i ∈ regs (a_reqs s) -> exists k cb, i = IReg k cb /\ goodReg k cb /\ k ∈ keys s).
  { intros i Hi. unfold regs in Hi. apply list_elem_of_bind in Hi as ([k cbs] & Hcb & Hkc). cbn [fst snd] in Hcb.
    apply list_elem_of_fmap in Hcb as (cb & -> & Hcb). apply elem_of_map_to_list in Hkc. exists k, cb. split_and!; [done| |].
    - apply (Hg (IReg k cb)). rewrite (regs_delete _ _ _ Hkc). apply elem_of_app. left. apply list_elem_of_fmap. eauto.
    - apply keys_elem. eauto. }
  assert (Hchain : forall k, k ∈ keys s -> exists abs k', k = KReaddir abs true /\ k' ∈ keys s /\ (k' = KReaddir abs false \/ k' = KLstat abs)).
  { intros k Hin. rewrite <- Hk in Hin. apply list_elem_of_bind in Hin as (i & Hki & Hi).
    apply Hreg in Hi as (k' & cb & -> & Hr & Hk'). cbn [releases] in Hki. destruct cb; cbn [cbKeys goodReg] in *; try (by apply elem_of_nil in Hki); try done.
    - apply list_elem_of_singleton in Hki as ->. destruct Hr as (abs & _ & -> & ->). eauto 10.
    - destruct Hr as (_ & -> & ->). apply list_elem_of_singleton in Hki as ->. eauto 10. }
  intros (i & Hi & _). apply Hreg in Hi as (k & cb & _ & _ & Hin). apply Hchain in Hin as (abs & k' & -> & Hin & Hk').
  apply Hchain in Hin as (abs' & k'' & -> & _). by destruct Hk'.
Qed.

Definition answered (s : astate) : Prop := exists found, told s = ([EvEnd found], Some (inr found)) /\ complete found.

Lemma stuck_answered s : Good s -> (forall m, quiet m -> takeStep E FS g true m s = None) -> answered s.
Proof.
  intros Hg Hno. pose proof (Hno MRun I) as H1. pose proof (Hno (MIo 0) I) as H2. pose proof (Hno MTick I) as H3. cbn [takeStep] in *.
  destruct (a_stack s) as [|c l] eqn:Hs; [|done].
  assert (Hio : a_io s = []) by (by destruct (a_io s)). assert (Hti : a_ticks s = []) by (by destruct (a_ticks s) as [|[]]).
  destruct (gd_told s Hg) as [[Hl _]|[_ ?]]; [by destruct (stuck_dead s Hg Hs Hio Hti)|done].
Qed.

(** The event loop left alone. *)
Lemma drive_answers fuel s : Good s -> (total steps (items s) <= fuel)%nat -> answered (drive E FS g true fuel s).
Proof.
  revert s. induction fuel as [|fuel IH]; intros s Hg Hf.
  - apply stuck_answered; [done|]. intros m Hm. destruct (takeStep E FS g true m s) as [s'|] eqn:Hstep; [|done].
    destruct (step_advances s m s' Hg Hm Hstep) as [_ ?]. lia.
  - cbn [drive]. set (m := match a_stack s, a_ticks s with _ :: _, _ => MRun | [], _ :: _ => MTick | [], [] => MIo 0 end).
    assert (Hm : quiet m) by (unfold m; by destruct (a_stack s), (a_ticks s)).
    destruct (takeStep E FS g true m s) as [s'|] eqn:Hstep.
    + destruct (step_advances s m s' Hg Hm Hstep) as [? ?]. apply IH; [done|lia].
    + apply stuck_answered; [done|]. intros m' Hm'. unfold m in Hstep.
      destruct (a_stack s) as [|c l] eqn:Hs; [|cbn [takeStep] in Hstep; by rewrite Hs in Hstep].
      destruct (a_ticks s) as [|[k a] l] eqn:Ht; cbn [takeStep] in Hstep; rewrite Hs, ?Ht in Hstep; [|done].
      destruct m' as [|i| | | |]; try done; cbn [takeStep]; rewrite Hs, ?Ht; [done| |done]. by destruct (a_io s).
Qed.

(** ** The start *)

Lemma startCmds_elem c : c ∈ startCmds pats <-> exists i ps, pats !! i = Some ps /\ c = Process ps i false.
Proof.
  unfold startCmds. rewrite elem_of_lookup_imap. split.
  - intros (i & ps & -> & H). eauto.
  - intros (i & ps & H & ->). eauto.
Qed.

Lemma only_processes l : Forall (fun c => isProcess c = true) l -> released (map ICmd l) = [] /\ total owesDone (map ICmd l) = 0%nat.
Proof. induction 1 as [|c l Hc _ [IH1 IH2]]; [done|]. by destruct c. Qed.

Lemma start_steps : Forall (goodPattern (g_dot g)) pats ->
  (total steps (map ICmd (startCmds pats)) <= sum_list_with (fun ps => bound (magic ps + height t)) pats)%nat.
Proof.
  intros Hg. unfold startCmds, total. set (f := fun i p => Process p i false).
  assert (Hone : forall i ps, pats !! i = Some ps -> (steps (ICmd (f i ps)) <= bound (magic ps + height t))%nat).
  { intros i ps Hi. rewrite Forall_forall in Hg.
    by destruct (process_item [] [] ps i false) as (_ & H & _); [by eapply lookup_lt_Some|constructor|done|apply Hg; by eapply list_elem_of_lookup_2|]. }
  clearbody f. revert f Hone. clear. induction pats as [|ps l IH]; intros f Hone; [done|].
  rewrite imap_cons. cbn [map sum_list_with]. pose proof (Hone 0%nat ps eq_refl). specialize (IH (f ∘ S)). 
  assert (sum_list_with steps (map ICmd (imap (f ∘ S) l)) <= sum_list_with (fun ps => bound (magic ps + height t)) l)%nat; [|lia].
  apply IH. intros i q Hi. by apply (Hone (S i)).
Qed.

Lemma initial_good : Forall (goodPattern (g_dot g)) pats -> pats <> [] -> mm_set (g_minimatch g) = pats -> g_noprocess g = false ->
  Good (initial g (mkWalk ∅ ∅ ∅ [] [])).
Proof.
  intros Hg Hne Hset Hnp. unfold initial. rewrite Hset, Hnp.
  assert (Hitem : forall i ps, pats !! i = Some ps -> goodItem (ICmd (Process ps i false)) /\
    forall j k, owes (ICmd (Process ps i false)) j k <-> i = j /\ hits [] ps k).
  { intros i ps Hi. rewrite Forall_forall in Hg.
    destruct (process_item [] [] ps i false) as (H1 & _ & H3); [by eapply lookup_lt_Some|constructor|done|apply Hg; by eapply list_elem_of_lookup_2|done]. }
  set (s := mkA _ _ _ _ _ _ _ _ _ _ _ _ _ _ _ _).
  assert (Hitems : items s = map ICmd (startCmds pats)).
  { unfold items, s, waiting, regs. cbn [a_stack a_io a_ticks a_reqs]. rewrite map_to_list_empty. cbn. rewrite app_nil_r.
    by destruct pats. }
  destruct (only_processes (startCmds pats)) as [Hrel Htot0]; [by apply Forall_forall; intros c (i & ps & _ & ->)%startCmds_elem|].
  constructor.
  - constructor.
    + done.
    + intros path _. cbn. by rewrite !lookup_empty.
    + cbn. apply length_replicate.
    + rewrite Hitems. apply Forall_map, Forall_forall. intros c (i & ps & Hi & ->)%startCmds_elem. by apply Hitem.
    + rewrite Hitems, Hrel. unfold keys, s. cbn [a_reqs]. by rewrite map_to_list_empty.
    + by rewrite Hitems, Htot0.
    + intros i ps k Hi. rewrite Hitems. unfold owed. setoid_rewrite list_elem_of_fmap.
      assert (keysAt i (a_walk s) = []) as ->.
      { unfold keysAt, s. cbn [a_walk s_matches set_matches]. destruct (replicate _ _ !! i) as [[m|]|] eqn:Er; [by apply lookup_replicate_1 in Er as [Er _]|done|done]. }
      rewrite elem_of_nil. split.
      * intros [[]|(x & (c & -> & (j & ps' & Hj & ->)%startCmds_elem) & Ho)]. apply (Hitem j ps' Hj) in Ho as [-> Ho]. by simplify_eq.
      * intros Hh. right. eexists. split; [eexists; split; [done|]; apply startCmds_elem; eauto|]. by apply (Hitem i ps Hi).
  - intros k. unfold s. cbn [a_reqs]. by rewrite lookup_empty.
  - right. split; [done|]. unfold s. cbn [a_stack]. destruct pats as [|p0 pats'] eqn:Ep; [done|]. rewrite <- Ep in *.
    apply Forall_forall. intros c (i & ps & _ & ->)%startCmds_elem. eauto.
  - left. split; [|done]. rewrite Hitems. destruct pats as [|p0 pats'] eqn:Ep; [done|]. eexists. split; [by left|done].
Qed.

End Tree.

(** * The walker on a tree, whatever the order of events *)

(** A result of the walk: the paths of the tree that the matcher accepts. *)
Definition acceptedPaths (E : engine) (t : node) (m : Minimatch) (found : list jsstr) : Prop :=
  forall path, path ∈ found <->
    exists segs, segs <> [] /\ path = join [SLASH] segs /\ Forall isName segs /\ is_Some (nodeAt t segs) /\ mmatch E m path = true.

Lemma complete_accepted E g t pattern o m found : treeOptions o -> Minimatch_ E pattern (withDefaults o) = Ret m ->
  Forall (goodPattern (opt o "dot")) (mm_set m) -> g_minimatch g = m -> complete E g t (mm_set m) found -> acceptedPaths E t m found.
Proof. intros Hopts Hm Hgood Hgm [Hk _] path. rewrite Hk. by apply (hits_accepted E g t pattern o). Qed.

(** The number of steps that is enough for a pattern on a tree. *)
Definition stepsFor (t : node) (m : Minimatch) : nat :=
  sum_list_with (fun ps => walkSteps (maxKids t) (magic ps + height t)) (mm_set m).

(** A run of the walker on a tree. *)
Lemma glob_async_run E FS t w pattern o m :
  servesTree FS t -> treeOptions o -> Minimatch_ E pattern (withDefaults o) = Ret m ->
  mm_set m <> [] -> Forall (goodPattern (opt o "dot")) (mm_set m) ->
  (forall a b, en_localeCompare E a b <= 0 \/ en_localeCompare E b a <= 0) ->
  (forall a b c, en_localeCompare E a b <= 0 -> en_localeCompare E b c <= 0 -> en_localeCompare E a c <= 0) ->
  exists g s0, g_minimatch g = m /\ (g_nounique g, g_nosort g, g_nocase g) = (opt o "nounique", opt o "nosort", false) /\
    Glob E w pattern (OptObject (mkGlobOptions o None None NoIgnore None ∅ ∅ ∅)) true = Ret (g, true, s0) /\
    (forall ms s, Forall quiet ms -> takeSteps E FS g true ms s0 = Some s ->
       (length ms <= stepsFor t m)%nat /\ a_uncaught s = None /\
       (told s = ([], None) \/ answered E g t (mm_set m) s) /\
       ((forall mv, quiet mv -> takeStep E FS g true mv s = None) -> answered E g t (mm_set m) s)) /\
    (forall fuel, (stepsFor t m <= fuel)%nat -> answered E g t (mm_set m) (drive E FS g true fuel s0)).
Proof.
  intros HFS Hopts Hm Hne Hgood Htot Htrans.
  destruct (setopts_tree E w pattern o m Hopts Hm) as (g & Hset & Hplain & Hgm & Hgdot & Hreal & Hnull & Hproc & Hnodir & Huniq & Hsort & Hnocase).
  destruct (newMinimatch_fields _ _ _ _ Hm) as (Hmo & _).
  pose proof Hopts as (Hf & _). rewrite Forall_forall in Hf.
  assert (Hcase : opt (mm_options (g_minimatch g)) "nocase" = false).
  { rewrite Hgm, Hmo, opt_withDefaults by done. apply Hf. in_list. }
  assert (Hdots : opt (mm_options (g_minimatch g)) "dot" = g_dot g) by (by rewrite Hgm, Hmo, Hgdot, opt_withDefaults).
  assert (Hpats : Forall (goodPattern (g_dot g)) (mm_set m)) by (by rewrite Hgdot).
  set (s0 := initial g (mkWalk ∅ ∅ ∅ [] [])). exists g, s0. split; [done|]. split; [by rewrite Huniq, Hsort, Hnocase|].
  split; [unfold Glob; by rewrite Hset|].
  assert (G0 : Good E FS g t (mm_set m) s0) by (apply initial_good; [done..|by rewrite Hgm|done]).
  assert (Hsteps : (total (steps t) (items s0) <= stepsFor t m)%nat).
  { unfold s0, initial, items, waiting, regs. cbn [a_stack a_io a_ticks a_reqs]. rewrite Hproc, Hgm, map_to_list_empty. cbn [map app mbind list_bind].
    rewrite app_nil_r. destruct (mm_set m) as [|p ps] eqn:Ep; [done|]. rewrite <- Ep in *. unfold stepsFor. by eapply start_steps. }
  split.
  - intros ms s Hms Hrun.
    destruct (steps_advance E FS g t Hplain HFS Hcase Hdots Hnodir Hreal (mm_set m) Hnull Htot Htrans ms s0 s G0 Hms Hrun) as [G Hlen].
    split_and!; [lia| | |].
    + by injection (gd_flags _ _ _ _ _ _ (gd_balanced _ _ _ _ _ _ G)).
    + destruct (gd_told _ _ _ _ _ _ G) as [[_ Ht]|[_ Ht]]; [by left|by right].
    + intros Hstuck. by apply (stuck_answered E FS g t (mm_set m) s G).
  - intros fuel Hfuel. apply (drive_answers E FS g t Hplain HFS Hcase Hdots Hnodir Hreal (mm_set m) Hnull Htot Htrans fuel s0 G0). lia.
Qed.

(** C21. On a file system that is a finite tree the asynchronous walker, given
    a relative pattern whose alternatives consist of names, globstars and
    expressions and end in an expression, is correct whatever the order in which the
    file system answers and the ticks run: no exception escapes; the number of
    steps is bounded; the callback is called at most once and without an error,
    with exactly the paths of the tree that the matcher accepts, together with one
    [end] event; and a walker that has nothing left to do has called it.  Left
    alone, the event loop gets there. *)
Theorem glob_async_finds_matches E FS t w pattern o m :
  servesTree FS t -> treeOptions o -> Minimatch_ E pattern (withDefaults o) = Ret m ->
  mm_set m <> [] -> Forall (goodPattern (opt o "dot")) (mm_set m) ->
  (forall a b, en_localeCompare E a b <= 0 \/ en_localeCompare E b a <= 0) ->
  (forall a b c, en_localeCompare E a b <= 0 -> en_localeCompare E b c <= 0 -> en_localeCompare E a c <= 0) ->
  exists g s0, Glob E w pattern (OptObject (mkGlobOptions o None None NoIgnore None ∅ ∅ ∅)) true = Ret (g, true, s0) /\
    (forall ms s, Forall quiet ms -> takeSteps E FS g true ms s0 = Some s ->
       (length ms <= stepsFor t m)%nat /\ a_uncaught s = None /\
       (told s = ([], None) \/ exists found, told s = ([EvEnd found], Some (inr found)) /\ acceptedPaths E t m found) /\
       ((forall mv, quiet mv -> takeStep E FS g true mv s = None) -> told s <> ([], None))) /\
    (forall fuel, (stepsFor t m <= fuel)%nat -> exists found,
       a_answer (drive E FS g true fuel s0) = Some (inr found) /\ acceptedPaths E t m found).
Proof.
  intros HFS Hopts Hm Hne Hgood Htot Htrans.
  destruct (glob_async_run E FS t w pattern o m) as (g & s0 & Hgm & _ & HG & Hruns & Hdrive); [done..|].
  assert (Hdone : forall s, answered E g t (mm_set m) s -> exists found, told s = ([EvEnd found], Some (inr found)) /\ acceptedPaths E t m found).
  { intros s (found & ? & ?). exists found. split; [done|]. by apply (complete_accepted E g t pattern o). }
  exists g, s0. split; [exact HG|]. split.
  - intros ms s Hms Hrun. destruct (Hruns ms s Hms Hrun) as (? & ? & Ht & Hstuck). split_and!; [done|done| |].
    + destruct Ht as [Ht|Ht]; [by left|right]. by apply Hdone.
    + intros Hno. destruct (Hstuck Hno) as (found & -> & _). done.
  - intros fuel Hfuel. destruct (Hdone _ (Hdrive fuel Hfuel)) as (found & Ht & Hacc). exists found. split; [|done]. by injection Ht.
Qed.

Lemma glob_async_finds_matches_witness :
  exists g s0, Glob codeUnitEngine false (js "**/*.txt") (OptObject (mkGlobOptions ∅ None None NoIgnore None ∅ ∅ ∅)) true = Ret (g, true, s0) /\
    forall fuel, (stepsFor sampleTree txtMatcher <= fuel)%nat -> exists found,
      a_answer (drive codeUnitEngine (treeFs sampleTree) g true fuel s0) = Some (inr found) /\ acceptedPaths codeUnitEngine sampleTree txtMatcher found.
Proof.
  destruct (glob_async_finds_matches codeUnitEngine (treeFs sampleTree) sampleTree false (js "**/*.txt") ∅ txtMatcher)
    as (g & s0 & H1 & _ & H3).
  - apply treeFs_serves, sampleTree_wf.
  - split_and!; [by repeat (constructor; [reflexivity|])|reflexivity|reflexivity].
  - vm_compute. reflexivity.
  - done.
  - constructor; [|constructor]. split.
    + constructor; [constructor|]. constructor; [|constructor]. constructor. exact txt_dotSafe.
    + eexists [PGlobstar], _. split; [reflexivity|exact I].
  - apply codeUnit_total.
  - apply codeUnit_trans.
  - exists g, s0. split; [exact H1|exact H3].
Defined.
