(* ===== verification/GlobAgree.v ===== *)
(** The two walkers of the glob library agree: what [glob] gives to its callback,
    whatever the order of events, is the list that [glob.sync] returns. *)
From Stdlib Require Import ZArith Lia.
From stdpp Require Import base countable gmap strings list sorting.
From S2P Require Import Prelude JsString Minimatch GlobCommon GlobSync GlobFacts GlobAsync GlobAsyncFacts.

Local Open Scope Z_scope.
Open Scope js_scope.

(** The same paths; and in the same order, when the paths are sorted and the
    comparison of the engine tells any two of them apart. *)
Definition sameResult (E : engine) (sorted : bool) (found found' : list jsstr) : Prop :=
  found ≡ₚ found' /\
  (sorted = true -> (forall a b, a ∈ found -> b ∈ found -> en_localeCompare E a b <= 0 -> en_localeCompare E b a <= 0 -> a = b) ->
   found = found').

Lemma sameResult_intro E sorted found found' : (forall path, path ∈ found <-> path ∈ found') -> NoDup found -> NoDup found' ->
  (sorted = true -> StronglySorted (cmpLe (alphasort E)) found /\ StronglySorted (cmpLe (alphasort E)) found') -> sameResult E sorted found found'.
Proof.
  intros Heq Hn Hn' Hs. assert (Hp : found ≡ₚ found') by (by apply NoDup_Permutation). split; [done|]. intros Hsort Hanti.
  destruct (Hs Hsort) as [S1 S2]. apply (StronglySorted_unique_strong (cmpLe (alphasort E))); try done.
  intros a b Ha Hb. apply Hanti; [done|by apply Heq].
Qed.

(** C22. [glob] and [glob.sync] agree.  On a finite tree, with the same relative
    pattern and options, whatever the order in which the file system answers, the
    callback of [glob] gets the paths that [glob.sync] returns, in the same order
    unless the options turn sorting off or the locale cannot tell two of the
    paths apart; and the event loop left alone calls it. *)
Theorem glob_sync_async_agree E FS t w pattern o m fuel :
  servesTree FS t -> pattern <> [] -> treeOptions o -> opt o "nounique" = false ->
  Minimatch_ E pattern (withDefaults o) = Ret m -> mm_set m <> [] ->
  Forall (goodPattern (opt o "dot")) (mm_set m) ->
  Forall (fun ps => (magic ps + height t < fuel)%nat) (mm_set m) ->
  (forall a b, en_localeCompare E a b <= 0 \/ en_localeCompare E b a <= 0) ->
  (forall a b c, en_localeCompare E a b <= 0 -> en_localeCompare E b c <= 0 -> en_localeCompare E a c <= 0) ->
  let options := OptObject (mkGlobOptions o None None NoIgnore None ∅ ∅ ∅) in
  let same := sameResult E (negb (opt o "nosort")) in
  exists found g s0, globSync E FS fuel w pattern options 2 = Ret (Some found) /\ Glob E w pattern options true = Ret (g, true, s0) /\
    (forall ms s, Forall quiet ms -> takeSteps E FS g true ms s0 = Some s ->
       a_answer s = None \/ exists found', a_answer s = Some (inr found') /\ same found found') /\
    (forall fuel', (stepsFor t m <= fuel')%nat -> exists found',
       a_answer (drive E FS g true fuel' s0) = Some (inr found') /\ same found found').
Proof.
  intros HFS Hpat Hopts Huniq Hm Hne Hgood Hfuel Htot Htrans options same.
  destruct (globSync_run E FS t w pattern o m fuel) as (gs & found & Hgs & Hsync & Hk & Hnd & Hss); [done..|].
  destruct (glob_async_run E FS t w pattern o m) as (g & s0 & Hgm & Hflags & HG & Hruns & Hdrive); [done..|]. injection Hflags as Hgu Hgsort Hgc.
  assert (Hdone : forall s, answered E g t (mm_set m) s -> exists found', a_answer s = Some (inr found') /\ same found found').
  { intros s (found' & Ht & Hk' & Hnd' & Hss'). exists found'. split; [by injection Ht|]. apply sameResult_intro.
    - intros path. rewrite Hk, Hk', !(hits_accepted E _ t pattern o m) by done. done.
    - by apply Hnd.
    - apply Hnd'. by rewrite Hgu.
    - intros Hsort%negb_true_iff. rewrite Hgsort, Hgc in Hss'. auto. }
  exists found, g, s0. split_and!; [exact Hsync|exact HG| |].
  - intros ms s Hms Hrun. destruct (Hruns ms s Hms Hrun) as (_ & _ & [Ht|Ht] & _); [left; by injection Ht|right; by apply Hdone].
  - intros fuel' Hf. by apply Hdone, Hdrive.
Qed.

Lemma glob_sync_async_agree_witness :
  exists found g s0,
    globSync codeUnitEngine (treeFs sampleTree) 20 false (js "**/*.txt") (OptObject (mkGlobOptions ∅ None None NoIgnore None ∅ ∅ ∅)) 2 = Ret (Some found) /\
    Glob codeUnitEngine false (js "**/*.txt") (OptObject (mkGlobOptions ∅ None None NoIgnore None ∅ ∅ ∅)) true = Ret (g, true, s0) /\
    exists found', a_answer (drive codeUnitEngine (treeFs sampleTree) g true (stepsFor sampleTree txtMatcher) s0) = Some (inr found') /\ found ≡ₚ found'.
Proof.
  destruct (glob_sync_async_agree codeUnitEngine (treeFs sampleTree) sampleTree false (js "**/*.txt") ∅ txtMatcher 20)
    as (found & g & s0 & H1 & H2 & _ & H4).
  - apply treeFs_serves, sampleTree_wf.
  - done.
  - split_and!; [by repeat (constructor; [reflexivity|])|reflexivity|reflexivity].
  - reflexivity.
  - vm_compute. reflexivity.
  - done.
  - constructor; [|constructor]. split.
    + constructor; [constructor|]. constructor; [|constructor]. constructor. exact txt_dotSafe.
    + eexists [PGlobstar], _. split; [reflexivity|exact I].
  - constructor; [|constructor]. vm_compute. lia.
  - apply codeUnit_total.
  - apply codeUnit_trans.
  - exists found, g, s0. split_and!; [exact H1|exact H2|]. destruct (H4 _ (le_n _)) as (found' & Ha & [Hp _]). exists found'. split; [exact Ha|exact Hp].
Defined.
