(* ===== verification/GlobAsyncSafety.v ===== *)
(** The asynchronous glob walker on any file system and with any calls of the
    user: what the callback is told is final, callbacks get arguments of the kind
    they take; what an ignored directory and a pause do to the result. *)
From Stdlib Require Import ZArith Lia.
From stdpp Require Import base countable gmap strings list.
From S2P Require Import Prelude JsString JsRegExp PosixPath Minimatch GlobCommon GlobSync GlobFacts GlobAsync GlobAsyncFacts.

Local Open Scope Z_scope.
Open Scope js_scope.

(** * What the callback is told is final *)

Definition keeps {A} (m : X A) : Prop := forall s, is_Some (a_answer s) -> a_answer (m s).1 = a_answer s.

Lemma kept_ret {A} (a : A) : keeps (mret a).
Proof. done. Qed.
Lemma kept_gets {A} (f : astate -> A) : keeps (xgets f).
Proof. done. Qed.
Lemma kept_throw {A} e : keeps (@xthrow A e).
Proof. done. Qed.
Lemma kept_lift {A} (m : outcome A) : keeps (xlift m).
Proof. by destruct m. Qed.
Lemma kept_walk {A} (m : G A) : keeps (xwalk m).
Proof. intros s _. unfold xwalk. by destruct (m (a_walk s)) as [[]| |]. Qed.
Lemma kept_modify f : (forall s, a_answer (f s) = a_answer s) -> keeps (xmodify f).
Proof. intros H s _. apply H. Qed.
Lemma kept_answer r : keeps (answer r).
Proof. intros s [x Hx]. cbn. by rewrite Hx. Qed.
Lemma kept_bind {A B} (m : X A) (k : A -> X B) : keeps m -> (forall a, keeps (k a)) -> keeps (x ← m; k x).
Proof.
  intros Hm Hk s Hs. unfold mbind, X_bind. specialize (Hm s Hs). destruct (m s) as [s1 [e|a]]; cbn in *; [done|].
  rewrite <- Hm. apply Hk. by rewrite Hm.
Qed.
Lemma kept_forEach {A} (l : list A) f : (forall x, keeps (f x)) -> keeps (xforEach l f).
Proof. intros Hf. induction l as [|x l IH]; [apply kept_ret|]. by apply kept_bind. Qed.

(** The code is built from these. *)
Ltac keeps :=
  repeat match goal with
  | |- keeps (_ ≫= _) => apply kept_bind; [|intros]
  | |- keeps (xmodify _) => apply kept_modify; intros; by repeat case_match
  | |- keeps (xforEach _ _) => apply kept_forEach; intros
  | |- keeps (match ?x with _ => _ end) => destruct x
  | |- keeps (let _ := _ in _) => cbn zeta
  | |- _ => solve [eauto with keeps]
  end.
Create HintDb keeps.
#[local] Hint Resolve kept_ret kept_gets kept_throw kept_lift kept_walk kept_answer : keeps.

Section Keeps.
Context (E : engine) (FS : fileSystem) (g : conf) (hasCb : bool).

Lemma kept_emit ev : keeps (emit hasCb ev).
Proof. unfold emit. keeps. Qed.
#[local] Hint Resolve kept_emit : keeps.
Lemma kept_inflight k cb : keeps (inflight_ k cb).
Proof. unfold inflight_. keeps. Qed.
Lemma kept_request r : keeps (request r).
Proof. unfold request. keeps. Qed.
#[local] Hint Resolve kept_inflight kept_request : keeps.
Lemma kept_emitMatch i e : keeps (emitMatch_ E g hasCb i e).
Proof. unfold emitMatch_. keeps. Qed.
Lemma kept_readdirPlain abs cb : keeps (readdirPlain_ abs cb).
Proof. unfold readdirPlain_. keeps. Qed.
#[local] Hint Resolve kept_emitMatch kept_readdirPlain : keeps.
Lemma kept_readdirInGlobStar abs cb : keeps (readdirInGlobStar_ g abs cb).
Proof. unfold readdirInGlobStar_. keeps. Qed.
#[local] Hint Resolve kept_readdirInGlobStar : keeps.
Lemma kept_readdir abs b cb : keeps (readdir_ g abs b cb).
Proof. unfold readdir_. keeps. Qed.
Lemma kept_stat2 f abs st cb : keeps (stat2 f abs st cb).
Proof. unfold stat2. keeps. Qed.
Lemma kept_statAsk f abs cb : keeps (statAsk f abs cb).
Proof. unfold statAsk. keeps. Qed.
#[local] Hint Resolve kept_readdir kept_stat2 kept_statAsk : keeps.
Lemma kept_process p i b : keeps (process_ E g p i b).
Proof. unfold process_, statCb. keeps. Qed.
Lemma kept_finishAsync : keeps (finishAsync E g hasCb).
Proof. unfold finishAsync, realpath, finishWalk. keeps. Qed.
Lemma kept_resEnd k a : keeps (resEnd k a).
Proof. unfold resEnd. keeps. Qed.
#[local] Hint Resolve kept_process kept_finishAsync kept_resEnd : keeps.
Lemma kept_callback cb a : keeps (callback E g hasCb cb a).
Proof.
  unfold callback, res, processReaddir2, processGlobStar2, processSimple2, lstatGlobStar, readdirEntries_, readdirError_, abort, statLstat, realpathCb.
  keeps.
Qed.
Lemma kept_exec c : keeps (exec_ E g hasCb c).
Proof. unfold exec_, done, globStar3, realpathSet, realpathNext. pose proof kept_callback. keeps. Qed.

Lemma unwind_keeps l s : is_Some (a_answer s) -> a_answer (unwind l s) = a_answer s.
Proof.
  revert s. induction l as [|c l IH]; intros s Hs; [done|]. destruct c; cbn [unwind]; try (by apply IH).
  pose proof (kept_resEnd k a s Hs) as H. rewrite IH; by rewrite H.
Qed.

Lemma runCode_keeps m rest s : keeps m -> is_Some (a_answer s) -> a_answer (runCode m rest s) = a_answer s.
Proof.
  intros Hm Hs. unfold runCode. specialize (Hm s Hs). destruct (m s) as [s1 [e|cs]]; cbn in *; [|done].
  rewrite unwind_keeps; by rewrite Hm.
Qed.

Lemma answer_final ms s s' r : a_answer s = Some r -> takeSteps E FS g hasCb ms s = Some s' -> a_answer s' = Some r.
Proof.
  revert s. induction ms as [|m ms IH]; intros s Hs; cbn [takeSteps]; [by intros [= <-]|].
  destruct (takeStep E FS g hasCb m s) as [s1|] eqn:Hstep; [|done]. apply IH. rewrite <- Hs.
  assert (is_Some (a_answer s)) by (by rewrite Hs).
  unfold takeStep in Hstep. destruct m as [|i| | | |], (a_stack s) as [|c rest]; simplify_eq.
  - apply runCode_keeps; [apply kept_exec|done].
  - destruct (a_io s !! i); by simplify_eq.
  - destruct (a_ticks s) as [|[k a] l]; by simplify_eq.
  - apply runCode_keeps; [|done]. unfold abort. keeps.
  - apply runCode_keeps; [|done]. unfold pause. keeps.
  - apply runCode_keeps; [|done]. unfold resume. keeps.
Qed.
End Keeps.

(** ** An ignored alternative ends the walk *)

Lemma collect_nothing g n i : g_nonull g = false -> collectAll g [] i (replicate n None) = [].
Proof. intros Hn. revert i. induction n as [|n IH]; intros i; [done|]. cbn [replicate collectAll collect]. by rewrite Hn. Qed.

Lemma finish_nothing E g n w : g_nonull g = false -> g_mark g = false -> s_matches w = replicate n None ->
  finish E g w = Ret ([], w).
Proof.
  intros Hn Hm Hw. unfold finish. rewrite (G_bind_Ret _ _ [] w w) by (unfold gets; by rewrite Hw, collect_nothing).
  rewrite Hm. replace (if g_nounique g then [] else objectKeys []) with (@nil jsstr) by (by destruct (g_nounique g)).
  destruct (g_nosort g); cbn; by destruct (g_ignore g).
Qed.

Lemma ignored_process E g p i b pn remain abs s : (leading p).2 = pn :: remain ->
  makeAbs g (default (js ".") (prefixOf g p)) = Ret abs -> childrenIgnored E g (default (js ".") (prefixOf g p)) = true ->
  a_aborted s = false -> a_paused s = false ->
  exec_ E g true (Process p i b) s = (put_processing (a_processing s + 1) s, inr [Done]).
Proof.
  intros Hlead Habs Hign Hab Hpa. cbn [exec_]. unfold process_. rewrite xbind_gets, Hab, xbind_modify, xbind_gets. cbn [a_paused put_processing].
  rewrite Hpa. destruct (leading p) as [strs remain0]. cbn [snd] in Hlead. subst remain0. by rewrite (xbind_lift _ _ _ _ Habs), Hign.
Qed.

Lemma done_alone E g found w s : a_walk s = w -> finish E g w = Ret (found, w) -> g_realpath g = false -> a_aborted s = false ->
  a_processing s = 1 -> a_answer s = None ->
  exec_ E g true Done s
  = (put_answer (Some (inr found)) (put_events (a_events s ++ [EvEnd found]) (put_processing 0 s)), inr []).
Proof.
  intros Hw Hf Hr Hab Hp Ha. cbn [exec_]. unfold done. rewrite xbind_modify, xbind_gets. cbn [a_processing put_processing]. rewrite Hp.
  change (1 - 1 <=? 0) with true. cbn iota. unfold finishAsync. rewrite xbind_gets. cbn [a_aborted put_processing]. rewrite Hab, xbind_gets, Hr. cbn [andb].
  unfold finishWalk. rewrite (xbind_walk _ _ _ found w) by (cbn [a_walk put_processing]; by rewrite Hw).
  unfold emit, answer, mbind, X_bind, xmodify. cbn. rewrite Ha. subst w. by destruct s.
Qed.

(** C35. The counter of calls starts at zero and is checked whenever an
    alternative is done, so a first alternative that is done before
    [_process] returns, as one whose directory is ignored is, brings it back to
    zero: the walker emits [end] and calls back with the empty list before the other
    alternatives have been started, and nothing that happens later changes what
    the callback was told. *)
Theorem ignored_alternative_ends_walk E FS g w p0 ps pn remain abs ms s :
  mm_set (g_minimatch g) = p0 :: ps -> (leading p0).2 = pn :: remain ->
  makeAbs g (default (js ".") (prefixOf g p0)) = Ret abs -> childrenIgnored E g (default (js ".") (prefixOf g p0)) = true ->
  g_noprocess g = false -> g_realpath g = false -> g_nonull g = false -> g_mark g = false ->
  (exists s1, takeSteps E FS g true [MRun; MRun] (initial g w) = Some s1 /\
     a_stack s1 = drop 1 (startCmds (p0 :: ps)) /\ a_events s1 = [EvEnd []]) /\
  (takeSteps E FS g true (MRun :: MRun :: ms) (initial g w) = Some s -> a_answer s = Some (inr [])).
Proof.
  intros Hset Hlead Habs Hign Hproc Hreal Hnull Hmark.
  set (w0 := set_matches (replicate (length (p0 :: ps)) None) w).
  set (s1 := mkA w0 0 false false false [] [] ∅ [] [] (drop 1 (startCmds (p0 :: ps))) 0 ∅ [EvEnd []] (Some (inr [])) None).
  assert (Htwo : forall ms, takeSteps E FS g true (MRun :: MRun :: ms) (initial g w) = takeSteps E FS g true ms s1).
  { intros ms'. unfold initial. rewrite Hset, Hproc. unfold startCmds. rewrite imap_cons. cbn [takeSteps takeStep a_stack]. unfold runCode.
    rewrite (ignored_process E g p0 0 false pn remain abs) by done. cbn [put_stack put_processing app a_stack].
    rewrite (done_alone E g [] w0); [done|done|by apply (finish_nothing E g (length (p0 :: ps)))|done..]. }
  split.
  - exists s1. split; [exact (Htwo [])|done].
  - rewrite Htwo. apply answer_final. done.
Qed.

(** * Callbacks get what they take *)

(** Who takes entries, and who takes what exists. *)
Definition takesEntries (cb : gcallback) : bool :=
  match cb with CbReaddir2 _ _ _ _ _ | CbGlobStar2 _ _ _ _ _ | CbRes (KReaddir _ _) => true | _ => false end.
Definition takesExists (cb : gcallback) : bool := match cb with CbSimple2 _ _ => true | _ => false end.

(** The callback inside a callback is of the kind that the outer one calls. *)
Definition wfCb (cb : gcallback) : bool :=
  match cb with
  | CbLstatGlobStar _ cb | CbReaddirDone _ cb => takesEntries cb
  | CbStatLstat _ _ cb | CbStatStat _ _ _ cb => takesExists cb
  | _ => true
  end.

(** The answers for a key, and the arguments a callback takes. *)
Definition keyTakes (k : gkey) (a : ganswer) : bool :=
  match k, a with
  | KReaddir _ _, (ANone | AEntries _) => true
  | (KLstat _ | KStat _), AStats _ => true
  | _, _ => false
  end.
Definition accepts (cb : gcallback) (a : ganswer) : bool :=
  match cb, a with
  | (CbReaddir2 _ _ _ _ _ | CbGlobStar2 _ _ _ _ _), (ANone | AEntries _) => true
  | CbSimple2 _ _, (ANone | AExists _) => true
  | CbRes k, _ => keyTakes k a
  | (CbLstatGlobStar _ _ | CbStatLstat _ _ _ | CbStatStat _ _ _ _), AStats _ => true
  | CbReaddirDone _ _, AReaddir _ => true
  | CbRealpath _ _, ARealpath _ => true
  | _, _ => false
  end.

(** A callback that may wait for a key. *)
Definition keyAccepts (k : gkey) (cb : gcallback) : bool :=
  wfCb cb &&
  match k, cb with
  | KReaddir _ _, _ => takesEntries cb
  | KLstat _, CbLstatGlobStar _ _ | KStat _, CbStatLstat _ _ _ => true
  | _, _ => false
  end.

Definition typedCmd (c : gcmd) : Prop :=
  match c with Call cb a => wfCb cb && accepts cb a = true | ResEnd k a => keyTakes k a = true | _ => True end.
Definition typedIo (r : ioReq) : Prop :=
  match r with
  | IoReaddir _ (CbReaddirDone _ cb) => takesEntries cb = true
  | IoLstat _ (CbRes (KLstat _ | KStat _)) => True
  | IoStat _ (CbStatStat _ _ _ cb) => takesExists cb = true
  | IoRealpath _ (CbRealpath _ _) => True
  | _ => False
  end.

Definition typedRest (s : astate) : Prop :=
  Forall typedIo (a_io s) /\ Forall (fun ka => keyTakes ka.1 ka.2 = true) (a_ticks s) /\
  map_Forall (fun k cbs => Forall (fun cb => keyAccepts k cb = true) cbs) (a_reqs s).
Definition typed (s : astate) : Prop := Forall typedCmd (a_stack s) /\ typedRest s.

(** Code that keeps the state typed, with a result that satisfies [Q]. *)
Definition safe {A} (m : X A) (Q : A -> Prop) : Prop :=
  forall s, typedRest s -> typedRest (m s).1 /\ match (m s).2 with inr a => Q a | inl _ => True end.

Lemma safe_ret {A} (a : A) (Q : A -> Prop) : Q a -> safe (mret a) Q.
Proof. by intros ? s ?. Qed.
Lemma safe_gets {A} (f : astate -> A) : safe (xgets f) (fun _ => True).
Proof. by intros s ?. Qed.
Lemma safe_throw {A} e Q : safe (@xthrow A e) Q.
Proof. by intros s ?. Qed.
Lemma safe_lift {A} (m : outcome A) : safe (xlift m) (fun _ => True).
Proof. intros s ?. by destruct m. Qed.
Lemma safe_walk {A} (m : G A) : safe (xwalk m) (fun _ => True).
Proof. intros s ?. unfold xwalk. by destruct (m (a_walk s)) as [[]| |]. Qed.
Lemma safe_modify f : (forall s, typedRest s -> typedRest (f s)) -> safe (xmodify f) (fun _ => True).
Proof. intros H s ?. split; [by apply H|done]. Qed.
Lemma safe_bind {A B} (m : X A) (k : A -> X B) Q : safe m (fun _ => True) -> (forall a, safe (k a) Q) -> safe (x ← m; k x) Q.
Proof.
  intros Hm Hk s Hs. unfold mbind, X_bind. specialize (Hm s Hs). destruct (m s) as [s1 [e|a]]; cbn in *; [tauto|]. apply Hk. tauto.
Qed.
Lemma safe_forEach {A} (l : list A) f : (forall x, safe (f x) (fun _ => True)) -> safe (xforEach l f) (fun _ => True).
Proof. intros Hf. induction l as [|x l IH]; [by apply safe_ret|]. by apply safe_bind. Qed.

(** Requests and registrations. *)
Lemma safe_request r : typedIo r -> safe (request r) (fun _ => True).
Proof. intros Hr s (H1 & H2 & H3). split; [|done]. split_and!; [|done..]. cbn. apply Forall_app. split; [done|by constructor]. Qed.

Lemma safe_inflight k cb : keyAccepts k cb = true -> safe (inflight_ k cb) (fun _ => True).
Proof.
  intros Hk s (H1 & H2 & H3). unfold inflight_. rewrite xbind_gets. destruct (a_reqs s !! k) as [cbs|] eqn:Ek; rewrite xbind_modify.
  - split; [|done]. split_and!; [done|done|]. cbn [fst a_reqs put_reqs mret X_ret]. apply map_Forall_insert_2; [|done]. apply Forall_app. split; [by apply (H3 k)|by constructor].
  - split; [|done]. split_and!; [done|done|]. cbn [fst a_reqs put_reqs mret X_ret]. apply map_Forall_insert_2; [|done]. by constructor.
Qed.

Abbreviation typedCmds := (fun cs => Forall typedCmd cs).

Lemma safe_res k a : keyTakes k a = true -> safe (res k a) typedCmds.
Proof.
  intros Hk s (H1 & H2 & H3). unfold res. rewrite xbind_gets. destruct (a_reqs s !! k) as [cbs|] eqn:Ek; [|done].
  rewrite (xbind_lift _ _ _ cbs) by done. rewrite xbind_modify. split.
  - split_and!; [done|done|]. cbn. by apply map_Forall_insert_2.
  - cbn. apply Forall_app. split; [|by constructor]. apply Forall_map. eapply Forall_impl; [by apply (H3 k)|].
    intros cb Hcb. cbn. unfold keyAccepts in Hcb. apply andb_true_iff in Hcb as [-> Hcb]. cbn [andb].
    by destruct k, cb as [| | |[]| | | | |], a.
Qed.

Lemma safe_resEnd k a : keyTakes k a = true -> safe (resEnd k a) typedCmds.
Proof.
  intros Hk s (H1 & H2 & H3). unfold resEnd. rewrite xbind_gets. destruct (a_reqs s !! k) as [[|cb cbs]|]; rewrite xbind_modify;
    (split; [|constructor]); split_and!; try done.
  - cbn. by apply map_Forall_delete.
  - cbn. apply Forall_app. split; [done|by constructor].
  - cbn. by apply map_Forall_delete.
Qed.

(** The code is built from these. *)
Ltac safe :=
  repeat match goal with
  | |- safe (_ ≫= _) _ => apply safe_bind; [|intros]
  | |- safe (xmodify _) _ => apply safe_modify; intros ? ?; by repeat case_match
  | |- safe (xforEach _ _) _ => apply safe_forEach; intros
  | |- safe (mret _) _ => apply safe_ret
  | |- safe (request _) _ => apply safe_request
  | |- safe (inflight_ _ _) _ => apply safe_inflight
  | |- safe (match ?x with _ => _ end) _ => destruct x eqn:?
  | |- safe (let _ := _ in _) _ => cbn zeta
  | |- _ => solve [eauto with safe | by repeat constructor | by repeat (constructor; cbn; simplify_eq/=; auto)]
  end.
Ltac destructIfs := repeat match goal with |- context [if ?b then _ else _] => destruct b end.
Create HintDb safe.
#[local] Hint Resolve safe_gets safe_throw safe_lift safe_walk safe_res safe_resEnd : safe.

Section Safe.
Context (E : engine) (FS : fileSystem) (g : conf) (hasCb : bool).

Lemma safe_emit ev : safe (emit hasCb ev) (fun _ => True).
Proof. unfold emit, answer. safe. Qed.
#[local] Hint Resolve safe_emit : safe.
Lemma safe_emitMatch i e : safe (emitMatch_ E g hasCb i e) (fun _ => True).
Proof. unfold emitMatch_. safe. Qed.
#[local] Hint Resolve safe_emitMatch : safe.

Lemma entries_call cb : takesEntries cb = true -> forall a, a = ANone \/ (exists l, a = AEntries l) -> typedCmd (Call cb a).
Proof. intros H a [->|[l ->]]; by destruct cb as [| | |[]| | | | |]. Qed.
Lemma exists_call cb : takesExists cb = true -> forall a, a = ANone \/ (exists c, a = AExists c) -> typedCmd (Call cb a).
Proof. intros H a [->|[l ->]]; by destruct cb. Qed.
Lemma entries_wait abs b cb : takesEntries cb = true -> keyAccepts (KReaddir abs b) cb = true.
Proof. intros H. unfold keyAccepts. rewrite H. by destruct cb. Qed.
Ltac existsCall :=
  apply Forall_singleton, exists_call; [assumption|]; destructIfs; first [left; reflexivity | right; eexists; reflexivity].
#[local] Hint Resolve entries_wait : safe.

Lemma safe_readdirPlain abs cb : takesEntries cb = true -> safe (readdirPlain_ abs cb) typedCmds.
Proof. intros H. unfold readdirPlain_. safe. Qed.
#[local] Hint Resolve safe_readdirPlain : safe.
Lemma safe_readdirInGlobStar abs cb : takesEntries cb = true -> safe (readdirInGlobStar_ g abs cb) typedCmds.
Proof. intros H. unfold readdirInGlobStar_. safe. unfold keyAccepts. cbn. by rewrite H. Qed.
#[local] Hint Resolve safe_readdirInGlobStar : safe.
Lemma safe_readdir abs b cb : takesEntries cb = true -> safe (readdir_ g abs b cb) typedCmds.
Proof. intros H. unfold readdir_. safe. Qed.
#[local] Hint Resolve safe_readdir : safe.
Lemma safe_stat2 f abs st cb : takesExists cb = true -> safe (stat2 f abs st cb) typedCmds.
Proof. intros H. unfold stat2. safe; existsCall. Qed.
Lemma safe_statAsk f abs cb : takesExists cb = true -> safe (statAsk f abs cb) typedCmds.
Proof.
  intros H. unfold statAsk. safe; try existsCall.
  unfold keyAccepts. cbn. by rewrite H.
Qed.
#[local] Hint Resolve safe_stat2 safe_statAsk : safe.
Lemma safe_statCb f cb : takesExists cb = true -> safe (statCb g f cb) typedCmds.
Proof. intros H. unfold statCb. safe; try existsCall. Qed.
#[local] Hint Resolve safe_statCb : safe.
Lemma safe_process p i b : safe (process_ E g p i b) typedCmds.
Proof. unfold process_. safe. Qed.
#[local] Hint Resolve safe_process : safe.

Lemma safe_finishAsync : safe (finishAsync E g hasCb) typedCmds.
Proof. unfold finishAsync, realpath, finishWalk. safe. apply Forall_map, Forall_forall. done. Qed.
#[local] Hint Resolve safe_finishAsync : safe.

Lemma processes_typed {A} (f : A -> gcmd) l : (forall x, isProcess (f x) = true) -> Forall typedCmd (map f l ++ [Done]).
Proof.
  intros Hf. apply Forall_app. split; [|by repeat constructor]. apply Forall_map, Forall_forall. intros x _. specialize (Hf x). by destruct (f x).
Qed.

Lemma safe_processReaddir2 prefix remain i b entries : safe (processReaddir2 E g hasCb prefix remain i b entries) typedCmds.
Proof. unfold processReaddir2. safe. by apply processes_typed. Qed.

Lemma safe_globStar3 prefix abs remain i b entries : safe (globStar3 g prefix abs remain i b entries) typedCmds.
Proof.
  unfold globStar3. safe. apply Forall_app. split; [|by repeat constructor]. apply Forall_concat, Forall_map, Forall_forall.
  intros e _. cbn beta. destruct (str_eqb _ _ && _); [by apply Forall_nil|by rewrite Forall_cons, Forall_singleton].
Qed.

Lemma safe_realpathSet i : safe (realpathSet g i) typedCmds.
Proof. unfold realpathSet. safe. Qed.

Lemma safe_lstatGlobStar abs cb r : takesEntries cb = true -> safe (lstatGlobStar abs cb r) typedCmds.
Proof. intros H. unfold lstatGlobStar. safe; apply Forall_singleton, entries_call; eauto. Qed.

Lemma safe_readdirDone abs cb r : takesEntries cb = true ->
  safe (match r with inr l => readdirEntries_ g abs l cb | inl code => readdirError_ g hasCb abs code cb end) typedCmds.
Proof.
  intros H. unfold readdirEntries_, readdirError_, abort. safe; apply Forall_singleton, entries_call; eauto.
Qed.

Lemma safe_statLstat f abs cb r : takesExists cb = true -> safe (statLstat f abs cb r) typedCmds.
Proof. intros H. unfold statLstat. safe. Qed.

#[local] Hint Resolve safe_processReaddir2 safe_globStar3 safe_realpathSet safe_lstatGlobStar safe_statLstat : safe.

Lemma safe_callback cb a : wfCb cb && accepts cb a = true -> safe (callback E g hasCb cb a) typedCmds.
Proof.
  intros [Hw Ha]%andb_true_iff. destruct cb as [p abs r i b|p abs r i b|p i|k|abs cb|abs cb|f abs cb|f abs l cb|i p]; cbn [wfCb accepts] in *.
  - destruct a; try done; cbn [callback]; safe.
  - destruct a; try done; cbn [callback processGlobStar2]; safe.
  - destruct a; try done; cbn [callback]; unfold processSimple2; safe.
  - cbn [callback]. safe.
  - destruct a; try done; cbn [callback]; safe.
  - destruct a as [| | | |r|]; try done. cbn [callback]. pose proof (safe_readdirDone abs cb r Hw). by destruct r.
  - destruct a; try done; cbn [callback]; safe.
  - destruct a as [| | |[]| |]; try done; cbn [callback]; safe.
  - destruct a; try done; cbn [callback]; unfold realpathCb; safe.
Qed.

Lemma safe_exec c : typedCmd c -> safe (exec_ E g hasCb c) typedCmds.
Proof.
  intros Hc. destruct c; cbn [exec_ typedCmd] in *; try (by apply safe_callback); unfold done, realpathNext; safe.
Qed.

Lemma unwind_safe l s : Forall typedCmd l -> typedRest s -> typedRest (unwind l s).
Proof.
  intros Hl. revert s. induction Hl as [|c l Hc _ IH]; intros s Hs; [done|]. destruct c; cbn [unwind]; try (by apply IH).
  apply IH. by apply safe_resEnd.
Qed.

Lemma runCode_safe m rest s : safe m typedCmds -> Forall typedCmd rest -> typedRest s -> typed (runCode m rest s).
Proof.
  intros Hm Hr Hs. unfold runCode. destruct (Hm s Hs) as [H1 H2]. destruct (m s) as [s1 [e|cs]]; cbn in *.
  - split; [constructor|]. by apply (unwind_safe rest s1).
  - split; [by apply Forall_app|done].
Qed.

Lemma step_typed m s s' : typed s -> takeStep E FS g hasCb m s = Some s' -> typed s'.
Proof.
  intros [Hst Hs] Hstep. unfold takeStep in Hstep. destruct m as [|i| | | |], (a_stack s) as [|c rest]; simplify_eq.
  - apply Forall_cons in Hst as [Hc Hr]. apply runCode_safe; [by apply safe_exec|done|done].
  - destruct (a_io s !! i) as [r|] eqn:Hr; simplify_eq. destruct Hs as (H1 & H2 & H3).
    split; [|split_and!; [by apply Forall_delete|done|done]]. apply Forall_singleton.
    pose proof (Forall_lookup_1 _ _ _ _ H1 Hr) as Hio. destruct r as [? []|? [| | |[]| | | | |]|? []|? []]; cbn in *; try done; by rewrite Hio.
  - destruct (a_ticks s) as [|[k a] l] eqn:Ht; simplify_eq. destruct Hs as (H1 & H2 & H3). rewrite Ht in H2. apply Forall_cons in H2 as [? ?].
    split; [by apply Forall_singleton|done].
  - apply runCode_safe; [|constructor|done]. unfold abort. safe.
  - apply runCode_safe; [|constructor|done]. unfold pause. safe.
  - apply runCode_safe; [|constructor|done]. unfold resume. safe. apply Forall_map, Forall_forall. by intros [[]] _.
Qed.

End Safe.

(** C23. Whatever the options, the file system, the order of events and the
    calls of [abort], [pause] and [resume], every callback of the walker is called
    with arguments of the kind it takes: a function that expects the entries of a
    directory never gets stats, the callbacks that wait for a key expect the
    answers of that key, and the callback inside a callback is of the kind that the
    outer one calls. *)
Theorem callbacks_typed E FS g hasCb w ms s : takeSteps E FS g hasCb ms (initial g w) = Some s -> typed s.
Proof.
  assert (H0 : typed (initial g w)).
  { unfold initial. split; [|split_and!; [constructor|constructor|]]; cbn [a_stack a_reqs]; [|apply map_Forall_empty].
    destruct (g_noprocess g); [constructor|]. destruct (mm_set (g_minimatch g)) as [|p l]; [by repeat constructor|].
    apply Forall_forall. intros c. unfold startCmds. rewrite elem_of_lookup_imap. by intros (i & ps & -> & _). }
  revert H0. generalize (initial g w). induction ms as [|m ms IH]; intros s0 H0; cbn [takeSteps]; [by intros [= <-]|].
  destruct (takeStep E FS g hasCb m s0) as [s1|] eqn:Hstep; [|done]. apply IH. by eapply step_typed.
Qed.

(** * Concrete runs *)

(** A walker of [{d/*,*.txt}] that ignores [d/**]. *)
Definition ignoringOptions : globOptions := mkGlobOptions ∅ None None (ManyIgnore [js "d/**"]) None ∅ ∅ ∅.
Definition ignoringConf : conf :=
  match setopts codeUnitEngine false (js "{d/*,*.txt}") ignoringOptions with Ret (g, _, _) => g | _ => sampleConf end.

Lemma ignored_alternative_ends_walk_witness :
  globSync codeUnitEngine (treeFs sampleTree) 10 false (js "{d/*,*.txt}") (OptObject ignoringOptions) 2 = Ret (Some [js "a.txt"]) /\
  a_answer (drive codeUnitEngine (treeFs sampleTree) ignoringConf true 100 (initial ignoringConf (mkWalk ∅ ∅ ∅ [] []))) = Some (inr []) /\
  forall ms s, takeSteps codeUnitEngine (treeFs sampleTree) ignoringConf true (MRun :: MRun :: ms) (initial ignoringConf (mkWalk ∅ ∅ ∅ [] [])) = Some s ->
    a_answer s = Some (inr []).
Proof.
  split; [vm_compute; reflexivity|]. split; [vm_compute; reflexivity|]. intros ms s.
  destruct (mm_set (g_minimatch ignoringConf)) as [|p0 ps] eqn:Eset; [vm_compute in Eset; discriminate Eset|].
  assert (Hp0 : p0 = default [] (head (mm_set (g_minimatch ignoringConf)))) by (rewrite Eset; reflexivity).
  destruct (leading p0).2 as [|pn remain] eqn:El; [rewrite Hp0 in El; vm_compute in El; discriminate El|].
  eapply (ignored_alternative_ends_walk codeUnitEngine (treeFs sampleTree) ignoringConf (mkWalk ∅ ∅ ∅ [] []) p0 ps pn remain (js "/d") ms s Eset El);
    rewrite ?Hp0; vm_compute; reflexivity.
Defined.

Lemma callbacks_typed_witness :
  exists s, takeSteps codeUnitEngine (treeFs sampleTree) sampleConf true [MRun; MPause; MIo 0; MRun] (initial sampleConf (mkWalk ∅ ∅ ∅ [] [])) = Some s /\ typed s.
Proof.
  destruct (takeSteps codeUnitEngine (treeFs sampleTree) sampleConf true [MRun; MPause; MIo 0; MRun] (initial sampleConf (mkWalk ∅ ∅ ∅ [] []))) as [s|] eqn:Es.
  - exists s. split; [reflexivity|]. exact (callbacks_typed _ _ _ _ _ _ _ Es).
  - vm_compute in Es. discriminate Es.
Defined.

(** A walker that is paused when its last directory is answered emits [end]
    without the matches it has queued; after [resume] they are emitted, but the
    callback has been called.  The magic of the empty pattern cannot be asked for. *)
Definition afterMoves (ms : list move) : option (option (string + list jsstr) * list gevent) :=
  match Glob codeUnitEngine false (js "d/*") OptUndefined true with
  | Ret (g, cb, s0) =>
      match takeSteps codeUnitEngine (treeFs sampleTree) g cb ms s0 with
      | Some s => Some (a_answer s, a_events s)
      | None => None
      end
  | _ => None
  end.

Example async_examples :
  afterMoves [MRun; MIo 0; MRun; MRun; MRun; MRun; MRun] = Some (Some (inr [js "d/c.txt"]), [EvMatch (js "d/c.txt"); EvEnd [js "d/c.txt"]]) /\
  afterMoves [MRun; MPause; MIo 0; MRun; MRun; MRun; MRun; MRun; MResume]
    = Some (Some (inr []), [EvPause; EvEnd []; EvResume; EvMatch (js "d/c.txt")]) /\
  hasMagic codeUnitEngine false (js "") noOptions = Throw "TypeError" /\
  hasMagic codeUnitEngine false (js "a/b") noOptions = Ret false /\ hasMagic codeUnitEngine false (js "a/*") noOptions = Ret true.
Proof. vm_compute. done. Qed.
