(* ===== verification/ProcessTick.v ===== *)
(** The [process] shim (wordcut.js, module 24): the queue of [nextTick] and the
    timers it runs on.

    A task is a callback: when it runs it makes calls of [nextTick] and then
    returns or throws.  The host's timers are a list of pending callbacks that
    fire in order, one per turn of the event loop.  Thrown exceptions are part
    of the state transitions, because the state they leave behind is what
    [cleanUpNextTick] repairs. *)
From Stdlib Require Import ZArith Lia.
From stdpp Require Import base gmap strings list.
From S2P Require Import Prelude.

Local Open Scope Z_scope.
Open Scope js_scope.

(** [Item]: the callback, as the calls it makes and whether it throws. *)
Inductive task := Task (id : nat) (spawns : list task) (throws : bool).

Definition t_id (t : task) : nat := match t with Task i _ _ => i end.
Definition t_spawns (t : task) : list task := match t with Task _ l _ => l end.
Definition t_throws (t : task) : bool := match t with Task _ _ b => b end.

(** What [setTimeout], [clearTimeout] and their cached copies may be. *)
Inductive timerRef := RHost (n : nat) | RDefault | RMissing.
#[export] Instance timerRef_eq : EqDecision timerRef.
Proof. solve_decision. Defined.

(** The ways in which a cached timer function is called. *)
Inductive callMode := Direct | CallNull | CallThis.

(** The callbacks given to timers. *)
Inductive timerCb := CbDrain | CbCleanup.

(** The globals at load time and now, and which calls of host functions throw. *)
Record timerEnv := mkEnv {
  te_setTimeout : timerRef;
  te_clearTimeout : timerRef;
  te_throws : timerRef -> callMode -> bool
}.

Record proc := mkProc {
  p_queue : list task;
  p_draining : bool;
  p_current : option (list task);
  p_index : Z;
  p_setRef : timerRef;
  p_clearRef : timerRef;
  p_timers : list (nat * timerCb);
  p_nextId : nat;
  p_log : list nat
}.

Definition set_queue (s : proc) q := mkProc q (p_draining s) (p_current s) (p_index s) (p_setRef s) (p_clearRef s) (p_timers s) (p_nextId s) (p_log s).
Definition set_draining (s : proc) b := mkProc (p_queue s) b (p_current s) (p_index s) (p_setRef s) (p_clearRef s) (p_timers s) (p_nextId s) (p_log s).
Definition set_current (s : proc) c := mkProc (p_queue s) (p_draining s) c (p_index s) (p_setRef s) (p_clearRef s) (p_timers s) (p_nextId s) (p_log s).
Definition set_index (s : proc) i := mkProc (p_queue s) (p_draining s) (p_current s) i (p_setRef s) (p_clearRef s) (p_timers s) (p_nextId s) (p_log s).
Definition set_refs (s : proc) r c := mkProc (p_queue s) (p_draining s) (p_current s) (p_index s) r c (p_timers s) (p_nextId s) (p_log s).
Definition set_timers (s : proc) t := mkProc (p_queue s) (p_draining s) (p_current s) (p_index s) (p_setRef s) (p_clearRef s) t (p_nextId s) (p_log s).
Definition addTimer (s : proc) cb := mkProc (p_queue s) (p_draining s) (p_current s) (p_index s) (p_setRef s) (p_clearRef s) (p_timers s ++ [(p_nextId s, cb)]) (S (p_nextId s)) (p_log s).
Definition addLog (s : proc) i := mkProc (p_queue s) (p_draining s) (p_current s) (p_index s) (p_setRef s) (p_clearRef s) (p_timers s) (p_nextId s) (p_log s ++ [i]).

(** The cached functions when the module is loaded. *)
Definition cacheRef (global : timerRef) : timerRef := match global with RHost n => RHost n | _ => RDefault end.

Section Shim.
Context (env : timerEnv).

Definition init : proc :=
  mkProc [] false None (-1) (cacheRef (te_setTimeout env)) (cacheRef (te_clearTimeout env)) [] 0%nat [].

(** Does the call of a timer function in some mode go through? *)
Definition callOk (r : timerRef) (m : callMode) : bool :=
  match r with RHost _ => negb (te_throws env r m) | _ => false end.

(** The decision common to [runTimeout] and [runClearTimeout]: the function
    cached afterwards, and whether some call went through. *)
Definition callTimer (cached global : timerRef) : timerRef * bool :=
  if bool_decide (global = RMissing) then (cached, false)
  else if bool_decide (cached = global) then (cached, callOk global Direct)
  else if bool_decide (cached = RDefault) || bool_decide (cached = RMissing) then (global, callOk global Direct)
  else (cached, callOk cached Direct || callOk cached CallNull || callOk cached CallThis).

(** [runTimeout(fun)]: the timer's marker, or [None] when it throws. *)
Definition runTimeout (s : proc) (cb : timerCb) : proc * option nat :=
  let '(r, ok) := callTimer (p_setRef s) (te_setTimeout env) in
  let s := set_refs s r (p_clearRef s) in
  if ok then (addTimer s cb, Some (p_nextId s)) else (s, None).

(** [runClearTimeout(marker)]: the flag says whether it throws. *)
Definition runClearTimeout (s : proc) (marker : nat) : proc * bool :=
  let '(r, ok) := callTimer (p_clearRef s) (te_clearTimeout env) in
  let s := set_refs s (p_setRef s) r in
  if ok then (set_timers s (filter (fun t => t.1 <> marker) (p_timers s)), false) else (s, true).

(** [process.nextTick(fun)]; the flag says whether it throws. *)
Definition nextTick (s : proc) (t : task) : proc * bool :=
  let s := set_queue s (p_queue s ++ [t]) in
  if (len (p_queue s) =? 1) && negb (p_draining s)
  then let '(s, r) := runTimeout s CbDrain in (s, bool_decide (r = None))
  else (s, false).

(** The calls of [nextTick] in a callback, up to the first that throws. *)
Fixpoint nextTicks (s : proc) (ts : list task) : proc * bool :=
  match ts with
  | [] => (s, false)
  | t :: ts' => let '(s, e) := nextTick s t in if e then (s, true) else nextTicks s ts'
  end.

(** [Item.prototype.run]. *)
Definition runItem (s : proc) (t : task) : proc * bool :=
  let '(s, e) := nextTicks (addLog s (t_id t)) (t_spawns t) in
  (s, e || t_throws t).

(** The inner loop of [drainQueue]: [n] bounds the indices that are left. *)
Fixpoint runQueue (n : nat) (l : Z) (s : proc) : proc * bool :=
  let s := set_index s (p_index s + 1) in
  if p_index s <? l then
    match n with
    | O => (s, true)
    | S n =>
        match p_current s with
        | None => runQueue n l s
        | Some cq =>
            match idx cq (p_index s) with
            | None => (s, true)
            | Some t => let '(s, e) := runItem s t in if e then (s, true) else runQueue n l s
            end
        end
    end
  else (s, false).

(** The outer loop. *)
Fixpoint drainLoop (fuel : nat) (l : Z) (s : proc) : outcome (proc * bool) :=
  if l =? 0 then Ret (s, false)
  else match fuel with
       | O => OutOfFuel
       | S fuel =>
           let s := set_queue (set_current s (Some (p_queue s))) [] in
           let '(s, e) := runQueue (Z.to_nat (l - p_index s)) l s in
           if e then Ret (s, true)
           else let s := set_index s (-1) in drainLoop fuel (len (p_queue s)) s
       end.

(** Number of callbacks in a forest of tasks: it bounds the rounds of the loop. *)
Fixpoint tsize (t : task) : nat := match t with Task _ l _ => S (list_sum (map tsize l)) end.
Definition fsize (ts : list task) : nat := list_sum (map tsize ts).

(** [drainQueue()]. *)
Definition drainQueue (s : proc) : outcome (proc * bool) :=
  if p_draining s then Ret (s, false)
  else
    let '(s, timeout) := runTimeout s CbCleanup in
    match timeout with
    | None => Ret (s, true)
    | Some timeout =>
        let s := set_draining s true in
        r ← drainLoop (S (fsize (p_queue s))) (len (p_queue s)) s;
        let '(s, e) := r in
        if (e : bool) then Ret (s, true)
        else Ret (runClearTimeout (set_draining (set_current s None) false) timeout)
    end.

(** [cleanUpNextTick()]. *)
Definition cleanUpNextTick (s : proc) : outcome (proc * bool) :=
  match p_draining s, p_current s with
  | true, Some cq =>
      let s := set_draining s false in
      let s := if 0 <? len cq then set_queue s (cq ++ p_queue s) else set_index s (-1) in
      if 0 <? len (p_queue s) then drainQueue s else Ret (s, false)
  | _, _ => Ret (s, false)
  end.

(** One turn of the event loop: the first pending timer fires; an exception
    is reported and the loop goes on. *)
Definition turn (s : proc) : outcome proc :=
  match p_timers s with
  | [] => Ret s
  | (_, cb) :: rest =>
      let s := set_timers s rest in
      r ← match cb with CbDrain => drainQueue s | CbCleanup => cleanUpNextTick s end;
      Ret (fst r)
  end.

(** What happens from outside: a call of [nextTick], or a turn. *)
Inductive event := Tick (t : task) | Turn.

Definition step (s : proc) (e : event) : outcome proc :=
  match e with Tick t => Ret (nextTick s t).1 | Turn => turn s end.

Definition run (s : proc) (es : list event) : outcome proc := foldO step es s.

End Shim.

(** * The queue that the shim implements *)

(** The callbacks that were called, and those still to be called, in order. *)
Record fifo := mkFifo { f_log : list nat; f_pending : list task }.

Definition fifoRun (f : fifo) : fifo :=
  match f_pending f with
  | [] => f
  | t :: q => mkFifo (f_log f ++ [t_id t]) (q ++ t_spawns t)
  end.

(** Tasks of a state that were not called yet. *)
Definition pending (s : proc) : list task :=
  match p_draining s, p_current s with
  | true, Some cq => drop (Z.to_nat (p_index s + 1)) cq ++ p_queue s
  | _, _ => p_queue s
  end.
Definition abs (s : proc) : fifo := mkFifo (p_log s) (pending s).

Inductive fifoSteps : fifo -> list event -> fifo -> Prop :=
| fs_nil f : fifoSteps f [] f
| fs_tick f t es f' :
    fifoSteps (mkFifo (f_log f) (f_pending f ++ [t])) es f' -> fifoSteps f (Tick t :: es) f'
| fs_turn f n es f' :
    fifoSteps (Nat.iter n fifoRun f) es f' -> fifoSteps f (Turn :: es) f'.

(** * The size of what is pending *)

Lemma fsize_app a b : fsize (a ++ b) = (fsize a + fsize b)%nat.
Proof. unfold fsize. by rewrite map_app, list_sum_app. Qed.

Lemma fsize_cons t q : fsize (t :: q) = S (fsize (t_spawns t) + fsize q).
Proof. by destruct t. Qed.

Lemma fsize_fifoRun f : fsize (f_pending (fifoRun f)) = (fsize (f_pending f) - 1)%nat.
Proof.
  destruct f as [log [|t q]]; [done|]. cbn [fifoRun f_pending]. rewrite fsize_app, fsize_cons. lia.
Qed.

Lemma fsize_iter i f : fsize (f_pending (Nat.iter i fifoRun f)) = (fsize (f_pending f) - i)%nat.
Proof. induction i as [|i IH]; simpl; [lia|]. rewrite fsize_fifoRun, IH. lia. Qed.

Lemma fsize_nil q : fsize q = 0%nat <-> q = [].
Proof. destruct q as [|t q]; [done|]. rewrite fsize_cons. split; [lia|done]. Qed.

Lemma fifoRun_done f : f_pending f = [] -> fifoRun f = f.
Proof. unfold fifoRun. by intros ->. Qed.

Lemma iter_done i f : f_pending f = [] -> Nat.iter i fifoRun f = f.
Proof. intros H. induction i as [|i IH]; [done|]. simpl. by rewrite IH, fifoRun_done. Qed.

Lemma iter_add i j f : Nat.iter (i + j) fifoRun f = Nat.iter i fifoRun (Nat.iter j fifoRun f).
Proof. apply Nat.iter_add. Qed.

(** All ways to empty the queue give the same log. *)
Lemma iter_all i f : f_pending (Nat.iter i fifoRun f) = [] -> Nat.iter i fifoRun f = Nat.iter (fsize (f_pending f)) fifoRun f.
Proof.
  intros H. pose proof (fsize_iter i f) as Hi. rewrite H in Hi. change (fsize []) with 0%nat in Hi.
  replace i with ((i - fsize (f_pending f)) + fsize (f_pending f))%nat by lia. rewrite iter_add.
  apply iter_done. apply fsize_nil. rewrite fsize_iter. lia.
Qed.

(** * A host with working timers *)

Section Good.
Context (env : timerEnv) (a b : nat).
Context (Hset : te_setTimeout env = RHost a) (Hclear : te_clearTimeout env = RHost b).
Context (Hok : forall r, te_throws env r Direct = false).

Definition refsOk (s : proc) : Prop := p_setRef s = RHost a /\ p_clearRef s = RHost b.

Lemma callTimer_host r : te_throws env (RHost r) Direct = false -> callTimer env (RHost r) (RHost r) = (RHost r, true).
Proof.
  intros H. unfold callTimer, callOk. rewrite bool_decide_false by done. rewrite bool_decide_true by done. by rewrite H.
Qed.

Lemma runTimeout_ok s cb : refsOk s -> runTimeout env s cb = (addTimer s cb, Some (p_nextId s)).
Proof. intros [H1 H2]. unfold runTimeout. rewrite H1, Hset, callTimer_host by done. destruct s. by simplify_eq/=. Qed.

Lemma runClearTimeout_ok s i :
  refsOk s -> runClearTimeout env s i = (set_timers s (filter (fun t => t.1 <> i) (p_timers s)), false).
Proof. intros [H1 H2]. unfold runClearTimeout. rewrite H2, Hclear, callTimer_host by done. destruct s. by simplify_eq/=. Qed.

(** Calls of [nextTick] while the queue is drained: they only push. *)
Lemma nextTicks_draining s ts :
  p_draining s = true -> nextTicks env s ts = (set_queue s (p_queue s ++ ts), false).
Proof.
  revert s. induction ts as [|t ts IH]; intros s Hd; cbn [nextTicks].
  - destruct s. cbn. by rewrite app_nil_r.
  - unfold nextTick. cbn [set_queue p_draining]. rewrite Hd, andb_false_r, IH by done.
    destruct s. cbn. by rewrite <- app_assoc.
Qed.

Lemma runItem_draining s t :
  p_draining s = true ->
  runItem env s t = (set_queue (addLog s (t_id t)) (p_queue s ++ t_spawns t), t_throws t).
Proof. intros Hd. unfold runItem. by rewrite nextTicks_draining. Qed.

(** What a round of the drain keeps. *)
Definition sameShim (s s' : proc) : Prop :=
  p_draining s' = p_draining s /\ p_setRef s' = p_setRef s /\ p_clearRef s' = p_clearRef s /\
  p_timers s' = p_timers s /\ p_nextId s' = p_nextId s.

Lemma runQueue_ok n cq s :
  p_draining s = true -> p_current s = Some cq -> -1 <= p_index s < len cq -> (Z.to_nat (len cq - p_index s) <= n)%nat ->
  exists s' e i, runQueue env n (len cq) s = (s', e) /\ sameShim s s' /\ p_current s' = Some cq /\
    abs s' = Nat.iter i fifoRun (abs s) /\
    (if (e : bool) then 0 <= p_index s' < len cq /\ (1 <= i)%nat /\ pending s <> []
     else p_index s' = len cq /\ (i = 0%nat -> p_queue s' = p_queue s)).
Proof.
  revert s. induction n as [|n IH]; intros s Hd Hc Hi Hn; [lia|]. cbn [runQueue].
  set (s1 := set_index s (p_index s + 1)). change (p_index s1) with (p_index s + 1).
  destruct (Z.ltb_spec (p_index s + 1) (len cq)) as [Hlt|Hge].
  2:{ exists s1, false, 0%nat. split_and!; try done; [|cbn; lia].
      unfold abs, pending. cbn. rewrite Hd, Hc. f_equal. rewrite !drop_ge; [done|unfold len in *; lia..]. }
  change (p_current s1) with (p_current s). rewrite Hc.
  destruct (idx_is_Some cq (p_index s + 1) ltac:(lia)) as [t Ht]. rewrite Ht.
  rewrite runItem_draining by done.
  set (s2 := set_queue (addLog s1 (t_id t)) (p_queue s1 ++ t_spawns t)).
  assert (Hpend : pending s <> []).
  { unfold pending. rewrite Hd, Hc. unfold idx in Ht. destruct (Z.ltb_spec (p_index s + 1) 0); [lia|].
    by rewrite (drop_S cq t (Z.to_nat (p_index s + 1))). }
  assert (Habs : abs s2 = fifoRun (abs s)).
  { unfold abs, pending. cbn. rewrite Hd, Hc. unfold idx in Ht. destruct (Z.ltb_spec (p_index s + 1) 0); [lia|].
    rewrite (drop_S cq t (Z.to_nat (p_index s + 1))) by done. cbn. unfold fifoRun. cbn. f_equal.
    rewrite <- app_assoc. f_equal. f_equal. lia. }
  destruct (t_throws t).
  { exists s2, true, 1%nat. split_and!; try done; try lia; cbn; lia. }
  destruct (IH s2) as (s' & e & i & -> & Hsame & Hc' & Hab & He); [done|done|cbn; lia|cbn; lia|].
  exists s', e, (S i). split_and!; [done|done|done| |].
  - rewrite Hab, Habs. by rewrite Nat.iter_succ_r.
  - destruct e; [split; [apply He|split; [lia|done]]|]. split; [lia|done].
Qed.

Lemma drainLoop_ok fuel s :
  p_draining s = true -> -1 <= p_index s -> (p_queue s = [] -> p_index s = -1) -> (p_queue s <> [] -> p_index s < len (p_queue s)) ->
  let todo := drop (Z.to_nat (p_index s + 1)) (p_queue s) in
  (p_queue s <> [] -> (fsize todo < fuel)%nat) ->
  exists s' e i, drainLoop env fuel (len (p_queue s)) s = Ret (s', e) /\ sameShim s s' /\
    abs (if e : bool then s' else set_draining s' false) = Nat.iter i fifoRun (mkFifo (p_log s) todo) /\
    (if e then (exists cq, p_current s' = Some cq /\ 0 <= p_index s' < len cq) /\ (1 <= i)%nat /\ todo <> []
     else p_queue s' = [] /\ p_index s' = -1).
Proof.
  revert s. induction fuel as [|fuel IH]; intros s Hd Hi H0 Hlt todo Hf.
  all: destruct (decide (p_queue s = [])) as [Eq|Hq];
    [exists s, false, 0%nat; unfold todo; rewrite Eq, (H0 Eq); split_and!; done || (unfold abs, pending; cbn; by rewrite Eq)|].
  { specialize (Hf Hq). lia. }
  cbn [drainLoop]. destruct (Z.eqb_spec (len (p_queue s)) 0) as [E0|_].
  { destruct (p_queue s); [done|]. rewrite len_cons in E0. pose proof (len_nonneg l). lia. }
  specialize (Hlt Hq). specialize (Hf Hq).
  set (s1 := set_queue (set_current s (Some (p_queue s))) []). change (p_index s1) with (p_index s).
  destruct (runQueue_ok (Z.to_nat (len (p_queue s) - p_index s)) (p_queue s) s1) as (s2 & e & i & -> & Hsame & Hc & Hab & He);
    [done|done|cbn; lia|cbn; lia|].
  assert (Habs1 : abs s1 = mkFifo (p_log s) todo).
  { unfold abs, pending. cbn. rewrite Hd. by rewrite app_nil_r. }
  rewrite Habs1 in Hab. destruct e.
  { destruct He as (He & Hi1 & Hp1). exists s2, true, i. split_and!; try done; [by exists (p_queue s)|].
    unfold pending, s1 in Hp1. cbn in Hp1. by rewrite Hd, app_nil_r in Hp1. }
  destruct He as [Hidx Hi0]. set (s3 := set_index s2 (-1)).
  assert (Hd2 : p_draining s2 = true) by (by rewrite (proj1 Hsame)).
  assert (Hq2 : mkFifo (p_log s2) (p_queue s2) = Nat.iter i fifoRun (mkFifo (p_log s) todo)).
  { rewrite <- Hab. unfold abs, pending. rewrite Hd2, Hc, Hidx. f_equal. rewrite drop_ge; [done|unfold len; lia]. }
  pose proof (fsize_iter i (mkFifo (p_log s) todo)) as Hsz. rewrite <- Hq2 in Hsz. cbn [f_pending] in Hsz.
  destruct (IH s3) as (s' & e & j & -> & Hsame' & Hab' & He'); [done|cbn; lia|done| | |].
  { cbn. intros _. pose proof (len_nonneg (p_queue s2)). destruct (p_queue s2); [done|]. rewrite len_cons. pose proof (len_nonneg l). lia. }
  { cbn. intros Hne. rewrite drop_0, Hsz.
    assert (fsize (p_queue s2) <> 0)%nat by (intros E%fsize_nil; done).
    assert (i <> 0)%nat; [|lia]. intros ->. by apply Hne, Hi0. }
  exists s', e, (j + i)%nat. split_and!; [done| | |].
  - unfold sameShim in *. cbn in *. destruct_and!. by split_and!; etransitivity.
  - rewrite Hab', iter_add, <- Hq2. cbn [s3 set_index p_index p_queue p_log]. by rewrite drop_0.
  - destruct e; [|done]. destruct He' as (Hcq & Hj & Hne). split_and!; [done|lia|].
    intros E. apply Hne. cbn. rewrite drop_0. apply fsize_nil. rewrite Hsz, E. done.
Qed.

(** The state between two events. *)
Definition idle (s : proc) : Prop :=
  refsOk s /\
  ((p_draining s = false /\ p_index s = -1 /\ p_queue s = [] /\ p_timers s = []) \/
   (exists i, p_draining s = false /\ p_index s = -1 /\ p_queue s <> [] /\ p_timers s = [(i, CbDrain)]) \/
   (exists i cq, p_draining s = true /\ p_current s = Some cq /\ 0 <= p_index s < len cq /\ p_timers s = [(i, CbCleanup)])).

(** [drainQueue] from a state without timers. *)
Lemma drainQueue_ok s :
  refsOk s -> p_draining s = false -> p_timers s = [] -> p_queue s <> [] -> -1 <= p_index s < len (p_queue s) ->
  exists s' e i, drainQueue env s = Ret (s', e) /\ idle s' /\
    abs s' = Nat.iter i fifoRun (mkFifo (p_log s) (drop (Z.to_nat (p_index s + 1)) (p_queue s))) /\
    (p_timers s' = [] \/ (1 <= i)%nat /\ drop (Z.to_nat (p_index s + 1)) (p_queue s) <> []).
Proof.
  intros Hr Hd Ht Hq Hi. unfold drainQueue. rewrite Hd, runTimeout_ok by done. cbn beta iota.
  set (s1 := set_draining (addTimer s CbCleanup) true).
  destruct (drainLoop_ok (S (fsize (p_queue s1))) s1) as (s2 & e & i & E & Hsame & Hab & He);
    [done|cbn; lia|done|cbn; lia| |].
  { intros _. change (p_queue s1) with (p_queue s). change (p_index s1) with (p_index s).
    pose proof (fsize_app (take (Z.to_nat (p_index s + 1)) (p_queue s)) (drop (Z.to_nat (p_index s + 1)) (p_queue s))) as Hsz.
    rewrite take_drop in Hsz. lia. }
  rewrite E, bind_Ret. unfold sameShim in Hsame. cbn in Hsame. rewrite Ht in Hsame. destruct Hsame as (H1 & H2 & H3 & H4 & H5).
  destruct Hr as [Hr1 Hr2]. destruct e.
  - exists s2, true, i. destruct He as ((cq & Hcq & Hidx) & Hi1 & Hne). split_and!; [done| |done|right; done].
    split; [split; congruence|]. right. right. exists (p_nextId s), cq. done.
  - rewrite runClearTimeout_ok by (split; cbn; congruence).
    eexists _, false, i. split; [reflexivity|]. destruct He as [He1 He2].
    assert (Hfl : filter (fun t : nat * timerCb => t.1 <> p_nextId s) (p_timers s2) = []).
    { rewrite H4. cbn [app]. rewrite filter_cons, decide_False; [done|]. by intros []. }
    split_and!.
    + split; [split; cbn; congruence|]. left. cbn. by rewrite Hfl.
    + exact Hab.
    + left. cbn. by rewrite Hfl.
Qed.

(** One event keeps the shim idle and follows the queue. *)
Lemma turn_ok s :
  idle s -> exists s' i, turn env s = Ret s' /\ idle s' /\ abs s' = Nat.iter i fifoRun (abs s) /\
    (p_timers s' = [] \/ (1 <= i)%nat /\ pending s <> []).
Proof.
  intros [Hr Hs]. unfold turn. destruct Hs as [(Hd & Hi & Hq & Ht)|[(j & Hd & Hi & Hq & Ht)|(j & cq & Hd & Hc & Hi & Ht)]].
  - rewrite Ht. exists s, 0%nat. split_and!; try done; [|by left]. split; [done|]. by left.
  - rewrite Ht. destruct (drainQueue_ok (set_timers s [])) as (s' & e & i & -> & Hidle & Hab & Hp); try done.
    { cbn. rewrite Hi. destruct (p_queue s); [done|]. rewrite len_cons. pose proof (len_nonneg l). lia. }
    assert (Ep : pending s = drop (Z.to_nat (p_index s + 1)) (p_queue s)) by (unfold pending; by rewrite Hd, Hi).
    exists s', i. unfold abs at 2. rewrite Ep. split_and!; done.
  - rewrite Ht. unfold cleanUpNextTick. cbn [set_timers p_draining p_current]. rewrite Hd, Hc.
    destruct (Z.ltb_spec 0 (len cq)) as [Hlen|]; [|lia].
    set (s1 := set_queue (set_draining (set_timers s []) false) (cq ++ p_queue s)).
    assert (Hl1 : len (p_queue s1) = len cq + len (p_queue s)) by (unfold s1; cbn; apply len_app).
    pose proof (len_nonneg (p_queue s)).
    assert (E0 : (0 <? len (p_queue s1)) = true) by (apply Z.ltb_lt; lia).
    unfold s1 in E0 |- *. cbn [set_queue set_draining set_timers p_queue] in E0 |- *. rewrite E0.
    fold s1. destruct (drainQueue_ok s1) as (s' & e & i & -> & Hidle & Hab & Hp); try done.
    { intros E. cbn in E. apply app_eq_nil in E as [-> _]. done. }
    { rewrite Hl1. cbn. lia. }
    assert (Ep : pending s = drop (Z.to_nat (p_index s + 1)) (cq ++ p_queue s)).
    { unfold pending. rewrite Hd, Hc. by rewrite drop_app_le by (unfold len in *; lia). }
    exists s', i. unfold abs at 2. rewrite Ep. split_and!; done.
Qed.

Lemma tick_ok s t :
  idle s -> idle (nextTick env s t).1 /\ abs (nextTick env s t).1 = mkFifo (p_log s) (pending s ++ [t]).
Proof.
  intros [Hr Hs]. unfold nextTick. set (s1 := set_queue s (p_queue s ++ [t])).
  assert (Hl : len (p_queue s1) = len (p_queue s) + 1) by (unfold s1; cbn; apply len_app).
  destruct Hs as [(Hd & Hi & Hq & Ht)|[(j & Hd & Hi & Hq & Ht)|(j & cq & Hd & Hc & Hi & Ht)]].
  - rewrite Hl, Hq. change (p_draining s1) with (p_draining s). rewrite Hd.
    change (len (@nil task) + 1 =? 1) with true. cbn [andb negb]. rewrite runTimeout_ok by done. cbn [fst]. split.
    + split; [done|]. right. left. exists (p_nextId s). unfold s1. cbn. rewrite Hd, Hi, Ht, Hq. done.
    + unfold abs, pending, s1. cbn. by rewrite Hd.
  - assert (E : (len (p_queue s1) =? 1) = false).
    { apply Z.eqb_neq. rewrite Hl. destruct (p_queue s); [done|]. rewrite len_cons. pose proof (len_nonneg l). lia. }
    rewrite E. cbn [andb fst]. split.
    + split; [done|]. right. left. exists j. unfold s1. cbn. split_and!; try done. by destruct (p_queue s).
    + unfold abs, pending, s1. cbn. by rewrite Hd.
  - change (p_draining s1) with (p_draining s). rewrite Hd, andb_false_r. cbn [fst]. split.
    + split; [done|]. right. right. exists j, cq. done.
    + unfold abs, pending, s1. cbn. rewrite Hd, Hc. by rewrite app_assoc.
Qed.

Lemma init_idle : idle (init env).
Proof. split; [split; cbn; [by rewrite Hset|by rewrite Hclear]|]. by left. Qed.

Lemma run_ok es s : idle s -> exists s', run env s es = Ret s' /\ idle s' /\ fifoSteps (abs s) es (abs s').
Proof.
  revert s. induction es as [|e es IH]; intros s Hs.
  { exists s. split_and!; try done. constructor. }
  unfold run. cbn [foldO]. destruct e as [t|]; cbn [step].
  - rewrite bind_Ret. destruct (tick_ok s t Hs) as [Hs1 Hab]. destruct (IH _ Hs1) as (s' & Hrun & Hs' & Hst).
    exists s'. split_and!; [done|done|]. constructor. cbn [abs f_log f_pending]. by rewrite <- Hab.
  - destruct (turn_ok s Hs) as (s1 & i & -> & Hs1 & Hab & _). rewrite bind_Ret.
    destruct (IH _ Hs1) as (s' & Hrun & Hs' & Hst). exists s'. split_and!; [done|done|].
    apply (fs_turn _ i). by rewrite <- Hab.
Qed.

(** A state without timers has nothing left to call. *)
Lemma idle_timers s : idle s -> p_timers s = [] -> pending s = [].
Proof.
  intros [_ [(Hd & _ & Hq & _)|[(j & _ & _ & _ & Ht)|(j & cq & _ & _ & _ & Ht)]]] E; [|congruence..].
  unfold pending. by rewrite Hd.
Qed.

Lemma turns_ok n s :
  idle s -> (fsize (pending s) < n)%nat ->
  exists s' i, run env s (replicate n Turn) = Ret s' /\ idle s' /\ p_timers s' = [] /\ abs s' = Nat.iter i fifoRun (abs s).
Proof.
  revert s. induction n as [|n IH]; intros s Hs Hn; [lia|]. unfold run. cbn [replicate foldO step].
  destruct (turn_ok s Hs) as (s1 & i & E1 & Hs1 & Hab & Hp). rewrite E1, bind_Ret.
  destruct (decide (p_timers s1 = [])) as [Et|Hne].
  - exists s1, i. split_and!; try done. clear -Et. induction n as [|n IH]; [done|]. cbn [replicate foldO step].
    unfold turn at 1. by rewrite Et, bind_Ret.
  - destruct Hp as [|[Hi Hpe]]; [done|].
    destruct (IH s1 Hs1) as (s' & j & Hrun & Hs' & Ht & Hab').
    { pose proof (fsize_iter i (abs s)) as Hsz. rewrite <- Hab in Hsz. cbn [abs f_pending] in Hsz.
      assert (fsize (pending s) <> 0%nat) by (by intros E%fsize_nil). lia. }
    exists s', (j + i)%nat. split_and!; try done. by rewrite iter_add, <- Hab.
Qed.

(** C30. The shim implements a first-in first-out queue: after any sequence of
    calls of [nextTick] and turns of the event loop the callbacks called so
    far, and those still to be called, are those of a plain queue from whose
    front each turn takes some callbacks; the calls that a callback makes go
    to the end.  Exceptions neither lose, repeat nor reorder callbacks, and
    when no timer is pending nothing is left to call. *)
Theorem nextTick_fifo (es : list event) :
  exists s, run env (init env) es = Ret s /\ fifoSteps (mkFifo [] []) es (abs s) /\ (p_timers s = [] -> pending s = []).
Proof.
  destruct (run_ok es _ init_idle) as (s & Hrun & Hs & Hst). exists s. split_and!; [done|done|]. by apply idle_timers.
Qed.

(** C31. Every callback is called: from every reachable state, as many turns as
    there are callbacks left (with the ones they will add) and one more empty
    the queue and the timers, in the order of the queue, whichever callbacks
    throw. *)
Theorem nextTick_drains (es : list event) (s : proc) :
  run env (init env) es = Ret s ->
  exists s', run env s (replicate (S (fsize (pending s))) Turn) = Ret s' /\ p_timers s' = [] /\
    abs s' = Nat.iter (fsize (pending s)) fifoRun (abs s) /\ pending s' = [].
Proof.
  intros Hrun. destruct (run_ok es _ init_idle) as (s0 & Hrun' & Hs & _).
  rewrite Hrun in Hrun'. injection Hrun' as <-.
  destruct (turns_ok (S (fsize (pending s))) s Hs ltac:(lia)) as (s' & i & Hr & Hs' & Ht & Hab).
  pose proof (idle_timers s' Hs' Ht) as Hp. exists s'. split_and!; try done.
  rewrite Hab. apply iter_all. by rewrite <- Hab.
Qed.

End Good.

(** A host whose timers work. *)
Definition hostEnv : timerEnv := mkEnv (RHost 1) (RHost 2) (fun _ _ => false).

Lemma nextTick_fifo_witness :
  let es := [Tick (Task 1 [Task 3 [] false] true); Tick (Task 2 [] false); Turn] in
  exists s, run hostEnv (init hostEnv) es = Ret s /\ fifoSteps (mkFifo [] []) es (abs s) /\ (p_timers s = [] -> pending s = []).
Proof. apply (nextTick_fifo hostEnv 1 2); reflexivity. Defined.

Lemma nextTick_drains_witness :
  let es := [Tick (Task 1 [Task 3 [] false] true); Tick (Task 2 [] false); Turn] in
  exists s, run hostEnv (init hostEnv) es = Ret s /\
  exists s', run hostEnv s (replicate (S (fsize (pending s))) Turn) = Ret s' /\ p_timers s' = [] /\
    abs s' = Nat.iter (fsize (pending s)) fifoRun (abs s) /\ pending s' = [].
Proof.
  intros es. eexists. split; [vm_compute; reflexivity|].
  apply (nextTick_drains hostEnv 1 2 eq_refl eq_refl (fun _ => eq_refl) es). vm_compute. reflexivity.
Defined.

