(* ===== verification/CallOnce.v ===== *)
(** Function wrappers (wordcut.js): [wrappy] (module 29), [once] and
    [once.strict] (module 21), and the request table [inflight] (module 18).

    Function objects live in a heap, with their own properties, because
    [once] keeps its state in properties of the function it returns and
    [wrappy] copies properties between functions. *)
From Stdlib Require Import ZArith Lia.
From stdpp Require Import base gmap strings list.
From S2P Require Import Prelude JsString ProcessTick.

Local Open Scope Z_scope.

Inductive jsval := VUndef | VBool (b : bool) | VNum (n : Z) | VString (s : string) | VFun (n : nat).
#[export] Instance jsval_eq : EqDecision jsval.
Proof. solve_decision. Defined.

Definition truthy (v : jsval) : bool :=
  match v with
  | VUndef => false
  | VBool b => b
  | VNum n => negb (n =? 0)
  | VString s => negb (bool_decide (s = ""))
  | VFun _ => true
  end.

(** What a function does: a callback that returns a value or throws, or the
    closures made by [once] and [once.strict]. *)
Inductive code := CBase (ret : jsval) (throws : bool) | COnce (fn : nat) | COnceStrict (fn : nat).

Record fobj := mkF { fo_code : code; fo_name : string; fo_props : gmap string jsval }.

(** The function objects, and the callbacks that ran, with their arguments. *)
Record heap := mkHeap { h_fns : list fobj; h_log : list (nat * list jsval) }.

Definition alloc (h : heap) (f : fobj) : heap * jsval :=
  (mkHeap (h_fns h ++ [f]) (h_log h), VFun (length (h_fns h))).

Definition getProp (h : heap) (n : nat) (k : string) : jsval :=
  default VUndef (h_fns h !! n ≫= fun f => fo_props f !! k).

Definition setProps (h : heap) (n : nat) (p : gmap string jsval -> gmap string jsval) : heap :=
  mkHeap (alter (fun f => mkF (fo_code f) (fo_name f) (p (fo_props f))) n (h_fns h)) (h_log h).

(** The result of a call: a value, or an exception. *)
Inductive completion := Normal (v : jsval) | Thrown (msg : string).

(** [once(fn)]: a function with [called = false]. *)
Definition once (h : heap) (fn : nat) : heap * completion :=
  let '(h, f) := alloc h (mkF (COnce fn) "f" {["called" := VBool false]}) in (h, Normal f).

(** [onceStrict(fn)]. *)
Definition onceStrict (h : heap) (fn : nat) : heap * completion :=
  let given := default "" (fo_name <$> h_fns h !! fn) in
  let name := if bool_decide (given = "") then "Function wrapped with `once`" else given in
  let '(h, f) := alloc h (mkF (COnceStrict fn) "f"
    {["onceError" := VString (name ++ " shouldn't be called more than once"); "called" := VBool false]}) in
  (h, Normal f).

(** A call of a function object; the fuel bounds the chain of closures. *)
Fixpoint call (fuel : nat) (h : heap) (f : jsval) (args : list jsval) : outcome (heap * completion) :=
  match fuel with
  | O => OutOfFuel
  | S fuel =>
      match f with
      | VFun n =>
          match h_fns h !! n with
          | None => Ret (h, Thrown "TypeError")
          | Some o =>
              let first (fn : nat) :=
                let h := setProps h n (fun p => <["called" := VBool true]> p) in
                r ← call fuel h (VFun fn) args;
                let '(h, c) := r in
                match c with
                | Normal v => Ret (setProps h n (fun p => <["value" := v]> p), Normal v)
                | Thrown e => Ret (h, Thrown e)
                end in
              match fo_code o with
              | CBase ret throws =>
                  let h := mkHeap (h_fns h) (h_log h ++ [(n, args)]) in
                  Ret (h, if throws then Thrown "callback" else Normal ret)
              | COnce fn =>
                  if truthy (getProp h n "called") then Ret (h, Normal (getProp h n "value")) else first fn
              | COnceStrict fn =>
                  if truthy (getProp h n "called") 
                  then Ret (h, Thrown (match getProp h n "onceError" with VString e => e | _ => "undefined" end))
                  else first fn
              end
          end
      | _ => Ret (h, Thrown "TypeError")
      end
  end.

(** [wrappy(fn)] applied to its argument: after [fn] returned a function
    other than the callback, the callback's own properties are copied to it. *)
Definition wrapped (fn : heap -> nat -> heap * completion) (h : heap) (cb : jsval) : heap * completion :=
  match cb with
  | VFun c =>
      let '(h, r) := fn h c in
      match r with
      | Normal (VFun m) =>
          if bool_decide (m = c) then (h, r)
          else let props := default ∅ (fo_props <$> h_fns h !! c) in
               (setProps h m (fun p => props ∪ p), r)
      | _ => (h, r)
      end
  | _ => (h, Thrown "TypeError")
  end.

(** [module.exports = wrappy(once)] and [module.exports.strict]. *)
Definition onceExport : heap -> jsval -> heap * completion := wrapped once.
Definition onceStrictExport : heap -> jsval -> heap * completion := wrapped onceStrict.

(** Several calls in a row, with what each of them gave. *)
Fixpoint calls (fuel : nat) (h : heap) (f : jsval) (argss : list (list jsval)) : outcome (heap * list completion) :=
  match argss with
  | [] => Ret (h, [])
  | args :: rest =>
      r ← call fuel h f args;
      rs ← calls fuel r.1 f rest;
      Ret (rs.1, r.2 :: rs.2)
  end.

(** * Requests in flight *)

(** A callback of [inflight] is a task: calling it registers more callbacks
    under the same key and then returns or throws.  The table maps a key to
    the callbacks waiting; [fl_ticks] are the calls of [process.nextTick] that
    [RES] made, [fl_log] the callbacks called. *)
Record flight (A : Type) := mkFlight {
  fl_reqs : gmap string (list task);
  fl_ticks : list (string * A);
  fl_log : list (string * nat * A)
}.
Arguments mkFlight {A} _ _ _.
Arguments fl_reqs {A} _.
Arguments fl_ticks {A} _.
Arguments fl_log {A} _.

Section Inflight.
Context {A : Type}.

(** [inflight(key, cb)]: true when the caller gets the function that answers. *)
Definition inflight (s : flight A) (key : string) (cb : task) : flight A * bool :=
  match fl_reqs s !! key with
  | Some cbs => (mkFlight (<[key := cbs ++ [cb]]> (fl_reqs s)) (fl_ticks s) (fl_log s), false)
  | None => (mkFlight (<[key := [cb]]> (fl_reqs s)) (fl_ticks s) (fl_log s), true)
  end.

(** [cbs[i].apply(null, args)]. *)
Definition runCb (s : flight A) (key : string) (args : A) (cb : task) : flight A :=
  fold_left (fun s c => (inflight s key c).1) (t_spawns cb)
    (mkFlight (fl_reqs s) (fl_ticks s) (fl_log s ++ [(key, t_id cb, args)])).

(** The loop of [RES] over the first callbacks; true when one of them threw. *)
Fixpoint runCbs (s : flight A) (key : string) (args : A) (cbs : list task) : flight A * bool :=
  match cbs with
  | [] => (s, false)
  | cb :: cbs' =>
      let s := runCb s key args cb in
      if t_throws cb then (s, true) else runCbs s key args cbs'
  end.

(** [RES(args)]; [None] is the TypeError of a key with no entry. *)
Definition RES (s : flight A) (key : string) (args : A) : option (flight A * bool) :=
  match fl_reqs s !! key with
  | None => None
  | Some cbs =>
      let '(s, threw) := runCbs s key args cbs in
      let now := default [] (fl_reqs s !! key) in
      Some (if (length cbs <? length now)%nat
            then mkFlight (<[key := drop (length cbs) now]> (fl_reqs s)) (fl_ticks s ++ [(key, args)]) (fl_log s)
            else mkFlight (delete key (fl_reqs s)) (fl_ticks s) (fl_log s), threw)
  end.

(** One callback of [process.nextTick] runs. *)
Definition tickRES (s : flight A) : flight A :=
  match fl_ticks s with
  | [] => s
  | (key, args) :: rest =>
      let s := mkFlight (fl_reqs s) rest (fl_log s) in
      match RES s key args with Some (s, _) => s | None => s end
  end.

End Inflight.

(** * Once *)

Lemma lookup_setProps h n p m :
  h_fns (setProps h n p) !! m =
    (if decide (m = n) then (fun f => mkF (fo_code f) (fo_name f) (p (fo_props f))) <$> h_fns h !! n else h_fns h !! m).
Proof. unfold setProps. cbn. rewrite list_lookup_alter. repeat case_decide; congruence. Qed.

Lemma getProp_setProps h n p k f :
  h_fns h !! n = Some f -> getProp (setProps h n p) n k = default VUndef (p (fo_props f) !! k).
Proof. intros H. unfold getProp. rewrite lookup_setProps, decide_True, H by done. done. Qed.

(** Calls of a closure that was called before. *)
Lemma calls_called h n o fn v argss :
  h_fns h !! n = Some o -> fo_code o = COnce fn -> truthy (getProp h n "called") = true -> getProp h n "value" = v ->
  calls 2 h (VFun n) argss = Ret (h, replicate (length argss) (Normal v)).
Proof.
  intros Hn Hc Ht Hv. induction argss as [|args rest IH]; [done|]. cbn [calls call]. rewrite Hn, Hc, Ht, Hv, bind_Ret.
  cbn [fst snd]. rewrite IH. done.
Qed.

(** A wrapped callback runs at most once: whatever the number of calls of
    [once(g)], the callback [g] runs exactly on the first one, with its
    arguments; the first call gives what [g] gives, and every later call the
    value of the first (undefined if it threw). *)
Lemma once_runs_once (h : heap) (g : nat) (ret : jsval) (throws : bool) name props (args : list jsval) (rest : list (list jsval)) :
  h_fns h !! g = Some (mkF (CBase ret throws) name props) -> props !! "called" = None -> props !! "value" = None ->
  exists h1 f, onceExport h (VFun g) = (h1, Normal f) /\
  exists h2, calls 2 h1 f (args :: rest) =
      Ret (h2, (if throws then Thrown "callback" else Normal ret) ::
               replicate (length rest) (Normal (if throws then VUndef else ret))) /\
    h_log h2 = h_log h ++ [(g, args)].
Proof.
  intros Hg Hp1 Hp2. pose proof (lookup_lt_Some _ _ _ Hg) as Hlt.
  set (n := length (h_fns h)). set (f0 := mkF (COnce g) "f" {["called" := VBool false]}).
  set (ha := mkHeap (h_fns h ++ [f0]) (h_log h)).
  set (h1 := setProps ha n (fun p => props ∪ p)).
  assert (Hga : h_fns ha !! g = Some (mkF (CBase ret throws) name props)) by (unfold ha; cbn; by rewrite lookup_app_l).
  exists h1, (VFun n). split.
  { unfold onceExport, wrapped, once, alloc. cbn beta iota. fold n f0 ha.
    rewrite bool_decide_false by (unfold n; lia). rewrite Hga. done. }
  assert (Hna : h_fns ha !! n = Some f0) by (unfold ha, n; cbn; by rewrite lookup_app_r, Nat.sub_diag by lia).
  assert (Hn1 : h_fns h1 !! n = Some (mkF (COnce g) "f" (props ∪ {["called" := VBool false]}))).
  { unfold h1. by rewrite lookup_setProps, decide_True, Hna. }
  assert (Hc1 : getProp h1 n "called" = VBool false).
  { unfold getProp. rewrite Hn1. cbn. by rewrite lookup_union_r, lookup_singleton. }
  cbn [calls call]. rewrite Hn1. cbn [fo_code]. rewrite Hc1. cbn [truthy].
  set (h2 := setProps h1 n (fun p => <["called" := VBool true]> p)).
  assert (Hg2 : h_fns h2 !! g = Some (mkF (CBase ret throws) name props)).
  { unfold h2, h1. rewrite !lookup_setProps, !decide_False by (unfold n; lia). done. }
  rewrite Hg2. cbn [fo_code]. rewrite bind_Ret.
  set (h3 := mkHeap (h_fns h2) (h_log h2 ++ [(g, args)])).
  assert (Hn3 : h_fns h3 !! n = Some (mkF (COnce g) "f" (<["called" := VBool true]> (props ∪ {["called" := VBool false]})))).
  { change (h_fns h3) with (h_fns h2). unfold h2. by rewrite lookup_setProps, decide_True, Hn1. }
  destruct throws; rewrite bind_Ret; cbn [fst snd].
  - erewrite calls_called; [|exact Hn3|done| |].
    + rewrite bind_Ret. exists h3. done.
    + unfold getProp. rewrite Hn3. cbn. by rewrite lookup_insert_eq.
    + unfold getProp. rewrite Hn3. cbn. rewrite lookup_insert_ne by done.
      by rewrite lookup_union_r, lookup_singleton_ne.
  - set (h4 := setProps h3 n (fun p => <["value" := ret]> p)).
    assert (Hn4 : h_fns h4 !! n = Some (mkF (COnce g) "f" (<["value" := ret]> (<["called" := VBool true]> (props ∪ {["called" := VBool false]}))))).
    { unfold h4. by rewrite lookup_setProps, decide_True, Hn3. }
    erewrite calls_called; [|exact Hn4|done| |].
    + rewrite bind_Ret. exists h4. done.
    + unfold getProp. rewrite Hn4. cbn. rewrite lookup_insert_ne by done. by rewrite lookup_insert_eq.
    + unfold getProp. rewrite Hn4. cbn. by rewrite lookup_insert_eq.
Qed.

(** * In flight *)

(** No callback of a forest throws. *)
Fixpoint calm (t : task) : bool := match t with Task _ l b => negb b && forallb calm l end.

Section InflightFacts.
Context {A : Type} (key : string) (args : A).

Definition logged (ids : list nat) : list (string * nat * A) := map (fun i => (key, i, args)) ids.

Lemma inflight_all (s : flight A) cbs ts :
  fl_reqs s !! key = Some cbs ->
  fold_left (fun s c => (inflight s key c).1) ts s =
    mkFlight (<[key := cbs ++ ts]> (fl_reqs s)) (fl_ticks s) (fl_log s).
Proof.
  revert s cbs. induction ts as [|t ts IH]; intros s cbs Hs; cbn [fold_left].
  - rewrite app_nil_r, insert_id by done. by destruct s.
  - unfold inflight at 2. rewrite Hs. cbn [fst]. rewrite (IH _ (cbs ++ [t])) by (cbn; by rewrite lookup_insert_eq).
    cbn. by rewrite insert_insert_eq, <- app_assoc.
Qed.

Lemma runCbs_calm (s : flight A) now cbs :
  fl_reqs s !! key = Some now -> forallb calm cbs = true ->
  runCbs s key args cbs =
    (mkFlight (<[key := now ++ concat (map t_spawns cbs)]> (fl_reqs s)) (fl_ticks s)
       (fl_log s ++ logged (map t_id cbs)), false).
Proof.
  revert s now. induction cbs as [|cb cbs IH]; intros s now Hs Hc; cbn [runCbs map concat logged].
  - rewrite !app_nil_r, insert_id by done. by destruct s.
  - cbn [forallb] in Hc. apply andb_true_iff in Hc as [Hc1 Hc2].
    replace (t_throws cb) with false by (destruct cb as [? ? []]; done).
    unfold runCb. erewrite (inflight_all _ now) by done. erewrite IH; [|cbn; apply lookup_insert_eq|done].
    cbn. by rewrite insert_insert_eq, <- !app_assoc.
Qed.

(** The log only grows. *)
Lemma iter_log n l q :
  f_log (Nat.iter n fifoRun (mkFifo l q)) = l ++ f_log (Nat.iter n fifoRun (mkFifo [] q)).
Proof.
  assert (H : forall f, f_log (Nat.iter n fifoRun (mkFifo (l ++ f_log f) (f_pending f))) = l ++ f_log (Nat.iter n fifoRun f)).
  { induction n as [|n IH]; intros f; [done|]. rewrite !Nat.iter_succ_r, <- IH.
    destruct f as [lf [|t q']]; cbn [fifoRun f_pending f_log]; [done|]. by rewrite app_assoc. }
  specialize (H (mkFifo [] q)). cbn in H. by rewrite app_nil_r in H.
Qed.

(** A batch taken from the front of the queue. *)
Lemma iter_batch l cbs q :
  Nat.iter (length cbs) fifoRun (mkFifo l (cbs ++ q)) = mkFifo (l ++ map t_id cbs) (q ++ concat (map t_spawns cbs)).
Proof.
  revert l q. induction cbs as [|cb cbs IH]; intros l q; cbn [length map concat].
  - by rewrite !app_nil_r.
  - rewrite Nat.iter_succ_r. cbn [fifoRun f_pending f_log app]. rewrite <- app_assoc, IH, <- !app_assoc. done.
Qed.

Lemma calm_spawns cbs : forallb calm cbs = true -> forallb calm (concat (map t_spawns cbs)) = true.
Proof.
  induction cbs as [|[i l b] cbs IH]; [done|]. cbn [forallb map concat]. intros [H1 H2]%andb_true_iff.
  rewrite forallb_app, IH by done. cbn [calm] in H1. apply andb_true_iff in H1 as [_ H1].
  cbn [t_spawns]. by rewrite H1.
Qed.

Lemma RES_calm (s : flight A) cbs :
  fl_reqs s !! key = Some cbs -> forallb calm cbs = true ->
  let more := concat (map t_spawns cbs) in
  RES s key args = Some (if bool_decide (more = [])
    then mkFlight (delete key (fl_reqs s)) (fl_ticks s) (fl_log s ++ logged (map t_id cbs))
    else mkFlight (<[key := more]> (fl_reqs s)) (fl_ticks s ++ [(key, args)]) (fl_log s ++ logged (map t_id cbs)), false).
Proof.
  intros Hs Hc more. unfold RES. rewrite Hs, (runCbs_calm s cbs) by done. cbn [fl_reqs].
  rewrite lookup_insert_eq. cbn [from_option id]. rewrite length_app, drop_app_length. fold more.
  case_bool_decide as E.
  - rewrite E. replace (length cbs <? length cbs + length [])%nat with false by (symmetry; apply Nat.ltb_ge; simpl; lia).
    cbn. by rewrite delete_insert_eq.
  - replace (length cbs <? length cbs + length more)%nat with true.
    + cbn. by rewrite insert_insert_eq.
    + symmetry. apply Nat.ltb_lt. destruct more; [done|simpl; lia].
Qed.

Lemma fsize_spawns cbs : fsize cbs = (length cbs + fsize (concat (map t_spawns cbs)))%nat.
Proof.
  induction cbs as [|cb cbs IH]; [done|]. rewrite fsize_cons, IH. cbn [map concat length]. rewrite fsize_app. lia.
Qed.

(** The answer and the ticks it schedules, by the number of callbacks left. *)
Lemma ticks_calm n (s : flight A) cbs :
  fl_reqs s !! key = Some cbs -> fl_ticks s = [(key, args)] -> forallb calm cbs = true -> cbs <> [] ->
  (fsize cbs <= n)%nat ->
  Nat.iter n tickRES s =
    mkFlight (delete key (fl_reqs s)) [] (fl_log s ++ logged (f_log (Nat.iter (fsize cbs) fifoRun (mkFifo [] cbs)))).
Proof.
  revert s cbs. induction n as [|n IH]; intros s cbs Hs Ht Hc Hne Hn.
  { destruct cbs; [done|]. rewrite fsize_cons in Hn. lia. }
  rewrite Nat.iter_succ_r. unfold tickRES at 2. rewrite Ht.
  rewrite (RES_calm (mkFlight (fl_reqs s) [] (fl_log s)) cbs) by done. cbn [fl_reqs fl_ticks fl_log].
  pose proof (fsize_spawns cbs) as Hsz. set (more := concat (map t_spawns cbs)) in *.
  assert (Horder : logged (f_log (Nat.iter (fsize cbs) fifoRun (mkFifo [] cbs))) =
    logged (map t_id cbs) ++ logged (f_log (Nat.iter (fsize more) fifoRun (mkFifo [] more)))).
  { rewrite Hsz, Nat.add_comm, iter_add. rewrite <- (app_nil_r cbs) at 2. rewrite iter_batch. cbn [app]. fold more.
    rewrite (iter_log (fsize more) (map t_id cbs) more). unfold logged. by rewrite map_app. }
  case_bool_decide as E.
  - rewrite E in Horder. cbn [fsize map list_sum Nat.iter f_log] in Horder. rewrite Horder.
    rewrite app_nil_r. clear. induction n as [|n IH]; [done|]. rewrite Nat.iter_succ_r. exact IH.
  - rewrite (IH _ more); [|cbn; apply lookup_insert_eq|done|by apply calm_spawns|done|].
    + cbn. rewrite delete_insert_eq, Horder, app_assoc. done.
    + destruct cbs; [done|]. simpl in Hsz. lia.
Qed.

(** A request in flight answers every callback once: after the first
    registration under a key, the registrations of more callbacks [cbs], and
    the answer with some arguments, the ticks that the answer schedules call
    every callback exactly once with these arguments, in the order of
    registration (those registered during a call at the end), and remove the
    key; no callback throws. *)
Lemma inflight_answers (s : flight A) (cb : task) (cbs : list task) :
  fl_reqs s !! key = None -> fl_ticks s = [] -> forallb calm (cb :: cbs) = true ->
  let '(s1, first) := inflight s key cb in
  let s2 := fold_left (fun s c => (inflight s key c).1) cbs s1 in
  first = true /\
  exists s3, RES s2 key args = Some (s3, false) /\
    Nat.iter (fsize (cb :: cbs)) tickRES s3 =
      mkFlight (fl_reqs s) [] (fl_log s ++ logged (f_log (Nat.iter (fsize (cb :: cbs)) fifoRun (mkFifo [] (cb :: cbs))))).
Proof.
  intros Hs Ht Hc. unfold inflight at 1. rewrite Hs. cbv zeta.
  rewrite (inflight_all _ [cb]) by (cbn; apply lookup_insert_eq). cbn [app fl_reqs fl_ticks fl_log]. split; [done|].
  rewrite insert_insert_eq. set (all := cb :: cbs) in *. rewrite Ht.
  set (s2 := mkFlight (<[key := all]> (fl_reqs s)) [(key, args)] (fl_log s)).
  assert (Hdel : delete key (<[key := all]> (fl_reqs s)) = fl_reqs s) by (by rewrite delete_insert_id).
  pose proof (ticks_calm (S (fsize all)) s2 all) as Hticks. rewrite Nat.iter_succ_r in Hticks.
  unfold tickRES at 2, s2 in Hticks. cbn [fl_reqs fl_ticks fl_log] in Hticks. rewrite Hdel in Hticks.
  rewrite (RES_calm (mkFlight (<[key := all]> (fl_reqs s)) [] (fl_log s)) all) in Hticks |- *
    by (done || cbn; apply lookup_insert_eq).
  eexists. split; [reflexivity|]. apply Hticks; try done; [apply lookup_insert_eq|lia].
Qed.

End InflightFacts.

