(* ===== verification/EventEmitter.v ===== *)
(** The event emitter (wordcut.js, module 14, events).

    A listener is a user function or the closure that [once] makes.  What a
    user function does when it is called is an argument of the model: a
    sequence of operations on the same emitter, and whether it throws at the
    end.  The slot of an event type holds one function or an array; arrays live
    in a store because [removeAllListeners] keeps a reference to one while
    listeners run.

    The table of events is a plain object, so that a type without an entry of
    its own finds what Object.prototype has under that name: an event type
    "toString" has a listener from the start, the native function.  The three
    names [accessorNames] are left out: reading or assigning "__proto__" goes to
    the prototype of the table, and the other two are native functions that,
    called as listeners, define accessors on the emitter. *)
From Stdlib Require Import ZArith Lia.
From stdpp Require Import base gmap strings list sorting.
From S2P Require Import Prelude JsString.

Local Open Scope Z_scope.

Inductive listener :=
| LFun (n : nat)
| LOnce (g : nat) (type : string) (n : nat)
| LNative (name : string).
#[export] Instance listener_eq : EqDecision listener.
Proof. solve_decision. Defined.

(** [l.listener]: the function wrapped by [once]. *)
Definition inner (l : listener) : option listener :=
  match l with LOnce _ _ n => Some (LFun n) | _ => None end.

Inductive earg := ANum (z : Z) | AType (t : string) | AListener (l : listener).

(** The operations of an emitter; [CCall] is the call of a listener. *)
Inductive cmd :=
| CEmit (type : string) (args : list earg)
| COn (type : string) (l : listener)
| COnce (type : string) (n : nat)
| CRemove (type : string) (l : listener)
| CRemoveAll (type : option string)
| CSetMax (n : option Z)
| CCall (l : listener) (args : list earg).

(** An entry of [_events]. *)
Inductive slot := SFun (l : listener) | SArr (a : nat).

Record emitter := mkE {
  em_events : list (string * slot);
  em_max : option Z;
  em_arrays : gmap nat (list listener);
  em_warned : gset nat;
  em_next : nat;
  em_fired : gset nat;
  em_log : list (nat * list earg)
}.

Definition newEmitter : emitter := mkE [] None ∅ ∅ 0%nat ∅ [].
Definition defaultMaxListeners : Z := 10.

Definition set_events (s : emitter) ev := mkE ev (em_max s) (em_arrays s) (em_warned s) (em_next s) (em_fired s) (em_log s).
Definition set_max (s : emitter) m := mkE (em_events s) m (em_arrays s) (em_warned s) (em_next s) (em_fired s) (em_log s).
Definition set_arrays (s : emitter) ar := mkE (em_events s) (em_max s) ar (em_warned s) (em_next s) (em_fired s) (em_log s).
Definition set_warned (s : emitter) w := mkE (em_events s) (em_max s) (em_arrays s) w (em_next s) (em_fired s) (em_log s).
Definition set_fired (s : emitter) f := mkE (em_events s) (em_max s) (em_arrays s) (em_warned s) (em_next s) f (em_log s).
Definition logCall (s : emitter) c := mkE (em_events s) (em_max s) (em_arrays s) (em_warned s) (em_next s) (em_fired s) (em_log s ++ [c]).
Definition fresh (s : emitter) : emitter * nat :=
  (mkE (em_events s) (em_max s) (em_arrays s) (em_warned s) (S (em_next s)) (em_fired s) (em_log s), em_next s).

(** [this._events[type]] and its assignment and deletion; keys keep the order
    of insertion. *)
Fixpoint assoc (k : string) (l : list (string * slot)) : option slot :=
  match l with
  | [] => None
  | (k', v) :: l' => if bool_decide (k = k') then Some v else assoc k l'
  end.
Fixpoint assocSet (k : string) (v : slot) (l : list (string * slot)) : list (string * slot) :=
  match l with
  | [] => [(k, v)]
  | (k', w) :: l' => if bool_decide (k = k') then (k, v) :: l' else (k', w) :: assocSet k v l'
  end.
Definition assocDel (k : string) (l : list (string * slot)) : list (string * slot) :=
  filter (fun p => p.1 <> k) l.

(** The functions of Object.prototype, found through the prototype chain, whose
    call on an emitter has no effect. *)
Definition inheritedNames : list string :=
  ["constructor"; "hasOwnProperty"; "isPrototypeOf"; "propertyIsEnumerable"; "toLocaleString";
   "toString"; "valueOf"; "__lookupGetter__"; "__lookupSetter__"].
Definition accessorNames : list string := ["__proto__"; "__defineGetter__"; "__defineSetter__"].
Definition inherited (type : string) : option slot :=
  if bool_decide (type ∈ inheritedNames) then Some (SFun (LNative type)) else None.

Definition getSlot (s : emitter) (type : string) : option slot :=
  match assoc type (em_events s) with Some v => Some v | None => inherited type end.
Definition setSlot (s : emitter) (type : string) (v : slot) : emitter := set_events s (assocSet type v (em_events s)).
Definition delSlot (s : emitter) (type : string) : emitter := set_events s (assocDel type (em_events s)).
Definition has (s : emitter) (type : string) : bool := match getSlot s type with Some _ => true | None => false end.
Definition hasOwn (s : emitter) (type : string) : bool := bool_decide (is_Some (assoc type (em_events s))).
Definition arr (s : emitter) (a : nat) : list listener := default [] (em_arrays s !! a).

(** The keys that [for (key in this._events)] visits: array indices first. *)
Definition keyLe (a b : string) : Prop := indexLe (js a) (js b).
#[export] Instance keyLe_dec a b : Decision (keyLe a b).
Proof. unfold keyLe. apply _. Defined.
Definition eventKeys (s : emitter) : list string :=
  let keys := map fst (em_events s) in
  merge_sort keyLe (filter (fun k => isIndex (js k) = true) keys) ++ filter (fun k => isIndex (js k) = false) keys.

(** Does a registered listener answer to [l] in [removeListener]? *)
Definition answers (l r : listener) : bool := bool_decide (r = l) || bool_decide (inner r = Some l).

(** The last position of the array that answers. *)
Definition lastPos (l : listener) (rs : list listener) : option nat :=
  last (filter (fun i => default false (answers l <$> rs !! i) = true) (seq 0 (length rs))).

(** The entry for one more listener. *)
Definition putListener (s : emitter) (type : string) (l : listener) : emitter :=
  match getSlot s type with
  | None => setSlot s type (SFun l)
  | Some (SArr a) => set_arrays s (<[a := arr s a ++ [l]]> (em_arrays s))
  | Some (SFun l0) =>
      let '(s, a) := fresh s in
      setSlot (set_arrays s (<[a := [l0; l]]> (em_arrays s))) type (SArr a)
  end.

(** The check for a listener leak: the warning is recorded once per array. *)
Definition checkLeak (s : emitter) (type : string) : emitter :=
  match getSlot s type with
  | Some (SArr a) =>
      let m := default defaultMaxListeners (em_max s) in
      if negb (bool_decide (a ∈ em_warned s)) && (0 <? m) && (m <? len (arr s a))
      then set_warned s ({[a]} ∪ em_warned s) else s
  | _ => s
  end.

(** [listeners(type)] and [listenerCount(emitter, type)]. *)
Definition listeners (s : emitter) (type : string) : list listener :=
  match getSlot s type with
  | None => []
  | Some (SFun l) => [l]
  | Some (SArr a) => arr s a
  end.
Definition listenerCount (s : emitter) (type : string) : Z :=
  match getSlot s type with
  | None => 0
  | Some (SFun _) => 1
  | Some (SArr a) => len (arr s a)
  end.

(** Results: the value of a call, or an exception. *)
Inductive eresult := RDone (b : bool) | RThrown (msg : string).

(** Sequencing that stops at an exception, and the emitter state with it. *)
Definition andThen (m : outcome (emitter * eresult)) (k : emitter -> outcome (emitter * eresult)) : outcome (emitter * eresult) :=
  r ← m; match r.2 with RThrown _ => Ret r | RDone _ => k r.1 end.

Fixpoint each {A} (f : emitter -> A -> outcome (emitter * eresult)) (l : list A) (s : emitter) : outcome (emitter * eresult) :=
  match l with
  | [] => Ret (s, RDone true)
  | x :: l' => andThen (f s x) (each f l')
  end.

Section Emitter.
(** What the user functions do. *)
Context (body : nat -> list cmd) (throws : nat -> bool).

(** The operations, with the recursive calls as an argument. *)
Section Operations.
Context (rec : emitter -> cmd -> outcome (emitter * eresult)).

(** [emit(type, ...args)]. *)
Definition emit_ (s : emitter) (type : string) (args : list earg) : outcome (emitter * eresult) :=
  if bool_decide (type = "error") &&
     match getSlot s "error" with
     | None => true
     | Some (SArr a) => bool_decide (arr s a = [])
     | Some (SFun _) => false
     end
  then Ret (s, RThrown "Uncaught, unspecified error event.")
  else match getSlot s type with
       | None => Ret (s, RDone false)
       | Some (SFun l) => andThen (rec s (CCall l args)) (fun s => Ret (s, RDone true))
       | Some (SArr a) => each (fun s l => rec s (CCall l args)) (arr s a) s
       end.

(** [addListener(type, listener)]. *)
Definition addListener_ (s : emitter) (type : string) (l : listener) : outcome (emitter * eresult) :=
  andThen (if has s "newListener"
           then rec s (CEmit "newListener" [AType type; AListener (default l (inner l))])
           else Ret (s, RDone true))
          (fun s => Ret (checkLeak (putListener s type l) type, RDone true)).

(** [once(type, listener)]. *)
Definition once_ (s : emitter) (type : string) (n : nat) : outcome (emitter * eresult) :=
  let '(s, g) := fresh s in rec s (COn type (LOnce g type n)).

(** [removeListener(type, listener)]. *)
Definition removeListener_ (s : emitter) (type : string) (l : listener) : outcome (emitter * eresult) :=
  let removed (s : emitter) :=
    if has s "removeListener" then rec s (CEmit "removeListener" [AType type; AListener l])
    else Ret (s, RDone true) in
  match getSlot s type with
  | None => Ret (s, RDone true)
  | Some (SFun r) => if answers l r then removed (delSlot s type) else Ret (s, RDone true)
  | Some (SArr a) =>
      match lastPos l (arr s a) with
      | None => Ret (s, RDone true)
      | Some p =>
          if bool_decide (length (arr s a) = 1%nat)
          then removed (delSlot (set_arrays s (<[a := []]> (em_arrays s))) type)
          else removed (set_arrays s (<[a := delete p (arr s a)]> (em_arrays s)))
      end
  end.

(** The loop that removes the listeners of one array, last first. *)
Fixpoint drainArray (n : nat) (type : string) (a : nat) (s : emitter) : outcome (emitter * eresult) :=
  match last (arr s a) with
  | None => Ret (s, RDone true)
  | Some l =>
      match n with
      | O => OutOfFuel
      | S n => andThen (rec s (CRemove type l)) (drainArray n type a)
      end
  end.

(** [removeAllListeners(type)], and without an argument; a key that is gone
    when the iteration reaches it is skipped. *)
Definition removeAllListeners_ (n : nat) (s : emitter) (type : option string) : outcome (emitter * eresult) :=
  if negb (has s "removeListener") then
    Ret (match type with None => set_events s [] | Some t => delSlot s t end, RDone true)
  else match type with
       | None =>
           andThen (each (fun s key =>
                      if bool_decide (key = "removeListener") || negb (hasOwn s key) then Ret (s, RDone true)
                      else rec s (CRemoveAll (Some key)))
                    (eventKeys s) s)
           (fun s => andThen (rec s (CRemoveAll (Some "removeListener")))
             (fun s => Ret (set_events s [], RDone true)))
       | Some t =>
           match getSlot s t with
           | None => Ret (s, RThrown "TypeError")
           | Some (SFun l) => andThen (rec s (CRemove t l)) (fun s => Ret (delSlot s t, RDone true))
           | Some (SArr a) => andThen (drainArray n t a s) (fun s => Ret (delSlot s t, RDone true))
           end
       end.

(** [setMaxListeners(n)]; [None] is not a number. *)
Definition setMaxListeners_ (s : emitter) (n : option Z) : outcome (emitter * eresult) :=
  match n with
  | Some z => if z <? 0 then Ret (s, RThrown "TypeError: n must be a positive number")
              else Ret (set_max s (Some z), RDone true)
  | None => Ret (s, RThrown "TypeError: n must be a positive number")
  end.

(** The call of a user function, of the closure [g] of [once], or of a native
    function, which only computes a value. *)
Definition callListener_ (s : emitter) (l : listener) (args : list earg) : outcome (emitter * eresult) :=
  match l with
  | LFun n =>
      andThen (each rec (body n) (logCall s (n, args)))
              (fun s => Ret (s, if throws n then RThrown "listener" else RDone true))
  | LOnce g type n =>
      andThen (rec s (CRemove type (LOnce g type n)))
              (fun s => if bool_decide (g ∈ em_fired s) then Ret (s, RDone true)
                        else rec (set_fired s ({[g]} ∪ em_fired s)) (CCall (LFun n) args))
  | LNative _ => Ret (s, RDone true)
  end.

End Operations.

(** One operation; the fuel bounds the nesting of calls and the loop of
    [removeAllListeners]. *)
Fixpoint exec (fuel : nat) (s : emitter) (c : cmd) : outcome (emitter * eresult) :=
  match fuel with
  | O => OutOfFuel
  | S fuel =>
      match c with
      | CEmit type args => emit_ (exec fuel) s type args
      | COn type l => addListener_ (exec fuel) s type l
      | COnce type n => once_ (exec fuel) s type n
      | CRemove type l => removeListener_ (exec fuel) s type l
      | CRemoveAll type => removeAllListeners_ (exec fuel) fuel s type
      | CSetMax n => setMaxListeners_ s n
      | CCall l args => callListener_ (exec fuel) s l args
      end
  end.

End Emitter.

(** * Entries *)

Lemma assoc_set_eq k v l : assoc k (assocSet k v l) = Some v.
Proof.
  induction l as [|[k' w] l IH]; cbn [assocSet assoc]; [by rewrite bool_decide_true|].
  case_bool_decide as E; cbn [assoc]; [by rewrite bool_decide_true|]. by rewrite bool_decide_false.
Qed.

Lemma assoc_set_ne k k' v l : k' <> k -> assoc k' (assocSet k v l) = assoc k' l.
Proof.
  intros Hne. induction l as [|[k2 w] l IH]; cbn [assocSet assoc]; [by rewrite bool_decide_false|].
  case_bool_decide as E; cbn [assoc]; [subst; by rewrite !bool_decide_false by done|]. by rewrite IH.
Qed.

Lemma assoc_del_eq k l : assoc k (assocDel k l) = None.
Proof.
  unfold assocDel. induction l as [|[k' w] l IH]; [done|]. rewrite filter_cons. case_decide as E; [|done].
  cbn [assoc]. cbn in E. by rewrite bool_decide_false by done.
Qed.

Lemma assoc_del_ne k k' l : k' <> k -> assoc k' (assocDel k l) = assoc k' l.
Proof.
  intros Hne. unfold assocDel. induction l as [|[k2 w] l IH]; [done|]. rewrite filter_cons. cbn [assoc].
  case_decide as E; cbn [assoc]; [by rewrite IH|]. cbn in E. rewrite bool_decide_false; [done|].
  intros ->. congruence.
Qed.

(** Every array in [_events] is known, not empty, and serves one type. *)
Definition wf (s : emitter) : Prop :=
  (forall t a, getSlot s t = Some (SArr a) -> (a < em_next s)%nat /\ arr s a <> []) /\
  (forall t t' a, getSlot s t = Some (SArr a) -> getSlot s t' = Some (SArr a) -> t = t').

Lemma wf_ext s s' :
  em_events s' = em_events s -> em_arrays s' = em_arrays s -> (em_next s <= em_next s')%nat -> wf s -> wf s'.
Proof.
  unfold wf, getSlot, arr. intros -> -> Hn [H1 H2]. split; [|done]. intros t a Ht. destruct (H1 t a Ht). split; [lia|done].
Qed.

Lemma wf_listeners s t : wf s -> (listeners s t = [] <-> getSlot s t = None).
Proof.
  intros [H _]. unfold listeners. destruct (getSlot s t) as [[l|a]|] eqn:E; [done| |done].
  destruct (H t a E). split; done.
Qed.

Lemma listeners_ext s s' : em_events s' = em_events s -> em_arrays s' = em_arrays s -> listeners s' = listeners s.
Proof. unfold listeners, getSlot, arr. by intros -> ->. Qed.

Lemma getSlot_del s t t' : getSlot (delSlot s t) t' = if decide (t' = t) then inherited t else getSlot s t'.
Proof. unfold getSlot, delSlot. cbn. case_decide; [subst; by rewrite assoc_del_eq|by rewrite assoc_del_ne]. Qed.

Lemma inherited_arr t a : inherited t <> Some (SArr a).
Proof. unfold inherited. by case_bool_decide. Qed.

Lemma getSlot_set s t v t' : getSlot (setSlot s t v) t' = if decide (t' = t) then Some v else getSlot s t'.
Proof. unfold getSlot, setSlot. cbn. case_decide; [subst; by rewrite assoc_set_eq|by rewrite assoc_set_ne]. Qed.

Lemma wf_del s t : wf s -> wf (delSlot s t).
Proof.
  intros [H1 H2]. split.
  - intros t' a. rewrite getSlot_del. case_decide; [by intros ?%inherited_arr|]. apply H1.
  - intros t1 t2 a. rewrite !getSlot_del. repeat case_decide; subst; try done; [by intros ?%inherited_arr|by intros ? ?%inherited_arr|apply H2].
Qed.

Lemma wf_noEvents s : em_events s = [] -> wf s.
Proof. intros E. unfold wf, getSlot. rewrite E. split; [intros t a Ha|intros t t' a Ha _]; by destruct (inherited_arr t a Ha). Qed.

(** An array that changes without becoming empty, or that no type uses. *)
Lemma wf_array s a ls : wf s -> (ls <> [] \/ forall t, getSlot s t <> Some (SArr a)) -> wf (set_arrays s (<[a := ls]> (em_arrays s))).
Proof.
  intros [H1 H2] Hls. split; [|exact H2]. intros t b Hb. destruct (H1 t b Hb) as [Hn Hne]. split; [done|].
  unfold arr. cbn. destruct (decide (a = b)) as [<-|Hab]; [|by rewrite lookup_insert_ne].
  rewrite lookup_insert_eq. destruct Hls as [|Hno]; [done|]. by destruct (Hno t).
Qed.

Lemma arr_insert s a ls b : arr (set_arrays s (<[a := ls]> (em_arrays s))) b = if decide (a = b) then ls else arr s b.
Proof. unfold arr. cbn. case_decide; subst; [by rewrite lookup_insert_eq|by rewrite lookup_insert_ne]. Qed.

(** Adding a listener appends it to the listeners of its type. *)
Lemma putListener_ok s t l :
  wf s ->
  wf (putListener s t l) /\ listeners (putListener s t l) t = listeners s t ++ [l] /\
  (forall t', t' <> t -> listeners (putListener s t l) t' = listeners s t').
Proof.
  intros Hwf. pose proof Hwf as [H1 H2]. unfold putListener. destruct (getSlot s t) as [[l0|a]|] eqn:Et.
  - set (a := em_next s). set (s1 := (fresh s).1).
    change (let '(s0, a0) := fresh s in setSlot (set_arrays s0 (<[a0:=[l0; l]]> (em_arrays s0))) t (SArr a0))
      with (setSlot (set_arrays s1 (<[a := [l0; l]]> (em_arrays s1))) t (SArr a)).
    assert (Hfresh : forall t', getSlot s t' <> Some (SArr a)).
    { intros t' Ht'. destruct (H1 t' a Ht'). unfold a in *. lia. }
    set (s2 := set_arrays s1 (<[a := [l0; l]]> (em_arrays s1))).
    assert (Harr : forall t' b, getSlot s t' = Some (SArr b) -> arr s2 b = arr s b).
    { intros t' b Hb. unfold s2. rewrite arr_insert, decide_False; [done|]. intros <-. by apply (Hfresh t'). }
    split_and!.
    + split.
      * intros t' b. rewrite getSlot_set. case_decide as E.
        -- intros [= <-]. split; [cbn; unfold a; lia|]. change (arr s2 a <> []). unfold s2. by rewrite arr_insert, decide_True.
        -- intros Hb. change (getSlot s t' = Some (SArr b)) in Hb. destruct (H1 t' b Hb). split; [cbn; lia|].
           change (arr s2 b <> []). by rewrite (Harr t').
      * intros t1 t2 b. rewrite !getSlot_set. change (getSlot s2 t1) with (getSlot s t1). change (getSlot s2 t2) with (getSlot s t2).
        repeat case_decide; subst; try done; [intros [= <-] Hx|intros Hx [= <-]|apply H2]; by destruct (Hfresh _ Hx).
    + unfold listeners. rewrite getSlot_set, decide_True, Et by done. change (arr s2 a = [l0; l]). unfold s2. by rewrite arr_insert, decide_True.
    + intros t' Hne. unfold listeners. rewrite getSlot_set, decide_False by done. change (getSlot s2 t') with (getSlot s t').
      destruct (getSlot s t') as [[l'|b]|] eqn:E; [done| |done]. exact (Harr t' b E).
  - split_and!.
    + apply wf_array; [done|]. left. by destruct (arr s a).
    + unfold listeners. change (getSlot (set_arrays s _) t) with (getSlot s t). rewrite Et. by rewrite arr_insert, decide_True.
    + intros t' Hne. unfold listeners. change (getSlot (set_arrays s _) t') with (getSlot s t').
      destruct (getSlot s t') as [[l'|b]|] eqn:E; [done| |done]. rewrite arr_insert, decide_False; [done|].
      intros <-. by apply Hne, (H2 t' t a).
  - split_and!.
    + split.
      * intros t' b. rewrite getSlot_set. case_decide; [done|]. apply H1.
      * intros t1 t2 b. rewrite !getSlot_set. repeat case_decide; try done. apply H2.
    + unfold listeners. by rewrite getSlot_set, decide_True, Et.
    + intros t' Hne. unfold listeners. by rewrite getSlot_set, decide_False.
Qed.

(** Taking a listener out of an entry. *)
Definition takeListener (s : emitter) (t : string) (l : listener) : option emitter :=
  match getSlot s t with
  | None => None
  | Some (SFun r) => if answers l r then Some (delSlot s t) else None
  | Some (SArr a) =>
      match lastPos l (arr s a) with
      | None => None
      | Some p =>
          Some (if bool_decide (length (arr s a) = 1%nat)
                then delSlot (set_arrays s (<[a := []]> (em_arrays s))) t
                else set_arrays s (<[a := delete p (arr s a)]> (em_arrays s)))
      end
  end.

Lemma exec_remove body throws fuel s t l :
  exec body throws (S fuel) s (CRemove t l) =
    match takeListener s t l with
    | None => Ret (s, RDone true)
    | Some s' => if has s' "removeListener" then exec body throws fuel s' (CEmit "removeListener" [AType t; AListener l])
                 else Ret (s', RDone true)
    end.
Proof.
  cbn [exec]. unfold removeListener_, takeListener. destruct (getSlot s t) as [[r|a]|]; [by destruct (answers l r)| |done].
  destruct (lastPos l (arr s a)); [|done]. by case_bool_decide.
Qed.

(** The array without its last answering element. *)
Definition removeLast (l : listener) (ls : list listener) : list listener :=
  match lastPos l ls with None => ls | Some p => delete p ls end.

Lemma lastPos_lt l ls p : lastPos l ls = Some p -> (p < length ls)%nat.
Proof. intros [k Hk]%last_Some. assert (H : p ∈ k ++ [p]) by set_solver. rewrite <- Hk in H.
  apply list_elem_of_filter in H as [_ H]. apply elem_of_seq in H. lia. Qed.

Lemma takeListener_ok s t l :
  wf s ->
  match takeListener s t l with
  | None => removeLast l (listeners s t) = listeners s t
  | Some s' => wf s' /\ (inherited t = None -> listeners s' t = removeLast l (listeners s t)) /\ (forall t', t' <> t -> listeners s' t' = listeners s t')
  end.
Proof.
  intros Hwf. pose proof Hwf as [H1 H2]. unfold takeListener, removeLast.
  destruct (getSlot s t) as [[r|a]|] eqn:Et.
  3:{ assert (listeners s t = []) as -> by (unfold listeners; by rewrite Et). done. }
  - assert (listeners s t = [r]) as -> by (unfold listeners; by rewrite Et).
    assert (Hp : lastPos l [r] = if answers l r then Some 0%nat else None).
    { unfold lastPos. cbn [length seq]. rewrite filter_cons, filter_nil. cbn. by destruct (answers l r). }
    rewrite Hp. destruct (answers l r); [|done]. unfold listeners. split_and!; [by apply wf_del| |].
    + intros Hown. by rewrite getSlot_del, decide_True, Hown.
    + intros t' Hne. by rewrite getSlot_del, decide_False.
  - assert (listeners s t = arr s a) as -> by (unfold listeners; by rewrite Et).
    destruct (lastPos l (arr s a)) as [p|] eqn:Ep; [|done].
    pose proof (lastPos_lt _ _ _ Ep) as Hp. case_bool_decide as E1.
    + change (delSlot (set_arrays s (<[a:=[]]> (em_arrays s))) t)
        with (set_arrays (delSlot s t) (<[a:=[]]> (em_arrays (delSlot s t)))). split_and!.
      * apply wf_array; [by apply wf_del|]. right. intros t'. rewrite getSlot_del. case_decide as E; [apply inherited_arr|].
        intros Ht'. by apply E, (H2 t' t a).
      * intros Hown. unfold listeners. change (getSlot (set_arrays _ _) t) with (getSlot (delSlot s t) t). rewrite getSlot_del, decide_True, Hown by done.
        destruct (arr s a) as [|x [|]]; try done. assert (p = 0%nat) as -> by (simpl in *; lia). done.
      * intros t' Hne. unfold listeners. change (getSlot (set_arrays _ _) t') with (getSlot (delSlot s t) t').
        rewrite getSlot_del, decide_False by done. destruct (getSlot s t') as [[l'|b]|] eqn:E; [done| |done].
        rewrite arr_insert, decide_False; [done|]. intros <-. by apply Hne, (H2 t' t a).
    + split_and!.
      * apply wf_array; [done|]. left. intros E. apply (f_equal length) in E. rewrite length_delete in E by (by apply lookup_lt_is_Some).
        simpl in E. lia.
      * intros _. unfold listeners. change (getSlot (set_arrays s _) t) with (getSlot s t). rewrite Et. by rewrite arr_insert, decide_True.
      * intros t' Hne. unfold listeners. change (getSlot (set_arrays s _) t') with (getSlot s t').
        destruct (getSlot s t') as [[l'|b]|] eqn:E; [done| |done]. rewrite arr_insert, decide_False; [done|].
        intros <-. by apply Hne, (H2 t' t a).
Qed.

(** * The invariant *)

Definition keeps (m : outcome (emitter * eresult)) : Prop := forall s r, m = Ret (s, r) -> wf s.

Lemma keeps_ret s r : wf s -> keeps (Ret (s, r)).
Proof. intros H s' r' [= <- <-]. done. Qed.

Lemma keeps_andThen m k : keeps m -> (forall s, wf s -> keeps (k s)) -> keeps (andThen m k).
Proof.
  intros Hm Hk s' r' H. unfold andThen in H. destruct m as [[s1 r1]| |]; [|discriminate H..].
  rewrite bind_Ret in H. specialize (Hm s1 r1 eq_refl). cbn [fst snd] in H.
  destruct r1; [by eapply (Hk s1)|]. by injection H as <- <-.
Qed.

Lemma keeps_each {A} (f : emitter -> A -> outcome (emitter * eresult)) l s :
  wf s -> (forall s x, wf s -> keeps (f s x)) -> keeps (each f l s).
Proof.
  intros Hs Hf. revert s Hs. induction l as [|x l IH]; intros s Hs; cbn [each]; [by apply keeps_ret|].
  apply keeps_andThen; auto.
Qed.
#[export] Hint Resolve keeps_ret keeps_andThen keeps_each wf_del : jsdb.

Lemma wf_checkLeak s t : wf s -> wf (checkLeak s t).
Proof. intros H. unfold checkLeak. repeat case_match; try done; by apply (wf_ext s). Qed.

(** The entries stay well-formed whatever the listeners do: through any
    operation, with listeners that add, remove and emit while they run, every
    array in the table of events is not empty and belongs to one type, so that
    an event type has an entry exactly when it has a listener. *)
Lemma exec_wf body throws (fuel : nat) (s : emitter) (c : cmd) (s' : emitter) (r : eresult) :
  wf s -> exec body throws fuel s c = Ret (s', r) -> wf s' /\ forall t, listeners s' t = [] <-> getSlot s' t = None.
Proof.
  intros Hs He. assert (Hw : wf s'); [|split; [done|intros t; by apply wf_listeners]].
  revert s c Hs s' r He. cut (forall s c, wf s -> keeps (exec body throws fuel s c)); [intros H s c Hs s' r; by apply H|].
  induction fuel as [|fuel IH]; intros s c Hs; [done|].
  assert (IHk : forall c' s1, wf s1 -> keeps (exec body throws fuel s1 c')) by auto.
  destruct c as [t args|t l|t n|t l|[t|]|n|[n|g t n|nm] args].
  - cbn [exec]. unfold emit_. repeat case_match; eauto with jsdb.
  - cbn [exec]. unfold addListener_. apply keeps_andThen; [case_match; eauto with jsdb|]. intros s1 H1. apply keeps_ret, wf_checkLeak, putListener_ok, H1.
  - cbn [exec]. unfold once_. cbn [fresh]. apply IHk. by apply (wf_ext s); [| |cbn; lia|].
  - rewrite exec_remove. pose proof (takeListener_ok s t l Hs). destruct (takeListener s t l) as [s1|]; [|eauto with jsdb].
    destruct H as [H1 _]. case_match; eauto with jsdb.
  - cbn [exec]. unfold removeAllListeners_. destruct (negb _); [eauto with jsdb|]. destruct (getSlot s t) as [[l|a]|]; [eauto with jsdb| |eauto with jsdb].
    apply keeps_andThen; [|eauto with jsdb]. generalize fuel at 2. intros n. revert s Hs.
    induction n as [|n IHn]; intros s Hs; cbn [drainArray]; destruct (last (arr s a)); eauto with jsdb; done.
  - cbn [exec]. unfold removeAllListeners_. case_match; [by apply keeps_ret, wf_noEvents|].
    apply keeps_andThen; [apply keeps_each; [done|]; intros; case_match; eauto with jsdb|].
    intros s1 H1. apply keeps_andThen; [auto|]. intros s2 H2. by apply keeps_ret, wf_noEvents.
  - cbn [exec]. unfold setMaxListeners_. repeat case_match; apply keeps_ret; done.
  - cbn [exec callListener_]. apply keeps_andThen; [|eauto with jsdb]. apply keeps_each; [by apply (wf_ext s)|auto].
  - cbn [exec callListener_]. apply keeps_andThen; [auto|]. intros s1 H1. case_match; [eauto with jsdb|]. apply IHk. by apply (wf_ext s1).
  - cbn [exec callListener_]. by apply keeps_ret.
Qed.

(** * Emission *)

(** The user function that a listener stands for. *)
Definition target (l : listener) : option nat :=
  match l with LFun n => Some n | LOnce _ _ n => Some n | LNative _ => None end.

Section Inert.
(** Listeners that do nothing with the emitter and do not throw. *)
Context (body : nat -> list cmd) (throws : nat -> bool).
Context (Hbody : forall n, body n = []) (Hthrows : forall n, throws n = false).
Abbreviation ex := (exec body throws).

Definition isOnce (l : listener) : bool := match l with LOnce _ _ _ => true | _ => false end.
Definition onceId (l : listener) : option nat := match l with LOnce g _ _ => Some g | _ => None end.

Lemma ex_fun fuel s n args : ex (S fuel) s (CCall (LFun n) args) = Ret (logCall s (n, args), RDone true).
Proof. cbn [exec callListener_]. rewrite Hbody, Hthrows. done. Qed.

Lemma ex_once fuel s g t n args :
  ex (S fuel) s (CCall (LOnce g t n) args) =
    andThen (ex fuel s (CRemove t (LOnce g t n)))
      (fun s => if bool_decide (g ∈ em_fired s) then Ret (s, RDone true)
                else ex fuel (set_fired s ({[g]} ∪ em_fired s)) (CCall (LFun n) args)).
Proof. reflexivity. Qed.

(** Removing a listener that occurs once, as the first of the rest. *)
Lemma removeLast_unique l pre suf :
  Forall (fun r => answers l r = false) pre -> Forall (fun r => answers l r = false) suf -> answers l l = true ->
  removeLast l (pre ++ l :: suf) = pre ++ suf.
Proof.
  intros Hpre Hsuf Hl. unfold removeLast. set (ls := pre ++ l :: suf).
  assert (Hno : forall ks, (forall i, i ∈ ks -> exists r, ls !! i = Some r /\ answers l r = false) ->
    filter (fun i => default false (answers l <$> ls !! i) = true) ks = []).
  { intros ks H. induction ks as [|i ks IH]; [done|]. rewrite filter_cons, decide_False, IH; [done|set_solver|].
    destruct (H i ltac:(set_solver)) as (r & -> & Hr). cbn. by rewrite Hr. }
  assert (Hp : lastPos l ls = Some (length pre)).
  { unfold lastPos. replace (length ls) with (length pre + S (length suf))%nat by (unfold ls; rewrite length_app; done).
    rewrite seq_app, filter_app. cbn [seq]. rewrite filter_cons, decide_True.
    2:{ unfold ls. rewrite lookup_app_r, Nat.sub_diag by lia. cbn. done. }
    rewrite (Hno (seq 0 (length pre))), (Hno (seq (S (0 + length pre)) (length suf))); [done|..].
    - intros i Hi%elem_of_seq. destruct (lookup_lt_is_Some_2 suf (i - S (length pre))%nat ltac:(lia)) as [r Hr].
      exists r. split; [|by eapply (Forall_lookup_1 _ _ _ _ Hsuf)]. unfold ls. rewrite lookup_app_r by lia.
      replace (i - length pre)%nat with (S (i - S (length pre))) by lia. exact Hr.
    - intros i Hi%elem_of_seq. destruct (lookup_lt_is_Some_2 pre i ltac:(lia)) as [r Hr].
      exists r. split; [unfold ls; by rewrite lookup_app_l by lia|by eapply (Forall_lookup_1 _ _ _ _ Hpre)]. }
  rewrite Hp. unfold ls. apply delete_middle.
Qed.

Lemma takeListener_frame s t l s' :
  takeListener s t l = Some s' -> em_log s' = em_log s /\ em_fired s' = em_fired s.
Proof. unfold takeListener. intros H. repeat case_match; by simplify_eq. Qed.

(** The listeners of a snapshot that are still to be called: closures of
    [once] for this type that did not run, each occurring once. *)
Definition readyFor (s : emitter) (t : string) (ls : list listener) : Prop :=
  Forall (fun l => forall g t' n, l = LOnce g t' n -> t' = t /\ g ∉ em_fired s) ls /\ NoDup (omap onceId ls).

Lemma once_unique g t n pre suf :
  Forall (fun l => isOnce l = false) pre -> NoDup (omap onceId (LOnce g t n :: suf)) ->
  removeLast (LOnce g t n) (pre ++ LOnce g t n :: suf) = pre ++ suf.
Proof.
  intros Hpre Hnd. cbn in Hnd. apply NoDup_cons in Hnd as [Hg _].
  assert (Hans : forall r, r <> LOnce g t n -> answers (LOnce g t n) r = false).
  { intros r Hr. unfold answers. rewrite !bool_decide_false; [done| |done]. by destruct r. }
  apply removeLast_unique.
  - eapply Forall_impl; [exact Hpre|]. intros r Hr. apply Hans. by intros ->.
  - apply Forall_forall. intros r Hr. apply Hans. intros ->. apply Hg, list_elem_of_omap. by exists (LOnce g t n).
  - unfold answers. by rewrite bool_decide_true.
Qed.

Lemma emit_each fuel s t args pre suf :
  inherited t = None -> t <> "removeListener" -> wf s -> getSlot s "removeListener" = None ->
  Forall (fun l => isOnce l = false) pre -> readyFor s t suf -> listeners s t = pre ++ suf ->
  exists s', each (fun s l => ex (S (S fuel)) s (CCall l args)) suf s = Ret (s', RDone true) /\
    em_log s' = em_log s ++ map (fun n => (n, args)) (omap target suf) /\
    listeners s' t = pre ++ filter (fun l => isOnce l = false) suf /\
    (forall t', t' <> t -> listeners s' t' = listeners s t').
Proof.
  intros Hown Ht. revert s pre. induction suf as [|l suf IH]; intros s pre Hs Hrm Hpre [Hf Hnd] Hls; cbn [each map].
  { exists s. split_and!; try done; by rewrite app_nil_r. }
  inversion Hf as [|? ? Hl Hf']; subst. destruct l as [n|g t0 n|nm].
  - rewrite ex_fun. unfold andThen at 1. rewrite bind_Ret. cbn [fst snd].
    destruct (IH (logCall s (n, args)) (pre ++ [LFun n])) as (s' & -> & Hlog & Hl' & Hoth);
      [by apply (wf_ext s)|done|apply Forall_app; by repeat constructor|done| |].
    { rewrite (listeners_ext s) by done. by rewrite Hls, <- app_assoc. }
    exists s'. rewrite filter_cons, decide_True by done. split_and!; [done| | |].
    + rewrite Hlog. cbn. by rewrite <- app_assoc.
    + by rewrite Hl', <- app_assoc.
    + intros t' Hne. by rewrite Hoth, (listeners_ext s).
  - destruct (Hl g t0 n eq_refl) as [-> Hg]. rewrite ex_once, exec_remove. pose proof (takeListener_ok s t (LOnce g t n) Hs) as Htake.
    rewrite Hls, (once_unique g t n pre suf) in Htake by done.
    destruct (takeListener s t (LOnce g t n)) as [s1|] eqn:Et.
    2:{ apply (f_equal length) in Htake. rewrite !length_app in Htake. simpl in Htake. lia. }
    destruct Htake as (Hs1 & Hls1 & Hoth1). specialize (Hls1 Hown). destruct (takeListener_frame _ _ _ _ Et) as [Hlog1 Hfired1].
    assert (Hrm1 : getSlot s1 "removeListener" = None).
    { apply wf_listeners; [done|]. rewrite Hoth1 by done. by apply wf_listeners. }
    unfold has. rewrite Hrm1. unfold andThen at 1 2. rewrite bind_Ret. cbn [fst snd].
    rewrite bool_decide_false by (by rewrite Hfired1). rewrite ex_fun, bind_Ret. cbn [fst snd].
    set (s2 := logCall (set_fired s1 ({[g]} ∪ em_fired s1)) (n, args)).
    cbn in Hnd. apply NoDup_cons in Hnd as [Hgn Hnd].
    destruct (IH s2 pre) as (s' & -> & Hlog & Hl' & Hoth); [by apply (wf_ext s1)|done|done| | |].
    { split; [|done]. apply Forall_forall. intros l' Hl' g' t' n' ->. rewrite Forall_forall in Hf'.
      destruct (Hf' _ Hl' g' t' n' eq_refl) as [-> Hg']. split; [done|]. cbn. rewrite Hfired1.
      apply not_elem_of_union. split; [|done]. rewrite not_elem_of_singleton. intros ->.
      apply Hgn, list_elem_of_omap. by exists (LOnce g t n'). }
    { rewrite (listeners_ext s1) by done. done. }
    exists s'. rewrite filter_cons, decide_False by done. split_and!; [done| |done|].
    + rewrite Hlog. cbn. by rewrite Hlog1, <- app_assoc.
    + intros t' Hne. rewrite Hoth, (listeners_ext s1) by done. by apply Hoth1.
  - change (ex (S (S fuel)) s (CCall (LNative nm) args)) with (Ret (s, RDone true)). unfold andThen at 1. rewrite bind_Ret. cbn [fst snd].
    destruct (IH s (pre ++ [LNative nm])) as (s' & -> & Hlog & Hl' & Hoth); [done|done|apply Forall_app; by repeat constructor|done| |].
    { by rewrite Hls, <- app_assoc. }
    exists s'. rewrite filter_cons, decide_True by done. split_and!; [done|done| |done]. by rewrite Hl', <- app_assoc.
Qed.

(** Emission: with listeners that leave the emitter alone, [emit] calls
    every listener of the type exactly once, in the order of registration and
    with the arguments; afterwards the closures of [once] are gone and the
    other listeners, and those of other types, are as before. *)
Lemma emit_calls_all (fuel : nat) (s : emitter) (t : string) (args : list earg) :
  wf s -> inherited t = None -> getSlot s "removeListener" = None -> listeners s t <> [] -> readyFor s t (listeners s t) ->
  exists s', exec body throws (S (S (S fuel))) s (CEmit t args) = Ret (s', RDone true) /\
    em_log s' = em_log s ++ map (fun n => (n, args)) (omap target (listeners s t)) /\
    listeners s' t = filter (fun l => isOnce l = false) (listeners s t) /\
    (forall t', t' <> t -> listeners s' t' = listeners s t').
Proof.
  intros Hs Hown Hrm Hne Hready. assert (Ht : t <> "removeListener").
  { intros ->. apply Hne. by apply wf_listeners. }
  destruct (emit_each fuel s t args [] (listeners s t)) as (s' & Heach & H); try done.
  exists s'. split; [|done]. remember (S (S fuel)) as k eqn:Ek. cbn [exec]. unfold emit_.
  replace (bool_decide (t = "error") && _) with false.
  2:{ symmetry. case_bool_decide as E; [subst t|done]. cbn [andb]. destruct (getSlot s "error") as [[l|a]|] eqn:Es; [done| |].
      - apply bool_decide_eq_false. by apply (proj1 Hs "error" a).
      - destruct Hne. by apply wf_listeners. }
  unfold listeners in Heach, Hne. destruct (getSlot s t) as [[l|a]|]; [|done|done].
  cbn [each] in Heach. destruct (ex k s (CCall l args)) as [[s1 [b|e]]| |]; [|discriminate Heach..].
  unfold andThen in *. rewrite bind_Ret in *. cbn [fst snd] in *. by injection Heach as ->.
Qed.

End Inert.

(** * Emission with listeners that change the table *)

(** The event types of the model other than the two that the emitter itself
    emits. *)
Definition quietType (t : string) : bool :=
  bool_decide (t ∉ accessorNames) && bool_decide (t <> "newListener") && bool_decide (t <> "removeListener").

(** What a listener may do to the emitter here: register and remove listeners
    and set the maximum, but not emit. *)
Definition quietOp (c : cmd) : bool :=
  match c with
  | COn t _ | COnce t _ | CRemove t _ | CRemoveAll (Some t) => quietType t
  | CRemoveAll None => true
  | CSetMax (Some z) => 0 <=? z
  | CSetMax None | CEmit _ _ | CCall _ _ => false
  end.

(** Nobody listens for the emitter's own events. *)
Definition silent (s : emitter) : Prop := getSlot s "newListener" = None /\ getSlot s "removeListener" = None.

Lemma putListener_slot s t l t' : t' <> t -> getSlot (putListener s t l) t' = getSlot s t'.
Proof.
  intros Hne. unfold putListener. cbn [fresh]. destruct (getSlot s t) as [[l0|a]|]; [|done|];
    rewrite getSlot_set; by rewrite decide_False.
Qed.

Lemma takeListener_slot s t l s' t' : t' <> t -> takeListener s t l = Some s' -> getSlot s' t' = getSlot s t'.
Proof.
  intros Hne H. unfold takeListener in H. repeat case_match; simplify_eq; try done;
    change (getSlot (delSlot (set_arrays s _) t) t') with (getSlot (delSlot s t) t') || idtac;
    rewrite getSlot_del; by rewrite decide_False.
Qed.

Lemma silent_ext s s' :
  (forall t, quietType t = false -> getSlot s' t = getSlot s t) -> silent s -> silent s'.
Proof. intros H [H1 H2]. split; rewrite H by (vm_compute; reflexivity); done. Qed.

Lemma putListener_frame s t l : em_log (putListener s t l) = em_log s /\ em_fired (putListener s t l) = em_fired s.
Proof. unfold putListener. cbn [fresh]. by destruct (getSlot s t) as [[l0|a]|]. Qed.

Lemma checkLeak_frame s t :
  em_events (checkLeak s t) = em_events s /\ em_log (checkLeak s t) = em_log s /\ em_fired (checkLeak s t) = em_fired s.
Proof. unfold checkLeak. by repeat case_match. Qed.

Section Quiet.
Context (body : nat -> list cmd) (throws : nat -> bool).

(** The result of an operation that leaves the log and the fired closures as
    they are, and nobody listening for the emitter's own events. *)
Definition quietResult (s : emitter) (m : outcome (emitter * eresult)) : Prop :=
  exists s', m = Ret (s', RDone true) /\ silent s' /\ em_log s' = em_log s /\ em_fired s' = em_fired s.

Lemma quiet_ne t t' : quietType t = true -> quietType t' = false -> t' <> t.
Proof. intros H H' ->. congruence. Qed.

Lemma quiet_add fuel s t l :
  silent s -> quietType t = true -> quietResult s (exec body throws (S fuel) s (COn t l)).
Proof.
  intros Hs Ht. cbn [exec]. unfold addListener_, has. rewrite (proj1 Hs). unfold andThen. rewrite bind_Ret.
  destruct (checkLeak_frame (putListener s t l) t) as (He & Hl & Hf), (putListener_frame s t l) as [Hl' Hf'].
  eexists. split; [reflexivity|]. cbn [fst]. split; [|by rewrite Hl, Hf].
  apply (silent_ext s); [|done]. intros t' Ht'. unfold getSlot at 1. rewrite He.
  by apply putListener_slot, quiet_ne.
Qed.

Lemma quiet_remove fuel s t l :
  silent s -> quietType t = true -> quietResult s (exec body throws (S fuel) s (CRemove t l)).
Proof.
  intros Hs Ht. rewrite exec_remove. destruct (takeListener s t l) as [s1|] eqn:E; [|by exists s].
  destruct (takeListener_frame _ _ _ _ E) as [Hl Hf].
  assert (Hs1 : silent s1).
  { apply (silent_ext s); [|done]. intros t' Ht'. by apply (takeListener_slot s t l), E; apply quiet_ne. }
  unfold has. rewrite (proj2 Hs1). by exists s1.
Qed.

Lemma quiet_removeAll fuel s t :
  silent s -> match t with Some t => quietType t = true | None => True end ->
  quietResult s (exec body throws (S fuel) s (CRemoveAll t)).
Proof.
  intros Hs Ht. cbn [exec]. unfold removeAllListeners_, has. rewrite (proj2 Hs). cbn [negb].
  eexists. split; [reflexivity|]. destruct t as [t|]; (split; [|done]); [|by vm_compute].
  apply (silent_ext s); [|done]. intros t' Ht'. rewrite getSlot_del, decide_False; [done|]. by apply quiet_ne.
Qed.

Lemma exec_quiet fuel s c : silent s -> quietOp c = true -> quietResult s (exec body throws (S (S fuel)) s c).
Proof.
  intros Hs Hc. destruct c as [t args|t l|t n|t l|[t|]|[z|]|l args]; try done; cbn [quietOp] in Hc.
  - by apply quiet_add.
  - by apply (quiet_add fuel (fresh s).1 t (LOnce (fresh s).2 t n)).
  - by apply quiet_remove.
  - by apply (quiet_removeAll _ s (Some t)).
  - by apply (quiet_removeAll _ s None).
  - cbn [exec setMaxListeners_]. replace (z <? 0) with false by lia. by eexists.
Qed.

Lemma each_quiet fuel s cs :
  silent s -> Forall (fun c => quietOp c = true) cs -> quietResult s (each (exec body throws (S (S fuel))) cs s).
Proof.
  intros Hs Hcs. revert s Hs. induction Hcs as [|c cs Hc _ IH]; intros s Hs; cbn [each]; [by exists s|].
  destruct (exec_quiet fuel s c Hs Hc) as (s1 & -> & Hs1 & Hl1 & Hf1). unfold andThen at 1. rewrite bind_Ret. cbn [fst snd].
  destruct (IH s1 Hs1) as (s2 & -> & Hs2 & Hl2 & Hf2). exists s2. by rewrite Hl2, Hf2.
Qed.

(** The user functions that a list of listeners calls, given the closures of
    [once] that have run: each closure once, native functions do nothing, and
    the first function that throws is the last. *)
Fixpoint called (fired : gset nat) (ls : list listener) : list nat * bool :=
  match ls with
  | [] => ([], false)
  | LNative _ :: ls => called fired ls
  | LFun n :: ls =>
      if throws n then ([n], true) else let r := called fired ls in (n :: r.1, r.2)
  | LOnce g _ n :: ls =>
      if bool_decide (g ∈ fired) then called fired ls
      else if throws n then ([n], true) else let r := called ({[g]} ∪ fired) ls in (n :: r.1, r.2)
  end.

(** A listener whose function does only what [quietOp] allows. *)
Definition quietListener (l : listener) : Prop :=
  match l with
  | LFun n => Forall (fun c => quietOp c = true) (body n)
  | LOnce _ t n => quietType t = true /\ Forall (fun c => quietOp c = true) (body n)
  | LNative _ => True
  end.

Lemma call_quiet fuel s n args :
  silent s -> Forall (fun c => quietOp c = true) (body n) ->
  exists s', exec body throws (S (S (S fuel))) s (CCall (LFun n) args) = Ret (s', if throws n then RThrown "listener" else RDone true) /\
    silent s' /\ em_log s' = em_log s ++ [(n, args)] /\ em_fired s' = em_fired s.
Proof.
  intros Hs Hn. remember (S (S fuel)) as k eqn:Ek. cbn [exec callListener_]. subst k.
  destruct (each_quiet fuel (logCall s (n, args)) (body n)) as (s' & -> & Hs' & Hl & Hf); [done|done|].
  unfold andThen. rewrite bind_Ret. by exists s'.
Qed.

Lemma each_called fuel s ls args :
  silent s -> Forall quietListener ls ->
  let r := called (em_fired s) ls in
  exists s', each (fun s l => exec body throws (S (S (S (S fuel)))) s (CCall l args)) ls s = Ret (s', if r.2 then RThrown "listener" else RDone true) /\
    em_log s' = em_log s ++ map (fun n => (n, args)) r.1.
Proof.
  intros Hs Hls. revert s Hs. induction Hls as [|l ls Hl _ IH]; intros s Hs; cbn [each called map fst snd].
  { exists s. by rewrite app_nil_r. }
  destruct l as [n|g t n|nm].
  - destruct (call_quiet (S fuel) s n args Hs Hl) as (s1 & -> & Hs1 & Hl1 & Hf1). unfold andThen. rewrite bind_Ret. cbn [fst snd].
    destruct (throws n); [by exists s1|]. destruct (IH s1 Hs1) as (s2 & He & Hl2). rewrite Hf1 in He, Hl2.
    exists s2. split; [exact He|]. rewrite Hl2, Hl1. cbn. by rewrite <- app_assoc.
  - destruct Hl as [Ht Hn]. change (exec body throws (S (S (S (S fuel)))) s (CCall (LOnce g t n) args)) with
      (andThen (exec body throws (S (S (S fuel))) s (CRemove t (LOnce g t n)))
         (fun s => if bool_decide (g ∈ em_fired s) then Ret (s, RDone true)
                   else exec body throws (S (S (S fuel))) (set_fired s ({[g]} ∪ em_fired s)) (CCall (LFun n) args))).
    destruct (quiet_remove (S (S fuel)) s t (LOnce g t n) Hs Ht) as (s1 & -> & Hs1 & Hl1 & Hf1).
    unfold andThen. rewrite !bind_Ret. cbn [fst snd]. rewrite Hf1. case_bool_decide.
    + rewrite bind_Ret. cbn [fst snd]. rewrite <- Hf1, <- Hl1. by apply IH.
    + destruct (call_quiet fuel (set_fired s1 ({[g]} ∪ em_fired s)) n args) as (s2 & -> & Hs2 & Hl2 & Hf2); [done|done|].
      rewrite bind_Ret. cbn [fst snd]. destruct (throws n); [exists s2; split; [done|]; rewrite Hl2; cbn; by rewrite Hl1|].
      destruct (IH s2 Hs2) as (s3 & He & Hl3). rewrite Hf2 in He, Hl3. exists s3. split; [exact He|].
      rewrite Hl3, Hl2. cbn. by rewrite Hl1, <- app_assoc.
  - change (exec body throws (S (S (S (S fuel)))) s (CCall (LNative nm) args)) with (Ret (s, RDone true)).
    unfold andThen. rewrite bind_Ret. cbn [fst snd]. by apply IH.
Qed.

End Quiet.

(** The answer of [emit]: what [called] says when the type has listeners,
    false when it has none, and an exception for the type "error" then. *)
Definition emitAnswer (s : emitter) (t : string) (threw : bool) : eresult :=
  if bool_decide (listeners s t = [])
  then if bool_decide (t = "error") then RThrown "Uncaught, unspecified error event." else RDone false
  else if threw then RThrown "listener" else RDone true.

(** C32. Emission calls the listeners that are registered when it starts: [emit]
    returns, and has called exactly the user functions of that list, in the
    order of registration and with its arguments, whatever those functions
    register and remove while they run: a listener that is added meanwhile is
    not called, one that is removed meanwhile still is, a closure of [once] runs
    one time however often it occurs, and the first function that throws ends
    the emission with its exception.  Without listeners [emit] answers false, and
    throws for the type "error".  The table is well-formed again.  The listeners
    do not emit and nobody listens for "newListener" and "removeListener"; a
    function of Object.prototype that the type finds in the table counts as a
    listener without effect. *)
Theorem emit_calls_snapshot body throws (fuel : nat) (s : emitter) (t : string) (args : list earg) :
  wf s -> silent s -> t ∉ accessorNames -> Forall (quietListener body) (listeners s t) ->
  let r := called throws (em_fired s) (listeners s t) in
  exists s', exec body throws (5 + fuel) s (CEmit t args) = Ret (s', emitAnswer s t r.2) /\
    em_log s' = em_log s ++ map (fun n => (n, args)) r.1 /\ wf s'.
Proof.
  intros Hwf Hs Ht Hls r.
  assert (He : exists s', exec body throws (5 + fuel) s (CEmit t args) = Ret (s', emitAnswer s t r.2) /\
    em_log s' = em_log s ++ map (fun n => (n, args)) r.1).
  2:{ destruct He as (s' & He & Hl). exists s'. split_and!; [done|done|]. by apply (exec_wf _ _ _ _ _ _ _ Hwf He). }
  destruct (each_called body throws fuel s (listeners s t) args Hs Hls) as (s' & He & Hl). fold r in He, Hl.
  change (5 + fuel)%nat with (S (S (S (S (S fuel))))). remember (S (S (S (S fuel)))) as k eqn:Ek. cbn [exec]. unfold emit_, emitAnswer.
  unfold r in *. unfold listeners in *. destruct (getSlot s t) as [[l|a]|] eqn:Es.
  - rewrite (bool_decide_false ([l] = [])) by done.
    replace (bool_decide (t = "error") && _) with false by (case_bool_decide; subst; by rewrite ?Es).
    exists s'. split; [|done]. cbn [each] in He. unfold andThen in *.
    destruct (exec body throws k s (CCall l args)) as [[s1 [b|e]]| |]; try discriminate He; rewrite bind_Ret in *; exact He.
  - pose proof (proj2 (proj1 Hwf t a Es)) as Hne. rewrite (bool_decide_false (arr s a = [])) by done.
    replace (bool_decide (t = "error") && _) with false.
    2:{ case_bool_decide; subst; [|done]. rewrite Es. by rewrite bool_decide_false. }
    by exists s'.
  - exists s. rewrite (bool_decide_true ([] = [])) by done. cbn [called map]. rewrite app_nil_r. split; [|done].
    case_bool_decide; subst; [by rewrite Es|done].
Qed.

Lemma emit_calls_snapshot_witness :
  let body n := if decide (n = 1)%nat then [CRemove "x" (LFun 2); COn "x" (LFun 3)] else [] in
  let s := putListener (putListener (putListener newEmitter "x" (LFun 1)) "x" (LFun 2)) "x" (LOnce 7 "x" 4) in
  called (fun _ => false) (em_fired s) (listeners s "x") = ([1; 2; 4]%nat, false) /\
  exists s', exec body (fun _ => false) 5 s (CEmit "x" []) = Ret (s', RDone true) /\
    em_log s' = [(1, []); (2, []); (4, [])]%nat /\ wf s'.
Proof.
  intros body s. split; [vm_compute; reflexivity|].
  destruct (emit_calls_snapshot body (fun _ => false) 0 s "x" []) as (s' & He & Hl & Hw).
  - repeat apply putListener_ok. by apply wf_noEvents.
  - split; vm_compute; reflexivity.
  - vm_compute. set_solver.
  - repeat constructor; vm_compute; reflexivity.
  - exists s'. split_and!; [etransitivity; [exact He|vm_compute; reflexivity]|rewrite Hl; vm_compute; reflexivity|exact Hw].
Defined.

(** [removeAllListeners(type)] throws a TypeError when the type has no
    listener but somebody listens for the event [removeListener]: the loop
    reads the length of an entry that does not exist. *)
Lemma removeAll_missing_throws body throws (fuel : nat) (s : emitter) (t : string) :
  has s "removeListener" = true -> getSlot s t = None ->
  exec body throws (S fuel) s (CRemoveAll (Some t)) = Ret (s, RThrown "TypeError").
Proof. intros H1 H2. cbn [exec]. unfold removeAllListeners_. by rewrite H1, H2. Qed.
