(* ===== verification/TinyTables.v ===== *)
(** The weights of the Japanese segmenter (tinyseg.js, the constructor
    [TinySegmenter]): one table per feature, from keys (code units) to weights. *)
From Stdlib Require Import ZArith.
From stdpp Require Import base list.
From S2P Require Import Prelude JsString.

Local Open Scope Z_scope.

(** A table, with its entries in the order of the source. *)
Abbreviation table := (list (jsstr * Z)).

Definition BIAS__ : Z := -332.

Definition BC1__ : table :=
  [([72;72], 6); ([73;73], 2461); ([75;72], 406); ([79;72], (-1378))].

Definition BC2__ : table :=
  [([65;65], (-3267)); ([65;73], 2744); ([65;78], (-878)); ([72;72], (-4070)); ([72;77], (-1711));
   ([72;78], 4012); ([72;79], 3761); ([73;65], 1327); ([73;72], (-1184)); ([73;73], (-1332));
   ([73;75], 1721); ([73;79], 5492); ([75;73], 3831); ([75;75], (-8741)); ([77;72], (-3132));
   ([77;75], 3334); ([79;79], (-2920))].

Definition BC3__ : table :=
  [([72;72], 996); ([72;73], 626); ([72;75], (-721)); ([72;78], (-1307)); ([72;79], (-836));
   ([73;72], (-301)); ([75;75], 2762); ([77;75], 1079); ([77;77], 4034); ([79;65], (-1652));
   ([79;72], 266)].

Definition BP1__ : table :=
  [([66;66], 295); ([79;66], 304); ([79;79], (-125)); ([85;66], 352)].

Definition BP2__ : table :=
  [([66;79], 60); ([79;79], (-1762))].

Definition BQ1__ : table :=
  [([66;72;72], 1150); ([66;72;77], 1521); ([66;73;73], (-1158)); ([66;73;77], 886); ([66;77;72], 1208);
   ([66;78;72], 449); ([66;79;72], (-91)); ([66;79;79], (-2597)); ([79;72;73], 451);
   ([79;73;72], (-296)); ([79;75;65], 1851); ([79;75;72], (-1020)); ([79;75;75], 904);
   ([79;79;79], 2965)].

Definition BQ2__ : table :=
  [([66;72;72], 118); ([66;72;73], (-1159)); ([66;72;77], 466); ([66;73;72], (-919));
   ([66;75;75], (-1720)); ([66;75;79], 864); ([79;72;72], (-1139)); ([79;72;77], (-181));
   ([79;73;72], 153); ([85;72;73], (-1146))].

Definition BQ3__ : table :=
  [([66;72;72], (-792)); ([66;72;73], 2664); ([66;73;73], (-299)); ([66;75;73], 419); ([66;77;72], 937);
   ([66;77;77], 8335); ([66;78;78], 998); ([66;79;72], 775); ([79;72;72], 2174); ([79;72;77], 439);
   ([79;73;73], 280); ([79;75;72], 1798); ([79;75;73], (-793)); ([79;75;79], (-2242));
   ([79;77;72], (-2402)); ([79;79;79], 11699)].

Definition BQ4__ : table :=
  [([66;72;72], (-3895)); ([66;73;72], 3761); ([66;73;73], (-4654)); ([66;73;75], 1348);
   ([66;75;75], (-1806)); ([66;77;73], (-3385)); ([66;79;79], (-12396)); ([79;65;72], 926);
   ([79;72;72], 266); ([79;72;75], (-2036)); ([79;78;78], (-973))].

Definition BW1__ : table :=
  [([44;12392], 660); ([44;21516], 727); ([66;49;12354], 1404); ([66;49;21516], 542);
   ([12289;12392], 660); ([12289;21516], 727); ([12301;12392], 1682); ([12354;12387], 1505);
   ([12356;12358], 1743); ([12356;12387], (-2055)); ([12356;12427], 672); ([12358;12375], (-4817));
   ([12358;12435], 665); ([12363;12425], 3472); ([12364;12425], 600); ([12371;12358], (-790));
   ([12371;12392], 2083); ([12371;12435], (-1262)); ([12373;12425], (-4143)); ([12373;12435], 4573);
   ([12375;12383], 2641); ([12375;12390], 1104); ([12377;12391], (-3399)); ([12381;12371], 1977);
   ([12381;12428], (-871)); ([12383;12385], 1122); ([12383;12417], 601); ([12387;12383], 3463);
   ([12388;12356], (-802)); ([12390;12356], 805); ([12390;12365], 1249); ([12391;12365], 1127);
   ([12391;12377], 3445); ([12391;12399], 844); ([12392;12356], (-4915)); ([12392;12415], 1922);
   ([12393;12371], 3887); ([12394;12356], 5713); ([12394;12387], 3015); ([12394;12393], 7379);
   ([12394;12435], (-1113)); ([12395;12375], 2468); ([12395;12399], 1498); ([12395;12418], 1671);
   ([12395;23550], (-912)); ([12398;19968], (-501)); ([12398;20013], 741); ([12414;12379], 2448);
   ([12414;12391], 1711); ([12414;12414], 2600); ([12414;12427], (-2155)); ([12420;12416], (-1947));
   ([12424;12387], (-2565)); ([12428;12383], 2369); ([12428;12391], (-913)); ([12434;12375], 1860);
   ([12434;35211], 731); ([20129;12367], (-1886)); ([20140;37117], 2558); ([21462;12426], (-2784));
   ([22823;12365], (-2604)); ([22823;38442], 1497); ([24179;26041], (-2314)); ([24341;12365], (-1336));
   ([26085;26412], (-195)); ([26412;24403], (-2423)); ([27598;26085], (-2113)); ([30446;25351], (-724));
   ([65314;65297;12354], 1404); ([65314;65297;21516], 542); ([65379;12392], 1682)].

Definition BW2__ : table :=
  [([46;46], (-11822)); ([49;49], (-669)); ([8213;8213], (-5730)); ([8722;8722], (-13175));
   ([12356;12358], (-1609)); ([12358;12363], 2490); ([12363;12375], (-1350)); ([12363;12418], (-602));
   ([12363;12425], (-7194)); ([12363;12428], 4612); ([12364;12356], 853); ([12364;12425], (-3198));
   ([12365;12383], 1941); ([12367;12394], (-1597)); ([12371;12392], (-8392)); ([12371;12398], (-4193));
   ([12373;12379], 4533); ([12373;12428], 13168); ([12373;12435], (-3977)); ([12375;12356], (-1819));
   ([12375;12363], (-545)); ([12375;12383], 5078); ([12375;12390], 972); ([12375;12394], 939);
   ([12381;12398], (-3744)); ([12383;12356], (-1253)); ([12383;12383], (-662));
   ([12383;12384], (-3857)); ([12383;12385], (-786)); ([12383;12392], 1224); ([12383;12399], (-939));
   ([12387;12383], 4589); ([12387;12390], 1647); ([12387;12392], (-2094)); ([12390;12356], 6144);
   ([12390;12365], 3640); ([12390;12367], 2551); ([12390;12399], (-3110)); ([12390;12418], (-3065));
   ([12391;12356], 2666); ([12391;12365], (-1528)); ([12391;12375], (-3828)); ([12391;12377], (-4761));
   ([12391;12418], (-4203)); ([12392;12356], 1890); ([12392;12371], (-1746)); ([12392;12392], (-2279));
   ([12392;12398], 720); ([12392;12415], 5168); ([12392;12418], (-3941)); ([12394;12356], (-2488));
   ([12394;12364], (-1313)); ([12394;12393], (-6509)); ([12394;12398], 2614); ([12394;12435], 3099);
   ([12395;12362], (-1615)); ([12395;12375], 2748); ([12395;12394], 2454); ([12395;12424], (-7236));
   ([12395;23550], (-14943)); ([12395;24467], (-4688)); ([12395;38306], (-11388));
   ([12398;12363], 2093); ([12398;12391], (-7059)); ([12398;12395], (-6041)); ([12398;12398], (-6125));
   ([12399;12356], 1073); ([12399;12364], (-1033)); ([12399;12378], (-2532)); ([12400;12428], 1813);
   ([12414;12375], (-1316)); ([12414;12391], (-6621)); ([12414;12428], 5409); ([12417;12390], (-3153));
   ([12418;12356], 2230); ([12418;12398], (-10713)); ([12425;12363], (-944)); ([12425;12375], (-1611));
   ([12425;12395], (-1897)); ([12426;12375], 651); ([12426;12414], 1620); ([12428;12383], 4270);
   ([12428;12390], 849); ([12428;12400], 4114); ([12429;12358], 6067); ([12431;12428], 7901);
   ([12434;36890], (-11877)); ([12435;12384], 728); ([12435;12394], (-4115)); ([19968;20154], 602);
   ([19968;26041], (-1375)); ([19968;26085], 970); ([19968;37096], (-1051)); ([19978;12364], (-4479));
   ([20250;31038], (-1116)); ([20986;12390], 2163); ([20998;12398], (-7758)); ([21516;20826], 970);
   ([21516;26085], (-913)); ([22823;38442], (-2471)); ([22996;21729], (-1250));
   ([23569;12394], (-1050)); ([24180;24230], (-8669)); ([24180;38291], (-1626));
   ([24220;30476], (-2363)); ([25163;27177], (-1982)); ([26032;32862], (-4066));
   ([26085;26032], (-722)); ([26085;26412], (-7068)); ([26085;31859], 3372); ([26332;26085], (-601));
   ([26397;39854], (-2355)); ([26412;20154], (-2697)); ([26481;20140], (-1543));
   ([28982;12392], (-1384)); ([31038;20250], (-1276)); ([31435;12390], (-990));
   ([31532;12395], (-1612)); ([31859;22269], (-4268)); ([65297;65297], (-669))].

Definition BW3__ : table :=
  [([12354;12383], (-2194)); ([12354;12426], 719); ([12354;12427], 3846); ([12356;46], (-1185));
   ([12356;12290], (-1185)); ([12356;12356], 5308); ([12356;12360], 2079); ([12356;12367], 3029);
   ([12356;12383], 2056); ([12356;12387], 1883); ([12356;12427], 5600); ([12356;12431], 1527);
   ([12358;12385], 1117); ([12358;12392], 4798); ([12360;12392], 1454); ([12363;46], 2857);
   ([12363;12290], 2857); ([12363;12369], (-743)); ([12363;12387], (-4098)); ([12363;12395], (-669));
   ([12363;12425], 6520); ([12363;12426], (-2670)); ([12364;44], 1816); ([12364;12289], 1816);
   ([12364;12365], (-4855)); ([12364;12369], (-1127)); ([12364;12387], (-913));
   ([12364;12425], (-4977)); ([12364;12426], (-2064)); ([12365;12383], 1645); ([12369;12393], 1374);
   ([12371;12392], 7397); ([12371;12398], 1542); ([12371;12429], (-2757)); ([12373;12356], (-714));
   ([12373;12434], 976); ([12375;44], 1557); ([12375;12289], 1557); ([12375;12356], (-3714));
   ([12375;12383], 3562); ([12375;12390], 1449); ([12375;12394], 2608); ([12375;12414], 1200);
   ([12377;46], (-1310)); ([12377;12290], (-1310)); ([12377;12427], 6521); ([12378;44], 3426);
   ([12378;12289], 3426); ([12378;12395], 841); ([12381;12358], 428); ([12383;46], 8875);
   ([12383;12290], 8875); ([12383;12356], (-594)); ([12383;12398], 812); ([12383;12426], (-1183));
   ([12383;12427], (-853)); ([12384;46], 4098); ([12384;12290], 4098); ([12384;12387], 1004);
   ([12387;12383], (-4748)); ([12387;12390], 300); ([12390;12356], 6240); ([12390;12362], 855);
   ([12390;12418], 302); ([12391;12377], 1437); ([12391;12395], (-1482)); ([12391;12399], 2295);
   ([12392;12358], (-1387)); ([12392;12375], 2266); ([12392;12398], 541); ([12392;12418], (-3543));
   ([12393;12358], 4664); ([12394;12356], 1796); ([12394;12367], (-903)); ([12394;12393], 2135);
   ([12395;44], (-1021)); ([12395;12289], (-1021)); ([12395;12375], 1771); ([12395;12394], 1906);
   ([12395;12399], 2644); ([12398;44], (-724)); ([12398;12289], (-724)); ([12398;23376], (-1000));
   ([12399;44], 1337); ([12399;12289], 1337); ([12409;12365], 2181); ([12414;12375], 1113);
   ([12414;12377], 6943); ([12414;12387], (-1549)); ([12414;12391], 6154); ([12414;12428], (-793));
   ([12425;12375], 1479); ([12425;12428], 6820); ([12427;12427], 3818); ([12428;44], 854);
   ([12428;12289], 854); ([12428;12383], 1850); ([12428;12390], 1375); ([12428;12400], (-3246));
   ([12428;12427], 1091); ([12431;12428], (-605)); ([12435;12384], 606); ([12435;12391], 798);
   ([12459;26376], 990); ([20250;35696], 860); ([20837;12426], 1232); ([22823;20250], 2217);
   ([22987;12417], 1681); ([24066], 965); ([26032;32862], (-5055)); ([26085;44], 974);
   ([26085;12289], 974); ([31038;20250], 2024); ([65398;26376], 990)].

Definition TC1__ : table :=
  [([65;65;65], 1093); ([72;72;72], 1029); ([72;72;77], 580); ([72;73;73], 998); ([72;79;72], (-390));
   ([72;79;77], (-331)); ([73;72;73], 1169); ([73;79;72], (-142)); ([73;79;73], (-1015));
   ([73;79;77], 467); ([77;77;72], 187); ([79;79;73], (-1832))].

Definition TC2__ : table :=
  [([72;72;79], 2088); ([72;73;73], (-1023)); ([72;77;77], (-1154)); ([73;72;73], (-1965));
   ([75;75;72], 703); ([79;73;73], (-2649))].

Definition TC3__ : table :=
  [([65;65;65], (-294)); ([72;72;72], 346); ([72;72;73], (-341)); ([72;73;73], (-1088));
   ([72;73;75], 731); ([72;79;72], (-1486)); ([73;72;72], 128); ([73;72;73], (-3041));
   ([73;72;79], (-1935)); ([73;73;72], (-825)); ([73;73;77], (-1035)); ([73;79;73], (-542));
   ([75;72;72], (-1216)); ([75;75;65], 491); ([75;75;72], (-1217)); ([75;79;75], (-1009));
   ([77;72;72], (-2694)); ([77;72;77], (-457)); ([77;72;79], 123); ([77;77;72], (-471));
   ([78;78;72], (-1689)); ([78;78;79], 662); ([79;72;79], (-3393))].

Definition TC4__ : table :=
  [([72;72;72], (-203)); ([72;72;73], 1344); ([72;72;75], 365); ([72;72;77], (-122)); ([72;72;78], 182);
   ([72;72;79], 669); ([72;73;72], 804); ([72;73;73], 679); ([72;79;72], 446); ([73;72;72], 695);
   ([73;72;79], (-2324)); ([73;73;72], 321); ([73;73;73], 1497); ([73;73;79], 656); ([73;79;79], 54);
   ([75;65;75], 4845); ([75;75;65], 3386); ([75;75;75], 3065); ([77;72;72], (-405)); ([77;72;73], 201);
   ([77;77;72], (-241)); ([77;77;77], 661); ([77;79;77], 841)].

Definition TQ1__ : table :=
  [([66;72;72;72], (-227)); ([66;72;72;73], 316); ([66;72;73;72], (-132)); ([66;73;72;72], 60);
   ([66;73;73;73], 1595); ([66;78;72;72], (-744)); ([66;79;72;72], 225); ([66;79;79;79], (-908));
   ([79;65;75;75], 482); ([79;72;72;72], 281); ([79;72;73;72], 249); ([79;73;72;73], 200);
   ([79;73;73;72], (-68))].

Definition TQ2__ : table :=
  [([66;73;72;72], (-1401)); ([66;73;73;73], (-1033)); ([66;75;65;75], (-543));
   ([66;79;79;79], (-5591))].

Definition TQ3__ : table :=
  [([66;72;72;72], 478); ([66;72;72;77], (-1073)); ([66;72;73;72], 222); ([66;72;73;73], (-504));
   ([66;73;73;72], (-116)); ([66;73;73;73], (-105)); ([66;77;72;73], (-863)); ([66;77;72;77], (-464));
   ([66;79;77;72], 620); ([79;72;72;72], 346); ([79;72;72;73], 1729); ([79;72;73;73], 997);
   ([79;72;77;72], 481); ([79;73;72;72], 623); ([79;73;73;72], 1344); ([79;75;65;75], 2792);
   ([79;75;72;72], 587); ([79;75;75;65], 679); ([79;79;72;72], 110); ([79;79;73;73], (-685))].

Definition TQ4__ : table :=
  [([66;72;72;72], (-721)); ([66;72;72;77], (-3604)); ([66;72;73;73], (-966)); ([66;73;73;72], (-607));
   ([66;73;73;73], (-2181)); ([79;65;65;65], (-2763)); ([79;65;75;75], 180); ([79;72;72;72], (-294));
   ([79;72;72;73], 2446); ([79;72;72;79], 480); ([79;72;73;72], (-1573)); ([79;73;72;72], 1935);
   ([79;73;72;73], (-493)); ([79;73;73;72], 626); ([79;73;73;73], (-4007)); ([79;75;65;75], (-8156))].

Definition TW1__ : table :=
  [([12395;12388;12356], (-4681)); ([26481;20140;37117], 2026)].

Definition TW2__ : table :=
  [([12354;12427;31243], (-2049)); ([12356;12387;12383], (-1256)); ([12371;12429;12364], (-2434));
   ([12375;12423;12358], 3873); ([12381;12398;24460], (-4430)); ([12384;12387;12390], (-1049));
   ([12390;12356;12383], 1833); ([12392;12375;12390], (-4657)); ([12392;12418;12395], (-4517));
   ([12418;12398;12391], 1882); ([19968;27671;12395], (-792)); ([21021;12417;12390], (-1512));
   ([21516;26178;12395], (-8097)); ([22823;12365;12394], (-1255)); ([23550;12375;12390], (-2721));
   ([31038;20250;20826], (-3216))].

Definition TW3__ : table :=
  [([12356;12383;12384], (-1734)); ([12375;12390;12356], 1314); ([12392;12375;12390], (-4314));
   ([12395;12388;12356], (-5483)); ([12395;12392;12387], (-5989)); ([12395;24403;12383], (-6247));
   ([12398;12391;44], (-727)); ([12398;12391;12289], (-727)); ([12398;12418;12398], (-600));
   ([12428;12363;12425], (-3752)); ([21313;20108;26376], (-2287))].

Definition TW4__ : table :=
  [([12356;12358;46], 8576); ([12356;12358;12290], 8576); ([12363;12425;12394], (-2348));
   ([12375;12390;12356], 2958); ([12383;12364;44], 1516); ([12383;12364;12289], 1516);
   ([12390;12356;12427], 1538); ([12392;12356;12358], 1349); ([12414;12375;12383], 5543);
   ([12414;12379;12435], 1097); ([12424;12358;12392], (-4258)); ([12424;12427;12392], 5865)].

Definition UC1__ : table :=
  [([65], 484); ([75], 93); ([77], 645); ([79], (-505))].

Definition UC2__ : table :=
  [([65], 819); ([72], 1059); ([73], 409); ([77], 3987); ([78], 5775); ([79], 646)].

Definition UC3__ : table :=
  [([65], (-1370)); ([73], 2311)].

Definition UC4__ : table :=
  [([65], (-2643)); ([72], 1809); ([73], (-1032)); ([75], (-3450)); ([77], 3565); ([78], 3876);
   ([79], 6646)].

Definition UC5__ : table :=
  [([72], 313); ([73], (-1238)); ([75], (-799)); ([77], 539); ([79], (-831))].

Definition UC6__ : table :=
  [([72], (-506)); ([73], (-253)); ([75], 87); ([77], 247); ([79], (-387))].

Definition UP1__ : table :=
  [([79], (-214))].

Definition UP2__ : table :=
  [([66], 69); ([79], 935)].

Definition UP3__ : table :=
  [([66], 189)].

Definition UQ1__ : table :=
  [([66;72], 21); ([66;73], (-12)); ([66;75], (-99)); ([66;78], 142); ([66;79], (-56));
   ([79;72], (-95)); ([79;73], 477); ([79;75], 410); ([79;79], (-2422))].

Definition UQ2__ : table :=
  [([66;72], 216); ([66;73], 113); ([79;75], 1759)].

Definition UQ3__ : table :=
  [([66;65], (-479)); ([66;72], 42); ([66;73], 1913); ([66;75], (-7198)); ([66;77], 3160);
   ([66;78], 6427); ([66;79], 14761); ([79;73], (-827)); ([79;78], (-3212))].

Definition UW1__ : table :=
  [([44], 156); ([12289], 156); ([12300], (-463)); ([12354], (-941)); ([12358], (-127));
   ([12364], (-553)); ([12365], 121); ([12371], 505); ([12391], (-201)); ([12392], (-547));
   ([12393], (-123)); ([12395], (-789)); ([12398], (-185)); ([12399], (-847)); ([12418], (-466));
   ([12420], (-470)); ([12424], 182); ([12425], (-292)); ([12426], 208); ([12428], 169);
   ([12434], (-446)); ([12435], (-137)); ([12539], (-135)); ([20027], (-402)); ([20140], (-268));
   ([21306], (-912)); ([21320], 871); ([22269], (-460)); ([22823], 561); ([22996], 729);
   ([24066], (-411)); ([26085], (-141)); ([29702], 361); ([29983], (-408)); ([30476], (-386));
   ([37117], (-718)); ([65378], (-463)); ([65381], (-135))].

Definition UW2__ : table :=
  [([44], (-829)); ([12289], (-829)); ([12295], 892); ([12300], (-645)); ([12301], 3145);
   ([12354], (-538)); ([12356], 505); ([12358], 134); ([12362], (-502)); ([12363], 1454);
   ([12364], (-856)); ([12367], (-412)); ([12371], 1141); ([12373], 878); ([12374], 540);
   ([12375], 1529); ([12377], (-675)); ([12379], 300); ([12381], (-1011)); ([12383], 188);
   ([12384], 1837); ([12388], (-949)); ([12390], (-291)); ([12391], (-268)); ([12392], (-981));
   ([12393], 1273); ([12394], 1063); ([12395], (-1764)); ([12398], 130); ([12399], (-409));
   ([12402], (-1273)); ([12409], 1261); ([12414], 600); ([12418], (-1263)); ([12420], (-402));
   ([12424], 1639); ([12426], (-579)); ([12427], (-694)); ([12428], 571); ([12434], (-2516));
   ([12435], 2095); ([12450], (-587)); ([12459], 306); ([12461], 568); ([12483], 831);
   ([19977], (-758)); ([19981], (-2150)); ([19990], (-302)); ([20013], (-968)); ([20027], (-861));
   ([20107], 492); ([20154], (-123)); ([20250], 978); ([20445], 362); ([20837], 548);
   ([21021], (-3025)); ([21103], (-1566)); ([21271], (-3414)); ([21306], (-422)); ([22823], (-1769));
   ([22825], (-865)); ([22826], (-483)); ([23376], (-1519)); ([23398], 760); ([23455], 1023);
   ([23567], (-2009)); ([24066], (-813)); ([24180], (-1060)); ([24375], 1067); ([25163], (-1519));
   ([25594], (-1033)); ([25919], 1522); ([25991], (-1355)); ([26032], (-1682)); ([26085], (-1815));
   ([26126], (-1462)); ([26368], (-630)); ([26397], (-1843)); ([26412], (-1650)); ([26481], (-931));
   ([26524], (-665)); ([27425], (-2378)); ([27665], (-180)); ([27671], (-1740)); ([29702], 752);
   ([30330], 529); ([30446], (-1584)); ([30456], (-242)); ([30476], (-1165)); ([31435], (-763));
   ([31532], 810); ([31859], 509); ([33258], (-1353)); ([34892], 838); ([35199], (-744));
   ([35211], (-3874)); ([35519], 1010); ([35696], 1198); ([36796], 3041); ([38283], 1758);
   ([38291], (-1257)); ([65378], (-645)); ([65379], 3145); ([65391], 831); ([65393], (-587));
   ([65398], 306); ([65399], 568)].

Definition UW3__ : table :=
  [([44], 4889); ([49], (-800)); ([8722], (-1723)); ([12289], 4889); ([12293], (-2311));
   ([12295], 5827); ([12301], 2670); ([12307], (-3573)); ([12354], (-2696)); ([12356], 1006);
   ([12358], 2342); ([12360], 1983); ([12362], (-4864)); ([12363], (-1163)); ([12364], 3271);
   ([12367], 1004); ([12369], 388); ([12370], 401); ([12371], (-3552)); ([12372], (-3116));
   ([12373], (-1058)); ([12375], (-395)); ([12377], 584); ([12379], 3685); ([12381], (-5228));
   ([12383], 842); ([12385], (-521)); ([12387], (-1444)); ([12388], (-1081)); ([12390], 6167);
   ([12391], 2318); ([12392], 1691); ([12393], (-899)); ([12394], (-2788)); ([12395], 2745);
   ([12398], 4056); ([12399], 4555); ([12402], (-2171)); ([12405], (-1798)); ([12408], 1199);
   ([12411], (-5516)); ([12414], (-4384)); ([12415], (-120)); ([12417], 1205); ([12418], 2323);
   ([12420], (-788)); ([12424], (-202)); ([12425], 727); ([12426], 649); ([12427], 5905);
   ([12428], 2773); ([12431], (-1207)); ([12434], 6620); ([12435], (-518)); ([12450], 551);
   ([12464], 1319); ([12473], 874); ([12483], (-1350)); ([12488], 521); ([12512], 1109);
   ([12523], 1591); ([12525], 2201); ([12531], 278); ([12539], (-3794)); ([19968], (-1619));
   ([19979], (-1759)); ([19990], (-2087)); ([20001], 3815); ([20013], 653); ([20027], (-758));
   ([20104], (-1193)); ([20108], 974); ([20154], 2742); ([20170], 792); ([20182], 1889);
   ([20197], (-1368)); ([20302], 811); ([20309], 4265); ([20316], (-361)); ([20445], (-2439));
   ([20803], 4858); ([20826], 3593); ([20840], 1574); ([20844], (-3030)); ([20845], 755);
   ([20849], (-1880)); ([20870], 5807); ([20877], 3095); ([20998], 457); ([21021], 2475);
   ([21029], 1129); ([21069], 2286); ([21103], 4437); ([21147], 365); ([21205], (-949));
   ([21209], (-1872)); ([21270], 1327); ([21271], (-1038)); ([21306], 4646); ([21315], (-2309));
   ([21320], (-783)); ([21332], (-1006)); ([21475], 483); ([21491], 1233); ([21508], 3588);
   ([21512], (-241)); ([21516], 3906); ([21644], (-837)); ([21729], 4513); ([22269], 642);
   ([22411], 1389); ([22580], 1219); ([22806], (-241)); ([22971], 2016); ([23398], (-1356));
   ([23433], (-423)); ([23455], (-1008)); ([23478], 1078); ([23567], (-513)); ([23569], (-3102));
   ([24030], 1155); ([24066], 3197); ([24179], (-1804)); ([24180], 2416); ([24195], (-1030));
   ([24220], 1605); ([24230], 1452); ([24314], (-2352)); ([24403], (-3885)); ([24471], 1905);
   ([24605], (-1291)); ([24615], 1822); ([25144], (-488)); ([25351], (-3973)); ([25919], (-2013));
   ([25945], (-1479)); ([25968], 3222); ([25991], (-1489)); ([26032], 1764); ([26085], 2099);
   ([26087], 5792); ([26152], (-661)); ([26178], (-1248)); ([26332], (-951)); ([26368], (-937));
   ([26376], 4125); ([26399], 360); ([26446], 3094); ([26449], 364); ([26481], (-805)); ([26680], 5156);
   ([26862], 2438); ([26989], 484); ([27663], 2613); ([27665], (-1694)); ([27770], (-1073));
   ([27861], 1868); ([28023], (-495)); ([28961], 979); ([29289], 461); ([29305], (-3850));
   ([29983], (-273)); ([29992], 914); ([30010], 1215); ([30340], 7313); ([30452], (-1835));
   ([30465], 792); ([30476], 6293); ([30693], (-1528)); ([31169], 4231); ([31246], 401);
   ([31435], (-960)); ([31532], 1201); ([31859], 7767); ([31995], 3066); ([32004], 3663);
   ([32026], 1384); ([32113], (-4229)); ([32207], 1163); ([32218], 1255); ([32773], 6457);
   ([33021], 725); ([33258], (-2869)); ([33521], 785); ([35211], 1044); ([35519], (-562));
   ([36001], (-733)); ([36027], 1777); ([36554], 1835); ([36557], 1375); ([36796], (-1504));
   ([36890], (-1136)); ([36984], (-681)); ([37070], 1026); ([37089], 4404); ([37096], 1200);
   ([37329], 2163); ([38263], 421); ([38283], (-1432)); ([38291], 1302); ([38306], (-1282));
   ([38632], 2009); ([38651], (-1045)); ([38750], 2066); ([39365], 1620); ([65297], (-800));
   ([65379], 2670); ([65381], (-3794)); ([65391], (-1350)); ([65393], 551); ([65400;65438], 1319);
   ([65405], 874); ([65412], 521); ([65425], 1109); ([65433], 1591); ([65435], 2201); ([65437], 278)].

Definition UW4__ : table :=
  [([44], 3930); ([46], 3508); ([8213], (-4841)); ([12289], 3930); ([12290], 3508); ([12295], 4999);
   ([12300], 1895); ([12301], 3798); ([12307], (-5156)); ([12354], 4752); ([12356], (-3435));
   ([12358], (-640)); ([12360], (-2514)); ([12362], 2405); ([12363], 530); ([12364], 6006);
   ([12365], (-4482)); ([12366], (-3821)); ([12367], (-3788)); ([12369], (-4376)); ([12370], (-4734));
   ([12371], 2255); ([12372], 1979); ([12373], 2864); ([12375], (-843)); ([12376], (-2506));
   ([12377], (-731)); ([12378], 1251); ([12379], 181); ([12381], 4091); ([12383], 5034);
   ([12384], 5408); ([12385], (-3654)); ([12387], (-5882)); ([12388], (-1659)); ([12390], 3994);
   ([12391], 7410); ([12392], 4547); ([12394], 5433); ([12395], 6499); ([12396], 1853); ([12397], 1413);
   ([12398], 7396); ([12399], 8578); ([12400], 1940); ([12402], 4249); ([12403], (-4134));
   ([12405], 1345); ([12408], 6665); ([12409], (-744)); ([12411], 1464); ([12414], 1051);
   ([12415], (-2082)); ([12416], (-882)); ([12417], (-5046)); ([12418], 4169); ([12419], (-2666));
   ([12420], 2795); ([12423], (-1544)); ([12424], 3351); ([12425], (-2922)); ([12426], (-9726));
   ([12427], (-14896)); ([12428], (-2613)); ([12429], (-4570)); ([12431], (-1783)); ([12434], 13150);
   ([12435], (-2352)); ([12459], 2145); ([12467], 1789); ([12475], 1287); ([12483], (-724));
   ([12488], (-403)); ([12513], (-1635)); ([12521], (-881)); ([12522], (-541)); ([12523], (-856));
   ([12531], (-3637)); ([12539], (-4371)); ([12540], (-11870)); ([19968], (-2069)); ([20013], 2210);
   ([20104], 782); ([20107], (-190)); ([20117], (-1768)); ([20154], 1036); ([20197], 544);
   ([20250], 950); ([20307], (-1286)); ([20316], 530); ([20596], 4292); ([20808], 601);
   ([20826], (-2006)); ([20849], (-1212)); ([20869], 584); ([20870], 788); ([21021], 1347);
   ([21069], 1623); ([21103], 3879); ([21147], (-302)); ([21205], (-740)); ([21209], (-2715));
   ([21270], 776); ([21306], 4517); ([21332], 1013); ([21442], 1555); ([21512], (-1834));
   ([21644], (-681)); ([21729], (-910)); ([22120], (-851)); ([22238], 1500); ([22269], (-619));
   ([22290], (-1200)); ([22320], 866); ([22580], (-1410)); ([22593], (-2094)); ([22763], (-1413));
   ([22810], 1067); ([22823], 571); ([23376], (-4802)); ([23398], (-1397)); ([23450], (-1057));
   ([23546], (-809)); ([23567], 1910); ([23627], (-1328)); ([23665], (-1500)); ([23798], (-2056));
   ([24029], (-2667)); ([24066], 2771); ([24180], 374); ([24193], (-4556)); ([24460], 456);
   ([24615], 553); ([24863], 916); ([25152], (-1566)); ([25903], 856); ([25913], 787); ([25919], 2182);
   ([25945], 704); ([25991], 522); ([26041], (-856)); ([26085], 1798); ([26178], 1829); ([26368], 845);
   ([26376], (-9066)); ([26408], (-485)); ([26469], (-442)); ([26657], (-360)); ([26989], (-1043));
   ([27663], 5388); ([27665], (-2716)); ([27671], (-910)); ([27810], (-939)); ([28168], (-543));
   ([29289], (-735)); ([29575], 672); ([29699], (-1267)); ([29983], (-1286)); ([29987], (-1101));
   ([30000], (-2900)); ([30010], 1826); ([30340], 2586); ([30446], 922); ([30465], (-3485));
   ([30476], 2997); ([31354], (-867)); ([31435], (-2112)); ([31532], 788); ([31859], 2937);
   ([31995], 786); ([32004], 2171); ([32076], 1146); ([32113], (-1169)); ([32207], 940);
   ([32218], (-994)); ([32626], 749); ([32773], 2145); ([33021], (-730)); ([33324], (-852));
   ([34892], (-792)); ([35215], 792); ([35686], (-1184)); ([35696], (-244)); ([35895], (-1000));
   ([36062], 730); ([36554], (-1481)); ([36557], 1158); ([36650], (-1433)); ([36796], (-3370));
   ([36817], 929); ([36947], (-1291)); ([36984], 2596); ([37070], (-4866)); ([37117], 1192);
   ([37326], (-1100)); ([37504], (-2213)); ([38263], 357); ([38291], (-2344)); ([38498], (-2297));
   ([38555], (-2604)); ([38651], (-878)); ([38936], (-1659)); ([38988], (-792)); ([39208], (-1984));
   ([39318], 1749); ([39640], 2120); ([65378], 1895); ([65379], 3798); ([65381], (-4371));
   ([65391], (-724)); ([65392], (-11870)); ([65398], 2145); ([65402], 1789); ([65406], 1287);
   ([65412], (-403)); ([65426], (-1635)); ([65431], (-881)); ([65432], (-541)); ([65433], (-856));
   ([65437], (-3637))].

Definition UW5__ : table :=
  [([44], 465); ([46], (-299)); ([49], (-514)); ([69;50], (-32768)); ([93], (-2762)); ([12289], 465);
   ([12290], (-299)); ([12300], 363); ([12354], 1655); ([12356], 331); ([12358], (-503));
   ([12360], 1199); ([12362], 527); ([12363], 647); ([12364], (-421)); ([12365], 1624); ([12366], 1971);
   ([12367], 312); ([12370], (-983)); ([12373], (-1537)); ([12375], (-1371)); ([12377], (-852));
   ([12384], (-1186)); ([12385], 1093); ([12387], 52); ([12388], 921); ([12390], (-18));
   ([12391], (-850)); ([12392], (-127)); ([12393], 1682); ([12394], (-787)); ([12395], (-1224));
   ([12398], (-635)); ([12399], (-578)); ([12409], 1001); ([12415], 502); ([12417], 865);
   ([12419], 3350); ([12423], 854); ([12426], (-208)); ([12427], 429); ([12428], 504); ([12431], 419);
   ([12434], (-1264)); ([12435], 327); ([12452], 241); ([12523], 451); ([12531], (-343));
   ([20013], (-871)); ([20140], 722); ([20250], (-1153)); ([20826], (-654)); ([21209], 3519);
   ([21306], (-901)); ([21578], 848); ([21729], 2104); ([22823], (-1296)); ([23398], (-548));
   ([23450], 1785); ([23888], (-1304)); ([24066], (-2991)); ([24109], 921); ([24180], 1763);
   ([24605], 872); ([25152], (-814)); ([25369], 1618); ([26032], (-1682)); ([26085], 218);
   ([26376], (-4353)); ([26619], 932); ([26684], 1356); ([27231], (-1508)); ([27663], (-1347));
   ([30000], 240); ([30010], (-3912)); ([30340], (-3149)); ([30456], 1319); ([30465], (-1052));
   ([30476], (-4003)); ([30740], (-997)); ([31038], (-278)); ([31354], (-813)); ([32113], 1955);
   ([32773], (-2233)); ([34920], 663); ([35486], (-1073)); ([35696], 1219); ([36984], (-1018));
   ([37070], (-368)); ([38263], 786); ([38291], 1191); ([38988], 2368); ([39208], (-689));
   ([65297], (-514)); ([65317;65298], (-32768)); ([65378], 363); ([65394], 241); ([65433], 451);
   ([65437], (-343))].

Definition UW6__ : table :=
  [([44], 227); ([46], 808); ([49], (-270)); ([69;49], 306); ([12289], 227); ([12290], 808);
   ([12354], (-307)); ([12358], 189); ([12363], 241); ([12364], (-73)); ([12367], (-121));
   ([12371], (-200)); ([12376], 1782); ([12377], 383); ([12383], (-428)); ([12387], 573);
   ([12390], (-1014)); ([12391], 101); ([12392], (-105)); ([12394], (-253)); ([12395], (-149));
   ([12398], (-417)); ([12399], (-236)); ([12418], (-206)); ([12426], 187); ([12427], (-135));
   ([12434], 195); ([12523], (-673)); ([12531], (-496)); ([19968], (-277)); ([20013], 201);
   ([20214], (-800)); ([20250], 624); ([21069], 302); ([21306], 1792); ([21729], (-1212));
   ([22996], 798); ([23398], (-960)); ([24066], 887); ([24195], (-695)); ([24460], 535);
   ([26989], (-697)); ([30456], 753); ([31038], (-507)); ([31119], 974); ([31354], (-822));
   ([32773], 1811); ([36899], 463); ([37070], 1082); ([65297], (-270)); ([65317;65297], 306);
   ([65433], (-673)); ([65437], (-496))].
