(* ===== verification/TinySegmenter.v ===== *)
(** The Japanese segmenter of the search index (tinyseg.js): character types,
    the score of a position, and the segmentation of a text. *)
From Stdlib Require Import ZArith Lia.
From stdpp Require Import base gmap strings list.
From S2P Require Import Prelude JsString JsRegExp TinyTables.

Local Open Scope Z_scope.
Open Scope js_scope.

(** The sources of the character classes and the type of each, in the order in
    which they are tried. *)
Definition patterns : list (jsstr * jsstr) :=
  [([91; 19968; 20108; 19977; 22235; 20116; 20845; 19971; 20843; 20061; 21313; 30334; 21315; 19975; 20740; 20806; 93], js "M");
   ([91; 19968; 45; 40864; 12293; 12294; 12533; 12534; 93], js "H");
   ([91; 12353; 45; 12435; 93], js "I");
   ([91; 12449; 45; 12532; 12540; 65393; 45; 65437; 65438; 65392; 93], js "K");
   ([91; 97; 45; 122; 65; 45; 90; 65345; 45; 65370; 65313; 45; 65338; 93], js "A");
   ([91; 48; 45; 57; 65296; 45; 65305; 93], js "N")].

(** [this.chartype_]. *)
Definition chartype_ : list (option re * jsstr) := map (fun '(src, t) => (newRegExp src, t)) patterns.

(** [ctype_(str)]. *)
Definition ctype_ (str : jsstr) : jsstr :=
  match filter (fun '(r, _) => match r with Some r => re_test r str | None => false end = true) chartype_ with
  | (_, t) :: _ => t
  | [] => js "O"
  end.

(** [ts_(table[key])]. *)
Fixpoint lookupTable (t : table) (key : jsstr) : option Z :=
  match t with
  | [] => None
  | (k, v) :: t' => if str_eqb k key then Some v else lookupTable t' key
  end.
Definition ts_ (v : option Z) : Z := default 0 v.
Definition wt (t : table) (key : jsstr) : Z := ts_ (lookupTable t key).

(** The score of a boundary before [w4], from the characters, their types and
    the last three decisions. *)
Definition score (p1 p2 p3 w1 w2 w3 w4 w5 w6 c1 c2 c3 c4 c5 c6 : jsstr) : Z :=
  BIAS__
  + wt UP1__ p1 + wt UP2__ p2 + wt UP3__ p3 + wt BP1__ (p1 ++ p2) + wt BP2__ (p2 ++ p3)
  + wt UW1__ w1 + wt UW2__ w2 + wt UW3__ w3 + wt UW4__ w4 + wt UW5__ w5 + wt UW6__ w6
  + wt BW1__ (w2 ++ w3) + wt BW2__ (w3 ++ w4) + wt BW3__ (w4 ++ w5)
  + wt TW1__ (w1 ++ w2 ++ w3) + wt TW2__ (w2 ++ w3 ++ w4) + wt TW3__ (w3 ++ w4 ++ w5) + wt TW4__ (w4 ++ w5 ++ w6)
  + wt UC1__ c1 + wt UC2__ c2 + wt UC3__ c3 + wt UC4__ c4 + wt UC5__ c5 + wt UC6__ c6
  + wt BC1__ (c2 ++ c3) + wt BC2__ (c3 ++ c4) + wt BC3__ (c4 ++ c5)
  + wt TC1__ (c1 ++ c2 ++ c3) + wt TC2__ (c2 ++ c3 ++ c4) + wt TC3__ (c3 ++ c4 ++ c5) + wt TC4__ (c4 ++ c5 ++ c6)
  + wt UQ1__ (p1 ++ c1) + wt UQ2__ (p2 ++ c2) + wt UQ3__ (p3 ++ c3)
  + wt BQ1__ (p2 ++ c2 ++ c3) + wt BQ2__ (p2 ++ c3 ++ c4) + wt BQ3__ (p3 ++ c2 ++ c3) + wt BQ4__ (p3 ++ c3 ++ c4)
  + wt TQ1__ (p2 ++ c1 ++ c2 ++ c3) + wt TQ2__ (p2 ++ c2 ++ c3 ++ c4)
  + wt TQ3__ (p3 ++ c1 ++ c2 ++ c3) + wt TQ4__ (p3 ++ c2 ++ c3 ++ c4).

(** The variables of the loop of [segment]. *)
Record segState := mkSeg { sg_result : list jsstr; sg_word : jsstr; sg_p1 : jsstr; sg_p2 : jsstr; sg_p3 : jsstr }.

(** [seg[i]] and [ctype[i]], which are in range. *)
Definition at_ (l : list jsstr) (i : Z) : jsstr := default [] (l !!z i).

(** The end of an iteration: a boundary before the character [w] when the
    score is positive. *)
Definition boundary (sc : Z) (w : jsstr) (s : segState) : segState :=
  let '(result, word, p) :=
    if 0 <? sc then (sg_result s ++ [sg_word s], [], js "B") else (sg_result s, sg_word s, js "O") in
  mkSeg result (word ++ w) (sg_p2 s) (sg_p3 s) p.

(** One iteration. *)
Definition segStep (seg ctype : list jsstr) (s : segState) (i : Z) : segState :=
  boundary (score (sg_p1 s) (sg_p2 s) (sg_p3 s)
    (at_ seg (i - 3)) (at_ seg (i - 2)) (at_ seg (i - 1)) (at_ seg i) (at_ seg (i + 1)) (at_ seg (i + 2))
    (at_ ctype (i - 3)) (at_ ctype (i - 2)) (at_ ctype (i - 1)) (at_ ctype i) (at_ ctype (i + 1)) (at_ ctype (i + 2)))
    (at_ seg i) s.

(** [input.split("")]. *)
Definition chars (input : jsstr) : list jsstr := map (fun c => [c]) input.

(** [segment(input)]; [None] is null or undefined. *)
Definition segment (input : option jsstr) : list jsstr :=
  match input with
  | None | Some [] => []
  | Some input =>
      let o := chars input in
      let seg := [js "B3"; js "B2"; js "B1"] ++ o ++ [js "E1"; js "E2"; js "E3"] in
      let ctype := [js "O"; js "O"; js "O"] ++ map ctype_ o ++ [js "O"; js "O"; js "O"] in
      let s := fold_left (segStep seg ctype) (zrange 4 (len seg - 4))
                 (mkSeg [] (at_ seg 3) (js "U") (js "U") (js "U")) in
      sg_result s ++ [sg_word s]
  end.

(** * Properties *)

(** No proof looks into the score. *)
#[local] Opaque score.

(** What the loop keeps: the words so far are not empty and concatenate to the
    characters read. *)
Definition segInv (done_ : jsstr) (s : segState) : Prop :=
  concat (sg_result s) ++ sg_word s = done_ /\ sg_word s <> [] /\ Forall (fun w => w <> []) (sg_result s).

Lemma boundary_inv sc c s done_ : segInv done_ s -> segInv (done_ ++ [c]) (boundary sc [c] s).
Proof.
  intros (H1 & H2 & H3). unfold boundary. destruct (0 <? sc); unfold segInv; cbn [sg_result sg_word].
  - rewrite concat_app. cbn. rewrite app_nil_r, H1. split_and!; [done|done|]. apply Forall_app. by repeat constructor.
  - rewrite app_assoc, H1. split_and!; [done|by destruct (sg_word s)|done].
Qed.

Lemma segStep_inv seg ctype s i c done_ :
  at_ seg i = [c] -> segInv done_ s -> segInv (done_ ++ [c]) (segStep seg ctype s i).
Proof.
  intros Hc Hs. unfold segStep. rewrite Hc. apply boundary_inv. exact Hs.
Qed.

Lemma segLoop_inv seg (f : segState -> Z -> segState) pre rest s i :
  (forall s i c w, at_ seg i = [c] -> segInv w s -> segInv (w ++ [c]) (f s i)) ->
  (forall k c, rest !! k = Some c -> at_ seg (i + Z.of_nat k) = [c]) -> segInv pre s ->
  segInv (pre ++ rest) (fold_left f (zrange i (i + len rest - 1)) s).
Proof.
  intros Hf. revert pre s i. induction rest as [|c rest IH]; intros pre s i Hat Hs.
  - unfold zrange. replace (Z.to_nat (i + len [] - 1 - i + 1)) with 0%nat by (unfold len; simpl; lia). by rewrite app_nil_r.
  - rewrite len_cons. pose proof (len_nonneg rest).
    assert (Er : zrange i (i + (len rest + 1) - 1) = i :: zrange (i + 1) (i + 1 + len rest - 1)).
    { unfold zrange. replace (Z.to_nat (i + (len rest + 1) - 1 - i + 1)) with (S (Z.to_nat (i + 1 + len rest - 1 - (i + 1) + 1))) by lia.
      cbn [seq map]. f_equal; [lia|]. rewrite <- seq_shift, map_map. apply map_ext. intros k. lia. }
    rewrite Er. cbn [fold_left]. replace (pre ++ c :: rest) with ((pre ++ [c]) ++ rest) by (by rewrite <- app_assoc).
    apply IH.
    + intros k d Hk. replace (i + 1 + Z.of_nat k) with (i + Z.of_nat (S k)) by lia. by apply Hat.
    + apply Hf; [|done]. specialize (Hat 0%nat c eq_refl). by rewrite Z.add_0_r in Hat.
Qed.

(** C33. Segmentation is lossless: the segments of a text concatenate to the
    text and none of them is empty, whatever the weights decide; null,
    undefined and the empty text have no segments. *)
Theorem segment_lossless (input : option jsstr) :
  concat (segment input) = default [] input /\ Forall (fun w => w <> []) (segment input).
Proof.
  destruct input as [[|c input]|]; [done| |done]. unfold segment.
  set (seg := [js "B3"; js "B2"; js "B1"] ++ chars (c :: input) ++ [js "E1"; js "E2"; js "E3"]).
  set (ctype := [js "O"; js "O"; js "O"] ++ map ctype_ (chars (c :: input)) ++ [js "O"; js "O"; js "O"]).
  assert (Hlen : len seg - 4 = 4 + len input - 1).
  { unfold seg, chars, len. rewrite !length_app, length_map. cbn [length]. lia. }
  rewrite Hlen. 
  pose proof (segLoop_inv seg (segStep seg ctype) [c] input (mkSeg [] (at_ seg 3) (js "U") (js "U") (js "U")) 4
    (segStep_inv seg ctype)) as H.
  destruct H as (H1 & H2 & H3).
  - intros k d Hk. unfold at_, idx. destruct (Z.ltb_spec (4 + Z.of_nat k) 0); [lia|].
    replace (Z.to_nat (4 + Z.of_nat k)) with (4 + k)%nat by lia.
    change seg with ([js "B3"; js "B2"; js "B1"; [c]] ++ (chars input ++ [js "E1"; js "E2"; js "E3"])).
    rewrite lookup_app_r by (simpl; lia). cbn [length]. replace (4 + k - 4)%nat with k by lia. unfold chars.
    rewrite lookup_app_l by (rewrite length_map; by eapply lookup_lt_Some). by rewrite list_lookup_fmap, Hk.
  - split_and!; [done|done|constructor].
  - split.
    + rewrite concat_app. cbn [concat]. by rewrite app_nil_r.
    + apply Forall_app. by repeat constructor.
Qed.

(** The example of the segmenter's documentation: six words. *)
Example segment_example :
  map length (segment (Some [31169; 12398; 21517; 21069; 12399; 20013; 37326; 12391; 12377])) = [1; 1; 2; 1; 2; 2]%nat.
Proof. vm_compute. reflexivity. Qed.
