(* ===== verification/InputSplit.v ===== *)
(** Input splits of a job: how the API cuts an object into byte ranges
    (manager-service/internal/api/handlers.go, [buildInputSplits]) and how a
    worker reads the records of a range (worker-service/internal/worker,
    split.go and download.go).

    Object storage is an argument: [fetch a b] is [GetObject] with the range
    [a, b], read to the end; what it returns is stated by the hypothesis
    [serves].  SHA-256 is an argument as well. *)
From Stdlib Require Import ZArith Lia.
From stdpp Require Import base strings list.
From S2P Require Import Prelude.

Local Open Scope Z_scope.

Abbreviation bytes := (list Z).
Abbreviation NL := 10.

Definition splitReadChunkSize : Z := 1048576.
Definition maxRawRangeBytes : Z := 268435456.

(** [br.ReadBytes('\n')]: the line with its newline, the rest, and whether the
    end of the input came first. *)
Fixpoint readBytes (s : bytes) : bytes * bytes * bool :=
  match s with
  | [] => ([], [], true)
  | c :: s' =>
      if c =? NL then ([c], s', false)
      else let '(line, rest, eof) := readBytes s' in (c :: line, rest, eof)
  end.

Record ScheduleTaskInput := mkInput {
  InputURI : string;
  ByteStart : Z;
  ByteEnd : Z;
  SplitChecksum : string;
}.

(** The composite literal with the URI alone: the whole object. *)
Definition wholeInput (inputURI : string) : list ScheduleTaskInput := [mkInput inputURI 0 0 ""].

Section Storage.
Context (fetch : Z -> Z -> outcome bytes) (sha256hex : bytes -> string).

(** [checksumObjectRange]. *)
Definition checksumObjectRange (start end_ : Z) : outcome string :=
  body ← fetch start end_;
  let expected := end_ - start + 1 in
  if negb (len body =? expected) then Throw "short read"
  else Ret (sha256hex body).

(** The loop of [buildInputSplits]. *)
Fixpoint splitLoop (fuel : nat) (inputURI : string) (splitSize size start : Z)
    (splits : list ScheduleTaskInput) : outcome (list ScheduleTaskInput) :=
  if start <? size then
    match fuel with
    | O => OutOfFuel
    | S fuel =>
        let e := start + splitSize - 1 in
        let e := if size <=? e then size - 1 else e in
        match checksumObjectRange start e with
        | Ret checksum =>
            splitLoop fuel inputURI splitSize size (start + splitSize)
              (splits ++ [mkInput inputURI start e checksum])
        | Throw _ => Ret (wholeInput inputURI)
        | OutOfFuel => OutOfFuel
        end
    end
  else Ret splits.

(** [buildInputSplits]: [target] is the package variable
    [defaultTargetSplitSizeBytes], [stat] the size [StatObject] reports.  Every
    round advances by at least one byte. *)
Definition buildInputSplits (target : Z) (storage : bool) (stat : option Z) (inputURI : string)
    : outcome (list ScheduleTaskInput) :=
  if negb storage then Ret (wholeInput inputURI)
  else
    match stat with
    | None => Ret (wholeInput inputURI)
    | Some size =>
        if size <=? 0 then Ret (wholeInput inputURI)
        else
          let splitSize := if target <=? 0 then 64 * 1024 * 1024 else target in
          splits ← splitLoop (Z.to_nat size) inputURI splitSize size 0 [];
          if bool_decide (splits = []) then Ret (wholeInput inputURI) else Ret splits
    end.

(** [getRawRange]: [n] bounds the chunks; every chunk but the last has at
    least 1 MiB and the total is at most 256 MiB. *)
Fixpoint rawLoop (n : nat) (raw : bytes) (nextStart : Z) : outcome bytes :=
  match n with
  | O => OutOfFuel
  | S n =>
      chunk ← fetch nextStart (nextStart + splitReadChunkSize - 1);
      if bool_decide (chunk = []) then Ret raw
      else
        let raw := raw ++ chunk in
        if maxRawRangeBytes <? len raw then Throw "exceeded without newline"
        else if bool_decide (NL ∈ chunk) then Ret raw
        else if len chunk <? splitReadChunkSize then Throw "reached EOF before newline"
        else rawLoop n raw (nextStart + len chunk)
  end.

Definition getRawRange (start end_ : Z) : outcome bytes :=
  if end_ <? start then Throw "invalid range"
  else rawLoop 258 [] start.

(** [fetchPrecedingByte]. *)
Definition fetchPrecedingByte (start : Z) : outcome bool :=
  if start =? 0 then Ret true
  else
    b ← fetch (start - 1) (start - 1);
    match b with
    | c :: _ => Ret (c =? NL)
    | [] => Throw "fetchPrecedingByte read"
    end.

(** The loop of the reading goroutine: what it writes to the pipe. *)
Fixpoint streamLoop (fuel : nat) (rest : bytes) (byteStart byteEnd offset : Z) : outcome bytes :=
  match fuel with
  | O => OutOfFuel
  | S fuel =>
      let '(line, rest', eof) := readBytes rest in
      let offset := offset + len line in
      if (eof : bool) || (byteEnd <? byteStart + offset) then Ret line
      else out ← streamLoop fuel rest' byteStart byteEnd offset; Ret (line ++ out)
  end.

(** The goroutine, from the bytes of the range. *)
Definition streamSplit (raw : bytes) (byteStart byteEnd : Z) (atBoundary : bool) : outcome bytes :=
  if (0 <? byteStart) && negb atBoundary then
    let '(skipped, rest, eof) := readBytes raw in
    if (eof : bool) then Throw "skip partial line"
    else streamLoop (S (length rest)) rest byteStart byteEnd (len skipped)
  else streamLoop (S (length raw)) raw byteStart byteEnd 0.

(** [validateChecksum]. *)
Definition validateChecksum (data : bytes) (expectedHex : string) : bool :=
  bool_decide (expectedHex = "") || bool_decide (sha256hex data = expectedHex).

(** [readSplitRecordsStreaming], from the parsed location on; [whole] is the
    object without a range. *)
Definition readSplitRecordsStreaming (whole : outcome bytes) (byteStart byteEnd : Z) (checksum : string) : outcome bytes :=
  if byteEnd =? 0 then whole
  else
    rawRange ← getRawRange byteStart byteEnd;
    let rangeLen := byteEnd - byteStart + 1 in
    if negb (bool_decide (checksum = "")) && (rangeLen <=? len rawRange)
       && negb (validateChecksum (take (Z.to_nat rangeLen) rawRange) checksum)
    then Throw "split checksum"
    else
      atBoundary ← if 0 <? byteStart then fetchPrecedingByte byteStart else Ret true;
      streamSplit rawRange byteStart byteEnd atBoundary.

End Storage.

(** * Lines and boundaries *)

(** A position where a line starts (or the end after a newline). *)
Definition lineStart (content : bytes) (q : Z) : Prop := q = 0 \/ idx content (q - 1) = Some NL.

(** The first boundary at or after [k]. *)
Definition cutAt (content : bytes) (k q : Z) : Prop :=
  lineStart content q /\ k <= q /\ forall j, k <= j < q -> ~ lineStart content j.

Lemma cutAt_unique content k q q' : cutAt content k q -> cutAt content k q' -> q = q'.
Proof.
  intros (Hb & Hk & Hn) (Hb' & Hk' & Hn'). destruct (Z.lt_trichotomy q q') as [H|[H|H]]; [|done|].
  - by destruct (Hn' q ltac:(lia)).
  - by destruct (Hn q' ltac:(lia)).
Qed.

Lemma cutAt_self content k : lineStart content k -> cutAt content k k.
Proof. intros H. split_and!; [done|lia|lia]. Qed.

Lemma readBytes_app s line rest eof : readBytes s = (line, rest, eof) -> s = line ++ rest.
Proof.
  revert line rest eof. induction s as [|c s IH]; intros line rest eof; cbn [readBytes]; [by intros [= <- <- <-]|].
  destruct (Z.eqb_spec c NL) as [->|]; [by intros [= <- <- <-]|].
  destruct (readBytes s) as [[l r] e] eqn:E. intros [= <- <- <-]. cbn. f_equal. by eapply IH.
Qed.

Lemma readBytes_line s line rest :
  readBytes s = (line, rest, false) -> exists u, line = u ++ [NL] /\ Forall (fun c => c <> NL) u.
Proof.
  revert line rest. induction s as [|c s IH]; intros line rest; cbn [readBytes]; [done|].
  destruct (Z.eqb_spec c NL) as [->|Hc].
  - intros [= <- <-]. exists []. split; [done|constructor].
  - destruct (readBytes s) as [[l r] []] eqn:E; [done|]. intros [= <- <-].
    destruct (IH l r eq_refl) as (u & -> & Hu). exists (c :: u). split; [done|by constructor].
Qed.

Lemma readBytes_eof s line rest : readBytes s = (line, rest, true) -> Forall (fun c => c <> NL) s /\ line = s /\ rest = [].
Proof.
  revert line rest. induction s as [|c s IH]; intros line rest; cbn [readBytes]; [by intros [= <- <-]|].
  destruct (Z.eqb_spec c NL) as [->|Hc]; [done|].
  destruct (readBytes s) as [[l r] []] eqn:E; [|done]. intros [= <- <-].
  destruct (IH l r eq_refl) as (H1 & -> & ->). split_and!; [by constructor|done|done].
Qed.

(** Fuel above the number of bytes left does not matter. *)
Lemma streamLoop_fuel f f' raw s e o :
  (length raw < f)%nat -> (length raw < f')%nat -> streamLoop f raw s e o = streamLoop f' raw s e o.
Proof.
  revert f' raw o. induction f as [|f IH]; intros [|f'] raw o Hf Hf'; [lia..|]. cbn [streamLoop].
  destruct (readBytes raw) as [[line rest] eof] eqn:E. destruct eof; [done|]. cbn [orb].
  destruct (e <? s + (o + len line)); [done|]. destruct (readBytes_line _ _ _ E) as (u & -> & _).
  apply readBytes_app, (f_equal length) in E. rewrite !length_app in E. simpl in E.
  by rewrite (IH f') by lia.
Qed.

(** A split emits no more than was downloaded. *)
Lemma streamLoop_len fuel raw s e o out : streamLoop fuel raw s e o = Ret out -> len out <= len raw.
Proof.
  revert raw o out. induction fuel as [|fuel IH]; intros raw o out; cbn [streamLoop]; [done|].
  destruct (readBytes raw) as [[line rest] eof] eqn:E. apply readBytes_app in E as ->. rewrite len_app.
  pose proof (len_nonneg rest). case_match; [intros [= <-]; lia|].
  destruct (streamLoop _ rest _ _ _) as [o'| |] eqn:E; [|done..]. rewrite bind_Ret. intros [= <-].
  rewrite len_app. apply IH in E. lia.
Qed.

Lemma streamSplit_len raw s e b out : streamSplit raw s e b = Ret out -> len out <= len raw.
Proof.
  unfold streamSplit. case_match; [|apply streamLoop_len].
  destruct (readBytes raw) as [[line rest] []] eqn:E; [done|]. intros Hs. apply streamLoop_len in Hs.
  apply readBytes_app in E as ->. rewrite len_app. pose proof (len_nonneg line). lia.
Qed.

Section Content.
Context (content : bytes) (Hlast : last content = Some NL).

Abbreviation from p := (drop (Z.to_nat p) content).

Lemma end_boundary : lineStart content (len content).
Proof.
  right. apply last_Some in Hlast as [u ->]. rewrite len_app. change (len [NL]) with 1.
  replace (len u + 1 - 1) with (len u) by lia. apply idx_snoc.
Qed.

(** Reading one line from inside the content. *)
Lemma line_from p :
  0 <= p < len content ->
  exists u, readBytes (from p) = (u ++ [NL], from (p + len u + 1), false) /\
    p + len u + 1 <= len content /\ cutAt content (p + 1) (p + len u + 1).
Proof.
  intros Hp. destruct (readBytes (from p)) as [[line rest] eof] eqn:E.
  pose proof (readBytes_app _ _ _ _ E) as Happ. destruct eof.
  - exfalso. destruct (readBytes_eof _ _ _ E) as (Hno & _ & _). apply last_Some in Hlast as [u Hu].
    rewrite Hu in Hno. rewrite drop_app_le in Hno.
    + apply Forall_app in Hno as [_ Hno]. inversion Hno. done.
    + rewrite Hu in Hp. rewrite len_app in Hp. change (len [NL]) with 1 in Hp. unfold len in Hp. lia.
  - destruct (readBytes_line _ _ _ E) as (u & -> & Hu). exists u.
    assert (Hlen : len (from p) = len u + 1 + len rest) by (by rewrite Happ, !len_app).
    assert (Hfrom : len (from p) = len content - p) by (unfold len in *; rewrite length_drop; lia).
    pose proof (len_nonneg rest). pose proof (len_nonneg u).
    assert (Hidx : forall k, 0 <= k < len u -> idx content (p + k) <> Some NL).
    { intros k Hk. rewrite <- idx_drop by lia. rewrite Happ, <- app_assoc, idx_app_l by lia. intros Hx.
      assert (NL ∈ u) by (apply idx_of_elem; eauto).
      rewrite Forall_forall in Hu. by apply (Hu NL). }
    assert (Hnl : idx content (p + len u) = Some NL).
    { rewrite <- idx_drop by lia. rewrite Happ, <- app_assoc. apply idx_app_here. }
    split_and!; [|lia|].
    + do 2 f_equal. replace (Z.to_nat (p + len u + 1)) with (Z.to_nat p + length (u ++ [NL]))%nat
        by (rewrite length_app; unfold len; simpl; lia).
      rewrite <- drop_drop, Happ. by rewrite drop_app_length.
    + split_and!; [|lia|].
      * right. by replace (p + len u + 1 - 1) with (p + len u) by lia.
      * intros j Hj [->|Hb]; [lia|]. apply (Hidx (j - 1 - p)); [lia|]. by replace (p + (j - 1 - p)) with (j - 1) by lia.
Qed.

(** The bytes between two positions. *)
Definition between (p q : Z) : bytes := take (Z.to_nat (q - p)) (from p).

Lemma between_app p q r : 0 <= p -> p <= q -> q <= r -> between p q ++ between q r = between p r.
Proof.
  intros Hp Hq Hr. unfold between. replace (Z.to_nat (r - p)) with (Z.to_nat (q - p) + Z.to_nat (r - q))%nat by lia.
  replace (from q) with (drop (Z.to_nat (q - p)) (from p)) by (rewrite drop_drop; f_equal; lia).
  apply take_add_drop.
Qed.

Lemma between_line p u :
  0 <= p -> readBytes (from p) = (u ++ [NL], from (p + len u + 1), false) -> u ++ [NL] = between p (p + len u + 1).
Proof.
  intros Hp E. apply readBytes_app in E. unfold between. rewrite E.
  replace (Z.to_nat (p + len u + 1 - p)) with (length (u ++ [NL])) by (rewrite length_app; unfold len; simpl; lia).
  by rewrite take_app_length.
Qed.

(** The same read when only the first [n] bytes were downloaded. *)
Lemma readBytes_take raw n line rest :
  readBytes raw = (line, rest, false) -> len line <= n ->
  readBytes (take (Z.to_nat n) raw) = (line, take (Z.to_nat (n - len line)) rest, false).
Proof.
  intros E Hn. destruct (readBytes_line _ _ _ E) as (u & -> & Hu). apply readBytes_app in E as ->.
  rewrite len_app in Hn. change (len [NL]) with 1 in Hn. pose proof (len_nonneg u).
  replace (Z.to_nat n) with (length (u ++ [NL]) + Z.to_nat (n - len (u ++ [NL])))%nat
    by (rewrite len_app, length_app; change (len [NL]) with 1; unfold len in *; simpl; lia).
  rewrite take_app_add, <- !app_assoc. cbn [app].
  generalize (take (Z.to_nat (n - len (u ++ [NL]))) rest). intros t. clear -Hu. induction Hu as [|c u Hc Hu IH]; [done|].
  cbn. destruct (Z.eqb_spec c NL); [done|]. by rewrite IH.
Qed.

(** The reading loop from a boundary inside the range: the lines up to the
    first boundary after the range. *)
Lemma streamLoop_ok fuel s e p q n :
  0 <= p <= e -> e < len content -> cutAt content (e + 1) q -> q <= p + n -> (length (from p) < fuel)%nat ->
  streamLoop fuel (take (Z.to_nat n) (from p)) s e (p - s) = Ret (between p q).
Proof.
  revert p n. induction fuel as [|fuel IH]; intros p n Hp He Hq Hn Hf; [lia|]. cbn [streamLoop].
  destruct (line_from p ltac:(lia)) as (u & E & Hle & Hcut). pose proof (between_line p u ltac:(lia) E) as Hline.
  assert (Hlen : len (u ++ [NL]) = len u + 1) by (by rewrite len_app).
  set (p' := p + len u + 1) in *. pose proof (len_nonneg u).
  assert (Hend : p' <= q /\ (e < p' -> p' = q)).
  { destruct (Z.le_gt_cases p' e); [destruct Hq as (_ & ? & _); lia|]. assert (p' = q); [|lia].
    destruct Hcut as (Hb & _ & Hno). apply (cutAt_unique content (e + 1)); [|done].
    split_and!; [done|lia|]. intros j Hj. apply Hno. lia. }
  rewrite (readBytes_take _ _ _ _ E) by lia. cbn [orb]. rewrite Hlen.
  replace (s + (p - s + (len u + 1))) with p' by lia. destruct (Z.ltb_spec e p') as [Hlt|Hge].
  - rewrite Hline. do 2 f_equal. by apply Hend.
  - replace (p - s + (len u + 1)) with (p' - s) by lia. rewrite IH; [|lia|done|done|lia|].
    + rewrite bind_Ret, Hline. f_equal. apply between_app; lia.
    + apply readBytes_app in E. apply (f_equal length) in E. rewrite !length_app in E. simpl in E. lia.
Qed.

(** What [fetchPrecedingByte] finds. *)
Definition atLineStart (s : Z) : bool := (s =? 0) || bool_decide (idx content (s - 1) = Some NL).

Lemma atLineStart_boundary s : atLineStart s = true <-> lineStart content s.
Proof. unfold atLineStart, lineStart. rewrite orb_true_iff, Z.eqb_eq, bool_decide_eq_true. done. Qed.

(** One split: the lines that start in it, given that it has a line start or
    reaches the end, and that the download reaches the end of its last line. *)
Lemma streamSplit_ok s e p q n :
  0 <= s <= e -> e < len content -> cutAt content s p -> cutAt content (e + 1) q ->
  p <= e \/ p = len content -> q <= s + n ->
  streamSplit (take (Z.to_nat n) (from s)) s e (atLineStart s) = Ret (between p q).
Proof.
  intros Hs He Hp Hq Hin Hn. unfold streamSplit. destruct (atLineStart s) eqn:Ea.
  - rewrite andb_false_r. apply atLineStart_boundary in Ea.
    assert (p = s) as -> by (by apply (cutAt_unique content s); [|apply cutAt_self]).
    replace 0 with (s - s) by lia. rewrite <- (streamLoop_fuel (S (length (from s)))) by (rewrite length_take; lia).
    apply streamLoop_ok; [lia|done|done|done|lia].
  - assert (Hs0 : 0 < s). { destruct (Z.eq_dec s 0) as [->|]; [done|lia]. }
    replace (0 <? s) with true by (symmetry; apply Z.ltb_lt; lia). cbn [negb andb].
    destruct (line_from s ltac:(lia)) as (u & E & Hle & Hcut). pose proof (len_nonneg u).
    assert (Hlen : len (u ++ [NL]) = len u + 1) by (by rewrite len_app).
    assert (Hp' : p = s + len u + 1).
    { apply (cutAt_unique content s); [done|]. destruct Hcut as (Hb & ? & Hno). split_and!; [done|lia|].
      intros j Hj Hbj. destruct (Z.eq_dec j s) as [->|]; [|by apply (Hno j); [lia|]].
      apply atLineStart_boundary in Hbj. congruence. }
    assert (Hpq : p <= q).
    { destruct Hin as [|Hpl]; [destruct Hq as (_ & ? & _); lia|]. apply Z.nlt_ge. intros Hlt.
      destruct Hp as (_ & _ & Hno). apply (Hno q); [destruct Hq as (_ & ? & _); lia|apply Hq]. }
    rewrite (readBytes_take _ _ _ _ E) by lia. rewrite Hlen, <- Hp'. replace (len u + 1) with (p - s) by lia.
    rewrite <- (streamLoop_fuel (S (length (from p)))) by (rewrite length_take; lia).
    destruct (decide (p <= e)) as [Hpe|Hpe]; [apply streamLoop_ok; [lia|done|done|lia|lia]|].
    destruct Hin as [|Hpl]; [done|]. assert (q = p) as ->.
    { apply (cutAt_unique content (e + 1)); [done|]. split_and!; [apply Hp|lia|]. intros j Hj. apply Hp. lia. }
    unfold between. rewrite Z.sub_diag, Hpl. unfold len. by rewrite Nat2Z.id, drop_all, take_nil.
Qed.

(** Every record, its newline included, has at most [k] bytes. *)
Definition linesFit (k : Z) : Prop :=
  forall a, 0 <= a -> a + k <= len content -> exists j, a <= j < a + k /\ idx content j = Some NL.

Lemma cutAt_exists k : 0 <= k <= len content -> exists q, cutAt content k q /\ k <= q <= len content.
Proof.
  intros Hk. destruct (decide (k = len content)) as [->|Hne].
  { exists (len content). split; [apply cutAt_self, end_boundary|lia]. }
  destruct (atLineStart k) eqn:Ea.
  - exists k. split; [by apply cutAt_self, atLineStart_boundary|lia].
  - destruct (line_from k ltac:(lia)) as (u & _ & Hle & Hb & Hge & Hno). exists (k + len u + 1). split; [|lia].
    split_and!; [done|lia|]. intros j Hj Hbj. destruct (Z.eq_dec j k) as [->|]; [|by apply (Hno j); [lia|]].
    apply atLineStart_boundary in Hbj. congruence.
Qed.

(** The first line start of a full range lies in it. *)
Lemma cutAt_fits k s p : linesFit k -> 0 < k -> 0 <= s -> s + k <= len content -> cutAt content s p -> p <= s + k - 1.
Proof.
  intros Hfit Hk Hs Hle (_ & _ & Hno). destruct (Z.eq_dec s 0) as [->|].
  - apply Z.nlt_ge. intros Hlt. apply (Hno 0); [lia|by left].
  - destruct (Hfit (s - 1)) as (j & Hj & Hx); [lia|lia|]. apply Z.nlt_ge. intros Hlt.
    apply (Hno (j + 1)); [lia|]. right. by replace (j + 1 - 1) with j by lia.
Qed.

(** A [GetObject] range request that starts inside the object returns its
    bytes, up to the end of the object. *)
Definition serves (fetch : Z -> Z -> outcome bytes) : Prop :=
  forall a b, 0 <= a <= b -> a < len content -> fetch a b = Ret (between a (b + 1)).

Lemma len_between p q : 0 <= p -> p <= q -> q <= len content -> len (between p q) = q - p.
Proof. intros. unfold between, len in *. rewrite length_take, length_drop. lia. Qed.

Section Served.
Context (fetch : Z -> Z -> outcome bytes) (sha256hex : bytes -> string) (Hserve : serves fetch).

Lemma checksum_ok s e : 0 <= s <= e -> e < len content ->
  checksumObjectRange fetch sha256hex s e = Ret (sha256hex (between s (e + 1))).
Proof.
  intros Hs He. unfold checksumObjectRange. rewrite Hserve by lia. rewrite bind_Ret, len_between by lia.
  by replace (e + 1 - s =? e - s + 1) with true by (symmetry; apply Z.eqb_eq; lia).
Qed.

(** A reader that emits, for every split of at most [k] bytes, the lines that
    start in it. *)
Definition readsSplits (k : Z) (read : ScheduleTaskInput -> outcome bytes) : Prop :=
  forall uri s e p q, 0 <= s <= e -> e < len content -> e = s + k - 1 \/ e = len content - 1 /\ e < s + k - 1 ->
    cutAt content s p -> cutAt content (e + 1) q -> p <= e \/ p = len content -> q <= e + k ->
    read (mkInput uri s e (sha256hex (between s (e + 1)))) = Ret (between p q).

(** The rounds from [start] on: the splits they add emit the lines that start
    at or after [start]. *)
Lemma splitLoop_ok read fuel uri k start p acc :
  readsSplits k read -> 0 < k -> linesFit k -> 0 <= start ->
  cutAt content start p \/ len content <= start /\ p = len content ->
  (Z.to_nat (len content - start) <= fuel)%nat ->
  exists ts outs, splitLoop fetch sha256hex fuel uri k (len content) start acc = Ret (acc ++ ts) /\
    mapO read ts = Ret outs /\ concat outs = between p (len content) /\
    (start < len content -> ts <> []).
Proof.
  intros Hread Hk Hfit. revert start p acc. induction fuel as [|fuel IH]; intros start p acc Hs Hp Hf;
    cbn [splitLoop]; destruct (Z.ltb_spec start (len content)) as [Hlt|Hge]; try lia.
  1, 3: exists [], []; rewrite app_nil_r; split_and!; [done|done| |lia]; unfold between, concat;
    replace (Z.to_nat (len content - p)) with O; [done|];
    destruct Hp as [(_ & ? & _)|[_ ->]]; lia.
  destruct Hp as [Hp|[? _]]; [|lia].
  set (e := if len content <=? start + k - 1 then len content - 1 else start + k - 1).
  assert (He : start <= e < len content /\ (e = start + k - 1 /\ start + k <= len content \/ e = len content - 1 /\ len content < start + k)).
  { unfold e. destruct (Z.leb_spec (len content) (start + k - 1)); lia. }
  rewrite checksum_ok by lia.
  destruct (cutAt_exists (e + 1)) as (q & Hq & Hqle); [lia|].
  destruct (IH (start + k) q (acc ++ [mkInput uri start e (sha256hex (between start (e + 1)))])) as (ts & outs & -> & Hm & Hc & _);
    [lia| |lia|].
  { destruct He as [_ [[-> ?]|[-> ?]]]; [left; by replace (start + k) with (start + k - 1 + 1) by lia|right; lia]. }
  assert (Hple : p <= q /\ (p <= e \/ p = len content) /\ q <= e + k).
  { destruct (cutAt_exists start) as (p' & Hp' & ?); [lia|]. rewrite (cutAt_unique _ _ _ _ Hp Hp').
    assert (q <= e + k).
    { destruct (Z.le_gt_cases (e + 1 + k) (len content)); [|lia].
      pose proof (cutAt_fits k (e + 1) q Hfit Hk ltac:(lia) ltac:(lia) Hq). lia. }
    destruct He as [_ [[-> ?]|[-> ?]]]; [pose proof (cutAt_fits k start p' Hfit); naive_solver lia|lia]. }
  eexists (_ :: ts), (between p q :: outs). rewrite <- app_assoc. split_and!; [done| | |done].
  - cbn [mapO]. rewrite (Hread uri start e p q) by (done || tauto || lia). by rewrite bind_Ret, Hm.
  - cbn. rewrite Hc. apply between_app; [|lia|lia]. destruct Hp as (_ & ? & _). lia.
Qed.

Lemma buildInputSplits_ok read uri k :
  readsSplits k read -> 0 < k -> linesFit k ->
  exists ts outs, buildInputSplits fetch sha256hex k true (Some (len content)) uri = Ret ts /\
    mapO read ts = Ret outs /\ concat outs = content.
Proof.
  intros Hread Hk Hfit. pose proof (len_nonneg content) as Hlen.
  assert (Hpos : 0 < len content) by (destruct content; [done|rewrite len_cons; pose proof (len_nonneg l); lia]).
  unfold buildInputSplits. cbn [negb]. rewrite (proj2 (Z.leb_gt _ _)) by lia. rewrite (proj2 (Z.leb_gt k 0)) by lia.
  destruct (splitLoop_ok read (Z.to_nat (len content)) uri k 0 0 []) as (ts & outs & -> & Hm & Hc & Hne);
    [done|done|done|lia|left; apply cutAt_self; by left|lia|].
  exists ts, outs. rewrite bind_Ret, bool_decide_eq_false_2 by (by apply Hne). split_and!; [done|done|].
  rewrite Hc. unfold between, len. rewrite Z.sub_0_r, Nat2Z.id. apply take_ge. simpl. lia.
Qed.

(** The download of a range whose first 1 MiB has a newline: that 1 MiB. *)
Lemma rawLoop_first n s :
  0 <= s < len content -> NL ∈ between s (s + splitReadChunkSize) ->
  rawLoop fetch (S n) [] s = Ret (between s (s + splitReadChunkSize)).
Proof.
  intros Hs Hin. assert (Hpos : 0 < splitReadChunkSize) by done. cbn [rawLoop].
  assert (Hle : len (between s (s + splitReadChunkSize)) <= maxRawRangeBytes).
  { unfold between, len, splitReadChunkSize, maxRawRangeBytes. rewrite length_take. lia. }
  rewrite Hserve by lia. replace (s + splitReadChunkSize - 1 + 1) with (s + splitReadChunkSize) by lia.
  revert Hin Hle. generalize (between s (s + splitReadChunkSize)). intros chunk Hin Hle. rewrite bind_Ret.
  rewrite bool_decide_eq_false_2 by (intros ->; by apply elem_of_nil in Hin). rewrite app_nil_l.
  by rewrite (proj2 (Z.ltb_ge _ _)), bool_decide_eq_true_2.
Qed.

Lemma getRawRange_first s e :
  0 <= s <= e -> s < len content -> NL ∈ between s (s + splitReadChunkSize) ->
  getRawRange fetch s e = Ret (between s (s + splitReadChunkSize)).
Proof.
  intros Hs Hl Hin. unfold getRawRange. rewrite (proj2 (Z.ltb_ge e s)) by lia. apply rawLoop_first; [lia|done].
Qed.

Lemma fetchPrecedingByte_ok s : 0 < s <= len content -> fetchPrecedingByte fetch s = Ret (atLineStart s).
Proof.
  intros Hs. unfold fetchPrecedingByte, atLineStart. rewrite (proj2 (Z.eqb_neq s 0)), Hserve by lia. rewrite bind_Ret.
  destruct (idx_is_Some content (s - 1)) as [c Hc]; [lia|]. rewrite Hc. unfold between.
  replace (Z.to_nat (s - 1 + 1 - (s - 1))) with 1%nat by lia.
  rewrite <- (Z.add_0_r (s - 1)), <- idx_drop in Hc by lia. destruct (from (s - 1)) as [|c' r]; [done|].
  injection Hc as ->. cbn. f_equal. destruct (Z.eqb_spec c NL) as [->|]; [done|].
  symmetry. apply bool_decide_eq_false_2. congruence.
Qed.

Lemma NL_in_chunk s q n : 0 <= s < q -> q <= s + n -> idx content (q - 1) = Some NL -> NL ∈ between s (s + n).
Proof.
  intros Hs Hq Hx. apply idx_of_elem. exists (q - 1 - s). unfold between.
  rewrite idx_take, idx_drop by lia. by replace (s + (q - 1 - s)) with (q - 1) by lia.
Qed.

Lemma checksum_passes s e n : 0 <= s <= e -> e < s + n ->
  validateChecksum sha256hex (take (Z.to_nat (e - s + 1)) (between s (s + n))) (sha256hex (between s (e + 1))) = true.
Proof.
  intros Hs He. unfold validateChecksum, between. rewrite take_take.
  replace (Z.to_nat (e - s + 1) `min` Z.to_nat (s + n - s))%nat with (Z.to_nat (e + 1 - s)) by lia.
  apply orb_true_intro. right. by apply bool_decide_eq_true_2.
Qed.

(** The whole reader of a split, when the line that crosses its end is in the
    first chunk. *)
Lemma streaming_reads whole k :
  1 < k -> 2 * k <= splitReadChunkSize -> whole = Ret content ->
  readsSplits k (fun t => readSplitRecordsStreaming fetch sha256hex whole (ByteStart t) (ByteEnd t) (SplitChecksum t)).
Proof.
  intros Hk Hk2 -> uri s e p q Hs He Hse Hp Hq Hin Hqk. cbn [ByteStart ByteEnd SplitChecksum].
  unfold readSplitRecordsStreaming. destruct (Z.eqb_spec e 0) as [->|He0].
  { assert (s = 0 /\ len content = 1) as [-> Hl1] by lia.
    assert (p = 0) as -> by (apply (cutAt_unique content 0); [done|apply cutAt_self; by left]).
    assert (q = 1) as -> by (apply (cutAt_unique content 1); [done|rewrite <- Hl1; apply cutAt_self, end_boundary]).
    unfold between. change (Z.to_nat (1 - 0)) with 1%nat. change (Z.to_nat 0) with 0%nat. rewrite drop_0.
    unfold len in Hl1. by rewrite take_ge by lia. }
  assert (Hqs : q <= s + splitReadChunkSize) by lia.
  rewrite getRawRange_first, bind_Ret by (lia || (destruct Hq as ([->|Hq] & ? & _); [lia|by apply (NL_in_chunk s q); [lia|lia|]])).
  rewrite checksum_passes by lia. rewrite andb_false_r.
  replace (if 0 <? s then fetchPrecedingByte fetch s else Ret true) with (Ret (atLineStart s)).
  - rewrite bind_Ret. unfold between at 1. replace (s + splitReadChunkSize - s) with splitReadChunkSize by lia.
    apply streamSplit_ok; (done || lia).
  - destruct (Z.ltb_spec 0 s); [symmetry; apply fetchPrecedingByte_ok; lia|]. by replace s with 0 by lia.
Qed.

End Served.
End Content.

(** C24. The manager's splits and the worker's reader, end to end.  For an object that
    ends in a newline and whose records are no longer than a split, and for targets of 2
    bytes up to 512 KiB, the ranged downloads, the checksums, the boundary probes and
    the line loops of all splits succeed and emit every record exactly once. *)
Theorem splits_read_back target content uri fetch sha256hex :
  1 < target -> 2 * target <= splitReadChunkSize ->
  last content = Some NL -> linesFit content target -> serves content fetch ->
  exists ts outs, buildInputSplits fetch sha256hex target true (Some (len content)) uri = Ret ts /\
    mapO (fun t => readSplitRecordsStreaming fetch sha256hex (Ret content) (ByteStart t) (ByteEnd t) (SplitChecksum t)) ts
      = Ret outs /\ concat outs = content.
Proof. intros Ht Ht2 Hl Hf Hs. apply buildInputSplits_ok; try done; [|lia]. by apply streaming_reads. Qed.

(** C25. A split of more than 1 MiB whose first 1 MiB has a newline is read
    short: the download stops after one chunk whatever [byteEnd] is, the
    checksum is not compared (any value is accepted), and at most 1 MiB is
    emitted, although the range has more. *)
Theorem large_split_truncated content fetch sha256hex s e checksum out :
  serves content fetch -> 0 <= s -> s + splitReadChunkSize <= e < len content ->
  NL ∈ between content s (s + splitReadChunkSize) ->
  readSplitRecordsStreaming fetch sha256hex (Ret content) s e checksum = Ret out ->
  len out <= splitReadChunkSize < e - s + 1 /\
  forall checksum', readSplitRecordsStreaming fetch sha256hex (Ret content) s e checksum' = Ret out.
Proof.
  intros Hserve Hs He Hnl. unfold readSplitRecordsStreaming. assert (0 < splitReadChunkSize) by done.
  rewrite (proj2 (Z.eqb_neq e 0)) by lia. rewrite (getRawRange_first content) by (done || lia). rewrite !bind_Ret.
  assert (Hlen : len (between content s (s + splitReadChunkSize)) = splitReadChunkSize) by (rewrite len_between; lia).
  assert (Hcmp : (e - s + 1 <=? splitReadChunkSize) = false) by (apply Z.leb_gt; lia).
  rewrite Hlen, Hcmp, andb_false_r.
  intros Hout. split; [split; [|lia]|intros c; by rewrite bind_Ret, Hlen, Hcmp, andb_false_r].
  revert Hout. destruct (if 0 <? s then _ else _); [|done..]. rewrite bind_Ret. intros Hout%streamSplit_len. lia.
Qed.

(** * Concrete objects *)

(** Storage that holds [content]. *)
Definition storeOf (content : bytes) (a b : Z) : outcome bytes := Ret (between content a (b + 1)).

Lemma storeOf_serves content : serves content (storeOf content).
Proof. by intros a b _ _. Qed.

(** A checksum for the examples: the length, in unary. *)
Fixpoint unaryLen (l : bytes) : string :=
  match l with [] => EmptyString | _ :: l => String.String (Ascii.ascii_of_nat 49) (unaryLen l) end.

Definition threeLines : bytes := [97; NL; 98; 98; NL; 99; NL].

Lemma threeLines_fit : linesFit threeLines 3.
Proof.
  intros a Ha Hle. change (len threeLines) with 7 in Hle.
  assert (a = 0 \/ a = 1 \/ a = 2 \/ a = 3 \/ a = 4) as [-> | [-> | [-> | [-> | ->] ] ] ] by lia;
    [exists 1|exists 1|exists 4|exists 4|exists 4]; split; (lia || done).
Qed.

Lemma splits_read_back_witness :
  exists ts outs, buildInputSplits (storeOf threeLines) unaryLen 3 true (Some 7) "s3://b/k" = Ret ts /\
    mapO (fun t => readSplitRecordsStreaming (storeOf threeLines) unaryLen (Ret threeLines)
                     (ByteStart t) (ByteEnd t) (SplitChecksum t)) ts = Ret outs /\ concat outs = threeLines.
Proof.
  apply (splits_read_back 3 threeLines "s3://b/k" (storeOf threeLines) unaryLen);
    [lia|unfold splitReadChunkSize; lia|reflexivity|exact threeLines_fit|apply storeOf_serves].
Defined.

(** Two million empty records: a single split under the default target. *)
Definition manyLines : bytes := replicate (Z.to_nat 2000000) NL.

Lemma len_manyLines : len manyLines = 2000000.
Proof. unfold len, manyLines. rewrite length_replicate. lia. Qed.

Lemma NL_manyLines : NL ∈ between manyLines 0 (0 + splitReadChunkSize).
Proof.
  apply (NL_in_chunk manyLines 0 1); [lia|unfold splitReadChunkSize; lia|]. unfold idx, manyLines. cbn [Z.ltb Z.compare Z.sub].
  apply lookup_replicate_2. lia.
Qed.

(** A line of newlines is read one newline at a time. *)
Lemma streamLoop_newlines n e o fuel :
  (n < fuel)%nat -> exists out, streamLoop fuel (replicate n NL) 0 e o = Ret out.
Proof.
  revert o fuel. induction n as [|n IH]; intros o [|fuel] Hf; [lia|cbn; eauto|lia|].
  cbn [replicate streamLoop readBytes]. change (NL =? NL) with true. cbn [orb].
  destruct (e <? 0 + (o + len [NL])); [eauto|].
  destruct (IH (o + len [NL]) fuel) as [out ->]; [lia|]. rewrite bind_Ret. eauto.
Qed.

Lemma manyLines_read e checksum :
  0 + splitReadChunkSize <= e < 2000000 ->
  exists out, readSplitRecordsStreaming (storeOf manyLines) unaryLen (Ret manyLines) 0 e checksum = Ret out.
Proof.
  intros He. unfold readSplitRecordsStreaming. assert (0 < splitReadChunkSize) by done.
  rewrite (proj2 (Z.eqb_neq e 0)) by lia.
  rewrite (getRawRange_first manyLines (storeOf manyLines) (storeOf_serves _)) by (exact NL_manyLines || rewrite ?len_manyLines; lia).
  rewrite bind_Ret. rewrite len_between by (rewrite ?len_manyLines; unfold splitReadChunkSize; lia).
  rewrite (proj2 (Z.leb_gt _ _)) by lia. rewrite andb_false_r. cbn [andb Z.ltb Z.compare]. rewrite bind_Ret.
  unfold streamSplit. cbn [andb Z.ltb Z.compare]. unfold between, manyLines.
  rewrite drop_replicate, take_replicate, length_replicate. apply streamLoop_newlines. lia.
Qed.

Lemma large_split_truncated_witness :
  exists out, readSplitRecordsStreaming (storeOf manyLines) unaryLen (Ret manyLines) 0 1999999 "bad" = Ret out /\
    len out <= splitReadChunkSize < 1999999 - 0 + 1 /\
    forall checksum', readSplitRecordsStreaming (storeOf manyLines) unaryLen (Ret manyLines) 0 1999999 checksum' = Ret out.
Proof.
  destruct (manyLines_read 1999999 "bad") as [out Hout]; [unfold splitReadChunkSize; lia|].
  exists out. split; [exact Hout|].
  apply (large_split_truncated manyLines (storeOf manyLines) unaryLen 0 1999999 "bad" out);
    [apply storeOf_serves|lia|rewrite len_manyLines; unfold splitReadChunkSize; lia|exact NL_manyLines|exact Hout].
Defined.

(** A record that covers a whole split makes two splits emit the record after
    it: the loop reads a line before it tests [byteEnd]. *)
Lemma long_line_duplicated :
  let object := [97; 97; 97; 97; NL; 98; NL] in
  buildInputSplits (storeOf object) unaryLen 2 true (Some 7) "u" ≫= (fun ts =>
    mapO (fun t => readSplitRecordsStreaming (storeOf object) unaryLen (Ret object) (ByteStart t) (ByteEnd t) (SplitChecksum t)) ts)
  = Ret [[97; 97; 97; 97; NL]; [98; NL]; [98; NL]; []].
Proof. vm_compute. reflexivity. Qed.
