(* ===== verification/Shuffle.v ===== *)
(** The shuffle of the worker (worker-service/internal/shuffle/merge.go): the
    external merge of sorted JSONL streams with a heap, in passes of bounded
    width.

    Streams and files are byte lists that are read without I/O errors; what
    [json.Unmarshal] makes of a line is an argument, what the encoder writes and
    what [bufio.Scanner] and [container/heap] do is modelled. *)
From Stdlib Require Import ZArith Lia.
From stdpp Require Import base gmap strings list.
From S2P Require Import Prelude JsString InputSplit.

Local Open Scope Z_scope.
Open Scope js_scope.

(** [Record]. *)
Record KV := mkKV { Key : bytes; Value : bytes }.
#[export] Instance KV_eq_dec : EqDecision KV.
Proof. solve_decision. Defined.

(** * The JSON of a record *)

Definition hexDigitByte (d : Z) : Z := if d <? 10 then 48 + d else 87 + d.

(** The escape of a byte below 0x80 that is not in the set of safe ones. *)
Definition htmlSafe (b : Z) : bool := (32 <=? b) && negb (bool_decide (b ∈ [34; 38; 60; 62; 92])).
Definition escapeByte (b : Z) : bytes :=
  if (b =? 92) || (b =? 34) then [92; b]
  else if b =? 8 then js "\b"
  else if b =? 12 then js "\f"
  else if b =? 10 then js "\n"
  else if b =? 13 then js "\r"
  else if b =? 9 then js "\t"
  else js "\u00" ++ [hexDigitByte (b / 16); hexDigitByte (b mod 16)].

(** Sequences of UTF-8 of two, three and four bytes. *)
Definition byteIn (lo hi b : Z) : bool := (lo <=? b) && (b <=? hi).
Definition utf8_2 (a b : Z) : bool := byteIn 194 223 a && byteIn 128 191 b.
Definition utf8_3 (a b c : Z) : bool :=
  byteIn 128 191 c
  && (((a =? 224) && byteIn 160 191 b) || (byteIn 225 236 a && byteIn 128 191 b)
      || ((a =? 237) && byteIn 128 159 b) || (byteIn 238 239 a && byteIn 128 191 b)).
Definition utf8_4 (a b c d : Z) : bool :=
  byteIn 128 191 c && byteIn 128 191 d
  && (((a =? 240) && byteIn 144 191 b) || (byteIn 241 243 a && byteIn 128 191 b) || ((a =? 244) && byteIn 128 143 b)).

(** [appendString(dst, src, escapeHTML = true)] without the quotes: invalid bytes
    become U+FFFD, and the separators U+2028 and U+2029 are escaped. *)
Fixpoint appendString (s : bytes) : bytes :=
  match s with
  | [] => []
  | a :: s1 =>
      if a <? 128 then (if htmlSafe a then [a] else escapeByte a) ++ appendString s1
      else
        match s1 with
        | b :: s2 =>
            if utf8_2 a b then a :: b :: appendString s2
            else
              match s2 with
              | c :: s3 =>
                  if utf8_3 a b c then
                    (if (a =? 226) && (b =? 128) && ((c =? 168) || (c =? 169)) then js "\u202" ++ [hexDigitByte (c - 160)] else [a; b; c])
                    ++ appendString s3
                  else
                    match s3 with
                    | d :: s4 => if utf8_4 a b c d then a :: b :: c :: d :: appendString s4 else js "\ufffd" ++ appendString s1
                    | [] => js "\ufffd" ++ appendString s1
                    end
              | [] => js "\ufffd" ++ appendString s1
              end
        | [] => js "\ufffd" ++ appendString s1
        end
  end.
Definition quoted (s : bytes) : bytes := [34] ++ appendString s ++ [34].

(** The line of [encoder.Encode(rec)], and the line with its newline. *)
Definition jsonLine (r : KV) : bytes :=
  [123] ++ quoted (js "key") ++ js ":" ++ quoted (Key r) ++ js "," ++ quoted (js "value") ++ js ":" ++ quoted (Value r) ++ [125].
Definition Encode (r : KV) : bytes := jsonLine r ++ [NL].
Definition encodeAll (rs : list KV) : bytes := concat (map Encode rs).

(** * [bufio.Scanner] over lines *)

(** The bytes before the first newline and what is behind it. *)
Fixpoint cutLine (s : bytes) : bytes * bytes :=
  match s with
  | [] => ([], [])
  | c :: s' => if c =? NL then ([], s') else let '(line, rest) := cutLine s' in (c :: line, rest)
  end.
Definition dropCR (line : bytes) : bytes := match last line with Some 13 => removelast line | _ => line end.

(** [scanner.Scan()] with a buffer that may grow to [limit]: the line with its
    newline has to fit. *)
Inductive scanned := ScanEnd | ScanTooLong | ScanLine (line rest : bytes).
Definition Scan (limit : Z) (s : bytes) : scanned :=
  match s with
  | [] => ScanEnd
  | _ => let '(line, rest) := cutLine s in if limit <=? len line then ScanTooLong else ScanLine (dropCR line) rest
  end.

(** * [container/heap] on items *)

Record heapItem := mkItem { record : KV; scanner : bytes; index : nat }.

Definition itemLess (a b : heapItem) : bool :=
  if bool_decide (Key (record a) = Key (record b)) then (index a <? index b)%nat else str_ltb (Key (record a)) (Key (record b)).

(** [h.Less(i, j)] and [h.Swap(i, j)]. *)
Definition Less (h : list heapItem) (i j : nat) : bool := match h !! i, h !! j with Some a, Some b => itemLess a b | _, _ => false end.
Definition Swap (h : list heapItem) (i j : nat) : list heapItem :=
  match h !! i, h !! j with Some a, Some b => <[j := a]> (<[i := b]> h) | _, _ => h end.

(** [up(h, j)] and [down(h, i0, n)]: fuel bounds the depth. *)
Fixpoint up (fuel : nat) (h : list heapItem) (j : nat) : list heapItem :=
  match fuel with
  | O => h
  | S fuel =>
      let i := ((j - 1) / 2)%nat in
      if (i =? j)%nat || negb (Less h j i) then h else up fuel (Swap h i j) i
  end.
Fixpoint down (fuel : nat) (h : list heapItem) (i n : nat) : list heapItem :=
  match fuel with
  | O => h
  | S fuel =>
      let j1 := (2 * i + 1)%nat in
      if (n <=? j1)%nat then h
      else
        let j := if (S j1 <? n)%nat && Less h (S j1) j1 then S j1 else j1 in
        if negb (Less h j i) then h else down fuel (Swap h i j) j n
  end.
Definition Push (h : list heapItem) (x : heapItem) : list heapItem := up (S (length h)) (h ++ [x]) (length h).
Definition Pop (h : list heapItem) : option (heapItem * list heapItem) :=
  let n := (length h - 1)%nat in
  let h := down (length h) (Swap h 0 n) 0 n in
  match last h with Some item => Some (item, removelast h) | None => None end.

(** * The merge *)

Section Merge.
Context (Unmarshal : bytes -> option KV).

(** One call of [Scan] and the decoding of its line: [None] at the end. *)
Definition nextRecord (limit : Z) (s : bytes) : outcome (option (KV * bytes)) :=
  match Scan limit s with
  | ScanEnd => Ret None
  | ScanTooLong => Throw "error reading stream"
  | ScanLine line rest => match Unmarshal line with Some rec => Ret (Some (rec, rest)) | None => Throw "malformed JSON" end
  end.

(** The loops of [heapMerge]; what it writes is returned. *)
Definition openStream (limit : Z) (st : list heapItem * nat) (r : bytes) : outcome (list heapItem * nat) :=
  let '(h, i) := st in
  next ← nextRecord limit r;
  Ret (match next with Some (rec, rest) => Push h (mkItem rec rest i) | None => h end, S i).
Fixpoint mergeLoop (fuel : nat) (limit : Z) (h : list heapItem) (w : bytes) (totalRecords : Z) : outcome (bytes * Z) :=
  match Pop h with
  | None => Ret (w, totalRecords)
  | Some (item, h) =>
      match fuel with
      | O => OutOfFuel
      | S fuel =>
          let w := w ++ Encode (record item) in
          next ← nextRecord limit (scanner item);
          let h := match next with Some (rec, rest) => Push h (mkItem rec rest (index item)) | None => h end in
          mergeLoop fuel limit h w (totalRecords + 1)
      end
  end.
Definition heapMerge (readers : list bytes) (limit : Z) : outcome (bytes * Z) :=
  st ← foldO (openStream limit) readers ([], 0%nat);
  mergeLoop (S (length (concat readers))) limit st.1 [] 0.

(** [MergeConfig] (the temporary directory is left out) and [MergeStats]. *)
Record MergeConfig := mkMergeConfig { BatchSize : Z; MaxRecordBytes : Z }.
Record MergeStats := mkStats { TotalPasses : Z; PeakOpenStreams : Z; SpillCount : Z; TotalRecords : Z }.
Definition MaxBatchSize : Z := 900.
Definition DefaultMaxRecordBytes : Z := 1048576.
Definition DefaultMergeConfig : MergeConfig := mkMergeConfig 500 DefaultMaxRecordBytes.
Definition clampConfig (cfg : MergeConfig) : MergeConfig :=
  let batch := if BatchSize cfg <=? 1 then 500 else BatchSize cfg in
  mkMergeConfig (if MaxBatchSize <? batch then MaxBatchSize else batch)
    (if MaxRecordBytes cfg <=? 0 then DefaultMaxRecordBytes else MaxRecordBytes cfg).

(** One pass over the inputs, batch by batch: the spill files and the statistics. *)
Fixpoint mergePass (fuel : nat) (cfg : MergeConfig) (inputs : list bytes) (stats : MergeStats) : outcome (list bytes * MergeStats) :=
  match inputs with
  | [] => Ret ([], stats)
  | _ =>
      match fuel with
      | O => OutOfFuel
      | S fuel =>
          let batch := take (Z.to_nat (BatchSize cfg)) inputs in
          let stats := mkStats (TotalPasses stats) (Z.max (PeakOpenStreams stats) (len batch)) (SpillCount stats + 1) (TotalRecords stats) in
          '(spillFile, _) ← heapMerge batch (MaxRecordBytes cfg);
          '(files, stats) ← mergePass fuel cfg (drop (Z.to_nat (BatchSize cfg)) inputs) stats;
          Ret (spillFile :: files, stats)
      end
  end.

(** The passes, and the last one into the writer. *)
Fixpoint mergePasses (fuel : nat) (cfg : MergeConfig) (inputs : list bytes) (stats : MergeStats) : outcome (bytes * MergeStats) :=
  let stats := mkStats (TotalPasses stats + 1) (PeakOpenStreams stats) (SpillCount stats) (TotalRecords stats) in
  if BatchSize cfg <? len inputs then
    match fuel with
    | O => OutOfFuel
    | S fuel =>
        '(files, stats) ← mergePass (length inputs) cfg inputs stats;
        mergePasses fuel cfg files stats
    end
  else
    '(w, total) ← heapMerge inputs (MaxRecordBytes cfg);
    Ret (w, mkStats (TotalPasses stats) (Z.max (PeakOpenStreams stats) (len inputs)) (SpillCount stats) total).

(** [MergeInputs(readers, w, cfg)]. *)
Definition MergeInputs (readers : list bytes) (cfg : MergeConfig) : outcome (bytes * MergeStats) :=
  match readers with
  | [] => Ret ([], mkStats 0 0 0 0)
  | _ => mergePasses (length readers) (clampConfig cfg) readers (mkStats 0 0 0 0)
  end.

End Merge.
