(* ===== verification/ShuffleFacts.v ===== *)
(** The merge of the shuffle: the heap is one, and the passes together merge
    sorted streams, whatever their number and the width of a pass. *)
From Stdlib Require Import ZArith Lia.
From stdpp Require Import base gmap strings list sorting.
From S2P Require Import Prelude JsString InputSplit Shuffle.

Local Open Scope Z_scope.
Open Scope js_scope.

(** * The order of items *)

Definition ile (a b : heapItem) : Prop := itemLess b a = false.

Lemma itemLess_spec a b : itemLess a b = true <->
  str_ltb (Key (record a)) (Key (record b)) = true \/ (Key (record a) = Key (record b) /\ (index a < index b)%nat).
Proof.
  unfold itemLess. case_bool_decide as Hk.
  - rewrite Nat.ltb_lt. rewrite Hk, str_ltb_irrefl. naive_solver.
  - naive_solver.
Qed.

Lemma itemLess_trans a b c : itemLess a b = true -> itemLess b c = true -> itemLess a c = true.
Proof.
  rewrite !itemLess_spec. intros [H1|[H1 ?]] [H2|[H2 ?]].
  - left. by eapply str_ltb_trans.
  - left. by rewrite <- H2.
  - left. by rewrite H1.
  - right. split; [congruence|lia].
Qed.

Lemma itemLess_cotrans a b c : itemLess a c = true -> itemLess a b = true \/ itemLess b c = true.
Proof.
  rewrite !itemLess_spec. intros [H|[H Hi]].
  - destruct (str_ltb (Key (record a)) (Key (record b))) eqn:E1; [by left; left|].
    destruct (str_ltb (Key (record b)) (Key (record c))) eqn:E2; [by right; left|]. exfalso.
    destruct (str_ltb (Key (record b)) (Key (record a))) eqn:E3.
    + pose proof (str_ltb_trans _ _ _ E3 H). congruence.
    + rewrite (str_ltb_total _ _ E1 E3) in H. congruence.
  - destruct (str_ltb (Key (record a)) (Key (record b))) eqn:E1; [by left; left|].
    destruct (str_ltb (Key (record b)) (Key (record c))) eqn:E2; [by right; left|].
    rewrite H in E1. pose proof (str_ltb_total _ _ E2 E1) as Hb. rewrite H, Hb.
    destruct (decide (index a < index b)%nat); [left|right]; right; (split; [done|lia]).
Qed.

Lemma itemLess_irrefl a : itemLess a a = false.
Proof. destruct (itemLess a a) eqn:E; [|done]. apply itemLess_spec in E as [E|[_ ?]]; [by rewrite str_ltb_irrefl in E|lia]. Qed.

Lemma ile_trans a b c : ile a b -> ile b c -> ile a c.
Proof. unfold ile. intros H1 H2. destruct (itemLess c a) eqn:E; [|done]. destruct (itemLess_cotrans _ b _ E); congruence. Qed.

Lemma ile_refl a : ile a a.
Proof. apply itemLess_irrefl. Qed.

Lemma less_ile a b : itemLess a b = true -> ile a b.
Proof.
  unfold ile. intros H. destruct (itemLess b a) eqn:E; [|done]. pose proof (itemLess_trans _ _ _ H E) as Hx. by rewrite itemLess_irrefl in Hx.
Qed.

(** * The heap *)

Definition parent (i : nat) : nat := ((i - 1) / 2)%nat.

Lemma parent_lt i : (0 < i)%nat -> (parent i < i)%nat.
Proof. intros H. unfold parent. apply Nat.Div0.div_lt_upper_bound. lia. Qed.

Lemma parent_iff i k : (0 < k)%nat -> parent k = i <-> k = (2 * i + 1)%nat \/ k = (2 * i + 2)%nat.
Proof.
  intros Hk. unfold parent. pose proof (Nat.div_mod_eq (k - 1) 2). pose proof (Nat.mod_upper_bound (k - 1) 2). lia.
Qed.

(** The items at two places are in order. *)
Definition inOrder (h : list heapItem) (i k : nat) : Prop := forall a b, h !! i = Some a -> h !! k = Some b -> ile a b.
Definition ordered (n : nat) (h : list heapItem) : Prop := forall k, (0 < k < n)%nat -> inOrder h (parent k) k.

Lemma Swap_lookup h i j a b k : h !! i = Some a -> h !! j = Some b ->
  Swap h i j !! k = if decide (k = j) then Some a else if decide (k = i) then Some b else h !! k.
Proof.
  intros Hi Hj. unfold Swap. rewrite Hi, Hj. pose proof (lookup_lt_Some _ _ _ Hi). pose proof (lookup_lt_Some _ _ _ Hj).
  destruct (decide (k = j)) as [->|]; [by rewrite list_lookup_insert_eq by (by rewrite length_insert)|].
  rewrite list_lookup_insert_ne by done. destruct (decide (k = i)) as [->|]; [by rewrite list_lookup_insert_eq|].
  by rewrite list_lookup_insert_ne.
Qed.

Lemma Swap_perm h i j : Swap h i j ≡ₚ h.
Proof. unfold Swap. destruct (h !! i) as [a|] eqn:Hi, (h !! j) as [b|] eqn:Hj; try done. by apply Permutation_insert_swap. Qed.

(** Only the item at [j] may be smaller than its parent. *)
Definition upInv (h : list heapItem) (j : nat) : Prop :=
  (forall k, (0 < k < length h)%nat -> k <> j -> inOrder h (parent k) k) /\
  (forall k, (0 < k < length h)%nat -> parent k = j -> (0 < j)%nat -> inOrder h (parent j) k).

Ltac swapped Hi Hj Ha Hb := rewrite (Swap_lookup _ _ _ _ _ _ Hi Hj) in Ha; rewrite (Swap_lookup _ _ _ _ _ _ Hi Hj) in Hb.

Lemma up_ok fuel h j : (j < fuel)%nat -> (j < length h)%nat -> upInv h j -> up fuel h j ≡ₚ h /\ ordered (length h) (up fuel h j).
Proof.
  revert h j. induction fuel as [|fuel IH]; intros h j Hf Hj [H1 H2]; [lia|]. cbn [up]. fold (parent j).
  destruct (Nat.eqb_spec (parent j) j) as [Heq|Hne]; cbn [orb].
  { assert (j = 0%nat) as -> by (destruct j; [done|]; pose proof (parent_lt (S j)); lia). split; [done|]. intros k Hk. apply H1; lia. }
  assert (Hj0 : (0 < j)%nat) by (destruct j; [done|lia]). pose proof (parent_lt j Hj0) as Hp.
  destruct (lookup_lt_is_Some_2 h j Hj) as [x Hx]. destruct (lookup_lt_is_Some_2 h (parent j)) as [y Hy]; [lia|].
  assert (Less h j (parent j) = itemLess x y) as -> by (unfold Less; by rewrite Hx, Hy). destruct (itemLess x y) eqn:Exy; cbn [negb].
  2: { split; [done|]. intros k Hk. destruct (decide (k = j)) as [->|]; [|by apply H1]. intros a b Ha Hb. simplify_eq. exact Exy. }
  assert (Hl : length (Swap h (parent j) j) = length h) by (by rewrite Swap_perm).
  destruct (IH (Swap h (parent j) j) (parent j)) as [Hperm Hord]; [lia|lia| |].
  2: { rewrite Hl in Hord. split; [by rewrite Hperm, Swap_perm|done]. }
  pose proof (less_ile _ _ Exy) as Hxy. split; rewrite Hl.
  - intros k Hk Hkp. destruct (decide (k = j)) as [->|Hkj].
    { intros a b Ha Hb. swapped Hy Hx Ha Hb. repeat case_decide; simplify_eq; first [done|lia]. }
    intros a b Ha Hb. swapped Hy Hx Ha Hb. repeat case_decide; simplify_eq.
    + by apply (H2 k Hk).
    + eapply ile_trans; [exact Hxy|]. eapply (H1 k Hk Hkj); [congruence|done].
    + by apply (H1 k Hk).
  - intros k Hk Hkp Hp0. pose proof (parent_lt (parent j) Hp0). intros a b Ha Hb.
    swapped Hy Hx Ha Hb.
    rewrite !decide_False in Ha by lia. assert (Hay : ile a y) by (apply (H1 (parent j)); [lia|lia|done|done]).
    repeat case_decide; simplify_eq; [done|lia|].
    eapply ile_trans; [exact Hay|]. eapply (H1 k Hk); [done|congruence|done].
Qed.

Lemma Push_ok h x : ordered (length h) h -> Push h x ≡ₚ x :: h /\ ordered (length (Push h x)) (Push h x).
Proof.
  intros Hord. unfold Push. assert (Hl : length (h ++ [x]) = S (length h)) by (rewrite length_app; cbn; lia).
  destruct (up_ok (S (length h)) (h ++ [x]) (length h)) as [Hp Ho]; [lia|lia| |].
  2: { fold (Push h x) in *. split; [by rewrite Hp, Permutation_app_comm|]. by rewrite (Permutation_length Hp). }
  split; rewrite Hl.
  - intros k Hk Hne a b. pose proof (parent_lt k). rewrite !lookup_app_l by lia. apply Hord. lia.
  - intros k Hk Hp. pose proof (parent_lt k). lia.
Qed.

(** Only the item at [i] may be bigger than its children. *)
Definition downInv (n : nat) (h : list heapItem) (i : nat) : Prop :=
  (forall k, (0 < k < n)%nat -> parent k <> i -> inOrder h (parent k) k) /\
  (forall k, (0 < k < n)%nat -> parent k = i -> (0 < i)%nat -> inOrder h (parent i) k).

Lemma down_ok fuel h i n : (n < fuel + i)%nat -> (i < n <= length h)%nat -> downInv n h i ->
  down fuel h i n ≡ₚ h /\ ordered n (down fuel h i n) /\ (forall k, (n <= k)%nat -> down fuel h i n !! k = h !! k).
Proof.
  revert h i. induction fuel as [|fuel IH]; intros h i Hf Hi [H1 H2]; [lia|]. cbn [down].
  destruct (Nat.leb_spec n (2 * i + 1)) as [Hleaf|Hchild].
  { split_and!; [done| |done]. intros k Hk. apply H1; [done|]. intros Hp%parent_iff; lia. }
  set (j := if (S (2 * i + 1) <? n)%nat && Less h (S (2 * i + 1)) (2 * i + 1) then S (2 * i + 1) else (2 * i + 1)%nat).
  assert (Hjn : (j < n)%nat /\ (j = 2 * i + 1 \/ j = 2 * i + 2)%nat).
  { unfold j. destruct (Nat.ltb_spec (S (2 * i + 1)) n); cbn [andb]; [destruct (Less _ _ _)|]; lia. }
  destruct Hjn as [Hjn Hjv]. assert (Hpj : parent j = i) by (apply parent_iff; lia).
  destruct (lookup_lt_is_Some_2 h i) as [y Hy]; [lia|]. destruct (lookup_lt_is_Some_2 h j) as [x Hx]; [lia|].
  assert (Hmin : forall k b, (0 < k < n)%nat -> parent k = i -> h !! k = Some b -> ile x b).
  { intros k b Hk Hpk Hb. apply parent_iff in Hpk; [|lia]. destruct (decide (k = j)) as [->|Hkj]; [simplify_eq; apply ile_refl|].
    revert Hx Hkj Hjv. unfold j. destruct (Nat.ltb_spec (S (2 * i + 1)) n) as [Hlt|Hge]; cbn [andb]; [|lia].
    unfold Less. destruct (lookup_lt_is_Some_2 h (2 * i + 1)) as [c Hc]; [lia|]. destruct (lookup_lt_is_Some_2 h (S (2 * i + 1))) as [d Hd]; [lia|].
    rewrite Hc, Hd. destruct (itemLess d c) eqn:Edc; intros Hx Hkj Hjv.
    - assert (k = 2 * i + 1)%nat as -> by lia. simplify_eq. by apply less_ile.
    - assert (k = S (2 * i + 1))%nat as -> by lia. simplify_eq. exact Edc. }
  assert (Less h j i = itemLess x y) as -> by (unfold Less; by rewrite Hx, Hy). destruct (itemLess x y) eqn:Exy; cbn [negb].
  2: { split_and!; [done| |done]. intros k Hk. destruct (decide (parent k = i)) as [Hp|]; [|by apply H1].
       rewrite Hp. intros a b Ha Hb. simplify_eq. eapply ile_trans; [exact Exy|]. by apply (Hmin k). }
  assert (Hl : length (Swap h i j) = length h) by (by rewrite Swap_perm).
  pose proof (less_ile _ _ Exy) as Hxy.
  destruct (IH (Swap h i j) j) as (Hperm & Hord & Hrest); [lia|lia| |].
  2: { split_and!; [by rewrite Hperm, Swap_perm|done|]. intros k Hk. rewrite Hrest by done.
       rewrite (Swap_lookup _ _ _ _ _ _ Hy Hx), !decide_False by lia. done. }
  split.
  - intros k Hk Hpk a b Ha Hb. swapped Hy Hx Ha Hb.
    repeat case_decide; simplify_eq; try done.
    + apply ile_refl.
    + apply (H2 j); [lia|done|lia|done|done].
    + by apply (Hmin k).
    + by apply (H1 k Hk).
  - intros k Hk Hpk Hj0 a b Ha Hb. pose proof (parent_lt k). swapped Hy Hx Ha Hb.
    rewrite Hpj in Ha. repeat case_decide; simplify_eq; try lia. eapply (H1 k Hk); [lia|congruence|done].
Qed.
(** The root of a heap is its least item. *)
Lemma ordered_root n h a k b : ordered n h -> h !! 0%nat = Some a -> (k < n)%nat -> h !! k = Some b -> ile a b.
Proof.
  intros Hord Ha. revert b. induction k as [k IH] using lt_wf_ind. intros b Hk Hb.
  destruct (decide (k = 0)%nat) as [->|Hne]; [simplify_eq; apply ile_refl|]. pose proof (parent_lt k ltac:(lia)) as Hp.
  destruct (lookup_lt_is_Some_2 h (parent k)) as [p Hpk]; [apply lookup_lt_Some in Hb; lia|].
  eapply ile_trans; [by apply (IH (parent k)); [| |done]; lia|]. apply (Hord k); [lia|done|done].
Qed.

Lemma Pop_ok h : ordered (length h) h ->
  match Pop h with
  | None => h = []
  | Some (x, h') => h ≡ₚ x :: h' /\ ordered (length h') h' /\ Forall (ile x) h'
  end.
Proof.
  intros Hord. unfold Pop. destruct h as [|x h0]; [done|]. set (h := x :: h0) in *. assert (Hlen : length h = S (length h0)) by done.
  remember (length h - 1)%nat as n eqn:En. assert (Hn : n = length h0) by lia. clear En.
  destruct (lookup_lt_is_Some_2 h n) as [z Hz]; [lia|].
  assert (H0 : h !! 0%nat = Some x) by done.
  assert (Hl : length (Swap h 0 n) = length h) by (by rewrite Swap_perm).
  assert (Hlast : Swap h 0 n !! n = Some x) by (by rewrite (Swap_lookup _ _ _ _ _ _ H0 Hz), decide_True).
  assert (Hd : exists h1, h1 = down (length h) (Swap h 0 n) 0 n /\ h1 ≡ₚ h /\ ordered n h1 /\ h1 !! n = Some x).
  { eexists. split; [done|]. destruct (decide (n = 0)%nat) as [Hn0|Hn0].
    - rewrite Hn0 in *. assert (Hdn : down (length h) (Swap h 0 0) 0 0 = Swap h 0 0) by (by destruct (length h)).
      rewrite Hdn. split_and!; [by rewrite Swap_perm| |done]. intros k Hk. lia.
    - destruct (down_ok (length h) (Swap h 0 n) 0 n) as (Hp & Ho & Hr); [lia|lia| |].
      2: { split_and!; [by rewrite Hp, Swap_perm|done|by rewrite Hr]. }
      split; [|lia]. intros k Hk Hpk a b Ha Hb. swapped H0 Hz Ha Hb. repeat case_decide; simplify_eq; try lia.
      all: pose proof (parent_lt k); first [lia|apply (Hord k); [lia|done|done]]. }
  destruct Hd as (h1 & <- & Hp & Ho & Hx). assert (Hl1 : length h1 = S n) by (rewrite Hp; lia).
  destruct (exists_last (l := h1)) as (h' & y & ->); [by intros ->|]. rewrite length_app in Hl1. cbn in Hl1. assert (Hlh : length h' = n) by lia.
  rewrite lookup_app_r in Hx by lia. rewrite Hlh, Nat.sub_diag in Hx. injection Hx as ->.
  rewrite last_snoc, removelast_last. split_and!.
  - by rewrite <- Hp, Permutation_app_comm.
  - rewrite Hlh. intros k Hk a b Ha Hb. pose proof (parent_lt k). apply (Ho k); [lia|rewrite lookup_app_l by lia; done..].
  - apply Forall_forall. intros b Hb. assert (Hb' : b ∈ h) by (rewrite <- Hp; apply elem_of_app; by left).
    apply list_elem_of_lookup in Hb' as [k Hk]. apply (ordered_root (length h) h x k b); [done|done|by eapply lookup_lt_Some|done].
Qed.

(** * Lines *)

(** Bytes that are no newline. *)
Abbreviation noNL := (Forall (fun c => c <> NL)).

Lemma hexDigit_noNL d : 0 <= d -> hexDigitByte d <> NL.
Proof. intros H. unfold hexDigitByte. destruct (Z.ltb_spec d 10); lia. Qed.

Lemma escape_noNL a : 0 <= a < 128 -> noNL (if htmlSafe a then [a] else escapeByte a).
Proof.
  intros Ha. destruct (htmlSafe a) eqn:Es.
  { unfold htmlSafe in Es. boolprop. constructor; [lia|constructor]. }
  unfold escapeByte. pose proof (hexDigit_noNL (a / 16)). pose proof (hexDigit_noNL (a mod 16)).
  repeat case_match; boolprop; try in_list; [rewrite !Forall_cons, Forall_nil; lia|].
  apply Forall_app. split; [in_list|]. apply Forall_cons. split; [apply H, Z.div_pos; lia|]. apply Forall_singleton, H0, Z.mod_pos_bound. lia.
Qed.

Lemma appendString_noNL s : Forall (fun b => 0 <= b) s -> noNL (appendString s).
Proof.
  induction s as [s IH] using (induction_ltof1 _ length). unfold ltof in IH. intros Hs.
  destruct s as [|a s1]; [constructor|]. apply Forall_cons in Hs as [Ha Hs1]. cbn [appendString].
  assert (IH1 : noNL (appendString s1)) by (apply IH; [cbn; lia|done]).
  assert (Hbad : noNL (js "\ufffd" ++ appendString s1)) by (apply Forall_app; split; [in_list|done]).
  destruct (Z.ltb_spec a 128) as [Ha1|Ha1]; [apply Forall_app; split; [by apply escape_noNL|done]|].
  destruct s1 as [|b s2]; [done|]. apply Forall_cons in Hs1 as [_ Hs2].
  assert (IH2 : noNL (appendString s2)) by (apply IH; [cbn; lia|done]).
  destruct (utf8_2 a b) eqn:E2; [unfold utf8_2, byteIn in E2; boolprop; constructor; [lia|]; constructor; [lia|done]|].
  destruct s2 as [|c s3]; [done|]. apply Forall_cons in Hs2 as [_ Hs3].
  assert (IH3 : noNL (appendString s3)) by (apply IH; [cbn; lia|done]).
  destruct (utf8_3 a b c) eqn:E3.
  { unfold utf8_3, byteIn in E3. apply Forall_app. split; [|done].
    destruct ((a =? 226) && (b =? 128) && ((c =? 168) || (c =? 169))) eqn:Esep.
    - apply Forall_app. split; [in_list|]. apply Forall_singleton, hexDigit_noNL. lia.
    - rewrite !Forall_cons, Forall_nil. lia. }
  destruct s3 as [|d s4]; [done|]. apply Forall_cons in Hs3 as [_ Hs4].
  assert (IH4 : noNL (appendString s4)) by (apply IH; [cbn; lia|done]).
  destruct (utf8_4 a b c d) eqn:E4; [|done]. unfold utf8_4, byteIn in E4. do 4 (constructor; [lia|]). done.
Qed.

(** Records of bytes. *)
Definition byteRecord (r : KV) : Prop := Forall (fun b => 0 <= b) (Key r) /\ Forall (fun b => 0 <= b) (Value r).

Lemma jsonLine_noNL r : byteRecord r -> noNL (jsonLine r).
Proof.
  intros [Hk Hv]. unfold jsonLine, quoted. rewrite !Forall_app. split_and!; try (by apply appendString_noNL); in_list.
Qed.

Lemma cutLine_line line rest : noNL line -> cutLine (line ++ NL :: rest) = (line, rest).
Proof.
  induction 1 as [|c line Hc _ IH]; [done|]. cbn [app cutLine]. rewrite IH. by rewrite (proj2 (Z.eqb_neq _ _) Hc).
Qed.

Lemma dropCR_json r : dropCR (jsonLine r) = jsonLine r.
Proof. unfold dropCR, jsonLine. rewrite !app_assoc. by rewrite last_snoc. Qed.

(** * Merging *)

Definition kvLe (a b : KV) : Prop := str_le (Key a) (Key b).
Definition withKey (k : bytes) (rs : list KV) : list KV := filter (fun r => Key r = k) rs.

(** A merge of sorted lists: sorted, and for every key the records of the
    first list come first, and so on. *)
Definition mergeOf (ss : list (list KV)) (out : list KV) : Prop :=
  StronglySorted kvLe out /\ forall k, withKey k out = concat (map (withKey k) ss).

Section Merging.
Context (Unmarshal : bytes -> option KV) (limit : Z).

(** A record that survives being written and read. *)
Definition readable (r : KV) : Prop := byteRecord r /\ Unmarshal (jsonLine r) = Some r /\ len (jsonLine r) < limit.

Lemma nextRecord_encoded r rs : readable r -> nextRecord Unmarshal limit (encodeAll (r :: rs)) = Ret (Some (r, encodeAll rs)).
Proof.
  intros (Hb & Hu & Hl). unfold nextRecord, encodeAll, Encode. cbn [map concat]. rewrite <- app_assoc. cbn [app].
  unfold Scan. destruct (jsonLine r ++ NL :: concat (map (fun r => jsonLine r ++ [NL]) rs)) eqn:E; [by destruct (jsonLine r)|]. rewrite <- E.
  rewrite cutLine_line by (by apply jsonLine_noNL). rewrite (proj2 (Z.leb_gt _ _) Hl), dropCR_json, Hu. done.
Qed.

Lemma nextRecord_end : nextRecord Unmarshal limit (encodeAll []) = Ret None.
Proof. done. Qed.

(** The items of the streams that are not empty, from an index on. *)
Fixpoint itemsFrom (n : nat) (ss : list (list KV)) : list heapItem :=
  match ss with
  | [] => []
  | [] :: ss => itemsFrom (S n) ss
  | (r :: rs) :: ss => mkItem r (encodeAll rs) n :: itemsFrom (S n) ss
  end.

Lemma itemsFrom_app n ss ss' : itemsFrom n (ss ++ ss') = itemsFrom n ss ++ itemsFrom (n + length ss) ss'.
Proof.
  revert n. induction ss as [|[|r rs] ss IH]; intros n; cbn [app itemsFrom length]; [by rewrite Nat.add_0_r|..];
    rewrite IH, Nat.add_succ_r; done.
Qed.

Lemma itemsFrom_elem n ss x : x ∈ itemsFrom n ss -> exists A r rs B, ss = A ++ (r :: rs) :: B /\ x = mkItem r (encodeAll rs) (n + length A).
Proof.
  revert n. induction ss as [|[|r rs] ss IH]; intros n; cbn [itemsFrom]; [by intros ?%elem_of_nil| |].
  - intros (A & r & rs & B & -> & ->)%IH. exists ([] :: A), r, rs, B. split; [done|]. cbn. by rewrite Nat.add_succ_r.
  - intros [->|(A & r' & rs' & B & -> & ->)%IH]%elem_of_cons.
    + exists [], r, rs, ss. split; [done|]. by rewrite Nat.add_0_r.
    + exists ((r :: rs) :: A), r', rs', B. split; [done|]. cbn. by rewrite Nat.add_succ_r.
Qed.

Lemma openStream_ok h n rs : Forall readable rs ->
  openStream Unmarshal limit (h, n) (encodeAll rs) = Ret (match rs with r :: rs => Push h (mkItem r (encodeAll rs) n) | [] => h end, S n).
Proof. intros [|r rs' Hr Hrs]; [done|]. unfold openStream. by rewrite nextRecord_encoded. Qed.

Lemma openStreams_ok ss : Forall (Forall readable) ss -> forall h n, ordered (length h) h ->
  exists h', foldO (openStream Unmarshal limit) (map encodeAll ss) (h, n) = Ret (h', (n + length ss)%nat) /\
    h' ≡ₚ h ++ itemsFrom n ss /\ ordered (length h') h'.
Proof.
  induction 1 as [|rs ss Hrs _ IH]; intros h n Hh; cbn [map foldO length].
  { exists h. rewrite Nat.add_0_r, app_nil_r. done. }
  rewrite openStream_ok, bind_Ret by done. destruct Hrs as [|r rs Hr Hrs].
  - destruct (IH h (S n) Hh) as (h' & -> & Hp & Ho). exists h'. rewrite Nat.add_succ_r. done.
  - destruct (Push_ok h (mkItem r (encodeAll rs) n) Hh) as [Hp1 Ho1].
    destruct (IH (Push h (mkItem r (encodeAll rs) n)) (S n)) as (h' & -> & Hp & Ho); [done|].
    exists h'. rewrite Nat.add_succ_r. split_and!; [done| |done]. cbn [itemsFrom]. rewrite Hp, Hp1. cbn [app]. by rewrite Permutation_middle.
Qed.

Lemma withKey_none k rs : Forall (fun r => Key r <> k) rs -> withKey k rs = [].
Proof. induction 1 as [|r rs Hr _ IH]; [done|]. unfold withKey. by rewrite filter_cons_False. Qed.

Lemma withKey_elem k rs r : r ∈ withKey k rs <-> Key r = k /\ r ∈ rs.
Proof. unfold withKey. by rewrite list_elem_of_filter. Qed.

Lemma withKey_cons k r rs : withKey k (r :: rs) = (if decide (Key r = k) then [r] else []) ++ withKey k rs.
Proof. unfold withKey. rewrite filter_cons. by case_decide. Qed.

Lemma mergeOf_elem ss out r : mergeOf ss out -> r ∈ out <-> exists s, s ∈ ss /\ r ∈ s.
Proof.
  intros [_ Hk]. assert (Hr : r ∈ out <-> r ∈ withKey (Key r) out) by (rewrite withKey_elem; naive_solver).
  rewrite Hr, Hk, concat_elem. setoid_rewrite withKey_elem. naive_solver.
Qed.

Lemma mergeOf_done n ss : itemsFrom n ss = [] -> mergeOf ss [].
Proof.
  intros H. split; [constructor|]. intros k. revert n H. induction ss as [|[|r rs] ss IH]; intros n H; [done| |done]. by apply (IH (S n)).
Qed.

(** The head of every stream is an item. *)
Lemma itemsFrom_head n ss s r : s ∈ ss -> r ∈ s -> StronglySorted kvLe s ->
  exists r0 rs i, mkItem r0 (encodeAll rs) i ∈ itemsFrom n ss /\ kvLe r0 r /\ s = r0 :: rs.
Proof.
  intros Hs Hr Hsort. apply list_elem_of_split in Hs as (A & B & ->). destruct s as [|r0 rs]; [by apply elem_of_nil in Hr|].
  exists r0, rs, (n + length A)%nat. rewrite itemsFrom_app. cbn [itemsFrom]. split_and!; [apply elem_of_app; right; left| |done].
  apply StronglySorted_inv in Hsort as [_ Hall]. apply elem_of_cons in Hr as [->|Hr]; [unfold kvLe, str_le, str_leb; by rewrite str_ltb_irrefl|].
  by eapply Forall_forall in Hall.
Qed.

Lemma ile_key a b : ile a b -> kvLe (record a) (record b).
Proof.
  unfold ile, kvLe, str_le, str_leb. intros H. destruct (str_ltb (Key (record b)) (Key (record a))) eqn:E; [|done].
  assert (itemLess b a = true) by (apply itemLess_spec; by left). congruence.
Qed.

(** Taking the least head keeps a merge a merge. *)
Lemma mergeOf_step A r rs B out : let ss := A ++ (r :: rs) :: B in
  Forall (StronglySorted kvLe) ss -> Forall (ile (mkItem r (encodeAll rs) (length A))) (itemsFrom 0 ss) ->
  mergeOf (A ++ rs :: B) out -> mergeOf ss (r :: out).
Proof.
  intros ss Hsort Hmin Hout. assert (Hle : forall s r', s ∈ ss -> r' ∈ s -> kvLe r r').
  { intros s r' Hs Hr'. destruct (itemsFrom_head 0 ss s r' Hs Hr') as (r0 & rs0 & i & Hi & H0 & _); [by eapply Forall_forall in Hsort|].
    rewrite Forall_forall in Hmin. apply Hmin, ile_key in Hi. cbn in Hi. unfold kvLe in *. by etrans. }
  split.
  - constructor; [apply Hout|]. apply Forall_forall. intros r' (s & Hs & Hr')%(mergeOf_elem _ _ _ Hout).
    apply elem_of_app in Hs as [Hs|[->|Hs]%elem_of_cons].
    + apply (Hle s); [apply elem_of_app; by left|done].
    + apply (Hle (r :: rs)); [apply elem_of_app; right; left|by right].
    + apply (Hle s); [apply elem_of_app; right; by right|done].
  - intros k. rewrite withKey_cons, (proj2 Hout). unfold ss. rewrite !map_app, !concat_app. cbn [map concat].
    rewrite (withKey_cons k r rs). destruct (decide (Key r = k)) as [<-|Hne]; [|done].
    assert (HA : concat (map (withKey (Key r)) A) = []).
    { apply concat_nil_Forall. apply Forall_forall. intros l (s & -> & Hs)%list_elem_of_fmap. apply withKey_none. apply Forall_forall. intros r' Hr' Heq.
      apply list_elem_of_split in Hs as (A1 & A2 & HA). subst A.
      destruct s as [|r0 rs0]; [by apply elem_of_nil in Hr'|].
      assert (Hi : mkItem r0 (encodeAll rs0) (length A1) ∈ itemsFrom 0 ss).
      { unfold ss. rewrite <- app_assoc, itemsFrom_app. apply elem_of_app. right. left. }
      rewrite Forall_forall in Hmin. pose proof (Hmin _ Hi) as Hi'. 
      assert (H0 : kvLe r0 r').
      { rewrite Forall_forall in Hsort. assert (Hs : StronglySorted kvLe (r0 :: rs0)) by (apply Hsort; unfold ss; rewrite <- app_assoc; apply elem_of_app; right; left).
        apply StronglySorted_inv in Hs as [_ Hall]. apply elem_of_cons in Hr' as [->|Hr']; [unfold kvLe, str_le, str_leb; by rewrite str_ltb_irrefl|].
        by eapply Forall_forall in Hall. }
      pose proof (ile_key _ _ Hi') as Hk. cbn in Hk. unfold ile in Hi'.
      assert (Key r0 = Key r) as Hk0.
      { unfold kvLe, str_le, str_leb in Hk, H0. rewrite Heq in H0. boolprop. by apply str_ltb_total. }
      assert (itemLess (mkItem r0 (encodeAll rs0) (length A1)) (mkItem r (encodeAll rs) (length (A1 ++ (r0 :: rs0) :: A2))) = true); [|congruence].
      apply itemLess_spec. right. cbn. split; [done|]. rewrite length_app. cbn. lia. }
    rewrite HA. done.
Qed.

(** The rounds of the merge. *)
Lemma mergeLoop_ok fuel : forall ss h w total, Forall (Forall readable) ss -> Forall (StronglySorted kvLe) ss ->
  h ≡ₚ itemsFrom 0 ss -> ordered (length h) h -> (length (concat ss) <= fuel)%nat ->
  exists out, mergeLoop Unmarshal fuel limit h w total = Ret (w ++ encodeAll out, total + len out) /\ mergeOf ss out.
Proof.
  induction fuel as [|fuel IH]; intros ss h w total Hread Hsort Hperm Hord Hfuel; cbn [mergeLoop];
    pose proof (Pop_ok h Hord) as HP; destruct (Pop h) as [[x h']|].
  2, 4: subst h; exists []; rewrite app_nil_r, Z.add_0_r; split; [done|]; apply (mergeOf_done 0); by apply Permutation_nil_l in Hperm.
  all: destruct HP as (Hp & Hord' & Hmin); assert (Hx : x ∈ itemsFrom 0 ss) by (rewrite <- Hperm, Hp; left);
    apply itemsFrom_elem in Hx as (A & r & rs & B & -> & ->).
  { exfalso. rewrite concat_app, length_app in Hfuel. cbn in Hfuel. lia. }
  cbn [Nat.add scanner record index] in *.
  assert (Hitems : itemsFrom 0 (A ++ (r :: rs) :: B) ≡ₚ mkItem r (encodeAll rs) (length A) :: itemsFrom 0 A ++ itemsFrom (S (length A)) B).
  { rewrite itemsFrom_app. cbn [Nat.add itemsFrom]. by rewrite Permutation_middle. }
  assert (Hh' : h' ≡ₚ itemsFrom 0 A ++ itemsFrom (S (length A)) B).
  { apply (Permutation_cons_inv (a := mkItem r (encodeAll rs) (length A))). by rewrite <- Hp, Hperm, Hitems. }
  assert (Hall : Forall (ile (mkItem r (encodeAll rs) (length A))) (itemsFrom 0 (A ++ (r :: rs) :: B))).
  { rewrite Hitems. constructor; [apply ile_refl|]. by rewrite <- Hh'. }
  assert (Hread' : Forall (Forall readable) (A ++ rs :: B)).
  { rewrite Forall_app, Forall_cons in *. destruct Hread as (? & [_ ?]%Forall_cons & ?). done. }
  assert (Hsort' : Forall (StronglySorted kvLe) (A ++ rs :: B)).
  { rewrite Forall_app, Forall_cons in *. destruct Hsort as (? & [? _]%StronglySorted_inv & ?). done. }
  assert (Hrs : Forall readable rs) by (rewrite Forall_app, Forall_cons in Hread'; naive_solver).
  assert (Hnext : exists h2, (next ← nextRecord Unmarshal limit (encodeAll rs);
      mergeLoop Unmarshal fuel limit match next with Some (rec, rest) => Push h' (mkItem rec rest (length A)) | None => h' end
        (w ++ Encode r) (total + 1)) = mergeLoop Unmarshal fuel limit h2 (w ++ Encode r) (total + 1) /\
      h2 ≡ₚ itemsFrom 0 (A ++ rs :: B) /\ ordered (length h2) h2).
  { rewrite itemsFrom_app. cbn [Nat.add]. destruct Hrs as [|r' rs' Hr' Hrs'].
    - exists h'. split_and!; [done| |done]. by rewrite Hh'.
    - rewrite nextRecord_encoded, bind_Ret by done. destruct (Push_ok h' (mkItem r' (encodeAll rs') (length A)) Hord') as [Hp2 Ho2].
      eexists. split_and!; [done| |exact Ho2]. rewrite Hp2, Hh'. cbn [itemsFrom]. by rewrite Permutation_middle. }
  destruct Hnext as (h2 & -> & Hh2 & Ho2).
  destruct (IH (A ++ rs :: B) h2 (w ++ Encode r) (total + 1) Hread' Hsort' Hh2 Ho2) as (out & -> & Hout).
  { rewrite !concat_app, !length_app in *. cbn in *. rewrite length_app in *. lia. }
  exists (r :: out). split; [|by apply mergeOf_step]. unfold encodeAll. cbn [map concat]. rewrite <- app_assoc, len_cons. do 2 f_equal. lia.
Qed.

Lemma encodeAll_length rs : (length rs <= length (encodeAll rs))%nat.
Proof. induction rs as [|r rs IH]; [done|]. unfold encodeAll in *. cbn [map concat]. rewrite length_app. unfold Encode at 1. rewrite length_app. cbn. lia. Qed.

Lemma heapMerge_ok ss : Forall (Forall readable) ss -> Forall (StronglySorted kvLe) ss ->
  exists out, heapMerge Unmarshal (map encodeAll ss) limit = Ret (encodeAll out, len out) /\ mergeOf ss out.
Proof.
  intros Hread Hsort. unfold heapMerge. destruct (openStreams_ok ss Hread [] 0) as (h & -> & Hp & Ho); [intros k Hk; cbn in Hk; lia|].
  rewrite bind_Ret. cbn [fst app] in *. apply mergeLoop_ok; try done.
  clear. induction ss as [|s ss IH]; [cbn; lia|]. cbn [map concat]. rewrite !length_app. pose proof (encodeAll_length s). lia.
Qed.

Lemma mergeOf_readable ss out : Forall (Forall readable) ss -> mergeOf ss out -> Forall readable out.
Proof.
  intros Hread Hout. apply Forall_forall. intros r (s & Hs & Hr)%(mergeOf_elem _ _ _ Hout). rewrite Forall_forall in Hread.
  specialize (Hread s Hs). by eapply Forall_forall in Hread.
Qed.

End Merging.

#[export] Instance withKey_proper k : Proper ((≡ₚ) ==> (≡ₚ)) (withKey k).
Proof. intros l l' H. unfold withKey. by rewrite H. Qed.

(** Records with the same multiplicities for every key. *)
Lemma withKey_perm l l' : (forall k, withKey k l ≡ₚ withKey k l') -> l ≡ₚ l'.
Proof.
  revert l'. induction l as [|r l IH]; intros l' H.
  - destruct l' as [|r l']; [done|]. specialize (H (Key r)). rewrite withKey_cons, decide_True in H by done. by apply Permutation_nil_l in H.
  - assert (Hr : r ∈ l').
    { enough (r ∈ withKey (Key r) l') by (by apply withKey_elem in H0 as [_ ?]). rewrite <- H, withKey_elem. split; [done|left]. }
    apply list_elem_of_split in Hr as (l1 & l2 & ->). rewrite <- Permutation_middle. constructor. apply IH. intros k.
    specialize (H k). rewrite <- Permutation_middle, !withKey_cons in H. by apply Permutation_app_inv_l in H.
Qed.

Lemma mergeOf_perm ss out : mergeOf ss out -> out ≡ₚ concat ss.
Proof.
  intros [_ Hk]. apply withKey_perm. intros k. rewrite Hk. clear Hk.
  induction ss as [|s ss IH]; [done|]. cbn [map concat]. unfold withKey in *. by rewrite filter_app, IH.
Qed.

(** * The passes *)

Section Passes.
Context (Unmarshal : bytes -> option KV) (cfg : MergeConfig) (Hbatch : 2 <= BatchSize cfg).

Abbreviation ready := (readable Unmarshal (MaxRecordBytes cfg)).

(** What a pass keeps: sorted streams with the same records for every key. *)
Definition keepsRecords (ss outs : list (list KV)) : Prop :=
  Forall (Forall ready) outs /\ Forall (StronglySorted kvLe) outs /\ forall k, concat (map (withKey k) outs) = concat (map (withKey k) ss).

(** What a pass that wrote [outs] promises. *)
Definition passOk (ss outs : list (list KV)) (stats stats' : MergeStats) : Prop :=
  keepsRecords ss outs /\ (2 * length outs <= length ss + 1)%nat /\
  PeakOpenStreams stats' <= Z.max (PeakOpenStreams stats) (BatchSize cfg) /\
  TotalPasses stats' = TotalPasses stats /\ SpillCount stats' = SpillCount stats + len outs.

Lemma mergePass_nil fuel stats : exists outs stats', mergePass Unmarshal fuel cfg (map encodeAll []) stats = Ret (map encodeAll outs, stats') /\
  passOk [] outs stats stats'.
Proof.
  exists [], stats. split; [by destruct fuel|]. split; [split_and!; [constructor|constructor|done]|]. rewrite len_nil. cbn [length]. lia.
Qed.

Lemma mergePass_step fuel inputs stats : inputs <> [] ->
  let n := Z.to_nat (BatchSize cfg) in
  mergePass Unmarshal (S fuel) cfg inputs stats =
    (let stats := mkStats (TotalPasses stats) (Z.max (PeakOpenStreams stats) (len (take n inputs))) (SpillCount stats + 1) (TotalRecords stats) in
     '(spillFile, _) ← heapMerge Unmarshal (take n inputs) (MaxRecordBytes cfg);
     '(files, stats) ← mergePass Unmarshal fuel cfg (drop n inputs) stats;
     Ret (spillFile :: files, stats)).
Proof. by destruct inputs. Qed.

Lemma mergePass_ok fuel : forall ss stats, (length ss <= fuel)%nat -> Forall (Forall ready) ss -> Forall (StronglySorted kvLe) ss ->
  exists outs stats', mergePass Unmarshal fuel cfg (map encodeAll ss) stats = Ret (map encodeAll outs, stats') /\
    passOk ss outs stats stats'.
Proof.
  induction fuel as [|fuel IH]; intros ss stats Hf Hread Hsort.
  { destruct ss as [|s ss]; [|cbn in Hf; lia]. apply mergePass_nil. }
  destruct ss as [|s0 ss0]; [apply mergePass_nil|].
  assert (Hne : s0 :: ss0 <> []) by done. revert Hne Hf Hread Hsort. generalize (s0 :: ss0) as ss. clear s0 ss0. intros ss Hne Hf Hread Hsort.
  set (n := Z.to_nat (BatchSize cfg)). assert (Hn : (2 <= n)%nat) by (unfold n; lia).
  rewrite mergePass_step by (by destruct ss). fold n. rewrite (firstn_map encodeAll), (skipn_map encodeAll).
  rewrite <- (take_drop n ss) in Hread, Hsort. apply Forall_app in Hread as [Hr1 Hr2], Hsort as [Hs1 Hs2].
  destruct (heapMerge_ok Unmarshal (MaxRecordBytes cfg) (take n ss) Hr1 Hs1) as (out & -> & Hout). rewrite bind_Ret. cbn beta iota.
  assert (Hlen : (length (take n ss) <= n)%nat) by (rewrite length_take; lia).
  assert (Hlen0 : (0 < length (take n ss))%nat) by (rewrite length_take; destruct ss; [done|cbn; lia]).
  assert (Hsum : (length ss = length (take n ss) + length (drop n ss))%nat) by (rewrite <- length_app, take_drop; done).
  set (st := mkStats _ _ _ _).
  destruct (IH (drop n ss) st) as (outs & stats' & -> & (Ho1 & Ho2 & Ho3) & Hl & Hpeak & Hpass & Hspill); [lia|done|done|].
  rewrite bind_Ret. exists (out :: outs), stats'. split; [done|]. split_and!.
  - split_and!; [constructor; [by apply (mergeOf_readable _ _ (take n ss))|done]|constructor; [apply Hout|done]|].
    intros k. cbn [map concat]. rewrite (proj2 Hout), Ho3, <- concat_app, <- map_app, take_drop. done.
  - cbn [length]. destruct (decide (length ss <= n)%nat); [|rewrite length_take in *; lia].
    assert (drop n ss = []) as Hd by (apply drop_ge; lia). rewrite Hd in Hl. cbn in Hl. lia.
  - unfold st in Hpeak. cbn [PeakOpenStreams] in Hpeak. unfold len in Hpeak. rewrite length_map in Hpeak. lia.
  - exact Hpass.
  - rewrite Hspill, len_cons. unfold st. cbn [SpillCount]. lia.
Qed.

Lemma mergePasses_ok fuel : forall ss stats, (length ss <= fuel)%nat -> Forall (Forall ready) ss -> Forall (StronglySorted kvLe) ss ->
  exists out stats', mergePasses Unmarshal fuel cfg (map encodeAll ss) stats = Ret (encodeAll out, stats') /\ mergeOf ss out /\
    TotalRecords stats' = len out /\ PeakOpenStreams stats' <= Z.max (PeakOpenStreams stats) (BatchSize cfg).
Proof.
  induction fuel as [|fuel IH]; intros ss stats Hf Hread Hsort; cbn [mergePasses];
    assert (Hlen : len (map encodeAll ss) = len ss) by (unfold len; by rewrite length_map);
    rewrite Hlen; destruct (Z.ltb_spec (BatchSize cfg) (len ss)) as [Hlt|Hge].
  1: unfold len in Hlt; lia.
  2: { rewrite length_map. set (st := mkStats _ _ _ _).
       destruct (mergePass_ok (length ss) ss st) as (outs & stats' & -> & (Ho1 & Ho2 & Ho3) & Hl & Hpeak & _); [done..|].
       rewrite bind_Ret. destruct (IH outs stats') as (out & stats2 & -> & [Hsorted Hk] & Ht & Hp); [unfold len in *; lia|done|done|].
       exists out, stats2. split_and!; [done| |done|unfold st in Hpeak; cbn [PeakOpenStreams] in Hpeak; lia].
       split; [done|]. intros k. by rewrite Hk. }
  all: destruct (heapMerge_ok Unmarshal (MaxRecordBytes cfg) ss Hread Hsort) as (out & -> & Hout); rewrite bind_Ret;
    eexists _, _; split_and!; [done|done|done|]; cbn [PeakOpenStreams]; lia.
Qed.

End Passes.

Lemma clampConfig_bounds cfg : 2 <= BatchSize (clampConfig cfg) <= MaxBatchSize /\ 0 < MaxRecordBytes (clampConfig cfg).
Proof.
  unfold clampConfig, MaxBatchSize, DefaultMaxRecordBytes. cbn [BatchSize MaxRecordBytes].
  repeat case_match; boolprop; lia.
Qed.

Lemma MergeInputs_ok Unmarshal cfg ss :
  Forall (Forall (readable Unmarshal (MaxRecordBytes (clampConfig cfg)))) ss -> Forall (StronglySorted kvLe) ss ->
  exists out stats, MergeInputs Unmarshal (map encodeAll ss) cfg = Ret (encodeAll out, stats) /\ mergeOf ss out /\
    TotalRecords stats = len out /\ PeakOpenStreams stats <= BatchSize (clampConfig cfg).
Proof.
  intros Hread Hsort. destruct (clampConfig_bounds cfg) as [Hb _].
  unfold MergeInputs. destruct ss as [|s ss]; [by exists [], (mkStats 0 0 0 0); cbn [map]; split_and!; [|split; [constructor|]| |cbn [PeakOpenStreams]; lia]|].
  cbn [map]. rewrite <- map_cons. rewrite length_map.
  destruct (mergePasses_ok Unmarshal (clampConfig cfg) ltac:(lia) (length (s :: ss)) (s :: ss) (mkStats 0 0 0 0)) as (out & stats & H1 & H2 & H3 & H4); [done..|].
  exists out, stats. split_and!; [exact H1|done|done|]. cbn [PeakOpenStreams] in H4. lia.
Qed.

(** C10. [MergeInputs] is an external merge sort: sorted streams whose records
    can be read back, any number of them, are merged into one stream, in one pass
    or in several; the output is sorted by key, has the records of all streams
    and keeps, for every key, the order of the streams and the order within each
    of them.  It counts the records, and never has more streams open than the
    batch size, which is at most 900. *)
Theorem MergeInputs_merges Unmarshal cfg ss :
  Forall (Forall (readable Unmarshal (MaxRecordBytes (clampConfig cfg)))) ss -> Forall (StronglySorted kvLe) ss ->
  exists out stats, MergeInputs Unmarshal (map encodeAll ss) cfg = Ret (encodeAll out, stats) /\
    StronglySorted kvLe out /\ out ≡ₚ concat ss /\ (forall k, withKey k out = concat (map (withKey k) ss)) /\
    TotalRecords stats = len out /\ PeakOpenStreams stats <= BatchSize (clampConfig cfg) <= MaxBatchSize.
Proof.
  intros Hread Hsort. destruct (clampConfig_bounds cfg) as [Hb _].
  destruct (MergeInputs_ok Unmarshal cfg ss Hread Hsort) as (out & stats & H1 & H2 & H3 & H4).
  exists out, stats. pose proof (mergeOf_perm _ _ H2). destruct H2. split_and!; try done; lia.
Qed.

(** Three streams, of which a pass merges two. *)
Definition sampleRecords : list KV := [mkKV (js "a") (js "1"); mkKV (js "a") (js "2"); mkKV (js "b") (js "<"); mkKV (js "c") []].
Definition sampleDecode (line : bytes) : option KV := List.find (fun r => bool_decide (jsonLine r = line)) sampleRecords.

Lemma sampleDecode_readable limit : 50 <= limit -> Forall (readable sampleDecode limit) sampleRecords.
Proof.
  intros Hl. repeat (constructor; [split_and!; [by split; repeat (constructor; [cbn; lia|])|vm_compute; reflexivity|]|]); [..|constructor].
  all: eapply Z.lt_le_trans; [|exact Hl]; vm_compute; reflexivity.
Qed.

Lemma MergeInputs_merges_witness :
  exists out stats,
    MergeInputs sampleDecode (map encodeAll [[mkKV (js "a") (js "2"); mkKV (js "c") []]; [mkKV (js "a") (js "1")]; [mkKV (js "b") (js "<")]]) (mkMergeConfig 2 64)
      = Ret (encodeAll out, stats) /\ StronglySorted kvLe out /\ TotalRecords stats = 4.
Proof.
  destruct (MergeInputs_merges sampleDecode (mkMergeConfig 2 64) [[mkKV (js "a") (js "2"); mkKV (js "c") []]; [mkKV (js "a") (js "1")]; [mkKV (js "b") (js "<")]])
    as (out & stats & H1 & H2 & H3 & _ & H5 & _).
  - pose proof (sampleDecode_readable 64 ltac:(lia)) as Hr. rewrite Forall_forall in Hr.
    change (MaxRecordBytes (clampConfig (mkMergeConfig 2 64))) with 64.
    repeat (constructor; [repeat (constructor; [apply Hr; in_list|]); constructor|]). constructor.
  - repeat (constructor; [repeat constructor|]). constructor.
  - exists out, stats. split_and!; [exact H1|exact H2|]. rewrite H5. unfold len. by rewrite H3.
Defined.
