(* ===== verification/MapReduce.v ===== *)
(** The data path of a job (worker-service/internal/worker/spill.go, map.go,
    partition_writer.go and reduce.go, and manager-service/internal/grpc/shuffle.go):
    a map task sorts the records of the mapper within a memory budget, cuts them
    into partitions by hash and pushes each one to the shuffle service; a reduce
    task gets the segments of its partition and merges them.

    Arguments: the user's programs, [json.Unmarshal], SHA-256, and [sort.Slice]
    (it is not stable, and the order of equal elements is not documented).  Errors
    of files and of the network are left out. *)
From Stdlib Require Import ZArith Lia.
From stdpp Require Import base gmap strings list sorting.
From S2P Require Import Prelude JsString InputSplit Shuffle.

Local Open Scope Z_scope.
Open Scope js_scope.

(** * Sorting within a budget *)

Definition recordOverheadBytes : Z := 32.
Definition defaultSpillThresholdBytes : Z := 64 * 1024 * 1024.
Record spillingSorter := mkSorter { thresholdBytes : Z; buffer : list KV; bufferBytes : Z; spillFiles : list bytes }.
Definition newSpillingSorter (thresholdBytes : Z) : spillingSorter :=
  mkSorter (if thresholdBytes <=? 0 then defaultSpillThresholdBytes else thresholdBytes) [] 0 [].

Section Sorter.
Context (Unmarshal : bytes -> option KV) (sortSlice : list KV -> list KV).

Definition spill (s : spillingSorter) : spillingSorter :=
  match buffer s with
  | [] => s
  | _ => mkSorter (thresholdBytes s) [] 0 (spillFiles s ++ [encodeAll (sortSlice (buffer s))])
  end.
Definition Add (s : spillingSorter) (rec : KV) : spillingSorter :=
  let s := mkSorter (thresholdBytes s) (buffer s ++ [rec]) (bufferBytes s + (len (Key rec) + len (Value rec) + recordOverheadBytes)) (spillFiles s) in
  if thresholdBytes s <=? bufferBytes s then spill s else s.
Definition AddAll (s : spillingSorter) (records : list KV) : spillingSorter := fold_left Add records s.

(** What the reader that [Finalize] returns delivers. *)
Definition Finalize (s : spillingSorter) : outcome bytes :=
  match spillFiles s with
  | [] => Ret (encodeAll (sortSlice (buffer s)))
  | _ =>
      '(merged, _) ← MergeInputs Unmarshal (spillFiles (spill s)) (mkMergeConfig 0 0);
      Ret merged
  end.
Definition sortRecordsSpilling (records : list KV) (thresholdBytes : Z) : outcome bytes :=
  Finalize (AddAll (newSpillingSorter thresholdBytes) records).

(** * A map task *)

(** [TrimSpace] of bytes: the size of the white space character at the start, if
    there is one, and the text without the ones at both ends. *)
Definition spaceSize (s : bytes) : nat :=
  match s with
  | a :: s1 =>
      if byteIn 9 13 a || (a =? 32) then 1%nat
      else
        match s1 with
        | b :: s2 =>
            if (a =? 194) && ((b =? 133) || (b =? 160)) then 2%nat
            else
              match s2 with
              | c :: _ =>
                  if ((a =? 225) && (b =? 154) && (c =? 128))
                     || ((a =? 226) && (b =? 128) && (byteIn 128 138 c || (c =? 168) || (c =? 169) || (c =? 175)))
                     || ((a =? 226) && (b =? 129) && (c =? 159)) || ((a =? 227) && (b =? 128) && (c =? 128))
                  then 3%nat else 0%nat
              | [] => 0%nat
              end
        | [] => 0%nat
        end
  | [] => 0%nat
  end.
Fixpoint trimLeft (fuel : nat) (s : bytes) : bytes :=
  match fuel, spaceSize s with
  | S fuel, S n => trimLeft fuel (drop (S n) s)
  | _, _ => s
  end.
Definition blank (s : bytes) : bool := bool_decide (trimLeft (length s) s = []).
Fixpoint trimRight (s : bytes) : bytes := match s with [] => [] | a :: s' => if blank s then [] else a :: trimRight s' end.
Definition TrimSpace (s : bytes) : bytes := trimRight (trimLeft (length s) s).

(** [for sc.Scan() { ... }] over the records of a stream, and [sc.Err()]. *)
Fixpoint eachRecord {S} (fuel : nat) (s : bytes) (f : S -> bytes -> KV -> S) (st : S) : outcome S :=
  match Scan DefaultMaxRecordBytes s with
  | ScanEnd => Ret st
  | ScanTooLong => Throw "bufio.Scanner: token too long"
  | ScanLine line rest =>
      match fuel with
      | O => OutOfFuel
      | S fuel =>
          if blank line then eachRecord fuel rest f st
          else match Unmarshal line with None => Throw "decode record" | Some rec => eachRecord fuel rest f (f st line rec) end
      end
  end.
Definition sortOutput (threshold : Z) (stdout : bytes) : outcome bytes :=
  sorter ← eachRecord (S (length stdout)) stdout (fun s _ rec => Add s rec) (newSpillingSorter threshold);
  Finalize sorter.

Definition parseJSONLRecords (data : bytes) : outcome (list KV) := eachRecord (S (length data)) data (fun records _ rec => records ++ [rec]) [].

(** [hashPartition(key, R)]: FNV-32a. *)
Definition fnvStep (h : Z) (b : Z) : Z := (Z.lxor h b * 16777619) mod 2 ^ 32.
Definition hashPartition (key : bytes) (R : Z) : Z := Z.land (fold_left fnvStep key 2166136261) 2147483647 mod R.

(** [shufflePartitionWriter]: the chunks sent, and the bytes that wait. *)
Definition shuffleChunkSizeBytes : Z := 1048576.
Record partitionWriter := mkWriter { pw_sent : list bytes; pw_buf : bytes }.
Fixpoint sendFull (fuel : nat) (w : partitionWriter) : partitionWriter :=
  match fuel with
  | O => w
  | S fuel =>
      if shuffleChunkSizeBytes <=? len (pw_buf w) then
        sendFull fuel (mkWriter (pw_sent w ++ [take (Z.to_nat shuffleChunkSizeBytes) (pw_buf w)]) (drop (Z.to_nat shuffleChunkSizeBytes) (pw_buf w)))
      else w
  end.
Definition pwWrite (w : partitionWriter) (p : bytes) : partitionWriter :=
  let w := mkWriter (pw_sent w) (pw_buf w ++ p) in
  sendFull (length (pw_buf w)) w.

(** What the service receives before the end of the stream: all of it after
    [Close], and what had been sent after [Abort], which ends the stream too. *)
Definition pwClose (w : partitionWriter) : list bytes := match pw_buf w with [] => pw_sent w | buf => pw_sent w ++ [buf] end.
Definition pwAbort (w : partitionWriter) : list bytes := pw_sent w.

(** The loop over the sorted records: the open writers and the order in which
    they were opened. *)
Definition partitionStep (R : Z) (st : gmap Z partitionWriter * list Z) (line : bytes) (rec : KV) : gmap Z partitionWriter * list Z :=
  let '(writers, openOrder) := st in
  let p := hashPartition (Key rec) R in
  let '(pw, openOrder) := match writers !! p with Some pw => (pw, openOrder) | None => (mkWriter [] [], openOrder ++ [p]) end in
  (<[p := pwWrite (pwWrite pw line) [NL]]> writers, openOrder).

(** [sortInts]: insertion from the right, on the sorted part in reverse. *)
Fixpoint shiftIn (v : Z) (revSorted : list Z) : list Z :=
  match revSorted with
  | x :: rest => if v <? x then x :: shiftIn v rest else v :: x :: rest
  | [] => [v]
  end.
Definition sortInts (xs : list Z) : list Z := rev (fold_left (fun acc v => shiftIn v acc) xs []).

(** [runMap]: the chunks of every partition, in ascending order; the combiner is
    run on the sorted stream. *)
Definition runMap (mapper : bytes -> outcome bytes) (combiner : option (bytes -> outcome bytes)) (threshold totalReducers : Z) (input : bytes)
    : outcome (list (Z * list bytes)) :=
  stdout ← mapper input;
  sorted ← sortOutput threshold stdout;
  sorted ← match combiner with None => Ret sorted | Some c => out ← c sorted; sortOutput threshold out end;
  let R := if totalReducers <=? 0 then 1 else totalReducers in
  '(writers, openOrder) ← eachRecord (S (length sorted)) sorted (partitionStep R) (∅, []);
  Ret (omap (fun i => (fun pw => (i, pwClose pw)) <$> writers !! i) (sortInts openOrder)).

End Sorter.

(** * The shuffle service *)

Record chunk := mkChunk { JobId : string; PartitionId : Z; Data : bytes; SegmentChecksum : bytes }.
Record ShuffleServer := mkServer { data : gmap string (gmap Z (list bytes)); jobSizes : gmap string Z; partSizes : gmap string (gmap Z Z) }.
Definition NewShuffleServer : ShuffleServer := mkServer ∅ ∅ ∅.
Definition maxShufflePartitionBytes : Z := 256 * 2 ^ 20.
Definition maxShuffleJobBytes : Z := 2 * 2 ^ 30.

Definition partSize (s : ShuffleServer) (job : string) (p : Z) : Z := default 0 (default ∅ (partSizes s !! job) !! p).
Definition jobSize (s : ShuffleServer) (job : string) : Z := default 0 (jobSizes s !! job).

(** The end of a stream: the blob is added.  The tables of the job are created
    before the limits are checked, also when they are exceeded; the result is the
    new state, and the error if there is one. *)
Definition commit (s : ShuffleServer) (job : string) (p : Z) (payload : bytes) : ShuffleServer * option string :=
  let s := mkServer (<[job := default ∅ (data s !! job)]> (data s)) (jobSizes s) (<[job := default ∅ (partSizes s !! job)]> (partSizes s)) in
  let newPartSize := partSize s job p + len payload in
  let newJobSize := jobSize s job + len payload in
  if maxShufflePartitionBytes <? newPartSize then (s, Some "shuffle partition size exceeded"%string)
  else if maxShuffleJobBytes <? newJobSize then (s, Some "shuffle job size exceeded"%string)
  else
    let parts := default ∅ (data s !! job) in
    (mkServer (<[job := <[p := default [] (parts !! p) ++ [payload]]> parts]> (data s))
       (<[job := newJobSize]> (jobSizes s))
       (<[job := <[p := newPartSize]> (default ∅ (partSizes s !! job))]> (partSizes s)), None).

(** [PushShuffleData]: the loop over the chunks of one stream. *)
Fixpoint pushLoop (s : ShuffleServer) (chunks : list chunk) (jobID : string) (partitionID : Z) (buf : bytes) : ShuffleServer * option string :=
  match chunks with
  | [] => if bool_decide (jobID = ""%string) then (s, None) else commit s jobID partitionID buf
  | c :: chunks =>
      if bool_decide (JobId c = ""%string) then (s, Some "job_id is required"%string)
      else
        let '(jobID, partitionID) := if bool_decide (jobID = ""%string) then (JobId c, PartitionId c) else (jobID, partitionID) in
        if negb (bool_decide (JobId c = jobID)) || negb (PartitionId c =? partitionID)
        then (s, Some "all chunks in a stream must target the same job_id and partition_id"%string)
        else
          let incomingSize := len buf + len (Data c) in
          if maxShufflePartitionBytes <? incomingSize then (s, Some "shuffle partition stream exceeds max size"%string)
          else if maxShufflePartitionBytes <? partSize s jobID partitionID + incomingSize then (s, Some "shuffle partition size exceeded"%string)
          else if maxShuffleJobBytes <? jobSize s jobID + incomingSize then (s, Some "shuffle job size exceeded"%string)
          else pushLoop s chunks jobID partitionID (buf ++ Data c)
  end.
Definition PushShuffleData (s : ShuffleServer) (chunks : list chunk) : ShuffleServer * option string := pushLoop s chunks "" 0 [].

(** A map task delivers its partitions one after the other. *)
Definition pushPartition (job : string) (s : ShuffleServer) (part : Z * list bytes) : ShuffleServer * option string :=
  PushShuffleData s (map (fun d => mkChunk job part.1 d []) part.2).

Definition pushAll (job : string) (s : ShuffleServer) (parts : list (Z * list bytes)) : ShuffleServer * option string :=
  fold_left (fun st part => match st.2 with Some _ => st | None => pushPartition job st.1 part end) parts (s, None).

Section Service.
Context (sha256hex : bytes -> bytes).

(** [GetShuffleData]: the chunks of every blob and a delimiter with its checksum. *)
Fixpoint blobChunks (fuel : nat) (blob : bytes) : list bytes :=
  match blob, fuel with
  | [], _ | _, O => []
  | _, S fuel => take (Z.to_nat shuffleChunkSizeBytes) blob :: blobChunks fuel (drop (Z.to_nat shuffleChunkSizeBytes) blob)
  end.
Definition segmentChunks (job : string) (p : Z) (blob : bytes) : list chunk :=
  map (fun d => mkChunk job p d []) (blobChunks (length blob) blob) ++ [mkChunk job p [] (sha256hex blob)].
Definition GetShuffleData (s : ShuffleServer) (job : string) (p : Z) : outcome (list chunk) :=
  match data s !! job with
  | None => Throw "no shuffle data for job"
  | Some jobData => Ret (match jobData !! p with None => [] | Some blobs => concat (map (segmentChunks job p) blobs) end)
  end.

(** * A reduce task *)

(** [downloadShuffleInputsFromService]: the segments that have data.  [expected]
    are the checksums of the assignment. *)
Definition resolveExpectedChecksum (expected : list bytes) (idx : nat) (chunkChecksum : bytes) : outcome bytes :=
  let fromAssignment := default [] (expected !! idx) in
  let chunkChecksum := TrimSpace chunkChecksum in
  if bool_decide (fromAssignment <> []) && bool_decide (chunkChecksum <> []) && bool_decide (fromAssignment <> chunkChecksum)
  then Throw "segment checksum metadata mismatch"
  else Ret (if bool_decide (fromAssignment <> []) then fromAssignment else chunkChecksum).
Definition validateChecksumHex (content expectedChecksum : bytes) : outcome unit :=
  if bool_decide (expectedChecksum = []) then Ret tt
  else if bool_decide (sha256hex content = expectedChecksum) then Ret tt else Throw "SHA-256 mismatch".
Fixpoint receive (expected : list bytes) (chunks : list chunk) (readers : list bytes) (segment : bytes) : outcome (list bytes) :=
  match chunks with
  | [] =>
      match segment with
      | [] => Ret readers
      | _ =>
          sum ← resolveExpectedChecksum expected (length readers) [];
          _ ← validateChecksumHex segment sum;
          Ret (readers ++ [segment])
      end
  | c :: chunks =>
      match Data c with
      | [] =>
          match segment with
          | [] => receive expected chunks readers segment
          | _ =>
              sum ← resolveExpectedChecksum expected (length readers) (SegmentChecksum c);
              _ ← validateChecksumHex segment sum;
              receive expected chunks (readers ++ [segment]) []
          end
      | d => receive expected chunks readers (segment ++ d)
      end
  end.

(** [mergeShuffleInputs], and the input of the reducer: [None] when there is none
    to run. *)
Definition mergeShuffleInputs (Unmarshal : bytes -> option KV) (shuffleBatchSize shuffleMaxRecordBytes : Z) (readers : list bytes) : outcome bytes :=
  '(merged, _) ← MergeInputs Unmarshal readers
    (mkMergeConfig (if 0 <? shuffleBatchSize then shuffleBatchSize else BatchSize DefaultMergeConfig)
                   (if 0 <? shuffleMaxRecordBytes then shuffleMaxRecordBytes else MaxRecordBytes DefaultMergeConfig));
  Ret merged.
Definition reduceInput (Unmarshal : bytes -> option KV) (shuffleBatchSize shuffleMaxRecordBytes : Z) (s : ShuffleServer) (job : string) (p : Z)
    (expected : list bytes) : outcome (option bytes) :=
  chunks ← GetShuffleData s job p;
  readers ← receive expected chunks [] [];
  match readers with
  | [] => Ret None
  | _ => merged ← mergeShuffleInputs Unmarshal shuffleBatchSize shuffleMaxRecordBytes readers; Ret (Some merged)
  end.

End Service.
