(* ===== verification/MapReduceFacts.v ===== *)
(** The data path of a job: every record of the mappers reaches the reducer of
    its partition once, in the order of the keys. *)
From Stdlib Require Import ZArith Lia.
From stdpp Require Import base gmap strings list sorting.
From S2P Require Import Prelude JsString InputSplit Shuffle ShuffleFacts MapReduce.

Local Open Scope Z_scope.
Open Scope js_scope.

Lemma encodeAll_app l k : encodeAll (l ++ k) = encodeAll l ++ encodeAll k.
Proof. unfold encodeAll. by rewrite map_app, concat_app. Qed.

Lemma encodeAll_one r : encodeAll [r] = jsonLine r ++ [NL].
Proof. unfold encodeAll. cbn [map concat]. by rewrite app_nil_r. Qed.

Lemma blank_json r : blank (jsonLine r) = false.
Proof. done. Qed.

(** * The sorter *)

Section SorterFacts.
Context (Unmarshal : bytes -> option KV) (sortSlice : list KV -> list KV).
Context (HsortSlice : forall l, StronglySorted kvLe (sortSlice l) /\ sortSlice l ≡ₚ l).

Abbreviation ready := (readable Unmarshal DefaultMaxRecordBytes).

(** The runs on disk are sorted, and they and the buffer have the records added. *)
Definition holds (s : spillingSorter) (rs : list KV) : Prop :=
  exists runs, spillFiles s = map encodeAll runs /\ Forall (StronglySorted kvLe) runs /\ concat runs ++ buffer s ≡ₚ rs.

Lemma spill_runs s rs : holds s rs ->
  exists runs, spillFiles (spill sortSlice s) = map encodeAll runs /\ Forall (StronglySorted kvLe) runs /\ concat runs ≡ₚ rs /\ buffer (spill sortSlice s) = [].
Proof.
  intros (runs & Hf & Hs & Hp). unfold spill. destruct (buffer s) as [|b bs] eqn:Eb; [exists runs; rewrite app_nil_r in Hp; by rewrite Eb|]. rewrite <- Eb in *.
  destruct (HsortSlice (buffer s)) as [H1 H2]. exists (runs ++ [sortSlice (buffer s)]). cbn [spillFiles buffer]. split_and!; [..|done].
  - by rewrite map_app, Hf.
  - apply Forall_app. split; [done|by constructor].
  - rewrite concat_app. cbn [concat]. by rewrite !app_nil_r, H2.
Qed.

Lemma spill_holds s rs : holds s rs -> holds (spill sortSlice s) rs.
Proof. intros (runs & Hf & Hs & Hp & Hb)%spill_runs. exists runs. by rewrite Hb, app_nil_r. Qed.

Lemma Add_holds s rs r : holds s rs -> holds (Add sortSlice s r) (rs ++ [r]).
Proof.
  intros (runs & Hf & Hs & Hp). unfold Add. set (s' := mkSorter _ _ _ _).
  assert (holds s' (rs ++ [r])) by (exists runs; cbn [spillFiles buffer s']; split_and!; [done|done|]; by rewrite app_assoc, Hp).
  destruct (_ <=? _); [by apply spill_holds|done].
Qed.

Lemma adds_hold s rs rs' : holds s rs -> holds (fold_left (Add sortSlice) rs' s) (rs ++ rs').
Proof.
  revert s rs. induction rs' as [|r rs' IH]; intros s rs H; cbn [fold_left]; [by rewrite app_nil_r|].
  rewrite (cons_middle r rs rs'), app_assoc. by apply IH, Add_holds.
Qed.

Lemma new_holds t : holds (newSpillingSorter t) [].
Proof. exists []. split_and!; [done|constructor|done]. Qed.

Lemma Finalize_ok s rs : Forall ready rs -> holds s rs ->
  exists out, Finalize Unmarshal sortSlice s = Ret (encodeAll out) /\ StronglySorted kvLe out /\ out ≡ₚ rs.
Proof.
  intros Hr H. unfold Finalize. destruct (spillFiles s) as [|f fs] eqn:Ef.
  - destruct H as (runs & Hf & _ & Hp). rewrite Ef in Hf. destruct runs; [|done]. destruct (HsortSlice (buffer s)) as [H1 H2].
    eexists. split; [done|]. split; [done|]. by rewrite H2.
  - destruct (spill_runs s rs H) as (runs & -> & Hs & Hp & _).
    destruct (MergeInputs_ok Unmarshal (mkMergeConfig 0 0) runs) as (out & stats & -> & Hm & _); [|done|].
    { change (MaxRecordBytes (clampConfig (mkMergeConfig 0 0))) with DefaultMaxRecordBytes.
      apply Forall_forall. intros run Hrun. apply Forall_forall. intros r Hrr. rewrite Forall_forall in Hr. apply Hr. rewrite <- Hp.
      apply list_elem_of_split in Hrun as (? & ? & ->). rewrite concat_app. apply elem_of_app. right. apply elem_of_app. by left. }
    rewrite bind_Ret. exists out. split_and!; [done|apply Hm|]. by rewrite (mergeOf_perm _ _ Hm).
Qed.

(** * The loops over records *)

Lemma eachRecord_encoded {S} (f : S -> bytes -> KV -> S) rs : Forall ready rs -> forall fuel st, (length rs < fuel)%nat ->
  eachRecord Unmarshal fuel (encodeAll rs) f st = Ret (fold_left (fun st r => f st (jsonLine r) r) rs st).
Proof.
  induction 1 as [|r rs Hr Hrs IH]; intros fuel st Hf; [by destruct fuel|]. destruct fuel as [|fuel]; [lia|]. cbn [eachRecord fold_left].
  pose proof (nextRecord_encoded Unmarshal DefaultMaxRecordBytes r rs Hr) as Hn. unfold nextRecord in Hn.
  destruct (Scan DefaultMaxRecordBytes (encodeAll (r :: rs))) as [| |line rest] eqn:Es; try done.
  assert (line = jsonLine r) as ->.
  { unfold Scan, encodeAll, Encode in Es. cbn [map concat] in Es. rewrite <- app_assoc in Es. cbn [app] in Es.
    destruct (jsonLine r ++ NL :: concat (map (fun r => jsonLine r ++ [NL]) rs)) eqn:E; [by destruct (jsonLine r)|]. rewrite <- E in Es.
    rewrite cutLine_line in Es by (apply jsonLine_noNL, Hr). destruct (_ <=? _); [done|]. injection Es as <- _. apply dropCR_json. }
  rewrite blank_json. destruct Hr as (_ & Hu & _). rewrite Hu in Hn |- *. injection Hn as ->. apply IH. cbn in Hf. lia.
Qed.

(** A loop that does not look at the lines folds over the records. *)
Lemma eachRecord_fold {S} (g : S -> KV -> S) fuel : forall s acc rs st,
  eachRecord Unmarshal fuel s (fun records _ rec => records ++ [rec]) acc = Ret (acc ++ rs) ->
  eachRecord Unmarshal fuel s (fun st _ rec => g st rec) st = Ret (fold_left g rs st).
Proof.
  assert (Hacc : forall fuel s acc out, eachRecord Unmarshal fuel s (fun records _ rec => records ++ [rec]) acc = Ret out -> exists rs, out = acc ++ rs).
  { clear fuel. induction fuel as [|fuel IH]; intros s acc out; cbn [eachRecord]; destruct (Scan _ s) as [| |line rest]; try done.
    1, 2: intros [= <-]; exists []; by rewrite app_nil_r.
    destruct (blank line); [by apply IH|]. destruct (Unmarshal line) as [r|]; [|done]. intros (rs & ->)%IH. exists (r :: rs). by rewrite <- app_assoc. }
  induction fuel as [|fuel IH]; intros s acc rs st; cbn [eachRecord]; destruct (Scan _ s) as [| |line rest]; try done.
  1, 2: intros [= H]; rewrite <- (app_nil_r acc) in H at 1; apply app_inv_head in H as <-; done.
  destruct (blank line); [apply IH|]. destruct (Unmarshal line) as [r|]; [|done]. intros H. destruct (Hacc _ _ _ _ H) as (rs' & Hrs').
  rewrite <- app_assoc in Hrs'. apply app_inv_head in Hrs' as ->. cbn [app fold_left]. apply (IH rest (acc ++ [r])). by rewrite H, <- app_assoc.
Qed.

Lemma sortOutput_ok threshold stdout rs : parseJSONLRecords Unmarshal stdout = Ret rs -> Forall ready rs ->
  exists out, sortOutput Unmarshal sortSlice threshold stdout = Ret (encodeAll out) /\ StronglySorted kvLe out /\ out ≡ₚ rs.
Proof.
  intros Hp Hr. unfold sortOutput. rewrite (eachRecord_fold (Add sortSlice) _ stdout [] rs) by done. rewrite bind_Ret.
  apply Finalize_ok; [done|]. apply (adds_hold _ []). apply new_holds.
Qed.

End SorterFacts.

(** * Partitions *)

Lemma hashPartition_range key R : 0 < R -> 0 <= hashPartition key R < R.
Proof. intros H. unfold hashPartition. by apply Z.mod_pos_bound. Qed.

(** The bytes that a writer was given. *)
Definition written (w : partitionWriter) : bytes := concat (pw_sent w) ++ pw_buf w.
Definition fullChunks (w : partitionWriter) : Prop := Forall (fun c => c <> []) (pw_sent w).

Lemma sendFull_ok fuel w : fullChunks w -> written (sendFull fuel w) = written w /\ fullChunks (sendFull fuel w).
Proof.
  revert w. induction fuel as [|fuel IH]; intros w Hw; [done|]. cbn [sendFull]. destruct (Z.leb_spec shuffleChunkSizeBytes (len (pw_buf w))) as [Hl|]; [|done].
  set (w' := mkWriter _ _). assert (Hw' : written w' = written w).
  { unfold written, w'. cbn [pw_sent pw_buf]. rewrite concat_app. cbn [concat]. by rewrite app_nil_r, <- app_assoc, take_drop. }
  rewrite <- Hw'. apply IH. unfold fullChunks, w'. cbn [pw_sent]. apply Forall_app. split; [done|]. apply Forall_singleton.
  intros Ht%(f_equal length). rewrite length_take in Ht. unfold shuffleChunkSizeBytes, len in *. change (length (@nil Z)) with 0%nat in Ht. lia.
Qed.

Lemma pwWrite_ok w p : fullChunks w -> written (pwWrite w p) = written w ++ p /\ fullChunks (pwWrite w p).
Proof.
  intros Hw. unfold pwWrite. cbn [pw_buf]. destruct (sendFull_ok (length (pw_buf w ++ p)) (mkWriter (pw_sent w) (pw_buf w ++ p)) Hw) as [-> ?].
  split; [|done]. unfold written. cbn [pw_sent pw_buf]. by rewrite app_assoc.
Qed.

Lemma pwClose_ok w : fullChunks w -> concat (pwClose w) = written w /\ Forall (fun c => c <> []) (pwClose w).
Proof.
  intros Hw. unfold pwClose, written. destruct (pw_buf w) as [|b bs] eqn:E; [by rewrite app_nil_r|].
  rewrite concat_app. cbn [concat]. rewrite app_nil_r. split; [done|]. apply Forall_app. split; [done|]. by apply Forall_singleton.
Qed.

Definition inPart (R p : Z) (rs : list KV) : list KV := filter (fun r => hashPartition (Key r) R = p) rs.

#[export] Instance inPart_proper R p : Proper ((≡ₚ) ==> (≡ₚ)) (inPart R p).
Proof. intros l l' H. unfold inPart. by rewrite H. Qed.

Lemma inPart_app R p l k : inPart R p (l ++ k) = inPart R p l ++ inPart R p k.
Proof. apply filter_app. Qed.

(** The writers after some records: one per partition that has any. *)
Definition partitioned (R : Z) (st : gmap Z partitionWriter * list Z) (rs : list KV) : Prop :=
  NoDup st.2 /\ (forall p, p ∈ st.2 <-> is_Some (st.1 !! p)) /\
  forall p, match st.1 !! p with
            | Some w => written w = encodeAll (inPart R p rs) /\ fullChunks w /\ inPart R p rs <> []
            | None => inPart R p rs = []
            end.

Lemma partitionStep_ok R st rs r : partitioned R st rs -> partitioned R (partitionStep R st (jsonLine r) r) (rs ++ [r]).
Proof.
  destruct st as [writers order]. intros (Hnd & Hdom & Hw). unfold partitionStep. cbn [fst snd] in *. set (p := hashPartition (Key r) R).
  assert (Hone : inPart R p [r] = [r]) by (unfold inPart; by rewrite filter_cons_True).
  assert (Hother : forall q, q <> p -> inPart R q [r] = []) by (intros q Hq; unfold inPart; rewrite filter_cons_False by (by apply not_eq_sym); done).
  assert (Hopen : exists pw order', match writers !! p with Some pw => (pw, order) | None => (mkWriter [] [], order ++ [p]) end = (pw, order') /\
    written pw = encodeAll (inPart R p rs) /\ fullChunks pw /\ NoDup order' /\ forall q, q ∈ order' <-> q = p \/ q ∈ order).
  { pose proof (Hw p) as Hp. destruct (writers !! p) as [pw|] eqn:Ep.
    - exists pw, order. destruct Hp as (? & ? & _). split_and!; try done. intros q. split; [by right|]. intros [->|?]; [|done]. apply Hdom. eauto.
    - exists (mkWriter [] []), (order ++ [p]). rewrite Hp. split_and!; [done|done|constructor| |].
      + apply NoDup_app. split_and!; [done| |apply NoDup_singleton]. intros q Hq ->%list_elem_of_singleton. apply Hdom in Hq. rewrite Ep in Hq. by destruct Hq.
      + intros q. rewrite elem_of_app, list_elem_of_singleton. tauto. }
  destruct Hopen as (pw & order' & -> & Hpw & Hfull & Hnd' & Hin).
  destruct (pwWrite_ok pw (jsonLine r) Hfull) as [H1 H2]. destruct (pwWrite_ok (pwWrite pw (jsonLine r)) [NL] H2) as [H3 H4].
  cbn [fst snd]. split_and!; [done| |]; cbn [fst snd].
  - intros q. rewrite Hin. destruct (decide (q = p)) as [->|Hq]; [rewrite lookup_insert_eq; split; [eauto|by left]|].
    rewrite lookup_insert_ne by done. rewrite <- Hdom. tauto.
  - intros q. rewrite inPart_app. destruct (decide (q = p)) as [->|Hq].
    + rewrite lookup_insert_eq, Hone. split_and!; [|done|by destruct (inPart R p rs)].
      by rewrite H3, H1, Hpw, encodeAll_app, encodeAll_one, <- app_assoc.
    + rewrite lookup_insert_ne, (Hother q Hq), app_nil_r by done. apply Hw.
Qed.

Lemma partition_fold R rs rs' st : partitioned R st rs -> partitioned R (fold_left (fun st r => partitionStep R st (jsonLine r) r) rs' st) (rs ++ rs').
Proof.
  revert st rs. induction rs' as [|r rs' IH]; intros st rs H; cbn [fold_left]; [by rewrite app_nil_r|].
  rewrite (cons_middle r rs rs'), app_assoc. by apply IH, partitionStep_ok.
Qed.

(** [sortInts] sorts. *)
Lemma shiftIn_ok v l : StronglySorted (flip Z.le) l -> shiftIn v l ≡ₚ v :: l /\ StronglySorted (flip Z.le) (shiftIn v l).
Proof.
  induction 1 as [|x l Hs [IHp IHs] Hx]; cbn [shiftIn]; [split; [done|repeat constructor]|]. destruct (Z.ltb_spec v x) as [Hv|Hv].
  - split; [by rewrite IHp, Permutation_swap|]. constructor; [done|]. rewrite IHp. constructor; [unfold flip; lia|done].
  - split; [done|]. constructor; [by constructor|]. constructor; [done|]. eapply Forall_impl; [exact Hx|]. unfold flip. intros; lia.
Qed.

Lemma sortInts_ok xs : sortInts xs ≡ₚ xs /\ StronglySorted Z.le (sortInts xs).
Proof.
  unfold sortInts. assert (H : forall acc, StronglySorted (flip Z.le) acc ->
    fold_left (fun acc v => shiftIn v acc) xs acc ≡ₚ xs ++ acc /\ StronglySorted (flip Z.le) (fold_left (fun acc v => shiftIn v acc) xs acc)).
  { induction xs as [|v xs IH]; intros acc Ha; [done|]. cbn [fold_left]. destruct (shiftIn_ok v acc Ha) as [Hp Hs]. destruct (IH _ Hs) as [Hp' Hs'].
    split; [|done]. rewrite Hp', Hp. cbn [app]. by rewrite Permutation_middle. }
  destruct (H [] ltac:(constructor)) as [Hp Hs]. rewrite app_nil_r in Hp. split; [by rewrite <- Permutation_rev|].
  revert Hs. generalize (fold_left (fun acc v => shiftIn v acc) xs []) as l. clear. induction 1 as [|x l Hs IH Hx]; [constructor|]. cbn [rev].
  apply StronglySorted_app. split_and!; [|done|repeat constructor]. intros a b Ha ->%list_elem_of_singleton.
  rewrite Forall_forall in Hx. apply (Hx a). by rewrite <- Permutation_rev in Ha.
Qed.

(** The partitions of one map task with the records [out] in sorted order. *)
Definition partsOf (R : Z) (out : list KV) (parts : list (Z * list bytes)) : Prop :=
  StronglySorted Z.lt parts.*1 /\
  (forall p chunks, (p, chunks) ∈ parts -> concat chunks = encodeAll (inPart R p out) /\ Forall (fun c => c <> []) chunks) /\
  (forall p, p ∈ parts.*1 <-> inPart R p out <> []).

Lemma runMap_ok Unmarshal sortSlice mapper threshold R input stdout rs :
  (forall l, StronglySorted kvLe (sortSlice l) /\ sortSlice l ≡ₚ l) -> 0 < R ->
  mapper input = Ret stdout -> parseJSONLRecords Unmarshal stdout = Ret rs -> Forall (readable Unmarshal DefaultMaxRecordBytes) rs ->
  exists parts out, runMap Unmarshal sortSlice mapper None threshold R input = Ret parts /\ StronglySorted kvLe out /\ out ≡ₚ rs /\ partsOf R out parts.
Proof.
  intros Hss HR Hm Hp Hr. unfold runMap. rewrite Hm, bind_Ret.
  destruct (sortOutput_ok Unmarshal sortSlice Hss threshold stdout rs Hp Hr) as (out & -> & Hsorted & Hperm). rewrite !bind_Ret.
  rewrite (proj2 (Z.leb_gt _ _) HR).
  rewrite (eachRecord_encoded Unmarshal) by (first [by rewrite Hperm|pose proof (encodeAll_length out); lia]). rewrite bind_Ret.
  pose proof (partition_fold R [] out (∅, [])) as Hpart. cbn [app] in Hpart.
  destruct (fold_left _ out (∅, [])) as [writers order] eqn:Ef. cbn beta iota.
  destruct Hpart as (Hnd & Hdom & Hw).
  { split_and!; [constructor| |done]. intros p. cbn [fst snd]. rewrite lookup_empty, elem_of_nil. split; [done|by intros []]. }
  cbn [fst snd] in *. eexists _, out. split; [done|]. split_and!; [done|done|].
  destruct (sortInts_ok order) as [Hsp Hsi].
  set (parts := omap _ (sortInts order)).
  assert (Hfst : parts.*1 = sortInts order).
  { assert (Hall : Forall (fun i => is_Some (writers !! i)) (sortInts order)) by (rewrite Hsp; apply Forall_forall; intros; by apply Hdom).
    unfold parts. clear -Hall. induction Hall as [|i l [w Hw] _ IH]; [done|]. cbn [omap list_omap]. rewrite Hw. cbn. f_equal. exact IH. }
  split_and!.
  - rewrite Hfst. assert (Hnd' : NoDup (sortInts order)) by (by rewrite Hsp). clear -Hsi Hnd'.
    induction Hsi as [|x l Hs IH Hx]; [constructor|]. apply NoDup_cons in Hnd' as [Hnx Hnd']. constructor; [by apply IH|].
    rewrite Forall_forall in *. intros y Hy. specialize (Hx y Hy). assert (x <> y) by (by intros ->). lia.
  - intros p chunks Hin. unfold parts in Hin. apply list_elem_of_omap in Hin as (i & Hi & Heq).
    specialize (Hw i). destruct (writers !! i) as [w|]; [|done]. injection Heq as <- <-. destruct Hw as (Hw1 & Hw2 & _).
    destruct (pwClose_ok w Hw2) as [-> ?]. done.
  - intros p. rewrite Hfst, Hsp, Hdom. specialize (Hw p). destruct (writers !! p) as [w|].
    + split; [by intros _; apply Hw|eauto].
    + split; [by intros []|done].
Qed.

(** * The shuffle service *)

Definition blobs (s : ShuffleServer) (job : string) (p : Z) : list bytes := default [] (default ∅ (data s !! job) !! p).

(** The state after a push of [payload]. *)
Definition pushed (job : string) (p : Z) (payload : bytes) (s s' : ShuffleServer) : Prop :=
  is_Some (data s' !! job) /\
  (forall q, blobs s' job q = blobs s job q ++ if decide (q = p) then [payload] else []) /\
  (forall q, partSize s' job q = partSize s job q + if decide (q = p) then len payload else 0) /\
  jobSize s' job = jobSize s job + len payload.

Lemma commit_ok s job p payload : partSize s job p + len payload <= maxShufflePartitionBytes -> jobSize s job + len payload <= maxShuffleJobBytes ->
  exists s', commit s job p payload = (s', None) /\ pushed job p payload s s'.
Proof.
  intros Hp Hj. unfold commit. cbn [data jobSizes partSizes].
  assert (H1 : forall q, partSize (mkServer (<[job := default ∅ (data s !! job)]> (data s)) (jobSizes s) (<[job := default ∅ (partSizes s !! job)]> (partSizes s))) job q
                         = partSize s job q) by (intros q; unfold partSize; cbn [partSizes]; by rewrite lookup_insert_eq).
  rewrite H1. change (jobSize (mkServer _ (jobSizes s) _) job) with (jobSize s job).
  rewrite (proj2 (Z.ltb_ge _ _) Hp), (proj2 (Z.ltb_ge _ _) Hj). eexists. split; [done|]. unfold pushed, blobs, partSize, jobSize. cbn [data partSizes jobSizes].
  rewrite !lookup_insert_eq. cbn [default from_option id]. split_and!; [eauto| | |done]; intros q; destruct (decide (q = p)) as [->|Hq].
  - by rewrite lookup_insert_eq.
  - by rewrite lookup_insert_ne, app_nil_r.
  - by rewrite lookup_insert_eq.
  - by rewrite lookup_insert_ne, Z.add_0_r.
Qed.

Lemma pushLoop_ok s job p chunks : forall jid pid buf, job <> ""%string -> (jid = ""%string /\ buf = [] \/ jid = job /\ pid = p) -> (jid = job \/ chunks <> []) ->
  partSize s job p + len (buf ++ concat chunks) <= maxShufflePartitionBytes -> jobSize s job + len (buf ++ concat chunks) <= maxShuffleJobBytes ->
  0 <= partSize s job p -> 0 <= jobSize s job ->
  pushLoop s (map (fun d => mkChunk job p d []) chunks) jid pid buf = commit s job p (buf ++ concat chunks).
Proof.
  induction chunks as [|d chunks IH]; intros jid pid buf Hjob Hid Hne Hp Hj H0 H0'; cbn [map pushLoop].
  - destruct Hne as [->|]; [|done]. destruct Hid as [[-> _]|[_ ->]]; [done|]. rewrite bool_decide_eq_false_2 by done. cbn [concat]. by rewrite app_nil_r.
  - cbn [JobId PartitionId Data]. rewrite bool_decide_eq_false_2 by done.
    assert ((if bool_decide (jid = ""%string) then (job, p) else (jid, pid)) = (job, p)) as ->.
    { destruct Hid as [[-> _]|[-> ->]]; [by rewrite bool_decide_eq_true_2|by case_bool_decide]. }
    rewrite bool_decide_eq_true_2, Z.eqb_refl by done. cbn [negb orb concat] in *.
    rewrite !len_app in Hp, Hj. pose proof (len_nonneg (concat chunks)).
    rewrite !(proj2 (Z.ltb_ge _ _)) by lia. rewrite (app_assoc buf d). apply IH; try done; [by right|by left|rewrite !len_app; lia..].
Qed.

Lemma pushPartition_ok s job p chunks : job <> ""%string -> chunks <> [] ->
  partSize s job p + len (concat chunks) <= maxShufflePartitionBytes -> jobSize s job + len (concat chunks) <= maxShuffleJobBytes ->
  0 <= partSize s job p -> 0 <= jobSize s job ->
  exists s', pushPartition job s (p, chunks) = (s', None) /\ pushed job p (concat chunks) s s'.
Proof.
  intros Hjob Hne Hp Hj H0 H0'. unfold pushPartition, PushShuffleData. cbn [fst snd]. rewrite pushLoop_ok; try done; [|by left|by right].
  cbn [app]. by apply commit_ok.
Qed.

(** The payloads of a sequence of pushes for a partition. *)
Definition payloads (p : Z) (parts : list (Z * list bytes)) : list bytes := map (fun part => concat part.2) (filter (fun part => part.1 = p) parts).

Lemma payloads_cons p q chunks parts : payloads p ((q, chunks) :: parts) = (if decide (p = q) then [concat chunks] else []) ++ payloads p parts.
Proof. unfold payloads. rewrite filter_cons. cbn [fst]. destruct (decide (q = p)), (decide (p = q)); try congruence; done. Qed.

Lemma pushAll_ok job parts : job <> ""%string -> Forall (fun part => part.2 <> []) parts -> forall s,
  (forall p, 0 <= partSize s job p /\ partSize s job p + len (concat (payloads p parts)) <= maxShufflePartitionBytes) ->
  0 <= jobSize s job /\ jobSize s job + len (concat (map (fun part => concat part.2) parts)) <= maxShuffleJobBytes ->
  exists s', pushAll job s parts = (s', None) /\ (forall p, blobs s' job p = blobs s job p ++ payloads p parts) /\ (parts <> [] -> is_Some (data s' !! job)) /\
    (is_Some (data s !! job) -> is_Some (data s' !! job)).
Proof.
  intros Hjob. unfold pushAll. induction 1 as [|[q chunks] parts Hne _ IH]; intros s Hpart Hjobs; cbn [fold_left].
  { exists s. split_and!; try done. intros p. by rewrite app_nil_r. }
  cbn [snd fst map concat] in *. pose proof (Hpart q) as Hq. rewrite payloads_cons, decide_True in Hq by done. cbn [app concat] in Hq.
  rewrite len_app in Hq, Hjobs. pose proof (len_nonneg (concat (payloads q parts))). pose proof (len_nonneg (concat (map (fun part => concat part.2) parts))).
  destruct (pushPartition_ok s job q chunks) as (s1 & -> & H1 & H2 & H3 & H4); [done|done|lia..|].
  pose proof (len_nonneg (concat chunks)).
  destruct (IH s1) as (s' & -> & Hb & _ & Hd).
  - intros p. rewrite H3. specialize (Hpart p). rewrite payloads_cons in Hpart. destruct (decide (p = q)) as [->|]; cbn [app concat] in Hpart; [rewrite len_app in Hpart|]; lia.
  - rewrite H4. lia.
  - exists s'. split_and!; [done| |by intros _; apply Hd|by intros _; apply Hd]. intros p. rewrite Hb, H2, payloads_cons, <- app_assoc. by destruct (decide (p = q)).
Qed.

#[export] Instance payloads_proper p : Proper ((≡ₚ) ==> (≡ₚ)) (payloads p).
Proof. intros l l' H. unfold payloads. by rewrite H. Qed.

Lemma payloads_app p l k : payloads p (l ++ k) = payloads p l ++ payloads p k.
Proof. unfold payloads. by rewrite filter_app, map_app. Qed.

Lemma payloads_none p parts : p ∉ parts.*1 -> payloads p parts = [].
Proof.
  induction parts as [|[q chunks] parts IH]; [done|]. rewrite fmap_cons, not_elem_of_cons. cbn [fst]. intros [Hq Hn].
  rewrite payloads_cons, decide_False, IH by done. done.
Qed.

(** One map task pushes at most one payload for a partition. *)
Lemma partsOf_payloads R out parts p : partsOf R out parts -> payloads p parts = map encodeAll (if decide (inPart R p out = []) then [] else [inPart R p out]).
Proof.
  intros (Hsort & Hparts & Hdom). destruct (decide (inPart R p out = [])) as [He|He].
  { apply payloads_none. by intros Hin%Hdom. }
  apply Hdom, list_elem_of_fmap in He as ([q chunks] & -> & Hin). cbn [fst]. destruct (Hparts _ _ Hin) as [Hc _].
  apply list_elem_of_split in Hin as (A & B & ->). rewrite fmap_app, fmap_cons in Hsort. cbn [fst] in Hsort.
  apply StronglySorted_app in Hsort as (HAB & _ & [_ HB]%StronglySorted_inv).
  rewrite payloads_app, payloads_cons, decide_True, !payloads_none by done || (intros Hq; first [by rewrite Forall_forall in HB; apply HB in Hq; lia|specialize (HAB q q Hq ltac:(left)); lia]).
  cbn [app map]. by rewrite Hc.
Qed.

Lemma inParts_perm R ps out : NoDup ps -> Forall (fun r => hashPartition (Key r) R ∈ ps) out -> concat (map (fun p => inPart R p out) ps) ≡ₚ out.
Proof.
  intros Hnd. induction 1 as [|r out Hr _ IH]; [clear; by induction ps|].
  apply list_elem_of_split in Hr as (A & B & ->). apply NoDup_app in Hnd as (_ & HA & [HB _]%NoDup_cons).
  assert (Hskip : forall ps, hashPartition (Key r) R ∉ ps -> map (fun p => inPart R p (r :: out)) ps = map (fun p => inPart R p out) ps).
  { intros ps Hps. apply map_ext_in. intros p Hp%list_elem_of_In. unfold inPart. rewrite filter_cons_False; [done|]. by intros <-. }
  rewrite map_app, map_cons, concat_app in *. cbn [concat] in *.
  rewrite !Hskip; [|done|intros Hx; by apply (HA _ Hx); left].
  assert (inPart R (hashPartition (Key r) R) (r :: out) = r :: inPart R (hashPartition (Key r) R) out) as -> by (unfold inPart; by rewrite filter_cons_True).
  cbn [app]. by rewrite <- Permutation_middle, IH.
Qed.

Lemma encodeAll_len_perm l l' : l ≡ₚ l' -> len (encodeAll l) = len (encodeAll l').
Proof. intros H. unfold len, encodeAll. by rewrite H. Qed.

Lemma partsOf_total R out parts : partsOf R out parts -> len (concat (map (fun part => concat part.2) parts)) = len (encodeAll out).
Proof.
  intros (Hsort & Hparts & Hdom).
  assert (Hnd : NoDup parts.*1).
  { clear -Hsort. induction Hsort as [|x l _ IH Hx]; constructor; [|done]. rewrite Forall_forall in Hx. intros Hin%Hx. lia. }
  assert (Hcov : Forall (fun r => hashPartition (Key r) R ∈ parts.*1) out).
  { apply Forall_forall. intros r Hr. apply Hdom. intros He. apply (elem_of_nil r). rewrite <- He. apply list_elem_of_filter. done. }
  rewrite <- (encodeAll_len_perm _ _ (inParts_perm R _ _ Hnd Hcov)). f_equal. clear Hsort Hdom Hnd Hcov.
  induction parts as [|[p chunks] parts IH]; [done|]. change (((p, chunks) :: parts).*1) with (p :: parts.*1).
  cbn [map concat snd]. rewrite encodeAll_app. f_equal; [by apply Hparts; left|].
  apply IH. intros q chunks' Hq. apply Hparts. by right.
Qed.

(** * What a reducer receives *)

Definition hexByte (c : Z) : Prop := 48 <= c <= 57 \/ 97 <= c <= 102.

Lemma spaceSize_hex c s : hexByte c -> spaceSize (c :: s) = 0%nat.
Proof.
  intros H. unfold spaceSize, byteIn. assert ((9 <=? c) && (c <=? 13) || (c =? 32) = false) as -> by (unfold hexByte in H; lia).
  destruct s as [|b s]; [done|]. rewrite (proj2 (Z.eqb_neq c 194)) by (unfold hexByte in H; lia). cbn [andb].
  destruct s as [|d s]; [done|]. rewrite !(proj2 (Z.eqb_neq c _)) by (unfold hexByte in H; lia). done.
Qed.

Lemma trimLeft_hex fuel s : Forall hexByte s -> trimLeft fuel s = s.
Proof. intros [|c s' Hc _]; [by destruct fuel|]. destruct fuel; [done|]. cbn [trimLeft]. by rewrite spaceSize_hex. Qed.

Lemma TrimSpace_hex s : Forall hexByte s -> TrimSpace s = s.
Proof.
  intros H. unfold TrimSpace. rewrite trimLeft_hex by done. induction H as [|c s Hc Hs IH]; [done|]. cbn [trimRight].
  unfold blank at 1. rewrite trimLeft_hex by (by constructor). rewrite bool_decide_eq_false_2 by done. by rewrite IH.
Qed.

Section ReceiveFacts.
Context (sha256hex : bytes -> bytes) (Hhex : forall b, Forall hexByte (sha256hex b)).

Lemma blobChunks_ok fuel : forall blob, (length blob <= fuel)%nat -> concat (blobChunks fuel blob) = blob /\ Forall (fun c => c <> []) (blobChunks fuel blob).
Proof.
  induction fuel as [|fuel IH]; intros blob Hf; [destruct blob; [done|cbn in Hf; lia]|]. destruct blob as [|b bs]; [done|].
  remember (b :: bs) as blob eqn:Eb. assert (Hl : (0 < length blob)%nat) by (subst; cbn; lia).
  assert (blobChunks (S fuel) blob = take (Z.to_nat shuffleChunkSizeBytes) blob :: blobChunks fuel (drop (Z.to_nat shuffleChunkSizeBytes) blob)) as -> by (by subst).
  destruct (IH (drop (Z.to_nat shuffleChunkSizeBytes) blob)) as [H1 H2]; [rewrite length_drop; unfold shuffleChunkSizeBytes; lia|].
  cbn [concat]. rewrite H1, take_drop. split; [done|]. constructor; [|done].
  intros Ht%(f_equal length). rewrite length_take in Ht. change (length (@nil Z)) with 0%nat in Ht. unfold shuffleChunkSizeBytes in Ht. lia.
Qed.

Lemma receive_data expected job p rest readers ds : Forall (fun c => c <> []) ds -> forall seg,
  receive sha256hex expected (map (fun d => mkChunk job p d []) ds ++ rest) readers seg = receive sha256hex expected rest readers (seg ++ concat ds).
Proof.
  induction 1 as [|d ds Hd _ IH]; intros seg; cbn [map app concat]; [by rewrite app_nil_r|]. cbn [receive Data].
  destruct d as [|c d]; [done|]. by rewrite IH, <- app_assoc.
Qed.

(** The checksum that the assignment lists for a segment, if any, is its own. *)
Definition checksumsAgree (expected : list bytes) (n : nat) (bs : list bytes) : Prop :=
  forall i b, bs !! i = Some b -> default [] (expected !! (n + i)%nat) = [] \/ default [] (expected !! (n + i)%nat) = sha256hex b.

Lemma receive_ok expected job p bs : Forall (fun b => b <> []) bs -> forall readers, checksumsAgree expected (length readers) bs ->
  receive sha256hex expected (concat (map (segmentChunks sha256hex job p) bs)) readers [] = Ret (readers ++ bs).
Proof.
  induction 1 as [|b bs Hb _ IH]; intros readers Hsum; cbn [map concat]; [by rewrite app_nil_r|].
  unfold segmentChunks at 1. rewrite <- !app_assoc. destruct (blobChunks_ok (length b) b ltac:(lia)) as [Hc Hn]. rewrite receive_data, Hc by done.
  cbn [app receive Data SegmentChecksum]. destruct b as [|b0 b1]; [done|]. set (b := b0 :: b1) in *.
  assert (Hres : exists sum, resolveExpectedChecksum expected (length readers) (sha256hex b) = Ret sum /\ validateChecksumHex sha256hex b sum = Ret tt).
  { unfold resolveExpectedChecksum. rewrite TrimSpace_hex by done. specialize (Hsum 0%nat b eq_refl). rewrite Nat.add_0_r in Hsum.
    assert (Hself : validateChecksumHex sha256hex b (sha256hex b) = Ret tt) by (unfold validateChecksumHex; by case_bool_decide; rewrite ?bool_decide_eq_true_2).
    destruct Hsum as [->| ->].
    - rewrite (bool_decide_eq_false_2 (@nil Z <> [])) by (intros H; by apply H). cbn [andb]. eauto.
    - rewrite (bool_decide_eq_false_2 (sha256hex b <> sha256hex b)) by (intros H; by apply H). rewrite andb_false_r. case_bool_decide; eauto. }
  destruct Hres as (sum & -> & Hv). rewrite bind_Ret, Hv, bind_Ret.
  rewrite IH, <- app_assoc; [done|]. intros i c Hi. specialize (Hsum (S i) c Hi). rewrite length_app. cbn [length]. by rewrite <- Nat.add_assoc.
Qed.

End ReceiveFacts.

(** * The whole way *)

(** The segments of a partition, one for every task that has records for it. *)
Definition partSegments (R p : Z) (outs : list (list KV)) : list (list KV) :=
  concat (map (fun out => if decide (inPart R p out = []) then [] else [inPart R p out]) outs).

Lemma partSegments_concat R p outs : concat (partSegments R p outs) = inPart R p (concat outs).
Proof.
  unfold partSegments. induction outs as [|out outs IH]; [done|]. cbn [map concat]. rewrite concat_app, IH, inPart_app. f_equal.
  case_decide as He; [done|]. cbn. by rewrite app_nil_r.
Qed.

Lemma partSegments_elem R p outs seg : seg ∈ partSegments R p outs -> seg <> [] /\ exists out, out ∈ outs /\ seg = inPart R p out.
Proof.
  unfold partSegments. rewrite concat_elem. intros (out & Hout & Hseg). case_decide as He; [by apply elem_of_nil in Hseg|].
  apply list_elem_of_singleton in Hseg as ->. eauto.
Qed.

Lemma payloads_tasks R p outs partss : Forall2 (partsOf R) outs partss -> payloads p (concat partss) = map encodeAll (partSegments R p outs).
Proof.
  unfold partSegments. induction 1 as [|out parts outs partss H _ IH]; [done|]. cbn [map concat].
  by rewrite payloads_app, map_app, IH, (partsOf_payloads R out) by done.
Qed.

Lemma concat_encodeAll ss : concat (map encodeAll ss) = encodeAll (concat ss).
Proof. induction ss as [|s ss IH]; [done|]. cbn [map concat]. by rewrite IH, encodeAll_app. Qed.

Lemma tasks_total R outs partss : Forall2 (partsOf R) outs partss ->
  len (concat (map (fun part => concat part.2) (concat partss))) = len (encodeAll (concat outs)).
Proof.
  induction 1 as [|out parts outs partss H _ IH]; [done|]. cbn [concat]. by rewrite map_app, concat_app, encodeAll_app, !len_app, IH, (partsOf_total R out).
Qed.

Lemma inPart_sorted R p out : StronglySorted kvLe out -> StronglySorted kvLe (inPart R p out).
Proof. apply StronglySorted_filter_sub. Qed.

Lemma partsOf_chunks R out parts part : partsOf R out parts -> part ∈ parts -> part.2 <> [].
Proof.
  intros (_ & Hparts & Hdom) Hin He. destruct part as [p chunks]. cbn [snd] in He. subst chunks. destruct (Hparts p [] Hin) as [Hc _].
  assert (Hp : inPart R p out <> []) by (apply Hdom, list_elem_of_fmap; by exists (p, [])). pose proof (encodeAll_length (inPart R p out)) as Hl.
  rewrite <- Hc in Hl. destruct (inPart R p out); [done|]. cbn in Hl. lia.
Qed.

Section Job.
Context (Unmarshal : bytes -> option KV) (sortSlice : list KV -> list KV) (sha256hex : bytes -> bytes).
Context (Hsort : forall l, StronglySorted kvLe (sortSlice l) /\ sortSlice l ≡ₚ l) (Hhex : forall b, Forall hexByte (sha256hex b)).

Lemma mapTasks_ok mapper threshold R inputs rss : 0 < R ->
  Forall2 (fun input rs => exists stdout, mapper input = Ret stdout /\ parseJSONLRecords Unmarshal stdout = Ret rs) inputs rss ->
  Forall (Forall (readable Unmarshal DefaultMaxRecordBytes)) rss ->
  exists partss outs, mapO (runMap Unmarshal sortSlice mapper None threshold R) inputs = Ret partss /\
    Forall (StronglySorted kvLe) outs /\ concat outs ≡ₚ concat rss /\ Forall2 (partsOf R) outs partss.
Proof.
  intros HR. induction 1 as [|input rs inputs rss (stdout & Hm & Hp) _ IH]; intros Hread; cbn [mapO].
  { exists [], []. split_and!; [done|constructor|done|constructor]. }
  apply Forall_cons in Hread as [Hr Hread]. destruct (runMap_ok Unmarshal sortSlice mapper threshold R input stdout rs) as (parts & out & -> & Hs & Hpo & Hparts); [done..|].
  destruct (IH Hread) as (partss & outs & -> & Hss & Hpo' & Hpartss). rewrite !bind_Ret. exists (parts :: partss), (out :: outs).
  split_and!; [done|by constructor|cbn [concat]; by rewrite Hpo, Hpo'|by constructor].
Qed.

(** A reduce task on the payloads of its partition. *)
Lemma reduceInput_ok batch maxBytes s job p expected segs : (maxBytes <= 0 \/ DefaultMaxRecordBytes <= maxBytes) ->
  is_Some (data s !! job) -> blobs s job p = map encodeAll segs -> checksumsAgree sha256hex expected 0 (blobs s job p) ->
  Forall (fun seg => seg <> []) segs -> Forall (StronglySorted kvLe) segs -> Forall (Forall (readable Unmarshal DefaultMaxRecordBytes)) segs ->
  match segs with
  | [] => reduceInput sha256hex Unmarshal batch maxBytes s job p expected = Ret None
  | _ => exists out, reduceInput sha256hex Unmarshal batch maxBytes s job p expected = Ret (Some (encodeAll out)) /\ StronglySorted kvLe out /\ out ≡ₚ concat segs
  end.
Proof.
  intros Hmax [jobData Hjob] Hblobs Hsum Hne Hsorted Hread. unfold reduceInput, GetShuffleData. rewrite Hjob, bind_Ret.
  assert (Hchunks : match jobData !! p with Some blobs => concat (map (segmentChunks sha256hex job p) blobs) | None => [] end
                    = concat (map (segmentChunks sha256hex job p) (blobs s job p))).
  { unfold blobs. rewrite Hjob. cbn [default from_option id]. by destruct (jobData !! p). }
  rewrite Hchunks, receive_ok; [|done| |done].
  2: { rewrite Hblobs. apply Forall_forall. intros b (seg & -> & Hseg)%list_elem_of_fmap. rewrite Forall_forall in Hne. specialize (Hne seg Hseg).
       destruct seg as [|r seg]; [done|]. intros He%(f_equal length). pose proof (encodeAll_length (r :: seg)). rewrite He in *. cbn in *. lia. }
  rewrite bind_Ret. cbn [app]. rewrite Hblobs. destruct segs as [|seg segs]; [done|]. cbn [map]. rewrite <- map_cons.
  unfold mergeShuffleInputs. set (cfg := mkMergeConfig _ _).
  destruct (MergeInputs_ok Unmarshal cfg (seg :: segs)) as (out & stats & -> & Hout & _); [|done|].
  - eapply Forall_impl; [exact Hread|]. intros l Hl. eapply Forall_impl; [exact Hl|]. intros r (Hb & Hu & Hlen). split_and!; [done|done|].
    eapply Z.lt_le_trans; [exact Hlen|]. unfold cfg, clampConfig. cbn [MaxRecordBytes BatchSize DefaultMergeConfig]. unfold DefaultMaxRecordBytes in *.
    repeat case_match; boolprop; lia.
  - rewrite !bind_Ret. exists out. split_and!; [done|apply Hout|]. by rewrite (mergeOf_perm _ _ Hout).
Qed.

(** The pushes of all tasks, in any order. *)
Lemma pushes_ok R job rss outs partss pushes : job <> ""%string -> concat outs ≡ₚ concat rss -> Forall2 (partsOf R) outs partss -> pushes ≡ₚ concat partss ->
  (forall q, len (encodeAll (inPart R q (concat rss))) <= maxShufflePartitionBytes) -> len (encodeAll (concat rss)) <= maxShuffleJobBytes ->
  exists s, pushAll job NewShuffleServer pushes = (s, None) /\ (forall p, exists segs, blobs s job p = map encodeAll segs /\ segs ≡ₚ partSegments R p outs) /\
    (concat rss <> [] -> is_Some (data s !! job)).
Proof.
  intros Hjob Houts Hparts Hpushes Hpart Htotal.
  assert (Hpay : forall p, payloads p pushes ≡ₚ map encodeAll (partSegments R p outs)) by (intros p; by rewrite Hpushes, (payloads_tasks R p outs)).
  assert (Hall : len (concat (map (fun part => concat part.2) pushes)) = len (encodeAll (concat rss))).
  { rewrite <- (encodeAll_len_perm _ _ Houts), <- (tasks_total R outs partss Hparts). unfold len. by rewrite Hpushes. }
  destruct (pushAll_ok job pushes Hjob) with (s := NewShuffleServer) as (s & Hs & Hb & Hd & _).
  - rewrite Hpushes. apply Forall_forall. intros part Hin. rewrite <- (map_id partss) in Hin. apply concat_elem in Hin as (parts & Hps & Hin).
    apply list_elem_of_lookup in Hps as [i Hi]. destruct (Forall2_lookup_r _ _ _ _ _ Hparts Hi) as (out & _ & Ho). by eapply partsOf_chunks.
  - intros p. change (partSize NewShuffleServer job p) with 0. specialize (Hpart p). split; [lia|].
    rewrite (encodeAll_len_perm _ (concat (partSegments R p outs))) in Hpart by (by rewrite partSegments_concat, Houts).
    rewrite <- concat_encodeAll in Hpart. unfold len in *. by rewrite Hpay.
  - change (jobSize NewShuffleServer job) with 0. lia.
  - exists s. split; [done|]. split.
    + intros p. rewrite Hb. change (blobs NewShuffleServer job p) with (@nil bytes). cbn [app].
      destruct (Permutation_map_inv _ _ (Hpay p)) as (segs & -> & Hp). exists segs. done.
    + intros Hne. apply Hd. intros ->. cbn [map concat] in Hall. rewrite len_nil in Hall. pose proof (encodeAll_length (concat rss)) as Hl.
      destruct (concat rss); [done|]. unfold len in Hall. cbn [length] in Hl. lia.
Qed.

End Job.

(** C9. The data path of a job delivers every record of the mappers to one
    reducer, once.  Each map task sorts what its mapper writes, within any memory
    budget, and pushes one payload per partition; the pushes of all tasks arrive
    at the shuffle service in any order.  Then the reduce task of a partition
    merges exactly the records whose keys hash to it, sorted by key, with any batch
    size; a partition without records has no reducer to run.  The records have to
    be small enough to be read back, the payloads to fit the limits of the
    service, and the checksums in the assignment to be listed in the order of the
    pushes. *)
Theorem shuffle_delivers Unmarshal sortSlice sha256hex mapper threshold R job batch maxBytes inputs rss :
  (forall l, StronglySorted kvLe (sortSlice l) /\ sortSlice l ≡ₚ l) -> (forall b, Forall hexByte (sha256hex b)) ->
  0 < R -> job <> ""%string -> (maxBytes <= 0 \/ DefaultMaxRecordBytes <= maxBytes) ->
  Forall2 (fun input rs => exists stdout, mapper input = Ret stdout /\ parseJSONLRecords Unmarshal stdout = Ret rs) inputs rss ->
  Forall (Forall (readable Unmarshal DefaultMaxRecordBytes)) rss -> concat rss <> [] ->
  (forall q, len (encodeAll (inPart R q (concat rss))) <= maxShufflePartitionBytes) -> len (encodeAll (concat rss)) <= maxShuffleJobBytes ->
  exists partss, mapO (runMap Unmarshal sortSlice mapper None threshold R) inputs = Ret partss /\
    forall pushes, pushes ≡ₚ concat partss -> exists s, pushAll job NewShuffleServer pushes = (s, None) /\
      forall p expected, checksumsAgree sha256hex expected 0 (blobs s job p) ->
        match inPart R p (concat rss) with
        | [] => reduceInput sha256hex Unmarshal batch maxBytes s job p expected = Ret None
        | _ => exists out, reduceInput sha256hex Unmarshal batch maxBytes s job p expected = Ret (Some (encodeAll out)) /\
                 StronglySorted kvLe out /\ out ≡ₚ inPart R p (concat rss)
        end.
Proof.
  intros Hsort Hhex HR Hjob Hmax Hmap Hread Hne Hpart Htotal.
  destruct (mapTasks_ok Unmarshal sortSlice Hsort mapper threshold R inputs rss HR Hmap Hread) as (partss & outs & Hrun & Hsorted & Houts & Hparts).
  exists partss. split; [done|]. intros pushes Hpushes.
  destruct (pushes_ok R job rss outs partss pushes Hjob Houts Hparts Hpushes Hpart Htotal) as (s & Hs & Hblobs & Hdata).
  exists s. split; [done|]. intros p expected Hsum. destruct (Hblobs p) as (segs & Hb & Hsegs).
  assert (Hcat : concat segs ≡ₚ inPart R p (concat rss)) by (by rewrite Hsegs, partSegments_concat, Houts).
  assert (Hin : forall seg, seg ∈ segs -> seg <> [] /\ exists out, out ∈ outs /\ seg = inPart R p out) by (intros seg; rewrite Hsegs; apply partSegments_elem).
  pose proof (reduceInput_ok Unmarshal sha256hex Hhex batch maxBytes s job p expected segs Hmax (Hdata Hne) Hb Hsum) as Hred.
  assert (Hready : Forall (readable Unmarshal DefaultMaxRecordBytes) (concat rss)) by (by apply Forall_concat).
  destruct segs as [|seg segs].
  - apply Permutation_nil_l in Hcat. rewrite <- Hcat. apply Hred; constructor.
  - destruct Hred as (out & H1 & H2 & H3).
    + apply Forall_forall. intros x [? _]%Hin. done.
    + apply Forall_forall. intros x [_ (o & Ho & ->)]%Hin. rewrite Forall_forall in Hsorted. by apply inPart_sorted, Hsorted.
    + apply Forall_concat. rewrite Hcat. apply Forall_forall. intros r [_ Hr]%list_elem_of_filter. by eapply Forall_forall in Hready.
    + assert (Hnil : inPart R p (concat rss) <> []).
      { intros He. rewrite He in Hcat. destruct (Hin seg ltac:(left)) as [Hs0 _]. cbn [concat] in Hcat.
        apply Permutation_nil_r in Hcat. by apply app_eq_nil in Hcat as [? _]. }
      destruct (inPart R p (concat rss)) eqn:E; [done|]. rewrite <- E in *. exists out. rewrite <- Hcat. done.
Qed.

Lemma inPart_len R q l : len (encodeAll (inPart R q l)) <= len (encodeAll l).
Proof.
  unfold inPart. induction l as [|r l IH]; [done|]. change (r :: l) with ([r] ++ l). rewrite filter_app, !encodeAll_app, !len_app.
  rewrite filter_cons, filter_nil. pose proof (len_nonneg (encodeAll [r])). case_decide; [lia|]. change (encodeAll []) with (@nil Z). rewrite len_nil. lia.
Qed.

#[export] Instance kvLe_dec : RelDecision kvLe.
Proof. intros a b. unfold kvLe. apply _. Defined.
#[export] Instance kvLe_trans : Transitive kvLe.
Proof. intros a b c. unfold kvLe. apply transitivity. Qed.
#[export] Instance kvLe_total : Total kvLe.
Proof. intros a b. apply (total str_le). Qed.

(** Two map tasks that each write two records, with a budget that makes the
    sorter spill, and two partitions. *)
Lemma shuffle_delivers_witness :
  exists partss, mapO (runMap sampleDecode (merge_sort kvLe) Ret None 34 2) [encodeAll [mkKV (js "c") []; mkKV (js "a") (js "2")]; encodeAll [mkKV (js "b") (js "<"); mkKV (js "a") (js "1")]]
      = Ret partss /\
    exists s, pushAll "job" NewShuffleServer (concat partss) = (s, None) /\
      exists out, reduceInput (fun _ => [48]) sampleDecode 2 0 s "job" 0 [] = Ret (Some (encodeAll out)) /\ StronglySorted kvLe out /\
        out ≡ₚ [mkKV (js "c") []; mkKV (js "a") (js "2"); mkKV (js "a") (js "1")].
Proof.
  destruct (shuffle_delivers sampleDecode (merge_sort kvLe) (fun _ => [48]) Ret 34 2 "job" 2 0
    [encodeAll [mkKV (js "c") []; mkKV (js "a") (js "2")]; encodeAll [mkKV (js "b") (js "<"); mkKV (js "a") (js "1")]]
    [[mkKV (js "c") []; mkKV (js "a") (js "2")]; [mkKV (js "b") (js "<"); mkKV (js "a") (js "1")]]) as (partss & H1 & H2).
  - intros l. split; [apply StronglySorted_merge_sort; apply _|apply merge_sort_Permutation].
  - intros b. apply Forall_singleton. left. lia.
  - lia.
  - discriminate.
  - lia.
  - repeat (constructor; [eexists; split; [reflexivity|vm_compute; reflexivity]|]). constructor.
  - pose proof (sampleDecode_readable DefaultMaxRecordBytes ltac:(unfold DefaultMaxRecordBytes; lia)) as Hr. rewrite Forall_forall in Hr.
    repeat (constructor; [repeat (constructor; [apply Hr; in_list|]); constructor|]). constructor.
  - discriminate.
  - intros q. etrans; [apply inPart_len|]. vm_compute. discriminate.
  - vm_compute. discriminate.
  - exists partss. split; [exact H1|]. destruct (H2 _ (reflexivity _)) as (s & Hs & Hred). exists s. split; [exact Hs|].
    apply (Hred 0 []). intros i b _. left. reflexivity.
Defined.

(** C36. The checksums of an assignment are listed in the order in which the map
    tasks completed, the segments come in the order in which they were pushed, and
    a reduce task compares them by position: when the first segment is not the
    first of the list, the task fails, although every segment is intact and
    listed. *)
Theorem checksum_order_rejected sha256hex Unmarshal batch maxBytes s job p b bs e es :
  Forall hexByte (sha256hex b) -> is_Some (data s !! job) -> blobs s job p = b :: bs -> b <> [] ->
  sha256hex b <> [] -> e <> [] -> e <> sha256hex b ->
  reduceInput sha256hex Unmarshal batch maxBytes s job p (e :: es) = Throw "segment checksum metadata mismatch".
Proof.
  intros Hhex [jobData Hjob] Hblobs Hb Hsum He Hne. unfold reduceInput, GetShuffleData. rewrite Hjob, bind_Ret.
  assert (Hp : jobData !! p = Some (b :: bs)).
  { unfold blobs in Hblobs. rewrite Hjob in Hblobs. cbn [default from_option id] in Hblobs. destruct (jobData !! p); [by cbn in Hblobs; subst|done]. }
  rewrite Hp. cbn [map concat]. unfold segmentChunks at 1. rewrite <- !app_assoc.
  destruct (blobChunks_ok (length b) b ltac:(lia)) as [Hc Hn]. rewrite receive_data, Hc by done.
  cbn [app receive Data SegmentChecksum]. destruct b as [|b0 b1]; [done|]. unfold resolveExpectedChecksum. rewrite TrimSpace_hex by done.
  cbn [length lookup list_lookup default from_option id]. by rewrite !bool_decide_eq_true_2.
Qed.

Lemma checksum_order_rejected_witness :
  let pushes := [(0, [[97]]); (0, [[98; 98]])] in
  (pushAll "job" NewShuffleServer pushes).2 = None /\
  reduceInput (fun b => [48 + len b]) (fun _ => None) 0 0 (pushAll "job" NewShuffleServer pushes).1 "job" 0 [[50]; [49]]
    = Throw "segment checksum metadata mismatch".
Proof.
  split; [vm_compute; reflexivity|]. apply (checksum_order_rejected _ _ _ _ _ _ _ [97] [[98; 98]]).
  - apply Forall_singleton. left. vm_compute. split; discriminate.
  - vm_compute. eauto.
  - vm_compute. reflexivity.
  - discriminate.
  - discriminate.
  - discriminate.
  - vm_compute. discriminate.
Defined.

(** [Abort] ends the stream like [Close]: what had been sent is stored. *)
Lemma abort_stores s job p w : job <> ""%string -> pwAbort w <> [] ->
  partSize s job p + len (concat (pwAbort w)) <= maxShufflePartitionBytes -> jobSize s job + len (concat (pwAbort w)) <= maxShuffleJobBytes ->
  0 <= partSize s job p -> 0 <= jobSize s job ->
  exists s', pushPartition job s (p, pwAbort w) = (s', None) /\ blobs s' job p = blobs s job p ++ [concat (pwAbort w)].
Proof.
  intros Hjob Hne Hp Hj H0 H1. destruct (pushPartition_ok s job p (pwAbort w)) as (s' & Hs & _ & Hb & _); [done..|].
  exists s'. split; [done|]. by rewrite Hb, decide_True.
Qed.

(** A mapper's line that fits the limit may not fit it once it is encoded: each
    of the characters that HTML escapes takes six bytes. *)
Lemma escaped_record_too_long {S} Unmarshal key n (f : S -> bytes -> KV -> S) st :
  Forall (fun b => 0 <= b) key -> DefaultMaxRecordBytes <= 6 * Z.of_nat n ->
  forall fuel, eachRecord Unmarshal fuel (encodeAll [mkKV key (replicate n 60)]) f st = Throw "bufio.Scanner: token too long".
Proof.
  intros Hk Hn fuel. assert (Ha : len (appendString (replicate n 60)) = 6 * Z.of_nat n).
  { clear. induction n as [|n IH]; [done|]. change (appendString (replicate (S n) 60)) with (js "\u003c" ++ appendString (replicate n 60)).
    rewrite len_app, IH. change (len (js "\u003c")) with 6. lia. }
  enough (Hs : Scan DefaultMaxRecordBytes (encodeAll [mkKV key (replicate n 60)]) = ScanTooLong) by (destruct fuel; cbn [eachRecord]; by rewrite Hs).
  rewrite encodeAll_one. unfold Scan. destruct (jsonLine _ ++ [NL]) eqn:E; [by destruct (jsonLine _)|]. rewrite <- E. rewrite cutLine_line.
  - rewrite (proj2 (Z.leb_le _ _)); [done|]. unfold jsonLine, quoted. cbn [Key Value]. rewrite !len_app, Ha.
    pose proof (len_nonneg (appendString key)). pose proof (len_nonneg (appendString (js "key"))). pose proof (len_nonneg (appendString (js "value"))).
    pose proof (len_nonneg (js ":")). pose proof (len_nonneg (js ",")). pose proof (@len_nonneg Z [34]). pose proof (@len_nonneg Z [123]). pose proof (@len_nonneg Z [125]). lia.
  - apply jsonLine_noNL. split; [done|]. cbn [Value]. apply Forall_replicate. lia.
Qed.
