(* ===== verification/Scheduler.v ===== *)
(** The manager's scheduler (manager-service/internal/manager: scheduler.go, with
    the SQL of queries.go, job_transitions.go, routing.go and the events of
    event_emitter.go and live_event_emitter.go), and [CreateJob] of
    manager-service/internal/api/store.go, which shares its tables.

    The tables are maps from the text of a uuid to a row, or lists where the order
    of a serial key matters; a query is a function of the tables with the name the
    source gives it.  A handler is a computation of the monad [tx], one transaction:
    an error leaves the tables as they were.  Transactions are taken as serial, which
    is what the row locks (FOR UPDATE of the job and of the task) and the advisory
    lock of [GetNextTask] are for, so a transaction is one step; what a step can see
    of the others that are under way is the set of rows they lock, which the two
    queries with SKIP LOCKED pass over.  The in-memory part of a manager is the
    record [Scheduler]; it also lists the calls to the orchestrator.

    Arguments: [uuid.Parse] and the cast of PostgreSQL to a uuid (they differ),
    the fresh uuids, the clocks of the database and of the process, the locked rows
    and whether the database commits.  Times are in nanoseconds.  The columns
    [created_at], [updated_at], [start_time] and [end_time] are not kept: no code
    of the scheduler decides on them. *)
From Stdlib Require Import ZArith Lia Ascii String.
From stdpp Require Import base gmap strings list sorting.
From S2P Require Import Prelude JsString InputSplit Shuffle MapReduce.

Local Open Scope string_scope.
Local Open Scope Z_scope.

(** * The tables *)

Inductive TaskState := Idle | InProgress | Completed | Failed.
Inductive TaskType := MapTask | ReduceTask.
Inductive JobState := JobPending | JobRunning | JobCleaning | JobCompleted | JobFailed | JobCancelled.
Inductive AttemptState := AttemptRunning | AttemptSuccess | AttemptFailed.

#[global] Instance TaskState_eq_dec : EqDecision TaskState.
Proof. solve_decision. Defined.
#[global] Instance TaskType_eq_dec : EqDecision TaskType.
Proof. solve_decision. Defined.
#[global] Instance JobState_eq_dec : EqDecision JobState.
Proof. solve_decision. Defined.
#[global] Instance AttemptState_eq_dec : EqDecision AttemptState.
Proof. solve_decision. Defined.

Record JobRow := mkJob { j_user : string; j_status : JobState; j_replica : Z }.
Record JobConfigRow := mkJobConfig { c_input : string; c_mapper : string; c_reducer : string; c_combiner : string; c_m : Z; c_r : Z; c_checksum : string }.
Record TaskRow := mkTask { t_job : string; t_type : TaskType; t_status : TaskState; t_replica : Z; t_attempt : option string }.
Record InputRow := mkInput { i_task : string; i_uri : string; i_start : Z; i_end : Z; i_checksum : string }.
Record AttemptRow := mkAttempt { a_task : string; a_worker : string; a_lease : string; a_renewed : Z; a_ttl : Z; a_status : AttemptState }.
Record OutputRow := mkOutput { o_task : string; o_partition : option Z; o_uri : string; o_checksum : string }.
Record SystemConfigUpdate := mkSystemConfig {
  MaxConcurrentPods : Z; CPULimit : string; MemoryLimit : string; WorkerReplicas : Z; MaxJobsPerNode : Z; LocalityKey : string; LocalityLabelSelector : string }.

(** The envelopes of event_emitter.go, without their ids, clocks and constants. *)
Inductive Event :=
| EvJobSubmitted (jobID userID inputURI : string) (mTasks rTasks : Z)
| EvJobStateChanged (jobID : string) (oldStatus newStatus : JobState)
| EvJobCancelRequested (jobID : string)
| EvTaskAssigned (taskID jobID : string) (taskType : TaskType) (workerID : string) (leaseTTL : Z)
| EvTaskHeartbeatReceived (taskID jobID attemptID : string)
| EvTaskAttemptCompleted (taskID jobID attemptID workerID : string)
| EvTaskAttemptFailed (taskID jobID attemptID workerID reason : string)
| EvTaskReaped (taskID jobID attemptID reason : string).

Record DB := mkDB {
  JOBS : gmap string JobRow;
  JOB_CONFIGS : gmap string JobConfigRow;
  TASKS : gmap string TaskRow;
  TASK_INPUTS : list InputRow;
  TASK_ATTEMPTS : gmap string AttemptRow;
  TASK_OUTPUTS : list OutputRow;
  SYSTEM_CONFIG : option SystemConfigUpdate;
  EVENT_OUTBOX : list Event }.
Definition emptyDB : DB := mkDB ∅ ∅ ∅ [] ∅ [] None [].

Definition withJOBS x (d : DB) := mkDB x (JOB_CONFIGS d) (TASKS d) (TASK_INPUTS d) (TASK_ATTEMPTS d) (TASK_OUTPUTS d) (SYSTEM_CONFIG d) (EVENT_OUTBOX d).
Definition withJOB_CONFIGS x (d : DB) := mkDB (JOBS d) x (TASKS d) (TASK_INPUTS d) (TASK_ATTEMPTS d) (TASK_OUTPUTS d) (SYSTEM_CONFIG d) (EVENT_OUTBOX d).
Definition withTASKS x (d : DB) := mkDB (JOBS d) (JOB_CONFIGS d) x (TASK_INPUTS d) (TASK_ATTEMPTS d) (TASK_OUTPUTS d) (SYSTEM_CONFIG d) (EVENT_OUTBOX d).
Definition withINPUTS x (d : DB) := mkDB (JOBS d) (JOB_CONFIGS d) (TASKS d) x (TASK_ATTEMPTS d) (TASK_OUTPUTS d) (SYSTEM_CONFIG d) (EVENT_OUTBOX d).
Definition withATTEMPTS x (d : DB) := mkDB (JOBS d) (JOB_CONFIGS d) (TASKS d) (TASK_INPUTS d) x (TASK_OUTPUTS d) (SYSTEM_CONFIG d) (EVENT_OUTBOX d).
Definition withOUTPUTS x (d : DB) := mkDB (JOBS d) (JOB_CONFIGS d) (TASKS d) (TASK_INPUTS d) (TASK_ATTEMPTS d) x (SYSTEM_CONFIG d) (EVENT_OUTBOX d).
Definition withCONFIG x (d : DB) := mkDB (JOBS d) (JOB_CONFIGS d) (TASKS d) (TASK_INPUTS d) (TASK_ATTEMPTS d) (TASK_OUTPUTS d) x (EVENT_OUTBOX d).
Definition withOUTBOX x (d : DB) := mkDB (JOBS d) (JOB_CONFIGS d) (TASKS d) (TASK_INPUTS d) (TASK_ATTEMPTS d) (TASK_OUTPUTS d) (SYSTEM_CONFIG d) x.

(** * Errors and transactions *)

Inductive error :=
| ErrNoIdleTasks | ErrJobCompleted | ErrTaskNotFound | ErrInvalidStateTransition | ErrJobCancelling | ErrEmptyJobID | ErrEmptyWorkerID
| ErrStaleAttempt | ErrExpiredLease | ErrOutputMismatch | ErrJobFailed | ErrQuotaExceeded | ErrForbiddenTransition (from to : JobState)
| ErrRouting (assigned own : Z) | ErrNoRows | ErrDB (what : string) | ErrInvalid (what : string).
#[global] Instance error_eq_dec : EqDecision error.
Proof. solve_decision. Defined.

Definition tx (A : Type) : Type := DB -> error + A * DB.
#[global] Instance tx_ret : MRet tx := fun A a db => inr (a, db).
#[global] Instance tx_bind : MBind tx := fun A B f m db => match m db with inl e => inl e | inr (a, db') => f a db' end.
Definition fails {A} (e : error) : tx A := fun _ => inl e.
Definition reads {A} (f : DB -> A) : tx A := fun db => inr (f db, db).
Definition writes (f : DB -> DB) : tx () := fun db => inr ((), f db).
Definition guard (b : bool) (e : error) : tx () := if b then mret () else fails e.
Definition someOr {A} (o : option A) (e : error) : tx A := match o with Some a => mret a | None => fails e end.
(** [if err == nil ... else if errors.Is(err, e)]: the tables are those before [m],
    which has changed nothing when it fails this way. *)
Definition orElseOn {A} (m : tx A) (e : error) (k : tx A) : tx A :=
  fun db => match m db with inl e' => if decide (e' = e) then k db else inl e' | r => r end.
(** A loop over a slice, with an accumulator. *)
Definition foldTx {A B} (f : B -> A -> tx B) (l : list A) (b : B) : tx B := foldl (fun m a => b ← m; f b a) (mret b) l.
Definition runTx {A} (commits : bool) (m : tx A) (db : DB) : (error + A) * DB :=
  match m db with
  | inl e => (inl e, db)
  | inr (a, db') => if commits then (inr a, db') else (inl (ErrDB "commit"), db)
  end.

(** * The queries *)

(** An INTEGER column with the CHECK that it is not negative, or that it is positive. *)
Definition int4nat (z : Z) : bool := (0 <=? z) && (z <? 2 ^ 31).
Definition int4pos (z : Z) : bool := (0 <? z) && (z <? 2 ^ 31).

Definition tasksWhere (P : TaskRow -> bool) (db : DB) : gmap string TaskRow := filter (fun kt => P kt.2 = true) (TASKS db).
Definition countTasks (P : TaskRow -> bool) (db : DB) : Z := Z.of_nat (size (tasksWhere P db)).
Definition ofJob (jobID : string) (t : TaskRow) : bool := bool_decide (t_job t = jobID).
Definition hasStatus (st : TaskState) (t : TaskRow) : bool := bool_decide (t_status t = st).
Definition hasType (ty : TaskType) (t : TaskRow) : bool := bool_decide (t_type t = ty).

Definition QueryCountFailedTasks (jobID : string) : DB -> Z := countTasks (fun t => ofJob jobID t && hasStatus Failed t).
Definition QueryCountPendingTasksByType (jobID : string) (ty : TaskType) : DB -> Z :=
  countTasks (fun t => ofJob jobID t && hasType ty t && negb (hasStatus Completed t)).
Definition QueryCountAllPendingTasks (jobID : string) : DB -> Z := countTasks (fun t => ofJob jobID t && negb (hasStatus Completed t)).
Definition running (db : DB) : gmap string AttemptRow := filter (fun ka => a_status ka.2 = AttemptRunning) (TASK_ATTEMPTS db).
Definition QueryCountRunningAttempts (db : DB) : Z := Z.of_nat (size (running db)).
Definition attemptsOf (taskID : string) (db : DB) : gmap string AttemptRow := filter (fun ka => a_task ka.2 = taskID) (TASK_ATTEMPTS db).
Definition QueryCountAttemptsByTask (taskID : string) (db : DB) : Z := Z.of_nat (size (attemptsOf taskID db)).

(** ORDER BY replica_index ASC, task_id ASC LIMIT 1; uuids compare as their text. *)
Definition rowBefore (x y : string * TaskRow) : bool :=
  (t_replica x.2 <? t_replica y.2) || ((t_replica x.2 =? t_replica y.2) && String.ltb x.1 y.1).
Definition firstRow (l : list (string * TaskRow)) : option (string * TaskRow) :=
  foldr (fun x best => match best with None => Some x | Some b => if rowBefore b x then Some b else Some x end) None l.
Definition QuerySelectIdleTask (locked : gset string) (jobID : string) (replicaIndex : Z) (ty : TaskType) (db : DB) : option (string * TaskRow) :=
  firstRow (filter (fun kt => kt.1 ∉ locked) (map_to_list (tasksWhere (fun t =>
    ofJob jobID t && hasStatus Idle t && hasType ty t && (bool_decide (ty = ReduceTask) || (t_replica t =? replicaIndex))) db))).

Definition QueryUpdateTaskInProgress (attemptID taskID : string) : tx bool := fun db =>
  match TASKS db !! taskID with
  | Some t =>
      if hasStatus Idle t
      then inr (true, withTASKS (<[taskID := mkTask (t_job t) (t_type t) InProgress (t_replica t) (Some attemptID)]> (TASKS db)) db)
      else inr (false, db)
  | None => inr (false, db)
  end.
(** The primary key and the CHECK on [lease_ttl] are those of the schema. *)
Definition QueryInsertAttempt (attemptID taskID workerID leaseID : string) (leaseTTL now : Z) : tx () := fun db =>
  match TASK_ATTEMPTS db !! attemptID with
  | Some _ => inl (ErrDB "duplicate key")
  | None =>
      if int4pos leaseTTL
      then inr ((), withATTEMPTS (<[attemptID := mkAttempt taskID workerID leaseID now leaseTTL AttemptRunning]> (TASK_ATTEMPTS db)) db)
      else inl (ErrDB "check")
  end.

(** The outputs of completed map tasks of a job that belong to a partition. *)
Definition shuffleRow (jobID : string) (partition : Z) (db : DB) (o : OutputRow) : bool :=
  match TASKS db !! o_task o with
  | Some m => ofJob jobID m && hasType MapTask m && hasStatus Completed m
              && match o_partition o with None => true | Some p => p =? partition end
  | None => false
  end.
Definition QueryGetReduceTaskInputs (taskID : string) (db : DB) : list (Z * string * string) :=
  match TASKS db !! taskID with
  | Some r => map (fun o => (default 0 (o_partition o), o_uri o, o_checksum o)) (filter (fun o => shuffleRow (t_job r) (t_replica r) db o = true) (TASK_OUTPUTS db))
  | None => []
  end.
Definition emptyReduce (jobID : string) (db : DB) (t : TaskRow) : bool :=
  ofJob jobID t && hasType ReduceTask t && hasStatus Idle t && negb (existsb (shuffleRow jobID (t_replica t) db) (TASK_OUTPUTS db)).
Definition setStatus (st : TaskState) (t : TaskRow) : TaskRow := mkTask (t_job t) (t_type t) st (t_replica t) None.
Definition QueryCompleteEmptyReduceTasks (jobID : string) : tx (list string) := fun db =>
  inr ((map_to_list (tasksWhere (emptyReduce jobID db) db)).*1,
       withTASKS ((fun t => if emptyReduce jobID db t then setStatus Completed t else t) <$> TASKS db) db).

Definition updTask (taskID : string) (f : TaskRow -> TaskRow) : tx () := writes (fun db => withTASKS (alter f taskID (TASKS db)) db).
Definition updAttempt (attemptID : string) (f : AttemptRow -> AttemptRow) : tx () := writes (fun db => withATTEMPTS (alter f attemptID (TASK_ATTEMPTS db)) db).
Definition setAttempt (st : AttemptState) (a : AttemptRow) : AttemptRow := mkAttempt (a_task a) (a_worker a) (a_lease a) (a_renewed a) (a_ttl a) st.
Definition QueryCompleteTask (taskID : string) : tx () := updTask taskID (setStatus Completed).
Definition QuerySucceedAttempt (attemptID : string) : tx () := updAttempt attemptID (setAttempt AttemptSuccess).
Definition QueryUpdateTaskStatus (st : TaskState) (taskID : string) : tx () := updTask taskID (setStatus st).
Definition QueryFailAttempt (attemptID : string) : tx () := updAttempt attemptID (setAttempt AttemptFailed).
Definition QueryRenewLease (attemptID : string) (now : Z) : tx () :=
  updAttempt attemptID (fun a => mkAttempt (a_task a) (a_worker a) (a_lease a) now (a_ttl a) (a_status a)).
Definition QueryInsertOutputBulk (taskID : string) (outputURIs outputChecksums : list string) : tx () :=
  writes (fun db => withOUTPUTS (TASK_OUTPUTS db ++ imap (fun i uc => mkOutput taskID (Some (Z.of_nat i)) uc.1 uc.2) (zip outputURIs outputChecksums)) db).
Definition second : Z := 1000000000.
Definition QueryCheckLeaseValid (attemptID leaseID : string) (skew now : Z) (db : DB) : option bool :=
  (fun a => bool_decide (a_lease a = leaseID) && (now <=? a_renewed a + (a_ttl a + skew) * second)) <$> TASK_ATTEMPTS db !! attemptID.

(** Bulk updates.  [QueryBulkFailNonCompletedTasksByJob] keeps the attempt binding. *)
Definition QueryBulkFailNonCompletedTasksByJob (jobID : string) : tx () := writes (fun db =>
  withTASKS ((fun t => if ofJob jobID t && negb (hasStatus Completed t) then mkTask (t_job t) (t_type t) Failed (t_replica t) (t_attempt t) else t) <$> TASKS db) db).
Definition failRunningWhere (P : TaskRow -> bool) (db : DB) : DB :=
  withATTEMPTS ((fun a => if bool_decide (a_status a = AttemptRunning) && match TASKS db !! a_task a with Some t => P t | None => false end
                          then setAttempt AttemptFailed a else a) <$> TASK_ATTEMPTS db) db.
Definition QueryFailRunningAttemptsByJob (jobID : string) : DB -> DB := failRunningWhere (ofJob jobID).
Definition QuerySelectRunningAttemptIDsByJob (jobID : string) (db : DB) : list string :=
  (map_to_list (filter (fun ka => match TASKS db !! a_task ka.2 with Some t => ofJob jobID t | None => false end = true) (running db))).*1.
Definition ofReplica (replicaIndex : Z) (db : DB) (t : TaskRow) : bool :=
  match JOBS db !! t_job t with Some j => j_replica j =? replicaIndex | None => false end.
Definition QueryFailRunningAttemptsByReplica (replicaIndex : Z) (db : DB) : DB := failRunningWhere (ofReplica replicaIndex db) db.
Definition QueryResetTasksForReplica (replicaIndex : Z) (db : DB) : DB :=
  withTASKS ((fun t => if hasStatus InProgress t && ofReplica replicaIndex db t then setStatus Idle t else t) <$> TASKS db) db.

Record staleRec := mkStale { st_task : string; st_attempt : string; st_job : string; st_count : Z; st_renewed : Z; st_ttl : Z }.
Definition staleRow (replicaIndex : Z) (db : DB) (kt : string * TaskRow) : option staleRec :=
  let '(taskID, t) := kt in
  attemptID ← t_attempt t;
  a ← TASK_ATTEMPTS db !! attemptID;
  if hasStatus InProgress t && bool_decide (a_status a = AttemptRunning) && ofReplica replicaIndex db t
  then Some (mkStale taskID attemptID (t_job t) (QueryCountAttemptsByTask taskID db) (a_renewed a) (a_ttl a)) else None.
Definition QuerySelectStaleTasks (locked : gset string) (replicaIndex : Z) (db : DB) : list staleRec :=
  omap (staleRow replicaIndex db) (filter (fun kt => kt.1 ∉ locked) (map_to_list (TASKS db))).
Definition QueryUpdateJobStatus (jobID : string) (st : JobState) (db : DB) : DB :=
  withJOBS (alter (fun j => mkJob (j_user j) st (j_replica j)) jobID (JOBS db)) db.
Definition QuerySelectCleaningJobs (db : DB) : list string := (map_to_list (filter (fun kj => j_status kj.2 = JobCleaning) (JOBS db))).*1.

(** The SQL written out in [CompleteTask] and [FailTask]: the job of a task. *)
Definition selectJobOfTask (taskID : string) (db : DB) : option (string * JobState) :=
  t ← TASKS db !! taskID; j ← JOBS db !! t_job t; Some (t_job t, j_status j).
Definition QueryInsertJob (jobID userID : string) (replicaIndex : Z) (db : DB) : DB :=
  match JOBS db !! jobID with Some _ => db | None => withJOBS (<[jobID := mkJob userID JobPending replicaIndex]> (JOBS db)) db end.
Definition QueryInsertJobConfig (jobID : string) (c : JobConfigRow) (db : DB) : DB :=
  match JOB_CONFIGS db !! jobID with Some _ => db | None => withJOB_CONFIGS (<[jobID := c]> (JOB_CONFIGS db)) db end.
Definition QueryInsertTask (taskID jobID : string) (ty : TaskType) (replicaIndex : Z) : tx () := fun db =>
  match TASKS db !! taskID with
  | Some _ => inl (ErrDB "duplicate key")
  | None =>
      if int4nat replicaIndex
      then inr ((), withTASKS (<[taskID := mkTask jobID ty Idle replicaIndex None]> (TASKS db)) db)
      else inl (ErrDB "check")
  end.
Definition QueryInsertTaskInput (taskID uri : string) (byteStart byteEnd : Z) (checksum : string) : tx () := fun db =>
  if (0 <=? byteStart) && (byteStart <=? byteEnd)
  then inr ((), withINPUTS (TASK_INPUTS db ++ [mkInput taskID uri byteStart byteEnd checksum]) db)
  else inl (ErrDB "check").
Definition QueryUpsertSystemConfig (c : SystemConfigUpdate) : tx () := fun db =>
  if int4pos (MaxConcurrentPods c) && int4pos (WorkerReplicas c) && int4pos (MaxJobsPerNode c)
  then inr ((), withCONFIG (Some c) db) else inl (ErrDB "check").

(** * The job state machine (job_transitions.go) *)

Definition allowedJobTransitions (from to : JobState) : bool :=
  match from, to with
  | JobPending, (JobRunning | JobCleaning) | JobRunning, JobCleaning | JobCleaning, (JobCompleted | JobFailed | JobCancelled) => true
  | _, _ => false
  end.
Definition ValidateJobTransition (from to : JobState) : tx () := guard (allowedJobTransitions from to) (ErrForbiddenTransition from to).

(** * The scheduler object *)

Definition MaxTaskAttempts : Z := 3.
Definition defaultReaperPoolSize : Z := 4.
Definition DefaultMaxConcurrentPods : Z := 10.
Definition cleanupReconcileBatchSize : Z := 64.
Definition maxCleanupRetries : Z := 10.

Inductive OrchestratorCall := OrchCancelJob (jobID : string) | OrchEnsureWorkerPool (jobID : string) (numWorkers : Z) (managerAddr : string).
Inductive emitterKind := NoopEventEmitter | LiveEventEmitter.

(** A pending terminal state is [None] when the source has the empty string. *)
Record Scheduler := mkScheduler {
  replicaIndex : Z; totalReplicas : Z; managerAddr : string; leaseTTL : Z; leaseClockSkewSeconds : Z; hasStaging : bool;
  pendingCleanup : gmap string (option JobState); cleanupRetries : gmap string Z; heartbeats : gmap string Z;
  emitter : emitterKind; heartbeatEventSampleN : Z; heartbeatEventCounter : Z; orchestrator : list OrchestratorCall }.
Definition NewScheduler (replicaIndex totalReplicas : Z) (managerAddr : string) (leaseTTL : Z) (staging : bool) : Scheduler :=
  mkScheduler replicaIndex (if totalReplicas <=? 0 then 1 else totalReplicas) managerAddr (if leaseTTL <=? 0 then 30 else leaseTTL) 5 staging
    ∅ ∅ ∅ NoopEventEmitter 0 0 [].

Definition withCleanup p r (s : Scheduler) := mkScheduler (replicaIndex s) (totalReplicas s) (managerAddr s) (leaseTTL s) (leaseClockSkewSeconds s) (hasStaging s)
  p r (heartbeats s) (emitter s) (heartbeatEventSampleN s) (heartbeatEventCounter s) (orchestrator s).
Definition withHeartbeats h (s : Scheduler) := mkScheduler (replicaIndex s) (totalReplicas s) (managerAddr s) (leaseTTL s) (leaseClockSkewSeconds s) (hasStaging s)
  (pendingCleanup s) (cleanupRetries s) h (emitter s) (heartbeatEventSampleN s) (heartbeatEventCounter s) (orchestrator s).
Definition withCalls o (s : Scheduler) := mkScheduler (replicaIndex s) (totalReplicas s) (managerAddr s) (leaseTTL s) (leaseClockSkewSeconds s) (hasStaging s)
  (pendingCleanup s) (cleanupRetries s) (heartbeats s) (emitter s) (heartbeatEventSampleN s) (heartbeatEventCounter s) (orchestrator s ++ o).
Definition SetEventEmitter e (s : Scheduler) := mkScheduler (replicaIndex s) (totalReplicas s) (managerAddr s) (leaseTTL s) (leaseClockSkewSeconds s) (hasStaging s)
  (pendingCleanup s) (cleanupRetries s) (heartbeats s) e (heartbeatEventSampleN s) (heartbeatEventCounter s) (orchestrator s).
Definition SetLeaseClockSkewSeconds (seconds : Z) (s : Scheduler) := mkScheduler (replicaIndex s) (totalReplicas s) (managerAddr s) (leaseTTL s)
  (if seconds <? 0 then 0 else seconds) (hasStaging s)
  (pendingCleanup s) (cleanupRetries s) (heartbeats s) (emitter s) (heartbeatEventSampleN s) (heartbeatEventCounter s) (orchestrator s).
Definition SetHeartbeatEventSampleN (n : Z) (s : Scheduler) := mkScheduler (replicaIndex s) (totalReplicas s) (managerAddr s) (leaseTTL s) (leaseClockSkewSeconds s) (hasStaging s)
  (pendingCleanup s) (cleanupRetries s) (heartbeats s) (emitter s) (if n <? 1 then 1 else n) (heartbeatEventCounter s) (orchestrator s).
Definition shouldEmitHeartbeatEvent (s : Scheduler) : bool * Scheduler :=
  if heartbeatEventSampleN s <=? 1 then (true, s)
  else
    let c := (heartbeatEventCounter s + 1) mod 2 ^ 64 in
    (c mod heartbeatEventSampleN s =? 0,
     mkScheduler (replicaIndex s) (totalReplicas s) (managerAddr s) (leaseTTL s) (leaseClockSkewSeconds s) (hasStaging s)
       (pendingCleanup s) (cleanupRetries s) (heartbeats s) (emitter s) (heartbeatEventSampleN s) c (orchestrator s)).
(** An insertion into the outbox that fails makes the commit fail. *)
Definition Emit (s : Scheduler) (ev : Event) : tx () :=
  match emitter s with NoopEventEmitter => mret () | LiveEventEmitter => writes (fun db => withOUTBOX (EVENT_OUTBOX db ++ [ev]) db) end.

Definition stringBytes (s : string) : bytes := map (fun c => Z.of_nat (nat_of_ascii c)) (list_ascii_of_string s).
Definition blankString (s : string) : bool := blank (stringBytes s).

(** routing.go. *)
Definition ComputeReplicaIndex (jobID : string) (totalReplicas : Z) : option Z :=
  if totalReplicas <=? 0 then None else Some (fold_left fnvStep (stringBytes jobID) 2166136261 mod (totalReplicas mod 2 ^ 32)).

Definition enqueueCleanup (jobID : string) (terminalState : option JobState) (s : Scheduler) : Scheduler :=
  if blankString jobID then s
  else withCleanup (<[jobID := terminalState]> (pendingCleanup s)) (<[jobID := default 0 (cleanupRetries s !! jobID) + 1]> (cleanupRetries s)) s.

Record TaskInputSplit := mkSplit { sp_uri : string; sp_start : Z; sp_end : Z; sp_checksum : string }.
Record ScheduleTask := mkScheduleTask { TaskID : string; TaskTypeName : string; ReplicaIndex : Z; InputSplits : list TaskInputSplit }.
Record ScheduleJobRequest := mkScheduleJobRequest {
  JobID : string; UserID : string; InputURI : string; MapperURI : string; ReducerURI : string; CombinerURI : string;
  MTasks : Z; RTasks : Z; InputChecksum : string; Tasks : list ScheduleTask }.

(** What [GetNextTask] returns to a worker. *)
Record Task := mkTaskInfo {
  ID : string; TaskJobID : string; Type_ : TaskType; TaskReplicaIndex : Z; ReducePartition : Z; ActiveAttemptID : string; LeaseID : string;
  TotalReducers : Z; CodeURI : string; TaskCombinerURI : string; TaskInputChecksum : string;
  TaskInputSplits : list TaskInputSplit; ShuffleInputs : list (Z * string * string) }.

Definition ValidateTaskCounts (req : ScheduleJobRequest) : tx () :=
  let count name := len (filter (fun t => TaskTypeName t = name) (Tasks req)) in
  guard (negb ((MTasks req <? 1) || (RTasks req <? 1))) (ErrInvalid "task counts must be strictly positive");;
  guard (len (Tasks req) =? MTasks req + RTasks req) (ErrInvalid "tasks must contain exactly mTasks + rTasks entries");;
  guard (count "Map" =? MTasks req) (ErrInvalid "Map tasks");;
  guard (count "Reduce" =? RTasks req) (ErrInvalid "Reduce tasks").

(** What a call sees of the world: the rows locked by other transactions, two fresh
    uuids, the clock of the database and of the process, whether the database commits. *)
Record callEnv := mkEnv { locked : gset string; freshAttempt : string; freshLease : string; dbNow : Z; procNow : Z; commits : bool }.

Section Handlers.
Context (uuid_Parse pg_uuid : string -> option string).
Definition nilUUID : string := "00000000-0000-0000-0000-000000000000".
Definition uuidOrNil (s : string) : string := default nilUUID (uuid_Parse s).
Definition cast (s : string) : tx string := someOr (pg_uuid s) (ErrDB "invalid input syntax for type uuid").

Definition ValidateScheduleJobRequest (req : ScheduleJobRequest) : tx (string * string) :=
  jobID ← someOr (uuid_Parse (JobID req)) (ErrInvalid "invalid job id");
  userID ← someOr (uuid_Parse (UserID req)) (ErrInvalid "invalid user id");
  guard (negb (blankString (InputURI req))) (ErrInvalid "input URI cannot be empty");;
  guard (negb (blankString (MapperURI req))) (ErrInvalid "mapper URI cannot be empty");;
  guard (negb (blankString (ReducerURI req))) (ErrInvalid "reducer URI cannot be empty");;
  ValidateTaskCounts req;;
  mret (jobID, userID).

(** ** Assignment *)

Definition hydrateTaskMetadata (taskID : string) (t : TaskRow) (attemptID leaseID : string) : tx Task :=
  c ← reads (fun db => JOB_CONFIGS db !! t_job t); c ← someOr c ErrNoRows;
  db ← reads (fun db => db);
  mret (match t_type t with
        | ReduceTask =>
            mkTaskInfo taskID (t_job t) ReduceTask (t_replica t) (t_replica t) attemptID leaseID (c_r c) (c_reducer c) (c_combiner c) (c_checksum c)
              [] (QueryGetReduceTaskInputs taskID db)
        | MapTask =>
            mkTaskInfo taskID (t_job t) MapTask (t_replica t) 0 attemptID leaseID (c_r c) (c_mapper c) (c_combiner c) (c_checksum c)
              (map (fun i => mkSplit (i_uri i) (i_start i) (i_end i) (i_checksum i)) (filter (fun i => i_task i = taskID) (TASK_INPUTS db))) []
        end).

(** Available is max(0, MaxPods - ActivePods). *)
Definition readQuotaSnapshotTx : tx (Z * Z * Z) :=
  maxPods ← reads (fun db => match SYSTEM_CONFIG db with Some c => MaxConcurrentPods c | None => DefaultMaxConcurrentPods end);
  activePods ← reads QueryCountRunningAttempts;
  mret (maxPods, activePods, if activePods <? maxPods then maxPods - activePods else 0).
Definition enforceQuotaTx : tx () :=
  '(_, _, available) ← readQuotaSnapshotTx;
  guard (0 <? available) ErrQuotaExceeded.

Definition tryAssignTask (s : Scheduler) (e : callEnv) (requestedJobID workerID : string) (ty : TaskType) : tx Task :=
  jobID ← cast requestedJobID;
  row ← reads (QuerySelectIdleTask (locked e) jobID (replicaIndex s) ty);
  '(taskID, t) ← someOr row ErrNoIdleTasks;
  requestedUUID ← someOr (uuid_Parse requestedJobID) (ErrInvalid "requested job ID");
  guard (bool_decide (t_job t = requestedUUID)) (ErrInvalid "scheduled task belongs to unexpected job");;
  task ← hydrateTaskMetadata taskID t (freshAttempt e) (freshLease e);
  enforceQuotaTx;;
  n ← QueryUpdateTaskInProgress (freshAttempt e) taskID;
  guard n ErrInvalidStateTransition;;
  QueryInsertAttempt (freshAttempt e) taskID workerID (freshLease e) (leaseTTL s) (dbNow e);;
  mret task.

Definition updateJobStatusTx (jobID : string) (st : JobState) : tx () := writes (QueryUpdateJobStatus jobID st).

Definition autoCompleteEmptyReducesTx (jobID : string) : tx bool :=
  completed ← QueryCompleteEmptyReduceTasks jobID;
  if bool_decide (completed = []) then mret false
  else
    pending ← reads (QueryCountAllPendingTasks jobID);
    if pending =? 0 then updateJobStatusTx jobID JobCleaning;; mret true else mret false.

(** The transaction of [GetNextTask]: a task, or the error it commits with and
    whether the last reduce tasks were completed here. *)
Definition GetNextTaskTx (s : Scheduler) (e : callEnv) (rawJobID workerID : string) : tx (Task + error * bool) :=
  guard (negb (bool_decide (rawJobID = ""))) ErrEmptyJobID;;
  _ ← someOr (uuid_Parse rawJobID) (ErrInvalid "job ID");
  guard (negb (bool_decide (workerID = ""))) ErrEmptyWorkerID;;
  jobID ← cast rawJobID;
  failedCount ← reads (QueryCountFailedTasks jobID);
  guard (negb (0 <? failedCount)) ErrJobFailed;;
  job ← reads (fun db => JOBS db !! jobID); job ← someOr job ErrNoRows;
  guard (j_replica job =? replicaIndex s) (ErrRouting (j_replica job) (replicaIndex s));;
  orElseOn
    (task ← tryAssignTask s e rawJobID workerID MapTask;
     updateJobStatusTx jobID JobRunning;;
     Emit s (EvTaskAssigned (ID task) (TaskJobID task) (Type_ task) workerID (leaseTTL s));;
     mret (inl task))
    ErrNoIdleTasks
    (pendingMapTasks ← reads (QueryCountPendingTasksByType jobID MapTask);
     guard (negb (0 <? pendingMapTasks)) ErrNoIdleTasks;;
     jobNowDone ← autoCompleteEmptyReducesTx jobID;
     orElseOn
       (task ← tryAssignTask s e rawJobID workerID ReduceTask;
        updateJobStatusTx jobID JobRunning;;
        mret (inl task))
       ErrNoIdleTasks
       (pendingReduceTasks ← reads (QueryCountPendingTasksByType jobID ReduceTask);
        mret (inr (if 0 <? pendingReduceTasks then ErrNoIdleTasks else ErrJobCompleted, jobNowDone)))).

(** The heartbeat of a new attempt is stored before the commit, and stays when the
    commit fails. *)
Definition GetNextTask (s : Scheduler) (e : callEnv) (jobID workerID : string) (db : DB) : (error + Task) * Scheduler * DB :=
  match GetNextTaskTx s e jobID workerID db with
  | inl err => (inl err, s, db)
  | inr (inl task, db') =>
      let s' := withHeartbeats (<[freshAttempt e := procNow e]> (heartbeats s)) s in
      if commits e then (inr task, s', db') else (inl (ErrDB "commit"), s', db)
  | inr (inr (err, jobNowDone), db') =>
      if commits e then (inl err, if jobNowDone : bool then enqueueCleanup jobID (Some JobCompleted) s else s, db') else (inl (ErrDB "commit"), s, db)
  end.

(** ** Submission *)

Definition insertSplits (taskID : string) (splits : list TaskInputSplit) : tx () :=
  foldTx (fun _ sp => QueryInsertTaskInput taskID (sp_uri sp) (sp_start sp) (sp_end sp) (sp_checksum sp)) splits ().
Definition scheduleOne (jobID : string) (expectedReplicaIndex : Z) (task : ScheduleTask) : tx () :=
  taskID ← someOr (uuid_Parse (TaskID task)) (ErrInvalid "task id");
  guard (negb (blankString (TaskTypeName task))) (ErrInvalid "task type cannot be empty");;
  ty ← someOr (if bool_decide (TaskTypeName task = "Map") then Some MapTask else if bool_decide (TaskTypeName task = "Reduce") then Some ReduceTask else None)
         (ErrInvalid "task type");
  QueryInsertTask taskID jobID ty (match ty with MapTask => expectedReplicaIndex | ReduceTask => ReplicaIndex task end);;
  insertSplits taskID (InputSplits task).
Definition ScheduleJobTx (s : Scheduler) (req : ScheduleJobRequest) : tx () :=
  '(jobID, userID) ← ValidateScheduleJobRequest req;
  expectedReplicaIndex ← someOr (ComputeReplicaIndex (JobID req) (totalReplicas s)) (ErrInvalid "replica index");
  writes (QueryInsertJob jobID userID expectedReplicaIndex);;
  writes (QueryInsertJobConfig jobID (mkJobConfig (InputURI req) (MapperURI req) (ReducerURI req) (CombinerURI req) (MTasks req) (RTasks req) (InputChecksum req)));;
  foldTx (fun _ task => scheduleOne jobID expectedReplicaIndex task) (Tasks req) ();;
  Emit s (EvJobSubmitted jobID userID (InputURI req) (MTasks req) (RTasks req)).
Definition ScheduleJob (s : Scheduler) (e : callEnv) (req : ScheduleJobRequest) (db : DB) : (error + ()) * Scheduler * DB :=
  match runTx (commits e) (ScheduleJobTx s req) db with
  | (inl err, db') => (inl err, s, db')
  | (inr (), db') => (inr (), withCalls [OrchEnsureWorkerPool (JobID req) (Z.min defaultReaperPoolSize (MTasks req)) (managerAddr s)] s, db')
  end.
(** [CreateJob] of the API service; [userUUID] is the result of [parseUserUUID]. *)
Definition CreateJobTx (totalReplicas : Z) (rawJobID : string) (userUUID : option string) (c : JobConfigRow) : tx () :=
  jobID ← someOr (uuid_Parse rawJobID) (ErrInvalid "job id");
  user ← someOr userUUID (ErrInvalid "user id");
  replica ← someOr (ComputeReplicaIndex rawJobID totalReplicas) (ErrInvalid "replica index");
  db ← reads (fun db => db);
  guard (bool_decide (JOBS db !! jobID = None /\ JOB_CONFIGS db !! jobID = None)) (ErrDB "duplicate key");;
  guard (int4pos (c_m c) && int4pos (c_r c)) (ErrDB "check");;
  writes (QueryInsertJob jobID user replica);;
  writes (QueryInsertJobConfig jobID c).
Definition UpsertSystemConfig (e : callEnv) (c : SystemConfigUpdate) (db : DB) : (error + ()) * DB := runTx (commits e) (QueryUpsertSystemConfig c) db.

(** ** Fencing *)

Definition applyJobTransitionTx (rawJobID : string) (to : JobState) : tx JobState :=
  jobID ← cast rawJobID;
  job ← reads (fun db => JOBS db !! jobID); job ← someOr job ErrTaskNotFound;
  if bool_decide (j_status job = to) then mret (j_status job)
  else ValidateJobTransition (j_status job) to;; updateJobStatusTx jobID to;; mret (j_status job).

Definition validateLeaseTx (s : Scheduler) (e : callEnv) (attemptID leaseID : string) : tx () :=
  lease ← cast leaseID;
  v ← reads (QueryCheckLeaseValid attemptID lease (leaseClockSkewSeconds s) (dbNow e)); v ← someOr v ErrNoRows;
  guard v ErrExpiredLease.

(** The checks that [CompleteTask], [FailTask] and [RenewLease] repeat: the task is
    in progress and bound to the attempt (the text of the column is compared), and
    the lease is valid. *)
Definition fenceTx (s : Scheduler) (e : callEnv) (taskID attemptID leaseID : string) : tx string :=
  t ← reads (fun db => TASKS db !! taskID); t ← someOr t ErrTaskNotFound;
  guard (hasStatus InProgress t) ErrInvalidStateTransition;;
  guard (bool_decide (t_attempt t = Some attemptID)) ErrStaleAttempt;;
  validateLeaseTx s e attemptID leaseID;;
  mret (t_job t).

Definition CompleteTaskTx (s : Scheduler) (e : callEnv) (rawTaskID attemptID leaseID : string) (outputURIs outputChecksums : list string) : tx (string * bool) :=
  guard (bool_decide (length outputURIs = length outputChecksums)) ErrOutputMismatch;;
  taskID ← cast rawTaskID;
  r ← reads (selectJobOfTask taskID); '(jobID, jobStatus) ← someOr r ErrTaskNotFound;
  guard (negb (bool_decide (jobStatus = JobCleaning))) ErrJobCancelling;;
  guard (bool_decide (jobStatus = JobRunning) || bool_decide (jobStatus = JobPending)) ErrInvalidStateTransition;;
  fenceTx s e taskID attemptID leaseID;;
  QueryCompleteTask taskID;;
  QuerySucceedAttempt attemptID;;
  QueryInsertOutputBulk taskID outputURIs outputChecksums;;
  pendingTasks ← reads (QueryCountAllPendingTasks jobID);
  let jobCompleted := pendingTasks =? 0 in
  (if jobCompleted then updateJobStatusTx jobID JobCleaning else mret ());;
  Emit s (EvTaskAttemptCompleted (uuidOrNil rawTaskID) (uuidOrNil jobID) (uuidOrNil attemptID) attemptID);;
  (if jobCompleted then Emit s (EvJobStateChanged (uuidOrNil jobID) JobRunning JobCleaning) else mret ());;
  mret (jobID, jobCompleted).
Definition CompleteTask (s : Scheduler) (e : callEnv) (taskID attemptID leaseID : string) (outputURIs outputChecksums : list string) (db : DB)
    : (error + ()) * Scheduler * DB :=
  match runTx (commits e) (CompleteTaskTx s e taskID attemptID leaseID outputURIs outputChecksums) db with
  | (inl err, db') => (inl err, s, db')
  | (inr (jobID, jobCompleted), db') =>
      let s' := withHeartbeats (delete attemptID (heartbeats s)) s in
      (inr (), if jobCompleted : bool then enqueueCleanup jobID (Some JobCompleted) s' else s', db')
  end.

Definition RenewLease (s : Scheduler) (e : callEnv) (rawTaskID attemptID leaseID : string) (db : DB) : (error + ()) * Scheduler * DB :=
  let m := taskID ← cast rawTaskID; taskJobID ← fenceTx s e taskID attemptID leaseID; QueryRenewLease attemptID (dbNow e);; mret taskJobID in
  match m db with
  | inl err => (inl err, s, db)
  | inr (taskJobID, db') =>
      let '(emits, s') := shouldEmitHeartbeatEvent s in
      match runTx (commits e) (if emits : bool then Emit s (EvTaskHeartbeatReceived (uuidOrNil rawTaskID) (uuidOrNil taskJobID) (uuidOrNil attemptID)) else mret ()) db' with
      | (inl err, _) => (inl err, s', db)
      | (inr (), db'') => (inr (), withHeartbeats (<[attemptID := procNow e]> (heartbeats s')) s', db'')
      end
  end.

Definition CancelJobTx (s : Scheduler) (rawJobID : string) : tx (list string) :=
  oldStatus ← applyJobTransitionTx rawJobID JobCleaning;
  jobID ← cast rawJobID;
  attemptIDs ← reads (QuerySelectRunningAttemptIDsByJob jobID);
  QueryBulkFailNonCompletedTasksByJob jobID;;
  writes (QueryFailRunningAttemptsByJob jobID);;
  Emit s (EvJobCancelRequested (uuidOrNil rawJobID));;
  Emit s (EvJobStateChanged (uuidOrNil rawJobID) oldStatus JobCleaning);;
  mret attemptIDs.
Definition CancelJob (s : Scheduler) (e : callEnv) (jobID : string) (db : DB) : (error + ()) * Scheduler * DB :=
  match runTx (commits e) (CancelJobTx s jobID) db with
  | (inl (ErrForbiddenTransition _ _), db') => (inr (), s, db')
  | (inl err, db') => (inl err, s, db')
  | (inr attemptIDs, db') =>
      (inr (), enqueueCleanup jobID (Some JobCancelled) (withHeartbeats (foldr delete (heartbeats s) attemptIDs) s), db')
  end.

Definition retryState (attemptCount : Z) : TaskState := if MaxTaskAttempts <=? attemptCount then Failed else Idle.
Definition FailTaskTx (s : Scheduler) (e : callEnv) (rawTaskID attemptID leaseID reason : string) : tx (string * TaskState) :=
  taskID ← cast rawTaskID;
  r ← reads (selectJobOfTask taskID); '(jobID, jobStatus) ← someOr r ErrTaskNotFound;
  guard (bool_decide (jobStatus = JobRunning) || bool_decide (jobStatus = JobPending)) ErrInvalidStateTransition;;
  fenceTx s e taskID attemptID leaseID;;
  attemptCount ← reads (QueryCountAttemptsByTask taskID);
  let newState := retryState attemptCount in
  QueryUpdateTaskStatus newState taskID;;
  QueryFailAttempt attemptID;;
  (if bool_decide (newState = Failed) then updateJobStatusTx jobID JobCleaning else mret ());;
  Emit s (EvTaskAttemptFailed (uuidOrNil rawTaskID) (uuidOrNil jobID) (uuidOrNil attemptID) "" reason);;
  (if bool_decide (newState = Failed) then Emit s (EvJobStateChanged (uuidOrNil jobID) JobRunning JobCleaning) else mret ());;
  mret (jobID, newState).
Definition FailTask (s : Scheduler) (e : callEnv) (taskID attemptID leaseID reason : string) (db : DB) : (error + ()) * Scheduler * DB :=
  match runTx (commits e) (FailTaskTx s e taskID attemptID leaseID reason) db with
  | (inl err, db') => (inl err, s, db')
  | (inr (jobID, newState), db') =>
      let s' := withHeartbeats (delete attemptID (heartbeats s)) s in
      (inr (), if bool_decide (newState = Failed) then enqueueCleanup jobID (Some JobFailed) s' else s', db')
  end.

(** ** The reaper *)

Record reapAcc := mkReap { recoveredCount : Z; respawnJobs : list string; failedJobs : gset string }.
(** The last heartbeat, in memory if there is one; [time.Since] against the lease. *)
Definition freshHeartbeat (s : Scheduler) (now : Z) (rec : staleRec) : bool :=
  now - default (st_renewed rec) (heartbeats s !! st_attempt rec) <? (st_ttl rec + leaseClockSkewSeconds s) * second.
Definition reapOne (s : Scheduler) (now : Z) (acc : reapAcc) (rec : staleRec) : tx reapAcc :=
  if freshHeartbeat s now rec then mret acc
  else
    let newState := retryState (st_count rec) in
    QueryUpdateTaskStatus newState (st_task rec);;
    QueryFailAttempt (st_attempt rec);;
    if bool_decide (newState = Failed)
    then updateJobStatusTx (st_job rec) JobCleaning;; mret (mkReap (recoveredCount acc + 1) (respawnJobs acc) ({[st_job rec]} ∪ failedJobs acc))
    else mret (mkReap (recoveredCount acc + 1) (respawnJobs acc ++ [st_job rec]) (failedJobs acc)).
Definition FailStaleTasksTx (s : Scheduler) (e : callEnv) : tx reapAcc :=
  stales ← reads (QuerySelectStaleTasks (locked e) (replicaIndex s));
  acc ← foldTx (reapOne s (procNow e)) stales (mkReap 0 [] ∅);
  foldTx (fun _ rec => Emit s (EvTaskReaped (uuidOrNil (st_task rec)) (uuidOrNil (st_job rec)) (uuidOrNil (st_attempt rec)) "lease expired")) stales ();;
  foldTx (fun _ jobID => Emit s (EvJobStateChanged (uuidOrNil jobID) JobRunning JobCleaning)) (elements (failedJobs acc)) ();;
  mret acc.
(** The transaction and the cleanup requests it makes. *)
Definition FailStaleTasksCommit (s : Scheduler) (e : callEnv) (db : DB) : (error + reapAcc) * Scheduler * DB :=
  match runTx (commits e) (FailStaleTasksTx s e) db with
  | (inl err, db') => (inl err, s, db')
  | (inr acc, db') => (inr acc, foldl (fun s jobID => enqueueCleanup jobID (Some JobFailed) s) s (elements (failedJobs acc)), db')
  end.
(** The workers of a job are replaced; a statement that fails is only logged. *)
Definition respawnJob (succeeds : bool) (sd : Scheduler * DB) (jobID : string) : Scheduler * DB :=
  let '(s, db) := sd in
  (withCalls [OrchCancelJob jobID; OrchEnsureWorkerPool jobID defaultReaperPoolSize (managerAddr s)] s,
   if succeeds then QueryFailRunningAttemptsByJob jobID db else db).
Definition FailStaleTasks (s : Scheduler) (e : callEnv) (db : DB) : (error + Z) * Scheduler * DB :=
  match FailStaleTasksCommit s e db with
  | (inl err, s', db') => (inl err, s', db')
  | (inr acc, s', db') =>
      let '(s', db') := foldl (respawnJob true) (s', db') (elements (list_to_set (respawnJobs acc) : gset string)) in
      (inr (recoveredCount acc), s', db')
  end.

(** ** Start-up *)

Definition Recover (s : Scheduler) (db : DB) : Scheduler * DB :=
  let db := QueryFailRunningAttemptsByReplica (replicaIndex s) db in
  let db := QueryResetTasksForReplica (replicaIndex s) db in
  let jobIDs := (map_to_list (filter (fun kj => j_status kj.2 = JobRunning /\ j_replica kj.2 = replicaIndex s) (JOBS db))).*1 in
  (withCalls (concat (map (fun jobID => [OrchCancelJob jobID; OrchEnsureWorkerPool jobID 4 (managerAddr s)]) jobIDs)) s, db).

Definition determineCleaningTerminalState (rawJobID : string) : tx JobState :=
  jobID ← cast rawJobID;
  failedCount ← reads (QueryCountFailedTasks jobID);
  if 0 <? failedCount then mret JobFailed
  else
    pending ← reads (QueryCountAllPendingTasks jobID);
    mret (if 0 <? pending then JobFailed else JobCompleted).
(** The recovery at the start of [StartCleanupReconciler]; the ticker then calls
    [popPendingCleanup] and [reconcileOne] for each entry it gets. *)
Definition StartCleanupReconciler (s : Scheduler) (db : DB) : Scheduler :=
  foldl (fun s jobID => enqueueCleanup jobID (match determineCleaningTerminalState jobID db with inr (st, _) => Some st | inl _ => None end) s)
    s (QuerySelectCleaningJobs db).

(** ** Cleanup *)

(** Go ranges over a map in an order of its choice, [order]. *)
Definition popPendingCleanup (order : list string) (limit : Z) (s : Scheduler) : gmap string (option JobState) * Scheduler :=
  let n := Z.of_nat (size (pendingCleanup s)) in
  let limit := if (limit <=? 0) || (n <? limit) then n else limit in
  let popped := take (Z.to_nat limit) order in
  (filter (fun kv => kv.1 ∈ popped) (pendingCleanup s), withCleanup (filter (fun kv => kv.1 ∉ popped) (pendingCleanup s)) (cleanupRetries s) s).

(** Whether the staging objects are deleted and the orchestrator obeys. *)
Record cleanupEnv := mkCleanupEnv { deletesStaging : bool; cleanupCommits : bool; cancelsWorkers : bool }.
Definition finalizeJob (s : Scheduler) (ce : cleanupEnv) (jobID : string) (terminalState : JobState) (db : DB) : Scheduler * DB :=
  let retry := enqueueCleanup jobID (Some terminalState) in
  let retries := default 0 (cleanupRetries s !! jobID) in
  if hasStaging s && (retries <? maxCleanupRetries) && negb (deletesStaging ce) then (retry s, db)
  else
    match runTx (cleanupCommits ce) (applyJobTransitionTx jobID terminalState) db with
    | (inl _, db') => (retry s, db')
    | (inr _, db') =>
        let s := withCalls [OrchCancelJob jobID] s in
        if cancelsWorkers ce then (withCleanup (pendingCleanup s) (delete jobID (cleanupRetries s)) s, db') else (retry s, db')
    end.
Definition reconcileOne (s : Scheduler) (ce : cleanupEnv) (jobID : string) (terminalState : option JobState) (db : DB) : Scheduler * DB :=
  match terminalState with
  | Some st => finalizeJob s ce jobID st db
  | None =>
      match determineCleaningTerminalState jobID db with
      | inr (st, _) => finalizeJob s ce jobID st db
      | inl _ => (enqueueCleanup jobID None s, db)
      end
  end.

(** ** Status *)

Definition GetMapOutputs (jobID : string) (db : DB) : list string :=
  map o_uri (filter (fun o => match TASKS db !! o_task o with Some t => ofJob jobID t && hasType MapTask t && hasStatus Completed t | None => false end = true) (TASK_OUTPUTS db)).
Definition GetReduceOutputs (jobID : string) (db : DB) : list string :=
  map o_uri (filter (fun o => match TASKS db !! o_task o with Some t => ofJob jobID t && hasType ReduceTask t && hasStatus Completed t | None => false end = true) (TASK_OUTPUTS db)).
Definition AllMapTasksCompleted (jobID : string) (db : DB) : bool := QueryCountPendingTasksByType jobID MapTask db =? 0.
Definition IsJobFinished (jobID : string) (db : DB) : bool := QueryCountAllPendingTasks jobID db =? 0.
Definition GetTaskStatus (taskID : string) : tx TaskState := t ← reads (fun db => TASKS db !! taskID); t ← someOr t ErrTaskNotFound; mret (t_status t).

End Handlers.
