(* ===== verification/SchedulerSpec.v ===== *)
(** An abstract specification of the scheduler: the changes of the tables [JOBS],
    [TASKS], [TASK_ATTEMPTS] and [TASK_OUTPUTS] that its transactions are made of,
    each with the condition under which it may happen, and what holds in every
    state they lead to.  [SchedulerFacts] shows that the handlers refine it. *)
From Stdlib Require Import ZArith Lia String.
From stdpp Require Import base gmap strings list relations.
From S2P Require Import Prelude Scheduler.

Local Open Scope Z_scope.

Lemma filter_none {A} (P : A -> Prop) `{!forall x, Decision (P x)} l : Forall (fun x => ~ P x) l -> filter P l = [].
Proof. induction 1 as [|x l Hx _ IH]; [done|]. by rewrite filter_cons, decide_False. Qed.

(** * Properties of a state *)

Definition allTasks (P : TaskState -> Prop) (j : string) (db : DB) : Prop :=
  forall tid t, TASKS db !! tid = Some t -> t_job t = j -> P (t_status t).
Definition someTask (P : TaskState -> Prop) (j : string) (db : DB) : Prop :=
  exists tid t, TASKS db !! tid = Some t /\ t_job t = j /\ P (t_status t).
Definition mapsCompleted (j : string) (db : DB) : Prop :=
  forall tid t, TASKS db !! tid = Some t -> t_job t = j -> t_type t = MapTask -> t_status t = Completed.
Definition settled (st : TaskState) : Prop := st = Completed \/ st = Failed.
Definition started (st : TaskState) : Prop := st = InProgress \/ st = Completed.
Definition active (st : JobState) : Prop := st = JobPending \/ st = JobRunning.

(** What a status of a job says of its tasks. *)
Definition jobOK (db : DB) (j : string) (st : JobState) : Prop :=
  match st with
  | JobPending | JobRunning => allTasks (fun s => s <> Failed) j db /\ (someTask (fun _ => True) j db -> someTask (fun s => s <> Completed) j db)
  | JobCleaning => allTasks (eq Completed) j db \/ someTask (eq Failed) j db
  | JobCompleted => allTasks (eq Completed) j db
  | JobFailed => someTask (eq Failed) j db
  | JobCancelled => allTasks settled j db
  end.
Definition taskOK (db : DB) (tid : string) (t : TaskRow) : Prop :=
  is_Some (JOBS db !! t_job t)
  /\ (t_status t = InProgress -> exists a ar, t_attempt t = Some a /\ TASK_ATTEMPTS db !! a = Some ar /\ a_task ar = tid /\ a_status ar <> AttemptSuccess)
  /\ (t_status t = Idle \/ t_status t = Completed -> t_attempt t = None).
Definition attemptOK (db : DB) (a : string) (ar : AttemptRow) : Prop :=
  exists t, TASKS db !! a_task ar = Some t
  /\ (a_status ar = AttemptRunning -> t_status t = InProgress /\ t_attempt t = Some a)
  /\ (a_status ar = AttemptSuccess -> t_status t = Completed).

Record wf (db : DB) : Prop := mkWf {
  wf_task : forall tid t, TASKS db !! tid = Some t -> taskOK db tid t;
  wf_attempt : forall a ar, TASK_ATTEMPTS db !! a = Some ar -> attemptOK db a ar;
  wf_once : forall a b ar br, TASK_ATTEMPTS db !! a = Some ar -> TASK_ATTEMPTS db !! b = Some br ->
    a_status ar = AttemptSuccess -> a_status br = AttemptSuccess -> a_task ar = a_task br -> a = b;
  wf_output : forall o, o ∈ TASK_OUTPUTS db -> exists t, TASKS db !! o_task o = Some t /\ t_status t = Completed;
  wf_phase : forall tid t, TASKS db !! tid = Some t -> t_type t = ReduceTask -> started (t_status t) -> mapsCompleted (t_job t) db;
  wf_job : forall j jr, JOBS db !! j = Some jr -> jobOK db j (j_status jr) }.

(** * The changes *)

Definition jobTo (j : string) (st : JobState) (db : DB) : gmap string JobRow := JOBS (QueryUpdateJobStatus j st db).
Definition maxPods (db : DB) : Z := match SYSTEM_CONFIG db with Some c => MaxConcurrentPods c | None => DefaultMaxConcurrentPods end.
Definition activeJob (j : string) (db : DB) : Prop := exists jr, JOBS db !! j = Some jr /\ active (j_status jr).
(** The attempt to which a task in progress is bound. *)
Definition bound (db : DB) (tid a : string) (t : TaskRow) : Prop := TASKS db !! tid = Some t /\ t_status t = InProgress /\ t_attempt t = Some a.
Definition others (db db' : DB) : Prop := SYSTEM_CONFIG db' = SYSTEM_CONFIG db.
(** The job of a completed task goes to Cleaning when no other task is left. *)
Definition jobsAfter (j : string) (db db' : DB) : Prop :=
  (allTasks (eq Completed) j db' /\ JOBS db' = jobTo j JobCleaning db) \/ (someTask (fun s => s <> Completed) j db' /\ JOBS db' = JOBS db).

(** * Lookups *)

Lemma lookup_jobTo j st db k r :
  jobTo j st db !! k = Some r <-> exists r0, JOBS db !! k = Some r0 /\ r = if decide (k = j) then mkJob (j_user r0) st (j_replica r0) else r0.
Proof.
  unfold jobTo, QueryUpdateJobStatus, withJOBS. cbn. destruct (decide (k = j)) as [->|Hk].
  - rewrite lookup_alter_eq. destruct (JOBS db !! j); cbn; naive_solver.
  - rewrite lookup_alter_ne by done. naive_solver.
Qed.

Lemma jobTo_is_Some j st db k : is_Some (jobTo j st db !! k) <-> is_Some (JOBS db !! k).
Proof. unfold jobTo, QueryUpdateJobStatus, withJOBS. cbn. apply lookup_alter_is_Some. Qed.

Lemma lookup_failRunning P db a ar :
  TASK_ATTEMPTS (failRunningWhere P db) !! a = Some ar ->
  exists ar0, TASK_ATTEMPTS db !! a = Some ar0 /\ a_task ar = a_task ar0
  /\ ((ar = ar0 /\ (a_status ar0 = AttemptRunning -> forall t, TASKS db !! a_task ar0 = Some t -> P t = false))
     \/ (a_status ar0 = AttemptRunning /\ a_status ar = AttemptFailed)).
Proof.
  cbn. rewrite lookup_fmap_Some. intros (ar0 & Har & H). exists ar0. split; [done|]. revert Har.
  destruct (bool_decide_reflect (a_status ar0 = AttemptRunning)) as [Hr|Hr]; cbn.
  2:{ intros <-. split; [done|]. left. by split. }
  destruct (TASKS db !! a_task ar0) as [t|] eqn:Ht.
  2:{ intros <-. split; [done|]. left. split; [done|]. intros _ t' [=]. }
  destruct (P t) eqn:HP; intros <-; cbn; split; try done; [by right|].
  left. split; [done|]. intros _ t' [= <-]. done.
Qed.

Lemma failRunning_lookup P db a ar : TASK_ATTEMPTS db !! a = Some ar ->
  exists ar', TASK_ATTEMPTS (failRunningWhere P db) !! a = Some ar' /\ a_task ar' = a_task ar /\ (a_status ar' = AttemptSuccess -> a_status ar = AttemptSuccess).
Proof.
  intros H. cbn. rewrite lookup_fmap, H. cbn. eexists. split; [done|]. destruct (_ && _); cbn; by split.
Qed.

(** * Updates row by row

    Most changes update the rows of [TASKS] and [TASK_ATTEMPTS] in place: [f] and
    [g] give the new row.  A completed task is never touched. *)

Record moves (f : string -> TaskRow -> TaskRow) (db db' : DB) : Prop := mkMoves {
  mv_lookup : forall k, TASKS db' !! k = f k <$> TASKS db !! k;
  mv_same : forall k t, TASKS db !! k = Some t -> t_job (f k t) = t_job t /\ t_type (f k t) = t_type t;
  mv_completed : forall k t, TASKS db !! k = Some t -> t_status t = Completed -> f k t = t }.
Record amoves (g : string -> AttemptRow -> AttemptRow) (db db' : DB) : Prop := mkAmoves {
  am_lookup : forall a, TASK_ATTEMPTS db' !! a = g a <$> TASK_ATTEMPTS db !! a;
  am_task : forall a ar, TASK_ATTEMPTS db !! a = Some ar -> a_task (g a ar) = a_task ar }.

Section Moves.
Context (f : string -> TaskRow -> TaskRow) (db db' : DB) (Hf : moves f db db').

Lemma moves_inv k t' : TASKS db' !! k = Some t' -> exists t, TASKS db !! k = Some t /\ t' = f k t /\ t_job t' = t_job t /\ t_type t' = t_type t.
Proof.
  rewrite (mv_lookup _ _ _ Hf). intros (t & Ht & ->)%fmap_Some. exists t. destruct (mv_same _ _ _ Hf k t Ht). auto.
Qed.

Lemma moves_to k t : TASKS db !! k = Some t -> TASKS db' !! k = Some (f k t).
Proof. intros H. by rewrite (mv_lookup _ _ _ Hf), H. Qed.

Lemma allTasks_moves (P Q : TaskState -> Prop) j : allTasks P j db ->
  (forall k t, TASKS db !! k = Some t -> t_job t = j -> P (t_status t) -> Q (t_status (f k t))) -> allTasks Q j db'.
Proof. intros H HPQ k t' Hk Hj. destruct (moves_inv _ _ Hk) as (t & Ht & -> & Hjob & _). apply HPQ; [done|congruence|]. apply (H k); [done|congruence]. Qed.

Lemma someTask_moves (P Q : TaskState -> Prop) j : someTask P j db ->
  (forall k t, TASKS db !! k = Some t -> t_job t = j -> P (t_status t) -> Q (t_status (f k t))) -> someTask Q j db'.
Proof.
  intros (k & t & Hk & Hj & HP) HPQ. exists k, (f k t). destruct (mv_same _ _ _ Hf k t Hk) as [Hjob _].
  split; [by apply moves_to|]. split; [congruence|]. by apply HPQ.
Qed.

Lemma someTask_back j : someTask (fun _ => True) j db' -> someTask (fun _ => True) j db.
Proof. intros (k & t' & Hk & Hj & _). destruct (moves_inv _ _ Hk) as (t & Ht & -> & Hjob & _). exists k, t. split; [done|]. split; [congruence|done]. Qed.

Lemma mapsCompleted_moves j : mapsCompleted j db -> mapsCompleted j db'.
Proof.
  intros H k t' Hk Hj Hm. destruct (moves_inv _ _ Hk) as (t & Ht & -> & Hjob & Hty).
  assert (t_status t = Completed) as Hc by (apply (H k); congruence). by rewrite (mv_completed _ _ _ Hf k t Ht Hc).
Qed.

(** A job keeps its status when its tasks stay as they are or go back to Idle. *)
Lemma jobOK_moves j st : jobOK db j st ->
  (forall k t, TASKS db !! k = Some t -> t_job t = j -> t_status (f k t) = t_status t \/ t_status t = InProgress /\ t_status (f k t) = Idle) -> jobOK db' j st.
Proof.
  intros H Hm.
  assert (Hall : forall P : TaskState -> Prop, (P InProgress -> P Idle) -> allTasks P j db -> allTasks P j db').
  { intros P HP HH. apply (allTasks_moves P); [done|]. intros k t Hk Hj Ht. destruct (Hm k t Hk Hj) as [->|[E ->]]; [done|]. apply HP. by rewrite <- E. }
  assert (Hsome : forall P : TaskState -> Prop, (P InProgress -> P Idle) -> someTask P j db -> someTask P j db').
  { intros P HP HH. apply (someTask_moves P); [done|]. intros k t Hk Hj Ht. destruct (Hm k t Hk Hj) as [->|[E ->]]; [done|]. apply HP. by rewrite <- E. }
  destruct st; cbn in *.
  1,2: destruct H as [H1 H2]; split; [by apply Hall|intros H3%someTask_back; by apply Hsome, H2].
  - destruct H; [left; by apply Hall|right; by apply Hsome].
  - by apply Hall.
  - by apply Hsome.
  - apply Hall; [|done]. by intros [|].
Qed.
End Moves.

(** The rows stay consistent under an update whose new running and successful
    attempts and new tasks in progress were so before, up to the conditions below. *)
Lemma wf_moves f g db db' :
  wf db -> moves f db db' -> amoves g db db' ->
  (forall k, is_Some (JOBS db !! k) -> is_Some (JOBS db' !! k)) ->
  (forall a ar t, TASK_ATTEMPTS db !! a = Some ar -> TASKS db !! a_task ar = Some t -> a_status (g a ar) = AttemptRunning ->
    a_status ar = AttemptRunning /\ (t_attempt t = Some a -> f (a_task ar) t = t)) ->
  (forall a ar t, TASK_ATTEMPTS db !! a = Some ar -> TASKS db !! a_task ar = Some t -> a_status (g a ar) = AttemptSuccess ->
    a_status ar = AttemptSuccess \/ t_attempt t = Some a /\ t_status t = InProgress /\ t_status (f (a_task ar) t) = Completed) ->
  (forall k t, TASKS db !! k = Some t -> t_status (f k t) = InProgress -> f k t = t /\ forall a ar, t_attempt t = Some a -> a_status (g a ar) = AttemptSuccess -> a_status ar = AttemptSuccess) ->
  (forall k t, TASKS db !! k = Some t -> t_status (f k t) = Idle \/ t_status (f k t) = Completed -> f k t = t \/ t_attempt (f k t) = None) ->
  (forall k t, TASKS db !! k = Some t -> t_type t = ReduceTask -> started (t_status (f k t)) -> started (t_status t) \/ mapsCompleted (t_job t) db) ->
  (forall o, o ∈ TASK_OUTPUTS db' -> o ∈ TASK_OUTPUTS db \/ exists t, TASKS db' !! o_task o = Some t /\ t_status t = Completed) ->
  (forall j jr, JOBS db' !! j = Some jr -> jobOK db' j (j_status jr)) ->
  wf db'.
Proof.
  intros W Hf Hg HJ HA HB HC HD HP HO Hjob.
  assert (Hatt : forall a ar', TASK_ATTEMPTS db' !! a = Some ar' -> exists ar t, TASK_ATTEMPTS db !! a = Some ar /\ ar' = g a ar /\ a_task ar' = a_task ar
    /\ TASKS db !! a_task ar = Some t /\ attemptOK db a ar).
  { intros a ar'. rewrite (am_lookup _ _ _ Hg). intros (ar & Ha & ->)%fmap_Some. pose proof (wf_attempt _ W a ar Ha) as (t & Ht & Hok).
    exists ar, t. split_and!; [done|done|by apply (am_task _ _ _ Hg)|done|]. by exists t. }
  assert (Hsucc : forall a ar t, TASK_ATTEMPTS db !! a = Some ar -> TASKS db !! a_task ar = Some t -> a_status ar = AttemptSuccess -> t_status t = Completed).
  { intros a ar t Ha Ht Hs. destruct (wf_attempt _ W a ar Ha) as (t' & Ht' & _ & H). rewrite Ht in Ht'. injection Ht' as <-. auto. }
  split.
  - intros k t' Hk. destruct (moves_inv _ _ _ Hf _ _ Hk) as (t & Ht & -> & Hjt & _). destruct (wf_task _ W k t Ht) as (HJ0 & Hin & Hno).
    split; [rewrite Hjt; by apply HJ|]. split.
    + intros Hst. destruct (HC k t Ht Hst) as [E Hns]. rewrite E in Hst |- *. destruct (Hin Hst) as (a & ar & Ha & Har & Htk & Hs).
      exists a, (g a ar). split; [done|]. rewrite (am_lookup _ _ _ Hg), Har. split; [done|]. rewrite (am_task _ _ _ Hg a ar Har). split; [done|].
      intros Hg'. exact (Hs (Hns a ar Ha Hg')).
    + intros Hst. destruct (HD k t Ht Hst) as [E|E]; [|done]. rewrite E in *. auto.
  - intros a ar' Ha. destruct (Hatt a ar' Ha) as (ar & t & Har & -> & Htask & Ht & t2 & Ht2 & Hr & Hs).
    rewrite Ht in Ht2. injection Ht2 as <-. exists (f (a_task ar) t). rewrite Htask. split; [by apply (moves_to _ _ _ Hf)|]. split.
    + intros Hst. destruct (HA a ar t Har Ht Hst) as [Hrun E]. destruct (Hr Hrun) as [? Hatt']. rewrite E by done. auto.
    + intros Hst. destruct (HB a ar t Har Ht Hst) as [Hsc|(_ & _ & ?)]; [|done].
      specialize (Hs Hsc). by rewrite (mv_completed _ _ _ Hf (a_task ar) t Ht Hs).
  - intros a b ar' br' Ha Hb Hsa Hsb Heq.
    destruct (Hatt a ar' Ha) as (ar & t & Har & -> & Hta & Ht & _). destruct (Hatt b br' Hb) as (br & u & Hbr & -> & Htb & Hu & _).
    rewrite Hta, Htb in Heq. rewrite <- Heq in Hu. rewrite Ht in Hu. injection Hu as <-. assert (Ht' := Ht). rewrite Heq in Ht'.
    destruct (HB a ar t Har Ht Hsa) as [Hsa'|(Hba & Hpa & _)], (HB b br t Hbr Ht' Hsb) as [Hsb'|(Hbb & Hpb & _)].
    + exact (wf_once _ W a b ar br Har Hbr Hsa' Hsb' Heq).
    + pose proof (Hsucc a ar t Har Ht Hsa'). congruence.
    + pose proof (Hsucc b br t Hbr Ht' Hsb'). congruence.
    + congruence.
  - intros o Ho. destruct (HO o Ho) as [H|H]; [|done]. destruct (wf_output _ W o H) as (t & Ht & Hc). exists t. split; [|done].
    by rewrite (moves_to _ _ _ Hf _ _ Ht), (mv_completed _ _ _ Hf _ _ Ht Hc).
  - intros k t' Hk Hty Hst. destruct (moves_inv _ _ _ Hf _ _ Hk) as (t & Ht & -> & Hjt & Htt). rewrite Hjt. apply (mapsCompleted_moves _ _ _ Hf).
    rewrite Htt in Hty. destruct (HP k t Ht Hty Hst) as [H|H]; [|done]. exact (wf_phase _ W k t Ht Hty H).
  - exact Hjob.
Qed.

Definition onKey {A} (key : string) (h : A -> A) (k : string) (x : A) : A := if decide (k = key) then h x else x.

Lemma lookup_alter_onKey {A} (h : A -> A) key (m : gmap string A) k : alter h key m !! k = onKey key h k <$> m !! k.
Proof.
  unfold onKey. destruct (decide (k = key)) as [->|Hk]; [by rewrite lookup_alter_eq|]. rewrite lookup_alter_ne by done. by destruct (m !! k).
Qed.

Lemma moves_id db db' : TASKS db' = TASKS db -> moves (fun _ t => t) db db'.
Proof. intros E. split; [intros k; rewrite E; by destruct (TASKS db !! k)|done|done]. Qed.

Lemma amoves_id db db' : TASK_ATTEMPTS db' = TASK_ATTEMPTS db -> amoves (fun _ a => a) db db'.
Proof. intros E. split; [intros k; rewrite E; by destruct (TASK_ATTEMPTS db !! k)|done]. Qed.

Lemma moves_alter h tid t db db' : TASKS db' = alter h tid (TASKS db) -> TASKS db !! tid = Some t -> t_status t <> Completed ->
  t_job (h t) = t_job t -> t_type (h t) = t_type t -> moves (onKey tid h) db db'.
Proof.
  intros E Ht Hc Hj Hty. split.
  - intros k. rewrite E. apply lookup_alter_onKey.
  - intros k u Hu. unfold onKey. destruct (decide (k = tid)) as [->|]; [|done]. rewrite Ht in Hu. by injection Hu as <-.
  - intros k u Hu Hcu. unfold onKey. destruct (decide (k = tid)) as [->|]; [|done]. congruence.
Qed.

Lemma amoves_alter h a db db' : TASK_ATTEMPTS db' = alter h a (TASK_ATTEMPTS db) -> (forall ar, a_task (h ar) = a_task ar) -> amoves (onKey a h) db db'.
Proof.
  intros E Hh. split; [intros k; rewrite E; apply lookup_alter_onKey|]. intros k ar _. unfold onKey. by destruct (decide (k = a)).
Qed.

Lemma moves_fmap h db db' : TASKS db' = h <$> TASKS db -> (forall t, t_job (h t) = t_job t /\ t_type (h t) = t_type t) ->
  (forall t, t_status t = Completed -> h t = t) -> moves (fun _ => h) db db'.
Proof. intros E H1 H2. split; [intros k; by rewrite E, lookup_fmap|auto|auto]. Qed.

Lemma amoves_failRunning P db db' : TASK_ATTEMPTS db' = TASK_ATTEMPTS (failRunningWhere P db) ->
  exists g, amoves g db db' /\ forall a ar, a_status (g a ar) = a_status ar /\ (a_status ar = AttemptRunning -> forall t, TASKS db !! a_task ar = Some t -> P t = false)
    \/ a_status ar = AttemptRunning /\ a_status (g a ar) = AttemptFailed.
Proof.
  intros E. exists (fun _ a => if bool_decide (a_status a = AttemptRunning) && match TASKS db !! a_task a with Some t => P t | None => false end
    then setAttempt AttemptFailed a else a). split.
  - split; [intros k; rewrite E; cbn; by rewrite lookup_fmap|]. intros a ar _. cbn. by destruct (_ && _).
  - intros _ ar. cbn. destruct (bool_decide_reflect (a_status ar = AttemptRunning)) as [Hr|Hr]; cbn; [|by left].
    destruct (TASKS db !! a_task ar) as [t|]; [|left; by split].
    destruct (P t) eqn:HP; [auto|]. left. split; [done|]. intros _ t' [= <-]. done.
Qed.

(** The job part of [wf_moves]. *)
Lemma jobs_same f db db' : wf db -> moves f db db' -> JOBS db' = JOBS db ->
  (forall k t, TASKS db !! k = Some t -> t_status (f k t) = t_status t \/ t_status t = InProgress /\ t_status (f k t) = Idle) ->
  forall j jr, JOBS db' !! j = Some jr -> jobOK db' j (j_status jr).
Proof. intros W Hf E Hm j jr Hj. rewrite E in Hj. apply (jobOK_moves _ _ _ Hf); [by apply (wf_job _ W)|]. intros k t Hk _. by apply Hm. Qed.

Lemma jobs_to f db db' j st : wf db -> moves f db db' -> JOBS db' = jobTo j st db ->
  (forall k t, TASKS db !! k = Some t -> t_job t <> j -> t_status (f k t) = t_status t) ->
  jobOK db' j st -> forall k jr, JOBS db' !! k = Some jr -> jobOK db' k (j_status jr).
Proof.
  intros W Hf E Hm Hok k jr Hk. rewrite E in Hk. apply lookup_jobTo in Hk as (r0 & Hr0 & ->). destruct (decide (k = j)) as [->|Hne]; [done|].
  apply (jobOK_moves _ _ _ Hf); [by apply (wf_job _ W)|]. intros i t Ht Hjt. left. apply Hm; [done|congruence].
Qed.

(** When the job of changed tasks stays or is done. *)
Lemma jobs_after f db db' j : wf db -> moves f db db' -> jobsAfter j db db' ->
  (forall k t, TASKS db !! k = Some t -> t_job t <> j -> t_status (f k t) = t_status t) ->
  (forall k t, TASKS db !! k = Some t -> t_status t = Failed \/ t_status (f k t) = Failed -> t_status (f k t) = t_status t) ->
  someTask (fun s => ~ settled s) j db -> forall k jr, JOBS db' !! k = Some jr -> jobOK db' k (j_status jr).
Proof.
  intros W Hf [[Hall E]|[Hsome E]] Hm HF (k0 & t0 & Hk0 & Hj0 & Hs0).
  { apply (jobs_to f db db' j JobCleaning W Hf E Hm). by left. }
  intros k jr Hk. rewrite E in Hk. pose proof (wf_job _ W k jr Hk) as Hok. destruct (decide (k = j)) as [->|Hne].
  2:{ apply (jobOK_moves _ _ _ Hf); [done|]. intros i t Ht Hjt. left. apply Hm; [done|congruence]. }
  assert (HsF : someTask (eq Failed) j db -> someTask (eq Failed) j db').
  { intros H. apply (someTask_moves _ _ _ Hf _ _ _ H). intros i t Ht _ E'. rewrite HF; auto. }
  assert (HaF : allTasks (fun s => s <> Failed) j db -> allTasks (fun s => s <> Failed) j db').
  { intros H. apply (allTasks_moves _ _ _ Hf _ _ _ H). intros i t Ht _ Hn Hc. apply Hn. rewrite <- (HF i t Ht); auto. }
  assert (Hno : allTasks (eq Completed) j db -> False) by (intros H; apply Hs0; left; symmetry; by apply (H k0)).
  destruct (j_status jr); cbn in *.
  1,2: destruct Hok as [H1 H2]; auto.
  - destruct Hok as [H|H]; [by destruct Hno|auto].
  - by destruct Hno.
  - auto.
  - destruct Hs0. by apply (Hok k0).
Qed.

(** * Every change keeps the invariant *)

Lemma wf_init : wf emptyDB.
Proof. split; cbn; intros; simplify_map_eq; by apply elem_of_nil in H. Qed.

Lemma wf_keep g db db' : wf db -> TASKS db' = TASKS db -> TASK_OUTPUTS db' = TASK_OUTPUTS db -> amoves g db db' ->
  (forall a ar, a_status (g a ar) = a_status ar \/ a_status (g a ar) = AttemptFailed) ->
  (forall k, is_Some (JOBS db !! k) -> is_Some (JOBS db' !! k)) ->
  (forall j jr, JOBS db' !! j = Some jr -> jobOK db' j (j_status jr)) -> wf db'.
Proof.
  intros W ET EO Hg Hst HJ Hjob. apply (wf_moves (fun _ t => t) g db db'); auto using moves_id.
  - intros a ar t _ _ Hr. split; [|done]. destruct (Hst a ar); congruence.
  - intros a ar t _ _ Hs. left. destruct (Hst a ar); congruence.
  - intros k t _ _. split; [done|]. intros a ar _ Hs. destruct (Hst a ar); congruence.
  - intros o. rewrite EO. auto.
Qed.

Lemma jobOK_tasks db db' j st : TASKS db' = TASKS db -> jobOK db j st -> jobOK db' j st.
Proof. intros E H. apply (jobOK_moves _ _ _ (moves_id _ _ E)); auto. Qed.

Lemma wf_attempts g db db' : wf db -> JOBS db' = JOBS db -> TASKS db' = TASKS db -> TASK_OUTPUTS db' = TASK_OUTPUTS db -> amoves g db db' ->
  (forall a ar, a_status (g a ar) = a_status ar \/ a_status (g a ar) = AttemptFailed) -> wf db'.
Proof.
  intros W EJ ET EO Hg Hst. apply (wf_keep g db db'); auto; [by rewrite EJ|].
  intros j jr. rewrite EJ. intros Hj. apply (jobOK_tasks _ _ _ _ ET). by apply (wf_job _ W).
Qed.

Lemma wf_create db db' j jr : wf db -> JOBS db !! j = None -> j_status jr = JobPending ->
  JOBS db' = <[j := jr]> (JOBS db) -> TASKS db' = TASKS db -> TASK_ATTEMPTS db' = TASK_ATTEMPTS db -> TASK_OUTPUTS db' = TASK_OUTPUTS db -> wf db'.
Proof.
  intros W Hj Hs EJ ET EA EO. apply (wf_keep (fun _ a => a) db db'); auto using amoves_id.
  - intros k Hk. rewrite EJ. by apply lookup_insert_is_Some'; right.
  - intros k r. rewrite EJ. intros [[<- <-]|[Hk Hr]]%lookup_insert_Some; apply (jobOK_tasks _ _ _ _ ET); [|by apply (wf_job _ W)].
    assert (Hno : forall P, ~ someTask P j db).
    { intros P (tid & t & Ht & <- & _). destruct (wf_task _ W tid t Ht) as [[? ?] _]. congruence. }
    rewrite Hs. cbn. split; [|intros H; by apply Hno in H]. intros tid t Ht Hjt. exfalso. eapply (Hno (fun _ => True)). exists tid, t. eauto.
Qed.

Lemma wf_final db db' j jr st : wf db -> JOBS db !! j = Some jr -> jobOK db j st ->
  JOBS db' = jobTo j st db -> TASKS db' = TASKS db -> TASK_ATTEMPTS db' = TASK_ATTEMPTS db -> TASK_OUTPUTS db' = TASK_OUTPUTS db -> wf db'.
Proof.
  intros W Hj Hok EJ ET EA EO. apply (wf_keep (fun _ a => a) db db'); auto using amoves_id.
  - intros k Hk. rewrite EJ. by apply jobTo_is_Some.
  - apply (jobs_to (fun _ t => t) db db' j st); auto using moves_id. by apply (jobOK_tasks _ _ _ _ ET).
Qed.

Lemma bound_row db tid a t : wf db -> bound db tid a t -> exists ar, TASK_ATTEMPTS db !! a = Some ar /\ a_task ar = tid /\ a_status ar <> AttemptSuccess.
Proof. intros W (Ht & Hs & Ha). destruct (wf_task _ W tid t Ht) as (_ & H & _). destruct (H Hs) as (a' & ar & Ha' & ?). exists ar. naive_solver. Qed.

(** A task whose attempt is settled with it, by [CompleteTask], [FailTask] or the
    reaper: no other attempt of the task can be running. *)
Lemma wf_settle db db' tid t a st ast : wf db -> bound db tid a t ->
  TASKS db' = alter (setStatus st) tid (TASKS db) -> TASK_ATTEMPTS db' = alter (setAttempt ast) a (TASK_ATTEMPTS db) ->
  (st = Completed /\ ast = AttemptSuccess \/ (st = Failed \/ st = Idle) /\ ast = AttemptFailed) ->
  (forall k, is_Some (JOBS db !! k) -> is_Some (JOBS db' !! k)) ->
  (forall o, o ∈ TASK_OUTPUTS db' -> o ∈ TASK_OUTPUTS db \/ st = Completed /\ o_task o = tid) ->
  (forall j jr, JOBS db' !! j = Some jr -> jobOK db' j (j_status jr)) -> wf db'.
Proof.
  intros W Hb ET EA Hst HJ HO Hjob. pose proof Hb as (Ht & Hp & Hat). destruct (bound_row _ _ _ _ W Hb) as (ar0 & Har0 & Htk0 & Hns0).
  assert (Hmv : moves (onKey tid (setStatus st)) db db') by (eapply moves_alter; eauto; congruence).
  apply (wf_moves (onKey tid (setStatus st)) (onKey a (setAttempt ast)) db db'); auto using amoves_alter; unfold onKey.
  - intros b br u Hbr Hu. destruct (decide (b = a)) as [->|Hne]; cbn; [destruct Hst as [[_ ->]|[_ ->]]; done|]. intros Hr. split; [done|].
    intros Hbu. destruct (decide (a_task br = tid)) as [Etk|]; [|done]. rewrite Etk, Ht in Hu. injection Hu as <-. congruence.
  - intros b br u Hbr Hu. destruct (decide (b = a)) as [->|Hne]; cbn; [|auto]. intros ->. right. rewrite Har0 in Hbr. injection Hbr as <-.
    rewrite Htk0, Ht in Hu. injection Hu as <-. rewrite decide_True by done. split_and!; [done|done|]. destruct Hst as [[-> _]|[_ ?]]; done.
  - intros k u Hu. destruct (decide (k = tid)) as [->|Hne]; cbn; [intros ->; destruct Hst as [[? _]|[[?|?] _]]; done|].
    intros Hin. split; [done|]. intros b br Hbu. destruct (decide (b = a)) as [->|]; [|done].
    destruct (wf_task _ W k u Hu) as (_ & H & _). destruct (H Hin) as (b' & br' & Hb' & Hbr' & Htk & _). congruence.
  - intros k u Hu. destruct (decide (k = tid)); [by right|by left].
  - intros k u Hu. destruct (decide (k = tid)) as [->|]; [|auto]. rewrite Ht in Hu. injection Hu as <-. left. by left.
  - intros o Ho. destruct (HO o Ho) as [?|[-> <-]]; [by left|]. right. exists (setStatus Completed t). split; [|done].
    rewrite (moves_to _ _ _ Hmv _ _ Ht). unfold onKey. by rewrite decide_True.
Qed.

Lemma onKey_ne {A} key (h : A -> A) k x : k <> key -> onKey key h k x = x.
Proof. intros H. unfold onKey. by rewrite decide_False. Qed.

Lemma onKey_eq {A} key (h : A -> A) x : onKey key h key x = h x.
Proof. unfold onKey. by rewrite decide_True. Qed.

Lemma jobsAfter_is_Some j db db' k : jobsAfter j db db' -> is_Some (JOBS db !! k) -> is_Some (JOBS db' !! k).
Proof. intros [[_ ->]|[_ ->]]; [by rewrite jobTo_is_Some|done]. Qed.

Lemma not_settled st : ~ settled st <-> st = Idle \/ st = InProgress.
Proof. unfold settled. destruct st; naive_solver. Qed.

Lemma wf_complete db db' tid t a outs : wf db -> bound db tid a t -> (forall o, o ∈ outs -> o_task o = tid) ->
  jobsAfter (t_job t) db db' -> TASKS db' = alter (setStatus Completed) tid (TASKS db) ->
  TASK_ATTEMPTS db' = alter (setAttempt AttemptSuccess) a (TASK_ATTEMPTS db) -> TASK_OUTPUTS db' = TASK_OUTPUTS db ++ outs -> wf db'.
Proof.
  intros W Hb Houts HJ ET EA EO. pose proof Hb as (Ht & Hp & Hat).
  assert (Hmv : moves (onKey tid (setStatus Completed)) db db') by (eapply moves_alter; eauto; congruence).
  eapply (wf_settle db db' tid t a Completed AttemptSuccess); eauto.
  - intros k. by apply jobsAfter_is_Some with (j := t_job t).
  - intros o. rewrite EO. intros [?|?]%elem_of_app; auto.
  - eapply jobs_after; [exact W|exact Hmv|exact HJ| | |].
    + intros k u Hu Hne. destruct (decide (k = tid)) as [->|]; [congruence|]. by rewrite onKey_ne.
    + intros k u Hu. destruct (decide (k = tid)) as [->|]; [|by rewrite onKey_ne]. rewrite onKey_eq. cbn. rewrite Ht in Hu. injection Hu as <-.
      intros [?|?]; congruence.
    + exists tid, t. split; [done|]. split; [done|]. rewrite not_settled. auto.
Qed.

Lemma retryState_cases n : retryState n = Failed \/ retryState n = Idle.
Proof. unfold retryState. case_match; auto. Qed.

Lemma wf_fail db db' tid t a st : wf db -> bound db tid a t -> (st = Failed \/ st = Idle) ->
  JOBS db' = (if decide (st = Failed) then jobTo (t_job t) JobCleaning db else JOBS db) ->
  TASKS db' = alter (setStatus st) tid (TASKS db) ->
  TASK_ATTEMPTS db' = alter (setAttempt AttemptFailed) a (TASK_ATTEMPTS db) -> TASK_OUTPUTS db' = TASK_OUTPUTS db -> wf db'.
Proof.
  intros W Hb Hst EJ ET EA EO. pose proof Hb as (Ht & Hp & Hat).
  assert (Hmv : moves (onKey tid (setStatus st)) db db') by (eapply moves_alter; eauto; congruence).
  eapply (wf_settle db db' tid t a st AttemptFailed); eauto.
  - intros k. rewrite EJ. destruct (decide (st = Failed)); [by rewrite jobTo_is_Some|done].
  - intros o. rewrite EO. auto.
  - destruct Hst as [->| ->]; cbn in EJ.
    + apply (jobs_to (onKey tid (setStatus Failed)) db db' (t_job t) JobCleaning W Hmv EJ).
      * intros k u Hu Hne. destruct (decide (k = tid)) as [->|]; [congruence|]. by rewrite onKey_ne.
      * right. exists tid, (setStatus Failed t). split; [|by split]. by rewrite (moves_to _ _ _ Hmv _ _ Ht), onKey_eq.
    + apply (jobs_same (onKey tid (setStatus Idle)) db db' W Hmv EJ). intros k u Hu. destruct (decide (k = tid)) as [->|]; [|rewrite onKey_ne; auto].
      rewrite onKey_eq. right. rewrite Ht in Hu. by injection Hu as <-.
Qed.

(** A bulk update that takes no task into progress and leaves no attempt of the
    tasks it changes running. *)
Lemma wf_bulk h P db db' : wf db -> TASKS db' = h <$> TASKS db -> (forall t, t_job (h t) = t_job t /\ t_type (h t) = t_type t) ->
  (forall t, t_status t = Completed -> h t = t) -> (forall t, h t = t \/ P t = true /\ (t_status (h t) = Failed \/ t_status (h t) = Idle /\ t_attempt (h t) = None)) ->
  TASK_ATTEMPTS db' = TASK_ATTEMPTS (failRunningWhere P db) -> TASK_OUTPUTS db' = TASK_OUTPUTS db ->
  (forall k, is_Some (JOBS db !! k) -> is_Some (JOBS db' !! k)) ->
  (forall j jr, JOBS db' !! j = Some jr -> jobOK db' j (j_status jr)) -> wf db'.
Proof.
  intros W ET Hh Hc Hch EA EO HJ Hjob. destruct (amoves_failRunning P db db' EA) as (g & Hg & Hgs).
  apply (wf_moves (fun _ => h) g db db'); auto using moves_fmap.
  - intros a ar t Ha Ht Hr. destruct (Hgs a ar) as [[E HP]|[? ?]]; [|congruence]. rewrite E in Hr. split; [done|]. intros _.
    destruct (Hch t) as [?|[HPt _]]; [done|]. rewrite (HP Hr t Ht) in HPt. done.
  - intros a ar t Ha Ht Hs. destruct (Hgs a ar) as [[E _]|[? ?]]; [|congruence]. left. congruence.
  - intros k t Ht Hin. destruct (Hch t) as [E|[_ [?|[? _]]]]; [|congruence|congruence]. split; [done|]. intros a ar _ Hs.
    destruct (Hgs a ar) as [[E' _]|[? ?]]; congruence.
  - intros k t Ht Hid. destruct (Hch t) as [E|[_ [E|[_ E]]]]; [by left|rewrite E in Hid; by destruct Hid|by right].
  - intros k t Ht Hty Hst. destruct (Hch t) as [E|[_ Hx]]; [rewrite E in Hst; auto|]. destruct Hst, Hx as [?|[? _]]; congruence.
  - intros o. rewrite EO. auto.
Qed.

Lemma completed_dec j db : allTasks (eq Completed) j db \/ someTask (fun s => s <> Completed) j db.
Proof.
  destruct (decide (map_Forall (fun _ t => t_job t = j -> t_status t = Completed) (TASKS db))) as [H|H].
  - left. intros tid t Ht Hj. symmetry. by apply (H tid).
  - right. apply map_not_Forall in H as (tid & t & Ht & Hn); [|solve_decision]. exists tid, t. split; [done|].
    destruct (decide (t_job t = j)); [|by destruct Hn]. split; [done|]. intros Hs. by apply Hn.
Qed.

Definition cancelTask (j : string) (t : TaskRow) : TaskRow :=
  if ofJob j t && negb (hasStatus Completed t) then mkTask (t_job t) (t_type t) Failed (t_replica t) (t_attempt t) else t.

Lemma cancelTask_cases j t : cancelTask j t = t /\ (t_job t = j -> t_status t = Completed) \/ t_job t = j /\ t_status t <> Completed /\ t_status (cancelTask j t) = Failed.
Proof.
  unfold cancelTask, ofJob, hasStatus. destruct (bool_decide_reflect (t_job t = j)), (bool_decide_reflect (t_status t = Completed)); cbn;
    solve [by left | by right].
Qed.

Lemma moves_cancel j db db' : TASKS db' = cancelTask j <$> TASKS db -> moves (fun _ => cancelTask j) db db'.
Proof.
  intros ET. apply moves_fmap; [done| |].
  - intros t. unfold cancelTask. by destruct (_ && _).
  - intros t Hc. destruct (cancelTask_cases j t) as [[? _]|(_ & ? & _)]; done.
Qed.

Lemma wf_cancel db db' j jr : wf db -> JOBS db !! j = Some jr -> JOBS db' = jobTo j JobCleaning db -> TASKS db' = cancelTask j <$> TASKS db ->
  TASK_ATTEMPTS db' = TASK_ATTEMPTS (failRunningWhere (ofJob j) db) -> TASK_OUTPUTS db' = TASK_OUTPUTS db -> wf db'.
Proof.
  intros W Hj EJ ET EA EO. pose proof (moves_cancel j db db' ET) as Hmv.
  apply (wf_bulk (cancelTask j) (ofJob j) db db'); auto.
  - intros t. unfold cancelTask. by destruct (_ && _).
  - intros t Hc. destruct (cancelTask_cases j t) as [[? _]|(_ & ? & _)]; done.
  - intros t. destruct (cancelTask_cases j t) as [[? _]|(? & _ & ?)]; [by left|right]. split; [|by left]. by apply bool_decide_eq_true.
  - intros k. rewrite EJ, jobTo_is_Some. done.
  - apply (jobs_to (fun _ => cancelTask j) db db' j JobCleaning W Hmv EJ).
    + intros k t Ht Hne. by destruct (cancelTask_cases j t) as [[-> _]|(? & _)].
    + destruct (completed_dec j db) as [H|H]; [left|right].
      * apply (allTasks_moves _ _ _ Hmv _ _ _ H). intros k t Ht Hjt Hs. by rewrite (mv_completed _ _ _ Hmv k t Ht).
      * apply (someTask_moves _ _ _ Hmv _ _ _ H). intros k t Ht Hjt Hs. destruct (cancelTask_cases j t) as [[_ ?]|(_ & _ & ?)]; [|done].
        exfalso. auto.
Qed.

Lemma wf_recover db i : wf db -> wf (QueryResetTasksForReplica i (QueryFailRunningAttemptsByReplica i db)).
Proof.
  intros W. set (h := fun t => if hasStatus InProgress t && ofReplica i db t then setStatus Idle t else t).
  assert (Hh : forall t, h t = t \/ t_status t = InProgress /\ ofReplica i db t = true /\ h t = setStatus Idle t).
  { intros t. unfold h, hasStatus. destruct (bool_decide_reflect (t_status t = InProgress)), (ofReplica i db t); cbn; auto. }
  apply (wf_bulk h (ofReplica i db) db _); auto.
  - intros t. by destruct (Hh t) as [->|(_ & _ & ->)].
  - intros t Hc. destruct (Hh t) as [->|(? & _ & _)]; [done|congruence].
  - intros t. destruct (Hh t) as [E|(_ & HP & E)]; [by left|right]. rewrite E. split; [done|]. by right.
  - eapply (jobs_same (fun _ => h) db _ W); [|done|].
    + apply moves_fmap; [done| |]; intros t; [by destruct (Hh t) as [->|(_ & _ & ->)]|]. intros Hc. destruct (Hh t) as [->|(? & _ & _)]; [done|congruence].
    + intros k t Ht. destruct (Hh t) as [->|(? & _ & ->)]; auto.
Qed.

Lemma wf_empty db db' j (E : TaskRow -> bool) : wf db -> mapsCompleted j db ->
  (forall t, E t = true -> t_job t = j /\ t_type t = ReduceTask /\ t_status t = Idle) -> (exists tid t, TASKS db !! tid = Some t /\ E t = true) ->
  jobsAfter j db db' -> TASKS db' = (fun t => if E t then setStatus Completed t else t) <$> TASKS db ->
  TASK_ATTEMPTS db' = TASK_ATTEMPTS db -> TASK_OUTPUTS db' = TASK_OUTPUTS db -> wf db'.
Proof.
  intros W Hm HE (tid0 & t0 & Ht0 & HE0) HJ ET EA EO. set (h := fun t => if E t then setStatus Completed t else t).
  assert (Hh : forall t, h t = t \/ E t = true /\ h t = setStatus Completed t) by (intros t; unfold h; destruct (E t); auto).
  assert (Hmv : moves (fun _ => h) db db').
  { apply moves_fmap; [done| |]; intros t; [by destruct (Hh t) as [->|(_ & ->)]|]. intros Hc. destruct (Hh t) as [->|(He & _)]; [done|].
    destruct (HE t He) as (_ & _ & ?). congruence. }
  apply (wf_moves (fun _ => h) (fun _ a => a) db db'); auto using amoves_id.
  - intros k. by apply jobsAfter_is_Some with (j := j).
  - intros a ar t Ha Ht Hr. split; [done|]. intros Hat. destruct (Hh t) as [->|(He & _)]; [done|]. destruct (HE t He) as (_ & _ & Hi).
    destruct (wf_task _ W _ _ Ht) as (_ & _ & Hno). rewrite Hno in Hat by auto. done.
  - intros k t Ht. destruct (Hh t) as [->|(_ & ->)]; [done|]. cbn. done.
  - intros k t Ht _. destruct (Hh t) as [->|(_ & ->)]; auto.
  - intros k t Ht Hty. destruct (Hh t) as [->|(He & _)]; [auto|]. intros _. right. by destruct (HE t He) as (-> & _).
  - intros o. rewrite EO. auto.
  - destruct (HE t0 HE0) as (Hj0 & _ & Hi0). eapply jobs_after; [exact W|exact Hmv|exact HJ| | |].
    + intros k t Ht Hne. destruct (Hh t) as [->|(He & _)]; [done|]. by destruct (HE t He).
    + intros k t Ht. destruct (Hh t) as [->|(He & ->)]; [done|]. destruct (HE t He) as (_ & _ & ->). cbn. by intros [?|?].
    + exists tid0, t0. split; [done|]. split; [done|]. rewrite not_settled. auto.
Qed.

Lemma wf_assign db db' tid t a ar : wf db ->
  TASKS db !! tid = Some t -> t_status t = Idle -> TASK_ATTEMPTS db !! a = None -> a_task ar = tid -> a_status ar = AttemptRunning ->
  allTasks (fun s => s <> Failed) (t_job t) db -> (t_type t = ReduceTask -> mapsCompleted (t_job t) db) ->
  JOBS db' = jobTo (t_job t) JobRunning db -> TASKS db' = <[tid := mkTask (t_job t) (t_type t) InProgress (t_replica t) (Some a)]> (TASKS db) ->
  TASK_ATTEMPTS db' = <[a := ar]> (TASK_ATTEMPTS db) -> TASK_OUTPUTS db' = TASK_OUTPUTS db -> wf db'.
Proof.
  intros W Ht Hi Ha Htk Hr HF HM EJ ET EA EO. set (t' := mkTask (t_job t) (t_type t) InProgress (t_replica t) (Some a)) in *.
  assert (Hmv : moves (onKey tid (fun _ => t')) db db').
  { apply (moves_alter _ _ t); [|done|congruence|done|done]. rewrite ET. apply map_eq. intros k. rewrite lookup_alter_onKey.
    destruct (decide (k = tid)) as [->|]; [rewrite lookup_insert_eq, Ht; cbn; by rewrite onKey_eq|]. rewrite lookup_insert_ne by done.
    destruct (TASKS db !! k); cbn; [by rewrite onKey_ne|done]. }
  assert (Hother : forall k u, TASKS db' !! k = Some u -> k = tid /\ u = t' \/ k <> tid /\ TASKS db !! k = Some u).
  { intros k u. rewrite ET, lookup_insert_Some. naive_solver. }
  assert (Hin : forall k u, TASKS db' !! k = Some u -> k <> tid -> TASKS db !! k = Some u) by (intros k u Hu; destruct (Hother k u Hu) as [[? ?]|[? ?]]; done).
  split.
  - intros k u Hu. destruct (Hother k u Hu) as [[-> ->]|[Hne Hu0]].
    + split; [rewrite EJ; apply jobTo_is_Some; by destruct (wf_task _ W _ _ Ht)|]. split; [|by intros [?|?]]. intros _. exists a, ar.
      rewrite EA, lookup_insert_eq. split_and!; [done|done|done|congruence].
    + destruct (wf_task _ W k u Hu0) as (HJ & Hp & Hno). split; [rewrite EJ; by apply jobTo_is_Some|]. split; [|done]. intros Hs.
      destruct (Hp Hs) as (b & br & Hb & Hbr & ? & ?). exists b, br. rewrite EA, lookup_insert_ne by congruence. auto.
  - intros b br. rewrite EA, lookup_insert_Some. intros [[<- <-]|[Hne Hbr]].
    + exists t'. rewrite Htk, ET, lookup_insert_eq. split; [done|]. split; [done|congruence].
    + destruct (wf_attempt _ W b br Hbr) as (u & Hu & Hru & Hsu). destruct (decide (a_task br = tid)) as [Etk|Htid].
      * rewrite Etk, Ht in Hu. injection Hu as <-. exists t'. rewrite Etk, ET, lookup_insert_eq. split; [done|].
        split; intros H; [destruct (Hru H)|specialize (Hsu H)]; congruence.
      * exists u. rewrite ET, lookup_insert_ne by done. auto.
  - intros b c br cr Hb Hc Hsb Hsc. rewrite EA in Hb, Hc. apply lookup_insert_Some in Hb as [[<- <-]|[_ Hb]]; [congruence|].
    apply lookup_insert_Some in Hc as [[<- <-]|[_ Hc]]; [congruence|]. by apply (wf_once _ W b c br cr).
  - intros o. rewrite EO. intros Ho. destruct (wf_output _ W o Ho) as (u & Hu & Hc). exists u. rewrite ET, lookup_insert_ne; [auto|congruence].
  - intros k u Hu Hty Hst. apply (mapsCompleted_moves _ _ _ Hmv). destruct (Hother k u Hu) as [[-> ->]|[_ Hu0]]; [by apply HM|].
    exact (wf_phase _ W k u Hu0 Hty Hst).
  - apply (jobs_to (onKey tid (fun _ => t')) db db' (t_job t) JobRunning W Hmv EJ).
    + intros k u Hu Hne. destruct (decide (k = tid)) as [->|]; [congruence|]. by rewrite onKey_ne.
    + split; [|intros _; exists tid, t'; rewrite ET, lookup_insert_eq; done].
      intros k u Hu Hju. destruct (Hother k u Hu) as [[-> ->]|[_ Hu0]]; [done|]. by apply (HF k).
Qed.

Lemma wf_schedule db db' j jr new : wf db -> JOBS db !! j = Some jr -> j_status jr = JobPending -> ~ someTask (fun _ => True) j db -> new ##ₘ TASKS db ->
  (forall tid t, new !! tid = Some t -> t_job t = j /\ t_status t = Idle /\ t_attempt t = None) ->
  JOBS db' = JOBS db -> TASKS db' = new ∪ TASKS db -> TASK_ATTEMPTS db' = TASK_ATTEMPTS db -> TASK_OUTPUTS db' = TASK_OUTPUTS db -> wf db'.
Proof.
  intros W Hj Hp Hno Hd Hnew EJ ET EA EO.
  assert (Hold : forall k u, TASKS db !! k = Some u -> TASKS db' !! k = Some u) by (intros k u Hu; rewrite ET; by apply lookup_union_Some_r).
  assert (Hin : forall k u, TASKS db' !! k = Some u -> new !! k = Some u \/ TASKS db !! k = Some u) by (intros k u; rewrite ET, lookup_union_Some by done; auto).
  assert (Hnj : forall k u, TASKS db !! k = Some u -> t_job u <> j) by (intros k u Hu E; apply Hno; exists k, u; auto).
  assert (Hjob : forall k st, k <> j -> jobOK db k st -> jobOK db' k st).
  { intros k st Hk. assert (Hall : forall P, allTasks P k db -> allTasks P k db').
    { intros P H i u Hu Hjb. destruct (Hin i u Hu) as [Hn|Hu0]; [|by apply (H i)]. destruct (Hnew i u Hn) as [E _]. congruence. }
    assert (Hsome : forall P, someTask P k db -> someTask P k db') by (intros P (i & u & Hu & ?); exists i, u; auto).
    assert (Hback : someTask (fun _ => True) k db' -> someTask (fun _ => True) k db).
    { intros (i & u & Hu & Hjb & _). destruct (Hin i u Hu) as [Hn|Hu0]; [destruct (Hnew i u Hn) as [E _]; congruence|exists i, u; auto]. }
    destruct st; cbn; try naive_solver. }
  split.
  - intros k u Hu. destruct (Hin k u Hu) as [Hn|Hu0].
    + destruct (Hnew k u Hn) as (E & Hi & Hna). split; [rewrite E, EJ, Hj; by eexists|]. split; [congruence|done].
    + destruct (wf_task _ W k u Hu0) as (? & ? & ?). split; [by rewrite EJ|]. split; [rewrite EA; done|done].
  - intros b br. rewrite EA. intros Hb. destruct (wf_attempt _ W b br Hb) as (u & Hu & ?). exists u. split; [by apply Hold|done].
  - rewrite EA. exact (wf_once _ W).
  - intros o. rewrite EO. intros Ho. destruct (wf_output _ W o Ho) as (u & Hu & ?). exists u. split; [by apply Hold|done].
  - intros k u Hu Hty Hst. destruct (Hin k u Hu) as [Hn|Hu0]; [destruct (Hnew k u Hn) as (_ & E & _); rewrite E in Hst; by destruct Hst|].
    intros i v Hv Hjv. destruct (Hin i v Hv) as [Hn|Hv0]; [|by apply (wf_phase _ W k u Hu0 Hty Hst i)].
    destruct (Hnew i v Hn) as [E _]. exfalso. apply (Hnj k u Hu0). congruence.
  - intros k r. rewrite EJ. intros Hr. destruct (decide (k = j)) as [->|Hk]; [|apply Hjob; [done|by apply (wf_job _ W)]].
    rewrite Hj in Hr. injection Hr as <-. rewrite Hp.
    assert (Hidle : forall i u, TASKS db' !! i = Some u -> t_job u = j -> t_status u = Idle).
    { intros i u Hu Hjb. destruct (Hin i u Hu) as [Hn|Hu0]; [by destruct (Hnew i u Hn) as (_ & ? & _)|]. by destruct (Hnj i u Hu0). }
    cbn. split; [intros i u Hu Hjb; rewrite (Hidle i u); done|]. intros (i & u & Hu & Hjb & _). exists i, u. rewrite (Hidle i u); done.
Qed.

Lemma renew_amoves db db' a ar ar' : TASK_ATTEMPTS db !! a = Some ar -> a_task ar' = a_task ar -> a_status ar' = a_status ar -> TASK_ATTEMPTS db' = <[a := ar']> (TASK_ATTEMPTS db) ->
  exists g, amoves g db db' /\ forall b br, a_status (g b br) = a_status br \/ a_status (g b br) = AttemptFailed.
Proof.
  intros Ha Ht Hs E. exists (onKey a (fun br => mkAttempt (a_task br) (a_worker ar') (a_lease ar') (a_renewed ar') (a_ttl ar') (a_status br))). split; [|].
  - split.
    + intros b. rewrite E. unfold onKey. destruct (decide (b = a)) as [->|]; [|rewrite lookup_insert_ne by done; by destruct (_ !! b)].
      rewrite lookup_insert_eq, Ha. cbn. f_equal. rewrite <- Ht, <- Hs. by destruct ar'.
    + intros b br _. unfold onKey. by destruct (decide (b = a)).
  - intros b br. left. unfold onKey. by destruct (decide (b = a)).
Qed.

(** [canon]: the ids under which jobs are created; [okc]: the configurations that are
    set; [restarts]: whether managers start; [reaps]: whether the reaper runs. *)
Section Changes.
Context {canon : string -> Prop} {okc : SystemConfigUpdate -> Prop} {restarts reaps : Prop}.

Inductive action : DB -> DB -> Prop :=
| act_other db db' :
    JOBS db' = JOBS db -> TASKS db' = TASKS db -> TASK_ATTEMPTS db' = TASK_ATTEMPTS db -> TASK_OUTPUTS db' = TASK_OUTPUTS db -> others db db' -> action db db'
| act_config db db' c :
    okc c -> JOBS db' = JOBS db -> TASKS db' = TASKS db -> TASK_ATTEMPTS db' = TASK_ATTEMPTS db -> TASK_OUTPUTS db' = TASK_OUTPUTS db -> SYSTEM_CONFIG db' = Some c ->
    action db db'
| act_create db db' j jr :
    JOBS db !! j = None -> canon j -> j_status jr = JobPending ->
    JOBS db' = <[j := jr]> (JOBS db) -> TASKS db' = TASKS db -> TASK_ATTEMPTS db' = TASK_ATTEMPTS db -> TASK_OUTPUTS db' = TASK_OUTPUTS db -> others db db' ->
    action db db'
| act_schedule db db' j jr new :
    JOBS db !! j = Some jr -> j_status jr = JobPending -> ~ someTask (fun _ => True) j db ->
    new ##ₘ TASKS db -> (forall tid t, new !! tid = Some t -> t_job t = j /\ t_status t = Idle /\ t_attempt t = None) ->
    JOBS db' = JOBS db -> TASKS db' = new ∪ TASKS db -> TASK_ATTEMPTS db' = TASK_ATTEMPTS db -> TASK_OUTPUTS db' = TASK_OUTPUTS db -> others db db' ->
    action db db'
| act_assign db db' tid t a ar :
    TASKS db !! tid = Some t -> t_status t = Idle -> TASK_ATTEMPTS db !! a = None -> a_task ar = tid -> a_status ar = AttemptRunning ->
    allTasks (fun s => s <> Failed) (t_job t) db -> (t_type t = ReduceTask -> mapsCompleted (t_job t) db) ->
    QueryCountRunningAttempts db < maxPods db ->
    JOBS db' = jobTo (t_job t) JobRunning db -> TASKS db' = <[tid := mkTask (t_job t) (t_type t) InProgress (t_replica t) (Some a)]> (TASKS db) ->
    TASK_ATTEMPTS db' = <[a := ar]> (TASK_ATTEMPTS db) -> TASK_OUTPUTS db' = TASK_OUTPUTS db -> others db db' -> action db db'
| act_empty db db' j E :
    mapsCompleted j db -> allTasks (fun s => s <> Failed) j db -> (forall t, E t = true -> t_job t = j /\ t_type t = ReduceTask /\ t_status t = Idle) ->
    (exists tid t, TASKS db !! tid = Some t /\ E t = true) ->
    jobsAfter j db db' -> TASKS db' = (fun t => if E t : bool then setStatus Completed t else t) <$> TASKS db ->
    TASK_ATTEMPTS db' = TASK_ATTEMPTS db -> TASK_OUTPUTS db' = TASK_OUTPUTS db -> others db db' -> action db db'
| act_complete db db' tid t a outs :
    bound db tid a t -> activeJob (t_job t) db -> (forall o, o ∈ outs -> o_task o = tid) ->
    jobsAfter (t_job t) db db' -> TASKS db' = alter (setStatus Completed) tid (TASKS db) ->
    TASK_ATTEMPTS db' = alter (setAttempt AttemptSuccess) a (TASK_ATTEMPTS db) -> TASK_OUTPUTS db' = TASK_OUTPUTS db ++ outs -> others db db' -> action db db'
| act_renew db db' a ar ar' :
    TASK_ATTEMPTS db !! a = Some ar -> a_task ar' = a_task ar -> a_status ar' = a_status ar ->
    JOBS db' = JOBS db -> TASKS db' = TASKS db -> TASK_ATTEMPTS db' = <[a := ar']> (TASK_ATTEMPTS db) -> TASK_OUTPUTS db' = TASK_OUTPUTS db -> others db db' ->
    action db db'
| act_fail db db' tid t a st :
    bound db tid a t -> activeJob (t_job t) db \/ reaps -> st = retryState (QueryCountAttemptsByTask tid db) ->
    JOBS db' = (if decide (st = Failed) then jobTo (t_job t) JobCleaning db else JOBS db) ->
    TASKS db' = alter (setStatus st) tid (TASKS db) ->
    TASK_ATTEMPTS db' = alter (setAttempt AttemptFailed) a (TASK_ATTEMPTS db) -> TASK_OUTPUTS db' = TASK_OUTPUTS db -> others db db' -> action db db'
| act_cancel db db' j jr :
    JOBS db !! j = Some jr -> active (j_status jr) \/ j_status jr = JobCleaning ->
    JOBS db' = jobTo j JobCleaning db ->
    TASKS db' = (fun t => if ofJob j t && negb (hasStatus Completed t) then mkTask (t_job t) (t_type t) Failed (t_replica t) (t_attempt t) else t) <$> TASKS db ->
    TASK_ATTEMPTS db' = TASK_ATTEMPTS (failRunningWhere (ofJob j) db) -> TASK_OUTPUTS db' = TASK_OUTPUTS db -> others db db' -> action db db'
| act_respawn db db' j :
    JOBS db' = JOBS db -> TASKS db' = TASKS db -> TASK_ATTEMPTS db' = TASK_ATTEMPTS (failRunningWhere (ofJob j) db) ->
    TASK_OUTPUTS db' = TASK_OUTPUTS db -> others db db' -> action db db'
| act_recover db i : restarts -> action db (QueryResetTasksForReplica i (QueryFailRunningAttemptsByReplica i db))
| act_final db db' j jr st :
    JOBS db !! j = Some jr -> allowedJobTransitions JobCleaning st = true -> j_status jr = JobCleaning -> jobOK db j st ->
    JOBS db' = jobTo j st db -> TASKS db' = TASKS db -> TASK_ATTEMPTS db' = TASK_ATTEMPTS db -> TASK_OUTPUTS db' = TASK_OUTPUTS db -> others db db' ->
    action db db'.

Lemma action_wf db db' : action db db' -> wf db -> wf db'.
Proof.
  intros H W. destruct H.
  - by apply (wf_attempts (fun _ a => a) db); auto using amoves_id.
  - by apply (wf_attempts (fun _ a => a) db); auto using amoves_id.
  - by eapply wf_create.
  - by eapply wf_schedule.
  - by eapply (wf_assign db).
  - by eapply wf_empty.
  - by eapply wf_complete.
  - edestruct (renew_amoves db db') as (g & Hg & Hst); eauto. by apply (wf_attempts g db).
  - apply (wf_fail db db' tid t a st); auto. subst st. apply retryState_cases.
  - by eapply wf_cancel.
  - destruct (amoves_failRunning (ofJob j) db db') as (g & Hg & Hst); [done|]. apply (wf_attempts g db); auto.
    intros a ar. destruct (Hst a ar) as [[? _]|[_ ?]]; auto.
  - by apply wf_recover.
  - by eapply wf_final.
Qed.

(** * What a change does to one table *)

Definition scheduled (new : gmap string TaskRow) (j : string) (db db' : DB) : Prop :=
  TASKS db' = new ∪ TASKS db /\ new ##ₘ TASKS db /\ (forall tid t, new !! tid = Some t -> t_job t = j /\ t_status t = Idle /\ t_attempt t = None)
  /\ JOBS db' = JOBS db /\ TASK_ATTEMPTS db' = TASK_ATTEMPTS db /\ TASK_OUTPUTS db' = TASK_OUTPUTS db /\ exists jr, JOBS db !! j = Some jr /\ j_status jr = JobPending.

Lemma assign_moves tid t t' db db' : TASKS db !! tid = Some t -> t_status t = Idle -> t_job t' = t_job t -> t_type t' = t_type t ->
  TASKS db' = <[tid := t']> (TASKS db) -> moves (onKey tid (fun _ => t')) db db'.
Proof.
  intros Ht Hi Hj Hty ET. apply (moves_alter _ _ t); [|done|congruence|done|done]. rewrite ET. apply map_eq. intros k. rewrite lookup_alter_onKey.
  destruct (decide (k = tid)) as [->|]; [rewrite lookup_insert_eq, Ht; cbn; by rewrite onKey_eq|]. rewrite lookup_insert_ne by done.
  destruct (TASKS db !! k); cbn; [by rewrite onKey_ne|done].
Qed.

(** A task is updated in place, and one that is completed or failed stays so; the
    only new tasks are those of a submitted job. *)
Lemma action_moves db db' : action db db' ->
  (exists f, moves f db db' /\ forall k t, TASKS db !! k = Some t -> settled (t_status t) -> t_status (f k t) = t_status t)
  \/ exists new j, scheduled new j db db'.
Proof.
  assert (Hid : TASKS db' = TASKS db -> exists f, moves f db db' /\ forall k t, TASKS db !! k = Some t -> settled (t_status t) -> t_status (f k t) = t_status t).
  { intros E. exists (fun _ t => t). split; [by apply moves_id|done]. }
  assert (Hkey : forall tid t h, TASKS db !! tid = Some t -> ~ settled (t_status t) -> moves (onKey tid h) db db' ->
    exists f, moves f db db' /\ forall k t, TASKS db !! k = Some t -> settled (t_status t) -> t_status (f k t) = t_status t).
  { intros tid t h Ht Hs Hm. exists (onKey tid h). split; [done|]. intros k u Hu Hsu. destruct (decide (k = tid)) as [->|]; [|by rewrite onKey_ne]. congruence. }
  intros H. destruct H; auto.
  - right. exists new, j. repeat (split; [done|]). by exists jr.
  - left. apply (Hkey tid t (fun _ => mkTask (t_job t) (t_type t) InProgress (t_replica t) (Some a))); [done|rewrite not_settled; auto|]. by apply (assign_moves tid t).
  - left. eexists. split; [eapply moves_fmap; [eassumption| |]|]; cbn.
    + intros t. by destruct (E t).
    + intros t Hc. destruct (E t) eqn:HE; [|done]. destruct (H1 t HE) as (_ & _ & ?). congruence.
    + intros k t _ Hs. destruct (E t) eqn:HE; [|done]. destruct (H1 t HE) as (_ & _ & Hi). rewrite Hi in Hs. by destruct Hs.
  - left. destruct H as (Ht & Hp & Ha). apply (Hkey tid t (setStatus Completed)); [done|rewrite not_settled; auto|]. eapply moves_alter; eauto; congruence.
  - left. destruct H as (Ht & Hp & Ha). apply (Hkey tid t (setStatus st)); [done|rewrite not_settled; auto|]. eapply moves_alter; eauto; congruence.
  - left. exists (fun _ => cancelTask j). split; [by apply moves_cancel|]. intros k t _ [Hc|Hc]; destruct (cancelTask_cases j t) as [[-> _]|(_ & ? & ->)]; done.
  - left. eexists (fun _ t => if hasStatus InProgress t && ofReplica i db t then setStatus Idle t else t). split; [apply moves_fmap; [done| |]|]; cbn.
    + intros t. by destruct (_ && _).
    + intros t Hc. unfold hasStatus. by rewrite Hc.
    + intros k t _ [Hc|Hc]; unfold hasStatus; by rewrite Hc.
Qed.

(** Attempts are updated in place, none starts to run again, and the only new one is
    that of an assignment. *)
Definition assigned (db db' : DB) : Prop := exists tid t a ar, TASKS db !! tid = Some t /\ t_status t = Idle /\ TASK_ATTEMPTS db !! a = None /\ a_task ar = tid
  /\ a_status ar = AttemptRunning /\ TASK_ATTEMPTS db' = <[a := ar]> (TASK_ATTEMPTS db) /\ QueryCountRunningAttempts db < maxPods db
  /\ TASKS db' = <[tid := mkTask (t_job t) (t_type t) InProgress (t_replica t) (Some a)]> (TASKS db).

Lemma action_amoves db db' : action db db' ->
  (exists g, amoves g db db' /\ forall a ar, a_status (g a ar) = AttemptRunning -> a_status ar = AttemptRunning) \/ assigned db db'.
Proof.
  assert (Hid : TASK_ATTEMPTS db' = TASK_ATTEMPTS db -> exists g, amoves g db db' /\ forall a ar, a_status (g a ar) = AttemptRunning -> a_status ar = AttemptRunning).
  { intros E. exists (fun _ a => a). split; [by apply amoves_id|done]. }
  assert (Hset : forall st a, st <> AttemptRunning -> TASK_ATTEMPTS db' = alter (setAttempt st) a (TASK_ATTEMPTS db) ->
    exists g, amoves g db db' /\ forall a ar, a_status (g a ar) = AttemptRunning -> a_status ar = AttemptRunning).
  { intros st a Hst E. exists (onKey a (setAttempt st)). split; [by apply amoves_alter|]. intros b br. unfold onKey. by destruct (decide (b = a)). }
  assert (Hrun : forall P, TASK_ATTEMPTS db' = TASK_ATTEMPTS (failRunningWhere P db) ->
    exists g, amoves g db db' /\ forall a ar, a_status (g a ar) = AttemptRunning -> a_status ar = AttemptRunning).
  { intros P E. destruct (amoves_failRunning P db db' E) as (g & Hg & Hst). exists g. split; [done|]. intros a ar Hr. destruct (Hst a ar) as [[? _]|[_ ?]]; congruence. }
  intros H. destruct H; auto; try (left; eauto; fail).
  - right. exists tid, t, a, ar. auto 10.
  - left. by apply (Hset AttemptSuccess a).
  - left. edestruct (renew_amoves db db') as (g & Hg & Hst); eauto. exists g. split; [done|]. intros b br Hr. destruct (Hst b br); congruence.
  - left. by apply (Hset AttemptFailed a).
Qed.

Lemma completed_final db db' tid t : action db db' -> TASKS db !! tid = Some t -> t_status t = Completed ->
  TASKS db' !! tid = Some t /\ filter (fun o => o_task o = tid) (TASK_OUTPUTS db') = filter (fun o => o_task o = tid) (TASK_OUTPUTS db).
Proof.
  intros H Ht Hc. split.
  - destruct (action_moves _ _ H) as [(f & Hf & _)|(new & j & ET & Hd & _)]; [|rewrite ET; by apply lookup_union_Some_r].
    by rewrite (moves_to _ _ _ Hf _ _ Ht), (mv_completed _ _ _ Hf _ _ Ht Hc).
  - destruct H; try congruence; try done. destruct H as (Ht' & Hp & _). match goal with E : TASK_OUTPUTS _ = _ |- _ => rewrite E end.
    rewrite filter_app. replace (filter _ outs) with (@nil OutputRow); [by rewrite app_nil_r|]. symmetry. apply filter_none, Forall_forall.
    intros o Ho <-. match goal with E : forall o, o ∈ outs -> _ |- _ => rewrite (E o Ho) in Ht end. congruence.
Qed.

(** A completed or failed task keeps its status, and the job it had. *)
Lemma settled_final db db' tid t : action db db' -> TASKS db !! tid = Some t -> settled (t_status t) ->
  exists t', TASKS db' !! tid = Some t' /\ t_status t' = t_status t /\ t_job t' = t_job t.
Proof.
  intros H Ht Hs. destruct (action_moves _ _ H) as [(f & Hf & Hset)|(new & j & ET & Hd & _)].
  - exists (f tid t). split; [by apply (moves_to _ _ _ Hf)|]. split; [by apply Hset|]. by apply (mv_same _ _ _ Hf).
  - exists t. rewrite ET. split; [by apply lookup_union_Some_r|done].
Qed.

Lemma task_origin db db' tid t' : action db db' -> TASKS db' !! tid = Some t' ->
  (exists t, TASKS db !! tid = Some t /\ t_job t' = t_job t) \/ exists jr, JOBS db !! t_job t' = Some jr /\ j_status jr = JobPending.
Proof.
  intros H Ht. destruct (action_moves _ _ H) as [(f & Hf & _)|(new & j & ET & Hd & Hnew & _ & _ & _ & jr & Hj)].
  - left. destruct (moves_inv _ _ _ Hf _ _ Ht) as (t & ? & _ & ? & _). eauto.
  - rewrite ET in Ht. apply lookup_union_Some in Ht as [Hn|?]; [|eauto|done]. right. destruct (Hnew _ _ Hn) as [-> _]. eauto.
Qed.

(** * The state machine of jobs *)

(** The edges of [allowedJobTransitions], and one that they do not have: the reaper
    takes a failed job back to Cleaning. *)
Definition jobEdge (reaps : Prop) (from to : JobState) : Prop :=
  to = from \/ allowedJobTransitions from to = true \/ reaps /\ from = JobFailed /\ to = JobCleaning.

Lemma jobTo_edge j st db k jr : JOBS db !! k = Some jr -> (k = j -> jobEdge reaps (j_status jr) st) ->
  exists jr', jobTo j st db !! k = Some jr' /\ jobEdge reaps (j_status jr) (j_status jr').
Proof.
  intros Hk He. destruct (decide (k = j)) as [->|Hne].
  - eexists. split; [apply lookup_jobTo; eexists; split; [done|rewrite decide_True by done; reflexivity]|]. by apply He.
  - exists jr. split; [|by left]. apply lookup_jobTo. exists jr. by rewrite decide_False.
Qed.

(** A job with a task that is not settled is not Completed or Cancelled. *)
Lemma edge_cleaning db j st : reaps -> jobOK db j st -> someTask (fun s => ~ settled s) j db -> jobEdge reaps st JobCleaning.
Proof.
  intros Hr Hok (k & t & Hk & Hj & Hs). destruct st; cbn in Hok; try (by right; left); [by left| |by right; right|].
  - destruct Hs. left. symmetry. by apply (Hok k).
  - destruct Hs. by apply (Hok k).
Qed.

Lemma edge_running db j st : jobOK db j st -> someTask (fun s => ~ settled s) j db -> allTasks (fun s => s <> Failed) j db -> active st.
Proof.
  intros Hok (k & t & Hk & Hj & Hs) Hno.
  assert (Hf : ~ someTask (eq Failed) j db) by (intros (i & u & Hu & Hju & Hsu); by apply (Hno i u Hu Hju)).
  assert (Hc : ~ allTasks (eq Completed) j db) by (intros H; apply Hs; left; symmetry; by apply (H k)).
  unfold active. destruct st; cbn in Hok; auto; try (exfalso; tauto). destruct Hs. by apply (Hok k).
Qed.

Lemma active_edge st : active st -> jobEdge reaps st JobCleaning.
Proof. intros [->| ->]; by right; left. Qed.

Lemma activeJob_edge db j jr : activeJob j db -> JOBS db !! j = Some jr -> jobEdge reaps (j_status jr) JobCleaning.
Proof. intros (r & Hr & Ha) Hj. rewrite Hj in Hr. injection Hr as <-. by apply active_edge. Qed.

Lemma jobsAfter_edge j db db' k jr : jobsAfter j db db' -> JOBS db !! k = Some jr -> (k = j -> jobEdge reaps (j_status jr) JobCleaning) ->
  exists jr', JOBS db' !! k = Some jr' /\ jobEdge reaps (j_status jr) (j_status jr').
Proof. intros [[_ ->]|[_ ->]] Hk He; [by apply jobTo_edge|]. exists jr. split; [done|by left]. Qed.

Lemma action_edge db db' j jr : wf db -> action db db' -> JOBS db !! j = Some jr -> exists jr', JOBS db' !! j = Some jr' /\ jobEdge reaps (j_status jr) (j_status jr').
Proof.
  intros W H Hj. pose proof (wf_job _ W j jr Hj) as Hok.
  assert (Hsame : JOBS db' = JOBS db -> exists jr', JOBS db' !! j = Some jr' /\ jobEdge reaps (j_status jr) (j_status jr')) by (intros ->; exists jr; split; [done|by left]).
  assert (Hopen : forall tid t, TASKS db !! tid = Some t -> t_status t = Idle \/ t_status t = InProgress -> j = t_job t -> someTask (fun s => ~ settled s) j db).
  { intros tid t Ht Hs ->. exists tid, t. by rewrite not_settled. }
  destruct H; auto.
  - exists jr. match goal with E : JOBS db' = _ |- _ => rewrite E end. rewrite lookup_insert_ne by congruence. split; [done|by left].
  - match goal with E : JOBS db' = _ |- _ => rewrite E end. apply jobTo_edge; [done|]. intros ->.
    destruct (edge_running db (t_job t) (j_status jr) Hok) as [->| ->]; [eauto|done|by right; left|by left].
  - destruct H2 as (tid & t & Ht & HE). destruct (H1 t HE) as (Hjt & _ & Hi). eapply jobsAfter_edge; [eassumption|done|]. intros ->.
    apply active_edge. eapply edge_running; [exact Hok| |done]. by eapply (Hopen tid t); auto.
  - eapply jobsAfter_edge; [eassumption|done|]. intros ->. by eapply activeJob_edge.
  - destruct H as (Ht & Hp & _). destruct (decide (st = Failed)); [|by apply Hsame]. match goal with E : JOBS db' = _ |- _ => rewrite E end.
    apply jobTo_edge; [done|]. intros ->. destruct H0 as [Hact|Hr]; [by eapply activeJob_edge|]. eapply edge_cleaning; [done|done|]. eapply (Hopen tid t); auto.
  - match goal with E : JOBS db' = _ |- _ => rewrite E end. apply jobTo_edge; [done|]. intros ->. rewrite Hj in H. injection H as <-.
    destruct H0 as [?| ->]; [by apply active_edge|by left].
  - match goal with E : JOBS db' = _ |- _ => rewrite E end. apply jobTo_edge; [done|]. intros ->. rewrite Hj in H. injection H as <-.
    right. left. by rewrite H1.
Qed.

(** * Claims on the outcome of a job

    A terminal state may be requested for a job when the job has left Pending and
    Running and its tasks are as [jobOK] demands; both stay so. *)

Definition terminal (st : JobState) : Prop := st = JobCompleted \/ st = JobFailed \/ st = JobCancelled.
Definition claim (db : DB) (j : string) (st : JobState) : Prop :=
  terminal st /\ jobOK db j st /\ exists jr, JOBS db !! j = Some jr /\ ~ active (j_status jr).

Lemma edge_inactive R from to : jobEdge R from to -> ~ active from -> ~ active to.
Proof. unfold active. intros [->|[H|(_ & -> & ->)]] Hn; [done| |naive_solver]. destruct from, to; cbn in H; naive_solver. Qed.

Lemma claim_stable db db' j st : wf db -> action db db' -> claim db j st -> claim db' j st.
Proof.
  intros W H (Hterm & Hok & jr & Hj & Hact). split; [done|]. destruct (action_edge _ _ _ _ W H Hj) as (jr' & Hj' & He).
  split; [|exists jr'; split; [done|by eapply edge_inactive]].
  assert (Hold : forall k t', TASKS db' !! k = Some t' -> t_job t' = j -> exists t, TASKS db !! k = Some t /\ t_job t = j).
  { intros k t' Hk Hjt. destruct (task_origin _ _ _ _ H Hk) as [(t & Ht & E)|(r & Hr & Hp)]; [exists t; split; congruence|].
    destruct Hact. left. congruence. }
  assert (Hset : forall P, (forall s, P s -> settled s) -> allTasks P j db -> allTasks P j db').
  { intros P HP Hall k t' Hk Hjt. destruct (Hold k t' Hk Hjt) as (t & Ht & Hjt0). pose proof (Hall k t Ht Hjt0) as HPt.
    destruct (settled_final _ _ _ _ H Ht (HP _ HPt)) as (t2 & Ht2 & Hst & _).
    rewrite Hk in Ht2. injection Ht2 as <-. by rewrite Hst. }
  destruct Hterm as [->|[->| ->]]; cbn in *.
  - apply Hset; [|done]. intros s <-. by left.
  - destruct Hok as (k & t & Hk & Hjt & Hs). destruct (settled_final _ _ _ _ H Hk) as (t' & Ht' & Hst & Hjt'); [by right|].
    exists k, t'. split; [done|]. split; [congruence|]. by rewrite Hst.
  - by apply Hset.
Qed.

(** * Quota *)

Lemma running_amoves g db db' : amoves g db db' -> (forall a ar, a_status (g a ar) = AttemptRunning -> a_status ar = AttemptRunning) ->
  QueryCountRunningAttempts db' <= QueryCountRunningAttempts db.
Proof.
  intros Hg Hr. unfold QueryCountRunningAttempts, running. apply inj_le, (dom_subseteq_size (D := gset string)). intros a.
  rewrite !elem_of_dom. intros [ar' Ha]. apply map_lookup_filter_Some in Ha as [Ha Hs]. rewrite (am_lookup _ _ _ Hg) in Ha.
  apply fmap_Some in Ha as (ar & Ha & ->). exists ar. apply map_lookup_filter_Some. split; [done|]. by apply Hr in Hs.
Qed.

Lemma action_quota db db' : action db db' -> QueryCountRunningAttempts db' <= Z.max (QueryCountRunningAttempts db) (maxPods db).
Proof.
  intros H. destruct (action_amoves _ _ H) as [(g & Hg & Hr)|(tid & t & a & ar & _ & _ & Hno & _ & Hrun & E & Hq & _)].
  - pose proof (running_amoves _ _ _ Hg Hr). lia.
  - assert (QueryCountRunningAttempts db' <= QueryCountRunningAttempts db + 1); [|lia].
    unfold QueryCountRunningAttempts, running. rewrite E, map_filter_insert_True by done. rewrite map_size_insert. case_match; unfold id; lia.
Qed.

(** [M] bounds every limit that was in force. *)
Definition quotaOK (M : Z) (db : DB) : Prop := QueryCountRunningAttempts db <= M /\ maxPods db <= M.

Lemma action_quotaOK M db db' : (forall c, okc c -> MaxConcurrentPods c <= M) -> action db db' -> quotaOK M db -> quotaOK M db'.
Proof.
  intros HM H [Hr Hm]. pose proof (action_quota _ _ H). split; [lia|].
  assert (Hs : SYSTEM_CONFIG db' = SYSTEM_CONFIG db -> maxPods db' <= M) by (unfold maxPods; by intros ->).
  destruct H; auto. unfold maxPods. match goal with E : SYSTEM_CONFIG db' = Some c |- _ => rewrite E end. auto.
Qed.

(** * The number of attempts of a task

    [B] bounds the attempts of a task; a task that may get another one is below it. *)

Definition attemptsWithin (B : Z) (tid : string) (db : DB) : Prop := forall t, TASKS db !! tid = Some t ->
  QueryCountAttemptsByTask tid db <= B /\ (t_status t = Idle -> QueryCountAttemptsByTask tid db < B).

Lemma attempts_amoves g db db' tid : amoves g db db' -> QueryCountAttemptsByTask tid db' = QueryCountAttemptsByTask tid db.
Proof.
  intros Hg. unfold QueryCountAttemptsByTask, attemptsOf. f_equal. rewrite <- !(size_dom (D := gset string)). apply set_size_proper. intros a.
  rewrite !elem_of_dom. unfold is_Some. setoid_rewrite map_lookup_filter_Some. rewrite (am_lookup _ _ _ Hg). setoid_rewrite fmap_Some. split.
  - intros (ar' & (ar & Ha & ->) & E). cbn in E. rewrite (am_task _ _ _ Hg _ _ Ha) in E. eauto.
  - intros (ar & Ha & E). exists (g a ar). split; [eauto|]. cbn. by rewrite (am_task _ _ _ Hg _ _ Ha).
Qed.

Lemma attempts_fresh db tid : wf db -> TASKS db !! tid = None -> QueryCountAttemptsByTask tid db = 0.
Proof.
  intros W Ht. unfold QueryCountAttemptsByTask, attemptsOf. assert (E : filter (fun ka => a_task ka.2 = tid) (TASK_ATTEMPTS db) = ∅).
  { apply map_empty_filter. intros a ar Ha E. cbn in E. destruct (wf_attempt _ W a ar Ha) as (t & Ht' & _). congruence. }
  by rewrite E, map_size_empty.
Qed.

Lemma attempts_assigned B k db db' : attemptsWithin B k db -> assigned db db' -> attemptsWithin B k db'.
Proof.
  intros HB (tid & t & a & ar & Ht & Hi & Hno & Htk & Hr & EA & _ & ET) u Hu.
  assert (E : QueryCountAttemptsByTask k db' = QueryCountAttemptsByTask k db + (if decide (k = tid) then 1 else 0)).
  { unfold QueryCountAttemptsByTask, attemptsOf. rewrite EA. destruct (decide (k = tid)) as [->|Hne].
    - rewrite map_filter_insert_True by done. rewrite map_size_insert_None; [lia|]. apply map_lookup_filter_None. by left.
    - rewrite map_filter_insert_False by (cbn; congruence). rewrite delete_id by done. lia. }
  rewrite E. rewrite ET in Hu. apply lookup_insert_Some in Hu as [[<- <-]|[Hne Hu]].
  - rewrite decide_True by done. destruct (HB t Ht) as [_ Hlt]. specialize (Hlt Hi). split; [lia|done].
  - rewrite decide_False by done. rewrite Z.add_0_r. by apply HB.
Qed.

Lemma attempts_moves f g B B' k db db' : moves f db db' -> amoves g db db' -> B <= B' -> attemptsWithin B k db ->
  (forall t, TASKS db !! k = Some t -> t_status (f k t) = Idle -> t_status t = Idle \/ QueryCountAttemptsByTask k db < B') -> attemptsWithin B' k db'.
Proof.
  intros Hf Hg Hle HB Hi t' Hk. destruct (moves_inv _ _ _ Hf _ _ Hk) as (t & Ht & -> & _). rewrite (attempts_amoves _ _ _ _ Hg).
  destruct (HB t Ht) as [Hc Hlt]. split; [lia|]. intros Hs. destruct (Hi t Ht Hs) as [Hid|]; [specialize (Hlt Hid)|]; lia.
Qed.

(** The bound holds except for [Recover], which frees tasks whatever their count. *)
Lemma action_attempts B k db db' : MaxTaskAttempts <= B -> wf db -> ~ restarts -> action db db' -> attemptsWithin B k db -> attemptsWithin B k db'.
Proof.
  intros HM W Hno H HB. destruct (action_amoves _ _ H) as [(g & Hg & _)|Has]; [|by eapply attempts_assigned].
  assert (Hid : TASKS db' = TASKS db -> attemptsWithin B k db') by (intros E; apply (attempts_moves _ _ B B k _ _ (moves_id _ _ E) Hg (Z.le_refl B) HB); auto).
  destruct H; eauto; [| | | | | |done].
  - intros u Hu. rewrite (attempts_amoves _ _ _ k Hg). match goal with E : TASKS db' = _ |- _ => rewrite E in Hu end.
    apply lookup_union_Some in Hu as [Hn|Hu]; [|by apply HB|done]. rewrite attempts_fresh; [unfold MaxTaskAttempts in HM; lia|done|]. by eapply map_disjoint_Some_l.
  - apply attempts_assigned with db; [done|]. exists tid, t, a, ar. auto 10.
  - eapply attempts_moves; [eapply moves_fmap; [eassumption| |]|exact Hg|reflexivity|done|]; cbn.
    + intros t. by destruct (E t).
    + intros t Hc. destruct (E t) eqn:HE; [|done]. destruct (H1 t HE) as (_ & _ & ?). congruence.
    + intros t _. destruct (E t); [done|auto].
  - destruct H as (Ht & Hp & _). eapply attempts_moves; [eapply (moves_alter _ tid t); eauto; congruence|exact Hg|reflexivity|done|].
    intros u Hu. destruct (decide (k = tid)) as [->|]; [by rewrite onKey_eq|rewrite onKey_ne by done; auto].
  - destruct H as (Ht & Hp & _). eapply attempts_moves; [eapply (moves_alter _ tid t); eauto; congruence|exact Hg|reflexivity|done|].
    intros u Hu. destruct (decide (k = tid)) as [->|]; [rewrite onKey_eq|rewrite onKey_ne by done; auto]. cbn. intros Hi. right. subst st.
    unfold retryState in Hi. destruct (Z.leb_spec MaxTaskAttempts (QueryCountAttemptsByTask tid db)); [done|lia].
  - eapply attempts_moves; [apply moves_cancel; eassumption|exact Hg|reflexivity|done|]. intros t _. destruct (cancelTask_cases j t) as [[-> _]|(_ & _ & ->)]; [auto|done].
Qed.

(** A manager that starts frees the task while it is on its last attempt, or beyond. *)
Definition freesLast (i : Z) (tid : string) (db : DB) : bool :=
  match TASKS db !! tid with
  | Some t => hasStatus InProgress t && ofReplica i db t && (MaxTaskAttempts <=? QueryCountAttemptsByTask tid db)
  | None => false
  end.

Lemma recover_attempts B k i db : MaxTaskAttempts <= B -> attemptsWithin B k db ->
  attemptsWithin (B + if freesLast i k db then 1 else 0) k (QueryResetTasksForReplica i (QueryFailRunningAttemptsByReplica i db)).
Proof.
  intros HM HB. destruct (amoves_failRunning (ofReplica i db) db _ eq_refl) as (g & Hg & _).
  apply (attempts_moves (fun _ t => if hasStatus InProgress t && ofReplica i db t then setStatus Idle t else t) g B _ k db); [| |destruct (freesLast i k db); lia|done|].
  - apply moves_fmap; [done| |]; intros t; [by destruct (_ && _)|]. unfold hasStatus. by intros ->.
  - destruct Hg. by split.
  - intros t Ht. unfold freesLast. rewrite Ht. destruct (hasStatus InProgress t && ofReplica i db t); cbn; [|auto]. intros _. right.
    destruct (HB t Ht) as [Hc _]. destruct (Z.leb_spec MaxTaskAttempts (QueryCountAttemptsByTask k db)); lia.
Qed.

(** * Ids *)

Definition canonical (db : DB) : Prop := forall j, is_Some (JOBS db !! j) -> canon j.

Lemma action_canonical db db' : action db db' -> canonical db -> canonical db'.
Proof.
  intros H Hc.
  assert (Hsame : JOBS db' = JOBS db -> canonical db') by (intros E j; rewrite E; apply Hc).
  assert (Hto : forall j st, JOBS db' = jobTo j st db -> canonical db') by (intros j st E k; rewrite E, jobTo_is_Some; apply Hc).
  assert (Hafter : forall j, jobsAfter j db db' -> canonical db') by (intros j [[_ E]|[_ E]]; eauto).
  destruct H; eauto; try (by apply Hsame).
  - intros k Hk. match goal with E : JOBS db' = _ |- _ => rewrite E in Hk end. apply lookup_insert_is_Some' in Hk as [<-|Hk]; auto.
  - destruct (decide (st = Failed)); eauto.
Qed.

(** * Runs *)

Lemma rtc_keeps (P : DB -> Prop) : (forall db db', wf db -> action db db' -> P db -> P db') -> forall db db', rtc action db db' -> wf db -> P db -> wf db' /\ P db'.
Proof.
  intros Hstep db db'. induction 1 as [|x y z Hxy _ IH]; [done|]. intros W HP. apply IH; [by eapply action_wf|by eapply Hstep].
Qed.

Lemma claim_run db db' j st : rtc action db db' -> wf db -> claim db j st -> claim db' j st.
Proof. intros Hr W Hc. eapply (rtc_keeps (fun d => claim d j st)); eauto using claim_stable. Qed.

Lemma wf_run db db' : rtc action db db' -> wf db -> wf db'.
Proof. intros Hr W. by destruct (rtc_keeps (fun _ => True) ltac:(done) _ _ Hr W I). Qed.

Lemma edge_run db db' j jr : rtc action db db' -> wf db -> JOBS db !! j = Some jr -> exists jr', JOBS db' !! j = Some jr' /\ rtc (jobEdge reaps) (j_status jr) (j_status jr').
Proof.
  intros Hr. revert jr. induction Hr as [|x y z Hxy _ IH]; intros jr W Hj; [by exists jr|].
  destruct (action_edge _ _ _ _ W Hxy Hj) as (jr1 & Hj1 & He). destruct (IH jr1 (action_wf _ _ Hxy W) Hj1) as (jr2 & ? & ?). exists jr2. split; [done|]. by eapply rtc_l.
Qed.

Lemma completed_run db db' tid t : rtc action db db' -> TASKS db !! tid = Some t -> t_status t = Completed ->
  TASKS db' !! tid = Some t /\ filter (fun o => o_task o = tid) (TASK_OUTPUTS db') = filter (fun o => o_task o = tid) (TASK_OUTPUTS db).
Proof.
  induction 1 as [|x y z Hxy _ IH]; [done|]. intros Ht Hc. destruct (completed_final _ _ _ _ Hxy Ht Hc) as [Ht' Ho]. destruct (IH Ht' Hc) as [? Ho']. split; [done|congruence].
Qed.

End Changes.
Arguments action : clear implicits.
Arguments canonical : clear implicits.
