(* ===== verification/SchedulerFacts.v ===== *)
(** The handlers of [Scheduler] refine the abstract changes of [SchedulerSpec]: what
    a committed transaction does to the tables is a sequence of them. *)
From Stdlib Require Import ZArith Lia String.
From stdpp Require Import base gmap strings list relations.
From S2P Require Import Prelude Scheduler SchedulerSpec.

Local Open Scope Z_scope.

(** * Inverting a transaction *)

Lemma tx_bind_inv {A B} (f : A -> tx B) (m : tx A) db b db' : (m ≫= f) db = inr (b, db') -> exists a d, m db = inr (a, d) /\ f a d = inr (b, db').
Proof. unfold mbind, tx_bind. destruct (m db) as [e|[a d]]; [done|eauto]. Qed.

Lemma tx_ret_inv {A} (a b : A) db db' : (mret a : tx A) db = inr (b, db') -> b = a /\ db' = db.
Proof. unfold mret, tx_ret. by intros [= -> ->]. Qed.

Lemma guard_inv b e db u db' : guard b e db = inr (u, db') -> b = true /\ db' = db.
Proof. unfold guard, mret, tx_ret, fails. destruct b; [|done]. by intros [= _ ->]. Qed.

Lemma someOr_inv {A} (o : option A) e db a db' : someOr o e db = inr (a, db') -> o = Some a /\ db' = db.
Proof. unfold someOr, mret, tx_ret, fails. destruct o; [|done]. by intros [= -> ->]. Qed.

Lemma reads_inv {A} (f : DB -> A) db a db' : reads f db = inr (a, db') -> a = f db /\ db' = db.
Proof. unfold reads. by intros [= -> ->]. Qed.

Lemma writes_inv f db u db' : writes f db = inr (u, db') -> db' = f db.
Proof. unfold writes. by intros [= _ ->]. Qed.

Lemma Emit_inv s ev db u db' : Emit s ev db = inr (u, db') -> exists o, db' = withOUTBOX o db.
Proof.
  unfold Emit, mret, tx_ret, writes. destruct (emitter s); intros [= _ <-]; [|eauto]. exists (EVENT_OUTBOX db). by destruct db.
Qed.

Lemma emitIf_inv (b : bool) s ev db u db' : (if b then Emit s ev else mret ()) db = inr (u, db') -> exists o, db' = withOUTBOX o db.
Proof. destruct b; [apply Emit_inv|]. intros [_ ->]%tx_ret_inv. exists (EVENT_OUTBOX db). by destruct db. Qed.

Lemma updateIf_inv (b : bool) j st db u db' : (if b then updateJobStatusTx j st else mret ()) db = inr (u, db') -> db' = if b then QueryUpdateJobStatus j st db else db.
Proof. destruct b; [apply writes_inv|]. by intros [_ ->]%tx_ret_inv. Qed.

(** All the steps of a transaction that has succeeded. *)
Ltac tx_inv :=
  repeat match goal with
  | H : @mbind tx _ _ _ _ _ _ = inr (_, _) |- _ => apply tx_bind_inv in H as (? & ? & ? & ?)
  | H : @mret tx _ _ _ _ = inr (_, _) |- _ => apply tx_ret_inv in H as [? ?]
  | H : guard _ _ _ = inr (_, _) |- _ => apply guard_inv in H as [? ?]
  | H : someOr _ _ _ = inr (_, _) |- _ => apply someOr_inv in H as [? ?]
  | H : reads _ _ = inr (_, _) |- _ => apply reads_inv in H as [? ?]
  | H : writes _ _ = inr (_, _) |- _ => apply writes_inv in H
  | H : updateJobStatusTx _ _ _ = inr (_, _) |- _ => apply writes_inv in H
  | H : updTask _ _ _ = inr (_, _) |- _ => apply writes_inv in H
  | H : updAttempt _ _ _ = inr (_, _) |- _ => apply writes_inv in H
  | H : QueryCompleteTask _ _ = inr (_, _) |- _ => apply writes_inv in H
  | H : QueryUpdateTaskStatus _ _ _ = inr (_, _) |- _ => apply writes_inv in H
  | H : QuerySucceedAttempt _ _ = inr (_, _) |- _ => apply writes_inv in H
  | H : QueryFailAttempt _ _ = inr (_, _) |- _ => apply writes_inv in H
  | H : QueryRenewLease _ _ _ = inr (_, _) |- _ => apply writes_inv in H
  | H : QueryInsertOutputBulk _ _ _ _ = inr (_, _) |- _ => apply writes_inv in H
  | H : QueryBulkFailNonCompletedTasksByJob _ _ = inr (_, _) |- _ => apply writes_inv in H
  | H : (if _ then updateJobStatusTx _ _ else _) _ = inr (_, _) |- _ => apply updateIf_inv in H
  | H : (if _ then Emit _ _ else _) _ = inr (_, _) |- _ => apply emitIf_inv in H as [? H]
  | H : Emit _ _ _ = inr (_, _) |- _ => apply Emit_inv in H as [? H]
  | H : cast _ _ _ = inr (_, _) |- _ => apply someOr_inv in H as [? ?]
  | H : (let '(_, _) := ?x in _) _ = inr (_, _) |- _ => destruct x
  end; simplify_eq.

Lemma runTx_inv {A} c (m : tx A) db r db' : runTx c m db = (r, db') -> db' = db \/ exists a, r = inr a /\ m db = inr (a, db').
Proof. unfold runTx. destruct (m db) as [e|[a d]]; [intros [= _ <-]; auto|]. destruct c; intros [= <- <-]; eauto. Qed.

Lemma orElseOn_inv {A} (m : tx A) e k db a db' : orElseOn m e k db = inr (a, db') -> m db = inr (a, db') \/ k db = inr (a, db').
Proof. unfold orElseOn. destruct (m db) as [e'|r]; [|by left]. destruct (decide (e' = e)); [by right|done]. Qed.

Lemma foldTx_cons {A B} (f : B -> A -> tx B) a l b db : foldTx f (a :: l) b db = (f b a ≫= foldTx f l) db.
Proof.
  unfold foldTx at 1. cbn [foldl]. assert (H : forall (m0 : tx B) db, foldl (fun m a => b ← m; f b a) m0 l db = (m0 ≫= foldTx f l) db).
  { induction l as [|x l IH]; intros m0 d; cbn [foldl]; [unfold mbind, tx_bind, foldTx; cbn; by destruct (m0 d) as [?|[? ?]]|].
    rewrite IH. unfold foldTx at 2. unfold mbind, tx_bind. destruct (m0 d) as [?|[b0 d0]]; [done|]. cbn [foldl]. by rewrite IH. }
  by rewrite H.
Qed.

Lemma foldTx_nil {A B} (f : B -> A -> tx B) b db : foldTx f [] b db = inr (b, db).
Proof. done. Qed.

(** An invariant of a loop that takes the rest of the list into account. *)
Lemma foldTx_inv {A B} (f : B -> A -> tx B) (I : list A -> B -> DB -> Prop) l b db b' db' :
  I l b db -> (forall a l b d b' d', I (a :: l) b d -> f b a d = inr (b', d') -> I l b' d') -> foldTx f l b db = inr (b', db') -> I [] b' db'.
Proof.
  intros HI Hstep. revert b db HI. induction l as [|a l IH]; intros b db HI; [rewrite foldTx_nil; by intros [= <- <-]|].
  rewrite foldTx_cons. intros (b1 & d1 & H1 & H2)%tx_bind_inv. eapply IH; [|exact H2]. by eapply Hstep.
Qed.

Lemma foldTx_emit {A} s (ev : A -> Event) l u db u' db' : foldTx (fun _ x => Emit s (ev x)) l u db = inr (u', db') -> exists o, db' = withOUTBOX o db.
Proof.
  apply (foldTx_inv (fun _ x => Emit s (ev x)) (fun _ _ d => exists o, d = withOUTBOX o db)).
  - exists (EVENT_OUTBOX db). by destruct db.
  - intros a l' b d b' d' [o ->] [o' ->]%Emit_inv. by exists o'.
Qed.

(** * Counts *)

Lemma countTasks_zero P db : countTasks P db <= 0 -> forall tid t, TASKS db !! tid = Some t -> P t = false.
Proof.
  unfold countTasks, tasksWhere. intros H tid t Ht. destruct (P t) eqn:HP; [|done]. exfalso.
  assert (E : filter (fun kt => P kt.2 = true) (TASKS db) = ∅) by (apply map_size_empty_iff; lia).
  eapply (map_filter_empty_not_lookup _ _ tid t E); done.
Qed.

Lemma countTasks_pos P db : countTasks P db <> 0 -> exists tid t, TASKS db !! tid = Some t /\ P t = true.
Proof.
  unfold countTasks, tasksWhere. intros H. destruct (map_choose (filter (fun kt => P kt.2 = true) (TASKS db))) as (tid & t & Ht).
  - intros E. rewrite E, map_size_empty in H. done.
  - apply map_lookup_filter_Some in Ht as [Ht HP]. eauto.
Qed.

Lemma ofJob_true j t : ofJob j t = true <-> t_job t = j.
Proof. apply bool_decide_eq_true. Qed.
Lemma hasStatus_true st t : hasStatus st t = true <-> t_status t = st.
Proof. apply bool_decide_eq_true. Qed.
Lemma hasType_true ty t : hasType ty t = true <-> t_type t = ty.
Proof. apply bool_decide_eq_true. Qed.
Lemma hasStatus_false st t : hasStatus st t = false <-> t_status t <> st.
Proof. apply bool_decide_eq_false. Qed.

Lemma noFailed db j : QueryCountFailedTasks j db <= 0 -> allTasks (fun s => s <> Failed) j db.
Proof. intros H tid t Ht Hj Hs. pose proof (countTasks_zero _ _ H tid t Ht) as E. cbn in E. by rewrite (proj2 (ofJob_true j t) Hj), (proj2 (hasStatus_true _ t) Hs) in E. Qed.

Lemma noPending db j : QueryCountAllPendingTasks j db <= 0 -> allTasks (eq Completed) j db.
Proof.
  intros H tid t Ht Hj. pose proof (countTasks_zero _ _ H tid t Ht) as E. cbn in E. rewrite (proj2 (ofJob_true j t) Hj) in E. cbn in E.
  apply negb_false_iff, hasStatus_true in E. by symmetry.
Qed.

Lemma somePending db j : QueryCountAllPendingTasks j db <> 0 -> someTask (fun s => s <> Completed) j db.
Proof. intros (tid & t & Ht & H)%countTasks_pos. apply andb_true_iff in H as [Hj Hs]. exists tid, t. split; [done|]. by rewrite <- ofJob_true, <- hasStatus_false, <- negb_true_iff. Qed.

Lemma noPendingMaps db j : QueryCountPendingTasksByType j MapTask db <= 0 -> mapsCompleted j db.
Proof.
  intros H tid t Ht Hj Hty. pose proof (countTasks_zero _ _ H tid t Ht) as E. cbn in E.
  rewrite (proj2 (ofJob_true j t) Hj), (proj2 (hasType_true _ t) Hty) in E. by apply negb_false_iff, hasStatus_true in E.
Qed.

(** * Assignment *)

Lemma firstRow_elem l x : firstRow l = Some x -> x ∈ l.
Proof.
  revert x. induction l as [|y l IH]; intros x H; [done|].
  change (firstRow (y :: l)) with (match firstRow l with None => Some y | Some b => if rowBefore b y then Some b else Some y end) in H.
  destruct (firstRow l) as [b|]; [destruct (rowBefore b y)|]; injection H as <-; [right; by apply IH|by left|by left].
Qed.

Lemma selectIdle_spec lk j i ty db tid t : QuerySelectIdleTask lk j i ty db = Some (tid, t) ->
  TASKS db !! tid = Some t /\ t_job t = j /\ t_status t = Idle /\ t_type t = ty /\ tid ∉ lk.
Proof.
  intros H%firstRow_elem. apply list_elem_of_filter in H as [Hl H]. apply elem_of_map_to_list in H. apply map_lookup_filter_Some in H as [Ht H].
  repeat (apply andb_true_iff in H as [H ?]). rewrite <- ofJob_true, <- hasStatus_true, <- hasType_true. auto.
Qed.

Section Handlers.
Context (uuid_Parse pg_uuid : string -> option string).
(** Jobs are created under the text of a uuid that Go has parsed. *)
Notation parsed := (fun j => exists s, uuid_Parse s = Some j).
Context {okc : SystemConfigUpdate -> Prop} {restarts reaps : Prop}.
Notation action := (SchedulerSpec.action parsed okc restarts reaps).
Notation GetNextTaskTx := (GetNextTaskTx uuid_Parse pg_uuid).
Notation tryAssignTask := (tryAssignTask uuid_Parse pg_uuid).

Lemma quota_inv db u db' : enforceQuotaTx db = inr (u, db') -> db' = db /\ QueryCountRunningAttempts db < maxPods db.
Proof.
  unfold enforceQuotaTx, readQuotaSnapshotTx. intros H. tx_inv. split; [done|]. unfold maxPods.
  match goal with H : (0 <? _) = true |- _ => apply Z.ltb_lt in H; revert H end. destruct (Z.ltb_spec (QueryCountRunningAttempts db) (match SYSTEM_CONFIG db with Some c => MaxConcurrentPods c | None => DefaultMaxConcurrentPods end)); lia.
Qed.

Lemma tryAssign_inv s e raw w ty db task db' : tryAssignTask s e raw w ty db = inr (task, db') ->
  exists jobID tid t, pg_uuid raw = Some jobID /\ TASKS db !! tid = Some t /\ t_job t = jobID /\ t_status t = Idle /\ t_type t = ty
  /\ TASK_ATTEMPTS db !! freshAttempt e = None /\ QueryCountRunningAttempts db < maxPods db /\ 0 < leaseTTL s
  /\ hydrateTaskMetadata tid t (freshAttempt e) (freshLease e) db = inr (task, db)
  /\ db' = withATTEMPTS (<[freshAttempt e := mkAttempt tid w (freshLease e) (dbNow e) (leaseTTL s) AttemptRunning]> (TASK_ATTEMPTS db))
             (withTASKS (<[tid := mkTask (t_job t) (t_type t) InProgress (t_replica t) (Some (freshAttempt e))]> (TASKS db)) db).
Proof.
  unfold Scheduler.tryAssignTask. intros H. tx_inv.
  repeat match goal with H : enforceQuotaTx _ = _ |- _ => apply quota_inv in H as [-> ?] end.
  match goal with H : QuerySelectIdleTask _ _ _ _ _ = Some (?a, ?b) |- _ => apply selectIdle_spec in H as (Ht & Hj & Hs & Hty & _); rename a into tid, b into t end.
  match goal with H : hydrateTaskMetadata _ _ _ _ _ = inr (_, ?d) |- _ => assert (d = db) as -> by (unfold hydrateTaskMetadata in H; tx_inv; done) end.
  match goal with H : QueryUpdateTaskInProgress _ _ _ = _ |- _ => unfold QueryUpdateTaskInProgress in H; rewrite Ht, (proj2 (hasStatus_true _ t) Hs) in H; simplify_eq end.
  match goal with H : QueryInsertAttempt _ _ _ _ _ _ _ = _ |- _ => unfold QueryInsertAttempt in H; cbn in H; repeat case_match; simplify_eq end.
  eexists _, tid, t. split_and!; eauto. unfold int4pos in *. boolprop. lia.
Qed.

Lemma assign_action s e raw w ty j db task d1 db' : tryAssignTask s e raw w ty db = inr (task, d1) -> pg_uuid raw = Some j ->
  allTasks (fun s => s <> Failed) j db -> (ty = ReduceTask -> mapsCompleted j db) ->
  (exists o, db' = withOUTBOX o (QueryUpdateJobStatus j JobRunning d1)) -> action db db'.
Proof.
  intros (jobID & tid & t & Hc & Ht & Hj & Hs & Hty & Ha & Hq & _ & _ & ->)%tryAssign_inv Hraw HF HM (o & ->). rewrite Hraw in Hc. injection Hc as <-. subst j ty.
  eapply act_assign; try done; eauto.
Qed.

Lemma emptyReduce_inv j db t : emptyReduce j db t = true -> t_job t = j /\ t_type t = ReduceTask /\ t_status t = Idle.
Proof. unfold emptyReduce. intros H. repeat (apply andb_true_iff in H as [H ?]). by rewrite <- ofJob_true, <- hasType_true, <- hasStatus_true. Qed.

Lemma autoComplete_action j db b db' : mapsCompleted j db -> allTasks (fun s => s <> Failed) j db -> autoCompleteEmptyReducesTx j db = inr (b, db') ->
  (db' = db /\ b = false \/ action db db') /\ mapsCompleted j db' /\ allTasks (fun s => s <> Failed) j db'
  /\ (b = true -> allTasks (eq Completed) j db' /\ JOBS db' = jobTo j JobCleaning db).
Proof.
  intros HM HNF. unfold autoCompleteEmptyReducesTx. intros H. apply tx_bind_inv in H as (done & d & [= Hdone Hd] & H).
  set (E := emptyReduce j db) in *. set (h := fun t => if E t then setStatus Completed t else t) in *.
  assert (Hmv : forall d', TASKS d' = h <$> TASKS db -> moves (fun _ => h) db d').
  { intros d' ET. apply moves_fmap; [done| |]; unfold h; intros t; [by destruct (E t)|]. intros Hc. destruct (E t) eqn:HE; [|done].
    destruct (emptyReduce_inv _ _ _ HE) as (_ & _ & ?). congruence. }
  assert (Hno : forall d', TASKS d' = h <$> TASKS db -> allTasks (fun s => s <> Failed) j d').
  { intros d' ET. apply (allTasks_moves _ _ _ (Hmv d' ET) _ _ _ HNF). intros k t _ _. unfold h. by destruct (E t). }
  assert (Hact : forall d', TASKS d' = h <$> TASKS db -> done <> [] -> jobsAfter j db d' -> TASK_ATTEMPTS d' = TASK_ATTEMPTS db -> TASK_OUTPUTS d' = TASK_OUTPUTS db ->
    SYSTEM_CONFIG d' = SYSTEM_CONFIG db -> action db d').
  { intros d' ET Hne HJ EA EO EC. apply (act_empty db d' j E); try done.
    - apply emptyReduce_inv.
    - destruct done as [|tid l]; [done|]. assert (Hin : tid ∈ (map_to_list (tasksWhere E db)).*1) by (rewrite Hdone; by left).
      apply list_elem_of_fmap in Hin as ([k t] & -> & Hkt). apply elem_of_map_to_list, map_lookup_filter_Some in Hkt as [? ?]. eauto. }
  subst d. case_bool_decide as Hd0.
  - apply tx_ret_inv in H as [-> ->]. assert (Eh : h <$> TASKS db = TASKS db).
    { apply map_eq. intros k. rewrite lookup_fmap. destruct (TASKS db !! k) as [t|] eqn:Ht; [|done]. cbn. f_equal. unfold h. destruct (E t) eqn:HE; [|done].
      exfalso. assert (Hin : k ∈ (map_to_list (tasksWhere E db)).*1); [|rewrite Hdone, Hd0 in Hin; by apply elem_of_nil in Hin].
      apply list_elem_of_fmap. exists (k, t). split; [done|]. apply elem_of_map_to_list, map_lookup_filter_Some. done. }
    rewrite Eh. assert (withTASKS (TASKS db) db = db) as -> by (by destruct db). split; [by left|]. split; [done|]. by split.
  - tx_inv. destruct (Z.eqb_spec (QueryCountAllPendingTasks j (withTASKS (h <$> TASKS db) db)) 0) as [Hz|Hz]; tx_inv.
    + assert (Hall : allTasks (eq Completed) j (withTASKS (h <$> TASKS db) db)) by (apply noPending; lia).
      split; [right; apply Hact; auto; by left|]. split; [eapply mapsCompleted_moves; [by apply Hmv|done]|]. split; [by apply Hno|]. auto.
    + split; [right; apply Hact; auto; right; split; [by apply somePending|done]|]. split; [eapply mapsCompleted_moves; [by apply Hmv|done]|]. split; [by apply Hno|done].
Qed.

(** What a worker gets: the row of the task, bound to the new attempt, and for a
    reduce task every output of the maps for its partition. *)
Definition dispatched (e : callEnv) (j : string) (task : Task) (db' : DB) : Prop :=
  exists t, TASKS db' !! ID task = Some t /\ t_status t = InProgress /\ t_attempt t = Some (freshAttempt e) /\ t_job t = j /\ t_type t = Type_ task
  /\ ActiveAttemptID task = freshAttempt e /\ LeaseID task = freshLease e
  /\ (Type_ task = ReduceTask -> mapsCompleted j db' /\ ShuffleInputs task = QueryGetReduceTaskInputs (ID task) db').

Lemma shuffleRow_insert j p db db' tid t' o : TASKS db' = <[tid := t']> (TASKS db) -> t_type t' <> MapTask ->
  (forall t, TASKS db !! tid = Some t -> t_type t <> MapTask) -> is_Some (TASKS db !! tid) -> shuffleRow j p db' o = shuffleRow j p db o.
Proof.
  intros ET Ht' Ht [t Htid]. unfold shuffleRow. rewrite ET. destruct (decide (o_task o = tid)) as [->|Hne]; [|by rewrite lookup_insert_ne].
  rewrite lookup_insert_eq, Htid. assert (forall u, t_type u <> MapTask -> hasType MapTask u = false) as E by (intros u; apply bool_decide_eq_false).
  rewrite !E by auto. by rewrite !andb_false_r.
Qed.

Lemma assign_dispatched s e raw w ty j db task d1 db' : tryAssignTask s e raw w ty db = inr (task, d1) -> pg_uuid raw = Some j ->
  (ty = ReduceTask -> mapsCompleted j db) -> (exists o, db' = withOUTBOX o (QueryUpdateJobStatus j JobRunning d1)) -> dispatched e j task db'.
Proof.
  intros (jobID & tid & t & Hc & Ht & Hj & Hs & Hty & Ha & Hq & _ & Hh & ->)%tryAssign_inv Hraw HM (o & ->). rewrite Hraw in Hc. injection Hc as <-. subst j.
  unfold hydrateTaskMetadata in Hh. tx_inv. set (t' := mkTask (t_job t) (t_type t) InProgress (t_replica t) (Some (freshAttempt e))).
  exists t'. destruct (t_type t) eqn:Ety; cbn; rewrite lookup_insert_eq; (split_and!; [done..|]); [done|]. intros _. split.
  - intros k u. cbn. rewrite lookup_insert_Some. intros [[<- <-]|[_ Hu]]; cbn; [congruence|]. by apply (HM eq_refl k).
  - unfold QueryGetReduceTaskInputs. cbn. rewrite lookup_insert_eq, Ht. f_equal. apply list_filter_iff. intros x. cbn.
    match goal with |- shuffleRow _ _ ?a x = true <-> shuffleRow _ _ ?b x = true => rewrite (shuffleRow_insert _ _ a b tid t' x) end;
      [done|done|done|congruence|by eexists].
Qed.

(** The outcome of [GetNextTask] when it commits: an assignment, possibly after the
    empty reduce tasks were completed. *)
Lemma GetNextTask_refines s e raw w db r db' : GetNextTaskTx s e raw w db = inr (r, db') ->
  rtc action db db' /\ exists j, pg_uuid raw = Some j
  /\ (forall task, r = inl task -> dispatched e j task db')
  /\ (forall err, r = inr (err, true) -> allTasks (eq Completed) j db' /\ JOBS db' = jobTo j JobCleaning db /\ is_Some (JOBS db !! j)).
Proof.
  unfold Scheduler.GetNextTaskTx. intros H. tx_inv. match goal with H : pg_uuid raw = Some ?x |- _ => rename x into j end.
  match goal with H : negb (0 <? QueryCountFailedTasks _ _) = true |- _ => apply negb_true_iff, Z.ltb_ge, noFailed in H as HF end.
  match goal with H : orElseOn _ _ _ _ = _ |- _ => apply orElseOn_inv in H as [H|H]; tx_inv end.
  - split; [apply rtc_once; eapply assign_action; eauto; done|]. exists j. split; [done|]. split; [|done].
    intros task [= <-]. eapply assign_dispatched; eauto. done.
  - match goal with H : negb (0 <? QueryCountPendingTasksByType _ _ _) = true |- _ => apply negb_true_iff, Z.ltb_ge, noPendingMaps in H as HM end.
    match goal with H : autoCompleteEmptyReducesTx _ _ = inr (_, ?d) |- _ => destruct (autoComplete_action _ _ _ _ HM HF H) as (Hact & HM' & HF' & Hdone); assert (Hr : rtc action db d) by
      (destruct Hact as [[-> _]|?]; [done|by apply rtc_once]) end.
    match goal with H : orElseOn _ _ _ _ = _ |- _ => apply orElseOn_inv in H as [H|H]; tx_inv end.
    + match goal with H : tryAssignTask _ _ _ _ _ _ = inr (_, ?d) |- _ => assert (Ho : exists o, QueryUpdateJobStatus j JobRunning d = withOUTBOX o (QueryUpdateJobStatus j JobRunning d)) by
        (eexists (EVENT_OUTBOX d); by destruct d) end.
      split; [eapply rtc_r; [exact Hr|]; eapply assign_action; eauto|]. exists j. split; [done|]. split; [|done].
      intros task [= <-]. eapply assign_dispatched; eauto.
    + split; [done|]. exists j. split; [done|]. split; [done|]. intros err [= _ ->]. destruct (Hdone eq_refl). eauto.
Qed.

(** * Fencing *)

Notation fenceTx := (fenceTx pg_uuid).
Definition leaseValid (s : Scheduler) (e : callEnv) (leaseID : string) (ar : AttemptRow) : Prop :=
  pg_uuid leaseID = Some (a_lease ar) /\ dbNow e <= a_renewed ar + (a_ttl ar + leaseClockSkewSeconds s) * second.

Lemma fence_inv s e tid a l db j db' : fenceTx s e tid a l db = inr (j, db') ->
  db' = db /\ exists t ar, bound db tid a t /\ t_job t = j /\ TASK_ATTEMPTS db !! a = Some ar /\ leaseValid s e l ar.
Proof.
  unfold Scheduler.fenceTx, validateLeaseTx. intros H. tx_inv. split; [done|].
  match goal with H : QueryCheckLeaseValid _ _ _ _ _ = _ |- _ => unfold QueryCheckLeaseValid in H; apply fmap_Some in H as (ar & Ha & E); symmetry in E; boolprop end.
  match goal with H : TASKS db !! tid = Some ?t |- _ => exists t, ar end.
  match goal with H : hasStatus _ _ = true |- _ => apply hasStatus_true in H end.
  split; [by repeat split|]. split; [done|]. split; [done|]. split; [congruence|done].
Qed.

Lemma jobsAfter_intro j db d db' (b : bool) : b = (QueryCountAllPendingTasks j d =? 0) -> TASKS d = TASKS db' -> JOBS d = JOBS db ->
  JOBS db' = (if b then jobTo j JobCleaning d else JOBS d) -> jobsAfter j db db' /\ (b = true -> allTasks (eq Completed) j db' /\ JOBS db' = jobTo j JobCleaning db).
Proof.
  intros Hb ET EJ E. assert (Ejt : jobTo j JobCleaning d = jobTo j JobCleaning db) by (unfold jobTo; cbn; by rewrite EJ).
  assert (Hall : allTasks (eq Completed) j d -> allTasks (eq Completed) j db') by (unfold allTasks; by rewrite ET).
  destruct (Z.eqb_spec (QueryCountAllPendingTasks j d) 0) as [Hz|Hz]; subst b; rewrite E, ?Ejt.
  - assert (allTasks (eq Completed) j db') by (apply Hall, noPending; lia). split; [left; by rewrite E, Ejt|done].
  - split; [|done]. right. split; [|by rewrite E]. apply somePending in Hz. unfold someTask in *. by rewrite <- ET.
Qed.

(** The job and the fence, from the checks of [CompleteTask] and [FailTask]. *)
Ltac fence_job t ar jr Hb Ht Hjr Hact :=
  match goal with H : fenceTx _ _ _ _ _ ?db = _ |- _ => apply fence_inv in H as (-> & t & ar & Hb & Hj & Har & Hl);
    match goal with H : selectJobOfTask _ _ = Some (_, _) |- _ => unfold selectJobOfTask in H; pose proof Hb as (Ht & _); rewrite Ht in H; cbn in H;
      destruct (JOBS db !! t_job t) as [jr|] eqn:Hjr; [|done]; cbn in H; injection H as <- <- end end;
  match goal with H : (_ || _) = true |- _ => assert (Hact : active (j_status jr)) by (apply orb_true_iff in H as [H|H]; apply bool_decide_eq_true in H; [by right|by left]) end.

Notation CompleteTaskTx := (CompleteTaskTx uuid_Parse pg_uuid).
Definition outputRows (tid : string) (outputURIs outputChecksums : list string) : list OutputRow :=
  imap (fun i uc => mkOutput tid (Some (Z.of_nat i)) uc.1 uc.2) (zip outputURIs outputChecksums).

Lemma outputRows_task tid us cs o : o ∈ outputRows tid us cs -> o_task o = tid.
Proof. unfold outputRows. intros (i & x & -> & _)%elem_of_lookup_imap. done. Qed.

Lemma complete_action db tid a t us cs o o' d db' (jc : bool) : bound db tid a t -> activeJob (t_job t) db ->
  TASKS d = alter (setStatus Completed) tid (TASKS db) -> TASK_ATTEMPTS d = alter (setAttempt AttemptSuccess) a (TASK_ATTEMPTS db) ->
  TASK_OUTPUTS d = TASK_OUTPUTS db ++ outputRows tid us cs -> JOBS d = JOBS db -> SYSTEM_CONFIG d = SYSTEM_CONFIG db -> jc = (QueryCountAllPendingTasks (t_job t) d =? 0) ->
  db' = withOUTBOX o' (withOUTBOX o (if jc then QueryUpdateJobStatus (t_job t) JobCleaning d else d)) ->
  action db db' /\ TASKS db' = alter (setStatus Completed) tid (TASKS db) /\ TASK_OUTPUTS db' = TASK_OUTPUTS db ++ outputRows tid us cs
  /\ (jc = true -> allTasks (eq Completed) (t_job t) db' /\ JOBS db' = jobTo (t_job t) JobCleaning db).
Proof.
  intros Hb Hact ET EA EO EJ EC Hjc E. destruct (jobsAfter_intro (t_job t) db d db' jc) as [Hja Hdone]; [done|by subst db'; destruct jc|done|by subst db'; destruct jc|].
  assert (ET' : TASKS db' = TASKS d) by (subst db'; by destruct jc). assert (EO' : TASK_OUTPUTS db' = TASK_OUTPUTS d) by (subst db'; by destruct jc).
  rewrite ET', EO', ET, EO. split; [|done]. eapply (act_complete db db' tid t a (outputRows tid us cs)); [done|done|apply outputRows_task|done|congruence| |congruence|].
  - subst db'. by destruct jc.
  - unfold others. subst db'. by destruct jc.
Qed.

(** What [CompleteTask] has checked and done when it succeeds. *)
Lemma CompleteTask_refines s e raw a l us cs db j jc db' : CompleteTaskTx s e raw a l us cs db = inr ((j, jc), db') ->
  exists tid t ar, pg_uuid raw = Some tid /\ bound db tid a t /\ t_job t = j /\ activeJob j db /\ TASK_ATTEMPTS db !! a = Some ar /\ leaseValid s e l ar
  /\ length us = length cs /\ action db db' /\ TASKS db' = alter (setStatus Completed) tid (TASKS db) /\ TASK_OUTPUTS db' = TASK_OUTPUTS db ++ outputRows tid us cs
  /\ (jc = true -> allTasks (eq Completed) j db' /\ JOBS db' = jobTo j JobCleaning db).
Proof.
  unfold Scheduler.CompleteTaskTx. intros H. tx_inv. fence_job t ar jr Hb Ht Hjr Hact.
  match goal with H : pg_uuid raw = Some ?x |- _ => exists x, t, ar end. boolprop.
  repeat (split; [by (done || exists jr)|]). eapply complete_action; [exact Hb|by exists jr| | | | | |reflexivity|reflexivity]; done.
Qed.

(** * Renewal, failure, cancellation *)

Lemma renew_action db a ar now o : TASK_ATTEMPTS db !! a = Some ar ->
  action db (withOUTBOX o (withATTEMPTS (alter (fun a => mkAttempt (a_task a) (a_worker a) (a_lease a) now (a_ttl a) (a_status a)) a (TASK_ATTEMPTS db)) db)).
Proof.
  intros Ha. eapply (act_renew _ _ a ar (mkAttempt (a_task ar) (a_worker ar) (a_lease ar) now (a_ttl ar) (a_status ar))); try done. cbn.
  apply map_eq. intros k. rewrite lookup_alter_onKey. destruct (decide (k = a)) as [->|Hk].
  - by rewrite lookup_insert_eq, Ha; cbn; rewrite onKey_eq.
  - rewrite lookup_insert_ne by done. destruct (TASK_ATTEMPTS db !! k); cbn; [by rewrite onKey_ne|done].
Qed.

Lemma RenewLease_refines s e raw a l db r s' db' : RenewLease uuid_Parse pg_uuid s e raw a l db = (r, s', db') ->
  pendingCleanup s' = pendingCleanup s /\ replicaIndex s' = replicaIndex s /\ rtc action db db'.
Proof.
  unfold RenewLease. match goal with |- context [match ?m db with _ => _ end] => destruct (m db) as [err|[j d]] eqn:Hm end; [by intros [= _ <- <-]|].
  tx_inv. match goal with H : fenceTx _ _ _ _ _ _ = _ |- _ => apply fence_inv in H as (-> & t & ar & Hb & Hj & Har & Hl) end.
  destruct (shouldEmitHeartbeatEvent s) as [b s1] eqn:Es.
  assert (pendingCleanup s1 = pendingCleanup s /\ replicaIndex s1 = replicaIndex s) as [E1 E2].
  { unfold shouldEmitHeartbeatEvent in Es. case_match; injection Es as _ <-; done. }
  destruct (runTx _ _ _) as [[err|[]] d2] eqn:Hr; intros [= _ <- <-]; [done|]. cbn. split; [done|]. split; [done|].
  apply runTx_inv in Hr as [->|([] & _ & Hr)]; [apply rtc_once|apply emitIf_inv in Hr as [o ->]; apply rtc_once; by eapply renew_action].
  match goal with |- action _ ?d => replace d with (withOUTBOX (EVENT_OUTBOX db) d) by done end. by eapply renew_action.
Qed.

Notation FailTaskTx := (FailTaskTx uuid_Parse pg_uuid).
Lemma fail_action db tid a t st o o' d : bound db tid a t -> activeJob (t_job t) db \/ reaps -> st = retryState (QueryCountAttemptsByTask tid db) ->
  d = withATTEMPTS (alter (setAttempt AttemptFailed) a (TASK_ATTEMPTS db)) (withTASKS (alter (setStatus st) tid (TASKS db)) db) ->
  action db (withOUTBOX o' (withOUTBOX o (if bool_decide (st = Failed) then QueryUpdateJobStatus (t_job t) JobCleaning d else d))).
Proof.
  intros Hb Hact Hst ->. case_bool_decide as Hs; apply (act_fail _ _ tid t a st); try done; [by rewrite decide_True|by rewrite decide_False].
Qed.

Lemma FailTask_refines s e raw a l reason db j st db' : FailTaskTx s e raw a l reason db = inr ((j, st), db') ->
  exists tid t ar, pg_uuid raw = Some tid /\ bound db tid a t /\ t_job t = j /\ activeJob j db /\ TASK_ATTEMPTS db !! a = Some ar /\ leaseValid s e l ar
  /\ action db db' /\ (st = Failed -> someTask (eq Failed) j db' /\ JOBS db' = jobTo j JobCleaning db).
Proof.
  unfold Scheduler.FailTaskTx. intros H. tx_inv. fence_job t ar jr Hb Ht Hjr Hact.
  match goal with H : pg_uuid raw = Some ?x |- _ => exists x, t, ar; rename x into tid end.
  repeat (split; [by (done || exists jr)|]). split; [eapply fail_action; eauto; left; by exists jr|]. intros Hst. rewrite Hst, bool_decide_eq_true_2 by done. split; [|done].
  exists tid, (setStatus Failed t). cbn. by rewrite lookup_alter_eq, Ht.
Qed.


Lemma jobTo_same j st db jr : JOBS db !! j = Some jr -> j_status jr = st -> jobTo j st db = JOBS db.
Proof.
  intros Hj <-. unfold jobTo. cbn. apply map_eq. intros k. rewrite lookup_alter_onKey. destruct (decide (k = j)) as [->|Hk].
  - rewrite Hj. cbn. rewrite onKey_eq. by destruct jr.
  - destruct (JOBS db !! k); cbn; [by rewrite onKey_ne|done].
Qed.

Lemma applyJobTransition_inv raw to db old db' : applyJobTransitionTx pg_uuid raw to db = inr (old, db') ->
  exists j jr, pg_uuid raw = Some j /\ JOBS db !! j = Some jr /\ old = j_status jr /\ (j_status jr = to \/ allowedJobTransitions (j_status jr) to = true)
  /\ JOBS db' = jobTo j to db /\ TASKS db' = TASKS db /\ TASK_ATTEMPTS db' = TASK_ATTEMPTS db /\ TASK_OUTPUTS db' = TASK_OUTPUTS db /\ SYSTEM_CONFIG db' = SYSTEM_CONFIG db.
Proof.
  unfold applyJobTransitionTx. intros H. tx_inv. match goal with H : JOBS _ !! ?j = Some ?jr |- _ => exists j, jr end.
  case_bool_decide as Hs; [|unfold ValidateJobTransition in *]; tx_inv; repeat (split; [by auto|]); [|done].
  erewrite jobTo_same; eauto.
Qed.

Lemma failRunning_ext P db d : TASK_ATTEMPTS d = TASK_ATTEMPTS db -> (forall k, P <$> TASKS d !! k = P <$> TASKS db !! k) ->
  TASK_ATTEMPTS (failRunningWhere P d) = TASK_ATTEMPTS (failRunningWhere P db).
Proof.
  intros EA HP. cbn. rewrite EA. apply map_fmap_ext. intros a ar _. specialize (HP (a_task ar)).
  destruct (TASKS d !! a_task ar), (TASKS db !! a_task ar); cbn in HP; try discriminate; [injection HP as ->|]; done.
Qed.

Lemma CancelJob_refines s raw db r db' : CancelJobTx uuid_Parse pg_uuid s raw db = inr (r, db') ->
  exists j, pg_uuid raw = Some j /\ is_Some (JOBS db !! j) /\ action db db' /\ allTasks settled j db' /\ JOBS db' = jobTo j JobCleaning db.
Proof.
  unfold CancelJobTx. intros H. tx_inv.
  match goal with H : applyJobTransitionTx _ _ _ _ = _ |- _ => apply applyJobTransition_inv in H as (j & jr & Hr & Hj & -> & Hok & EJ & ET & EA & EO & EC) end.
  match goal with H : pg_uuid raw = Some ?x |- _ => assert (x = j) as -> by congruence end.
  exists j. split; [done|]. split; [by eexists|]. split; [|split; [|done]].
  - apply (act_cancel db _ j jr); try done.
    + destruct Hok as [?|Hok]; [by right|]. left. destruct (j_status jr); try done; [by left|by right].
    + cbn. by rewrite ET.
    + apply (failRunning_ext (ofJob j) db); [done|]. intros k. cbn. rewrite lookup_fmap, ET. destruct (TASKS db !! k) as [t|]; [|done]. cbn. f_equal.
      by destruct (_ && _).
  - intros k t'. cbn. rewrite ET, lookup_fmap_Some. intros (t & <- & Ht). change (t_job (cancelTask j t) = j -> settled (t_status (cancelTask j t))).
    destruct (cancelTask_cases j t) as [[-> H]|(_ & _ & ->)]; [left; auto|by right].
Qed.

Lemma finalize_action db raw st old db' : applyJobTransitionTx pg_uuid raw st db = inr (old, db') ->
  (forall j, pg_uuid raw = Some j -> jobOK db j st) -> terminal st -> action db db'.
Proof.
  intros (j & jr & Hr & Hj & _ & Hok & EJ & ET & EA & EO & EC)%applyJobTransition_inv Hclaim Hterm.
  destruct Hok as [Hst|Hok]; [erewrite jobTo_same in EJ by done; by apply act_other|].
  assert (j_status jr = JobCleaning) as Hc by (destruct Hterm as [->|[->| ->]], (j_status jr); done).
  eapply (act_final db db' j jr st); eauto. by rewrite <- Hc.
Qed.

(** * The reaper *)

Definition stillStale (d : DB) (rec : staleRec) : Prop :=
  exists t, bound d (st_task rec) (st_attempt rec) t /\ t_job t = st_job rec /\ st_count rec = QueryCountAttemptsByTask (st_task rec) d.

Lemma staleRow_inv i db kt rec : staleRow i db kt = Some rec -> st_task rec = kt.1 /\ t_attempt kt.2 = Some (st_attempt rec) /\ t_status kt.2 = InProgress
  /\ t_job kt.2 = st_job rec /\ st_count rec = QueryCountAttemptsByTask kt.1 db
  /\ exists ar, TASK_ATTEMPTS db !! st_attempt rec = Some ar /\ a_status ar = AttemptRunning /\ st_renewed rec = a_renewed ar /\ st_ttl rec = a_ttl ar.
Proof.
  destruct kt as [tid t]. unfold staleRow. destruct (t_attempt t) as [a|] eqn:Ha; [|done]. cbn. destruct (TASK_ATTEMPTS db !! a) as [ar|] eqn:Har; [|done]. cbn.
  destruct (_ && _) eqn:E; [|done]. intros [= <-]. boolprop. rewrite hasStatus_true in *. cbn. split_and!; auto. eauto.
Qed.

Lemma stales_spec lk i db : Forall (stillStale db) (QuerySelectStaleTasks lk i db) /\ NoDup (st_task <$> QuerySelectStaleTasks lk i db).
Proof.
  unfold QuerySelectStaleTasks. split.
  - apply Forall_forall. intros rec (kt & Hkt & Hrec)%list_elem_of_omap. apply list_elem_of_filter in Hkt as [_ Hkt]. destruct kt as [tid t]. apply elem_of_map_to_list in Hkt.
    apply staleRow_inv in Hrec as (E1 & E2 & E3 & E4 & E5 & _). cbn in *. exists t. rewrite E1. split; [by split_and!|done].
  - assert (H : NoDup (filter (fun kt => kt.1 ∉ lk) (map_to_list (TASKS db))).*1) by (eapply sublist_NoDup; [apply (NoDup_fst_map_to_list (TASKS db))|apply fmap_sublist, sublist_filter]).
    revert H. generalize (filter (fun kt : string * TaskRow => kt.1 ∉ lk) (map_to_list (TASKS db))). intros l. induction l as [|kt l IH]; cbn; [constructor|].
    intros [Hni Hnd]%NoDup_cons. destruct (staleRow i db kt) as [rec|] eqn:E; [|by apply IH]. cbn. constructor; [|by apply IH].
    apply staleRow_inv in E as (-> & _). intros (rec' & E' & Hin)%list_elem_of_fmap. apply list_elem_of_omap in Hin as (kt' & Hkt' & Hr').
    apply staleRow_inv in Hr' as (E1 & _). apply Hni. rewrite E', E1. by apply list_elem_of_fmap_2.
Qed.

Lemma reapOne_action s now acc rec d acc' d' : reaps -> wf d -> stillStale d rec -> reapOne s now acc rec d = inr (acc', d') ->
  d' = d /\ acc' = acc
  \/ action d d' /\ (forall k, k <> st_task rec -> TASKS d' !! k = TASKS d !! k) /\ (forall k, QueryCountAttemptsByTask k d' = QueryCountAttemptsByTask k d)
     /\ (forall j, j ∈ failedJobs acc' -> j ∈ failedJobs acc \/ claim d' j JobFailed).
Proof.
  intros Hreaps W (t & Hb & Hj & Hc). unfold reapOne. destruct (freshHeartbeat s now rec); [intros [-> ->]%tx_ret_inv; by left|]. intros Hx. right. pose proof Hb as (Ht & _).
  assert (Hcount : forall d', TASK_ATTEMPTS d' = alter (setAttempt AttemptFailed) (st_attempt rec) (TASK_ATTEMPTS d) -> forall k, QueryCountAttemptsByTask k d' = QueryCountAttemptsByTask k d).
  { intros d2 E k. eapply attempts_amoves. by eapply amoves_alter. }
  set (d1 := withATTEMPTS (alter (setAttempt AttemptFailed) (st_attempt rec) (TASK_ATTEMPTS d)) (withTASKS (alter (setStatus (retryState (st_count rec))) (st_task rec) (TASKS d)) d)).
  assert (Hact : forall d2, d2 = (if bool_decide (retryState (st_count rec) = Failed) then QueryUpdateJobStatus (st_job rec) JobCleaning d1 else d1) -> action d d2).
  { intros d2 ->. pose proof (fail_action d _ _ t (retryState (st_count rec)) (EVENT_OUTBOX d) (EVENT_OUTBOX d) d1 Hb (or_intror Hreaps) (f_equal retryState Hc) eq_refl) as Hfa.
    rewrite Hj in Hfa. by destruct (bool_decide (retryState (st_count rec) = Failed)). }
  apply tx_bind_inv in Hx as (? & ? & H1 & Hx). apply writes_inv in H1 as ->. apply tx_bind_inv in Hx as (? & ? & H1 & Hx). apply writes_inv in H1 as ->.
  destruct (bool_decide_reflect (retryState (st_count rec) = Failed)) as [Hf|Hf]; tx_inv.
  - specialize (Hact _ eq_refl). split; [exact Hact|]. split; [intros k Hk; cbn; by rewrite lookup_alter_ne|]. split; [by apply Hcount|]. cbn. intros j.
    rewrite elem_of_union, elem_of_singleton. intros [->|?]; [right|by left]. split; [by right; left|]. split.
    + exists (st_task rec), (setStatus Failed t). cbn. rewrite lookup_alter_eq, Ht, Hf. cbn. split; [done|]. by split.
    + destruct (wf_task _ W _ _ Ht) as ([jr Hjr] & _). rewrite Hj in Hjr. exists (mkJob (j_user jr) JobCleaning (j_replica jr)). cbn.
      rewrite lookup_alter_eq, Hjr. split; [done|]. by intros [?|?].
  - specialize (Hact _ eq_refl). split; [exact Hact|]. split; [intros k Hk; cbn; by rewrite lookup_alter_ne|]. split; [by apply Hcount|]. auto.
Qed.

Lemma reap_fold s now stales db acc' db' : reaps -> wf db -> NoDup (st_task <$> stales) -> Forall (stillStale db) stales ->
  foldTx (reapOne s now) stales (mkReap 0 [] ∅) db = inr (acc', db') -> rtc action db db' /\ wf db' /\ forall j, j ∈ failedJobs acc' -> claim db' j JobFailed.
Proof.
  intros Hreaps W Hnd Hst H. enough (wf db' /\ NoDup (st_task <$> []) /\ Forall (stillStale db') [] /\ rtc action db db' /\ forall j, j ∈ failedJobs acc' -> claim db' j JobFailed) as (Hw & _ & _ & Hr & Hc) by (split; [exact Hr|]; by split).
  revert H. apply (foldTx_inv (reapOne s now) (fun l acc d => wf d /\ NoDup (st_task <$> l) /\ Forall (stillStale d) l /\ rtc action db d /\ forall j, j ∈ failedJobs acc -> claim d j JobFailed)).
  - split_and!; [done..|]. cbn. intros j Hj. by apply elem_of_empty in Hj.
  - intros rec l acc d acc2 d2 (Wd & Hn & Hs & Hr & Hcl) H. inversion Hs as [|? ? Hrec Hl]; subst. cbn in Hn. apply NoDup_cons in Hn as [Hni Hn].
    destruct (reapOne_action _ _ _ _ _ _ _ Hreaps Wd Hrec H) as [[-> ->]|(Ha & Hk & Hcnt & Hj)]; [done|]. split_and!.
    + by eapply action_wf.
    + done.
    + apply Forall_forall. intros rec' Hin. rewrite Forall_forall in Hl. destruct (Hl rec' Hin) as (t & (Ht & ? & ?) & ? & ?). exists t. unfold bound.
      rewrite Hk, Hcnt; [done|]. intros E. apply Hni. rewrite <- E. by apply list_elem_of_fmap_2.
    + by eapply rtc_r.
    + intros j Hin. destruct (Hj j Hin) as [?|?]; [|done]. eapply claim_stable; eauto.
Qed.

Lemma FailStale_refines s e db acc db' : reaps -> wf db -> FailStaleTasksTx uuid_Parse s e db = inr (acc, db') ->
  rtc action db db' /\ wf db' /\ forall j, j ∈ failedJobs acc -> claim db' j JobFailed.
Proof.
  intros Hreaps W H. unfold FailStaleTasksTx in H. tx_inv.
  repeat match goal with H : foldTx (fun _ _ => Emit _ _) _ _ _ = _ |- _ => apply foldTx_emit in H as [? ->] end.
  destruct (stales_spec (locked e) (replicaIndex s) db) as [H1 H2].
  match goal with H : foldTx (reapOne _ _) _ _ _ = _ |- _ => destruct (reap_fold _ _ _ _ _ _ Hreaps W H2 H1 H) as (Hr & W' & Hcl) end.
  match goal with |- rtc action db (withOUTBOX ?o (withOUTBOX ?o' ?d)) /\ _ => assert (Ho : action d (withOUTBOX o (withOUTBOX o' d))) by (by apply act_other) end.
  split; [by eapply rtc_r|]. split; [by eapply action_wf|]. intros j Hj. eapply claim_stable; eauto.
Qed.

(** The reaper takes jobs to Cleaning, and to no other state. *)
Lemma FailStale_jobs s e db acc db' j jr : FailStaleTasksTx uuid_Parse s e db = inr (acc, db') -> JOBS db !! j = Some jr ->
  exists jr', JOBS db' !! j = Some jr' /\ (j_status jr' = j_status jr \/ j_status jr' = JobCleaning).
Proof.
  intros H Hj. unfold FailStaleTasksTx in H. tx_inv. repeat match goal with H : foldTx (fun _ _ => Emit _ _) _ _ _ = _ |- _ => apply foldTx_emit in H as [? ->] end.
  cbn. match goal with H : foldTx (reapOne _ _) _ _ _ = _ |- _ => revert H end.
  apply (foldTx_inv _ (fun _ _ d => exists jr', JOBS d !! j = Some jr' /\ (j_status jr' = j_status jr \/ j_status jr' = JobCleaning))); [eauto|].
  intros rec l b d b' d' (r & Hr & Hst) H. unfold reapOne in H. destruct (freshHeartbeat s _ rec); [apply tx_ret_inv in H as [_ ->]; eauto|].
  tx_inv. case_bool_decide; tx_inv; cbn; [|eauto]. rewrite lookup_alter_onKey, Hr. cbn. eexists. split; [done|]. unfold onKey. case_decide; auto.
Qed.

(** * Submission *)

Definition inserted (j : string) (db d : DB) : Prop :=
  exists new, TASKS d = new ∪ TASKS db /\ new ##ₘ TASKS db /\ (forall tid t, new !! tid = Some t -> t_job t = j /\ t_status t = Idle /\ t_attempt t = None)
  /\ JOBS d = JOBS db /\ TASK_ATTEMPTS d = TASK_ATTEMPTS db /\ TASK_OUTPUTS d = TASK_OUTPUTS db /\ SYSTEM_CONFIG d = SYSTEM_CONFIG db.

Lemma insertSplits_inv tid splits d u d' : insertSplits tid splits d = inr (u, d') -> exists ins, d' = withINPUTS ins d.
Proof.
  unfold insertSplits. apply (foldTx_inv _ (fun _ _ d' => exists ins, d' = withINPUTS ins d)).
  - exists (TASK_INPUTS d). by destruct d.
  - intros sp l b d1 b' d2 [ins ->]. unfold QueryInsertTaskInput. case_match; [|done]. intros [= _ <-]. by eexists.
Qed.

Lemma scheduleOne_inserted j i task db d u d' : inserted j db d -> scheduleOne uuid_Parse j i task d = inr (u, d') -> inserted j db d'.
Proof.
  intros (new & ET & Hd & Hnew & EJ & EA & EO & EC) H. unfold scheduleOne in H. tx_inv.
  match goal with H : insertSplits _ _ _ = _ |- _ => apply insertSplits_inv in H as [ins ->] end.
  match goal with H : QueryInsertTask ?k _ _ _ _ = inr (_, ?d1) |- _ => unfold QueryInsertTask in H; destruct (TASKS d !! k) eqn:Ht; [done|]; case_match; [|done]; injection H as H; subst d1; rename k into tid end.
  rewrite ET in Ht. apply lookup_union_None in Ht as [Hn Hdb].
  match goal with |- context [<[_ := ?t]> _] => exists (<[tid := t]> new) end.
  split_and!; try done; cbn.
  - by rewrite ET, insert_union_l.
  - by apply map_disjoint_insert_l_2.
  - intros k t [[<- <-]|[_ Hk]]%lookup_insert_Some; [done|eauto].
Qed.

Lemma insertJob_action j user i c db d : parsed j -> d = QueryInsertJobConfig j c (QueryInsertJob j user i db) ->
  action db d /\ TASKS d = TASKS db /\ exists jr, JOBS d !! j = Some jr /\ (JOBS db !! j = Some jr \/ JOBS db !! j = None /\ j_status jr = JobPending).
Proof.
  intros Hpar ->. unfold QueryInsertJobConfig, QueryInsertJob. destruct (JOBS db !! j) as [jr|] eqn:Hj; cbn.
  - split; [destruct (JOB_CONFIGS db !! j); by apply act_other|]. split; [by case_match|]. exists jr. case_match; cbn; auto.
  - split; [destruct (JOB_CONFIGS db !! j); by apply (act_create _ _ j (mkJob user JobPending i))|]. split; [by case_match|]. eexists. split; [case_match; cbn; by rewrite lookup_insert_eq|]. by right.
Qed.

Lemma ScheduleJob_refines s req db u db' : ScheduleJobTx uuid_Parse s req db = inr (u, db') ->
  (forall j, uuid_Parse (JobID req) = Some j -> ~ someTask (fun _ => True) j db /\ forall jr, JOBS db !! j = Some jr -> j_status jr = JobPending) -> rtc action db db'.
Proof.
  unfold ScheduleJobTx, ValidateScheduleJobRequest, ValidateTaskCounts. intros H Hok. tx_inv.
  match goal with H : uuid_Parse (JobID req) = Some ?x |- _ => rename x into j; destruct (Hok j H) as [Hno Hp] end.
  match goal with H : foldTx _ _ _ ?d = inr (_, ?d') |- _ => set (d0 := d) in *; assert (Hins : inserted j d0 d') end.
  { match goal with H : foldTx _ _ _ _ = _ |- _ => revert H end. apply (foldTx_inv _ (fun _ _ d => inserted j d0 d)).
    - exists ∅. split_and!; try done; [by rewrite (left_id_L ∅ (∪))|apply map_disjoint_empty_l].
    - intros task l b d b' d'. apply scheduleOne_inserted. }
  destruct Hins as (new & ET & Hd & Hnew & EJ & EA & EO & EC). destruct (insertJob_action j _ _ _ db _ ltac:(by eexists) (eq_refl : d0 = _)) as (Ha & ETd & jr & Hjr & Hst).
  eapply rtc_l; [exact Ha|]. apply rtc_once. apply (act_schedule d0 _ j jr new); try done.
  - destruct Hst as [?|[_ ?]]; auto.
  - unfold someTask. by rewrite ETd.
Qed.

Lemma CreateJob_refines n raw user c db u db' : CreateJobTx uuid_Parse n raw user c db = inr (u, db') -> rtc action db db'.
Proof. unfold CreateJobTx. intros H. tx_inv. apply rtc_once. eapply insertJob_action; [by eexists|done]. Qed.

Lemma Upsert_refines c db u db' : okc c -> QueryUpsertSystemConfig c db = inr (u, db') -> rtc action db db'.
Proof. intros Hc. unfold QueryUpsertSystemConfig. case_match; [|done]. intros [= _ <-]. apply rtc_once. by apply (act_config db _ c). Qed.

End Handlers.
