(* ===== verification/SchedulerStatus.v ===== *)
(** The status of a job in the transactions of [Scheduler]: [ScheduleJob],
    [GetNextTask] and the reaper do not look at it.  Two states that differ in the
    statuses of jobs alone lead to the same outcome, and to states that differ in them
    alone. *)
From Stdlib Require Import ZArith Lia String.
From stdpp Require Import base gmap strings list relations.
From S2P Require Import Prelude Scheduler SchedulerSpec SchedulerFacts.

Local Open Scope Z_scope.

(** * States that differ in the statuses of jobs *)

Definition noStatus (j : JobRow) : string * Z := (j_user j, j_replica j).
Definition sameButStatus (d1 d2 : DB) : Prop := exists J, d2 = withJOBS J d1 /\ noStatus <$> J = noStatus <$> JOBS d1.

Lemma sameButStatus_refl d : sameButStatus d d.
Proof. exists (JOBS d). split; [by destruct d|done]. Qed.

Lemma status_update j st d : sameButStatus d (QueryUpdateJobStatus j st d).
Proof.
  exists (JOBS (QueryUpdateJobStatus j st d)). split; [done|]. cbn. apply map_eq. intros k. rewrite !lookup_fmap, lookup_alter_onKey. unfold onKey.
  destruct (JOBS d !! k); cbn; [|done]. by destruct (decide (k = j)).
Qed.

Lemma same_lookup (J K : gmap string JobRow) k : noStatus <$> J = noStatus <$> K -> option_Forall2 (fun x y => noStatus x = noStatus y) (J !! k) (K !! k).
Proof.
  intros E. assert (H : noStatus <$> J !! k = noStatus <$> K !! k) by (by rewrite <- !lookup_fmap, E).
  destruct (J !! k), (K !! k); cbn in H; try discriminate; constructor; unfold noStatus in *; congruence.
Qed.

(** * Transactions that do not see the difference *)

Definition blind {A} (R : A -> A -> Prop) (m1 m2 : tx A) : Prop := forall d1 d2, sameButStatus d1 d2 ->
  match m1 d1, m2 d2 with
  | inl e1, inl e2 => e1 = e2
  | inr (a1, d1'), inr (a2, d2') => R a1 a2 /\ sameButStatus d1' d2'
  | _, _ => False
  end.

Lemma blind_ret {A} (R : A -> A -> Prop) a b : R a b -> blind R (mret a) (mret b).
Proof. intros H d1 d2 Hd. by split. Qed.

Lemma blind_bind {A B} (R : A -> A -> Prop) (T : B -> B -> Prop) m1 m2 f g : blind R m1 m2 -> (forall a b, R a b -> blind T (f a) (g b)) -> blind T (m1 ≫= f) (m2 ≫= g).
Proof.
  intros Hm Hf d1 d2 Hd. specialize (Hm d1 d2 Hd). unfold mbind, tx_bind. destruct (m1 d1) as [|[a d1']], (m2 d2) as [|[b d2']]; try done.
  destruct Hm as [Ha Hd']. by apply (Hf a b).
Qed.

Lemma blind_bind_eq {A B} (T : B -> B -> Prop) (m1 m2 : tx A) f g : blind eq m1 m2 -> (forall a, blind T (f a) (g a)) -> blind T (m1 ≫= f) (m2 ≫= g).
Proof. intros Hm Hf. apply (blind_bind eq); [done|]. intros a b <-. apply Hf. Qed.

Lemma blind_guard b e : blind eq (guard b e) (guard b e).
Proof. intros d1 d2 Hd. by destruct b. Qed.

Lemma blind_someOr {A} (R : A -> A -> Prop) o1 o2 e : option_Forall2 R o1 o2 -> blind R (someOr o1 e) (someOr o2 e).
Proof. intros H d1 d2 Hd. by destruct H. Qed.

Lemma blind_someOr_eq {A} (o : option A) e : blind eq (someOr o e) (someOr o e).
Proof. apply blind_someOr. destruct o; by constructor. Qed.

Lemma blind_reads {A} (R : A -> A -> Prop) (f : DB -> A) : (forall d J, noStatus <$> J = noStatus <$> JOBS d -> R (f d) (f (withJOBS J d))) -> blind R (reads f) (reads f).
Proof. intros H d1 d2 (J & -> & HJ). cbn. split; [by apply H|by exists J]. Qed.

Lemma blind_writes f : (forall d J, noStatus <$> J = noStatus <$> JOBS d -> sameButStatus (f d) (f (withJOBS J d))) -> blind eq (writes f) (writes f).
Proof. intros H d1 d2 (J & -> & HJ). cbn. split; [done|by apply H]. Qed.

Lemma blind_orElseOn {A} (R : A -> A -> Prop) m1 m2 e k1 k2 : blind R m1 m2 -> blind R k1 k2 -> blind R (orElseOn m1 e k1) (orElseOn m2 e k2).
Proof.
  intros Hm Hk d1 d2 Hd. specialize (Hm d1 d2 Hd). unfold orElseOn. destruct (m1 d1) as [e1|[a d1']], (m2 d2) as [e2|[b d2']]; try done.
  rewrite Hm. case_decide; [by apply Hk|done].
Qed.

Lemma blind_foldTx {A B} (f : B -> A -> tx B) l b : (forall b a, blind eq (f b a) (f b a)) -> blind eq (foldTx f l b) (foldTx f l b).
Proof.
  intros Hf. revert b. induction l as [|a l IH]; intros b; [by apply blind_ret|]. intros d1 d2 Hd. rewrite !foldTx_cons. by apply (blind_bind_eq eq); [| |exact Hd].
Qed.

(** One step of a transaction; what is left are the values that [reads] gives and the
    changes that [writes] makes. *)
Ltac blind_step :=
  match goal with
  | |- blind _ (mret _) _ => apply blind_ret; try done
  | |- blind _ (guard _ _) _ => apply blind_guard
  | |- blind _ (someOr _ _) _ => apply blind_someOr_eq
  | |- blind _ (cast _ _) _ => apply blind_someOr_eq
  | |- blind _ (reads _) _ => apply blind_reads; intros ? ? ?; try done
  | |- blind _ (writes _) _ => apply blind_writes; intros ? ? ?
  | |- blind _ (orElseOn _ _ _) _ => apply blind_orElseOn
  | |- blind _ (foldTx _ _ _) _ => apply blind_foldTx; intros ? ?
  | |- blind _ (mbind _ _) _ => apply blind_bind_eq; [|intros ?]
  | |- blind _ (let '(_, _) := ?x in _) _ => destruct x
  | |- blind _ (if ?b then _ else _) _ => destruct b
  end.

Section Blind.
Context (uuid_Parse pg_uuid : string -> option string).

Lemma blind_Emit s ev : blind eq (Emit s ev) (Emit s ev).
Proof. unfold Emit. destruct (emitter s); repeat blind_step. exists J. by split. Qed.

Lemma blind_updateJobStatus j st : blind eq (updateJobStatusTx j st) (updateJobStatusTx j st).
Proof.
  unfold updateJobStatusTx. apply blind_writes. intros d J HJ. exists (alter (fun r => mkJob (j_user r) st (j_replica r)) j J). split; [done|]. cbn. apply map_eq. intros k.
  rewrite !lookup_fmap, !lookup_alter_onKey. unfold onKey. destruct (same_lookup J (JOBS d) k HJ) as [x y E|]; cbn; [|done]. destruct (decide (k = j)); [|by rewrite E].
  unfold noStatus in *. cbn. congruence.
Qed.

Lemma blind_updTask k f : blind eq (updTask k f) (updTask k f).
Proof. unfold updTask. blind_step. exists J. by split. Qed.

Lemma blind_updAttempt k f : blind eq (updAttempt k f) (updAttempt k f).
Proof. unfold updAttempt. blind_step. exists J. by split. Qed.

(** A statement that neither reads nor writes [JOBS]. *)
Lemma blind_other {A} (m : tx A) : (forall d J, m (withJOBS J d) = match m d with inl e => inl e | inr (a, d') => inr (a, withJOBS J d') end) ->
  (forall d a d', m d = inr (a, d') -> JOBS d' = JOBS d) -> blind eq m m.
Proof.
  intros Hm HJ d1 d2 (J & -> & E). rewrite Hm. destruct (m d1) as [e|[a d]] eqn:Hd; [done|]. split; [done|]. exists J. split; [done|]. by rewrite (HJ _ _ _ Hd).
Qed.

Lemma blind_hydrate tid t a l : blind eq (hydrateTaskMetadata tid t a l) (hydrateTaskMetadata tid t a l).
Proof.
  apply blind_other.
  - intros d J. unfold hydrateTaskMetadata, mbind, tx_bind, reads, someOr. cbn. by destruct (JOB_CONFIGS d !! t_job t).
  - unfold hydrateTaskMetadata. intros d x d' H. by tx_inv.
Qed.

Lemma blind_inProgress a tid : blind eq (QueryUpdateTaskInProgress a tid) (QueryUpdateTaskInProgress a tid).
Proof.
  apply blind_other; unfold QueryUpdateTaskInProgress; intros d; [intros J; cbn; destruct (TASKS d !! tid) as [t|]; [by destruct (hasStatus Idle t)|done]|].
  intros x d'. repeat case_match; by intros [= _ <-].
Qed.

Lemma blind_insertAttempt a tid w l ttl now : blind eq (QueryInsertAttempt a tid w l ttl now) (QueryInsertAttempt a tid w l ttl now).
Proof.
  apply blind_other; unfold QueryInsertAttempt; intros d; [intros J; cbn; destruct (TASK_ATTEMPTS d !! a); [done|by destruct (int4pos ttl)]|].
  intros x d'. repeat case_match; by intros [= _ <-].
Qed.

Lemma blind_assign s e raw w ty : blind eq (tryAssignTask uuid_Parse pg_uuid s e raw w ty) (tryAssignTask uuid_Parse pg_uuid s e raw w ty).
Proof.
  unfold tryAssignTask, enforceQuotaTx, readQuotaSnapshotTx. repeat (blind_step || apply blind_hydrate || apply blind_inProgress || apply blind_insertAttempt).
Qed.

Lemma blind_empty j : blind eq (QueryCompleteEmptyReduceTasks j) (QueryCompleteEmptyReduceTasks j).
Proof. apply blind_other; [done|]. unfold QueryCompleteEmptyReduceTasks. by intros d x d' [= _ <-]. Qed.

Lemma blind_next s e raw w : blind eq (GetNextTaskTx uuid_Parse pg_uuid s e raw w) (GetNextTaskTx uuid_Parse pg_uuid s e raw w).
Proof.
  unfold GetNextTaskTx, autoCompleteEmptyReducesTx. do 6 (blind_step; [repeat blind_step|]).
  apply (blind_bind (option_Forall2 (fun x y => noStatus x = noStatus y))); [apply blind_reads; intros d J HJ; by apply same_lookup|]. intros o1 o2 Ho.
  apply (blind_bind (fun x y => noStatus x = noStatus y)); [by apply blind_someOr|]. intros x y Hxy. injection Hxy as _ ->.
  repeat (blind_step || apply blind_assign || apply blind_updateJobStatus || apply blind_Emit || apply blind_empty).
Qed.

(** ** The reaper *)

Lemma blind_ofReplica i d J t : noStatus <$> J = noStatus <$> JOBS d -> ofReplica i (withJOBS J d) t = ofReplica i d t.
Proof. intros HJ. unfold ofReplica. cbn. destruct (same_lookup J (JOBS d) (t_job t) HJ) as [x y E|]; [|done]. by injection E as _ ->. Qed.

Lemma blind_reap s e : blind eq (FailStaleTasksTx uuid_Parse s e) (FailStaleTasksTx uuid_Parse s e).
Proof.
  unfold FailStaleTasksTx, reapOne. repeat (blind_step || apply blind_updTask || apply blind_updAttempt || apply blind_updateJobStatus || apply blind_Emit).
  unfold QuerySelectStaleTasks. cbn. apply list_omap_ext. apply Forall_Forall2_diag, Forall_forall. intros [tid t] _. unfold staleRow. destruct (t_attempt t) as [a|]; [|done]. cbn.
  destruct (TASK_ATTEMPTS d !! a); [|done]. cbn. by rewrite blind_ofReplica.
Qed.

(** ** Submission *)

Lemma blind_insertTask tid j ty i : blind eq (QueryInsertTask tid j ty i) (QueryInsertTask tid j ty i).
Proof.
  apply blind_other; unfold QueryInsertTask; intros d; [intros J; cbn; destruct (TASKS d !! tid); [done|by destruct (int4nat i)]|].
  intros x d'. repeat case_match; by intros [= _ <-].
Qed.

Lemma blind_insertInput tid u a b c : blind eq (QueryInsertTaskInput tid u a b c) (QueryInsertTaskInput tid u a b c).
Proof.
  apply blind_other; unfold QueryInsertTaskInput; intros d; [intros J; by destruct (_ && _)|]. intros x d'. case_match; by intros [= _ <-].
Qed.

Lemma blind_insertJob j u i : blind eq (writes (QueryInsertJob j u i)) (writes (QueryInsertJob j u i)).
Proof.
  apply blind_writes. intros d J HJ. unfold QueryInsertJob. cbn. destruct (same_lookup J (JOBS d) j HJ) as [x y E|]; [by exists J|].
  exists (<[j := mkJob u JobPending i]> J). split; [done|]. cbn. by rewrite !fmap_insert, HJ.
Qed.

Lemma blind_insertConfig j c : blind eq (writes (QueryInsertJobConfig j c)) (writes (QueryInsertJobConfig j c)).
Proof. apply blind_writes. intros d J HJ. unfold QueryInsertJobConfig. cbn. exists J. split; [by case_match|]. by case_match. Qed.

Lemma blind_schedule s req : blind eq (ScheduleJobTx uuid_Parse s req) (ScheduleJobTx uuid_Parse s req).
Proof.
  unfold ScheduleJobTx, ValidateScheduleJobRequest, ValidateTaskCounts, scheduleOne, insertSplits.
  repeat (apply blind_insertJob || apply blind_insertConfig || apply blind_insertTask || apply blind_insertInput || apply blind_Emit || blind_step).
Qed.

(** * Outcomes *)

Lemma blind_run {A} c (m : tx A) d1 d2 : blind eq m m -> sameButStatus d1 d2 -> (runTx c m d2).1 = (runTx c m d1).1 /\ sameButStatus (runTx c m d1).2 (runTx c m d2).2.
Proof.
  intros Hm Hd. specialize (Hm d1 d2 Hd). unfold runTx. destruct (m d1) as [e1|[a d1']], (m d2) as [e2|[b d2']]; try done.
  - by rewrite Hm.
  - destruct Hm as [-> ?]. by destruct c.
Qed.

Lemma same_tasks d1 d2 : sameButStatus d1 d2 -> TASKS d2 = TASKS d1.
Proof. by intros (J & -> & _). Qed.

Lemma schedule_keeps_job s req db u db' j jr : ScheduleJobTx uuid_Parse s req db = inr (u, db') -> JOBS db !! j = Some jr -> JOBS db' !! j = Some jr.
Proof.
  unfold ScheduleJobTx, ValidateScheduleJobRequest, ValidateTaskCounts. intros H Hj. tx_inv. cbn.
  match goal with H : uuid_Parse (JobID req) = Some ?x |- _ => rename x into k end.
  match goal with H : foldTx _ _ _ ?d = inr (_, ?d') |- _ => set (d0 := d) in *; assert (Hd : JOBS d0 !! j = Some jr); [|revert H] end.
  { unfold d0, QueryInsertJobConfig, QueryInsertJob. destruct (JOBS db !! k) eqn:Hk; cbn; case_match; cbn; try done; rewrite lookup_insert_ne; congruence. }
  apply (foldTx_inv _ (fun _ _ d => JOBS d !! j = Some jr)); [done|]. intros task l b d b' d' Hd' E.
  assert (inserted k d d') as (new & _ & _ & _ & -> & _); [|done]. eapply scheduleOne_inserted; [|exact E].
  exists ∅. split_and!; try done; [by rewrite (left_id_L ∅ (∪))|apply map_disjoint_empty_l].
Qed.

Lemma next_runs_job s e raw w db task db' j : GetNextTaskTx uuid_Parse pg_uuid s e raw w db = inr (inl task, db') -> pg_uuid raw = Some j -> j_status <$> JOBS db' !! j = Some JobRunning.
Proof.
  assert (Hrun : forall d, is_Some (JOBS d !! j) -> j_status <$> JOBS (QueryUpdateJobStatus j JobRunning d) !! j = Some JobRunning).
  { intros d [r Hr]. cbn. by rewrite lookup_alter_eq, Hr. }
  unfold GetNextTaskTx. intros H. tx_inv. match goal with H : pg_uuid raw = Some ?x |- _ => rewrite H; intros [= ->] end.
  match goal with H : JOBS _ !! j = Some _ |- _ => rename H into Hj end.
  match goal with H : orElseOn _ _ _ _ = _ |- _ => apply orElseOn_inv in H as [H|H]; tx_inv end.
  - match goal with H : tryAssignTask _ _ _ _ _ _ _ _ = _ |- _ => apply tryAssign_inv in H as (? & ? & ? & _ & _ & _ & _ & _ & _ & _ & _ & _ & ->) end. apply Hrun. by eexists.
  - match goal with H : orElseOn _ _ _ _ = _ |- _ => apply orElseOn_inv in H as [H|H]; tx_inv end.
    match goal with H : tryAssignTask _ _ _ _ _ _ _ _ = _ |- _ => apply tryAssign_inv in H as (? & ? & ? & _ & _ & _ & _ & _ & _ & _ & _ & _ & ->) end. apply Hrun. cbn.
    match goal with H : autoCompleteEmptyReducesTx _ _ = _ |- _ => unfold autoCompleteEmptyReducesTx in H; apply tx_bind_inv in H as (? & ? & [= _ <-] & H) end.
    case_bool_decide; tx_inv; [by eexists|]. case_match; tx_inv; [apply jobTo_is_Some|]; by eexists.
Qed.

Lemma stale_job lk i db rec : rec ∈ QuerySelectStaleTasks lk i db -> is_Some (JOBS db !! st_job rec).
Proof.
  unfold QuerySelectStaleTasks. intros ([tid t] & _ & H)%list_elem_of_omap. unfold staleRow in H. destruct (t_attempt t) as [a|]; [|done]. cbn in H.
  destruct (TASK_ATTEMPTS db !! a); [|done]. cbn in H. destruct (_ && _) eqn:E; [|done]. injection H as <-. cbn. boolprop. unfold ofReplica in *. destruct (JOBS db !! t_job t); [by eexists|done].
Qed.

Lemma reap_cleans_job s e db acc db' j : FailStaleTasksTx uuid_Parse s e db = inr (acc, db') -> j ∈ failedJobs acc -> j_status <$> JOBS db' !! j = Some JobCleaning.
Proof.
  unfold FailStaleTasksTx. intros H Hin. tx_inv. repeat match goal with H : foldTx (fun _ _ => Emit _ _) _ _ _ = _ |- _ => apply foldTx_emit in H as [? ->] end. cbn.
  set (I := fun (l : list staleRec) acc d => Forall (fun r => is_Some (JOBS d !! st_job r)) l /\ forall k, k ∈ failedJobs acc -> j_status <$> JOBS d !! k = Some JobCleaning).
  match goal with H : foldTx (reapOne _ _) _ _ _ = inr (?acc', ?d) |- _ => enough (I [] acc' d) as [_ HI]; [by apply HI|]; revert H; apply (foldTx_inv _ I) end; unfold I.
  - split; [apply Forall_forall; intros rec; apply stale_job|]. cbn. intros k Hk. by apply elem_of_empty in Hk.
  - intros rec l b d b' d' [Hl Hb] E. inversion Hl as [|? ? Hrec Hl']; subst. unfold reapOne in E. destruct (freshHeartbeat s _ rec); [by apply tx_ret_inv in E as [-> ->]|].
    tx_inv. case_bool_decide; tx_inv; [|done]. cbn. split.
    + eapply Forall_impl; [exact Hl'|]. intros r Hr. by rewrite lookup_alter_is_Some.
    + intros k. rewrite elem_of_union, elem_of_singleton, lookup_alter_onKey. intros Hk. destruct (decide (k = st_job rec)) as [->|Hne].
      * destruct Hrec as [r ->]. cbn. by rewrite onKey_eq.
      * destruct Hk as [?|Hk]; [done|]. specialize (Hb k Hk). destruct (JOBS d !! k); [|done]. cbn in *. by rewrite onKey_ne.
Qed.

End Blind.
