(* ===== verification/SchedulerSystem.v ===== *)
(** The managers and the database together: any number of replicas, each with its
    own memory, that handle requests, reap, clean up, crash and start again in any
    order.  [exec] runs one operation; the theorems hold in every state that a
    sequence of operations leads to from the empty database. *)
From Stdlib Require Import ZArith Lia String.
From stdpp Require Import base gmap strings list relations.
From S2P Require Import Prelude Scheduler SchedulerSpec SchedulerFacts.

Local Open Scope string_scope.
Local Open Scope Z_scope.

(** What is relied on of the uuid package and of PostgreSQL: the text that Go prints
    for a parsed uuid is read by PostgreSQL as that uuid, and printed the same way. *)
Class UuidText (uuid_Parse pg_uuid : string -> option string) : Prop :=
  pg_reads_parsed : forall s u, uuid_Parse s = Some u -> pg_uuid u = Some u.

(** An entry of [w_popped] is a goroutine of the reconciler that has not run yet. *)
Record world := mkWorld { w_db : DB; w_mgr : gmap Z Scheduler; w_popped : list (Z * (string * option JobState)) }.
(** Before the first manager starts: empty tables, and the row of [SYSTEM_CONFIG] if the
    migrations have inserted one. *)
Definition initWorld (c : option SystemConfigUpdate) : world := mkWorld (withCONFIG c emptyDB) ∅ [].

Inductive op :=
| OpCreate (totalReplicas : Z) (jobID : string) (user : option string) (c : JobConfigRow) (commits : bool)
| OpSchedule (e : callEnv) (req : ScheduleJobRequest)
| OpNext (e : callEnv) (jobID workerID : string)
| OpComplete (e : callEnv) (taskID attemptID leaseID : string) (outputURIs outputChecksums : list string)
| OpRenew (e : callEnv) (taskID attemptID leaseID : string)
| OpFail (e : callEnv) (taskID attemptID leaseID reason : string)
| OpCancel (e : callEnv) (jobID : string)
| OpReap (e : callEnv)
| OpRespawn (succeeds : bool) (jobID : string)
| OpConfig (e : callEnv) (c : SystemConfigUpdate)
| OpPop (order : list string) (limit : Z)
| OpReconcile (ce : cleanupEnv) (jobID : string) (terminalState : option JobState)
| OpStart (totalReplicas : Z) (addr : string) (ttl : Z) (staging : bool) (em : emitterKind) (skew sampleN : Z).

Section System.
Context (uuid_Parse pg_uuid : string -> option string).
Notation parsed := (fun j => exists s, uuid_Parse s = Some j).
(** The configurations that administrators set. *)
Context (okc : SystemConfigUpdate -> Prop).
Notation action := (SchedulerSpec.action parsed okc).

(** A manager process as [main] sets it up. *)
Definition start (i totalReplicas : Z) (addr : string) (ttl : Z) (staging : bool) (em : emitterKind) (skew sampleN : Z) (db : DB) : Scheduler * DB :=
  let s := SetHeartbeatEventSampleN sampleN (SetEventEmitter em (SetLeaseClockSkewSeconds skew (NewScheduler i totalReplicas addr ttl staging))) in
  let '(s, db) := Recover s db in
  (StartCleanupReconciler pg_uuid s db, db).

(** The operation on the manager's memory and on the tables. *)
Definition handle (o : op) (s : Scheduler) (db : DB) : Scheduler * DB :=
  match o with
  | OpCreate n j u c ok => (s, (runTx ok (CreateJobTx uuid_Parse n j u c) db).2)
  | OpSchedule e req => let '(_, s', db') := ScheduleJob uuid_Parse s e req db in (s', db')
  | OpNext e j w => let '(_, s', db') := GetNextTask uuid_Parse pg_uuid s e j w db in (s', db')
  | OpComplete e t a l us cs => let '(_, s', db') := CompleteTask uuid_Parse pg_uuid s e t a l us cs db in (s', db')
  | OpRenew e t a l => let '(_, s', db') := RenewLease uuid_Parse pg_uuid s e t a l db in (s', db')
  | OpFail e t a l r => let '(_, s', db') := FailTask uuid_Parse pg_uuid s e t a l r db in (s', db')
  | OpCancel e j => let '(_, s', db') := CancelJob uuid_Parse pg_uuid s e j db in (s', db')
  | OpReap e => let '(_, s', db') := FailStaleTasksCommit uuid_Parse s e db in (s', db')
  | OpRespawn ok j => respawnJob ok (s, db) j
  | OpConfig e c => (s, (UpsertSystemConfig e c db).2)
  | OpPop order limit => ((popPendingCleanup order limit s).2, db)
  | OpReconcile ce j st => reconcileOne pg_uuid s ce j st db
  | OpStart _ _ _ _ _ _ _ => (s, db)
  end.

Definition exec (i : Z) (o : op) (w : world) : world :=
  match o with
  | OpStart n addr ttl staging em skew sampleN =>
      let '(s, db) := start i n addr ttl staging em skew sampleN (w_db w) in
      mkWorld db (<[i := s]> (w_mgr w)) (filter (fun p => p.1 <> i) (w_popped w))
  | _ =>
      match w_mgr w !! i with
      | None => w
      | Some s =>
          match o with
          | OpPop order limit =>
              let '(jobs, s') := popPendingCleanup order limit s in
              mkWorld (w_db w) (<[i := s']> (w_mgr w)) (w_popped w ++ map (pair i) (map_to_list jobs))
          | OpReconcile ce j st =>
              if bool_decide ((i, (j, st)) ∈ w_popped w)
              then let '(s', db') := reconcileOne pg_uuid s ce j st (w_db w) in mkWorld db' (<[i := s']> (w_mgr w)) (list_difference (w_popped w) [(i, (j, st))])
              else w
          | _ => let '(s', db') := handle o s (w_db w) in mkWorld db' (<[i := s']> (w_mgr w)) (w_popped w)
          end
      end
  end.
Definition runOps (ops : list (Z * op)) (w : world) : world := foldl (fun w io => exec io.1 io.2 w) w ops.

(** [FailStaleTasks] is its transaction, and then one statement for each job. *)
Lemma FailStaleTasks_is_run w i s e r s' db' : w_mgr w !! i = Some s -> FailStaleTasks uuid_Parse s e (w_db w) = (r, s', db') ->
  exists jobs, runOps ((i, OpReap e) :: map (fun j => (i, OpRespawn true j)) jobs) w = mkWorld db' (<[i := s']> (w_mgr w)) (w_popped w).
Proof.
  intros Hi. unfold FailStaleTasks. destruct (FailStaleTasksCommit uuid_Parse s e (w_db w)) as [[r0 s0] d0] eqn:E.
  assert (Ex : exec i (OpReap e) w = mkWorld d0 (<[i := s0]> (w_mgr w)) (w_popped w)) by (unfold exec; cbn; by rewrite Hi, E).
  destruct r0 as [err|acc].
  - intros [= _ <- <-]. exists []. unfold runOps. cbn [foldl fst snd map]. by rewrite Ex.
  - generalize (elements (list_to_set (respawnJobs acc) : gset string)). intros jobs H. exists jobs. unfold runOps. cbn [foldl fst snd]. rewrite Ex. clear E Ex. revert s0 d0 H.
    induction jobs as [|j jobs IH]; intros s0 d0 H; cbn [foldl map] in *; [by injection H as _ <- <-|].
    unfold exec at 2. cbn [w_mgr fst snd handle]. rewrite lookup_insert_eq. destruct (respawnJob true (s0, d0) j) as [s1 d1] eqn:Er. cbn [w_db w_popped w_mgr].
    rewrite Er, insert_insert_eq. by apply IH.
Qed.

(** A job is submitted once, and before it is cancelled, which [ScheduleJob] itself does
    not check; the configuration is one of [okc]. *)
Definition submittedOnce (o : op) (w : world) : Prop :=
  match o with
  | OpSchedule _ req => forall j, uuid_Parse (JobID req) = Some j ->
      ~ someTask (fun _ => True) j (w_db w) /\ forall jr, JOBS (w_db w) !! j = Some jr -> j_status jr = JobPending
  | OpConfig _ c => okc c
  | _ => True
  end.
Inductive reach : world -> Prop :=
| reach_init c : (forall x, c = Some x -> okc x) -> reach (initWorld c)
| reach_step w i o : reach w -> submittedOnce o w -> reach (exec i o w).
(** The condition along a run. *)
Fixpoint onceAlong (ops : list (Z * op)) (w : world) : Prop :=
  match ops with [] => True | (i, o) :: ops => submittedOnce o w /\ onceAlong ops (exec i o w) end.

(** * The invariant *)

Definition entryOK (db : DB) (k : string) (o : option JobState) : Prop :=
  match o with Some st => forall j, pg_uuid k = Some j -> claim db j st | None => pg_uuid k = None end.
Definition memStep (db' : DB) (s s' : Scheduler) : Prop :=
  replicaIndex s' = replicaIndex s /\ forall k o, pendingCleanup s' !! k = Some o -> pendingCleanup s !! k = Some o \/ entryOK db' k o.
Record inv (w : world) : Prop := mkInv {
  inv_wf : wf (w_db w);
  inv_ids : canonical parsed (w_db w);
  inv_mgr : forall i s k o, w_mgr w !! i = Some s -> pendingCleanup s !! k = Some o -> entryOK (w_db w) k o;
  inv_replica : forall i s, w_mgr w !! i = Some s -> replicaIndex s = i;
  inv_popped : forall p, p ∈ w_popped w -> entryOK (w_db w) p.2.1 p.2.2 }.

Lemma memStep_refl db s : memStep db s s.
Proof. split; auto. Qed.

Lemma memStep_same db s s' : replicaIndex s' = replicaIndex s -> pendingCleanup s' = pendingCleanup s -> memStep db s s'.
Proof. intros E1 E2. split; [done|]. rewrite E2. auto. Qed.

Lemma memStep_trans db s1 s2 s3 : memStep db s1 s2 -> memStep db s2 s3 -> memStep db s1 s3.
Proof. intros [E1 H1] [E2 H2]. split; [congruence|]. intros k o Hk. destruct (H2 k o Hk); auto. Qed.

Lemma memStep_from db s0 s s' : replicaIndex s0 = replicaIndex s -> pendingCleanup s0 = pendingCleanup s -> memStep db s0 s' -> memStep db s s'.
Proof. intros E1 E2. apply memStep_trans. by apply memStep_same. Qed.

Lemma memStep_enqueue db k o s : entryOK db k o -> memStep db s (enqueueCleanup k o s).
Proof.
  intros H. unfold enqueueCleanup. destruct (blankString k); [apply memStep_refl|]. split; [done|]. cbn. intros k' o' [[<- <-]|[_ ?]]%lookup_insert_Some; auto.
Qed.

Lemma entryOK_run R Q db db' k o : rtc (action R Q) db db' -> wf db -> entryOK db k o -> entryOK db' k o.
Proof. intros Hr W. destruct o as [st|]; [|done]. intros H j Hj. eapply claim_run; eauto. Qed.

Lemma claim_cleaning db db' j st : JOBS db' = jobTo j JobCleaning db -> is_Some (JOBS db !! j) -> terminal st -> jobOK db' j st -> claim db' j st.
Proof.
  intros E [jr Hj] Ht Hok. split; [done|]. split; [done|]. exists (mkJob (j_user jr) JobCleaning (j_replica jr)).
  rewrite E. split; [|by intros [?|?]]. apply lookup_jobTo. exists jr. by rewrite decide_True.
Qed.

Context `{!UuidText uuid_Parse pg_uuid}.

Lemma entry_canonical db db' j st : canonical parsed db -> is_Some (JOBS db !! j) -> claim db' j st -> entryOK db' j (Some st).
Proof. intros Hc Hj H k Hk. destruct (Hc j Hj) as [s Hs]. apply pg_reads_parsed in Hs. congruence. Qed.

(** * One operation of a manager *)

Definition stepOK (R Q : Prop) (s : Scheduler) (db : DB) (s' : Scheduler) (db' : DB) : Prop := rtc (action R Q) db db' /\ memStep db' s s'.

Lemma stepOK_same R Q s db : stepOK R Q s db s db.
Proof. split; [done|apply memStep_refl]. Qed.

Lemma GetNextTask_step R Q s e j w db r s' db' : GetNextTask uuid_Parse pg_uuid s e j w db = (r, s', db') -> stepOK R Q s db s' db'.
Proof.
  unfold GetNextTask. destruct (GetNextTaskTx uuid_Parse pg_uuid s e j w db) as [err|[[task|[err jd]] d]] eqn:H.
  - intros [= _ <- <-]. apply stepOK_same.
  - apply (GetNextTask_refines uuid_Parse pg_uuid (okc := okc) (restarts := R) (reaps := Q)) in H as [Hr _]. case_match; intros [= _ <- <-]; (split; [done|by apply memStep_same]).
  - apply (GetNextTask_refines uuid_Parse pg_uuid (okc := okc) (restarts := R) (reaps := Q)) in H as (Hr & jj & Hj & _ & Hd). case_match; intros [= _ <- <-]; [|apply stepOK_same].
    split; [done|]. destruct jd; [|apply memStep_refl]. destruct (Hd _ eq_refl) as (Hall & EJ & Hs). apply memStep_enqueue. intros k Hk.
    replace k with jj by congruence. eapply claim_cleaning; eauto. by left.
Qed.

Lemma runTx_cases {A} c (m : tx A) db (r : error + A) db' : runTx c m db = (r, db') -> (exists e, r = inl e /\ db' = db) \/ exists a, r = inr a /\ m db = inr (a, db').
Proof. unfold runTx. destruct (m db) as [e|[a d]]; [|destruct c]; intros [= <- <-]; eauto. Qed.

Lemma CompleteTask_step R Q s e t a l us cs db r s' db' : canonical parsed db -> CompleteTask uuid_Parse pg_uuid s e t a l us cs db = (r, s', db') -> stepOK R Q s db s' db'.
Proof.
  intros Hc. unfold CompleteTask. destruct (runTx _ _ db) as [r0 d] eqn:H. apply runTx_cases in H as [(err & -> & ->)|([j jc] & -> & H)]; intros [= _ <- <-]; [apply stepOK_same|].
  apply (CompleteTask_refines uuid_Parse pg_uuid (okc := okc) (restarts := R) (reaps := Q)) in H as (tid & t0 & ar & _ & _ & _ & (jr & Hjr & _) & _ & _ & _ & Ha & _ & _ & Hd). split; [by apply rtc_once|].
  apply (memStep_from _ (withHeartbeats (delete a (heartbeats s)) s)); [done|done|]. destruct jc; [|apply memStep_refl]. destruct (Hd eq_refl) as [Hall EJ]. apply memStep_enqueue.
  eapply entry_canonical; [exact Hc|by eexists|]. eapply claim_cleaning; eauto. by left.
Qed.

Lemma FailTask_step R Q s e t a l why db r s' db' : canonical parsed db -> FailTask uuid_Parse pg_uuid s e t a l why db = (r, s', db') -> stepOK R Q s db s' db'.
Proof.
  intros Hc. unfold FailTask. destruct (runTx _ _ db) as [r0 d] eqn:H. apply runTx_cases in H as [(err & -> & ->)|([j st] & -> & H)]; intros [= _ <- <-]; [apply stepOK_same|].
  apply (FailTask_refines uuid_Parse pg_uuid (okc := okc) (restarts := R) (reaps := Q)) in H as (tid & t0 & ar & _ & _ & _ & (jr & Hjr & _) & _ & _ & Ha & Hd). split; [by apply rtc_once|].
  apply (memStep_from _ (withHeartbeats (delete a (heartbeats s)) s)); [done|done|]. case_bool_decide as Hst; [|apply memStep_refl]. destruct (Hd Hst) as [Hsome EJ]. apply memStep_enqueue.
  eapply entry_canonical; [exact Hc|by eexists|]. eapply claim_cleaning; eauto. by right; left.
Qed.

Lemma CancelJob_step R Q s e j db r s' db' : CancelJob uuid_Parse pg_uuid s e j db = (r, s', db') -> stepOK R Q s db s' db'.
Proof.
  unfold CancelJob. destruct (runTx _ _ db) as [r0 d] eqn:H. apply runTx_cases in H as [(err & -> & ->)|(ids & -> & H)].
  { destruct err; intros [= _ <- <-]; apply stepOK_same. }
  intros [= _ <- <-]. apply (CancelJob_refines uuid_Parse pg_uuid (okc := okc) (restarts := R) (reaps := Q)) in H as (jj & Hj & Hs & Ha & Hset & EJ). split; [by apply rtc_once|].
  apply (memStep_from _ (withHeartbeats (foldr delete (heartbeats s) ids) s)); [done|done|]. apply memStep_enqueue. intros k Hk. replace k with jj by congruence. eapply claim_cleaning; eauto. by right; right.
Qed.

Lemma FailStale_step R Q s e db r s' db' : Q -> wf db -> canonical parsed db -> FailStaleTasksCommit uuid_Parse s e db = (r, s', db') -> stepOK R Q s db s' db'.
Proof.
  intros HQ W Hc. unfold FailStaleTasksCommit. destruct (runTx _ _ db) as [r0 d] eqn:H. apply runTx_cases in H as [(err & -> & ->)|(acc & -> & H)]; intros [= _ <- <-]; [apply stepOK_same|].
  destruct (FailStale_refines uuid_Parse (okc := okc) (restarts := R) (reaps := Q) s e db acc d HQ W H) as (Hr & W' & Hcl). split; [done|].
  assert (Hc' : canonical parsed d) by (eapply (rtc_keeps (canonical parsed)); eauto using action_canonical).
  assert (Hel : forall j, j ∈ elements (failedJobs acc) -> claim d j JobFailed) by (intros j Hj%elem_of_elements; auto). revert Hel. generalize (elements (failedJobs acc)).
  intros l Hl. enough (H' : forall s1, memStep d s s1 -> memStep d s (foldl (fun s jobID => enqueueCleanup jobID (Some JobFailed) s) s1 l)) by apply H', memStep_refl.
  induction l as [|j l IH]; intros s1 Hs1; [done|]. cbn. apply IH; [intros k Hk; apply Hl; by right|]. eapply memStep_trans; [exact Hs1|]. apply memStep_enqueue.
  assert (Hj : claim d j JobFailed) by (apply Hl; by left). eapply entry_canonical; [exact Hc'| |exact Hj]. destruct Hj as (_ & _ & jr & ? & _). by eexists.
Qed.

Lemma ScheduleJob_step R Q s e req db r s' db' : ScheduleJob uuid_Parse s e req db = (r, s', db') ->
  (forall j, uuid_Parse (JobID req) = Some j -> ~ someTask (fun _ => True) j db /\ forall jr, JOBS db !! j = Some jr -> j_status jr = JobPending) -> stepOK R Q s db s' db'.
Proof.
  intros H Hok. unfold ScheduleJob in H. destruct (runTx _ _ db) as [r0 d] eqn:E. apply runTx_cases in E as [(err & -> & ->)|([] & -> & E)]; injection H as _ <- <-; [apply stepOK_same|].
  split; [by eapply ScheduleJob_refines|by apply memStep_same].
Qed.

Lemma RenewLease_step R Q s e t a l db r s' db' : RenewLease uuid_Parse pg_uuid s e t a l db = (r, s', db') -> stepOK R Q s db s' db'.
Proof. intros (E1 & E2 & Hr)%(RenewLease_refines uuid_Parse pg_uuid (okc := okc) (restarts := R) (reaps := Q)). split; [done|by apply memStep_same]. Qed.

Lemma respawn_step R Q ok s db j s' db' : respawnJob ok (s, db) j = (s', db') -> stepOK R Q s db s' db'.
Proof. intros [= <- <-]. split; [|by apply memStep_same]. destruct ok; [|done]. apply rtc_once. by apply (act_respawn db _ j). Qed.

Lemma finalize_step R Q s ce k st db s' db' : entryOK db k (Some st) -> wf db -> finalizeJob pg_uuid s ce k st db = (s', db') -> stepOK R Q s db s' db'.
Proof.
  intros Hok W. unfold finalizeJob. case_match; [intros [= <- <-]; split; [done|by apply memStep_enqueue]|].
  destruct (runTx _ _ db) as [r0 d] eqn:E. apply runTx_cases in E as [(err & -> & ->)|(old & -> & E)]; [intros [= <- <-]; split; [done|by apply memStep_enqueue]|].
  assert (Ha : action R Q db d).
  { pose proof (applyJobTransition_inv _ _ _ _ _ _ E) as (j0 & _ & Hj0 & _). destruct (Hok j0 Hj0) as (Hterm & _).
    eapply finalize_action; [exact E| |done]. intros j Hj. by destruct (Hok j Hj) as (_ & ? & _). }
  assert (Hok' : entryOK d k (Some st)) by (intros j Hj; eapply claim_stable; eauto).
  case_match; intros [= <- <-]; (split; [by apply rtc_once|]); [by apply memStep_same|].
  apply (memStep_from _ (withCalls [OrchCancelJob k] s)); [done|done|by apply memStep_enqueue].
Qed.

Lemma reconcile_step R Q s ce k o db s' db' : entryOK db k o -> wf db -> reconcileOne pg_uuid s ce k o db = (s', db') -> stepOK R Q s db s' db'.
Proof.
  intros Hok W. unfold reconcileOne. destruct o as [st|]; [by apply finalize_step|]. cbn in Hok. unfold determineCleaningTerminalState, cast, mbind, tx_bind, someOr. rewrite Hok. cbn.
  intros [= <- <-]. split; [done|by apply memStep_enqueue].
Qed.

(** * Every operation keeps the invariant *)

Lemma canonical_run R Q db db' : rtc (action R Q) db db' -> wf db -> canonical parsed db -> canonical parsed db'.
Proof. intros Hr W Hc. eapply (rtc_keeps (canonical parsed)); eauto using action_canonical. Qed.

Lemma inv_step R Q w i s s' db' popped : inv w -> w_mgr w !! i = Some s -> stepOK R Q s (w_db w) s' db' -> (forall p, p ∈ popped -> p ∈ w_popped w) ->
  inv (mkWorld db' (<[i := s']> (w_mgr w)) popped).
Proof.
  intros I Hi [Hr [E Hm]] Hp. pose proof (inv_wf _ I) as W. split; cbn.
  - by eapply wf_run.
  - eapply canonical_run; eauto. by apply inv_ids.
  - intros j sj k o [[<- <-]|[_ Hj]]%lookup_insert_Some Hk; [|eapply entryOK_run; eauto; by eapply inv_mgr].
    destruct (Hm k o Hk); [|done]. eapply entryOK_run; eauto. by eapply inv_mgr.
  - intros j sj [[<- <-]|[_ Hj]]%lookup_insert_Some; [rewrite E|]; by eapply inv_replica.
  - intros p Hin. eapply entryOK_run; eauto. by eapply inv_popped, Hp.
Qed.

Lemma create_step R Q n j u c ok db : rtc (action R Q) db (runTx ok (CreateJobTx uuid_Parse n j u c) db).2.
Proof. destruct (runTx _ _ db) as [r d] eqn:E. cbn. apply runTx_cases in E as [(? & _ & ->)|([] & _ & E)]; [done|by eapply CreateJob_refines]. Qed.

Lemma config_step R Q e c db : okc c -> rtc (action R Q) db (UpsertSystemConfig e c db).2.
Proof. intros Hc. unfold UpsertSystemConfig. destruct (runTx _ _ db) as [r d] eqn:E. cbn. apply runTx_cases in E as [(? & _ & ->)|([] & _ & E)]; [done|by eapply Upsert_refines]. Qed.

Definition isStart (o : op) : Prop := match o with OpStart _ _ _ _ _ _ _ => True | _ => False end.
#[global] Instance isStart_dec o : Decision (isStart o).
Proof. destruct o; cbn; apply _. Defined.
Definition isReap (o : op) : Prop := match o with OpReap _ => True | _ => False end.

Lemma handle_step R Q w i o s s' db' : inv w -> (isReap o -> Q) -> submittedOnce o w -> w_mgr w !! i = Some s -> handle o s (w_db w) = (s', db') ->
  match o with OpPop _ _ | OpReconcile _ _ _ => False | _ => True end -> stepOK R Q s (w_db w) s' db'.
Proof.
  intros I HQ Hok Hi H Hn. pose proof (inv_wf _ I) as W. pose proof (inv_ids _ I) as Hc. destruct o; cbn in H, Hok; try done.
  - injection H as <- <-. split; [apply create_step|apply memStep_refl].
  - destruct (ScheduleJob _ _ _ _ _) as [[r s1] d] eqn:E. injection H as <- <-. by eapply ScheduleJob_step.
  - destruct (GetNextTask _ _ _ _ _ _ _) as [[r s1] d] eqn:E. injection H as <- <-. by eapply GetNextTask_step.
  - destruct (CompleteTask _ _ _ _ _ _ _ _ _ _) as [[r s1] d] eqn:E. injection H as <- <-. by eapply CompleteTask_step.
  - destruct (RenewLease _ _ _ _ _ _ _ _) as [[r s1] d] eqn:E. injection H as <- <-. by eapply RenewLease_step.
  - destruct (FailTask _ _ _ _ _ _ _ _ _) as [[r s1] d] eqn:E. injection H as <- <-. by eapply FailTask_step.
  - destruct (CancelJob _ _ _ _ _ _) as [[r s1] d] eqn:E. injection H as <- <-. by eapply CancelJob_step.
  - destruct (FailStaleTasksCommit _ _ _ _) as [[r s1] d] eqn:E. injection H as <- <-. by eapply FailStale_step; eauto; apply HQ.
  - by eapply respawn_step.
  - injection H as <- <-. split; [by apply config_step|apply memStep_refl].
  - injection H as <- <-. apply stepOK_same.
Qed.

Lemma determine_claim j db st d jr : wf db -> canonical parsed db -> JOBS db !! j = Some jr -> j_status jr = JobCleaning ->
  determineCleaningTerminalState pg_uuid j db = inr (st, d) -> claim db j st.
Proof.
  intros W Hc Hj Hs. pose proof (wf_job _ W j jr Hj) as Hok. rewrite Hs in Hok. cbn in Hok. destruct (Hc j) as [x Hx]; [by eexists|]. apply pg_reads_parsed in Hx.
  unfold determineCleaningTerminalState, cast, mbind, tx_bind, someOr, reads. rewrite Hx. cbn.
  assert (Hrest : exists jr, JOBS db !! j = Some jr /\ ~ active (j_status jr)) by (exists jr; split; [done|]; rewrite Hs; by intros [?|?]).
  destruct (Z.ltb_spec 0 (QueryCountFailedTasks j db)) as [Hf|Hf]; cbn.
  - intros [= <- _]. split; [by right; left|]. split; [|done]. destruct (countTasks_pos (fun t => ofJob j t && hasStatus Failed t) db) as (tid & t & Ht & Hp); [unfold QueryCountFailedTasks in Hf; lia|].
    apply andb_true_iff in Hp as [? ?]. exists tid, t. split; [done|]. split; [by apply ofJob_true|symmetry; by apply hasStatus_true].
  - apply noFailed in Hf. assert (Hall : allTasks (eq Completed) j db).
    { destruct Hok as [?|(tid & t & Ht & Hjt & Hst)]; [done|]. by destruct (Hf tid t Ht Hjt). }
    intros [= <- _]. destruct (Z.ltb_spec 0 (QueryCountAllPendingTasks j db)) as [Hp|Hp]; [|split; [by left|]; by split].
    exfalso. destruct (somePending db j) as (tid & t & Ht & Hjt & Hn); [lia|]. apply Hn. symmetry. by apply (Hall tid).
Qed.

Lemma start_step i n addr ttl staging em skew sampleN db s db' : wf db -> canonical parsed db -> start i n addr ttl staging em skew sampleN db = (s, db') ->
  rtc (action True False) db db' /\ replicaIndex s = i /\ forall k o, pendingCleanup s !! k = Some o -> entryOK db' k o.
Proof.
  intros W Hc. unfold start, Recover. cbn. set (d := QueryResetTasksForReplica i _). assert (Ha : action True False db d) by by apply act_recover. intros [= <- <-].
  split; [by apply rtc_once|]. pose proof (action_wf _ _ Ha W) as Wd. pose proof (action_canonical _ _ Ha Hc) as Hcd.
  match goal with |- context [StartCleanupReconciler _ ?s _] => set (s0 := s) end.
  assert (Hs0 : memStep d s0 s0) by apply memStep_refl. assert (Hp0 : forall k o, pendingCleanup s0 !! k = Some o -> entryOK d k o) by (intros k o; cbn; by rewrite lookup_empty).
  enough (memStep d s0 (StartCleanupReconciler pg_uuid s0 d)) as [E Hm].
  { split; [by rewrite E|]. intros k o Hk. destruct (Hm k o Hk); auto. }
  unfold StartCleanupReconciler. assert (Hl : forall j, j ∈ QuerySelectCleaningJobs d -> exists jr, JOBS d !! j = Some jr /\ j_status jr = JobCleaning).
  { intros j ([k jr] & -> & Hk)%list_elem_of_fmap. apply elem_of_map_to_list, map_lookup_filter_Some in Hk as [? ?]. by exists jr. }
  revert Hl. generalize (QuerySelectCleaningJobs d). intros l Hl. generalize Hs0. generalize s0 at 2 4. clear Hs0.
  induction l as [|j l IH]; intros s1 Hs1; [done|]. cbn. apply IH; [intros k Hk; apply Hl; by right|]. eapply memStep_trans; [exact Hs1|]. apply memStep_enqueue.
  destruct (Hl j) as (jr & Hj & Hst); [by left|]. destruct (determineCleaningTerminalState pg_uuid j d) as [err|[st d']] eqn:Ed.
  - cbn. unfold determineCleaningTerminalState, cast, mbind, tx_bind, someOr, reads in Ed. destruct (pg_uuid j); [|done]. exfalso. revert Ed. cbn. by case_match.
  - eapply entry_canonical; [exact Hcd|by eexists|]. eapply determine_claim; eauto.
Qed.

Lemma inv_entries db m p q : inv (mkWorld db m p) -> (forall x, x ∈ q -> entryOK db x.2.1 x.2.2) -> inv (mkWorld db m q).
Proof. intros [? ? ? ? ?] Hq. by split. Qed.

Lemma pop_inv w i s order limit : inv w -> w_mgr w !! i = Some s -> inv (let '(jobs, s') := popPendingCleanup order limit s in
  mkWorld (w_db w) (<[i := s']> (w_mgr w)) (w_popped w ++ map (pair i) (map_to_list jobs))).
Proof.
  intros I Hi. unfold popPendingCleanup. apply (inv_entries _ _ (w_popped w)).
  - eapply (inv_step True True); eauto. split; [done|]. split; [done|]. cbn. intros k o [? _]%map_lookup_filter_Some. by left.
  - intros x [Hx|Hx]%elem_of_app; [by apply inv_popped|]. apply list_elem_of_fmap in Hx as ([k o] & -> & Hk). cbn.
    apply elem_of_map_to_list, map_lookup_filter_Some in Hk as [Hk _]. by eapply inv_mgr.
Qed.

Lemma exec_inv w i o : inv w -> submittedOnce o w -> inv (exec i o w).
Proof.
  intros I Hok. pose proof (inv_wf _ I) as W. unfold exec.
  assert (Hgen : forall s, w_mgr w !! i = Some s -> match o with OpPop _ _ | OpReconcile _ _ _ => False | _ => True end ->
    inv (let '(s', db') := handle o s (w_db w) in mkWorld db' (<[i := s']> (w_mgr w)) (w_popped w))).
  { intros s Hi Hn. destruct (handle o s (w_db w)) as [s' db'] eqn:H. eapply (inv_step True True); eauto. by eapply handle_step. }
  assert (Hstart : forall n addr ttl staging em skew k, inv (let '(s, db) := start i n addr ttl staging em skew k (w_db w) in
    mkWorld db (<[i := s]> (w_mgr w)) (filter (fun p => p.1 <> i) (w_popped w)))).
  { intros n addr ttl staging em skew k. destruct (start i n addr ttl staging em skew k (w_db w)) as [s db] eqn:E.
    destruct (start_step _ _ _ _ _ _ _ _ _ _ _ W (inv_ids _ I) E) as (Hr & Hi & Hp). split; cbn.
    - by eapply wf_run.
    - eapply canonical_run; eauto. by apply inv_ids.
    - intros j sj k' o' [[<- <-]|[_ Hj]]%lookup_insert_Some Hk; [by apply Hp|]. eapply entryOK_run; eauto. by eapply inv_mgr.
    - intros j sj [[<- <-]|[_ Hj]]%lookup_insert_Some; [done|by eapply inv_replica].
    - intros p [_ Hin]%list_elem_of_filter. eapply entryOK_run; eauto. by eapply inv_popped. }
  destruct (w_mgr w !! i) as [s|] eqn:Hi; destruct o; try done; try (by apply Hgen).
  - by apply pop_inv.
  - case_bool_decide as Hin; [|done]. destruct (reconcileOne _ _ _ _ _ _) as [s' db'] eqn:E.
    eapply (inv_step True True); eauto; [eapply reconcile_step; eauto; exact (inv_popped _ I _ Hin)|]. intros p [? _]%list_elem_of_difference. done.
Qed.

Lemma reach_inv w : reach w -> inv w.
Proof.
  induction 1 as [c Hc|w i o _ IH Hok]; [|by apply exec_inv]. split; cbn; try (intros; by simplify_map_eq).
  - apply (wf_attempts (fun _ a => a) emptyDB); auto using wf_init, amoves_id.
  - intros j [jr Hj]. cbn in Hj. simplify_map_eq.
  - intros p Hp. by apply elem_of_nil in Hp.
Qed.

(** What an induction along a run needs: the property at the start, and that an
    operation in a reachable state keeps it. *)
Lemma runOps_ind (P : list (Z * op) -> world -> Prop) :
  (forall w, reach w -> P [] w) -> (forall i o ops w, reach w -> submittedOnce o w -> P ops (exec i o w) -> P ((i, o) :: ops) w) ->
  forall ops w, reach w -> onceAlong ops w -> P ops w.
Proof.
  intros H0 Hs ops. induction ops as [|[i o] ops IH]; intros w Hw; [by intros _; apply H0|]. intros [Ho Hops]. apply Hs; auto using reach_step.
Qed.

(** An operation is a sequence of the abstract changes. *)
Lemma exec_run w i o : inv w -> submittedOnce o w -> rtc (action (isStart o) (isReap o)) (w_db w) (w_db (exec i o w)).
Proof.
  intros I Hok. unfold exec. assert (Hgen : forall s, w_mgr w !! i = Some s -> match o with OpPop _ _ | OpReconcile _ _ _ => False | _ => True end ->
    rtc (action (isStart o) (isReap o)) (w_db w) (w_db (let '(s', db') := handle o s (w_db w) in mkWorld db' (<[i := s']> (w_mgr w)) (w_popped w)))).
  { intros s Hi Hn. destruct (handle o s (w_db w)) as [s' db'] eqn:H. by destruct (handle_step (isStart o) (isReap o) _ _ _ _ _ _ I id Hok Hi H Hn). }
  assert (Hstart : forall n addr ttl staging em skew k, rtc (action True False) (w_db w) (w_db (let '(s, db) := start i n addr ttl staging em skew k (w_db w) in
    mkWorld db (<[i := s]> (w_mgr w)) (filter (fun p => p.1 <> i) (w_popped w))))).
  { intros n addr ttl staging em skew k. destruct (start i n addr ttl staging em skew k (w_db w)) as [s db] eqn:E.
    by destruct (start_step _ _ _ _ _ _ _ _ _ _ _ (inv_wf _ I) (inv_ids _ I) E). }
  destruct (w_mgr w !! i) as [s|] eqn:Hi; destruct o; try done; try (by apply Hgen); try (by apply Hstart).
  case_bool_decide as Hin; [|done]. destruct (reconcileOne _ _ _ _ _ _) as [s' db'] eqn:E.
  exact (proj1 (reconcile_step _ _ _ _ _ _ _ _ _ (inv_popped _ I _ Hin) (inv_wf _ I) E)).
Qed.

End System.
