(* ===== verification/SchedulerTheorems.v ===== *)
(** What the manager guarantees in every state it can reach (the guarantees that
    manager-service/internal/manager/doc.go names: no double scheduling, no phase
    inversion, no oversubscription, fenced commits), and runs in which it does not do
    what its comments say. *)
From Stdlib Require Import ZArith Lia String.
From stdpp Require Import base gmap strings list relations sorting.
From S2P Require Import Prelude JsString InputSplit Shuffle ShuffleFacts MapReduce MapReduceFacts Scheduler SchedulerSpec SchedulerFacts SchedulerStatus SchedulerSystem.

Local Open Scope string_scope.
Local Open Scope Z_scope.

(** * A concrete system

    Uuids whose text is any string but the empty one. *)

Definition textUuid (s : string) : option string := if bool_decide (s = "") then None else Some s.
#[global] Instance textUuid_laws : UuidText textUuid textUuid.
Proof. unfold UuidText, textUuid. intros s u. repeat case_bool_decide; naive_solver. Qed.

(** The row that the migrations insert. *)
Definition schemaSeed : SystemConfigUpdate := mkSystemConfig 16 "500m" "512Mi" 1 4 "topology.kubernetes.io/zone" "app.kubernetes.io/name=minio".
Definition anyConfig (c : SystemConfigUpdate) : Prop := True.
Definition atTime (n : Z) (attempt lease : string) : callEnv := mkEnv ∅ attempt lease (n * second) (n * second) true.
Definition demoJob (maps reduces : list string) : ScheduleJobRequest :=
  mkScheduleJobRequest "job" "user" "s3://in" "s3://map" "s3://reduce" "" (len maps) (len reduces) ""
    (map (fun t => mkScheduleTask t "Map" 0 []) maps ++ imap (fun i t => mkScheduleTask t "Reduce" (Z.of_nat i) []) reduces).
Definition demoStart : list (Z * op) := [(0, OpStart 1 "manager-0:1" 30 false NoopEventEmitter 5 1)].
Definition demoSubmit (maps reduces : list string) : list (Z * op) :=
  demoStart ++ [(0, OpCreate 1 "job" (Some "user") (mkJobConfig "s3://in" "s3://map" "s3://reduce" "" (len maps) (len reduces) "") true);
                (0, OpSchedule (atTime 0 "" "") (demoJob maps reduces))].
Definition freshCluster : world := initWorld (Some schemaSeed).
Definition demo (ops : list (Z * op)) : world := runOps textUuid textUuid ops freshCluster.
Definition jobStatus (w : world) (j : string) : option JobState := j_status <$> JOBS (w_db w) !! j.
Definition taskStatus (w : world) (t : string) : option TaskState := t_status <$> TASKS (w_db w) !! t.

(** Whether [submittedOnce] holds along a run, by evaluation. *)
Definition onceb (o : op) (w : world) : bool :=
  match o with
  | OpSchedule _ req =>
      match textUuid (JobID req) with
      | Some j => bool_decide (tasksWhere (ofJob j) (w_db w) = ∅)
                  && match JOBS (w_db w) !! j with Some jr => bool_decide (j_status jr = JobPending) | None => true end
      | None => true
      end
  | OpConfig _ _ => false
  | _ => true
  end.
Fixpoint onceRun (ops : list (Z * op)) (w : world) : bool :=
  match ops with [] => true | (i, o) :: ops => onceb o w && onceRun ops (exec textUuid textUuid i o w) end.

Lemma onceb_ok okc o w : onceb o w = true -> submittedOnce textUuid okc o w.
Proof.
  destruct o; cbn; try done. intros H j Hj. rewrite Hj in H. apply andb_true_iff in H as [Hn Hp]. apply bool_decide_eq_true in Hn. split.
  - intros (tid & t & Ht & Hjt & _). apply (map_filter_empty_not_lookup _ _ tid t Hn); [|done]. cbn. by apply ofJob_true.
  - intros jr Hjr. rewrite Hjr in Hp. by apply bool_decide_eq_true in Hp.
Qed.

Lemma onceRun_ok okc ops w : onceRun ops w = true -> onceAlong textUuid textUuid okc ops w.
Proof.
  revert w. induction ops as [|[i o] ops IH]; intros w H; [done|]. cbn in H. apply andb_true_iff in H as [Hb H]. split; [by apply onceb_ok|by apply IH].
Qed.

Lemma fresh_reach (okc : SystemConfigUpdate -> Prop) : okc schemaSeed -> reach textUuid textUuid okc freshCluster.
Proof. intros H. constructor. by intros x [= <-]. Qed.

Lemma demo_reach (okc : SystemConfigUpdate -> Prop) ops : okc schemaSeed -> onceRun ops freshCluster = true -> reach textUuid textUuid okc (demo ops).
Proof.
  intros Hs H%(onceRun_ok okc). unfold demo. generalize (fresh_reach okc Hs). revert H. generalize freshCluster. intros w H Hw. revert ops w Hw H.
  apply (runOps_ind textUuid textUuid okc (fun ops w => reach textUuid textUuid okc (runOps textUuid textUuid ops w))); auto.
Qed.

(** * Invariants of the tables

    [reach]: the states of a cluster in which no job is submitted a second time or after
    it was cancelled.  [ScheduleJob] does not check this itself; [terminal_states_left]
    below shows what it does then. *)

Section Guarantees.
Context (uuid_Parse pg_uuid : string -> option string) (okc : SystemConfigUpdate -> Prop) `{!UuidText uuid_Parse pg_uuid}.
Notation reach := (reach uuid_Parse pg_uuid okc).
Notation exec := (exec uuid_Parse pg_uuid).
Notation submittedOnce := (submittedOnce uuid_Parse okc).

Lemma reach_wf w : reach w -> wf (w_db w).
Proof. intros H. apply (inv_wf uuid_Parse pg_uuid). by apply (reach_inv uuid_Parse pg_uuid okc). Qed.

Lemma reach_run w i o : reach w -> submittedOnce o w -> rtc (SchedulerSpec.action (fun j => exists s, uuid_Parse s = Some j) okc (isStart o) (isReap o)) (w_db w) (w_db (exec i o w)).
Proof. intros H Ho. apply (exec_run uuid_Parse pg_uuid okc); [by apply (reach_inv uuid_Parse pg_uuid okc)|done]. Qed.

(** C1. No double scheduling.  In every reachable state ([reach]: no job is submitted
    twice or after it was cancelled) a running attempt is the
    one its task is bound to, the task is in progress, and a task has at most one
    running attempt and at most one successful one. *)
Theorem one_running_attempt w : reach w ->
  (forall a ar, TASK_ATTEMPTS (w_db w) !! a = Some ar -> a_status ar = AttemptRunning ->
    exists t, TASKS (w_db w) !! a_task ar = Some t /\ t_status t = InProgress /\ t_attempt t = Some a)
  /\ (forall a b ar br, TASK_ATTEMPTS (w_db w) !! a = Some ar -> TASK_ATTEMPTS (w_db w) !! b = Some br -> a_task ar = a_task br ->
    a_status ar = a_status br -> a_status ar <> AttemptFailed -> a = b).
Proof.
  intros W%reach_wf. assert (H : forall a ar, TASK_ATTEMPTS (w_db w) !! a = Some ar -> a_status ar = AttemptRunning ->
    exists t, TASKS (w_db w) !! a_task ar = Some t /\ t_status t = InProgress /\ t_attempt t = Some a).
  { intros a ar Ha Hr. destruct (wf_attempt _ W a ar Ha) as (t & Ht & Hrun & _). exists t. split; [done|auto]. }
  split; [exact H|]. intros a b ar br Ha Hb Ht Hs Hne. destruct (a_status ar) eqn:Har; [| |done].
  - destruct (H a ar Ha Har) as (t & Ht1 & _ & E1), (H b br Hb (eq_sym Hs)) as (u & Ht2 & _ & E2). rewrite Ht, Ht2 in Ht1. congruence.
  - by apply (wf_once _ W a b ar br).
Qed.

(** C3. Results are committed once.  Once a task is completed, no operation of any
    manager changes its row or the outputs recorded for it, and another
    [CompleteTask] for it is refused. *)
Theorem completed_is_final w tid t : reach w -> TASKS (w_db w) !! tid = Some t -> t_status t = Completed ->
  (forall i o, submittedOnce o w -> TASKS (w_db (exec i o w)) !! tid = Some t
    /\ filter (fun r => o_task r = tid) (TASK_OUTPUTS (w_db (exec i o w))) = filter (fun r => o_task r = tid) (TASK_OUTPUTS (w_db w)))
  /\ (forall s e raw a l us cs, pg_uuid raw = Some tid -> exists err, CompleteTask uuid_Parse pg_uuid s e raw a l us cs (w_db w) = (inl err, s, w_db w)).
Proof.
  intros H Ht Hc. split; [intros i o Ho; eapply completed_run; eauto using reach_run|]. intros s e raw a l us cs Hraw. unfold CompleteTask.
  destruct (runTx _ _ (w_db w)) as [r d] eqn:E. apply runTx_cases in E as [(err & -> & ->)|([j jc] & -> & E)]; [by exists err|].
  apply (CompleteTask_refines uuid_Parse pg_uuid (okc := okc) (restarts := True) (reaps := True)) in E as (tid' & t' & ar & Htid & (Ht' & Hp & _) & _). congruence.
Qed.

(** C2. No phase inversion.  In every reachable state of a cluster in which no job is
    submitted a second time or after it was cancelled ([reach]), and in which a reduce task has
    started, every map task of its job is completed, and recorded outputs belong to
    completed tasks.  A worker that asks for work in such a state gets a task bound to
    its fresh attempt; with a reduce task, it gets every output that the map tasks
    recorded for its partition. *)
Theorem no_phase_inversion w : reach w ->
  (forall tid t m u, TASKS (w_db w) !! tid = Some t -> t_type t = ReduceTask -> t_status t = InProgress \/ t_status t = Completed ->
    TASKS (w_db w) !! m = Some u -> t_job u = t_job t -> t_type u = MapTask -> t_status u = Completed)
  /\ (forall o, o ∈ TASK_OUTPUTS (w_db w) -> exists u, TASKS (w_db w) !! o_task o = Some u /\ t_status u = Completed)
  /\ forall s e raw worker task s' db', GetNextTask uuid_Parse pg_uuid s e raw worker (w_db w) = (inr task, s', db') ->
    heartbeats s' !! freshAttempt e = Some (procNow e) /\ exists j, pg_uuid raw = Some j /\ dispatched e j task db'.
Proof.
  intros W%reach_wf. split; [intros tid t m u Ht Hty Hs; exact (wf_phase _ W tid t Ht Hty Hs m u)|]. split; [exact (wf_output _ W)|]. intros s e raw worker task s' db'.
  unfold GetNextTask. destruct (GetNextTaskTx _ _ _ _ _ _ _) as [err|[[tk|[err jd]] d]] eqn:H; [done| |by case_match].
  case_match; [|done]. intros [= <- <- <-]. cbn. split; [apply lookup_insert_eq|].
  apply (GetNextTask_refines uuid_Parse pg_uuid (okc := okc) (restarts := True) (reaps := True)) in H as (_ & j & Hj & Hd & _). eauto.
Qed.

(** C5. What a job's status says is true, as long as no job is submitted a second time
    or after it was cancelled ([reach]): a job that is Completed has only completed
    tasks, a Failed one has a failed task, a Cancelled one has only completed or failed
    tasks, and one that is Pending or Running has no failed task and, if it has tasks,
    one left to complete.  The terminal states that wait in the memory of a manager are
    true of their jobs as well.  A submission that comes after the cancellation is
    accepted and breaks this: see [terminal_states_left]. *)
Theorem status_is_truthful w : reach w ->
  (forall j jr, JOBS (w_db w) !! j = Some jr -> jobOK (w_db w) j (j_status jr))
  /\ forall i s k j st, w_mgr w !! i = Some s -> pendingCleanup s !! k = Some (Some st) -> pg_uuid k = Some j -> terminal st /\ jobOK (w_db w) j st.
Proof.
  intros H. pose proof (reach_wf w H) as W. pose proof (reach_inv uuid_Parse pg_uuid okc w H) as I. split; [exact (wf_job _ W)|].
  intros i s k j st Hi Hk Hj. by destruct (inv_mgr _ _ _ I i s k _ Hi Hk j Hj) as (? & ? & _).
Qed.

Lemma edges_terminal R from to : rtc (jobEdge R) from to -> terminal from -> to = from \/ R /\ from = JobFailed.
Proof.
  intros He Ht. induction He as [|x y z Hxy _ IH]; [by left|]. destruct Hxy as [->|[Ha|(HR & -> & _)]]; [auto| |by right].
  destruct Ht as [->|[->| ->]]; by destruct y.
Qed.

Lemma reap_exec w i e j jr : JOBS (w_db w) !! j = Some jr -> exists jr', JOBS (w_db (exec i (OpReap e) w)) !! j = Some jr' /\ (j_status jr' = j_status jr \/ j_status jr' = JobCleaning).
Proof.
  intros Hj. unfold SchedulerSystem.exec. destruct (w_mgr w !! i) as [s|]; [|eauto]. cbn. unfold FailStaleTasksCommit. destruct (runTx _ _ _) as [r d] eqn:E.
  apply runTx_cases in E as [(err & -> & ->)|(acc & -> & E)]; cbn; [eauto|]. by eapply FailStale_jobs.
Qed.

(** C6. While no job is submitted a second time or after it was cancelled ([reach],
    [submittedOnce]), the status of a job moves along the edges of
    [allowedJobTransitions], except in one case: the reaper may take a job from Failed
    back to Cleaning.  No other operation takes a job out of Completed, Failed or
    Cancelled, and the reaper takes none out of Completed or Cancelled. *)
Theorem jobs_follow_machine w i o j jr : reach w -> submittedOnce o w -> JOBS (w_db w) !! j = Some jr ->
  exists jr', JOBS (w_db (exec i o w)) !! j = Some jr' /\ rtc (jobEdge (isReap o)) (j_status jr) (j_status jr')
  /\ (terminal (j_status jr) -> j_status jr' = j_status jr \/ isReap o /\ j_status jr = JobFailed /\ j_status jr' = JobCleaning).
Proof.
  intros H Ho Hj. destruct (edge_run _ _ j jr (reach_run w i o H Ho) (reach_wf w H) Hj) as (jr' & Hj' & He). exists jr'. split; [done|]. split; [done|].
  intros Ht. destruct (edges_terminal _ _ _ He Ht) as [?|[Hr Hf]]; [by left|]. destruct o; try done. destruct (reap_exec w i e j jr Hj) as (r & Hr' & Hst).
  rewrite Hj' in Hr'. injection Hr' as <-. destruct Hst; auto.
Qed.

(** C7. No oversubscription.  If no configured limit, the default included, exceeds
    [M], then in every reachable state at most [M] attempts are running. *)
Theorem no_oversubscription M w : (forall c, okc c -> MaxConcurrentPods c <= M) -> DefaultMaxConcurrentPods <= M -> reach w -> QueryCountRunningAttempts (w_db w) <= M.
Proof.
  intros HM HD Hw. enough (quotaOK M (w_db w)) as [? _] by done. induction Hw as [c Hc|w i o Hw IH Ho]; [split; cbn; [|destruct c; unfold maxPods; cbn; auto]|].
  - unfold QueryCountRunningAttempts, running. cbn. rewrite map_filter_empty, map_size_empty. unfold DefaultMaxConcurrentPods in HD. lia.
  - eapply (rtc_keeps (quotaOK M)); [|by apply (reach_run w i o)|by apply reach_wf|done]. intros db db' _ Ha. exact (action_quotaOK M db db' HM Ha).
Qed.

(** The starts of managers in a run that find the task in progress on its last attempt,
    or beyond. *)
Fixpoint lateRecoveries (tid : string) (ops : list (Z * op)) (w : world) : Z :=
  match ops with
  | [] => 0
  | (i, o) :: ops => (if bool_decide (isStart o) && freesLast i tid (w_db w) then 1 else 0) + lateRecoveries tid ops (exec i o w)
  end.

Lemma exec_attempts w i o tid B : reach w -> submittedOnce o w -> MaxTaskAttempts <= B -> attemptsWithin B tid (w_db w) ->
  attemptsWithin (B + if bool_decide (isStart o) && freesLast i tid (w_db w) then 1 else 0) tid (w_db (exec i o w)).
Proof.
  intros H Ho HM HB. destruct (bool_decide_reflect (isStart o)) as [Hs|Hs]; cbn [andb].
  - destruct o; try done. exact (recover_attempts B tid i (w_db w) HM HB).
  - rewrite Z.add_0_r. eapply (rtc_keeps (attemptsWithin B tid)); [|by apply (reach_run w i o)|by apply reach_wf|done].
    intros db db' W Ha. exact (action_attempts B tid db db' HM W Hs Ha).
Qed.

(** C8. Retries are bounded.  In every run from a fresh cluster, in which no job is
    submitted a second time or after it was cancelled, a task gets at most
    [MaxTaskAttempts] attempts, and one more for each start of its manager that finds
    the task in progress when it has used them up.  So without such a restart there are
    never more than [MaxTaskAttempts]. *)
Theorem attempts_bounded c ops tid : (forall x, c = Some x -> okc x) -> onceAlong uuid_Parse pg_uuid okc ops (initWorld c) ->
  QueryCountAttemptsByTask tid (w_db (runOps uuid_Parse pg_uuid ops (initWorld c))) <= MaxTaskAttempts + lateRecoveries tid ops (initWorld c).
Proof.
  intros Hc Hops. assert (Hgen : forall w, reach w -> onceAlong uuid_Parse pg_uuid okc ops w -> forall B, MaxTaskAttempts <= B -> attemptsWithin B tid (w_db w) ->
    wf (w_db (runOps uuid_Parse pg_uuid ops w)) /\ attemptsWithin (B + lateRecoveries tid ops w) tid (w_db (runOps uuid_Parse pg_uuid ops w))
    /\ 0 <= lateRecoveries tid ops w).
  { revert ops Hops. intros ops _. apply (runOps_ind uuid_Parse pg_uuid okc (fun ops w => forall B, MaxTaskAttempts <= B -> attemptsWithin B tid (w_db w) ->
      wf (w_db (runOps uuid_Parse pg_uuid ops w)) /\ attemptsWithin (B + lateRecoveries tid ops w) tid (w_db (runOps uuid_Parse pg_uuid ops w)) /\ 0 <= lateRecoveries tid ops w)).
    - intros w Hw B _ HB. cbn. rewrite Z.add_0_r. split; [by apply reach_wf|]. by split.
    - intros i o l w Hw Ho IH B HM HB. cbn [lateRecoveries]. pose proof (exec_attempts w i o tid B Hw Ho HM HB) as HB'. revert HB'.
      set (x := if _ && _ then 1 else 0). assert (0 <= x <= 1) by (unfold x; destruct (_ && _); lia). intros HB'.
      destruct (IH (B + x)) as (W & HR & Hn); [lia|done|]. rewrite Z.add_assoc. split; [exact W|]. split; [exact HR|lia]. }
  destruct (Hgen (initWorld c) ltac:(by constructor) Hops MaxTaskAttempts) as (W & HB & Hn); [reflexivity|intros t Ht; cbn in Ht; by simplify_map_eq|].
  set (db := w_db _) in *. destruct (TASKS db !! tid) as [t|] eqn:Ht; [by apply (HB t)|]. rewrite attempts_fresh by done. unfold MaxTaskAttempts. lia.
Qed.
End Guarantees.

(** * Fencing *)

Section Fencing.
Context (uuid_Parse pg_uuid : string -> option string).
Notation CompleteTask := (CompleteTask uuid_Parse pg_uuid).

(** The condition of a commit: the attempt is the one the task is bound to, its lease
    is the one presented and has not expired, the job is active, and there is a
    checksum for each output. *)
Definition mayCommit (s : Scheduler) (e : callEnv) (raw a l : string) (us cs : list string) (db : DB) : Prop :=
  commits e = true /\ length us = length cs /\ exists tid t ar, pg_uuid raw = Some tid /\ bound db tid a t /\ activeJob (t_job t) db
  /\ TASK_ATTEMPTS db !! a = Some ar /\ leaseValid pg_uuid s e l ar.

Lemma Emit_ok s ev db : exists db', Emit s ev db = inr ((), db').
Proof. unfold Emit. destruct (emitter s); by eexists. Qed.

Lemma CompleteTaskTx_ok s e raw a l us cs db : mayCommit s e raw a l us cs db -> exists r db', CompleteTaskTx uuid_Parse pg_uuid s e raw a l us cs db = inr (r, db').
Proof.
  intros (_ & Hlen & tid & t & ar & Hraw & (Ht & Hp & Ha) & (jr & Hj & Hact) & Har & Hl & Hexp).
  unfold CompleteTaskTx, fenceTx, validateLeaseTx, cast, guard, reads, someOr, selectJobOfTask, QueryCheckLeaseValid, mbind, tx_bind.
  rewrite bool_decide_eq_true_2 by done. cbn. rewrite Hraw. cbn. rewrite Ht. cbn. rewrite Hj. cbn.
  rewrite (bool_decide_eq_false_2 (j_status jr = JobCleaning)) by (destruct Hact; congruence). cbn.
  replace (bool_decide (j_status jr = JobRunning) || bool_decide (j_status jr = JobPending)) with true by (destruct Hact as [-> | ->]; done). cbn.
  rewrite Ht. cbn. rewrite (proj2 (hasStatus_true _ t) Hp). cbn. rewrite bool_decide_eq_true_2 by done. cbn. rewrite Hl. cbn. rewrite Har. cbn.
  rewrite bool_decide_eq_true_2 by done. cbn. replace (dbNow e <=? _) with true by (symmetry; by apply Z.leb_le). cbn.
  destruct (QueryCountAllPendingTasks _ _ =? 0); cbn; repeat match goal with |- context [Emit ?s ?ev ?d] => destruct (Emit_ok s ev d) as [? ->]; cbn end; eauto.
Qed.

Lemma CompleteTask_ok_inv s e raw a l us cs db s' db' tid : CompleteTask s e raw a l us cs db = (inr (), s', db') -> pg_uuid raw = Some tid ->
  length us = length cs /\ TASKS db' = alter (setStatus Completed) tid (TASKS db) /\ TASK_OUTPUTS db' = (TASK_OUTPUTS db ++ outputRows tid us cs)%list.
Proof.
  unfold Scheduler.CompleteTask. destruct (runTx _ _ db) as [r d] eqn:E. apply runTx_cases in E as [(err & -> & ->)|([j jc] & -> & E)]; [done|]. intros [= _ <-] Hraw.
  apply (CompleteTask_refines uuid_Parse pg_uuid (okc := anyConfig) (restarts := True) (reaps := True)) in E as (k & t & ar & Hk & _ & _ & _ & _ & _ & Hlen & _ & ET & EO & _).
  by replace tid with k by congruence.
Qed.

(** C4. [CompleteTask] succeeds exactly when the attempt may commit, so a worker
    whose attempt was replaced or whose lease has run out cannot; when it does
    not succeed nothing changes, and when it does the task is completed and the
    outputs are recorded after those of other tasks. *)
Theorem commit_is_fenced s e raw a l us cs db :
  let '(r, s', db') := CompleteTask s e raw a l us cs db in
  (r = inr () <-> mayCommit s e raw a l us cs db)
  /\ (r <> inr () -> s' = s /\ db' = db)
  /\ (r = inr () -> forall tid, pg_uuid raw = Some tid ->
      TASKS db' = alter (setStatus Completed) tid (TASKS db) /\ TASK_OUTPUTS db' = (TASK_OUTPUTS db ++ outputRows tid us cs)%list).
Proof.
  unfold Scheduler.CompleteTask, runTx. destruct (CompleteTaskTx _ _ _ _ _ _ _ _ _ db) as [err|[[j jc] d]] eqn:H.
  - split; [|done]. split; [done|]. intros (r & d & E)%CompleteTaskTx_ok. congruence.
  - pose proof H as (tid & t & ar & Hraw & Hb & Hj & Hact & Har & Hl & Hlen & _ & ET & EO & _)%(CompleteTask_refines uuid_Parse pg_uuid (okc := anyConfig) (restarts := True) (reaps := True)).
    destruct (commits e) eqn:Hc.
    + split; [|split; [done|intros _ k Hk; by replace k with tid by congruence]]. split; [intros _|done]. subst j. split; [done|]. split; [done|]. exists tid, t, ar. auto.
    + split; [|done]. split; [done|]. intros (Hc' & _). congruence.
Qed.
End Fencing.

(** * Where the manager fails *)

(** A task in progress whose attempt has been failed. *)
Definition stranded (db : DB) (tid : string) : Prop := exists a t ar, bound db tid a t /\ TASK_ATTEMPTS db !! a = Some ar /\ a_status ar = AttemptFailed.

Section Stranded.
Context (uuid_Parse pg_uuid : string -> option string).

(** The state that [stranded] describes is kept by a change that leaves the row of
    the task and failed attempts alone. *)
Lemma stranded_keep db db' tid : stranded db tid -> TASKS db' !! tid = TASKS db !! tid ->
  (forall a ar, TASK_ATTEMPTS db !! a = Some ar -> a_status ar = AttemptFailed -> exists ar', TASK_ATTEMPTS db' !! a = Some ar' /\ a_status ar' = AttemptFailed) -> stranded db' tid.
Proof.
  intros (a & t & ar & (Ht & Hp & Ha) & Har & Hs) ET HA. destruct (HA a ar Har Hs) as (ar' & ? & ?). exists a, t, ar'. split; [|done]. split; [congruence|done].
Qed.

Lemma stranded_same db db' tid : stranded db tid -> TASKS db' = TASKS db -> TASK_ATTEMPTS db' = TASK_ATTEMPTS db -> stranded db' tid.
Proof. intros H ET EA. apply (stranded_keep db); [done|by rewrite ET|]. rewrite EA. eauto. Qed.

Lemma stranded_assign s e raw w ty db task db' tid : stranded db tid -> tryAssignTask uuid_Parse pg_uuid s e raw w ty db = inr (task, db') -> stranded db' tid.
Proof.
  intros H (j & k & t & _ & Ht & _ & Hi & _ & Hno & _ & _ & _ & ->)%tryAssign_inv. apply (stranded_keep db); [done| |]; cbn.
  - rewrite lookup_insert_ne; [done|]. intros ->. destruct H as (a & u & ar & (Hu & Hp & _) & _). congruence.
  - intros a ar Ha Hs. exists ar. rewrite lookup_insert_ne by congruence. auto.
Qed.

Lemma stranded_auto j db b db' tid : stranded db tid -> autoCompleteEmptyReducesTx j db = inr (b, db') -> stranded db' tid.
Proof.
  intros H Ha. unfold autoCompleteEmptyReducesTx in Ha. apply tx_bind_inv in Ha as (done & d & [= _ <-] & Ha).
  assert (Hs : stranded (withTASKS ((fun t => if emptyReduce j db t then setStatus Completed t else t) <$> TASKS db) db) tid).
  { apply (stranded_keep db); [done| |eauto]. cbn. rewrite lookup_fmap. destruct H as (a & t & ar & (Ht & Hp & _) & _). rewrite Ht. cbn. f_equal.
    destruct (emptyReduce j db t) eqn:E; [|done]. apply emptyReduce_inv in E as (_ & _ & ?). congruence. }
  case_bool_decide; tx_inv; [done|]. destruct (QueryCountAllPendingTasks _ _ =? 0); tx_inv; [|done]. by eapply stranded_same.
Qed.

Lemma stranded_next s e raw w db tid : stranded db tid -> stranded (GetNextTask uuid_Parse pg_uuid s e raw w db).2 tid.
Proof.
  intros H. unfold GetNextTask. destruct (GetNextTaskTx _ _ _ _ _ _ _) as [err|[r d]] eqn:E; [done|]. enough (stranded d tid) by (destruct r as [tk|[err jd]]; by case_match).
  unfold GetNextTaskTx in E. tx_inv. match goal with E : orElseOn _ _ _ _ = _ |- _ => apply orElseOn_inv in E as [E|E]; tx_inv end.
  - eapply stranded_same; [eapply stranded_assign; eauto|done|done].
  - match goal with E : autoCompleteEmptyReducesTx _ _ = _ |- _ => pose proof (stranded_auto _ _ _ _ tid H E) as H' end.
    match goal with E : orElseOn _ _ _ _ = _ |- _ => apply orElseOn_inv in E as [E|E]; tx_inv end; [|done].
    eapply stranded_same; [eapply stranded_assign; eauto|done|done].
Qed.

Lemma stranded_respawn ok s db j tid : stranded db tid -> stranded (respawnJob ok (s, db) j).2 tid.
Proof.
  intros H. cbn. destruct ok; [|done]. apply (stranded_keep db); [done|done|]. intros a ar Ha Hs. cbn. rewrite lookup_fmap, Ha. cbn. exists ar.
  by rewrite bool_decide_eq_false_2 by congruence.
Qed.

Lemma stranded_reap_fold s now stales acc db acc' db' tid : stranded db tid -> Forall (fun r => st_task r <> tid) stales ->
  foldTx (reapOne s now) stales acc db = inr (acc', db') -> stranded db' tid.
Proof.
  intros H Hne Hf. enough (stranded db' tid /\ Forall (fun r => st_task r <> tid) []) as [? _] by done. revert Hf.
  apply (foldTx_inv (reapOne s now) (fun l _ d => stranded d tid /\ Forall (fun r => st_task r <> tid) l)); [done|].
  intros rec l b d b' d' [Hs Hl] E. inversion Hl; subst. split; [|done]. unfold reapOne in E. destruct (freshHeartbeat s now rec); [by apply tx_ret_inv in E as [-> ->]|].
  assert (Hd : stranded (withATTEMPTS (alter (setAttempt AttemptFailed) (st_attempt rec) (TASK_ATTEMPTS d)) (withTASKS (alter (setStatus (retryState (st_count rec))) (st_task rec) (TASKS d)) d)) tid).
  { apply (stranded_keep d); [done|cbn; by rewrite lookup_alter_ne|]. intros a ar Ha Hst. cbn. rewrite lookup_alter_onKey, Ha. cbn. unfold onKey. destruct (decide _); eauto. }
  tx_inv. case_bool_decide; tx_inv; [by eapply stranded_same|done].
Qed.

Lemma stranded_reap s e db tid : stranded db tid -> stranded (FailStaleTasks uuid_Parse s e db).2 tid.
Proof.
  intros H. unfold FailStaleTasks, FailStaleTasksCommit. destruct (runTx _ _ db) as [r d] eqn:E. apply runTx_cases in E as [(err & -> & ->)|(acc & -> & E)]; [done|].
  assert (Hd : stranded d tid).
  { unfold FailStaleTasksTx in E. tx_inv. repeat match goal with H : foldTx (fun _ _ => Emit _ _) _ _ _ = _ |- _ => apply foldTx_emit in H as [? ->] end.
    match goal with H : foldTx (reapOne _ _) _ _ _ = inr (_, ?d) |- _ => apply (stranded_same d); [|done|done]; eapply stranded_reap_fold; [| |exact H] end; [done|]. apply Forall_forall. intros rec Hr <-.
    unfold QuerySelectStaleTasks in Hr. apply list_elem_of_omap in Hr as ([k t] & Hk & Hr). apply list_elem_of_filter in Hk as [_ Hk]. apply elem_of_map_to_list in Hk.
    apply staleRow_inv in Hr as (E1 & E2 & _ & _ & _ & ar & Har & Hrun & _). cbn in *. rewrite E1 in H. destruct H as (a & u & ar' & (Hu & _ & Ha) & Har' & Hf). congruence. }
  generalize (foldl (fun s jobID => enqueueCleanup jobID (Some JobFailed) s) s (elements (failedJobs acc))). intros s1.
  generalize (elements (list_to_set (respawnJobs acc) : gset string)). intros l. revert s1 d E Hd. clear H. intros s1 d _ Hd.
  assert (Hl : stranded (foldl (respawnJob true) (s1, d) l).2 tid).
  { revert s1 d Hd. induction l as [|j l IH]; intros s1 d Hd; [done|]. cbn [foldl]. destruct (respawnJob true (s1, d) j) as [s2 d2] eqn:E2. apply IH.
    replace d2 with (respawnJob true (s1, d) j).2 by (by rewrite E2). by apply stranded_respawn. }
  destruct (foldl _ _ l) as [s2 d2]. exact Hl.
Qed.

(** C37. The reaper strands tasks.  After it has replaced the workers of a job, a
    sibling task that was in progress, whose worker it cancelled, stays bound to an
    attempt it marked failed; from then on neither the reaper nor [GetNextTask], on
    any manager and at any time, frees the task or assigns it again. *)
Theorem reaper_strands_tasks db tid a t ar : bound db tid a t -> TASK_ATTEMPTS db !! a = Some ar -> a_task ar = tid -> a_status ar = AttemptRunning ->
  (forall s, stranded (respawnJob true (s, db) (t_job t)).2 tid)
  /\ forall d, stranded d tid -> (forall s e, stranded (FailStaleTasks uuid_Parse s e d).2 tid) /\ forall s e raw w, stranded (GetNextTask uuid_Parse pg_uuid s e raw w d).2 tid.
Proof.
  intros Hb Ha Hat Hr. split; [|intros d Hd; split; [intros s e; by apply stranded_reap|intros s e raw w; by apply stranded_next]]. intros s.
  exists a, t, (setAttempt AttemptFailed ar). split; [done|]. cbn. rewrite lookup_fmap, Ha. cbn. rewrite bool_decide_eq_true_2 by done. destruct Hb as (Ht & _).
  rewrite Hat, Ht. cbn. unfold ofJob. by rewrite bool_decide_eq_true_2.
Qed.
End Stranded.

(** ** Outputs by position *)

Section Positions.
Context (uuid_Parse pg_uuid : string -> option string).

Lemma outputRows_elem tid us cs o : length us = length cs ->
  (o ∈ outputRows tid us cs <-> exists i u c, us !! i = Some u /\ cs !! i = Some c /\ o = mkOutput tid (Some (Z.of_nat i)) u c).
Proof.
  intros Hlen. unfold outputRows. rewrite elem_of_lookup_imap. split.
  - intros (i & [u c] & -> & H). apply lookup_zip_Some in H as [? ?]. exists i, u, c. auto.
  - intros (i & u & c & Hu & Hc & ->). exists i, (u, c). split; [done|]. by apply lookup_zip_Some.
Qed.

(** C38. The partition of an output is lost.  A map task returns one output for each
    partition that has records, and [CompleteTask] numbers them by their position in
    that list: a reduce task is given an output of the map task, or an input at all,
    when its partition is less than the number of non-empty partitions, whichever
    partitions these are. *)
Theorem outputs_by_position Unmarshal sortSlice mapper combiner threshold R input parts s e raw a l us cs db s' db' tid t p :
  runMap Unmarshal sortSlice mapper combiner threshold R input = Ret parts -> length us = length parts ->
  CompleteTask uuid_Parse pg_uuid s e raw a l us cs db = (inr (), s', db') -> pg_uuid raw = Some tid ->
  TASKS db !! tid = Some t -> t_type t = MapTask -> Forall (fun o => o_task o <> tid) (TASK_OUTPUTS db) ->
  (exists o, o ∈ TASK_OUTPUTS db' /\ o_task o = tid /\ shuffleRow (t_job t) p db' o = true) <-> 0 <= p < len parts.
Proof.
  intros _ Hlen H Hraw Ht Hty Hno. pose proof (CompleteTask_ok_inv uuid_Parse pg_uuid s e raw a l us cs db s' db' tid H Hraw) as (Hcs & ET & EO).
  assert (Hrow : TASKS db' !! tid = Some (setStatus Completed t)) by (by rewrite ET, lookup_alter_eq, Ht).
  assert (Hsh : forall i u c, shuffleRow (t_job t) p db' (mkOutput tid (Some (Z.of_nat i)) u c) = (Z.of_nat i =? p)).
  { intros i u c. unfold shuffleRow. cbn [o_task o_partition]. rewrite Hrow. unfold ofJob, hasType, hasStatus. cbn. rewrite Hty. by rewrite !bool_decide_eq_true_2. }
  unfold len. rewrite <- Hlen, EO. split.
  - intros (o & Ho & Hot & Hs). apply elem_of_app in Ho as [Ho|Ho]; [rewrite Forall_forall in Hno; by destruct (Hno o Ho)|].
    apply (outputRows_elem _ _ _ _ Hcs) in Ho as (i & u & c & Hu & _ & ->). rewrite Hsh in Hs. apply Z.eqb_eq in Hs. apply lookup_lt_Some in Hu. lia.
  - intros Hp. destruct (lookup_lt_is_Some_2 us (Z.to_nat p)) as [u Hu]; [lia|]. destruct (lookup_lt_is_Some_2 cs (Z.to_nat p)) as [c Hc]; [lia|].
    exists (mkOutput tid (Some (Z.of_nat (Z.to_nat p))) u c). split; [|split; [done|]; rewrite Hsh; apply Z.eqb_eq; lia].
    apply elem_of_app. right. apply (outputRows_elem _ _ _ _ Hcs). eauto 10.
Qed.
End Positions.

(** ** Terminal states that are left *)

Definition obeys : cleanupEnv := mkCleanupEnv true true true.
Definition finalize (st : JobState) : list (Z * op) := [(0, OpPop ["job"] 64); (0, OpReconcile obeys "job" (Some st))].
(** A job is cancelled after [CreateJob] and before [ScheduleJob] comes in. *)
Definition lateSubmit : list (Z * op) :=
  demoStart ++ [(0, OpCreate 1 "job" (Some "user") (mkJobConfig "s3://in" "s3://map" "s3://reduce" "" 1 1 "") true); (0, OpCancel (atTime 1 "" "") "job")] ++ finalize JobCancelled.
(** A task fails three times while its sibling is on its third attempt. *)
Definition twoFailing : list (Z * op) :=
  demoSubmit ["m1"; "m2"] ["r"] ++
  [(0, OpNext (atTime 1 "a1" "x1") "job" "w"); (0, OpNext (atTime 1 "b1" "y1") "job" "w"); (0, OpFail (atTime 2 "" "") "m2" "b1" "y1" "oom");
   (0, OpNext (atTime 3 "b2" "y2") "job" "w"); (0, OpFail (atTime 4 "" "") "m2" "b2" "y2" "oom"); (0, OpNext (atTime 5 "b3" "y3") "job" "w");
   (0, OpFail (atTime 6 "" "") "m1" "a1" "x1" "oom"); (0, OpNext (atTime 7 "a2" "x2") "job" "w"); (0, OpFail (atTime 8 "" "") "m1" "a2" "x2" "oom");
   (0, OpNext (atTime 9 "a3" "x3") "job" "w"); (0, OpFail (atTime 10 "" "") "m1" "a3" "x3" "oom")] ++ finalize JobFailed.

Section Terminal.
Context (uuid_Parse pg_uuid : string -> option string).

(** C39. Terminal states are left.  [ScheduleJob], [GetNextTask] and the reaper ignore
    the status of a job: put it into any state [st], also a terminal one, and they
    answer the same and leave the managers' memory the same.  The submission then adds
    the tasks and leaves the job in [st], a task that is dispatched takes the job from
    [st] to Running, and the reaper takes a job it fails from [st] to Cleaning. *)
Theorem terminal_states_left j st db :
  let db2 := QueryUpdateJobStatus j st db in
  (forall s e req, let '(r, db') := ScheduleJob uuid_Parse s e req db in let '(r2, db2') := ScheduleJob uuid_Parse s e req db2 in
    r2 = r /\ TASKS db2' = TASKS db' /\ forall jr, JOBS db2 !! j = Some jr -> JOBS db2' !! j = Some jr)
  /\ (forall s e raw w, let '(r, db') := GetNextTask uuid_Parse pg_uuid s e raw w db in let '(r2, db2') := GetNextTask uuid_Parse pg_uuid s e raw w db2 in
    r2 = r /\ TASKS db2' = TASKS db' /\ forall task, r.1 = inr task -> pg_uuid raw = Some j -> j_status <$> JOBS db2' !! j = Some JobRunning)
  /\ (forall s e, let '(r, db') := FailStaleTasksCommit uuid_Parse s e db in let '(r2, db2') := FailStaleTasksCommit uuid_Parse s e db2 in
    r2 = r /\ TASKS db2' = TASKS db' /\ forall acc, r.1 = inr acc -> j ∈ failedJobs acc -> j_status <$> JOBS db2' !! j = Some JobCleaning).
Proof.
  intros db2. pose proof (status_update j st db : sameButStatus db db2) as Hd. split_and!.
  - intros s e req. destruct (blind_run (commits e) _ _ _ (blind_schedule uuid_Parse s req) Hd) as [Er Hs]. unfold ScheduleJob.
    destruct (runTx _ _ db) as [r d] eqn:E1, (runTx _ _ db2) as [r2 d2] eqn:E2. cbn in Er, Hs. subst r2. apply runTx_cases in E2 as E3.
    destruct r as [err|[]]; (split; [done|]); (split; [by apply same_tasks|]); intros jr Hj; destruct E3 as [(? & ? & ->)|([] & ? & E3)]; try done. by eapply schedule_keeps_job.
  - intros s e raw w. pose proof (blind_next uuid_Parse pg_uuid s e raw w db db2 Hd) as Hb. unfold GetNextTask.
    destruct (GetNextTaskTx _ _ _ _ _ _ db) as [e1|[a1 d1]] eqn:E1, (GetNextTaskTx _ _ _ _ _ _ db2) as [e2|[a2 d2]] eqn:E2; try done; [by subst e2|].
    destruct Hb as [<- Hs]. pose proof (same_tasks _ _ Hs) as ET. destruct a1 as [tk|[err b]].
    + destruct (commits e); (split; [done|]); (split; [done|]); [|done]. intros task _ Hraw. by eapply next_runs_job.
    + destruct (commits e); (split; [done|]); by split.
  - intros s e. destruct (blind_run (commits e) _ _ _ (blind_reap uuid_Parse s e) Hd) as [Er Hs]. unfold FailStaleTasksCommit.
    destruct (runTx _ _ db) as [r d] eqn:E1, (runTx _ _ db2) as [r2 d2] eqn:E2. cbn in Er, Hs. subst r2. apply runTx_cases in E2 as E3.
    destruct r as [err|acc]; (split; [done|]); (split; [by apply same_tasks|]); [done|]. intros acc' [= <-] Hin. destruct E3 as [(? & ? & _)|(? & [= <-] & E3)]; [done|]. by eapply reap_cleans_job.
Qed.
End Terminal.

(** * Instances *)

Definition firstMap : list (Z * op) := demoSubmit ["m1"; "m2"] ["r0"; "r1"] ++ [(0, OpNext (atTime 1 "a1" "x1") "job" "w1")].
Definition bothMaps : list (Z * op) := firstMap ++ [(0, OpNext (atTime 2 "a2" "x2") "job" "w2")].
Definition m1Done : list (Z * op) := bothMaps ++ [(0, OpComplete (atTime 3 "" "") "m1" "a1" "x1" ["s3://p0"; "s3://p1"] ["c0"; "c1"])].
Definition mapsDone : list (Z * op) := m1Done ++ [(0, OpComplete (atTime 4 "" "") "m2" "a2" "x2" ["s3://q0"; "s3://q1"] ["d0"; "d1"])].
Definition reducing : list (Z * op) := mapsDone ++ [(0, OpNext (atTime 5 "b0" "y0") "job" "w1")].

Lemma one_running_attempt_witness : exists t, TASKS (w_db (demo bothMaps)) !! "m2" = Some t /\ t_status t = InProgress /\ t_attempt t = Some "a2".
Proof.
  destruct (one_running_attempt textUuid textUuid anyConfig (demo bothMaps)) as [H _]; [apply demo_reach; [exact I|vm_compute; reflexivity]|].
  apply (H "a2" (mkAttempt "m2" "w2" "x2" (2 * second) 30 AttemptRunning)); vm_compute; reflexivity.
Defined.

Lemma completed_is_final_witness : exists err, CompleteTask textUuid textUuid (NewScheduler 0 1 "" 30 false) (atTime 9 "" "") "m1" "a1" "x1" [] [] (w_db (demo m1Done))
  = (inl err, NewScheduler 0 1 "" 30 false, w_db (demo m1Done)).
Proof.
  destruct (completed_is_final textUuid textUuid anyConfig (demo m1Done) "m1" (mkTask "job" MapTask Completed 0 None)) as [_ H];
    [apply demo_reach; [exact I|vm_compute; reflexivity]|vm_compute; reflexivity|reflexivity|]. apply H. reflexivity.
Defined.

Definition shuffled : Task := mkTaskInfo "r0" "job" ReduceTask 0 0 "b0" "y0" 2 "s3://reduce" "" "" [] [(0, "s3://p0", "c0"); (0, "s3://q0", "d0")].
Lemma no_phase_inversion_witness :
  (forall m u, TASKS (w_db (demo reducing)) !! m = Some u -> t_job u = "job" -> t_type u = MapTask -> t_status u = Completed)
  /\ exists s' db', GetNextTask textUuid textUuid (NewScheduler 0 1 "" 30 false) (atTime 5 "b0" "y0") "job" "w1" (w_db (demo mapsDone)) = (inr shuffled, s', db')
     /\ exists j, textUuid "job" = Some j /\ dispatched (atTime 5 "b0" "y0") j shuffled db'.
Proof.
  split.
  - destruct (no_phase_inversion textUuid textUuid anyConfig (demo reducing)) as (H & _); [apply demo_reach; [exact I|vm_compute; reflexivity]|].
    intros m u. apply (H "r0" (mkTask "job" ReduceTask InProgress 0 (Some "b0"))); [vm_compute; reflexivity|reflexivity|left; reflexivity].
  - destruct (no_phase_inversion textUuid textUuid anyConfig (demo mapsDone)) as (_ & _ & H); [apply demo_reach; [exact I|vm_compute; reflexivity]|].
    destruct (GetNextTask textUuid textUuid (NewScheduler 0 1 "" 30 false) (atTime 5 "b0" "y0") "job" "w1" (w_db (demo mapsDone))) as [[r s'] db'] eqn:E.
    assert (Hr : r = inr shuffled).
    { transitivity (GetNextTask textUuid textUuid (NewScheduler 0 1 "" 30 false) (atTime 5 "b0" "y0") "job" "w1" (w_db (demo mapsDone))).1.1; [by rewrite E|vm_compute; reflexivity]. }
    subst r. exists s', db'. split; [reflexivity|]. exact (proj2 (H _ _ _ _ _ _ _ E)).
Defined.

Lemma status_is_truthful_witness : jobStatus (demo twoFailing) "job" = Some JobFailed /\ jobOK (w_db (demo twoFailing)) "job" JobFailed.
Proof.
  destruct (status_is_truthful textUuid textUuid anyConfig (demo twoFailing)) as [H _]; [apply demo_reach; [exact I|vm_compute; reflexivity]|]. split; [vm_compute; reflexivity|].
  apply (H "job" (mkJob "user" JobFailed 0)). vm_compute. reflexivity.
Defined.

(** A failed job stays Failed when it is cancelled. *)
Lemma jobs_follow_machine_witness : exists jr', JOBS (w_db (exec textUuid textUuid 0 (OpCancel (atTime 20 "" "") "job") (demo twoFailing))) !! "job" = Some jr' /\ j_status jr' = JobFailed.
Proof.
  destruct (jobs_follow_machine textUuid textUuid anyConfig (demo twoFailing) 0 (OpCancel (atTime 20 "" "") "job") "job" (mkJob "user" JobFailed 0)) as (jr' & H1 & _ & H2);
    [apply demo_reach; [exact I|vm_compute; reflexivity]|exact I|vm_compute; reflexivity|]. exists jr'. split; [exact H1|].
  destruct H2 as [E|[[] _]]; [right; left; reflexivity|exact E].
Defined.

Definition uptoSixteen (c : SystemConfigUpdate) : Prop := MaxConcurrentPods c <= 16.
Lemma no_oversubscription_witness : QueryCountRunningAttempts (w_db (demo bothMaps)) = 2 /\ QueryCountRunningAttempts (w_db (demo bothMaps)) <= 16.
Proof.
  split; [vm_compute; reflexivity|]. apply (no_oversubscription textUuid textUuid uptoSixteen 16); [intros c Hc; exact Hc|vm_compute; discriminate|].
  apply demo_reach; [vm_compute; discriminate|vm_compute; reflexivity].
Defined.

(** A manager that restarts during the third attempt grants a fourth one. *)
Definition thirdAttempt : list (Z * op) :=
  demoSubmit ["m"] ["r"] ++
  [(0, OpNext (atTime 1 "a1" "x1") "job" "w"); (0, OpFail (atTime 2 "" "") "m" "a1" "x1" "oom"); (0, OpNext (atTime 3 "a2" "x2") "job" "w");
   (0, OpFail (atTime 4 "" "") "m" "a2" "x2" "oom"); (0, OpNext (atTime 5 "a3" "x3") "job" "w")].
Definition lateRestart : list (Z * op) := thirdAttempt ++ demoStart ++ [(0, OpNext (atTime 6 "a4" "x4") "job" "w")].
Lemma attempts_bounded_witness :
  (QueryCountAttemptsByTask "m" (w_db (demo thirdAttempt)) = 3 /\ 3 <= MaxTaskAttempts + 0)
  /\ (QueryCountAttemptsByTask "m" (w_db (demo lateRestart)) = 4 /\ 4 <= MaxTaskAttempts + 1).
Proof.
  split; (split; [vm_compute; reflexivity|]).
  - apply (attempts_bounded textUuid textUuid anyConfig (Some schemaSeed) thirdAttempt "m"); [intros; exact I|apply onceRun_ok; vm_compute; reflexivity].
  - apply (attempts_bounded textUuid textUuid anyConfig (Some schemaSeed) lateRestart "m"); [intros; exact I|apply onceRun_ok; vm_compute; reflexivity].
Defined.

(** The only record of the map task hashes to partition 1 of 2; its output is recorded
    under partition 0, and the reduce task of partition 1 is completed unseen. *)
Definition oneRecord : bytes := encodeAll [mkKV (js "b") (js "<")].
Definition mapping : list (Z * op) := demoSubmit ["m"] ["r0"; "r1"] ++ [(0, OpNext (atTime 1 "a" "x") "job" "w")].
Definition mapped : list (Z * op) := mapping ++ [(0, OpComplete (atTime 2 "" "") "m" "a" "x" ["s3://p1"] ["c1"]); (0, OpNext (atTime 3 "b" "y") "job" "w")].
Lemma outputs_by_position_witness : exists parts s' db', runMap sampleDecode (merge_sort kvLe) Ret None 34 2 oneRecord = Ret parts /\ parts.*1 = [1]
  /\ CompleteTask textUuid textUuid (NewScheduler 0 1 "" 30 false) (atTime 2 "" "") "m" "a" "x" ["s3://p1"] ["c1"] (w_db (demo mapping)) = (inr (), s', db')
  /\ ~ (exists o, o ∈ TASK_OUTPUTS db' /\ o_task o = "m" /\ shuffleRow "job" 1 db' o = true)
  /\ taskStatus (demo mapped) "r1" = Some Completed /\ QueryCountAttemptsByTask "r1" (w_db (demo mapped)) = 0.
Proof.
  destruct (CompleteTask textUuid textUuid (NewScheduler 0 1 "" 30 false) (atTime 2 "" "") "m" "a" "x" ["s3://p1"] ["c1"] (w_db (demo mapping))) as [[r s'] db'] eqn:E.
  assert (Hr : r = inr ()).
  { transitivity (CompleteTask textUuid textUuid (NewScheduler 0 1 "" 30 false) (atTime 2 "" "") "m" "a" "x" ["s3://p1"] ["c1"] (w_db (demo mapping))).1.1; [by rewrite E|vm_compute; reflexivity]. }
  subst r. destruct (runMap sampleDecode (merge_sort kvLe) Ret None 34 2 oneRecord) as [parts| |] eqn:Hm; [|exfalso; revert Hm; vm_compute; discriminate..].
  assert (Hp : parts.*1 = [1]).
  { transitivity (match runMap sampleDecode (merge_sort kvLe) Ret None 34 2 oneRecord with Ret ps => ps.*1 | _ => [] end); [by rewrite Hm|vm_compute; reflexivity]. }
  assert (Hl : length parts = 1%nat) by (transitivity (length parts.*1); [by rewrite length_fmap|by rewrite Hp]).
  exists parts, s', db'. split; [reflexivity|]. split; [exact Hp|]. split; [reflexivity|]. split; [|split; vm_compute; reflexivity].
  rewrite (outputs_by_position textUuid textUuid sampleDecode (merge_sort kvLe) Ret None 34 2 oneRecord parts _ _ _ _ _ ["s3://p1"] ["c1"] _ _ _ "m" (mkTask "job" MapTask InProgress 0 (Some "a")) 1 Hm (eq_sym Hl) E);
    [|reflexivity|vm_compute; reflexivity|reflexivity|]; [unfold len; rewrite Hl; lia|]. apply (bool_decide_unpack _). vm_compute. exact I.
Defined.

Lemma reaper_strands_tasks_witness : stranded (respawnJob true (NewScheduler 0 1 "" 30 false, w_db (demo bothMaps)) "job").2 "m2".
Proof.
  destruct (reaper_strands_tasks textUuid textUuid (w_db (demo bothMaps)) "m2" "a2" (mkTask "job" MapTask InProgress 0 (Some "a2"))
    (mkAttempt "m2" "w2" "x2" (2 * second) 30 AttemptRunning)) as [H _]; [split; [vm_compute; reflexivity|split; reflexivity]|vm_compute; reflexivity|reflexivity|reflexivity|]. apply H.
Defined.

(** A cancelled job that runs, and a failed one that goes back to Cleaning. *)
Definition submitted : DB := w_db (demo (demoSubmit ["m"] ["r"])).
Lemma terminal_states_left_witness :
  j_status <$> JOBS (GetNextTask textUuid textUuid (NewScheduler 0 1 "" 30 false) (atTime 3 "a" "l") "job" "w" (QueryUpdateJobStatus "job" JobCancelled submitted)).2 !! "job" = Some JobRunning
  /\ (let late := [(0, OpSchedule (atTime 2 "" "") (demoJob ["m"] ["r"])); (0, OpNext (atTime 3 "a" "l") "job" "w")] in
      jobStatus (demo lateSubmit) "job" = Some JobCancelled /\ jobStatus (demo (lateSubmit ++ late)) "job" = Some JobRunning /\ taskStatus (demo (lateSubmit ++ late)) "m" = Some InProgress)
  /\ (onceRun twoFailing freshCluster = true /\ jobStatus (demo twoFailing) "job" = Some JobFailed
      /\ jobStatus (demo (twoFailing ++ [(0, OpReap (atTime 100 "" ""))])) "job" = Some JobCleaning).
Proof.
  split; [|split; vm_compute; repeat split; reflexivity].
  destruct (terminal_states_left textUuid textUuid "job" JobCancelled submitted) as (_ & H & _). specialize (H (NewScheduler 0 1 "" 30 false) (atTime 3 "a" "l") "job" "w").
  assert (Hr : exists task, (GetNextTask textUuid textUuid (NewScheduler 0 1 "" 30 false) (atTime 3 "a" "l") "job" "w" submitted).1.1 = inr task) by (eexists; vm_compute; reflexivity).
  destruct (GetNextTask textUuid textUuid (NewScheduler 0 1 "" 30 false) (atTime 3 "a" "l") "job" "w" submitted) as [r db'],
    (GetNextTask textUuid textUuid (NewScheduler 0 1 "" 30 false) (atTime 3 "a" "l") "job" "w" (QueryUpdateJobStatus "job" JobCancelled submitted)) as [r2 db2'].
  destruct H as (_ & _ & H), Hr as [task Hr]. exact (H task Hr eq_refl).
Defined.
