(* ===== verification/RateLimit.v ===== *)
(** The two rate limiters of underscore (wordcut.js, module 25): [_.throttle]
    and [_.debounce], as machines driven by calls and by their timer.

    The clock is an argument of every event.  A timer set at time [t] for [d]
    milliseconds may fire at any time from [t + d] on; the host keeps it until
    it fires or is cleared.  The wrapped function is observed: a run records
    when it is invoked and with which arguments (none after they were cleared).  A wrapped function that calls
    its own limiter back is not modelled. *)
From Stdlib Require Import ZArith Lia.
From stdpp Require Import base list sorting.
From S2P Require Import Prelude.

Local Open Scope Z_scope.

(** What happens to a limiter: it is called, or its timer fires. *)
Inductive limEvent (A : Type) := Called (now : Z) (args : A) | Fired (now : Z).
Arguments Called {A} now args.
Arguments Fired {A} now.

Definition timeOf {A} (e : limEvent A) : Z := match e with Called t _ | Fired t => t end.

(** The variables of a limiter: [timeout] holds the time from which its timer
    may fire, [invoked] the invocations of the wrapped function, last first. *)
Record limiter (A : Type) := mkLim {
  l_previous : Z;
  l_timestamp : Z;
  l_timeout : option Z;
  l_args : option A;
  l_invoked : list (Z * option A)
}.
Arguments mkLim {A}.
Arguments l_previous {A}.
Arguments l_timestamp {A}.
Arguments l_timeout {A}.
Arguments l_args {A}.
Arguments l_invoked {A}.

Definition freshLimiter {A} : limiter A := mkLim 0 0 None None [].

(** [func.apply(context, args)]; [None] is null. *)
Definition invoke {A} (now : Z) (args : option A) (invoked : list (Z * option A)) : list (Z * option A) :=
  (now, args) :: invoked.

Section Limiters.
Context {A : Type} (wait : Z).

(** ** Throttle *)
Section Throttle.
Context (leading trailing : bool).

(** The throttled function. *)
Definition throttleCall (now : Z) (args : A) (s : limiter A) : limiter A :=
  let previous := if (l_previous s =? 0) && negb leading then now else l_previous s in
  let remaining := wait - (now - previous) in
  if (remaining <=? 0) || (wait <? remaining) then
    mkLim now (l_timestamp s) None None (invoke now (Some args) (l_invoked s))
  else if bool_decide (l_timeout s = None) && trailing then
    mkLim previous (l_timestamp s) (Some (now + remaining)) (Some args) (l_invoked s)
  else mkLim previous (l_timestamp s) (l_timeout s) (Some args) (l_invoked s).

(** [later()]. *)
Definition throttleLater (now : Z) (s : limiter A) : limiter A :=
  mkLim (if negb leading then 0 else now) (l_timestamp s) None None (invoke now (l_args s) (l_invoked s)).

Definition throttleStep (s : limiter A) (e : limEvent A) : limiter A :=
  match e with
  | Called now args => throttleCall now args s
  | Fired now => throttleLater now s
  end.
End Throttle.

(** ** Debounce *)
Section Debounce.
Context (immediate : bool).

(** The debounced function. *)
Definition debounceCall (now : Z) (args : A) (s : limiter A) : limiter A :=
  let callNow := immediate && bool_decide (l_timeout s = None) in
  let timeout := match l_timeout s with None => Some (now + wait) | Some due => Some due end in
  if callNow then mkLim (l_previous s) now timeout None (invoke now (Some args) (l_invoked s))
  else mkLim (l_previous s) now timeout (Some args) (l_invoked s).

(** [later()]. *)
Definition debounceLater (now : Z) (s : limiter A) : limiter A :=
  let last := now - l_timestamp s in
  if (last <? wait) && (0 <=? last) then
    mkLim (l_previous s) (l_timestamp s) (Some (now + (wait - last))) (l_args s) (l_invoked s)
  else if negb immediate then
    mkLim (l_previous s) (l_timestamp s) None None (invoke now (l_args s) (l_invoked s))
  else mkLim (l_previous s) (l_timestamp s) None (l_args s) (l_invoked s).

Definition debounceStep (s : limiter A) (e : limEvent A) : limiter A :=
  match e with
  | Called now args => debounceCall now args s
  | Fired now => debounceLater now s
  end.
End Debounce.
End Limiters.

(** * Runs *)

Section Runs.
Context {A : Type} (step : limiter A -> limEvent A -> limiter A).

(** When an event can happen after the events [es] (last first): the clock is
    positive and does not go back, a timer fires only when it is set and due. *)
Definition enabled (es : list (limEvent A)) (s : limiter A) (e : limEvent A) : Prop :=
  0 < timeOf e /\ Forall (fun e' => timeOf e' <= timeOf e) es /\
  match e with Called _ _ => True | Fired now => exists due, l_timeout s = Some due /\ due <= now end.

(** The runs from the creation of a limiter. *)
Inductive Run : list (limEvent A) -> limiter A -> Prop :=
| Run_fresh : Run [] freshLimiter
| Run_step es s e : Run es s -> enabled es s e -> Run (e :: es) (step s e).

(** The last call of a run. *)
Definition lastCall (es : list (limEvent A)) : option (Z * A) :=
  head (omap (fun e => match e with Called t a => Some (t, a) | Fired _ => None end) es).
End Runs.

(** Consecutive invocations, last first, at least [wait] apart. *)
Definition spaced {A} (wait : Z) (l : list (Z * option A)) : Prop :=
  StronglySorted (fun later earlier => earlier.1 + wait <= later.1) l.

(** Every event of a run is at or before [now]. *)
Abbreviation upTo now es := (Forall (fun e => timeOf e <= now) es).

Lemma lastCall_upTo {A} (es : list (limEvent A)) now t a : lastCall es = Some (t, a) -> upTo now es -> t <= now.
Proof.
  unfold lastCall. induction es as [|[u b|u] es IH]; cbn; [done| |]; intros H [? ?]%Forall_cons; [by injection H as <- <-|auto].
Qed.

Section ThrottleFacts.
Context {A : Type} (wait : Z) (leading trailing : bool).

Abbreviation step := (@throttleStep A wait leading trailing).

(** What holds between two events of a throttled function. *)
Record throttleInv (es : list (limEvent A)) (s : limiter A) : Prop := {
  ti_previous : forall now, 0 < now -> upTo now es -> 0 <= l_previous s <= now;
  ti_invoked : Forall (fun '(t, _) =>
    (forall now, upTo now es -> t <= now) /\
    (t <= l_previous s \/ l_previous s = 0 /\ leading = false) /\
    (forall due, l_timeout s = Some due -> t + wait <= due)) (l_invoked s);
  ti_due : forall due now, l_timeout s = Some due -> upTo now es -> due <= now + wait;
  ti_spaced : spaced wait (l_invoked s);
  ti_last : trailing = true -> forall t a, lastCall es = Some (t, a) ->
    match l_timeout s with
    | None => exists t', head (l_invoked s) = Some (t', Some a) /\ t <= t'
    | Some due => l_args s = Some a /\ due <= t + wait
    end
}.

Lemma throttle_fresh : throttleInv [] freshLimiter.
Proof. split; [cbn; lia|constructor|done|constructor|done]. Qed.

Lemma throttle_called es s now args :
  throttleInv es s -> 0 < now -> upTo now es -> throttleInv (Called now args :: es) (throttleCall wait leading trailing now args s).
Proof.
  intros [Hp Hi Hd Hs Hl] Hnow Hup. specialize (Hp now Hnow Hup). unfold throttleCall.
  set (previous := if (l_previous s =? 0) && negb leading then now else l_previous s).
  assert (Hprev : 0 <= previous <= now /\ Forall (fun '(t, _) => t <= previous) (l_invoked s)).
  { unfold previous. destruct ((l_previous s =? 0) && negb leading) eqn:Eb; (split; [lia|]);
      (eapply Forall_impl; [exact Hi|]); intros [t x] (Ht & Ho & _).
    - by apply Ht.
    - destruct Ho as [|[Hz Hf]]; [done|]. by rewrite Hz, Hf in Eb. }
  destruct Hprev as [Hprev Hle].
  assert (Hnext : forall now', upTo now' (Called now args :: es) -> now <= now' /\ upTo now' es)
    by (intros now' [? ?]%Forall_cons; done).
  destruct ((wait - (now - previous) <=? 0) || (wait <? wait - (now - previous))) eqn:Eb.
  - assert (Hgap : Forall (fun '(t, _) => t + wait <= now) (l_invoked s)).
    { apply orb_true_iff in Eb as [Eb%Z.leb_le|Eb%Z.ltb_lt]; [|lia].
      eapply Forall_impl; [exact Hle|]. intros [t x] Ht. lia. }
    split; cbn [l_previous l_invoked l_timeout l_args].
    + intros now' Hn' [? _]%Hnext. lia.
    + constructor; [split_and!; [by intros now' [? _]%Hnext|by left|done]|].
      eapply Forall_impl; [exact Hi|]. intros [t x] (Ht & _ & _). split_and!; [by intros now' [_ ?]%Hnext; apply Ht| |done].
      left. by apply Ht.
    + done.
    + constructor; [done|]. eapply Forall_impl; [exact Hgap|]. by intros [t x].
    + intros _ t a [= <- <-]. exists now. split; [done|lia].
  - apply orb_false_iff in Eb as [Eb%Z.leb_gt _].
    assert (Hcommon : forall timeout, (timeout = l_timeout s \/ timeout = Some (previous + wait)) ->
      Forall (fun '(t, _) => (forall now', upTo now' (Called now args :: es) -> t <= now') /\
        (t <= previous \/ previous = 0 /\ leading = false) /\ (forall due, timeout = Some due -> t + wait <= due)) (l_invoked s)).
    { intros timeout Hto. rewrite Forall_forall in Hi, Hle |- *. intros [t x] Hin.
      destruct (Hi _ Hin) as (Ht & _ & Hdue). specialize (Hle _ Hin). cbn in Hle.
      split_and!; [by intros now' [_ ?]%Hnext; apply Ht|by left|]. intros due ->. destruct Hto as [Ho|[= ->]]; [by apply Hdue|lia]. }
    assert (Hpre : forall now', 0 < now' -> upTo now' (Called now args :: es) -> 0 <= previous <= now')
      by (intros now' _ [? _]%Hnext; lia).
    destruct (bool_decide (l_timeout s = None) && trailing) eqn:Et.
    + replace (now + (wait - (now - previous))) with (previous + wait) by lia.
      split; cbn [l_previous l_invoked l_timeout l_args]; [done|by apply Hcommon; right| |done|].
      * intros due now' [= <-] [? _]%Hnext. lia.
      * intros _ t a [= <- <-]. split; [done|lia].
    + split; cbn [l_previous l_invoked l_timeout l_args]; [done|by apply Hcommon; left| |done|].
      * intros due now' Hto [_ ?]%Hnext. by apply Hd.
      * intros Htr t a [= <- <-]. rewrite Htr, andb_true_r in Et. apply bool_decide_eq_false in Et.
        destruct (l_timeout s) as [due|] eqn:Eto; [|done]. split; [done|]. by apply Hd.
Qed.

Lemma throttle_fired es s now due :
  throttleInv es s -> 0 < now -> upTo now es -> l_timeout s = Some due -> due <= now ->
  throttleInv (Fired now :: es) (throttleLater leading now s).
Proof.
  intros [Hp Hi Hd Hs Hl] Hnow Hup Hto Hdue. unfold throttleLater, invoke.
  assert (Hnext : forall now', upTo now' (Fired now :: es) -> now <= now' /\ upTo now' es)
    by (intros now' [? ?]%Forall_cons; done).
  split; cbn [l_previous l_invoked l_timeout l_args].
  - intros now' Hn' [? Hup']%Hnext. destruct leading; cbn [negb]; lia.
  - constructor; [split_and!; [by intros now' [? _]%Hnext|destruct leading; [left; cbn [negb]; lia|by right]|done]|].
    eapply Forall_impl; [exact Hi|]. intros [t x] (Ht & _ & _). split_and!; [by intros now' [_ ?]%Hnext; apply Ht| |done].
    destruct leading; cbn [negb]; [left; by apply Ht|by right].
  - done.
  - constructor; [done|]. eapply Forall_impl; [exact Hi|]. intros [t x] (_ & _ & Ht). specialize (Ht due Hto). cbn. lia.
  - intros Htr t a Hlast. specialize (Hl Htr t a Hlast). rewrite Hto in Hl. destruct Hl as [-> _].
    exists now. split; [done|]. by apply (lastCall_upTo es now t a).
Qed.

Lemma throttle_inv es s : Run step es s -> throttleInv es s.
Proof.
  induction 1 as [|es s [now args|now] _ IH (Hnow & Hup & He)]; [apply throttle_fresh|by apply throttle_called|].
  destruct He as (due & Hto & Hdue). by apply (throttle_fired es s now due).
Qed.

End ThrottleFacts.

(** C27. A throttled function, under any sequence of calls and timers with a
    clock that does not go back: two invocations are at least [wait]
    milliseconds apart; and unless trailing calls are disabled no call is lost:
    either the last invocation had the arguments of the last call, or a timer
    is pending that may fire at most [wait] milliseconds after that call and
    will invoke the function with its arguments. *)
Theorem throttle_spaced {A} (wait : Z) (leading trailing : bool) (es : list (limEvent A)) s :
  Run (throttleStep wait leading trailing) es s ->
  spaced wait (l_invoked s) /\
  (trailing = true -> forall t a, lastCall es = Some (t, a) ->
     match l_timeout s with
     | None => exists t', head (l_invoked s) = Some (t', Some a) /\ t <= t'
     | Some due => due <= t + wait /\ forall now, l_invoked (throttleLater leading now s) = (now, Some a) :: l_invoked s
     end).
Proof.
  intros H%throttle_inv. destruct H as [_ _ _ Hs Hl]. split; [done|]. intros Htr t a Hlast.
  specialize (Hl Htr t a Hlast). destruct (l_timeout s); [|done]. destruct Hl as [Ha Hdue]. split; [done|].
  intros now. unfold throttleLater, invoke. cbn. by rewrite Ha.
Qed.

(** The state after a list of events, last first. *)
Definition stateAfter {A} (step : limiter A -> limEvent A -> limiter A) (es : list (limEvent A)) : limiter A :=
  foldr (fun e s => step s e) freshLimiter es.

Lemma Run_after {A} (step : limiter A -> limEvent A -> limiter A) es e :
  Run step es (stateAfter step es) -> enabled es (stateAfter step es) e -> Run step (e :: es) (stateAfter step (e :: es)).
Proof. intros Hr He. exact (Run_step step es _ e Hr He). Qed.

(** Build a concrete run. *)
Ltac build_run :=
  repeat (apply Run_after;
    [|split_and!; [cbn; lia|repeat constructor; cbn; lia|first [exact I | eexists; split; [vm_compute; reflexivity|lia]]]]);
  apply Run_fresh.

Lemma throttle_spaced_witness :
  spaced 10 (l_invoked (stateAfter (throttleStep 10 true true) [Fired 115; Called 107 2; Called 103 1; Called 100 0])) /\
  l_invoked (stateAfter (throttleStep 10 true true) [Fired 115; Called 107 2; Called 103 1; Called 100 0]) = [(115, Some 2); (100, Some 0)].
Proof.
  split; [|reflexivity].
  apply (throttle_spaced 10 true true [Fired 115; Called 107 2; Called 103 1; Called 100 0] _).
  build_run.
Defined.

Section DebounceFacts.
Context {A : Type} (wait : Z) (immediate : bool).

Abbreviation step := (@debounceStep A wait immediate).

(** Every call of a run was at least [wait] milliseconds before [now]. *)
Definition quiet (es : list (limEvent A)) (now : Z) : Prop :=
  Forall (fun e => match e with Called t _ => t + wait <= now | Fired _ => True end) es.

(** What holds between two events of a debounced function. *)
Record debounceInv (es : list (limEvent A)) (s : limiter A) : Prop := {
  di_calls : Forall (fun e => match e with Called t _ => t <= l_timestamp s | Fired _ => True end) es;
  di_stamp : forall now, upTo now es -> es <> [] -> l_timestamp s <= now;
  di_idle : l_timeout s = None -> forall now, upTo now es -> quiet es now;
  di_due : forall due, l_timeout s = Some due -> due <= l_timestamp s + wait;
  di_last : immediate = false -> forall t a, lastCall es = Some (t, a) -> t = l_timestamp s /\
    match l_timeout s with
    | None => exists t', head (l_invoked s) = Some (t', Some a)
    | Some _ => l_args s = Some a
    end;
  di_called : forall due, l_timeout s = Some due -> exists t a, lastCall es = Some (t, a)
}.

Lemma debounce_fresh : debounceInv [] freshLimiter.
Proof. split; try done; constructor. Qed.

Lemma debounce_called es s now args :
  debounceInv es s -> upTo now es -> debounceInv (Called now args :: es) (debounceCall wait immediate now args s).
Proof.
  intros [Hc Hst Hidle Hd Hl Hcd] Hup. unfold debounceCall.
  set (timeout := match l_timeout s with None => Some (now + wait) | Some due => Some due end).
  assert (Hto : exists due, timeout = Some due /\ due <= now + wait).
  { unfold timeout. destruct (l_timeout s) as [due|] eqn:Eto; [|eauto with lia]. exists due. split; [done|].
    destruct (Hcd due eq_refl) as (t & a & Hlast). specialize (Hd due eq_refl).
    assert (l_timestamp s <= now) by (apply Hst; [done|]; intros ->; done). lia. }
  destruct Hto as (due & -> & Hdue).
  assert (Hcalls : Forall (fun e => match e with Called t _ => t <= now | Fired _ => True end) (Called now args :: es)).
  { constructor; [done|]. eapply Forall_impl; [exact Hup|]. by intros []. }
  assert (Hgen : forall args' invoked', (immediate = false -> args' = Some args) ->
    debounceInv (Called now args :: es) (mkLim (l_previous s) now (Some due) args' invoked')).
  { intros args' invoked' Hargs. split; cbn [l_timestamp l_timeout l_invoked l_args]; try done.
    - by intros now' [? _]%Forall_cons _.
    - by intros due' [= <-].
    - intros Him t a [= <- <-]. split; [done|by apply Hargs].
    - intros due' _. by exists now, args. }
  destruct (immediate && _) eqn:Eb; apply Hgen; [|done]. intros Him. by rewrite Him in Eb.
Qed.

Lemma debounce_fired es s now due :
  debounceInv es s -> upTo now es -> l_timeout s = Some due -> debounceInv (Fired now :: es) (debounceLater wait immediate now s).
Proof.
  intros [Hc Hst Hidle Hd Hl Hcd] Hup Hto. unfold debounceLater.
  destruct (Hcd due Hto) as (t & a & Hlast). assert (Hne : es <> []) by (by intros ->).
  assert (Hts : l_timestamp s <= now) by (by apply Hst).
  assert (Hcalls : Forall (fun e => match e with Called t _ => t <= l_timestamp s | Fired _ => True end) (Fired now :: es))
    by (by constructor).
  assert (Hstamp : forall now', upTo now' (Fired now :: es) -> Fired now :: es <> [] -> l_timestamp s <= now')
    by (intros now' [? ?]%Forall_cons _; cbn in *; lia).
  destruct ((now - l_timestamp s <? wait) && (0 <=? now - l_timestamp s)) eqn:Eb.
  - split; cbn [l_timestamp l_timeout l_invoked l_args]; try done.
    + intros due' [= <-]. lia.
    + intros Him t' a' Hlast'. specialize (Hl Him t' a' Hlast'). by rewrite Hto in Hl.
    + intros due' _. by exists t, a.
  - assert (Hquiet : forall now', upTo now' (Fired now :: es) -> quiet (Fired now :: es) now').
    { intros now' [? _]%Forall_cons. cbn in *. apply andb_false_iff in Eb as [Eb%Z.ltb_ge|Eb%Z.leb_gt]; [|lia].
      eapply Forall_impl; [exact Hcalls|]. intros [t' a'|]; [|done]. lia. }
    destruct (negb immediate) eqn:Ei; split; cbn [l_timestamp l_timeout l_invoked l_args]; try done;
      intros Him t' a' Hlast'; [|by rewrite Him in Ei].
    destruct (Hl Him t' a' Hlast') as [-> Ha]. rewrite Hto in Ha. split; [done|].
    exists now. unfold invoke. cbn. by rewrite Ha.
Qed.

Lemma debounce_inv es s : Run step es s -> debounceInv es s.
Proof.
  induction 1 as [|es s [now args|now] _ IH (Hnow & Hup & He)]; [apply debounce_fresh|by apply debounce_called|].
  destruct He as (due & Hto & _). by apply (debounce_fired es s now due).
Qed.

End DebounceFacts.

(** A debounced function, under any sequence of calls and timers with a
    clock that does not go back: it is invoked only after [wait] milliseconds
    without a call, with the arguments of the last call, or, on the leading
    edge, those of the call that ends the silence; and on the trailing edge no
    burst of calls is lost: once no timer is pending the last invocation had
    the arguments of the last call, and a pending timer is due at most [wait]
    milliseconds after it. *)
Lemma debounce_quiet {A} (wait : Z) (immediate : bool) (es : list (limEvent A)) s :
  Run (debounceStep wait immediate) es s ->
  (forall e, enabled es s e ->
     let s' := debounceStep wait immediate s e in
     l_invoked s' = l_invoked s \/
     exists a, l_invoked s' = (timeOf e, Some a) :: l_invoked s /\ quiet wait es (timeOf e) /\
       if immediate then e = Called (timeOf e) a else exists t, lastCall es = Some (t, a)) /\
  (immediate = false -> forall t a, lastCall es = Some (t, a) ->
     match l_timeout s with
     | None => exists t', head (l_invoked s) = Some (t', Some a)
     | Some due => l_args s = Some a /\ due <= t + wait
     end).
Proof.
  intros H%debounce_inv. destruct H as [Hc Hst Hidle Hd Hl Hcd]. split.
  - intros [now args|now] (_ & Hup & He); cbn [debounceStep timeOf].
    + unfold debounceCall. destruct immediate; [|by left]. cbn [andb].
      case_bool_decide as Hto; [|by left]. right. exists args. split_and!; [done|by apply Hidle|done].
    + destruct He as (due & Hto & _). destruct (Hcd due Hto) as (t & a & Hlast).
      assert (l_timestamp s <= now) by (apply Hst; [done|by intros ->]).
      unfold debounceLater. destruct (_ && _) eqn:Eb; [by left|]. destruct immediate; [by left|]. right.
      destruct (Hl eq_refl t a Hlast) as [_ Ha]. rewrite Hto in Ha. exists a. cbn [negb l_invoked]. rewrite Ha.
      split_and!; [done| |by exists t]. apply andb_false_iff in Eb as [Eb%Z.ltb_ge|Eb%Z.leb_gt]; [|lia].
      eapply Forall_impl; [exact Hc|]. intros [t' a'|]; [|done]. lia.
  - intros Him t a Hlast. destruct (Hl Him t a Hlast) as [-> Ha]. destruct (l_timeout s) as [due|]; [|done].
    split; [done|]. by apply Hd.
Qed.

