(* ===== verification/Underscore.v ===== *)
(** The collection, array, object and function helpers of underscore 1.8.3
    (wordcut.js, module 25), which the segmenter and the glob library build on.

    Iteratees are pure functions.  A plain object is the list of its own
    enumerable properties in the order of their creation, with distinct names
    that [Object.prototype] does not have; enumeration puts array indices first.
    Where values are compared, [===] is equality except on the values that the
    argument [nan] tells to be NaN.  The rate limiters are in [RateLimit],
    [_.isEqual] in [DeepEqual]. *)
From Stdlib Require Import ZArith Lia.
From stdpp Require Import base gmap strings list sorting pretty.
From S2P Require Import Prelude JsString JsRegExp BraceExpansion.

Local Open Scope Z_scope.
Open Scope js_scope.

(** * Collections *)

(** A key as an iteratee sees it. *)
Inductive ukey := KIndex (i : Z) | KName (k : jsstr).

(** An array-like or a plain object. *)
Inductive coll (A : Type) := Arr (l : list A) | Obj (props : list (jsstr * A)).
Arguments Arr {A} l.
Arguments Obj {A} props.

(** The indices of an array with its elements. *)
Fixpoint indexed {A} (i : Z) (l : list A) : list (A * ukey) :=
  match l with
  | [] => []
  | x :: l' => (x, KIndex i) :: indexed (i + 1) l'
  end.

(** The properties of an object in the order of [Object.keys]. *)
Definition propLe {A} (p q : jsstr * A) : Prop := indexLe p.1 q.1.
#[export] Instance propLe_dec {A} : RelDecision (@propLe A).
Proof. intros p q. unfold propLe. apply _. Defined.
Definition ownProps {A} (props : list (jsstr * A)) : list (jsstr * A) :=
  merge_sort propLe (filter (fun p => isIndex p.1 = true) props) ++ filter (fun p => isIndex p.1 = false) props.

(** What [_.each] visits: [(obj[i], i)] or [(obj[keys[i]], keys[i])]. *)
Definition visits {A} (c : coll A) : list (A * ukey) :=
  match c with
  | Arr l => indexed 0 l
  | Obj props => map (fun '(k, v) => (v, KName k)) (ownProps props)
  end.

Section Collections.
Context {A B : Type}.

(** [_.each]: the state [S] stands for what the iteratee changes. *)
Definition us_each {S} (c : coll A) (iteratee : A -> ukey -> S -> S) (s : S) : S :=
  fold_left (fun s '(v, k) => iteratee v k s) (visits c) s.

(** [_.map]. *)
Definition us_map (c : coll A) (iteratee : A -> ukey -> B) : list B :=
  map (fun '(v, k) => iteratee v k) (visits c).

(** [iterator] of [createReduce], over what [obj[currentKey]] is at each index. *)
Fixpoint reduceLoop (fuel : nat) (dir : Z) (items : list (A * ukey)) (iteratee : B -> A -> ukey -> B) (memo : B) (index : Z) : outcome B :=
  if (0 <=? index) && (index <? len items) then
    match fuel with
    | O => OutOfFuel
    | S fuel =>
        '(v, k) ← orTypeError (items !!z index);
        reduceLoop fuel dir items iteratee (iteratee memo v k) (index + dir)
    end
  else Ret memo.

(** [createReduce(dir)] with a memo: [_.reduce] for 1, [_.reduceRight] for -1. *)
Definition createReduce (dir : Z) (c : coll A) (iteratee : B -> A -> ukey -> B) (memo : B) : outcome B :=
  let items := visits c in
  let index := if 0 <? dir then 0 else len items - 1 in
  reduceLoop (length items) dir items iteratee memo index.

(** [_.findKey], over the properties in the order of their enumeration. *)
Fixpoint findKeyLoop (props : list (jsstr * A)) (predicate : A -> jsstr -> bool) : option jsstr :=
  match props with
  | [] => None
  | (k, v) :: props' => if predicate v k then Some k else findKeyLoop props' predicate
  end.
Definition us_findKey (props : list (jsstr * A)) (predicate : A -> jsstr -> bool) : option jsstr :=
  findKeyLoop (ownProps props) predicate.

(** [createPredicateIndexFinder(dir)]. *)
Fixpoint findLoop (fuel : nat) (dir : Z) (array : list A) (predicate : A -> Z -> bool) (index : Z) : outcome Z :=
  if (0 <=? index) && (index <? len array) then
    match fuel with
    | O => OutOfFuel
    | S fuel =>
        v ← orTypeError (array !!z index);
        if predicate v index then Ret index else findLoop fuel dir array predicate (index + dir)
    end
  else Ret (-1).

Definition createPredicateIndexFinder (dir : Z) (array : list A) (predicate : A -> Z -> bool) : outcome Z :=
  findLoop (length array) dir array predicate (if 0 <? dir then 0 else len array - 1).
Definition us_findIndex := createPredicateIndexFinder 1.
Definition us_findLastIndex := createPredicateIndexFinder (-1).

(** [obj[k]] on an object, whose names are distinct. *)
Fixpoint propOf (k : jsstr) (props : list (jsstr * A)) : option A :=
  match props with
  | [] => None
  | (k', v) :: props' => if str_eqb k' k then Some v else propOf k props'
  end.

(** [_.find]. *)
Definition us_find (c : coll A) (predicate : A -> ukey -> bool) : outcome (option A) :=
  match c with
  | Arr l =>
      key ← us_findIndex l (fun v i => predicate v (KIndex i));
      Ret (if negb (key =? -1) then l !!z key else None)
  | Obj props =>
      Ret (match us_findKey props (fun v k => predicate v (KName k)) with
           | Some k => propOf k props
           | None => None
           end)
  end.

(** [_.filter], [_.reject] and [_.partition]. *)
Definition us_filter (c : coll A) (predicate : A -> ukey -> bool) : list A :=
  us_each c (fun v k results => if predicate v k then results ++ [v] else results) [].
Definition us_reject (c : coll A) (predicate : A -> ukey -> bool) : list A :=
  us_filter c (fun v k => negb (predicate v k)).
Definition us_partition (c : coll A) (predicate : A -> ukey -> bool) : list A * list A :=
  us_each c (fun v k '(pass, fail) => if predicate v k then (pass ++ [v], fail) else (pass, fail ++ [v])) ([], []).

(** [_.every] and [_.some]: the loops return early. *)
Definition us_every (c : coll A) (predicate : A -> ukey -> bool) : bool := forallb (fun '(v, k) => predicate v k) (visits c).
Definition us_some (c : coll A) (predicate : A -> ukey -> bool) : bool := existsb (fun '(v, k) => predicate v k) (visits c).

(** [_.values], [_.keys], [_.pairs], [_.size] and [_.toArray]. *)
Definition us_pairs (props : list (jsstr * A)) : list (jsstr * A) := ownProps props.
Definition us_values (props : list (jsstr * A)) : list A := map snd (ownProps props).
Definition us_keys (props : list (jsstr * A)) : list jsstr := map fst (ownProps props).
Definition us_size (c : coll A) : Z := match c with Arr l => len l | Obj props => len (us_keys props) end.
Definition us_toArray (c : coll A) : list A := match c with Arr l => l | Obj props => us_values props end.
Definition us_mapObject (props : list (jsstr * A)) (iteratee : A -> jsstr -> B) : list (jsstr * B) :=
  map (fun '(k, v) => (k, iteratee v k)) (ownProps props).

(** [_.isEmpty]. *)
Definition us_isEmpty (c : coll A) : bool :=
  match c with Arr l => len l =? 0 | Obj props => len (us_keys props) =? 0 end.

(** [_.max] with an iteratee that returns finite numbers: [None] is -Infinity. *)
Definition maxStep (iteratee : A -> ukey -> Z) (v : A) (k : ukey) (s : option A * option Z) : option A * option Z :=
  let '(result, lastComputed) := s in
  let computed := iteratee v k in
  if match lastComputed with None => true | Some l => l <? computed end then (Some v, Some computed) else s.
Definition us_max (c : coll A) (iteratee : A -> ukey -> Z) : option A := fst (us_each c (maxStep iteratee) (None, None)).

(** [_.min], likewise. *)
Definition minStep (iteratee : A -> ukey -> Z) (v : A) (k : ukey) (s : option A * option Z) : option A * option Z :=
  let '(result, lastComputed) := s in
  let computed := iteratee v k in
  if match lastComputed with None => true | Some l => computed <? l end then (Some v, Some computed) else s.
Definition us_min (c : coll A) (iteratee : A -> ukey -> Z) : option A := fst (us_each c (minStep iteratee) (None, None)).

End Collections.

(** [createReduce(dir)] without a memo: the first element visited is the memo,
    [None] is undefined, the memo of an empty collection. *)
Definition createReduce1 {A} (dir : Z) (c : coll A) (iteratee : A -> A -> ukey -> A) : outcome (option A) :=
  let items := visits c in
  let index := if 0 <? dir then 0 else len items - 1 in
  match items !!z index with
  | None => Ret None
  | Some (memo, _) => Some <$> reduceLoop (length items) dir items iteratee memo (index + dir)
  end.

(** [_.max] and [_.min] of a collection of finite numbers: [None] is the
    infinity that an empty collection gives. *)
Definition us_maxOf (c : coll Z) : option Z :=
  fold_left (fun result value => if match result with None => true | Some x => x <? value end then Some value else result) (us_toArray c) None.
Definition us_minOf (c : coll Z) : option Z :=
  fold_left (fun result value => if match result with None => true | Some x => value <? x end then Some value else result) (us_toArray c) None.

(** [group(behavior)] and its instances: the result is an object. *)
Section Group.
Context {A V : Type}.

(** [result[key] = f(result[key])]. *)
Fixpoint alterProp (key : jsstr) (f : option V -> V) (result : list (jsstr * V)) : list (jsstr * V) :=
  match result with
  | [] => [(key, f None)]
  | (k, v) :: result' => if str_eqb k key then (k, f (Some v)) :: result' else (k, v) :: alterProp key f result'
  end.

Definition group (behavior : list (jsstr * V) -> A -> jsstr -> list (jsstr * V)) (c : coll A) (iteratee : A -> ukey -> jsstr)
    : list (jsstr * V) :=
  us_each c (fun v k result => behavior result v (iteratee v k)) [].
End Group.

Definition us_groupBy {A} (c : coll A) (iteratee : A -> ukey -> jsstr) : list (jsstr * list A) :=
  group (fun result v key => alterProp key (fun old => match old with Some l => l ++ [v] | None => [v] end) result) c iteratee.
Definition us_indexBy {A} (c : coll A) (iteratee : A -> ukey -> jsstr) : list (jsstr * A) :=
  group (fun result v key => alterProp key (fun _ => v) result) c iteratee.
Definition us_countBy {A} (c : coll A) (iteratee : A -> ukey -> jsstr) : list (jsstr * Z) :=
  group (fun result v key => alterProp key (fun old => match old with Some n => n + 1 | None => 1 end) result) c iteratee.

(** * Random orders *)

(** [_.random(min, max)]: [floorRandom n] is [Math.floor(Math.random() * n)]. *)
Definition us_random (floorRandom : Z -> Z) (min : Z) (max : option Z) : Z :=
  let '(min, max) := match max with None => (0, min) | Some max => (min, max) end in
  min + floorRandom (max - min + 1).

(** The loop of [_.shuffle]; [rands index] is the random draw of a round and
    holes of [shuffled] are [None]. *)
Fixpoint shuffleLoop {A} (set : list A) (rands : nat -> Z -> Z) (index : nat) (shuffled : list (option A)) : list (option A) :=
  match set with
  | [] => shuffled
  | x :: set' =>
      let rand := us_random (rands index) 0 (Some (Z.of_nat index)) in
      let shuffled := if negb (rand =? Z.of_nat index)
                      then setidx (Z.of_nat index) (default None (shuffled !!z rand)) shuffled else shuffled in
      shuffleLoop set' rands (S index) (setidx rand (Some x) shuffled)
  end.
Definition us_shuffle {A} (c : coll A) (rands : nat -> Z -> Z) : list (option A) :=
  let set := us_toArray c in
  shuffleLoop set rands 0 (replicate (length set) None).

(** [_.sample(obj, n)]. *)
Definition us_sample {A} (c : coll A) (n : Z) (rands : nat -> Z -> Z) : list (option A) :=
  slice (us_shuffle c rands) 0 (Z.max 0 n).
Definition us_sampleOne {A} (c : coll A) (rand : Z -> Z) : option A :=
  let obj := us_toArray c in
  obj !!z us_random rand (len obj - 1) None.

(** * Arrays *)

Section Arrays.
Context {A : Type}.

(** [_.initial], [_.first], [_.rest] and [_.last]; the optional count is [n]. *)
Definition us_initial (array : list A) (n : option Z) : list A :=
  slice array 0 (Z.max 0 (len array - default 1 n)).
Definition us_first (array : list A) : option A := array !!z 0.
Definition us_firstN (array : list A) (n : Z) : list A := us_initial array (Some (len array - n)).
Definition us_rest (array : list A) (n : option Z) : list A := sliceFrom array (default 1 n).
Definition us_last (array : list A) : option A := array !!z (len array - 1).
Definition us_lastN (array : list A) (n : Z) : list A := us_rest array (Some (Z.max 0 (len array - n))).

(** [_.compact]. *)
Definition us_compact (truthy : A -> bool) (array : list A) : list A := us_filter (Arr array) (fun v _ => truthy v).

(** Values that may be arrays themselves. *)
Inductive nest := Leaf (a : A) | Nest (l : list nest).

(** [flatten(input, shallow, strict)]; the input of [startIndex] is cut by the caller. *)
Fixpoint flatten_ (shallow strict : bool) (n : nest) {struct n} : list nest :=
  match n with
  | Leaf _ => []
  | Nest input =>
      (fix loop (input : list nest) : list nest :=
         match input with
         | [] => []
         | value :: input' =>
             match value with
             | Nest l => (if shallow then l else flatten_ shallow strict value) ++ loop input'
             | Leaf _ => if strict then loop input' else value :: loop input'
             end
         end) input
  end.
Definition us_flatten (array : list nest) (shallow : bool) : list nest := flatten_ shallow false (Nest array).

(** [_.zip] and [_.unzip]: the rows have the length of the longest array. *)
Definition us_unzip (array : list (list A)) : list (list (option A)) :=
  let length_ := match us_max (Arr array) (fun a _ => len a) with Some a => len a | None => 0 end in
  map (fun index => us_map (Arr array) (fun a _ => a !!z index)) (zrange 0 (length_ - 1)).
Definition us_zip (arrays : list (list A)) : list (list (option A)) := us_unzip arrays.

(** [_.sortedIndex] with an iteratee whose values are compared with [lt]. *)
Fixpoint sortedLoop {B} (fuel : nat) (lt : B -> B -> bool) (iteratee : A -> B) (array : list A) (value : B) (low high : Z) : outcome Z :=
  if low <? high then
    match fuel with
    | O => OutOfFuel
    | S fuel =>
        let mid := (low + high) / 2 in
        x ← orTypeError (array !!z mid);
        if lt (iteratee x) value then sortedLoop fuel lt iteratee array value (mid + 1) high
        else sortedLoop fuel lt iteratee array value low mid
    end
  else Ret low.
Definition us_sortedIndex {B} (lt : B -> B -> bool) (iteratee : A -> B) (array : list A) (obj : A) : outcome Z :=
  sortedLoop (length array) lt iteratee array (iteratee obj) 0 (len array).

(** [_.sortBy]: the comparison of two records with their criteria and index. *)
Definition criteriaCmp {B} (lt : B -> B -> bool) (left right : A * B * Z) : Z :=
  let '(_, a, i) := left in
  let '(_, b, j) := right in
  if lt b a then 1 else if lt a b then -1 else i - j.
Definition criteriaLe {B} (lt : B -> B -> bool) (left right : A * B * Z) : Prop := criteriaCmp lt left right <= 0.
#[export] Instance criteriaLe_dec {B} (lt : B -> B -> bool) : RelDecision (criteriaLe lt).
Proof. intros x y. unfold criteriaLe. apply _. Defined.
Definition us_sortBy {B} (lt : B -> B -> bool) (array : list A) (iteratee : A -> B) : list A :=
  map (fun r => r.1.1) (merge_sort (criteriaLe lt) (map (fun '(v, k) => (v, iteratee v, match k with KIndex i => i | KName _ => 0 end)) (visits (Arr array)))).

(** [Math.ceil(a / b)]. *)
Definition ceilDiv (a b : Z) : Z := - ((- a) / b).

(** [_.range(start, stop, step)]: a step that is absent or zero is 1. *)
Fixpoint progression (n : nat) (start step : Z) : list Z :=
  match n with
  | O => []
  | S n => start :: progression n (start + step) step
  end.
Definition us_range (start : Z) (stop step : option Z) : list Z :=
  let '(start, stop) := match stop with None => (0, start) | Some stop => (start, stop) end in
  let step := if default 0 step =? 0 then 1 else default 0 step in
  let length_ := Z.max (ceilDiv (stop - start) step) 0 in
  progression (Z.to_nat length_) start step.

(** [_.times]. *)
Definition us_times (n : Z) (iteratee : Z -> A) : list A := map iteratee (zrange 0 (n - 1)).

End Arrays.
Arguments nest A : clear implicits.

(** The argument [idx] of the index finders. *)
Inductive idxArg := IdxAbsent | IdxNumber (n : Z) | IdxSorted.

Section Search.
Context {A : Type} `{EqDecision A} (nan : A -> bool) (lt : A -> A -> bool).

(** [array[idx] === item]; out of range it is undefined. *)
Definition strictEqAt (array : list A) (idx : Z) (item : A) : bool :=
  bool_decide (array !!z idx = Some item) && negb (nan item).

(** The loop of [createIndexFinder]. *)
Fixpoint indexLoop (fuel : nat) (dir : Z) (array : list A) (item : A) (length_ idx : Z) : outcome Z :=
  if (0 <=? idx) && (idx <? length_) then
    match fuel with
    | O => OutOfFuel
    | S fuel =>
        if strictEqAt array idx item then Ret idx
        else indexLoop fuel dir array item length_ (idx + dir)
    end
  else Ret (-1).

(** [createIndexFinder(dir, predicateFind, sortedIndex)]: [_.indexOf] for 1,
    where a truthy third argument selects the binary search, [_.lastIndexOf]
    for -1. *)
Definition indexScan (dir : Z) (array : list A) (item : A) (i length_ : Z) : outcome Z :=
  if nan item then
    idx ← createPredicateIndexFinder dir (slice array i length_) (fun v _ => nan v);
    Ret (if 0 <=? idx then idx + i else -1)
  else indexLoop (S (Z.to_nat length_)) dir array item length_ (if 0 <? dir then i else length_ - 1).
Definition createIndexFinder (dir : Z) (array : list A) (item : A) (idx : idxArg) : outcome Z :=
  let length_ := len array in
  match idx with
  | IdxNumber n =>
      if 0 <? dir then indexScan dir array item (if 0 <=? n then n else Z.max (n + length_) 0) length_
      else indexScan dir array item 0 (if 0 <=? n then Z.min (n + 1) length_ else n + length_ + 1)
  | IdxSorted =>
      if (0 <? dir) && negb (length_ =? 0) then
        k ← us_sortedIndex lt id array item;
        Ret (if strictEqAt array k item then k else -1)
      else indexScan dir array item 0 length_
  | IdxAbsent => indexScan dir array item 0 length_
  end.
Definition us_indexOf := createIndexFinder 1.
Definition us_lastIndexOf := createIndexFinder (-1).

(** [_.contains(obj, item, fromIndex)]. *)
Definition us_contains (c : coll A) (item : A) (fromIndex : option Z) : outcome bool :=
  k ← us_indexOf (us_toArray c) item (IdxNumber (default 0 fromIndex));
  Ret (0 <=? k).

(** [_.uniq(array, isSorted)] without an iteratee: [seen] is the last value,
    [None] at the first index. *)
Definition uniqStep (isSorted : bool) (st : list A * option A) (value : A) : outcome (list A * option A) :=
  let '(result, seen) := st in
  if isSorted then
    Ret (if bool_decide (seen = Some value) && negb (nan value) then result else result ++ [value], Some value)
  else c ← us_contains (Arr result) value None; Ret (if (c : bool) then result else result ++ [value], seen).
Definition us_uniq (array : list A) (isSorted : bool) : outcome (list A) :=
  fst <$> foldO (uniqStep isSorted) array ([], None).

(** The same with an iteratee, whose values are in [seen]. *)
Definition uniqByStep {B} (isSorted : bool) (iteratee : B -> ukey -> A) (st : list B * list A) (v : B * ukey) : outcome (list B * list A) :=
  let '(result, seen) := st in
  let computed := iteratee v.1 v.2 in
  if isSorted then
    Ret (if bool_decide (last seen = Some computed) && negb (nan computed) then result else result ++ [v.1], [computed])
  else c ← us_contains (Arr seen) computed None; Ret (if (c : bool) then st else (result ++ [v.1], seen ++ [computed])).
Definition us_uniqBy {B} (array : list B) (isSorted : bool) (iteratee : B -> ukey -> A) : outcome (list B) :=
  fst <$> foldO (uniqByStep isSorted iteratee) (visits (Arr array)) ([], []).

(** [_.difference(array, ...arrays)] and [_.without(array, ...values)]. *)
Definition us_difference (array : list A) (arrays : list (list A)) : outcome (list A) :=
  let rest := concat arrays in
  foldO (fun results value => c ← us_contains (Arr rest) value None;
                              Ret (if (c : bool) then results else results ++ [value])) array [].
Definition us_without (array values : list A) : outcome (list A) := us_difference array [values].

(** [_.union(...arrays)]. *)
Definition us_union (arrays : list (list A)) : outcome (list A) := us_uniq (concat arrays) false.

(** [_.intersection(array, ...arrays)]. *)
Fixpoint inAll (arrays : list (list A)) (item : A) : outcome bool :=
  match arrays with
  | [] => Ret true
  | a :: arrays' => c ← us_contains (Arr a) item None; if (c : bool) then inAll arrays' item else Ret false
  end.
Definition us_intersection (array : list A) (arrays : list (list A)) : outcome (list A) :=
  foldO (fun result item =>
    c ← us_contains (Arr result) item None;
    if (c : bool) then Ret result
    else all ← inAll arrays item; Ret (if (all : bool) then result ++ [item] else result)) array [].

End Search.

(** * Objects *)

Section Objects.
Context {A : Type}.

(** [createAssigner(keysFunc, undefinedOnly)] on plain objects: [_.extend],
    [_.extendOwn] and, with [undefinedOnly], [_.defaults]. *)
Definition assignKey (undefinedOnly : bool) (obj : list (jsstr * A)) (kv : jsstr * A) : list (jsstr * A) :=
  if undefinedOnly && bool_decide (is_Some (propOf kv.1 obj)) then obj
  else alterProp kv.1 (fun _ => kv.2) obj.
Definition createAssigner (undefinedOnly : bool) (obj : list (jsstr * A)) (sources : list (list (jsstr * A))) : list (jsstr * A) :=
  fold_left (fun obj source => fold_left (assignKey undefinedOnly) (ownProps source) obj) sources obj.
Definition us_extend := createAssigner false.
Definition us_defaults := createAssigner true.
Definition us_clone (obj : list (jsstr * A)) : list (jsstr * A) := us_extend [] [obj].

(** [_.pick] and [_.omit] with a predicate. *)
Definition us_pick (obj : list (jsstr * A)) (iteratee : A -> jsstr -> bool) : list (jsstr * A) :=
  fold_left (fun result '(k, v) => if iteratee v k then alterProp k (fun _ => v) result else result) (ownProps obj) [].
Definition us_omit (obj : list (jsstr * A)) (iteratee : A -> jsstr -> bool) : list (jsstr * A) :=
  us_pick obj (fun v k => negb (iteratee v k)).

(** [_.pick] and [_.omit] with names. *)
Definition us_pickKeys (obj : list (jsstr * A)) (keys : list jsstr) : list (jsstr * A) :=
  fold_left (fun result key => match propOf key obj with Some v => alterProp key (fun _ => v) result | None => result end) keys [].
Definition us_omitKeys (obj : list (jsstr * A)) (keys : list jsstr) : list (jsstr * A) :=
  us_pick obj (fun _ key => negb (bool_decide (key ∈ keys))).

(** [_.object] on pairs. *)
Definition us_object (list_ : list (jsstr * A)) : list (jsstr * A) :=
  fold_left (fun result '(k, v) => alterProp k (fun _ => v) result) list_ [].

(** [_.object(list, values)]; [None] is undefined. *)
Definition us_objectOf (list_ : list jsstr) (values : list A) : list (jsstr * option A) :=
  fold_left (fun result '(k, i) => alterProp k (fun _ => match i with KIndex i => values !!z i | KName _ => None end) result)
    (visits (Arr list_)) [].

(** [_.isMatch(object, attrs)] and [_.matcher(attrs)], [_.where] and [_.findWhere]. *)
Definition us_isMatch `{EqDecision A} (object attrs : list (jsstr * A)) : bool :=
  forallb (fun '(k, v) => bool_decide (propOf k object = Some v)) (ownProps attrs).
Definition us_matcher `{EqDecision A} (attrs : list (jsstr * A)) : list (jsstr * A) -> bool :=
  let attrs := us_extend [] [attrs] in
  fun obj => us_isMatch obj attrs.
Definition us_where `{EqDecision A} (c : coll (list (jsstr * A))) (attrs : list (jsstr * A)) : list (list (jsstr * A)) :=
  us_filter c (fun v _ => us_matcher attrs v).
Definition us_findWhere `{EqDecision A} (c : coll (list (jsstr * A))) (attrs : list (jsstr * A)) : outcome (option (list (jsstr * A))) :=
  us_find c (fun v _ => us_matcher attrs v).

(** [_.pluck]; [None] is undefined. *)
Definition us_pluck (c : coll (list (jsstr * A))) (key : jsstr) : list (option A) := us_map c (fun v _ => propOf key v).

End Objects.

(** [_.invert]. *)
Definition us_invert (obj : list (jsstr * jsstr)) : list (jsstr * jsstr) :=
  fold_left (fun result '(k, v) => alterProp v (fun _ => k) result) (ownProps obj) [].

(** * Functions *)

(** [_.memoize(func, hasher)]: the cache and the calls of [func], last first. *)
Definition us_memoize {K V} (func : K -> V) (hasher : K -> jsstr) (key : K) (st : gmap jsstr V * list K) : V * (gmap jsstr V * list K) :=
  let '(cache, calls) := st in
  let address := hasher key in
  match cache !! address with
  | Some v => (v, st)
  | None => (func key, (<[address := func key]> cache, key :: calls))
  end.

(** [_.after(times, func)] and [_.before(times, func)]: a call, with the counter. *)
Definition us_after {V} (func : V) (times : Z) : option V * Z :=
  let times := times - 1 in
  (if times <? 1 then Some func else None, times).
Definition us_before {V} (func : V) (times : Z) (memo : option V) : option V * Z :=
  let times := times - 1 in
  (if 0 <? times then Some func else memo, times).

(** The arguments that a function made by [_.partial] passes: [None] in
    [boundArgs] is the placeholder, [None] in the result is undefined. *)
Fixpoint partialArgs {V} (boundArgs : list (option V)) (arguments : list V) : list (option V) :=
  match boundArgs with
  | [] => map Some arguments
  | Some b :: boundArgs' => Some b :: partialArgs boundArgs' arguments
  | None :: boundArgs' => head arguments :: partialArgs boundArgs' (tail arguments)
  end.

(** [_.compose], on functions from a type to itself. *)
Definition us_compose {V} (args : list (V -> V)) (x : V) : outcome V :=
  match rev args with
  | [] => Throw "TypeError"
  | f :: before => Ret (fold_left (fun result g => g result) before (f x))
  end.

(** [_.uniqueId(prefix)] with the counter. *)
Definition us_uniqueId (prefix : jsstr) (idCounter : Z) : jsstr * Z := (prefix ++ numToStr (idCounter + 1), idCounter + 1).

(** * Escaping *)

Definition escapeMap : list (jsstr * jsstr) :=
  [(js "&", js "&amp;"); (js "<", js "&lt;"); (js ">", js "&gt;"); ([34], js "&quot;"); (js "'", js "&#x27;"); (js "`", js "&#x60;")].
Definition unescapeMap : list (jsstr * jsstr) := us_invert escapeMap.

(** [createEscaper(map)]; both sources are valid patterns. *)
Definition createEscaper (m : list (jsstr * jsstr)) (string : jsstr) : outcome jsstr :=
  let source := js "(?:" ++ join (js "|") (us_keys m) ++ js ")" in
  match newRegExp source with
  | None => Throw "SyntaxError"
  | Some r =>
      Ret (if re_test r string
           then replaceG r (fun mtch _ => default (js "undefined") (propOf mtch m)) string
           else string)
  end.
Definition us_escape := createEscaper escapeMap.
Definition us_unescape := createEscaper unescapeMap.
