(* ===== verification/UnderscoreFacts.v ===== *)
(** Theorems about the helpers of [Underscore]: the binary search of
    [_.indexOf], the shuffle, and escaping. *)
From Stdlib Require Import ZArith Lia.
From stdpp Require Import base gmap strings list sorting.
From S2P Require Import Prelude JsString JsRegExp BraceExpansion Minimatch MinimatchFacts Underscore.

Local Open Scope Z_scope.
Open Scope js_scope.

(** * Escaping *)

(** The expression of an escaper: a choice of literal strings. *)
Fixpoint alts (l : jsstr) (ls : list jsstr) : re :=
  match ls with
  | [] => litSeq REmpty l
  | l' :: ls' => RAlt (litSeq REmpty l) (alts l' ls')
  end.

(** The first literal that starts the text, and what is left. *)
Fixpoint firstStrip (lits : list jsstr) (s : jsstr) : option jsstr :=
  match lits with
  | [] => None
  | l :: lits' => match strip l s with Some t => Some t | None => firstStrip lits' s end
  end.

Lemma firstStrip_None d lits c t : Forall (fun l => head l = Some d) lits -> c <> d -> firstStrip lits (c :: t) = None.
Proof.
  intros H Hne. induction H as [|l lits Hl _ IH]; cbn [firstStrip]; [done|]. destruct l as [|e l]; [done|].
  injection Hl as ->. cbn [strip]. rewrite (proj2 (Z.eqb_neq d c)) by done. apply IH.
Qed.

Lemma matchHere_alts whole l ls s :
  matchHere whole (RSeq REmpty (alts l ls)) s = (fun t => (t, ∅)) <$> firstStrip (l :: ls) s.
Proof.
  unfold matchHere. cbn [mtch].
  assert (H : forall l0, mtch whole (litSeq REmpty l0) (s, ∅) Some = (fun t => (t, ∅)) <$> strip l0 s).
  { intros l0. rewrite mtch_lit. cbn [mtch fst snd]. by destruct (strip l0 s). }
  revert l. induction ls as [|l' ls IH]; intros l; cbn [alts firstStrip mtch]; rewrite H; [by destruct (strip l s)|].
  destruct (strip l s); [done|]. cbn. by rewrite IH.
Qed.

Lemma execFrom_None_replace n whole r f s i : execFrom whole r s i = None -> replaceAll n whole r f s = s.
Proof.
  revert n i. induction s as [|c s IH]; intros [|n] i; cbn [execFrom replaceAll]; try done.
  destruct (matchHere whole r (c :: s)) as [[rest caps]|]; [done|]. intros H. f_equal. by eapply IH.
Qed.

(** An escaper replaces whether or not its test succeeds. *)
Lemma createEscaper_replace m l ls s :
  newRegExp (js "(?:" ++ join (js "|") (us_keys m) ++ js ")") = Some (RSeq REmpty (alts l ls)) ->
  createEscaper m s =
    Ret (replaceG (RSeq REmpty (alts l ls)) (fun x _ => default (js "undefined") (propOf x m)) s).
Proof.
  intros Hr. unfold createEscaper. rewrite Hr. f_equal. unfold re_test, exec.
  destruct (execFrom s (RSeq REmpty (alts l ls)) s 0) as [p|] eqn:E; [done|]. unfold replaceG.
  symmetry. by eapply execFrom_None_replace.
Qed.

Section Replace.
Context (whole l : jsstr) (ls : list jsstr) (f : jsstr -> captures -> jsstr).

Abbreviation repl n s := (replaceAll n whole (RSeq REmpty (alts l ls)) f s).

Lemma replace_hit n w t : w <> [] -> firstStrip (l :: ls) (w ++ t) = Some t -> repl (S n) (w ++ t) = f w ∅ ++ repl n t.
Proof.
  intros Hw Hs. destruct w as [|c w]; [done|]. cbn [app replaceAll]. cbn [app] in Hs. rewrite matchHere_alts, Hs. cbn [fmap option_fmap option_map].
  replace (len t =? len (c :: w ++ t)) with false.
  - replace (length (c :: w ++ t) - length t)%nat with (length (c :: w)) by (cbn; rewrite length_app; lia).
    pose proof (take_app_length (c :: w) t) as Ht. cbn [app] in Ht. by rewrite Ht.
  - symmetry. apply Z.eqb_neq. rewrite len_cons, len_app. pose proof (len_nonneg w). lia.
Qed.

Lemma replace_miss n c t : firstStrip (l :: ls) (c :: t) = None -> repl (S n) (c :: t) = c :: repl n t.
Proof. intros Hs. cbn [replaceAll]. by rewrite matchHere_alts, Hs. Qed.

End Replace.

(** What a character is escaped to. *)
Definition escChar (c : Z) : jsstr := default [c] (propOf [c] escapeMap).

Lemma escChar_cases c :
  (c = 38 /\ escChar c = js "&amp;") \/ (c = 60 /\ escChar c = js "&lt;") \/ (c = 62 /\ escChar c = js "&gt;") \/
  (c = 34 /\ escChar c = js "&quot;") \/ (c = 39 /\ escChar c = js "&#x27;") \/ (c = 96 /\ escChar c = js "&#x60;") \/
  (c ∉ [38; 60; 62; 34; 39; 96] /\ escChar c = [c]).
Proof.
  destruct (decide (c ∈ [38; 60; 62; 34; 39; 96])) as [Hin|Hout].
  - repeat (apply elem_of_cons in Hin as [->|Hin]; [by tauto|]). by apply elem_of_nil in Hin.
  - do 6 right. split; [done|]. unfold escChar, escapeMap. cbn [propOf]. unfold str_eqb.
    assert (Hne : forall d, d ∈ [38; 60; 62; 34; 39; 96] -> bool_decide ([d] = [c]) = false)
      by (intros d Hd; apply bool_decide_eq_false; intros [= ->]; done).
    change (js "&") with [38]. change (js "<") with [60]. change (js ">") with [62]. change (js "'") with [39]. change (js "`") with [96].
    rewrite !Hne by (by set_solver). done.
Qed.

Lemma escape_chars n w s : (length s <= n)%nat ->
  replaceAll n w (RSeq REmpty (alts [38] [[60]; [62]; [34]; [39]; [96]])) (fun x _ => default (js "undefined") (propOf x escapeMap)) s
  = concat (map escChar s).
Proof.
  revert n. induction s as [|c s IH]; intros [|n] Hn; cbn [length] in Hn; try done; [lia|]. cbn [map concat].
  destruct (escChar_cases c) as [[-> ->]|[[-> ->]|[[-> ->]|[[-> ->]|[[-> ->]|[[-> ->]|[Hc ->]]]]]]].
  1-6: match goal with |- context [replaceAll _ _ _ _ (?c :: ?t)] => change (c :: t) with ([c] ++ t) end;
    rewrite replace_hit by done; rewrite IH by lia; done.
  rewrite replace_miss; [by rewrite IH by lia|]. cbn [firstStrip strip].
  assert (Hne : forall d, d ∈ [38; 60; 62; 34; 39; 96] -> (d =? c) = false) by (intros d Hd; apply Z.eqb_neq; intros ->; done).
  rewrite !Hne by (by set_solver). done.
Qed.

Lemma unescape_chars n w s : (length (concat (map escChar s)) <= n)%nat ->
  replaceAll n w (RSeq REmpty (alts (js "&amp;") [js "&lt;"; js "&gt;"; js "&quot;"; js "&#x27;"; js "&#x60;"]))
    (fun x _ => default (js "undefined") (propOf x unescapeMap)) (concat (map escChar s)) = s.
Proof.
  revert n. induction s as [|c s IH]; intros n Hn; cbn [map concat] in *; [by destruct n|].
  rewrite length_app in Hn.
  destruct (escChar_cases c) as [[-> Ec]|[[-> Ec]|[[-> Ec]|[[-> Ec]|[[-> Ec]|[[-> Ec]|[Hc Ec]]]]]]]; rewrite Ec in *;
    (destruct n as [|n]; [cbn in Hn; lia|]).
  1-6: rewrite replace_hit by done; rewrite IH by (cbn in Hn; lia); done.
  cbn [app]. rewrite replace_miss; [rewrite IH by (cbn in Hn; lia); done|].
  apply (firstStrip_None 38); [by repeat constructor|]. intros ->. apply Hc. by apply elem_of_cons; left.
Qed.

(** Escaping for HTML is undone by unescaping: for every text, [_.escape]
    returns a text without any of the five characters < > quote apostrophe
    backquote, from which [_.unescape] returns the original. *)
Lemma escape_roundtrip (s : jsstr) :
  exists e, us_escape s = Ret e /\ Forall (fun c => c ∉ [60; 62; 34; 39; 96]) e /\ us_unescape e = Ret s.
Proof.
  exists (concat (map escChar s)). split_and!.
  - unfold us_escape. rewrite (createEscaper_replace _ [38] [[60]; [62]; [34]; [39]; [96]]) by (vm_compute; reflexivity).
    f_equal. apply escape_chars. lia.
  - induction s as [|c s IH]; cbn [map concat]; [constructor|]. apply Forall_app. split; [|done].
    destruct (escChar_cases c) as [[-> ->]|[[-> ->]|[[-> ->]|[[-> ->]|[[-> ->]|[[-> ->]|[Hc ->]]]]]]];
      repeat (constructor; [set_solver by done|]); try constructor.
  - unfold us_unescape. rewrite (createEscaper_replace _ (js "&amp;") [js "&lt;"; js "&gt;"; js "&quot;"; js "&#x27;"; js "&#x60;"])
      by (vm_compute; reflexivity). f_equal. apply unescape_chars. lia.
Qed.

(** * Searching *)

Section Search.
Context {A : Type} `{EqDecision A} (nan : A -> bool) (lt : A -> A -> bool).

(** The first position of [item] at or after [from], or -1. *)
Definition firstFrom (array : list A) (item : A) (from k : Z) : Prop :=
  (k = -1 /\ forall j, from <= j -> array !!z j <> Some item) \/
  (from <= k /\ array !!z k = Some item /\ forall j, from <= j < k -> array !!z j <> Some item).

Lemma firstFrom_unique array item k k' : firstFrom array item 0 k -> firstFrom array item 0 k' -> k = k'.
Proof.
  intros [[-> H]|(H1 & H2 & H3)] [[-> H']|(H1' & H2' & H3')]; [done|by destruct (H k')|by destruct (H' k)|].
  destruct (Z.lt_trichotomy k k') as [Hlt|[|Hlt]]; [|done|]; exfalso; [by apply (H3' k); [lia|]|by apply (H3 k'); [lia|]].
Qed.

Lemma strictEqAt_spec array k item : nan item = false -> strictEqAt nan array k item = bool_decide (array !!z k = Some item).
Proof. unfold strictEqAt. intros ->. apply andb_true_r. Qed.

Lemma indexLoop_first fuel array item idx : nan item = false -> 0 <= idx -> (Z.to_nat (len array - idx) < fuel)%nat ->
  returns (indexLoop nan fuel 1 array item (len array) idx) (firstFrom array item idx).
Proof.
  intros Hn. revert idx. induction fuel as [|fuel IH]; intros idx Hi Hf; [lia|]. cbn [indexLoop]. rewrite strictEqAt_spec by done.
  destruct (Z.leb_spec 0 idx); [|lia]. cbn [andb]. destruct (Z.ltb_spec idx (len array)) as [Hlt|Hge].
  - case_bool_decide as Hx; [apply returns_ret; right; split_and!; [lia|done|lia]|].
    destruct (IH (idx + 1)) as (k & -> & Hk); [lia|lia|]. apply returns_ret.
    assert (Hstep : forall j, idx <= j -> j = idx \/ idx + 1 <= j) by lia.
    destruct Hk as [[-> Hk]|(H1 & H2 & H3)]; [left; split; [done|]|right; split_and!; [lia|done|]];
      intros j Hj; destruct (Hstep j) as [->|]; (lia || done || auto with lia).
  - apply returns_ret. left. split; [done|]. intros j Hj Hx%idx_Some_range. lia.
Qed.

Context (Hirr : forall a, lt a a = false) (Htrans : forall a b c, lt a b = true -> lt b c = true -> lt a c = true)
  (Htot : forall a b, lt a b = false -> lt b a = false -> a = b).

(** The binary search stops at the first element that is not below the value. *)
Lemma sortedLoop_ok fuel array v low high :
  StronglySorted (fun a b => lt b a = false) array ->
  0 <= low <= high -> high <= len array -> (Z.to_nat (high - low) <= fuel)%nat ->
  (forall j x, j < low -> array !!z j = Some x -> lt x v = true) ->
  (forall j x, high <= j -> array !!z j = Some x -> lt x v = false) ->
  returns (sortedLoop fuel lt id array v low high) (fun k => 0 <= k <= len array /\
    (forall j x, j < k -> array !!z j = Some x -> lt x v = true) /\
    (forall j x, k <= j -> array !!z j = Some x -> lt x v = false)).
Proof.
  intros Hs. revert low high. induction fuel as [|fuel IH]; intros low high Hl Hh Hf Hlo Hhi; cbn [sortedLoop];
    (destruct (Z.ltb_spec low high) as [Hlt|Hge]; [|apply returns_ret; split_and!; [lia|lia|done|];
       intros j x Hj; apply Hhi; lia]); [lia|].
  set (mid := (low + high) / 2). assert (Hm : low <= mid < high) by (unfold mid; split; [apply Z.div_le_lower_bound|apply Z.div_lt_upper_bound]; lia).
  destruct (idx_is_Some array mid) as [y Hy]; [lia|]. rewrite Hy. cbn [orTypeError]. rewrite bind_Ret. cbn [id].
  assert (Hmono : forall i j x z, i <= j -> array !!z i = Some x -> array !!z j = Some z -> lt z x = false).
  { intros i j x z Hij Hx Hz. destruct (Z.eq_dec i j) as [->|]; [rewrite Hx in Hz; injection Hz as ->; apply Hirr|].
    unfold idx in Hx, Hz. destruct (Z.ltb_spec i 0), (Z.ltb_spec j 0); try done; try lia.
    apply (StronglySorted_nth _ array (Z.to_nat i) (Z.to_nat j) x z Hs); [lia|done|done]. }
  destruct (lt y v) eqn:Ey.
  - apply IH; try lia; [|done]. intros j x Hj Hx. destruct (lt x v) eqn:Ex; [done|].
    pose proof (Hmono j mid x y ltac:(lia) Hx Hy) as Hyx.
    destruct (lt v x) eqn:Evx; [by rewrite (Htrans y v x Ey Evx) in Hyx|]. rewrite (Htot x v Ex Evx) in Hyx. congruence.
  - apply IH; try lia; [done|]. intros j x Hj Hx. destruct (lt x v) eqn:Ex; [|done].
    pose proof (Hmono mid j y x ltac:(lia) Hy Hx) as Hxy.
    destruct (lt v y) eqn:Evy; [by rewrite (Htrans x v y Ex Evy) in Hxy|]. rewrite (Htot y v Ey Evy) in Hxy. congruence.
Qed.

End Search.

(** The binary search that [_.indexOf] uses for arrays said to be sorted is
    equivalent to the linear search, for any strict total order in which the
    array is sorted (duplicates allowed) and any item but NaN: both return the
    first position of the item, or -1 when it is absent. *)
Lemma indexOf_sorted {A} `{EqDecision A} (nan : A -> bool) (lt : A -> A -> bool) (array : list A) (item : A) :
  (forall a, lt a a = false) -> (forall a b c, lt a b = true -> lt b c = true -> lt a c = true) ->
  (forall a b, lt a b = false -> lt b a = false -> a = b) ->
  nan item = false -> StronglySorted (fun a b => lt b a = false) array ->
  us_indexOf nan lt array item IdxSorted = us_indexOf nan lt array item IdxAbsent /\
  returns (us_indexOf nan lt array item IdxSorted) (firstFrom array item 0).
Proof.
  intros Hirr Htrans Htot Hn Hs. unfold us_indexOf, createIndexFinder, indexScan. change (0 <? 1) with true. cbn [andb].
  rewrite Hn. destruct (indexLoop_first nan (S (Z.to_nat (len array))) array item 0) as (k & Hk & Hfirst); [done|lia|lia|].
  cbv beta iota zeta. rewrite Hk.
  destruct (Z.eqb_spec (len array) 0) as [Hz|Hnz]; cbn [negb]; cbv beta iota; [by split; [|apply returns_ret]|].
  unfold us_sortedIndex. destruct (sortedLoop_ok lt Hirr Htrans Htot (length array) array item 0 (len array) Hs)
    as (p & Hp & Hrange & Hbelow & Habove);
    [pose proof (len_nonneg array); lia|lia|unfold len; lia|intros j x Hj Hx%idx_Some_range; lia|intros j x Hj Hx%idx_Some_range; lia|].
  change (id item) with item. rewrite Hp, bind_Ret, strictEqAt_spec by done.
  assert (Hpf : firstFrom array item 0 (if bool_decide (array !!z p = Some item) then p else -1)).
  { assert (Hpre : forall j, j < p -> array !!z j <> Some item) by (intros j Hj Hx; specialize (Hbelow _ _ Hj Hx); by rewrite Hirr in Hbelow).
    case_bool_decide as Hx; [right; split_and!; [lia|done|intros j Hj; apply Hpre; lia]|]. left. split; [done|].
    intros j Hj Hjx. destruct (Z.lt_trichotomy j p) as [Hlt|[->|Hgt]]; [by apply (Hpre j)|done|].
    destruct (idx_is_Some array p) as [y Hy]; [apply idx_Some_range in Hjx; lia|].
    pose proof (Habove p y ltac:(lia) Hy) as Hyv.
    assert (lt item y = false).
    { unfold idx in Hy, Hjx. destruct (Z.ltb_spec j 0), (Z.ltb_spec p 0); try done; try lia.
      apply (StronglySorted_nth _ array (Z.to_nat p) (Z.to_nat j) y item Hs); [lia|done|done]. }
    rewrite (Htot y item) in Hy by done. done. }
  rewrite (firstFrom_unique array item _ _ Hpf Hfirst). by split; [|apply returns_ret].
Qed.

(** With a start before the array, the search for NaN from the right looks at a
    slice whose end counts from the end of the array, and finds what the search
    for another value does not. *)
Lemma lastIndexOf_nan_before_start :
  us_lastIndexOf (Z.eqb 0) Z.ltb [0; 1; 2] 0 (IdxNumber (-5)) = Ret 0 /\
  us_lastIndexOf (Z.eqb 0) Z.ltb [1; 0; 2] 1 (IdxNumber (-5)) = Ret (-1).
Proof. split; reflexivity. Qed.

(** * Shuffling *)

Lemma shuffleLoop_perm {A} (set : list A) rands index shuffled rest :
  (forall i n, 0 < n -> 0 <= rands i n < n) -> (index = length shuffled)%nat -> rest = replicate (length set) None ->
  exists final, shuffleLoop set rands index (map Some shuffled ++ rest) = map Some final /\ final ≡ₚ shuffled ++ set.
Proof.
  intros Hr. revert index shuffled rest. induction set as [|x set IH]; intros index shuffled rest Hi ->; cbn [shuffleLoop length replicate].
  { exists shuffled. by rewrite !app_nil_r. }
  unfold us_random. cbn [fst snd]. set (rand := 0 + rands index (Z.of_nat index - 0 + 1)).
  assert (Hrand : 0 <= rand <= Z.of_nat index) by (specialize (Hr index (Z.of_nat index - 0 + 1) ltac:(lia)); unfold rand; lia).
  destruct (Z.eqb_spec rand (Z.of_nat index)) as [->|Hne]; cbn [negb].
  - unfold setidx. destruct (Z.ltb_spec (Z.of_nat index) 0); [lia|]. rewrite Nat2Z.id.
    rewrite insert_app_r_alt by (rewrite length_map; lia). rewrite length_map, <- Hi, Nat.sub_diag. cbn [insert list_insert].
    destruct (IH (S index) (shuffled ++ [x]) (replicate (length set) None)) as (final & Hf & Hp); [rewrite length_app; cbn; lia|done|].
    exists final. rewrite <- Hf, map_app, <- (app_assoc _ _ (replicate _ _)). by rewrite Hp, <- app_assoc.
  - destruct (lookup_lt_is_Some_2 shuffled (Z.to_nat rand)) as [y Hy]; [lia|].
    assert (Hat : (map Some shuffled ++ None :: replicate (length set) None) !!z rand = Some (Some y)).
    { unfold idx. destruct (Z.ltb_spec rand 0); [lia|]. rewrite lookup_app_l by (rewrite length_map; lia).
      by rewrite list_lookup_fmap, Hy. }
    rewrite Hat. cbn [default]. unfold setidx. destruct (Z.ltb_spec rand 0), (Z.ltb_spec (Z.of_nat index) 0); try lia. rewrite Nat2Z.id.
    rewrite insert_app_r_alt by (rewrite length_map; lia). rewrite length_map, <- Hi, Nat.sub_diag. cbn [insert list_insert].
    rewrite insert_app_l by (rewrite length_map; lia). rewrite <- list_fmap_insert.
    destruct (IH (S index) (<[Z.to_nat rand := x]> shuffled ++ [y]) (replicate (length set) None)) as (final & Hf & Hp);
      [rewrite length_app, length_insert; cbn; lia|done|].
    exists final. rewrite <- Hf, map_app, <- (app_assoc _ _ (replicate _ _)). split; [done|]. rewrite Hp, <- app_assoc.
    rewrite <- (take_drop_middle shuffled (Z.to_nat rand) y Hy) at 2. rewrite insert_take_drop by lia.
    rewrite <- !app_assoc. cbn. apply Permutation_app_head. rewrite <- !Permutation_middle. by apply Permutation_swap.
Qed.

(** Whatever random numbers are drawn, [_.shuffle] returns a permutation of
    the collection (no element is lost, duplicated or left a hole). *)
Lemma shuffle_permutes {A} (c : coll A) (rands : nat -> Z -> Z) :
  (forall i n, 0 < n -> 0 <= rands i n < n) ->
  exists shuffled, us_shuffle c rands = map Some shuffled /\ shuffled ≡ₚ us_toArray c.
Proof.
  intros Hr. unfold us_shuffle. destruct (shuffleLoop_perm (us_toArray c) rands 0 [] (replicate (length (us_toArray c)) None))
    as (final & Hf & Hp); [done|done|done|]. exists final. by rewrite <- Hf.
Qed.
