(* ===== verification/JsValue.v ===== *)
(** JavaScript values and the heap, for the code that looks into arbitrary
    values: the deep comparison of underscore (wordcut.js, module 25) and the
    inspection of values.

    Numbers are the integers with the zeros, infinities and NaN of IEEE 754.
    An object has a class, its own enumerable and its own hidden data properties
    in the order of their creation, and what it inherits as [constructor];
    accessors, symbols and other inherited properties are left out. *)
From Stdlib Require Import ZArith Lia.
From stdpp Require Import base gmap strings list.
From S2P Require Import Prelude JsString BraceExpansion Underscore.

Local Open Scope Z_scope.
Open Scope js_scope.

Inductive num := Num (n : Z) | NegZero | NaN | Infinity (negative : bool).
#[export] Instance num_eq_dec : EqDecision num.
Proof. solve_decision. Defined.

Inductive value := VUndefined | VNull | VBool (b : bool) | VNum (n : num) | VStr (s : jsstr) | VRef (l : nat).
#[export] Instance value_eq_dec : EqDecision value.
Proof. solve_decision. Defined.

(** The classes of objects; [selfInstance] tells the functions that are
    instances of themselves, as [Object] and [Function] are, and [ClsWrapper]
    is an object made by [_(obj)]; an error has the name and the message that it
    inherits. *)
Inductive cls :=
| ClsObject | ClsArray | ClsArguments
| ClsError (name message : jsstr)
| ClsFunction (name : jsstr) (selfInstance : bool)
| ClsDate (time : num)
| ClsRegExp (source : jsstr) (global ignoreCase multiline : bool)
| ClsString (s : jsstr) | ClsNumber (n : num) | ClsBoolean (b : bool)
| ClsWrapper (wrapped : value).

Record jsobj := mkObj {
  o_class : cls;
  o_constructor : option value;
  o_length : Z;
  o_props : list (jsstr * value);
  o_hidden : list (jsstr * value)
}.

Abbreviation jsheap := (gmap nat jsobj).

(** * Numbers *)

(** [x === y] on numbers. *)
Definition numEq (x y : num) : bool :=
  match x, y with
  | NaN, _ | _, NaN => false
  | (Num 0 | NegZero), (Num 0 | NegZero) => true
  | _, _ => bool_decide (x = y)
  end.

Definition isZero (x : num) : bool := match x with Num 0 | NegZero => true | _ => false end.
Definition isNaN (x : num) : bool := negb (numEq x x).

(** [1 / x === 1 / y], for a zero [x]. *)
Definition recipEq (x y : num) : bool :=
  match x, y with
  | Num 0, Num 0 | NegZero, NegZero => true
  | _, _ => false
  end.

(** * Values *)

(** [a === b]. *)
Definition strictEq (a b : value) : bool :=
  match a, b with
  | VNum x, VNum y => numEq x y
  | _, _ => bool_decide (a = b)
  end.

(** [v == null]. *)
Definition nullish (v : value) : bool := match v with VUndefined | VNull => true | _ => false end.

(** The object a reference denotes. *)
Definition objAt (h : jsheap) (v : value) : option jsobj := match v with VRef l => h !! l | _ => None end.

Definition clsName (c : cls) : string :=
  match c with
  | ClsObject | ClsWrapper _ => "Object"
  | ClsArray => "Array"
  | ClsArguments => "Arguments"
  | ClsError _ _ => "Error"
  | ClsFunction _ _ => "Function"
  | ClsDate _ => "Date"
  | ClsRegExp _ _ _ _ => "RegExp"
  | ClsString _ => "String"
  | ClsNumber _ => "Number"
  | ClsBoolean _ => "Boolean"
  end.

(** What [Object.prototype.toString.call(v)] has after "object". *)
Definition className (h : jsheap) (v : value) : string :=
  match v with
  | VUndefined => "Undefined"
  | VNull => "Null"
  | VBool _ => "Boolean"
  | VNum _ => "Number"
  | VStr _ => "String"
  | VRef l => match h !! l with Some o => clsName (o_class o) | None => "Object" end
  end.

Definition typeof (h : jsheap) (v : value) : string :=
  match v with
  | VUndefined => "undefined"
  | VNull => "object"
  | VBool _ => "boolean"
  | VNum _ => "number"
  | VStr _ => "string"
  | VRef l => match h !! l with Some (mkObj (ClsFunction _ _) _ _ _ _) => "function" | _ => "object" end
  end.

(** [String(v)] of a string, a String object or a regular expression. *)
Definition stringOf (h : jsheap) (v : value) : jsstr :=
  match v with
  | VStr s => s
  | _ =>
      match o_class <$> objAt h v with
      | Some (ClsString s) => s
      | Some (ClsRegExp source g i m) =>
          js "/" ++ source ++ js "/" ++ (if g then js "g" else []) ++ (if i then js "i" else []) ++ (if m then js "m" else [])
      | _ => []
      end
  end.

(** [+v] of a number, a boolean, their objects and a date. *)
Definition numberOf (h : jsheap) (v : value) : num :=
  let bool (b : bool) := Num (if b then 1 else 0) in
  match v with
  | VNum n => n
  | VBool b => bool b
  | _ =>
      match o_class <$> objAt h v with
      | Some (ClsNumber n) => n
      | Some (ClsBoolean b) => bool b
      | Some (ClsDate t) => t
      | _ => NaN
      end
  end.

(** The own properties of an object are those that [Object.keys] lists and the hidden
    (not enumerable) ones; [hasOwnProperty] finds both. *)
Definition ownProp (o : jsobj) (key : jsstr) : option value :=
  match propOf key (o_props o) with Some v => Some v | None => propOf key (o_hidden o) end.
(** [o[key]], for an own property. *)
Definition readProp (o : jsobj) (key : jsstr) : value := default VUndefined (ownProp o key).

(** Every reference of the heap leads to an object. *)
Definition valid (h : jsheap) (v : value) : Prop := match v with VRef l => is_Some (h !! l) | _ => True end.
Definition validObj (h : jsheap) (o : jsobj) : Prop :=
  (forall k v, propOf k (o_props o) = Some v \/ propOf k (o_hidden o) = Some v -> valid h v) /\
  match o_class o with ClsWrapper w => valid h w /\ w <> VNull | _ => True end.
Definition closed (h : jsheap) : Prop := map_Forall (fun _ o => validObj h o) h.

Lemma ownProp_valid h o k v : validObj h o -> ownProp o k = Some v -> valid h v.
Proof. intros [Hp _]. unfold ownProp. destruct (propOf k (o_props o)) eqn:E; [intros [= <-]|]; eauto. Qed.

Lemma readProp_valid h o k : validObj h o -> valid h (readProp o k).
Proof. intros Ho. unfold readProp. destruct (ownProp o k) eqn:E; [by eapply ownProp_valid|done]. Qed.

Lemma objAt_ref h v o : objAt h v = Some o -> exists l, v = VRef l /\ h !! l = Some o.
Proof. destruct v; cbn; try done. eauto. Qed.

Lemma closed_at h v o : closed h -> objAt h v = Some o -> validObj h o.
Proof. intros Hc (l & -> & Hl)%objAt_ref. exact (Hc l o Hl). Qed.

(** A list of distinct references is no longer than the heap. *)
Lemma refs_bound (h : jsheap) (refs : list value) : NoDup refs ->
  Forall (fun x => exists l, x = VRef l /\ is_Some (h !! l)) refs -> (length refs <= size h)%nat.
Proof.
  intros Hnd Hh. assert (exists locs, refs = map VRef locs /\ Forall (fun l => l ∈ dom h) locs) as (locs & -> & Hl).
  { clear Hnd. induction Hh as [|x refs (l & -> & Hl) _ (locs & -> & Hlocs)]; [by exists []|].
    exists (l :: locs). split; [done|]. constructor; [by apply elem_of_dom|done]. }
  rewrite length_map, <- size_dom. apply NoDup_fmap_1 in Hnd.
  rewrite <- (size_list_to_set (C := gset nat)) by done. apply subseteq_size. intros l Hin%elem_of_list_to_set.
  by rewrite Forall_forall in Hl; apply Hl.
Qed.
