(* ===== verification/DeepEqual.v ===== *)
(** The deep comparison of underscore (wordcut.js, module 25): [eq] and
    [_.isEqual], on values of a heap that may have cycles.

    The two stacks of [eq] are lists with their top first.  A comparison that
    returns true leaves the stacks as they were, one that returns false ends
    the whole comparison, so the stacks are passed down. *)
From Stdlib Require Import ZArith Lia.
From stdpp Require Import base gmap strings list relations.
From S2P Require Import Prelude JsString BraceExpansion Underscore JsValue.

Local Open Scope Z_scope.
Open Scope js_scope.

(** A loop that stops at the first false answer. *)
Fixpoint allO {A} (f : A -> outcome bool) (l : list A) : outcome bool :=
  match l with
  | [] => Ret true
  | x :: l' => r ← f x; if (r : bool) then allO f l' else Ret false
  end.

Section Equal.
Context (h : jsheap).

(** [if (a instanceof _) a = a._wrapped]. *)
Definition unwrap (v : value) : value :=
  match o_class <$> objAt h v with
  | Some (ClsWrapper w) => w
  | _ => v
  end.

(** The first comparison of [eq], for [a === b]: [a !== 0 || 1 / a === 1 / b]. *)
Definition egal (a b : value) : bool :=
  match a, b with
  | VNum x, VNum y => negb (isZero x) || recipEq x y
  | _, _ => true
  end.

(** The switch on the class: strings, numbers, dates and the like are compared
    by value. *)
Definition eqLeaf (a b : value) : option bool :=
  let name := className h a in
  if bool_decide (name = "RegExp") || bool_decide (name = "String") then Some (str_eqb (stringOf h a) (stringOf h b))
  else if bool_decide (name = "Number") then
    Some (let x := numberOf h a in
          let y := numberOf h b in
          if isNaN x then isNaN y else if isZero x then recipEq x y else numEq x y)
  else if bool_decide (name = "Date") || bool_decide (name = "Boolean") then Some (numEq (numberOf h a) (numberOf h b))
  else None.

(** [_.isFunction(c) && c instanceof c]. *)
Definition selfInstance (c : option value) : bool :=
  match o_class <$> (c ≫= objAt h) with
  | Some (ClsFunction _ b) => b
  | _ => false
  end.

(** The test of the constructors. *)
Definition ctorsDiffer (oa ob : jsobj) : bool :=
  let aCtor := o_constructor oa in
  let bCtor := o_constructor ob in
  negb (strictEq (default VUndefined aCtor) (default VUndefined bCtor))
  && negb (selfInstance aCtor && selfInstance bCtor)
  && (bool_decide (is_Some aCtor) && bool_decide (is_Some bCtor)).

(** [while (length--) if (aStack[length] === a) return bStack[length] === b]. *)
Fixpoint onStack (a b : value) (aStack bStack : list value) : option bool :=
  match aStack, bStack with
  | x :: aStack', y :: bStack' => if strictEq x a then Some (strictEq y b) else onStack a b aStack' bStack'
  | _, _ => None
  end.

(** The keys in the order in which their values are compared: the indices of
    an array, the names of an object, from the last to the first. *)
Definition slots (areArrays : bool) (o : jsobj) : list jsstr :=
  if areArrays then rev (map numToStr (zrange 0 (o_length o - 1))) else rev (us_keys (o_props o)).

(** What is counted before the values are compared. *)
Definition size_ (areArrays : bool) (o : jsobj) : Z := if areArrays then o_length o else len (us_keys (o_props o)).

(** [b[key]], where an object must have the key itself: [_.has(b, key)], which is
    [hasOwnProperty] and finds hidden properties too. *)
Definition counterpart (areArrays : bool) (ob : jsobj) (key : jsstr) : option value :=
  if areArrays then Some (readProp ob key) else ownProp ob key.

Fixpoint eq (fuel : nat) (a b : value) (aStack bStack : list value) : outcome bool :=
  match fuel with
  | O => OutOfFuel
  | S fuel =>
      if strictEq a b then Ret (egal a b)
      else if nullish a || nullish b then Ret (strictEq a b)
      else
        let a := unwrap a in
        let b := unwrap b in
        if negb (bool_decide (className h a = className h b)) then Ret false
        else
          match eqLeaf a b with
          | Some r => Ret r
          | None =>
              let areArrays := bool_decide (className h a = "Array") in
              if negb areArrays && (negb (bool_decide (typeof h a = "object")) || negb (bool_decide (typeof h b = "object")))
              then Ret false
              else
                oa ← orTypeError (objAt h a);
                ob ← orTypeError (objAt h b);
                if negb areArrays && ctorsDiffer oa ob then Ret false
                else
                  match onStack a b aStack bStack with
                  | Some r => Ret r
                  | None =>
                      if negb (size_ areArrays oa =? size_ areArrays ob) then Ret false
                      else allO (fun key =>
                             match counterpart areArrays ob key with
                             | None => Ret false
                             | Some y => eq fuel (readProp oa key) y (a :: aStack) (b :: bStack)
                             end) (slots areArrays oa)
                  end
          end
  end.

(** [_.isEqual(a, b)]: an object is on the stack at most once, so the calls nest
    at most as deep as the heap has objects. *)
Definition isEqual (a b : value) : outcome bool := eq (S (S (size h))) a b [] [].

End Equal.

(** * What is compared *)

Section Bisimulation.
Context (h : jsheap).

(** Two values as [eq] relates them, where [R] relates the unwrapped objects. *)
Definition related (R : value -> value -> Prop) (x y : value) : Prop :=
  if strictEq x y then egal x y = true
  else nullish x = false /\ nullish y = false /\ R (unwrap h x) (unwrap h y).

(** What [eq] asks of two unwrapped values, whose parts are related by [R]:
    the same class, and equal contents or compatible constructors, the same
    number of parts and related parts. *)
Definition matching (R : value -> value -> Prop) (a b : value) : Prop :=
  className h a = className h b /\
  match eqLeaf h a b with
  | Some r => r = true
  | None =>
      let areArrays := bool_decide (className h a = "Array") in
      exists oa ob, objAt h a = Some oa /\ objAt h b = Some ob /\
        (areArrays = false -> typeof h a = "object" /\ typeof h b = "object" /\ ctorsDiffer h oa ob = false) /\
        size_ areArrays oa = size_ areArrays ob /\
        Forall (fun key => exists y, counterpart areArrays ob key = Some y /\ R (readProp oa key) y) (slots areArrays oa)
  end.

Definition bisimulation (R : value -> value -> Prop) : Prop := forall a b, R a b -> matching (related R) a b.




(** ** Soundness: the pairs that a successful comparison visits *)









(** ** Termination: the objects on the stack are distinct objects of the heap *)









(** ** Completeness: a bisimulation that is a function on the cycles *)




End Bisimulation.


(** Two objects that hold themselves (0 and 1) and a cycle of two objects (2, 3). *)
Definition cyclicHeap : jsheap :=
  list_to_map (map (fun '(l, l') => (l, mkObj ClsObject None 0 [(js "next", VRef l')] [])) [(0, 0); (1, 1); (2, 3); (3, 2)]%nat).



(** The comparison is not complete for all bisimilar values: a cycle of one
    object and a cycle of two have the same parts at every depth. *)
Lemma isEqual_unrolled :
  isEqual cyclicHeap (VRef 0) (VRef 2) = Ret false /\
  exists R, bisimulation cyclicHeap R /\ related cyclicHeap R (VRef 0) (VRef 2).
Proof.
  split; [vm_compute; reflexivity|].
  exists (fun x y => x = VRef 0 /\ (y = VRef 2 \/ y = VRef 3)). split; [|by vm_compute; auto].
  intros x y [-> [-> | ->]]; (split; [reflexivity|]); change (eqLeaf _ _ _) with (@None bool); cbv iota zeta;
    (eexists _, _; split_and!; [reflexivity|reflexivity|by vm_compute|reflexivity|]);
    (constructor; [|constructor]); eexists; (split; [reflexivity|]); vm_compute; auto.
Qed.

(** Two wrappers of null, which [_.isEqual] looks into without a test. *)
Lemma isEqual_wrapped_null :
  isEqual (list_to_map (map (fun l => (l, mkObj (ClsWrapper VNull) None 0 [] [])) [0; 1]%nat)) (VRef 0) (VRef 1) = Throw "TypeError".
Proof. vm_compute. reflexivity. Qed.

(** The comparison is not symmetric: a property that the first object shows may be a
    hidden one of the second, [{x: 1}] and [{y: 2}] with a hidden [x] of 1. *)
Lemma isEqual_hidden :
  let h := list_to_map [(0%nat, mkObj ClsObject None 0 [(js "x", VNum (Num 1))] []); (1%nat, mkObj ClsObject None 0 [(js "y", VNum (Num 2))] [(js "x", VNum (Num 1))])] in
  isEqual h (VRef 0) (VRef 1) = Ret true /\ isEqual h (VRef 1) (VRef 0) = Ret false.
Proof. vm_compute. auto. Qed.
