(* ===== verification/Inspect.v ===== *)
(** The printing of values by util (wordcut.js, module 28): [inspect] with its
    options, [_extend], [deprecate] and the type tests of modules 27 and 28, on
    the values and heaps of [JsValue].

    The texts of dates depend on the time zone of the host and are arguments,
    and so is what a user's [inspect] method returns.  [seen] is a stack that
    [formatValue] pushes on and pops from: it is passed down. *)
From Stdlib Require Import ZArith Lia.
From stdpp Require Import base gmap strings list.
From S2P Require Import Prelude JsString BraceExpansion Underscore JsValue.

Local Open Scope Z_scope.
Open Scope js_scope.

Definition NEWLINE : Z := 10.
Definition QUOTE : Z := 34.
Definition APOS : Z := 39.
Definition BSLASH : Z := 92.

(** * The language *)

(** [String(n)] of a number. *)
Definition numString (n : num) : jsstr :=
  match n with
  | Num z => numToStr z
  | NegZero => js "0"
  | NaN => js "NaN"
  | Infinity negative => (if negative then js "-" else []) ++ js "Infinity"
  end.

(** A hexadecimal digit. *)
Definition hexDigit (d : Z) : Z := if d <? 10 then 48 + d else 87 + d.

(** One code unit of [JSON.stringify(s)]. *)
Definition jsonChar (c : Z) : jsstr :=
  if c =? QUOTE then [BSLASH; QUOTE]
  else if c =? BSLASH then [BSLASH; BSLASH]
  else if c =? 8 then [BSLASH; 98]
  else if c =? 9 then [BSLASH; 116]
  else if c =? 10 then [BSLASH; 110]
  else if c =? 12 then [BSLASH; 102]
  else if c =? 13 then [BSLASH; 114]
  else if c <? 32 then [BSLASH; 117; 48; 48; hexDigit (c / 16); hexDigit (c mod 16)]
  else [c].

(** [JSON.stringify(s)] of a string.  A lone surrogate is copied, as in the engines
    before ES2019. *)
Definition jsonString (s : jsstr) : jsstr := [QUOTE] ++ concat (map jsonChar s) ++ [QUOTE].

(** [JSON.stringify(v)]: [prepare] is the call of [toJSON] and of the replacer, and
    [stack] has the objects on the way.  A cycle throws. *)
Fixpoint jsonText (h : jsheap) (prepare : value -> value) (fuel : nat) (stack : list value) (v : value) : outcome (option jsstr) :=
  match fuel with
  | O => OutOfFuel
  | S fuel =>
      let v := prepare v in
      match v with
      | VUndefined => Ret None
      | VNull => Ret (Some (js "null"))
      | VBool b => Ret (Some (if b then js "true" else js "false"))
      | VStr s => Ret (Some (jsonString s))
      | VNum n => Ret (Some match n with NaN | Infinity _ => js "null" | _ => numString n end)
      | VRef l =>
          o ← orTypeError (h !! l);
          match o_class o with
          | ClsString s => Ret (Some (jsonString s))
          | ClsNumber n => Ret (Some match n with NaN | Infinity _ => js "null" | _ => numString n end)
          | ClsBoolean b => Ret (Some (if b then js "true" else js "false"))
          | ClsFunction _ _ => Ret None
          | c =>
              if bool_decide (v ∈ stack) then Throw "TypeError: Converting circular structure to JSON"
              else
                match c with
                | ClsArray =>
                    parts ← mapO (fun i => jsonText h prepare fuel (v :: stack) (readProp o (numToStr i))) (zrange 0 (o_length o - 1));
                    Ret (Some (js "[" ++ join (js ",") (map (default (js "null")) parts) ++ js "]"))
                | _ =>
                    parts ← mapO (fun k => p ← jsonText h prepare fuel (v :: stack) (readProp o k); Ret (option_map (fun p => jsonString k ++ js ":" ++ p) p))
                              (us_keys (o_props o));
                    Ret (Some (js "{" ++ join (js ",") (omap id parts) ++ js "}"))
                end
          end
      end
  end.

(** [Error.prototype.toString.call(e)]. *)
Definition errorString (name message : jsstr) : jsstr :=
  match name, message with
  | [], _ => message
  | _, [] => name
  | _, _ => name ++ js ": " ++ message
  end.

(** [Object.getOwnPropertyNames(o)]: indices first, then the hidden properties,
    which exist since the creation of the object, then the other names. *)
Definition ownPropertyNames (o : jsobj) : list jsstr :=
  let keys := us_keys (o_props o) in
  filter (fun k => isIndex k = true) keys ++ map fst (o_hidden o) ++ filter (fun k => isIndex k = false) keys.

(** The value of the property descriptor. *)
Definition ownValue (o : jsobj) (key : jsstr) : value :=
  match propOf key (o_props o) with
  | Some v => v
  | None => default VUndefined (propOf key (o_hidden o))
  end.

(** * Type tests (modules 27 and 28) *)

Section Tests.
Context (h : jsheap).
Definition isArray (v : value) : bool := match o_class <$> objAt h v with Some ClsArray => true | _ => false end.
Definition isBoolean (v : value) : bool := bool_decide (typeof h v = "boolean").
Definition isNull (v : value) : bool := strictEq v VNull.
Definition isNullOrUndefined (v : value) : bool := nullish v.
Definition isNumber (v : value) : bool := bool_decide (typeof h v = "number").
Definition isString (v : value) : bool := bool_decide (typeof h v = "string").
Definition isUndefined (v : value) : bool := strictEq v VUndefined.
Definition isObject (v : value) : bool := bool_decide (typeof h v = "object") && negb (strictEq v VNull).
Definition isRegExp (v : value) : bool := isObject v && bool_decide (className h v = "RegExp").
Definition isDate (v : value) : bool := isObject v && bool_decide (className h v = "Date").
Definition isError (v : value) : bool := isObject v && bool_decide (className h v = "Error").
Definition isFunction (v : value) : bool := bool_decide (typeof h v = "function").
Definition isPrimitive (v : value) : bool :=
  strictEq v VNull || isBoolean v || isNumber v || isString v || isUndefined v.

(** [isBuffer(arg)]: an object with the three methods. *)
Definition isBuffer (v : value) : bool :=
  match objAt h v with
  | None => false
  | Some o =>
      bool_decide (typeof h v = "object")
      && forallb (fun k => isFunction (ownValue o (js k))) ["copy"; "fill"; "readUInt8"]%string
  end.
End Tests.

(** * Options and styles *)

(** [ctx]: [recurseTimes] and [depth] are [None] for null; [hook] is what the
    [inspect] method of a value returns, when it has one that is to be called, and
    [c_objString] is [String(v)] of an object, which runs its methods. *)
Record ctx := mkCtx {
  c_showHidden : bool;
  c_depth : option Z;
  c_colors : bool;
  c_hook : value -> option Z -> option value;
  c_dateString : num -> jsstr;
  c_dateUTC : num -> jsstr;
  c_objString : value -> jsstr
}.

Inductive styleType := SSpecial | SNumber | SBoolean | SUndefined | SNull | SString | SName | SDate | SRegexp.

(** [inspect.styles], as the two codes of the style in [inspect.colors]. *)
Definition styleCodes (s : styleType) : option (jsstr * jsstr) :=
  match s with
  | SSpecial => Some (js "36", js "39")
  | SNumber | SBoolean => Some (js "33", js "39")
  | SUndefined => Some (js "90", js "39")
  | SNull => Some (js "1", js "22")
  | SString => Some (js "32", js "39")
  | SDate => Some (js "35", js "39")
  | SRegexp => Some (js "31", js "39")
  | SName => None
  end.

Definition ESC : jsstr := [27; 91].

(** [stylizeWithColor] and [stylizeNoColor]. *)
Definition stylize (c : ctx) (str : jsstr) (s : styleType) : jsstr :=
  if c_colors c then
    match styleCodes s with
    | Some (on, off) => ESC ++ on ++ js "m" ++ str ++ ESC ++ off ++ js "m"
    | None => str
    end
  else str.

(** * Formatting *)

(** [s.replace(/'/g, "\\'")]. *)
Definition escapeApos (s : jsstr) : jsstr := concat (map (fun c => if c =? APOS then [BSLASH; APOS] else [c]) s).

(** [s.replace(/\\"/g, '"')], where the pattern is a backslash and a quote. *)
Fixpoint unescapeQuotes (s : jsstr) : jsstr :=
  match s with
  | [] => []
  | c :: s' =>
      match s' with
      | d :: s'' => if (c =? BSLASH) && (d =? QUOTE) then QUOTE :: unescapeQuotes s'' else c :: unescapeQuotes s'
      | [] => [c]
      end
  end.

(** [s.replace(/^"|"$/g, by)], on a text that starts and ends with a quote. *)
Definition replaceEnds (by_ : jsstr) (s : jsstr) : jsstr :=
  let s := match s with c :: s' => if c =? QUOTE then by_ ++ s' else s | [] => [] end in
  match last s with
  | Some c => if c =? QUOTE then take (length s - 1) s ++ by_ else s
  | None => s
  end.

(** [formatPrimitive(ctx, value)]; [None] is undefined. *)
Definition formatPrimitive (c : ctx) (v : value) : option jsstr :=
  match v with
  | VUndefined => Some (stylize c (js "undefined") SUndefined)
  | VStr s =>
      let simple := [APOS] ++ unescapeQuotes (escapeApos (replaceEnds [] (jsonString s))) ++ [APOS] in
      Some (stylize c simple SString)
  | VNum n => Some (stylize c (numString n) SNumber)
  | VBool b => Some (stylize c (js (if b then "true" else "false")) SBoolean)
  | VNull => Some (stylize c (js "null") SNull)
  | VRef _ => None
  end.

(** [String(v)]. *)
Definition valueString (c : ctx) (v : value) : jsstr :=
  match v with
  | VUndefined => js "undefined"
  | VNull => js "null"
  | VBool b => js (if b then "true" else "false")
  | VNum n => numString n
  | VStr s => s
  | VRef _ => c_objString c v
  end.

(** The name or the message of an error: its own property, or what its class has. *)
Definition errorField (c : ctx) (o : jsobj) (key fromClass ifUndefined : jsstr) : jsstr :=
  match ownProp o key with
  | None => fromClass
  | Some VUndefined => ifUndefined
  | Some v => valueString c v
  end.

(** [formatError(value)]. *)
Definition formatError (c : ctx) (o : jsobj) : jsstr :=
  js "[" ++ match o_class o with
            | ClsError n m => errorString (errorField c o (js "name") n (js "Error")) (errorField c o (js "message") m [])
            | _ => []
            end ++ js "]".

(** [key.match(/^\d+$/)]. *)
Definition allDigits (key : jsstr) : bool := negb (bool_decide (key = [])) && forallb isDigit key.

(** [name.match(/^"([a-zA-Z_][a-zA-Z_0-9]*)"$/)], on the key between the quotes. *)
Definition isIdentifier (key : jsstr) : bool :=
  match key with
  | [] => false
  | c :: key' => (isAlpha c || (c =? 95)) && forallb (fun d => isAlpha d || (d =? 95) || isDigit d) key'
  end.

(** [str.split('\n').map(line => pad + line).join('\n')]. *)
Definition indentLines (pad : jsstr) (str : jsstr) : jsstr := join [NEWLINE] (map (fun line => pad ++ line) (split1 NEWLINE str)).

(** [formatProperty(ctx, value, recurseTimes, visibleKeys, key, array)]:
    [format] is [formatValue] with the stack [seen]. *)
Definition formatProperty (c : ctx) (format : value -> option Z -> outcome jsstr) (seen : list value) (o : jsobj)
    (recurseTimes : option Z) (visibleKeys : list jsstr) (key : jsstr) (array : bool) : outcome jsstr :=
  let v := ownValue o key in
  str ← (if negb (bool_decide (v ∈ seen)) then
           str ← format v (option_map (fun n => n - 1) recurseTimes);
           Ret (if (0 <=? indexOf str [NEWLINE] 0) then
                  if array then substrFrom (indentLines (js "  ") str) 2
                  else [NEWLINE] ++ indentLines (js "   ") str
                else str)
         else Ret (stylize c (js "[Circular]") SSpecial));
  if negb (bool_decide (key ∈ visibleKeys)) then Ret ((js "[" ++ key ++ js "]") ++ js ": " ++ str)
  else if array && allDigits key then Ret str
  else
    let name := jsonString key in
    let name := if isIdentifier key then stylize c (substr name 1 (len name - 2)) SName
                else stylize c (replaceEnds [APOS] (unescapeQuotes (escapeApos name))) SString in
    Ret (name ++ js ": " ++ str).

(** [formatArray(ctx, value, recurseTimes, visibleKeys, keys)]. *)
Definition formatArray (property : jsstr -> bool -> outcome jsstr) (o : jsobj) (keys : list jsstr) : outcome (list jsstr) :=
  items ← mapO (fun i => match propOf (numToStr i) (o_props o) with
                         | Some _ => property (numToStr i) true
                         | None => Ret []
                         end) (zrange 0 (o_length o - 1));
  named ← mapO (fun key => property key true) (filter (fun key => allDigits key = false) keys);
  Ret (items ++ named).

(** [cur.replace(/\u001b\[\d\d?m/g, '')]. *)
Fixpoint stripColors (fuel : nat) (s : jsstr) : jsstr :=
  match fuel with
  | O => s
  | S fuel =>
      match s with
      | 27 :: 91 :: d :: 109 :: s' => if isDigit d then stripColors fuel s' else 27 :: stripColors fuel (91 :: d :: 109 :: s')
      | 27 :: 91 :: d :: e :: 109 :: s' =>
          if isDigit d && isDigit e then stripColors fuel s' else 27 :: stripColors fuel (91 :: d :: e :: 109 :: s')
      | c :: s' => c :: stripColors fuel s'
      | [] => []
      end
  end.

(** [reduceToSingleString(output, base, braces)]. *)
Definition reduceToSingleString (output : list jsstr) (base : jsstr) (braces : jsstr * jsstr) : jsstr :=
  let length_ := fold_left (fun prev cur => prev + len (stripColors (length cur) cur) + 1) output 0 in
  if 60 <? length_ then
    braces.1 ++ (if bool_decide (base = []) then [] else base ++ [NEWLINE; 32]) ++ js " "
      ++ join (js "," ++ [NEWLINE] ++ js "  ") output ++ js " " ++ braces.2
  else braces.1 ++ base ++ js " " ++ join (js ", ") output ++ js " " ++ braces.2.

Section Format.
Context (h : jsheap) (c : ctx).

(** The text of a function, in brackets. *)
Definition functionText (name : jsstr) : jsstr :=
  js "[Function" ++ (if bool_decide (name = []) then [] else js ": " ++ name) ++ js "]".

(** What an object without keys is printed as, when it is one of these. *)
Definition formatBare (v : value) (o : jsobj) : option jsstr :=
  match o_class o with
  | ClsFunction name _ => Some (stylize c (functionText name) SSpecial)
  | ClsRegExp _ _ _ _ => Some (stylize c (stringOf h v) SRegexp)
  | ClsDate t => Some (stylize c (c_dateString c t) SDate)
  | ClsError _ _ => Some (formatError c o)
  | _ => None
  end.

(** [base]. *)
Definition baseText (v : value) (o : jsobj) : jsstr :=
  match o_class o with
  | ClsFunction name _ => js " " ++ functionText name
  | ClsRegExp _ _ _ _ => js " " ++ stringOf h v
  | ClsDate t => js " " ++ c_dateUTC c t
  | ClsError _ _ => js " " ++ formatError c o
  | _ => []
  end.

(** [formatValue(ctx, value, recurseTimes)]. *)
Fixpoint formatValue (fuel : nat) (seen : list value) (v : value) (recurseTimes : option Z) : outcome jsstr :=
  match fuel with
  | O => OutOfFuel
  | S fuel =>
      match c_hook c v recurseTimes with
      | Some (VStr ret) => Ret ret
      | Some ret => formatValue fuel seen ret recurseTimes
      | None =>
          match formatPrimitive c v with
          | Some primitive => Ret primitive
          | None =>
              o ← orTypeError (objAt h v);
              let visibleKeys := us_keys (o_props o) in
              let keys := if c_showHidden c then ownPropertyNames o else visibleKeys in
              if isError h v && (bool_decide (js "message" ∈ keys) || bool_decide (js "description" ∈ keys)) then Ret (formatError c o)
              else
                match (if bool_decide (keys = []) then formatBare v o else None) with
                | Some text => Ret text
                | None =>
                    let array := isArray h v in
                    let braces := if array then (js "[", js "]") else (js "{", js "}") in
                    let base := baseText v o in
                    if bool_decide (keys = []) && (negb array || (o_length o =? 0)) then Ret (braces.1 ++ base ++ braces.2)
                    else if match recurseTimes with Some n => n <? 0 | None => false end then
                      Ret (if isRegExp h v then stylize c (stringOf h v) SRegexp else stylize c (js "[Object]") SSpecial)
                    else
                      let seen := v :: seen in
                      let property key array :=
                        formatProperty c (formatValue fuel seen) seen o recurseTimes visibleKeys key array in
                      output ← (if array then formatArray property o keys else mapO (fun key => property key array) keys);
                      Ret (reduceToSingleString output base braces)
                end
          end
      end
  end.

(** [inspect(obj, opts)], with the options in [c]: an object is on the stack at
    most once. *)
Definition inspect (v : value) : outcome jsstr := formatValue (S (size h)) [] v (c_depth c).

End Format.

(** * Other functions of util *)

(** [_extend(origin, add)]: the keys of [add] from the last to the first. *)
Definition extend_ {A} (origin : list (jsstr * A)) (add : list (jsstr * A)) : list (jsstr * A) :=
  fold_left (fun o kv => alterProp kv.1 (fun _ => kv.2) o) (rev (ownProps add)) origin.

(** A call of a function made by [deprecate(fn, msg)]: the flag [warned] and
    what was printed. *)
Record deprecation := mkDep { d_throw : bool; d_trace : bool; d_noDeprecation : bool }.
Definition deprecated {A} (p : deprecation) (msg : jsstr) (fn : A) (warned : bool) : outcome A * (bool * option (bool * jsstr)) :=
  if d_noDeprecation p then (Ret fn, (warned, None))
  else if warned then (Ret fn, (true, None))
  else if d_throw p then (Throw "Error", (false, None))
  else (Ret fn, (true, Some (d_trace p, msg))).

(** [pad(n)] and [timestamp()] of hours, minutes, seconds, day and month. *)
Definition pad2 (n : Z) : jsstr := if n <? 10 then js "0" ++ numToStr n else numToStr n.
Definition months : list jsstr :=
  map js ["Jan"; "Feb"; "Mar"; "Apr"; "May"; "Jun"; "Jul"; "Aug"; "Sep"; "Oct"; "Nov"; "Dec"]%string.
Definition timestamp (hours minutes seconds day month : Z) : jsstr :=
  join (js " ") [numToStr day; default (js "undefined") (months !!z month); join (js ":") [pad2 hours; pad2 minutes; pad2 seconds]].
