(* ===== verification/UtilFormat.v ===== *)
(** [util.format] (wordcut.js, module 28): the directives %s, %d, %j and %% of a
    format text, then the arguments that are left, on the values of [JsValue].

    The conversions of primitive values are those of the language.  What an object
    converts to is up to its methods, and what a text is as a number may be a fraction;
    these are arguments.  [JSON.stringify] is [jsonText] of [Inspect]. *)
From Stdlib Require Import ZArith Lia.
From stdpp Require Import base gmap strings list.
From S2P Require Import Prelude JsString JsRegExp BraceExpansion Underscore JsValue Inspect.

Local Open Scope Z_scope.
Open Scope js_scope.

Definition PERCENT : Z := 37.

(** [s.replace(r, f)] with the flag [g], where [f] has a state and may throw. *)
Fixpoint replaceM {S} (n : nat) (whole : jsstr) (r : re) (f : jsstr -> S -> outcome (jsstr * S)) (s : jsstr) (st : S) : outcome (jsstr * S) :=
  match n with
  | O => Ret (s, st)
  | Datatypes.S n =>
      match s with
      | [] => Ret ([], st)
      | ch :: rest =>
          let keep := '(t, st) ← replaceM n whole r f rest st; Ret (ch :: t, st) in
          match matchHere whole r s with
          | Some (rest', _) =>
              if len rest' =? len s then keep
              else '(t, st) ← f (take (length s - length rest') s) st; '(t', st) ← replaceM n whole r f rest' st; Ret (t ++ t', st)
          | None => keep
          end
      end
  end.

Section Format.
Context (h : jsheap) (c : ctx).
Context (objString : value -> outcome jsstr) (objNumber : value -> outcome num) (toJSON : value -> option value) (textNumber : jsstr -> num).

(** [String(v)], [Number(v)] and [JSON.stringify(v)]; the last may be undefined. *)
Definition String_ (v : value) : outcome jsstr :=
  match v with
  | VUndefined => Ret (js "undefined")
  | VNull => Ret (js "null")
  | VBool b => Ret (if b then js "true" else js "false")
  | VNum n => Ret (numString n)
  | VStr s => Ret s
  | VRef _ => objString v
  end.
Definition Number_ (v : value) : outcome num :=
  match v with
  | VUndefined => Ret NaN
  | VNull => Ret (Num 0)
  | VBool b => Ret (Num (if b then 1 else 0))
  | VNum n => Ret n
  | VStr s => Ret (textNumber s)
  | VRef _ => objNumber v
  end.
Definition stringify (v : value) : outcome (option jsstr) := jsonText h (fun v => default v (toJSON v)) (S (S (size h))) [] v.

Definition formatRegExp : re := RSeq (rchar PERCENT) (RSet (mkSet false [(115, 115); (100, 100); (106, 106); (37, 37)])).

(** The callback of [replace]; [i] is the index of the next argument. *)
Definition directive (args : list value) (x : jsstr) (i : Z) : outcome (jsstr * Z) :=
  if str_eqb x (js "%%") then Ret ([PERCENT], i)
  else if len args <=? i then Ret (x, i)
  else
    let arg := default VUndefined (args !!z i) in
    if str_eqb x (js "%s") then t ← String_ arg; Ret (t, i + 1)
    else if str_eqb x (js "%d") then n ← Number_ arg; Ret (numString n, i + 1)
    else if str_eqb x (js "%j") then
      match stringify arg with
      | Ret t => Ret (default (js "undefined") t, i + 1)
      | Throw _ => Ret (js "[Circular]", i + 1)
      | OutOfFuel => OutOfFuel
      end
    else Ret (x, i).

(** The loop over the arguments that are left. *)
Definition formatRest (str : jsstr) (x : value) : outcome jsstr :=
  t ← (if isNull x || negb (isObject h x) then String_ x else inspect h c x); Ret (str ++ js " " ++ t).
Fixpoint formatRests (str : jsstr) (xs : list value) : outcome jsstr :=
  match xs with [] => Ret str | x :: xs => str ← formatRest str x; formatRests str xs end.

(** [format(...args)]. *)
Definition format (args : list value) : outcome jsstr :=
  match args with
  | VStr f :: _ =>
      '(str, i) ← replaceM (S (length f)) f formatRegExp (directive args) f 1;
      formatRests str (sliceFrom args i)
  | _ => objects ← mapO (inspect h c) args; Ret (join (js " ") objects)
  end.

(** * What the directives mean *)

(** One pass over the format text. *)
Fixpoint scan (args : list value) (s : jsstr) (i : Z) : outcome (jsstr * Z) :=
  match s with
  | [] => Ret ([], i)
  | ch :: rest =>
      match rest with
      | d :: rest' =>
          if (ch =? PERCENT) && inSet (mkSet false [(115, 115); (100, 100); (106, 106); (37, 37)]) d
          then '(t, i) ← directive args [ch; d] i; '(t', i) ← scan args rest' i; Ret (t ++ t', i)
          else '(t, i) ← scan args rest i; Ret (ch :: t, i)
      | [] => Ret ([ch], i)
      end
  end.
End Format.

(** * Termination of [JSON.stringify] *)

Lemma bind_ends {A B} (m : outcome A) (f : A -> outcome B) : m <> OutOfFuel -> (forall a, f a <> OutOfFuel) -> (m ≫= f) <> OutOfFuel.
Proof. by destruct m; cbn. Qed.

Lemma mapO_ends {A B} (f : A -> outcome B) l : (forall x, f x <> OutOfFuel) -> mapO f l <> OutOfFuel.
Proof. intros Hf. induction l as [|x l IH]; cbn; [done|]. apply bind_ends; [done|]. intros y. by apply bind_ends. Qed.

(** The fuel is more than the number of objects that can be on the way. *)
Lemma jsonText_ends h prepare fuel stack v : NoDup stack -> Forall (fun x => exists l, x = VRef l /\ is_Some (h !! l)) stack ->
  (size h < fuel + length stack)%nat -> jsonText h prepare fuel stack v <> OutOfFuel.
Proof.
  revert stack v. induction fuel as [|fuel IH]; intros stack v Hnd Hst Hf; [pose proof (refs_bound h stack Hnd Hst); lia|].
  cbn [jsonText]. destruct (prepare v) as [| | | | |l]; try done. destruct (h !! l) as [o|] eqn:Hl; [|done]. rewrite (bind_Ret _ o : orTypeError (Some o) ≫= _ = _).
  destruct (bool_decide (VRef l ∈ stack)) eqn:Hin; [by destruct (o_class o)|]. apply bool_decide_eq_false in Hin.
  assert (Hrec : forall v, jsonText h prepare fuel (VRef l :: stack) v <> OutOfFuel).
  { intros v'. apply IH; [by constructor|constructor; [eauto|done]|cbn; lia]. }
  destruct (o_class o); try done; (apply bind_ends; [apply mapO_ends; intros x; try apply bind_ends; done|done]).
Qed.

Lemma stringify_ends h toJSON v : stringify h toJSON v <> OutOfFuel.
Proof. apply jsonText_ends; [constructor|constructor|cbn; lia]. Qed.

(** * The directives *)

Section Directives.
Context (h : jsheap) (c : ctx).
Context (objString : value -> outcome jsstr) (objNumber : value -> outcome num) (toJSON : value -> option value) (textNumber : jsstr -> num).
Notation directive := (directive h objString objNumber toJSON textNumber).
Notation scan := (scan h objString objNumber toJSON textNumber).
Notation format := (format h c objString objNumber toJSON textNumber).
Notation formatRests := (formatRests h c objString).

Lemma percent_set ch : inSet (mkSet false [(PERCENT, PERCENT)]) ch = (ch =? PERCENT).
Proof. unfold inSet. cbn. rewrite orb_false_r. destruct (Z.eqb_spec ch PERCENT) as [->|]; [done|]. apply andb_false_iff. rewrite !Z.leb_gt. lia. Qed.

(** The callback and the loop of [replace] are one pass over the text. *)
Lemma replace_scan n whole args s i : (length s < n)%nat -> replaceM n whole formatRegExp (directive args) s i = scan args s i.
Proof.
  revert s i. induction n as [|n IH]; intros s i Hn; [lia|]. destruct s as [|ch [|d s]]; cbn [length] in Hn; [done|..].
  - cbn [replaceM]. unfold matchHere, formatRegExp, rchar. cbn [mtch fst snd]. destruct (inSet _ ch); by rewrite IH by (cbn; lia).
  - assert (IH1 : replaceM n whole formatRegExp (directive args) (d :: s) i = scan args (d :: s) i) by (apply IH; cbn; lia).
    cbn [replaceM]. rewrite IH1. unfold matchHere, formatRegExp at 1, rchar. cbn [mtch fst snd]. rewrite percent_set.
    change (scan args (ch :: d :: s) i) with (if (ch =? PERCENT) && inSet (mkSet false [(115, 115); (100, 100); (106, 106); (37, 37)]) d
      then '(t, i) ← directive args [ch; d] i; '(t', i) ← scan args s i; Ret (t ++ t', i) else '(t, i) ← scan args (d :: s) i; Ret (ch :: t, i)).
    destruct (ch =? PERCENT); cbn [andb]; [|done]. destruct (inSet _ d); [|done].
    replace (len s =? len (ch :: d :: s)) with false by (symmetry; apply Z.eqb_neq; rewrite !len_cons; lia).
    replace (length (ch :: d :: s) - length s)%nat with 2%nat by (cbn [length]; lia). change (take 2 (ch :: d :: s)) with [ch; d]. destruct (directive args [ch; d] i) as [[t j]| |]; [|done..].
    rewrite !bind_Ret. by rewrite IH by lia.
Qed.

(** [format] is the pass over the text and then the arguments that are left. *)
Lemma format_scan f args : format (VStr f :: args) = ('(str, i) ← scan (VStr f :: args) f 1; formatRests str (sliceFrom (VStr f :: args) i)).
Proof. unfold UtilFormat.format. by rewrite replace_scan by lia. Qed.

(** Every directive takes the next argument, and none is taken twice. *)
Lemma directive_index args x i t j : directive args x i = Ret (t, j) -> i <= len args -> i <= j <= len args /\ j <= i + 1.
Proof.
  unfold UtilFormat.directive. intros H Hi. repeat case_match; simplify_eq; try lia;
    repeat match goal with Hb : (_ ≫= _) = Ret _ |- _ => apply bind_Ret_inv in Hb as (? & _ & Hb) end; simplify_eq; repeat match goal with Hb : (_ <=? _) = false |- _ => apply Z.leb_gt in Hb end; lia.
Qed.
Lemma scan_index args s i t j : scan args s i = Ret (t, j) -> i <= len args -> i <= j <= len args.
Proof.
  revert i t j. induction s as [s IH] using (induction_ltof1 _ (@length Z)). unfold ltof in IH. intros i t j H Hi.
  destruct s as [|ch [|d s]]; cbn [UtilFormat.scan] in H; [by simplify_eq; lia|by simplify_eq; lia|].
  case_match.
  - apply bind_Ret_inv in H as ([t1 i1] & H1 & H). apply bind_Ret_inv in H as ([t2 i2] & H2 & H). simplify_eq. apply directive_index in H1; [|done]. apply IH in H2; cbn [length]; lia.
  - apply bind_Ret_inv in H as ([t1 i1] & H1 & H). simplify_eq. apply (IH (d :: s)) in H1; cbn [length]; lia.
Qed.

(** ** Text without directives *)

Definition doubled (s : jsstr) : jsstr := concat (map (fun ch => if ch =? PERCENT then [PERCENT; PERCENT] else [ch]) s).

Lemma scan_plain args ch s i : (ch =? PERCENT) = false -> scan args (ch :: s) i = ('(t, i) ← scan args s i; Ret (ch :: t, i)).
Proof. intros H. destruct s as [|d s]; [done|]. cbn [UtilFormat.scan]. by rewrite H. Qed.

Lemma scan_doubled args s i : scan args (doubled s) i = Ret (s, i).
Proof.
  unfold doubled. induction s as [|ch s IH]; [done|]. cbn [map concat]. destruct (ch =? PERCENT) eqn:E; cbn [app].
  - apply Z.eqb_eq in E as ->. cbn [UtilFormat.scan]. change ((PERCENT =? PERCENT) && inSet _ PERCENT) with true. cbn iota. rewrite (bind_Ret _ ([PERCENT], i) : (directive args [PERCENT; PERCENT] i ≫= _) = _). by rewrite IH.
  - rewrite scan_plain by done. by rewrite IH.
Qed.

(** A text whose percent signs are doubled is printed as it is, before the other
    arguments; with [format] of one argument this is a round trip. *)
Lemma format_doubled s args : format (VStr (doubled s) :: args) = formatRests s args.
Proof.
  rewrite format_scan, scan_doubled, bind_Ret. f_equal. unfold sliceFrom, slice. rewrite len_cons. pose proof (len_nonneg args).
  replace (len args + 1 <? 0) with false by lia. change (1 <? 0) with false. cbn iota. rewrite Z.min_id, Z.min_l by lia. change (drop (Z.to_nat 1) (VStr (doubled s) :: args)) with args.
  apply take_ge. unfold len. lia.
Qed.

(** A cycle is caught and printed as a word. *)
Lemma format_circular l o k n props hidden : h !! l = Some (mkObj ClsObject o n props hidden) -> (forall v, toJSON v = None) -> us_keys props = [k] -> propOf k props = Some (VRef l) ->
  format [VStr (js "%j"); VRef l] = Ret (js "[Circular]").
Proof.
  intros Hl Ht Hk Hp. assert (E : stringify h toJSON (VRef l) = Throw "TypeError: Converting circular structure to JSON").
  { unfold stringify. cbn [jsonText]. rewrite !Ht. cbn [default]. rewrite Hl. cbn [orTypeError mbind outcome_bind o_class]. rewrite bool_decide_eq_false_2 by apply not_elem_of_nil.
    cbn [o_props]. rewrite Hk. cbn [mapO]. unfold readProp, ownProp. cbn [o_props]. rewrite Hp. cbn [default jsonText]. rewrite Ht. cbn [default id]. rewrite Hl. cbn [orTypeError mbind outcome_bind o_class].
    by rewrite bool_decide_eq_true_2 by (apply list_elem_of_singleton; done). }
  set (args := [VStr (js "%j"); VRef l]). assert (Ed : directive args (js "%j") 1 = Ret (js "[Circular]", 2)).
  { unfold UtilFormat.directive. change (default VUndefined (args !!z 1)) with (VRef l). rewrite E. done. }
  subst args. rewrite format_scan. set (args := [VStr (js "%j"); VRef l]) in *. change (scan _ (js "%j") 1) with ('(t, i) ← directive args (js "%j") 1; '(t', i) ← scan args [] i; Ret (t ++ t', i)). by rewrite Ed.
Qed.
End Directives.
