(* ===== verification/UnderscoreWrapper.v ===== *)
(** underscore (wordcut.js, module 25): the wrapper objects made by [_(obj)] and
    [_.chain], the methods that [_.mixin] and the array functions put on them, the
    functions that bind arguments, and the tests of types.

    A wrapper is an object of the heap of [JsValue] with the properties [_wrapped] and
    [_chain]: [_.chain] of a wrapper sets the flag of that same object.  A function of
    the library takes its arguments and the heap. *)
From Stdlib Require Import ZArith Lia.
From stdpp Require Import base gmap fin_sets strings list.
From S2P Require Import Prelude JsString BraceExpansion Underscore JsValue Inspect.

Local Open Scope Z_scope.
Open Scope js_scope.

(** * Wrappers *)

Definition function_ : Type := list value -> jsheap -> outcome (value * jsheap).

Definition isWrapper (h : jsheap) (v : value) : bool := match o_class <$> objAt h v with Some (ClsWrapper _) => true | _ => false end.
Definition newWrapper (obj : value) : jsobj := mkObj (ClsWrapper obj) None 0 [(js "_wrapped", obj)] [].
Definition wrappedOf (h : jsheap) (v : value) : value := match objAt h v with Some o => readProp o (js "_wrapped") | None => VUndefined end.
Definition chained (h : jsheap) (v : value) : bool := match objAt h v with Some o => bool_decide (readProp o (js "_chain") = VBool true) | None => false end.
Definition setChain (v : value) (h : jsheap) : jsheap :=
  match v with
  | VRef l => alter (fun o => mkObj (o_class o) (o_constructor o) (o_length o) (alterProp (js "_chain") (fun _ => VBool true) (o_props o)) (o_hidden o)) l h
  | _ => h
  end.

(** [_(obj)]. *)
Definition us_wrap_ (obj : value) (h : jsheap) : value * jsheap :=
  if isWrapper h obj then (obj, h)
  else let l := fresh (dom h) in (VRef l, <[l := newWrapper obj]> h).
(** [_.chain(obj)]. *)
Definition us_chain (obj : value) (h : jsheap) : value * jsheap := let '(instance, h) := us_wrap_ obj h in (instance, setChain instance h).

(** [result(instance, obj)]; [_(obj).chain()] is the method that [_.mixin] makes of
    [_.chain], which calls [result] again. *)
Fixpoint result (fuel : nat) (instance obj : value) (h : jsheap) : outcome (value * jsheap) :=
  match fuel with
  | O => OutOfFuel
  | S fuel =>
      if chained h instance
      then
        let '(this, h) := us_wrap_ obj h in
        let '(r, h) := us_chain (wrappedOf h this) h in
        result fuel this r h
      else Ret (obj, h)
  end.

(** The method that [_.mixin] makes of a function, and the methods made of the
    functions of arrays that change them or read them. *)
Definition mixinMethod (fuel : nat) (func : function_) (this : value) (arguments : list value) (h : jsheap) : outcome (value * jsheap) :=
  '(r, h) ← func (wrappedOf h this :: arguments) h; result fuel this r h.
Definition deleteFirst (obj : value) (h : jsheap) : jsheap :=
  match obj with
  | VRef l => alter (fun o => mkObj (o_class o) (o_constructor o) (o_length o) (filter (fun kv => kv.1 <> js "0") (o_props o)) (o_hidden o)) l h
  | _ => h
  end.
Definition mutatorMethod (fuel : nat) (name : jsstr) (method : value -> function_) (this : value) (arguments : list value) (h : jsheap) : outcome (value * jsheap) :=
  let obj := wrappedOf h this in
  '(_, h) ← method obj arguments h;
  let empty := match objAt h obj with Some o => o_length o =? 0 | None => false end in
  let h := if (str_eqb name (js "shift") || str_eqb name (js "splice")) && empty then deleteFirst obj h else h in
  result fuel this obj h.
Definition accessorMethod (fuel : nat) (method : value -> function_) (this : value) (arguments : list value) (h : jsheap) : outcome (value * jsheap) :=
  '(r, h) ← method (wrappedOf h this) arguments h; result fuel this r h.

(** [_.functions(obj)] and [_.mixin(obj)]: the functions on [_] by name. *)
Definition us_functions {A} (props : list (jsstr * option A)) : list jsstr := sortStrings (map fst (filter (fun kv => is_Some kv.2) (ownProps props))).
Definition us_mixin (obj : list (jsstr * option function_)) (library : list (jsstr * function_)) : list (jsstr * function_) :=
  fold_left (fun lib name => match propOf name obj with Some (Some func) => alterProp name (fun _ => func) lib | _ => lib end) (us_functions obj) library.

(** A chain of calls: [_.chain(x).f(...)...]. *)
Fixpoint calls (fuel : nat) (this : value) (steps : list (function_ * list value)) (h : jsheap) : outcome (value * jsheap) :=
  match steps with
  | [] => Ret (this, h)
  | (f, args) :: steps => '(this, h) ← mixinMethod fuel f this args h; calls fuel this steps h
  end.

(** ** Chains *)

(** A value that exists and is no wrapper. *)
Definition plain (h : jsheap) (v : value) : Prop := valid h v /\ isWrapper h v = false.
(** A function of the library that computes [g] and leaves the heap alone. *)
Definition computes (f : function_) (g : list value -> value) : Prop :=
  (forall args h, f args h = Ret (g args, h)) /\ forall args h, Forall (plain h) args -> plain h (g args).

Lemma isWrapper_new obj l h : isWrapper (<[l := newWrapper obj]> h) (VRef l) = true.
Proof. unfold isWrapper, objAt. by rewrite lookup_insert_eq. Qed.
Lemma wrapped_new obj l h : wrappedOf (<[l := newWrapper obj]> h) (VRef l) = obj.
Proof. unfold wrappedOf, objAt. by rewrite lookup_insert_eq. Qed.
Lemma chained_new obj l h : chained (<[l := newWrapper obj]> h) (VRef l) = false.
Proof. unfold chained, objAt. by rewrite lookup_insert_eq. Qed.

Lemma objAt_alloc h o v : valid h v -> objAt (<[fresh (dom h) := o]> h) v = objAt h v.
Proof.
  destruct v as [| | | | |l]; cbn; try done. intros [o' Hl]. rewrite lookup_insert_ne; [done|]. intros E. apply (is_fresh (dom h)). rewrite E. by apply elem_of_dom_2 with o'.
Qed.
Lemma plain_alloc h o v : plain h v -> plain (<[fresh (dom h) := o]> h) v.
Proof.
  intros [Hv Hw]. split; [|unfold isWrapper; by rewrite objAt_alloc]. destruct v as [| | | | |l]; try done. cbn. rewrite lookup_insert_is_Some'. by right.
Qed.

(** What [alterProp] does to the properties of a wrapper. *)
Lemma setChain_props h l o : h !! l = Some o -> objAt (setChain (VRef l) h) (VRef l) = Some (mkObj (o_class o) (o_constructor o) (o_length o) (alterProp (js "_chain") (fun _ => VBool true) (o_props o)) (o_hidden o)).
Proof. intros H. cbn. by rewrite lookup_alter_eq, H. Qed.
Lemma propOf_alterProp_eq {A} k (f : option A -> A) props : propOf k (alterProp k f props) = Some (f (propOf k props)).
Proof.
  induction props as [|[k' a] props IH]; cbn; [unfold str_eqb; by rewrite bool_decide_eq_true_2|]. destruct (str_eqb k' k) eqn:E; cbn; by rewrite E.
Qed.
Lemma chained_setChain h l : is_Some (h !! l) -> chained (setChain (VRef l) h) (VRef l) = true.
Proof. intros [o H]. unfold chained. rewrite (setChain_props h l o H). unfold readProp, ownProp. cbn [o_props]. by rewrite propOf_alterProp_eq, bool_decide_eq_true_2. Qed.
Lemma isWrapper_setChain h v w : isWrapper (setChain v h) w = isWrapper h w.
Proof.
  unfold isWrapper. destruct v as [| | | | |l], w as [| | | | |k]; try done. cbn. destruct (decide (k = l)) as [->|Hn]; [|by rewrite lookup_alter_ne].
  rewrite lookup_alter_eq. by destruct (h !! l).
Qed.
Lemma plain_setChain h v w : plain h w -> plain (setChain v h) w.
Proof.
  intros [Hv Hw]. split; [|by rewrite isWrapper_setChain]. destruct v as [| | | | |l], w as [| | | | |k]; try done. cbn in *. by rewrite lookup_alter_is_Some.
Qed.

(** A new wrapper of a plain value: nothing else changes. *)
Lemma us_chain_new h v : plain h v -> exists w h', us_chain v h = (w, h') /\ isWrapper h' w = true /\ chained h' w = true /\ wrappedOf h' w = v
  /\ (forall u, valid h u -> objAt h' u = objAt h u) /\ forall u, plain h u -> plain h' u.
Proof.
  intros [Hv Hw]. unfold us_chain, us_wrap_. rewrite Hw. set (l := fresh (dom h)). eexists _, _. split; [done|].
  rewrite isWrapper_setChain, isWrapper_new. split; [done|]. split; [apply chained_setChain; rewrite lookup_insert_eq; eauto|]. split; [|split].
  - unfold wrappedOf. rewrite (setChain_props _ l (newWrapper v)) by apply lookup_insert_eq. done.
  - intros u Hu. destruct u as [| | | | |k]; try done. destruct Hu as [o Hk]. assert (k <> l) by (intros ->; apply (is_fresh (dom h)); by apply elem_of_dom_2 with o).
    cbn. by rewrite lookup_alter_ne, lookup_insert_ne.
  - intros u Hu. by apply plain_setChain, plain_alloc.
Qed.

(** [result] of a chain and a plain value is a chain around the value. *)
Lemma result_chain n h w v : chained h w = true -> plain h v -> exists r h', result (S (S n)) w v h = Ret (r, h') /\ isWrapper h' r = true /\ chained h' r = true /\ wrappedOf h' r = v
  /\ forall u, plain h u -> plain h' u.
Proof.
  intros Hc Hv. cbn [result]. rewrite Hc. unfold us_wrap_. rewrite (proj2 Hv). set (l := fresh (dom h)). rewrite wrapped_new.
  destruct (us_chain_new (<[l := newWrapper v]> h) v) as (r & h' & -> & Hr & Hrc & Hrw & Hsame & Hp); [by apply plain_alloc|].
  assert (chained h' (VRef l) = false) as ->. { unfold chained. rewrite Hsame by (cbn; rewrite lookup_insert_eq; eauto). exact (chained_new v l h). }
  exists r, h'. split_and!; try done. intros u Hu. by apply Hp, plain_alloc.
Qed.

(** A chain of calls computes what the calls compute one after the other, and [value()]
    at its end gives it. *)
Lemma chain_computes n h x steps gs : plain h x -> Forall2 (fun fa g => computes fa.1 g /\ Forall (plain h) fa.2) steps gs ->
  exists w h', (let '(w, h) := us_chain x h in calls (S (S n)) w steps h) = Ret (w, h')
    /\ wrappedOf h' w = foldl (fun v ag => ag.2 (v :: ag.1)) x (zip steps.*2 gs).
Proof.
  intros Hx Hs. destruct (us_chain_new h x Hx) as (w & h' & -> & _ & Hc & Hw & _ & Hp). apply Hp in Hx.
  assert (Hs' : Forall2 (fun fa g => computes fa.1 g /\ Forall (plain h') fa.2) steps gs).
  { eapply Forall2_impl; [exact Hs|]. intros fa g [? Ha]. split; [done|]. by eapply Forall_impl. }
  clear h Hs Hp. rename h' into h. revert h w x gs Hx Hc Hw Hs'. induction steps as [|[f args] steps IH]; intros h w x gs Hx Hc Hw Hs.
  - apply Forall2_nil_inv_l in Hs as ->. exists w, h. done.
  - apply Forall2_cons_inv_l in Hs as (g & gs' & [[Hf Hg] Ha] & Hs & ->). cbn [fst snd] in *. cbn [calls]. unfold mixinMethod. rewrite Hw, Hf, bind_Ret.
    assert (Hv : plain h (g (x :: args))) by (apply Hg; by constructor). destruct (result_chain n h w _ Hc Hv) as (r & h' & -> & _ & Hrc & Hrw & Hp). rewrite bind_Ret.
    cbn [fmap list_fmap zip zip_with foldl fst snd]. apply IH; [by apply Hp|done|done|]. eapply Forall2_impl; [exact Hs|]. intros fa g' [? Ha']. split; [done|]. by eapply Forall_impl; [|exact Hp].
Qed.

(** A single call on a wrapper that is no chain gives the bare value. *)
Lemma call_computes n h w f g args : chained h w = false -> computes f g -> mixinMethod (S n) f w args h = Ret (g (wrappedOf h w :: args), h).
Proof. intros Hc [Hf _]. unfold mixinMethod. rewrite Hf, bind_Ret. cbn [result]. by rewrite Hc. Qed.

(** ** A chain of a chain *)

Definition chainFunction : function_ := fun args h => Ret (us_chain (default VUndefined (head args)) h).

Lemma us_wrap_keeps h v u : isWrapper h u = true -> chained h u = true -> let '(w, h') := us_wrap_ v h in isWrapper h' u = true /\ chained h' u = true /\ isWrapper h' w = true.
Proof.
  intros Hu Hc. unfold us_wrap_. destruct (isWrapper h v) eqn:Hv; [done|]. assert (valid h u). { destruct u as [| | | | |l]; try done. unfold isWrapper in Hu. cbn in *. destruct (h !! l); [eauto|done]. }
  unfold isWrapper at 1, chained. rewrite objAt_alloc by done. split; [done|]. split; [done|]. by rewrite isWrapper_new.
Qed.
Lemma chained_set h v u : chained h u = true -> chained (setChain v h) u = true.
Proof.
  unfold chained. destruct v as [| | | | |l], u as [| | | | |k]; try done. cbn. destruct (decide (k = l)) as [->|Hn]; [|by rewrite lookup_alter_ne].
  rewrite lookup_alter_eq. destruct (h !! l) as [o|]; [|done]. intros _. cbn. unfold readProp, ownProp. cbn [o_props]. by rewrite propOf_alterProp_eq, bool_decide_eq_true_2.
Qed.
Lemma us_chain_keeps h v u : isWrapper h u = true -> chained h u = true -> let '(w, h') := us_chain v h in
  (isWrapper h' u = true /\ chained h' u = true) /\ isWrapper h' w = true /\ chained h' w = true.
Proof.
  intros Hu Hc. unfold us_chain. pose proof (us_wrap_keeps h v u Hu Hc) as H. destruct (us_wrap_ v h) as [w h1]. destruct H as (H1 & H2 & H3).
  rewrite !isWrapper_setChain. split; [split; [done|by apply chained_set]|]. split; [done|]. destruct w as [| | | | |l]; try done. apply chained_setChain.
  unfold isWrapper in H3. cbn in H3. destruct (h1 !! l); [eauto|done].
Qed.

(** [result] of a chain and another chain calls itself for ever: each call makes a new
    chain, which is again the result of a method called on a chain. *)
Lemma result_diverges n h w v : isWrapper h w = true -> chained h w = true -> isWrapper h v = true -> chained h v = true -> result n w v h = OutOfFuel.
Proof.
  revert h w v. induction n as [|n IH]; intros h w v Hw Hc Hv Hcv; [done|]. cbn [result]. rewrite Hc. unfold us_wrap_. rewrite Hv.
  pose proof (us_chain_keeps h (wrappedOf h v) v Hv Hcv) as H. destruct (us_chain (wrappedOf h v) h) as [r h']. destruct H as ([? ?] & ? & ?). by apply IH.
Qed.

(** So [_.chain(x).chain()], and any call in a chain whose function returns a chain,
    never returns. *)
Lemma chain_chain_diverges n h w : isWrapper h w = true -> chained h w = true -> mixinMethod n chainFunction w [] h = OutOfFuel.
Proof.
  intros Hw Hc. unfold mixinMethod, chainFunction. cbn [head default id]. pose proof (us_chain_keeps h (wrappedOf h w) w Hw Hc) as H.
  rewrite bind_Ret. destruct (us_chain (wrappedOf h w) h) as [r h']. destruct H as ([? ?] & ? & ?). by apply result_diverges.
Qed.

(** * Functions that bind *)

Section Functions.
Context {V S : Type}.
(** A function of [this], the arguments and the state. *)
Definition callable : Type := V -> list V -> S -> outcome (V * S).

(** [executeBound(sourceFunc, boundFunc, context, callingContext, args)];
    [construct] has the object that [baseCreate] makes when the bound function was
    called with new. *)
Definition executeBound (isObject : V -> bool) (sourceFunc : callable) (construct : option V) (context : V) (args : list V) : S -> outcome (V * S) := fun s =>
  match construct with
  | None => sourceFunc context args s
  | Some self => '(result, s) ← sourceFunc self args s; Ret (if isObject result then result else self, s)
  end.

(** A call of [_.bind(func, context, ...args)], of [_.partial(func, ...boundArgs)]
    ([None] is the placeholder), and of [_.wrap(func, wrapper)] and
    [_.negate(predicate)]. *)
Definition us_bind (isObject : V -> bool) (func : callable) (context : V) (args : list V) (construct : option V) (arguments : list V) :=
  executeBound isObject func construct context (args ++ arguments).
Definition us_partial (isObject : V -> bool) (undefined : V) (func : callable) (boundArgs : list (option V)) (construct : option V) : callable := fun this arguments =>
  executeBound isObject func construct this (map (default undefined) (partialArgs boundArgs arguments)).
Definition us_wrap (isObject : V -> bool) (undefined : V) (func : V) (wrapper : callable) : option V -> callable := us_partial isObject undefined wrapper [Some func].
Definition us_negate (toBoolean : V -> bool) (ofBool : bool -> V) (predicate : callable) : callable := fun this arguments s =>
  '(r, s) ← predicate this arguments s; Ret (ofBool (negb (toBoolean r)), s).

(** [_.bindAll(obj, ...names)] on the methods of an object. *)
Definition us_bindAll {F} (bind : F -> F) (obj : list (jsstr * F)) (names : list jsstr) : outcome (list (jsstr * F)) :=
  if bool_decide (names = []) then Throw "Error"
  else foldO (fun obj key => f ← orTypeError (propOf key obj); Ret (alterProp key (fun _ => bind f) obj)) names obj.

(** [_.invoke(obj, method, ...args)], where [method] finds the method of an item, and
    [_.result(object, property, fallback)]. *)
Definition us_invoke {A B} (obj : coll A) (method : A -> option (A -> list A -> B)) (args : list A) : list (option B) :=
  us_map obj (fun value _ => (fun func => func value args) <$> method value).
Definition us_result {A} (property : option (A + (A -> A))) (fallback : option (A + (A -> A))) (object : A) : option A :=
  (fun value => match value with inl v => v | inr func => func object end) <$> match property with Some v => Some v | None => fallback end.

(** Binding twice keeps the first context and both lists of arguments. *)
Lemma bind_bind isObject func c1 a1 c2 a2 arguments s :
  us_bind isObject (fun _ args => us_bind isObject func c1 a1 None args) c2 a2 None arguments s = us_bind isObject func c1 (a1 ++ a2) None arguments s.
Proof. unfold us_bind, executeBound. by rewrite app_assoc. Qed.

(** Without placeholders the bound arguments come first. *)
Lemma partial_plain isObject undefined func args this arguments s :
  us_partial isObject undefined func (map Some args) None this arguments s = func this (args ++ arguments) s.
Proof.
  unfold us_partial, executeBound. f_equal. induction args as [|a args IH]; cbn; [|by rewrite IH]. induction arguments as [|x l IHl]; [done|]. cbn. by f_equal.
Qed.

(** The wrapper gets the function and the arguments of the call. *)
Lemma wrap_call isObject undefined func wrapper this arguments s : us_wrap isObject undefined func wrapper None this arguments s = wrapper this (func :: arguments) s.
Proof. exact (partial_plain isObject undefined wrapper [func] this arguments s). Qed.
End Functions.

(** * Tests of types *)

Section Tests.
Context (h : jsheap).
Definition us_isElement (obj : value) : bool := match objAt h obj with Some o => strictEq (readProp o (js "nodeType")) (VNum (Num 1)) | None => false end.
Definition us_isArray (obj : value) : bool := bool_decide (className h obj = "Array").
Definition us_isObject (obj : value) : bool := bool_decide (typeof h obj = "function") || (bool_decide (typeof h obj = "object") && negb (strictEq obj VNull)).
(** [_.isArguments], [_.isString], [_.isNumber], [_.isDate], [_.isRegExp] and [_.isError]. *)
Definition us_isType (name : string) (obj : value) : bool := bool_decide (className h obj = name).
Definition us_isFunction (obj : value) : bool := bool_decide (typeof h obj = "function").
Definition us_isNaN (obj : value) : bool := us_isType "Number" obj && negb (strictEq obj (VNum (numberOf h obj))).
Definition us_isBoolean (obj : value) : bool := strictEq obj (VBool true) || strictEq obj (VBool false) || us_isType "Boolean" obj.
Definition us_isNull (obj : value) : bool := strictEq obj VNull.
Definition us_isUndefined (obj : value) : bool := strictEq obj VUndefined.
Definition us_has (obj : value) (key : jsstr) : bool :=
  match objAt h obj with Some o => bool_decide (is_Some (ownProp o key)) | None => false end.

(** The test is that of a reference: an object, a function included. *)
Lemma isObject_ref obj : us_isObject obj = true <-> exists l, obj = VRef l.
Proof.
  unfold us_isObject. destruct obj as [| | | | |l]; cbn; try (split; [done|by intros [? ?]]). split; [eauto|]. intros _.
  destruct (h !! l) as [[[] ? ? ? ?]|]; done.
Qed.

(** On primitive values [_.isNaN] finds NaN alone, but every Number object is NaN for
    it: an object is never identical to its number. *)
Lemma isNaN_primitive obj : (forall l, obj <> VRef l) -> us_isNaN obj = true <-> obj = VNum NaN.
Proof.
  intros Hp. unfold us_isNaN, us_isType. destruct obj as [| | |n| |l]; cbn; try (split; done); [|by destruct (Hp l)].
  split; [|by intros [= ->]]. destruct n as [z| | |b]; cbn; try done.
  - intros H. apply negb_true_iff in H. exfalso. revert H. destruct z; cbn; try done; by rewrite bool_decide_eq_true_2.
  - intros H. apply negb_true_iff in H. by rewrite bool_decide_eq_true_2 in H.
Qed.
Lemma isNaN_boxed l n c len_ props hidden : h !! l = Some (mkObj (ClsNumber n) c len_ props hidden) -> us_isNaN (VRef l) = true.
Proof. intros H. unfold us_isNaN, us_isType. cbn. by rewrite H. Qed.
End Tests.
