(* ===== verification/Template.v ===== *)
(** The templates of underscore (wordcut.js, module 25): [_.template] turns a
    text with tags into the source of a JavaScript function, which is given to
    [new Function].  The theorem says which source: the code of the tags in the
    order of the text, and between them string literals that denote the text
    between the tags.

    Compiling JavaScript is not modelled: whether the engine accepts the source
    is an argument. *)
From Stdlib Require Import ZArith Lia.
From stdpp Require Import base gmap strings list.
From S2P Require Import Prelude JsString JsRegExp BraceExpansion Minimatch MinimatchFacts Underscore UnderscoreFacts Inspect InspectFacts.

Local Open Scope Z_scope.
Open Scope js_scope.

(** * The program *)

(** A newline in a source, and the end of a string literal in it. *)
Abbreviation NL := ([10] : jsstr).
Abbreviation QT := ([39] : jsstr).

(** An expression of the settings: missing, falsy, or with a source. *)
Inductive setting := Unset | Falsy | Pattern (source : jsstr).
Record templateSettings := mkSettings { ts_escape : setting; ts_interpolate : setting; ts_evaluate : setting; ts_variable : option jsstr }.

(** [_.templateSettings]. *)
Definition defaultSettings : templateSettings :=
  mkSettings (Pattern (js "<%-([\s\S]+?)%>")) (Pattern (js "<%=([\s\S]+?)%>")) (Pattern (js "<%([\s\S]+?)%>")) None.
Definition noMatch : jsstr := js "(.)^".

(** [_.defaults({}, settings, _.templateSettings)]. *)
Definition withDefault (s d : setting) : setting := match s with Unset => d | _ => s end.
Definition fillSettings (s : templateSettings) : templateSettings :=
  mkSettings (withDefault (ts_escape s) (ts_escape defaultSettings)) (withDefault (ts_interpolate s) (ts_interpolate defaultSettings))
    (withDefault (ts_evaluate s) (ts_evaluate defaultSettings)) (ts_variable s).

(** [(setting || noMatch).source]. *)
Definition sourceOf (s : setting) : jsstr := match s with Pattern source => source | _ => noMatch end.
Definition matcherSource (s : templateSettings) : jsstr :=
  join (js "|") [sourceOf (ts_escape s); sourceOf (ts_interpolate s); sourceOf (ts_evaluate s)] ++ js "|$".

(** [escapes], [escaper] and [escapeChar]. *)
Definition escapes : list (jsstr * jsstr) :=
  [(QT, QT); ([92], [92]); ([13], js "r"); ([10], js "n"); ([8232], js "u2028"); ([8233], js "u2029")].
Definition escaper : re := RSeq REmpty (alts [92] [QT; [13]; [10]; [8232]; [8233]]).
Definition escapeChar (mtch : jsstr) : jsstr := [92] ++ default (js "undefined") (propOf mtch escapes).
Definition escapeText (s : jsstr) : jsstr := replaceG escaper (fun m _ => escapeChar m) s.

(** The calls of the function given to [text.replace] with a global expression:
    the offset, the match and the groups; after an empty match the search goes
    on one character further. *)
Fixpoint matchesFrom (n : nat) (whole : jsstr) (r : re) (rest : jsstr) (i : Z) : list (Z * jsstr * captures) :=
  match n with
  | O => []
  | S n =>
      match execFrom whole r rest i with
      | None => []
      | Some (j, m, caps, rest') =>
          (j, m, caps) ::
          match m with
          | [] => match rest' with [] => [] | _ :: rest1 => matchesFrom n whole r rest1 (j + 1) end
          | _ => matchesFrom n whole r rest' (j + len m)
          end
      end
  end.

(** What one call adds; a group that did not take part is undefined, and an
    empty one is as falsy. *)
Definition groupText (caps : captures) (n : nat) : jsstr := default [] (caps !! n).
Definition tagSource (caps : captures) : jsstr :=
  match groupText caps 1, groupText caps 2, groupText caps 3 with
  | (_ :: _) as escape, _, _ => QT ++ js "+" ++ NL ++ js "((__t=(" ++ escape ++ js "))==null?'':_.escape(__t))+" ++ NL ++ QT
  | [], (_ :: _) as interpolate, _ => QT ++ js "+" ++ NL ++ js "((__t=(" ++ interpolate ++ js "))==null?'':__t)+" ++ NL ++ QT
  | [], [], (_ :: _) as evaluate => QT ++ js ";" ++ NL ++ evaluate ++ NL ++ js "__p+='"
  | [], [], [] => []
  end.
Definition compileStep (text : jsstr) (st : jsstr * Z) (m : Z * jsstr * captures) : jsstr * Z :=
  let '(offset, mtch, caps) := m in
  (st.1 ++ escapeText (slice text st.2 offset) ++ tagSource caps, offset + len mtch).

(** The body that is put together from the text.  The positions of the
    arguments fit expressions with one group each; others are left out. *)
Definition compileText (settings : templateSettings) (text : jsstr) : outcome jsstr :=
  match newRegExp (matcherSource settings) with
  | None => Throw "SyntaxError"
  | Some matcher =>
      if negb (length (groups matcher) =? 3)%nat then Throw "unsupported settings"
      else
        let calls := matchesFrom (S (S (length text))) text matcher text 0 in
        Ret ((fold_left (compileStep text) calls (js "__p+='", 0)).1 ++ QT ++ js ";" ++ NL)
  end.

(** [_.template(text, settings, oldSettings)]: the argument, the body and
    [template.source]; the last argument tells the sources that the engine
    rejects, and the error carries the source. *)
Record templateFn := mkTemplate { t_argument : jsstr; t_body : jsstr; t_source : jsstr }.
Inductive templateResult := Compiled (t : templateFn) | Rejected (error : string) (source : jsstr).
Definition template (syntaxError : jsstr -> jsstr -> option string) (text : jsstr) (settings oldSettings : option templateSettings)
    : outcome templateResult :=
  let settings := match settings with None => oldSettings | _ => settings end in
  let settings := fillSettings (default (mkSettings Unset Unset Unset None) settings) in
  source ← compileText settings text;
  let variable := match ts_variable settings with Some (c :: v) => Some (c :: v) | _ => None end in
  let source := match variable with None => js "with(obj||{}){" ++ NL ++ source ++ js "}" ++ NL | Some _ => source end in
  let source := js "var __t,__p='',__j=Array.prototype.join,print=function(){__p+=__j.call(arguments,'');};" ++ NL ++ source
                  ++ js "return __p;" ++ NL in
  let argument := default (js "obj") variable in
  match syntaxError argument source with
  | Some e => Ret (Rejected e source)
  | None => Ret (Compiled (mkTemplate argument source (js "function(" ++ argument ++ js "){" ++ NL ++ source ++ js "}")))
  end.

(** * The matcher *)

Definition anySet : charset := mkSet false (escapeRanges 83 ++ escapeRanges 115).
Definition tagRe (n : nat) (opening : jsstr) : re :=
  litSeq (RSeq (litSeq REmpty opening) (RGroup n (RSeq REmpty (RRepeat false 1 None (RSet anySet))))) (js "%>").
Definition tagMatcher : re :=
  RAlt (tagRe 1 (js "<%-")) (RAlt (tagRe 2 (js "<%=")) (RAlt (tagRe 3 (js "<%")) (RSeq REmpty REol))).

Lemma newRegExp_tags : newRegExp (matcherSource defaultSettings) = Some tagMatcher.
Proof. vm_compute. reflexivity. Qed.

(** Code units. *)
Definition unit16 (c : Z) : Prop := 0 <= c <= 65535.

Lemma anySet_all c : unit16 c -> inSet anySet c = true.
Proof. unfold unit16. intros H. unfold inSet, anySet. cbn. lia. Qed.

(** The first suffix that the continuation takes. *)
Fixpoint firstSuffix {A} (k : jsstr -> option A) (s : jsstr) : option A :=
  match k s with
  | Some z => Some z
  | None => match s with [] => None | _ :: s' => firstSuffix k s' end
  end.

Lemma lazy_any whole n s caps k : (length s < n)%nat -> Forall unit16 s ->
  repeatMatch n (mtch whole (RSet anySet)) [] false 0 None (s, caps) k = firstSuffix (fun v => k (v, caps)) s.
Proof.
  revert s. induction n as [|n IH]; intros s Hn Hs; [lia|]. cbn [repeatMatch fst snd foldr].
  destruct s as [|c s]; cbn [firstSuffix mtch fst]; [done|]. destruct (k (c :: s, caps)); [done|].
  apply Forall_cons in Hs as [Hc Hs]. rewrite anySet_all by done.
  cbn [bool_decide fst andb]. replace (len s =? len (c :: s)) with false by (symmetry; apply Z.eqb_neq; rewrite len_cons; lia).
  rewrite andb_false_r. cbn [option_map snd]. apply IH; [cbn in Hn; lia|done].
Qed.

Lemma lazy_plus whole s caps k : Forall unit16 s ->
  mtch whole (RRepeat false 1 None (RSet anySet)) (s, caps) k
  = match s with [] => None | _ :: s' => firstSuffix (fun v => k (v, caps)) s' end.
Proof.
  intros Hs.
  change (mtch whole (RRepeat false 1 None (RSet anySet)) (s, caps) k)
    with (repeatMatch (S (length s + 2)) (mtch whole (RSet anySet)) [] false 1 None (s, caps) k).
  cbn [repeatMatch foldr fst snd Nat.sub option_map]. destruct s as [|c s]; [done|]. apply Forall_cons in Hs as [Hc Hs].
  change (mtch whole (RSet anySet) (c :: s, caps)) with (fun d : cont => if inSet anySet c then d (s, caps) else None).
  cbn beta. rewrite anySet_all by done. rewrite bool_decide_eq_false_2 by done. cbn [andb]. apply lazy_any; [cbn; lia|done].
Qed.

(** The shortest code before a closing delimiter, at least one character. *)
Fixpoint findClose (t : jsstr) : option (jsstr * jsstr) :=
  match t with
  | [] => None
  | c :: t' =>
      match strip (js "%>") t' with
      | Some rest => Some ([c], rest)
      | None => match findClose t' with Some (code, rest) => Some (c :: code, rest) | None => None end
      end
  end.

Lemma firstSuffix_close t p n : 
  firstSuffix (fun v => match strip (js "%>") v with Some rest => Some (rest, (<[n := take (length (p ++ t) - length v) (p ++ t)]> ∅ : captures)) | None => None end) t
  = match strip (js "%>") t with
    | Some rest => Some (rest, <[n := p]> ∅)
    | None => match findClose t with Some (code, rest) => Some (rest, <[n := p ++ code]> ∅) | None => None end
    end.
Proof.
  revert p. induction t as [|c t IH]; intros p; cbn [firstSuffix].
  - done.
  - destruct (strip (js "%>") (c :: t)) as [rest|] eqn:E1.
    + rewrite length_app. replace (length p + length (c :: t) - length (c :: t))%nat with (length p) by lia. by rewrite take_app_length.
    + replace (p ++ c :: t) with ((p ++ [c]) ++ t) by (by rewrite <- app_assoc). rewrite IH. cbn [findClose].
      destruct (strip (js "%>") t); [done|]. destruct (findClose t) as [[code rest]|]; [|done]. by rewrite <- app_assoc.
Qed.

Lemma tagRe_match whole n opening s : Forall unit16 s ->
  mtch whole (tagRe n opening) (s, ∅) Some =
  match strip opening s with
  | Some t => match findClose t with Some (code, rest) => Some (rest, <[n := code]> ∅) | None => None end
  | None => None
  end.
Proof.
  intros Hs. unfold tagRe. rewrite mtch_lit.
  change (mtch whole (RSeq (litSeq REmpty opening) (RGroup n (RSeq REmpty (RRepeat false 1 None (RSet anySet))))) (s, ∅))
    with (fun c : cont => mtch whole (litSeq REmpty opening) (s, ∅) (fun y =>
            mtch whole (RRepeat false 1 None (RSet anySet)) y (fun z => c (z.1, <[n := take (length y.1 - length z.1) y.1]> z.2)))).
  cbn beta. rewrite mtch_lit. change (mtch whole REmpty (s, ∅)) with (fun c : cont => c (s, ∅)). cbn [fst snd].
  destruct (strip opening s) as [t|] eqn:Et; [|done]. apply strip_Some in Et. subst s. apply Forall_app in Hs as [_ Ht].
  rewrite lazy_plus by done. destruct t as [|c t]; [done|]. cbn [fst snd].
  pose proof (firstSuffix_close t [c] n) as H. cbn [app] in H. etrans; [exact H|]. cbn [findClose].
  destruct (strip (js "%>") t); [done|]. by destruct (findClose t) as [[]|].
Qed.

(** * Templates *)

(** A tag of a template. *)
Inductive tag := TEscape (code : jsstr) | TInterpolate (code : jsstr) | TEvaluate (code : jsstr).

Definition tagText (t : tag) : jsstr :=
  match t with
  | TEscape code => js "<%-" ++ code ++ js "%>"
  | TInterpolate code => js "<%=" ++ code ++ js "%>"
  | TEvaluate code => js "<%" ++ code ++ js "%>"
  end.

(** The code that stands for a tag, between the literals. *)
Definition tagCode (t : tag) : jsstr :=
  match t with
  | TEscape code => QT ++ js "+" ++ NL ++ js "((__t=(" ++ code ++ js "))==null?'':_.escape(__t))+" ++ NL ++ QT
  | TInterpolate code => QT ++ js "+" ++ NL ++ js "((__t=(" ++ code ++ js "))==null?'':__t)+" ++ NL ++ QT
  | TEvaluate code => QT ++ js ";" ++ NL ++ code ++ NL ++ js "__p+='"
  end.

(** Code that the closing delimiter ends, and that does not make an evaluation
    look like another tag. *)
Definition goodCode (code : jsstr) : Prop := findClose (code ++ js "%>") = Some (code, []) /\ Forall unit16 code.
Definition goodTag (t : tag) : Prop :=
  match t with
  | TEscape code | TInterpolate code => goodCode code
  | TEvaluate code => goodCode code /\ head code <> Some 45 /\ head code <> Some 61
  end.

(** Text without an opening delimiter. *)
Fixpoint noTag (s : jsstr) : bool :=
  match s with
  | [] => true
  | c :: s' => negb ((c =? 60) && bool_decide (head s' = Some 37)) && noTag s'
  end.
Definition goodText (s : jsstr) : Prop := noTag s = true /\ Forall unit16 s.

Definition showTags (tags : list (tag * jsstr)) : jsstr := concat (map (fun tl => tagText tl.1 ++ tl.2) tags).

(** ** One match *)

Lemma matchHere_tags whole s : Forall unit16 s ->
  matchHere whole tagMatcher s =
  match mtch whole (tagRe 1 (js "<%-")) (s, ∅) Some with
  | Some z => Some z
  | None =>
      match mtch whole (tagRe 2 (js "<%=")) (s, ∅) Some with
      | Some z => Some z
      | None =>
          match mtch whole (tagRe 3 (js "<%")) (s, ∅) Some with
          | Some z => Some z
          | None => match s with [] => Some ([], ∅) | _ => None end
          end
      end
  end.
Proof. by destruct s. Qed.

Lemma strip_ne c lit d s : c <> d -> strip (c :: lit) (d :: s) = None.
Proof. intros H. cbn [strip]. by rewrite (proj2 (Z.eqb_neq c d) H). Qed.

Lemma matchHere_text whole c s : Forall unit16 (c :: s) -> negb ((c =? 60) && bool_decide (head s = Some 37)) = true ->
  matchHere whole tagMatcher (c :: s) = None.
Proof.
  intros Hu Hc. rewrite matchHere_tags, !tagRe_match by done. cbn iota.
  change (js "<%-") with [60; 37; 45]. change (js "<%=") with [60; 37; 61]. change (js "<%") with [60; 37].
  destruct (Z.eqb_spec c 60) as [->|Hne]; [|by rewrite !strip_ne by lia].
  cbn [strip]. change (60 =? 60) with true. cbn iota. destruct s as [|d s]; [done|]. cbn [head] in Hc.
  rewrite (proj2 (Z.eqb_neq 37 d)); [done|]. intros <-. done.
Qed.

Lemma findClose_app code rest : findClose (code ++ js "%>") = Some (code, []) -> findClose (code ++ js "%>" ++ rest) = Some (code, rest).
Proof.
  induction code as [|c code IH]; [done|]. cbn [app findClose].
  destruct code as [|d code]; [done|].
  assert (Hstrip : forall r, strip (js "%>") ((d :: code) ++ js "%>" ++ r) = None <-> strip (js "%>") ((d :: code) ++ js "%>") = None).
  { intros r. change (js "%>") with [37; 62]. cbn [app strip]. destruct (37 =? d); [|done].
    destruct code as [|e code]; cbn [app strip]; [done|]. by destruct (62 =? e). }
  destruct (strip (js "%>") ((d :: code) ++ js "%>")) eqn:E1; [done|].
  rewrite (proj2 (Hstrip rest) eq_refl).
  destruct (findClose ((d :: code) ++ js "%>")) as [[code' rest']|] eqn:E2; [|done]. intros [= -> ->]. by rewrite IH.
Qed.

(** The groups of the match of a tag. *)
Definition tagGroups (t : tag) : captures :=
  match t with TEscape code => <[1%nat := code]> ∅ | TInterpolate code => <[2%nat := code]> ∅ | TEvaluate code => <[3%nat := code]> ∅ end.

Lemma matchHere_tag whole t rest : goodTag t -> Forall unit16 (tagText t ++ rest) ->
  matchHere whole tagMatcher (tagText t ++ rest) = Some (rest, tagGroups t).
Proof.
  intros Ht Hu. rewrite matchHere_tags, !tagRe_match by done.
  assert (Hstrip : forall lit s, strip lit (lit ++ s) = Some s) by (intros; by apply strip_Some).
  destruct t as [code|code|code]; cbn [tagText goodTag tagGroups] in *; rewrite <- !app_assoc.
  - rewrite Hstrip, findClose_app by apply Ht. done.
  - change (strip (js "<%-") (js "<%=" ++ code ++ js "%>" ++ rest)) with (@None jsstr). by rewrite Hstrip, findClose_app by apply Ht.
  - destruct Ht as ([Hf _] & H1 & H2). rewrite (Hstrip (js "<%")), findClose_app by done.
    destruct code as [|c code]; [done|]. cbn [head] in H1, H2.
    change (js "<%-") with ([60; 37; 45]). change (js "<%=") with [60; 37; 61]. change (js "<%") with [60; 37].
    cbn [app strip]. change (60 =? 60) with true. change (37 =? 37) with true. cbn iota.
    rewrite (proj2 (Z.eqb_neq 45 c)), (proj2 (Z.eqb_neq 61 c)) by congruence. done.
Qed.

(** ** All matches *)

Lemma execFrom_text whole lit tail i : Forall unit16 (lit ++ tail) -> noTag lit = true -> tail = [] \/ head tail = Some 60 ->
  execFrom whole tagMatcher (lit ++ tail) i = execFrom whole tagMatcher tail (i + len lit).
Proof.
  intros Hu Hn Ht. revert i Hu Hn. induction lit as [|c lit IH]; intros i Hu Hn; [by rewrite len_nil, Z.add_0_r|].
  cbn [noTag] in Hn. apply andb_true_iff in Hn as [Hc Hn]. cbn [app execFrom] in *. rewrite matchHere_text; [|done|].
  - apply Forall_cons in Hu as [_ Hu]. rewrite IH by done. f_equal. rewrite len_cons. lia.
  - destruct lit as [|d lit]; [|done]. destruct Ht as [->|Hh]; cbn [app]; [by rewrite andb_false_r|]. rewrite Hh, bool_decide_eq_false_2 by done. by rewrite andb_false_r.
Qed.

Lemma showTags_head tags : showTags tags = [] \/ head (showTags tags) = Some 60.
Proof. destruct tags as [|[[] lit] tags]; [by left|by right..]. Qed.

Lemma slice_mid (a b c : jsstr) : slice (a ++ b ++ c) (len a) (len a + len b) = b.
Proof.
  unfold slice. pose proof (len_nonneg a). pose proof (len_nonneg b). pose proof (len_nonneg c).
  rewrite !len_app. destruct (Z.ltb_spec (len a) 0), (Z.ltb_spec (len a + len b) 0); try lia.
  rewrite !Z.min_l by lia. replace (len a + len b - len a) with (len b) by lia. unfold len. rewrite !Nat2Z.id.
  by rewrite drop_app_length, take_app_length.
Qed.

Lemma tagSource_groups t : goodTag t -> tagSource (tagGroups t) = tagCode t.
Proof.
  intros Ht. assert (Hne : forall code, goodCode code -> exists c code', code = c :: code').
  { intros [|c code'] [Hf _]; [done|eauto]. }
  unfold tagSource, groupText. destruct t as [code|code|code]; cbn [goodTag tagGroups tagCode] in *; [destruct (Hne _ Ht) as (c & code' & ->)|destruct (Hne _ Ht) as (c & code' & ->)|destruct (Hne _ (proj1 Ht)) as (c & code' & ->)].
  - by rewrite lookup_insert_eq.
  - rewrite lookup_insert_ne, lookup_empty, lookup_insert_eq by done. done.
  - rewrite (lookup_insert_ne _ 3%nat 1%nat), (lookup_insert_ne _ 3%nat 2%nat), !lookup_empty, lookup_insert_eq by done. done.
Qed.

Lemma compile_tags n pre lit tags src :
  let text := pre ++ lit ++ showTags tags in
  Forall unit16 text -> noTag lit = true -> Forall (fun tl => goodTag tl.1 /\ noTag tl.2 = true) tags -> (length tags < n)%nat ->
  (fold_left (compileStep text) (matchesFrom n text tagMatcher (lit ++ showTags tags) (len pre)) (src, len pre)).1
  = src ++ escapeText lit ++ concat (map (fun tl => tagCode tl.1 ++ escapeText tl.2) tags).
Proof.
  cbn zeta. revert n pre lit src. induction tags as [|[t lit'] tags IH]; intros n pre lit src Hu Hn Hg Hlen; (destruct n as [|n]; [lia|]); cbn [matchesFrom].
  - change (showTags []) with (@nil Z). rewrite execFrom_text; [|by apply Forall_app in Hu as [_ ?]|done|by left].
    cbn [execFrom]. change (matchHere _ tagMatcher []) with (Some (@nil Z, ∅ : captures)). cbn [length Nat.sub take fold_left compileStep fst snd].
    rewrite slice_mid. cbn [map concat]. done.
  - apply Forall_cons in Hg as [[Ht Hn'] Hg]. cbn [fst snd] in *.
    change (showTags ((t, lit') :: tags)) with ((tagText t ++ lit') ++ showTags tags) in *. rewrite <- app_assoc in *.
    assert (Hu1 : Forall unit16 (lit ++ tagText t ++ lit' ++ showTags tags)) by (by apply Forall_app in Hu as [_ ?]).
    assert (Hu2 : Forall unit16 (tagText t ++ lit' ++ showTags tags)) by (by apply Forall_app in Hu1 as [_ ?]).
    rewrite execFrom_text; [|done|done|right; by destruct t].
    assert (Hex : forall i, execFrom (pre ++ lit ++ tagText t ++ lit' ++ showTags tags) tagMatcher (tagText t ++ lit' ++ showTags tags) i
              = Some (i, tagText t, tagGroups t, lit' ++ showTags tags)).
    { intros i. assert (Htake : take (length (tagText t ++ lit' ++ showTags tags) - length (lit' ++ showTags tags)) (tagText t ++ lit' ++ showTags tags) = tagText t).
      { rewrite (length_app (tagText t)), Nat.add_sub. by rewrite take_app_length. }
      destruct (tagText t ++ lit' ++ showTags tags) as [|c r] eqn:E; [by destruct t|]. cbn [execFrom]. rewrite <- E in *.
      rewrite matchHere_tag by done. by rewrite Htake. }
    rewrite Hex. destruct (tagText t) as [|c tt'] eqn:Ett; [by destruct t|]. rewrite <- Ett in *. cbn [fold_left compileStep fst snd].
    rewrite slice_mid, tagSource_groups by done. cbn [map concat fst snd].
    assert (Epre : pre ++ lit ++ tagText t ++ lit' ++ showTags tags = (pre ++ lit ++ tagText t) ++ lit' ++ showTags tags) by (by rewrite <- !app_assoc).
    assert (Elen : len pre + len lit + len (tagText t) = len (pre ++ lit ++ tagText t)) by (rewrite !len_app; lia).
    rewrite Elen, Epre in *. cbn [length] in Hlen. rewrite IH; [|done..|lia]. by rewrite <- !app_assoc.
Qed.

(** ** The literals *)

Definition escOne (c : Z) : jsstr := match propOf [c] escapes with Some e => [92] ++ e | None => [c] end.

Lemma escOne_cases c :
  (c = 39 /\ escOne c = [92; 39]) \/ (c = 92 /\ escOne c = [92; 92]) \/ (c = 13 /\ escOne c = [92; 114]) \/
  (c = 10 /\ escOne c = [92; 110]) \/ (c = 8232 /\ escOne c = [92] ++ js "u2028") \/ (c = 8233 /\ escOne c = [92] ++ js "u2029") \/
  (c ∉ [39; 92; 13; 10; 8232; 8233] /\ escOne c = [c]).
Proof.
  destruct (decide (c ∈ [39; 92; 13; 10; 8232; 8233])) as [Hin|Hout].
  - repeat (apply elem_of_cons in Hin as [->|Hin]; [by tauto|]). by apply elem_of_nil in Hin.
  - do 6 right. split; [done|]. unfold escOne, escapes. cbn [propOf]. unfold str_eqb.
    assert (Hne : forall d, d ∈ [39; 92; 13; 10; 8232; 8233] -> bool_decide ([d] = [c]) = false)
      by (intros d Hd; apply bool_decide_eq_false; intros [= ->]; done).
    rewrite !Hne by (by set_solver). done.
Qed.

Lemma escapeText_chars s : escapeText s = concat (map escOne s).
Proof.
  unfold escapeText, replaceG, escaper. generalize s at 2 as whole. assert (Hn : (length s <= S (length s))%nat) by lia.
  revert Hn. generalize (S (length s)) as n. induction s as [|c s IH]; intros [|n] Hn whole; cbn [length] in Hn; try done; [lia|]. cbn [map concat].
  destruct (escOne_cases c) as [[-> ->]|[[-> ->]|[[-> ->]|[[-> ->]|[[-> ->]|[[-> ->]|[Hc ->]]]]]]].
  1-6: match goal with |- context [replaceAll _ _ _ _ (?c :: ?t)] => change (c :: t) with ([c] ++ t) end;
    rewrite replace_hit by done; rewrite IH by lia; done.
  rewrite replace_miss; [by rewrite IH by lia|]. cbn [firstStrip strip].
  assert (Hne : forall d, d ∈ [39; 92; 13; 10; 8232; 8233] -> (d =? c) = false) by (intros d Hd; apply Z.eqb_neq; intros ->; done).
  rewrite !Hne by (by set_solver). done.
Qed.

Lemma readBody_one c s : readBody (escOne c ++ s) = cons c <$> readBody s.
Proof.
  destruct (escOne_cases c) as [[-> ->]|[[-> ->]|[[-> ->]|[[-> ->]|[[-> ->]|[[-> ->]|[Hc ->]]]]]]]; try done.
  cbn [app readBody]. assert (Hne : forall d, d ∈ [39; 92; 13; 10; 8232; 8233] -> (c =? d) = false) by (intros d Hd; apply Z.eqb_neq; intros ->; done).
  unfold APOS, BSLASH. rewrite !Hne by (by set_solver). done.
Qed.

Lemma escapeText_literal s : readLiteral (QT ++ escapeText s ++ QT) = Some s.
Proof.
  rewrite escapeText_chars. cbn [app readLiteral]. unfold APOS. rewrite Z.eqb_refl.
  induction s as [|c s IH]; [reflexivity|]. cbn [map concat]. rewrite <- app_assoc, readBody_one. by rewrite IH.
Qed.

Lemma tagText_units t : goodTag t -> Forall unit16 (tagText t).
Proof.
  assert (H : forall s, forallb (fun c => (0 <=? c) && (c <=? 65535)) s = true -> Forall unit16 s).
  { intros s Hs. apply Forall_forall. intros c Hc. rewrite forallb_forall in Hs. apply list_elem_of_In, Hs in Hc. unfold unit16. lia. }
  destruct t as [code|code|code]; cbn [goodTag tagText]; [intros [_ Hc]|intros [_ Hc]|intros [[_ Hc] _]]; rewrite !Forall_app; (split; [|split]); try done; by apply H.
Qed.

(** C29. [_.template] turns a text with tags into the body of a function as it
    should: with the default settings the source has the code of the tags in
    their order, interpolated code with or without [_.escape] and other code
    as statements, and between them string literals, each of which denotes
    exactly the text between two tags, quotes, backslashes and line terminators
    included. *)
Theorem template_compiles syntaxError lit0 tags :
  goodText lit0 -> Forall (fun tl => goodTag tl.1 /\ goodText tl.2) tags ->
  let body := js "var __t,__p='',__j=Array.prototype.join,print=function(){__p+=__j.call(arguments,'');};" ++ NL
                ++ js "with(obj||{}){" ++ NL
                ++ js "__p+='" ++ escapeText lit0 ++ concat (map (fun tl => tagCode tl.1 ++ escapeText tl.2) tags) ++ QT ++ js ";" ++ NL
                ++ js "}" ++ NL ++ js "return __p;" ++ NL in
  template syntaxError (lit0 ++ showTags tags) None None
  = Ret (match syntaxError (js "obj") body with
         | Some e => Rejected e body
         | None => Compiled (mkTemplate (js "obj") body (js "function(obj){" ++ NL ++ body ++ js "}"))
         end) /\
  Forall (fun lit => readLiteral (QT ++ escapeText lit ++ QT) = Some lit) (lit0 :: map snd tags).
Proof.
  intros [H0 U0] Ht. cbn zeta. split; [|apply Forall_forall; intros lit _; apply escapeText_literal].
  assert (Hu : Forall unit16 (lit0 ++ showTags tags)).
  { apply Forall_app. split; [done|]. clear U0. induction Ht as [|[t lit] tags [Hg [_ Hl]] _ IH]; [constructor|].
    unfold showTags. cbn [map concat]. rewrite !Forall_app. split; [split; [by apply tagText_units|done]|]. exact IH. }
  assert (Hlen : (length tags < S (S (length (lit0 ++ showTags tags))))%nat).
  { clear. rewrite length_app. enough (length tags <= length (showTags tags))%nat by lia. induction tags as [|[t lit] tags IH]; [done|].
    unfold showTags in *. cbn [map concat length fst snd]. rewrite !length_app. destruct t; cbn [tagText]; rewrite ?length_app; cbn [js]; cbn; lia. }
  pose proof (compile_tags (S (S (length (lit0 ++ showTags tags)))) [] lit0 tags (js "__p+='") Hu H0) as Hc. cbn zeta in Hc.
  unfold template. change (fillSettings _) with defaultSettings. unfold compileText. rewrite newRegExp_tags.
  change (negb (length (groups tagMatcher) =? 3)%nat) with false. cbn iota. rewrite bind_Ret.
  change (len []) with 0 in Hc. cbn [app] in Hc. rewrite Hc; [|eapply Forall_impl; [exact Ht|]; by intros tl [? [? _]]|done].
  cbn [ts_variable defaultSettings default]. rewrite <- !app_assoc. by destruct (syntaxError _ _).
Qed.

(** A template with the three kinds of tags, and text with a quote and a newline. *)
Lemma template_compiles_witness :
  readLiteral (QT ++ escapeText (js "it's" ++ NL) ++ QT) = Some (js "it's" ++ NL) /\
  exists body source,
    template (fun _ _ => None) (js "it's" ++ NL ++ js "<% for %><%=a%>, <%- b %>") None None = Ret (Compiled (mkTemplate (js "obj") body source)).
Proof.
  destruct (template_compiles (fun _ _ => None) (js "it's" ++ NL)
    [(TEvaluate (js " for "), []); (TInterpolate (js "a"), js ", "); (TEscape (js " b "), [])]) as [H1 H2].
  - split; [reflexivity|]. vm_compute. by repeat constructor.
  - repeat constructor; cbn; try done; vm_compute; repeat constructor; done.
  - split.
    + apply Forall_cons in H2 as [H2 _]. exact H2.
    + eexists _, _. exact H1.
Defined.
