(* ===== verification/Assert.v ===== *)
(** The assertions (wordcut.js, module 9): the deep comparison, the messages,
    and [throws] and its relatives, on the values and heaps of [JsValue].

    What the methods [valueOf], [toString] and [toJSON] of an object return and
    the text of a function are arguments; stacks of errors are not modelled. *)
From Stdlib Require Import ZArith Lia.
From stdpp Require Import base gmap strings list sorting.
From S2P Require Import Prelude JsString BraceExpansion Underscore JsValue DeepEqual Inspect.

Local Open Scope Z_scope.
Open Scope js_scope.

(** * The language *)

(** The double nearest to an integer, ties to even. *)
Definition toDouble (z : Z) : num :=
  let a := Z.abs z in
  let k := Z.max 0 (Z.log2 a - 52) in
  let q := a / 2 ^ k in
  let r := a mod 2 ^ k in
  let up := (2 ^ k <? 2 * r) || ((2 ^ k =? 2 * r) && Z.odd q) in
  let d := (if up then q + 1 else q) * 2 ^ k in
  if 2 ^ 1024 <=? d then Infinity (z <? 0) else Num (if z <? 0 then - d else d).

(** Digits in a base, most significant first; [None] when another character comes. *)
Definition digitValue (c : Z) : Z :=
  if isDigit c then c - 48
  else if (97 <=? c) && (c <=? 102) then c - 87
  else if (65 <=? c) && (c <=? 70) then c - 55 else 16.
Fixpoint readDigits (base : Z) (s : jsstr) (acc : Z) : option Z :=
  match s with
  | [] => Some acc
  | c :: s' => if digitValue c <? base then readDigits base s' (base * acc + digitValue c) else None
  end.
Definition readNat (base : Z) (s : jsstr) : option Z := match s with [] => None | _ => readDigits base s 0 end.

(** The digits at the start of a text, and the rest. *)
Fixpoint spanDigits (s : jsstr) : jsstr * jsstr :=
  match s with
  | c :: s' => if isDigit c then let '(d, r) := spanDigits s' in (c :: d, r) else ([], s)
  | [] => ([], [])
  end.

(** The exponent: nothing, or e and digits with an optional sign. *)
Definition readExponent (s : jsstr) : option Z :=
  match s with
  | [] => Some 0
  | c :: s' =>
      if (c =? 101) || (c =? 69) then
        match s' with
        | 43 :: s'' => readNat 10 s''
        | 45 :: s'' => Z.opp <$> readNat 10 s''
        | _ => readNat 10 s'
        end
      else None
  end.

(** An unsigned decimal literal.  A value that is not an integer is no number
    of [JsValue]: it stands as NaN, as different from all of them. *)
Definition readDecimal (s : jsstr) : num :=
  let '(whole, s1) := spanDigits s in
  let '(frac, s2) := match s1 with 46 :: s' => spanDigits s' | _ => ([], s1) end in
  if bool_decide (whole ++ frac = []) then NaN
  else
    match readDigits 10 (whole ++ frac) 0, readExponent s2 with
    | Some m, Some e =>
        let e := e - len frac in
        if m =? 0 then Num 0
        else if 0 <=? e then toDouble (m * 10 ^ e)
        else if m mod 10 ^ (- e) =? 0 then toDouble (m / 10 ^ (- e)) else NaN
    | _, _ => NaN
    end.
Definition negNum (n : num) : num :=
  match n with Num 0 => NegZero | Num z => Num (- z) | NegZero => Num 0 | NaN => NaN | Infinity b => Infinity (negb b) end.
Definition readUnsigned (s : jsstr) : num := if str_eqb s (js "Infinity") then Infinity false else readDecimal s.

(** [Number(s)]. *)
Definition stringToNumber (s : jsstr) : num :=
  let based (base : Z) (s : jsstr) := match readNat base s with Some z => toDouble z | None => NaN end in
  match trim s with
  | [] => Num 0
  | 48 :: 120 :: s' | 48 :: 88 :: s' => based 16 s'
  | 48 :: 111 :: s' | 48 :: 79 :: s' => based 8 s'
  | 48 :: 98 :: s' | 48 :: 66 :: s' => based 2 s'
  | 43 :: s' => readUnsigned s'
  | 45 :: s' => negNum (readUnsigned s')
  | s' => readUnsigned s'
  end.

(** [a < b] on numbers. *)
Definition numLt (a b : num) : bool :=
  let z n := match n with Num z => Some z | NegZero => Some 0 | _ => None end in
  match a, b with
  | NaN, _ | _, NaN => false
  | Infinity true, Infinity true => false
  | Infinity true, _ => true
  | _, Infinity true => false
  | Infinity false, _ => false
  | _, Infinity false => true
  | _, _ => match z a, z b with Some x, Some y => x <? y | _, _ => false end
  end.

Section Assert.
Context (h : jsheap) (toPrimitive : nat -> value) (toJSON : value -> option value) (fnText : value -> jsstr).

(** [Number(v)] of a primitive value. *)
Definition primNumber (v : value) : num :=
  match v with
  | VUndefined => NaN
  | VNull => Num 0
  | VBool b => Num (if b then 1 else 0)
  | VNum n => n
  | VStr s => stringToNumber s
  | VRef _ => NaN
  end.
Definition primOf (v : value) : value := match v with VRef l => toPrimitive l | _ => v end.
Definition toNumber (v : value) : num := primNumber (primOf v).

(** [a == b], for values that are not both objects, and in general. *)
Definition looseEqPrim (a b : value) : bool :=
  match a, b with
  | (VUndefined | VNull), (VUndefined | VNull) => true
  | (VUndefined | VNull), _ | _, (VUndefined | VNull) => false
  | VStr x, VStr y => str_eqb x y
  | _, _ => numEq (primNumber a) (primNumber b)
  end.
Definition looseEq (a b : value) : bool :=
  match a, b with
  | VRef x, VRef y => bool_decide (x = y)
  | VRef _, (VUndefined | VNull) | (VUndefined | VNull), VRef _ => false
  | _, _ => looseEqPrim (primOf a) (primOf b)
  end.

(** [Boolean(v)]. *)
Definition toBoolean (v : value) : bool :=
  match v with
  | VUndefined | VNull => false
  | VBool b => b
  | VNum n => negb (isZero n) && negb (isNaN n)
  | VStr s => bool_decide (s <> [])
  | VRef _ => true
  end.

(** * The deep comparison *)

(** [v[key]], and the elements and the length of a buffer. *)
Definition readOwn (v : value) (key : jsstr) : value := match objAt h v with Some o => ownValue o key | None => VUndefined end.

(** The loop over two buffers. *)
Fixpoint bufferLoop (fuel : nat) (i : Z) (actual expected : value) : outcome bool :=
  match fuel with
  | O => OutOfFuel
  | S fuel =>
      if numLt (Num i) (toNumber (readOwn actual (js "length"))) then
        if strictEq (readOwn actual (numToStr i)) (readOwn expected (numToStr i)) then bufferLoop fuel (i + 1) actual expected
        else Ret false
      else Ret true
  end.

Definition isArguments (v : value) : bool := bool_decide (className h v = "Arguments").

(** [pSlice.call(args)]. *)
Definition sliceArgs (o : jsobj) : jsobj :=
  mkObj ClsArray None (o_length o)
    (omap (fun i => (fun v => (numToStr i, v)) <$> ownProp o (numToStr i)) (zrange 0 (o_length o - 1))) [].

(** The comparison of the keys and of the values behind them, from the last;
    [rec] is [_deepEqual]. *)
Definition equivKeys (rec : value -> value -> outcome bool) (oa ob : jsobj) : outcome bool :=
  let ka := us_keys (o_props oa) in
  let kb := us_keys (o_props ob) in
  if negb (len ka =? len kb) then Ret false
  else
    let ka := sortStrings ka in
    let kb := sortStrings kb in
    if negb (bool_decide (ka = kb)) then Ret false
    else allO (fun key => rec (readProp oa key) (readProp ob key)) (rev ka).

(** [objEquiv(a, b)]; the copies of two argument lists are distinct arrays, on
    which [_deepEqual] compares the keys. *)
Definition objEquiv (rec : value -> value -> outcome bool) (a b : value) : outcome bool :=
  if isNullOrUndefined a || isNullOrUndefined b then Ret false
  else if negb (strictEq (readOwn a (js "prototype")) (readOwn b (js "prototype"))) then Ret false
  else if isPrimitive h a || isPrimitive h b then Ret (strictEq a b)
  else if xorb (isArguments a) (isArguments b) then Ret false
  else
    oa ← orTypeError (objAt h a);
    ob ← orTypeError (objAt h b);
    if isArguments a then equivKeys rec (sliceArgs oa) (sliceArgs ob) else equivKeys rec oa ob.

(** The time of a date, and the parts of a regular expression. *)
Definition getTime (v : value) : num := match o_class <$> objAt h v with Some (ClsDate t) => t | _ => NaN end.
Definition sameRegExp (a b : value) : bool :=
  match o_class <$> objAt h a, o_class <$> objAt h b with
  | Some (ClsRegExp s g i m), Some (ClsRegExp s' g' i' m') =>
      str_eqb s s' && eqb g g' && eqb m m' && strictEq (readOwn a (js "lastIndex")) (readOwn b (js "lastIndex")) && eqb i i'
  | _, _ => false
  end.

(** [_deepEqual(actual, expected)]: there is no stack of objects on the way, so
    the depth of the values bounds the recursion, and a cycle makes it endless. *)
Fixpoint deepEqual_ (fuel : nat) (actual expected : value) : outcome bool :=
  match fuel with
  | O => OutOfFuel
  | S fuel =>
      if strictEq actual expected then Ret true
      else if isBuffer h actual && isBuffer h expected then
        if negb (looseEq (readOwn actual (js "length")) (readOwn expected (js "length"))) then Ret false
        else bufferLoop fuel 0 actual expected
      else if isDate h actual && isDate h expected then Ret (numEq (getTime actual) (getTime expected))
      else if Inspect.isRegExp h actual && Inspect.isRegExp h expected then Ret (sameRegExp actual expected)
      else if negb (isObject h actual) && negb (isObject h expected) then Ret (looseEq actual expected)
      else objEquiv (deepEqual_ fuel) actual expected
  end.

(** * Messages *)

(** [replacer(key, value)]. *)
Definition replacer (v : value) : value :=
  match v with
  | VUndefined => VStr (js "undefined")
  | VNum ((NaN | Infinity _) as n) => VStr (numString n)
  | _ =>
      if Inspect.isFunction h v then VStr (fnText v)
      else if Inspect.isRegExp h v then VStr (stringOf h v)
      else v
  end.

(** [JSON.stringify(value, replacer)]. *)
Definition stringify (v : value) : outcome (option jsstr) := jsonText h (fun v => replacer (default v (toJSON v))) (S (S (size h))) [] v.

(** [truncate(s, n)] of a string, and what is added to another one. *)
Definition truncate (s : jsstr) (n : Z) : jsstr := if len s <? n then s else slice s 0 n.
Definition asText (s : option jsstr) : jsstr := match s with Some s => truncate s 128 | None => js "undefined" end.

(** [new AssertionError(options)]; a message that is missing or empty is falsy. *)
Record assertionError := mkAssertion {
  ae_actual : value; ae_expected : value; ae_operator : option jsstr; ae_message : jsstr; ae_generated : bool
}.
Definition getMessage (actual expected : value) (operator : option jsstr) : outcome jsstr :=
  a ← stringify actual;
  e ← stringify expected;
  Ret (asText a ++ js " " ++ default (js "undefined") operator ++ js " " ++ asText e).
Definition AssertionError (actual expected : value) (message operator : option jsstr) : outcome assertionError :=
  match message with
  | Some (c :: m) => Ret (mkAssertion actual expected operator (c :: m) false)
  | _ => text ← getMessage actual expected operator; Ret (mkAssertion actual expected operator text true)
  end.

(** * Assertions *)

(** What a call throws. *)
Inductive thrown := TAssertion (e : assertionError) | TValue (v : value).

(** [fail(actual, expected, message, operator)]; an exception of the
    constructor is passed on. *)
Definition fail (actual expected : value) (message operator : option jsstr) : outcome (thrown + unit) :=
  e ← AssertionError actual expected message operator; Ret (inl (TAssertion e)).
Definition pass : outcome (thrown + unit) := Ret (inr tt).

Definition ok (v : value) (message : option jsstr) : outcome (thrown + unit) :=
  if negb (toBoolean v) then fail v (VBool true) message (Some (js "==")) else pass.
Definition equal (actual expected : value) (message : option jsstr) : outcome (thrown + unit) :=
  if negb (looseEq actual expected) then fail actual expected message (Some (js "==")) else pass.
Definition notEqual (actual expected : value) (message : option jsstr) : outcome (thrown + unit) :=
  if looseEq actual expected then fail actual expected message (Some (js "!=")) else pass.
Definition deepEqual (fuel : nat) (actual expected : value) (message : option jsstr) : outcome (thrown + unit) :=
  r ← deepEqual_ fuel actual expected;
  if negb r then fail actual expected message (Some (js "deepEqual")) else pass.
Definition notDeepEqual (fuel : nat) (actual expected : value) (message : option jsstr) : outcome (thrown + unit) :=
  r ← deepEqual_ fuel actual expected;
  if (r : bool) then fail actual expected message (Some (js "notDeepEqual")) else pass.
Definition strictEqual (actual expected : value) (message : option jsstr) : outcome (thrown + unit) :=
  if negb (strictEq actual expected) then fail actual expected message (Some (js "===")) else pass.
Definition notStrictEqual (actual expected : value) (message : option jsstr) : outcome (thrown + unit) :=
  if strictEq actual expected then fail actual expected message (Some (js "!==")) else pass.
Definition ifError (err : value) : outcome (thrown + unit) := if toBoolean err then Ret (inl (TValue err)) else pass.

(** The third argument of [throws]: nothing, a string, or an expression or a
    function, with its [name], that accepts some exceptions ([expected.test],
    [instanceof] and [expected.call]). *)
Inductive expectation := ENone | EString (message : jsstr) | EMatcher (v : value) (name : option jsstr) (accepts : value -> bool).

(** [expectedException(actual, expected)]; [None] is an undefined [actual]. *)
Definition expectedException (actual : option value) (expected : expectation) : bool :=
  match actual, expected with
  | Some e, EMatcher _ _ accepts => toBoolean e && accepts e
  | _, _ => false
  end.

(** [_throws(shouldThrow, block, expected, message)]: [block] is the exception
    that the block throws, if any. *)
Definition throws_ (shouldThrow : bool) (block : option value) (expected : expectation) (message : option jsstr) : outcome (thrown + unit) :=
  let expectedV := match expected with EMatcher v _ _ => v | EString _ => VNull | ENone => VUndefined end in
  let '(expected, message) := match expected with EString s => (ENone, Some s) | _ => (expected, message) end in
  let actual := block in
  let message :=
    match expected with EMatcher _ (Some (c :: name)) _ => js " (" ++ (c :: name) ++ js ")." | _ => js "." end
    ++ match message with Some (c :: m) => js " " ++ (c :: m) | _ => js "." end in
  let got := match actual with Some e => toBoolean e | None => false end in
  let actualV := default VUndefined actual in
  if shouldThrow && negb got then fail actualV expectedV (Some (js "Missing expected exception" ++ message)) None
  else if negb shouldThrow && expectedException actual expected then fail actualV expectedV (Some (js "Got unwanted exception" ++ message)) None
  else if (shouldThrow && got && match expected with EMatcher _ _ _ => negb (expectedException actual expected) | _ => false end)
          || (negb shouldThrow && got)
  then Ret (inl (TValue actualV))
  else pass.
Definition throws := throws_ true.
Definition doesNotThrow := throws_ false.

End Assert.
