(* ===== verification/AssertFacts.v ===== *)
(** The assertions: the deep comparison is symmetric and ends on values without
    cycles, it does not end on cyclic ones, and what [throws] and [doesNotThrow]
    make of a block. *)
From Stdlib Require Import ZArith Lia.
From stdpp Require Import base gmap strings list sorting.
From S2P Require Import Prelude JsString BraceExpansion Underscore JsValue DeepEqual Inspect Assert.

Local Open Scope Z_scope.
Open Scope js_scope.

(** * The deep comparison of values without cycles *)

Lemma numEq_sym x y : numEq x y = numEq y x.
Proof. destruct x as [[]| | |], y as [[]| | |]; try done; unfold numEq; by apply bool_decide_ext. Qed.

Lemma strictEq_sym a b : strictEq a b = strictEq b a.
Proof. destruct a, b; try apply numEq_sym; cbn; try done; by apply bool_decide_ext. Qed.

Lemma str_eqb_sym a b : str_eqb a b = str_eqb b a.
Proof. unfold str_eqb. by apply bool_decide_ext. Qed.

Lemma looseEqPrim_sym a b : looseEqPrim a b = looseEqPrim b a.
Proof. destruct a, b; cbn [looseEqPrim]; try done; try apply numEq_sym; apply str_eqb_sym. Qed.

Lemma numLt_numEq i x y : numEq x y = true -> numLt (Num i) x = numLt (Num i) y.
Proof.
  destruct x as [[|p|p]| | |[]], y as [[|q|q]| | |[]]; cbn [numEq]; try done; intros H%bool_decide_eq_true; by simplify_eq.
Qed.

Section DeepEqualFacts.
Context (h : jsheap) (toPrimitive : nat -> value).

Abbreviation loose := (looseEq toPrimitive).
Abbreviation deep := (deepEqual_ h toPrimitive).

Lemma looseEq_sym a b : loose a b = loose b a.
Proof. destruct a, b; cbn [looseEq primOf]; try apply looseEqPrim_sym; try done. by apply bool_decide_ext. Qed.

Lemma prim_numLt i a b : 0 <= i -> looseEqPrim a b = true -> numLt (Num i) (primNumber a) = numLt (Num i) (primNumber b).
Proof.
  intros Hi. assert (Hneg : forall n, n = NaN \/ n = Num 0 -> numLt (Num i) n = false).
  { intros n [->| ->]; [done|]. cbn. apply Z.ltb_ge. lia. }
  destruct a, b; cbn [looseEqPrim]; try done; try (by apply numLt_numEq); intros Heq; cbn [primNumber].
  all: try (rewrite !Hneg; by auto).
  all: apply bool_decide_eq_true in Heq; by subst.
Qed.

(** Lengths that are equal bound the loop in the same way. *)
Lemma loose_numLt i a b : 0 <= i -> loose a b = true -> numLt (Num i) (toNumber toPrimitive a) = numLt (Num i) (toNumber toPrimitive b).
Proof.
  intros Hi H. unfold toNumber. destruct a as [| | | | |x], b as [| | | | |y]; try (by apply prim_numLt); cbn [looseEq] in H; try done.
  apply bool_decide_eq_true in H. by subst.
Qed.

Lemma bufferLoop_sym fuel i a b : 0 <= i -> loose (readOwn h a (js "length")) (readOwn h b (js "length")) = true ->
  bufferLoop h toPrimitive fuel i a b = bufferLoop h toPrimitive fuel i b a.
Proof.
  revert i. induction fuel as [|fuel IH]; intros i Hi Hl; [done|]. cbn [bufferLoop].
  rewrite (loose_numLt i _ _ Hi Hl), (strictEq_sym (readOwn h a _)). repeat case_match; try done. apply IH; [lia|done].
Qed.

Lemma sameRegExp_sym a b : sameRegExp h a b = sameRegExp h b a.
Proof.
  unfold sameRegExp. rewrite (strictEq_sym (readOwn h a _)). repeat case_match; try done. rewrite str_eqb_sym.
  f_equal; [|by destruct ignoreCase, ignoreCase0]. f_equal. f_equal; [f_equal|]; by repeat match goal with b : bool |- _ => destruct b end.
Qed.

Lemma allO_ext {A} (f f' : A -> outcome bool) l : (forall x, f x = f' x) -> allO f l = allO f' l.
Proof. intros H. induction l as [|x l IH]; [done|]. cbn [allO]. by rewrite H, IH. Qed.

Lemma equivKeys_sym rec oa ob : (forall a b, rec a b = rec b a) -> equivKeys rec oa ob = equivKeys rec ob oa.
Proof.
  intros Hrec. unfold equivKeys. rewrite (Z.eqb_sym (len (us_keys (o_props oa)))). destruct (negb _); [done|].
  destruct (decide (sortStrings (us_keys (o_props oa)) = sortStrings (us_keys (o_props ob)))) as [->|Hne].
  - rewrite !bool_decide_eq_true_2 by done. cbn [negb]. by apply allO_ext.
  - rewrite !bool_decide_eq_false_2 by done. done.
Qed.

Lemma deepEqual_sym fuel a b : deep fuel a b = deep fuel b a.
Proof.
  revert a b. induction fuel as [|fuel IH]; intros a b; [done|]. cbn [deepEqual_].
  rewrite (strictEq_sym a b). destruct (strictEq b a); [done|].
  rewrite (andb_comm (isBuffer h a)), (andb_comm (isDate h a)), (andb_comm (Inspect.isRegExp h a)), (andb_comm (negb (isObject h a))).
  rewrite (looseEq_sym (readOwn h a _)), (numEq_sym (getTime h a)), (sameRegExp_sym a b), (looseEq_sym a b).
  destruct (isBuffer h b && isBuffer h a).
  { destruct (loose (readOwn h b _) _) eqn:El; [|done]. cbn [negb]. symmetry. by apply bufferLoop_sym. }
  repeat (case_match; [done|]). unfold objEquiv.
  rewrite (orb_comm (isNullOrUndefined a)), (strictEq_sym (readOwn h a _)), (orb_comm (isPrimitive h a)), (strictEq_sym a b), (xorb_comm (isArguments h a)).
  repeat (case_match; [done|]). destruct (isArguments h a), (isArguments h b); try done;
    destruct (objAt h a) as [oa|], (objAt h b) as [ob|]; try done; cbn [orTypeError]; rewrite !bind_Ret; by apply equivKeys_sym.
Qed.

(** ** It ends on values without cycles *)

Context (rank : nat -> nat).
Context (Hclosed : closed h) (Hrank : forall l o k l', h !! l = Some o -> ownProp o k = Some (VRef l') -> (rank l' < rank l)%nat).
Context (Hbuffers : forall v, isBuffer h v = true -> toNumber toPrimitive (readOwn h v (js "length")) <> Infinity false).

Definition rankOf (v : value) : nat := match v with VRef l => S (rank l) | _ => 0 end.

(** With enough fuel the comparison returns one answer. *)
Definition settles (f : nat -> outcome bool) : Prop := exists n r, forall fuel, (n <= fuel)%nat -> f fuel = Ret r.

Lemma settles_all {A} (f : nat -> A -> outcome bool) l : (forall x, x ∈ l -> settles (fun fuel => f fuel x)) ->
  settles (fun fuel => allO (f fuel) l).
Proof.
  induction l as [|x l IH]; intros H; [by exists 0%nat, true|].
  destruct (H x ltac:(left)) as (n & r & Hn). destruct IH as (n' & r' & Hn'); [intros y Hy; apply H; by right|].
  exists (Nat.max n n'), (if r then r' else false). intros fuel Hf. cbn [allO]. rewrite Hn, bind_Ret by lia. destruct r; [|done]. apply Hn'. lia.
Qed.

Lemma settles_shift f : settles f -> settles (fun fuel => match fuel with O => OutOfFuel | S fuel => f fuel end).
Proof. intros (n & r & H). exists (S n), r. intros [|fuel] Hf; [lia|]. apply H. lia. Qed.

Lemma settles_ret r : settles (fun _ => Ret r).
Proof. by exists 0%nat, r. Qed.

Lemma buffer_settles a b : isBuffer h a = true -> settles (fun fuel => bufferLoop h toPrimitive fuel 0 a b).
Proof.
  intros Ha. specialize (Hbuffers a Ha). set (bound := toNumber toPrimitive (readOwn h a (js "length"))) in *.
  assert (Hend : exists N : nat, forall i, Z.of_nat N <= i -> numLt (Num i) bound = false).
  { destruct bound as [z| | |[]]; [|exists 0%nat..|]; [exists (Z.to_nat z)| | | |done]; intros i Hi; cbn; try done; apply Z.ltb_ge; lia. }
  destruct Hend as [N HN].
  assert (H : forall d i, 0 <= i -> Z.of_nat N <= i + Z.of_nat d -> settles (fun fuel => bufferLoop h toPrimitive fuel i a b)).
  { induction d as [|d IH]; intros i Hi Hd.
    - exists 1%nat, true. intros [|fuel] Hf; [lia|]. cbn [bufferLoop]. fold bound. by rewrite HN by lia.
    - destruct (IH (i + 1)) as (n & r & Hn); [lia|lia|].
      exists (S n), (if numLt (Num i) bound then if strictEq (readOwn h a (numToStr i)) (readOwn h b (numToStr i)) then r else false else true).
      intros [|fuel] Hf; [lia|]. cbn [bufferLoop]. fold bound. rewrite (Hn fuel) by lia.
      destruct (numLt _ _); [|done]. by destruct (strictEq _ _). }
  apply (H N 0); lia.
Qed.

Lemma slice_prop o k v : ownProp (sliceArgs o) k = Some v -> ownProp o k = Some v.
Proof.
  unfold ownProp at 1. cbn [sliceArgs o_props o_hidden]. generalize (zrange 0 (o_length o - 1)) as l. induction l as [|i l IH]; [done|]. cbn [omap list_omap].
  destruct (ownProp o (numToStr i)) as [w|] eqn:Ei; cbn [fmap option_fmap option_map]; [|done].
  cbn [propOf]. unfold str_eqb. case_bool_decide as Hk; [|done]. intros [= ->]. by subst.
Qed.

Lemma keys_settle rec oa ob n :
  (forall a b, valid h a -> valid h b -> (rankOf a + rankOf b < n)%nat -> settles (fun fuel => rec fuel a b)) ->
  (forall k v, ownProp oa k = Some v -> valid h v) -> (forall k v, ownProp ob k = Some v -> valid h v) ->
  (forall k k' v w, ownProp oa k = Some v -> ownProp ob k' = Some w -> (rankOf v + rankOf w < n)%nat) ->
  (forall k v, ownProp oa k = Some v -> (rankOf v < n)%nat) -> (forall k v, ownProp ob k = Some v -> (rankOf v < n)%nat) -> (0 < n)%nat ->
  settles (fun fuel => equivKeys (rec fuel) oa ob).
Proof.
  intros Hrec Va Vb Hab Ha Hb Hn. unfold equivKeys. destruct (negb (len _ =? len _)); [apply settles_ret|].
  destruct (negb _); [apply settles_ret|]. apply settles_all. intros k _. apply Hrec.
  - unfold readProp. destruct (ownProp oa k) eqn:E; [by eapply Va|done].
  - unfold readProp. destruct (ownProp ob k) eqn:E; [by eapply Vb|done].
  - unfold readProp. destruct (ownProp oa k) eqn:E1, (ownProp ob k) eqn:E2; cbn [default from_option id rankOf]; [by eapply Hab|rewrite Nat.add_0_r; by eapply Ha|by eapply Hb|lia].
Qed.

Lemma ref_rank l o k v : h !! l = Some o -> ownProp o k = Some v -> (rankOf v < rankOf (VRef l))%nat.
Proof. intros Hl Hk. destruct v as [| | | | |l']; cbn [rankOf]; try lia. specialize (Hrank l o k l' Hl Hk). lia. Qed.

Lemma deep_settles n a b : valid h a -> valid h b -> (rankOf a + rankOf b < n)%nat -> settles (fun fuel => deep fuel a b).
Proof.
  revert a b. induction n as [|n IH]; intros a b Va Vb Hn; [lia|].
  assert (H : settles (fun fuel =>
      if strictEq a b then Ret true
      else if isBuffer h a && isBuffer h b then
        if negb (loose (readOwn h a (js "length")) (readOwn h b (js "length"))) then Ret false else bufferLoop h toPrimitive fuel 0 a b
      else if isDate h a && isDate h b then Ret (numEq (getTime h a) (getTime h b))
      else if Inspect.isRegExp h a && Inspect.isRegExp h b then Ret (sameRegExp h a b)
      else if negb (isObject h a) && negb (isObject h b) then Ret (loose a b)
      else objEquiv h (deep fuel) a b)).
  { destruct (strictEq a b); [apply settles_ret|]. destruct (isBuffer h a && isBuffer h b) eqn:Eb.
    { destruct (negb (loose _ _)); [apply settles_ret|]. apply andb_true_iff in Eb as [? _]. by apply buffer_settles. }
    destruct (isDate h a && isDate h b); [apply settles_ret|].
    destruct (Inspect.isRegExp h a && Inspect.isRegExp h b); [apply settles_ret|].
    destruct (negb (isObject h a) && negb (isObject h b)); [apply settles_ret|].
    unfold objEquiv. destruct (isNullOrUndefined a || isNullOrUndefined b); [apply settles_ret|].
    destruct (negb (strictEq _ _)); [apply settles_ret|].
    destruct (isPrimitive h a || isPrimitive h b) eqn:Ep; [apply settles_ret|]. destruct (xorb _ _); [apply settles_ret|].
    apply orb_false_iff in Ep as [Pa Pb].
    destruct a as [| | | | |la]; try (by cbn in Pa). destruct b as [| | | | |lb]; try (by cbn in Pb).
    destruct Va as [oa Ha], Vb as [ob Hb]. cbn [objAt]. rewrite Ha, Hb. cbn [orTypeError].
    assert (Hgo : forall xa xb, (forall k v, ownProp xa k = Some v -> ownProp oa k = Some v) ->
                    (forall k v, ownProp xb k = Some v -> ownProp ob k = Some v) ->
                    settles (fun fuel => equivKeys (deep fuel) xa xb)).
    { intros xa xb Sa Sb. apply (keys_settle _ _ _ n IH).
      - intros k v Hv. eapply ownProp_valid; [by apply (Hclosed la)|by apply Sa].
      - intros k v Hv. eapply ownProp_valid; [by apply (Hclosed lb)|by apply Sb].
      - intros k k' v w Hv%Sa Hw%Sb. pose proof (ref_rank _ _ _ _ Ha Hv). pose proof (ref_rank _ _ _ _ Hb Hw). lia.
      - intros k v Hv%Sa. pose proof (ref_rank _ _ _ _ Ha Hv). lia.
      - intros k v Hv%Sb. pose proof (ref_rank _ _ _ _ Hb Hv). lia.
      - cbn [rankOf] in Hn. lia. }
    destruct (isArguments h (VRef la)); apply Hgo; try done; intros k v; apply slice_prop. }
  destruct (settles_shift _ H) as (m & r & Hm). exists m, r. intros fuel Hf. specialize (Hm fuel Hf). by destruct fuel.
Qed.

End DeepEqualFacts.

(** [assert.deepEqual] decides: on a heap without cycles (and without a
    buffer of infinite length) the comparison of any two values ends, and it does
    not matter which of the two is the actual one. *)
Lemma deepEqual_total_symmetric h toPrimitive (rank : nat -> nat) a b :
  closed h -> (forall l o k l', h !! l = Some o -> ownProp o k = Some (VRef l') -> (rank l' < rank l)%nat) ->
  (forall v, isBuffer h v = true -> toNumber toPrimitive (readOwn h v (js "length")) <> Infinity false) ->
  valid h a -> valid h b ->
  exists n r, forall fuel, (n <= fuel)%nat ->
    deepEqual_ h toPrimitive fuel a b = Ret r /\ deepEqual_ h toPrimitive fuel b a = Ret r.
Proof.
  intros Hc Hr Hb Va Vb.
  destruct (deep_settles h toPrimitive rank Hc Hr Hb (S (rankOf rank a + rankOf rank b)) a b Va Vb ltac:(lia)) as (n & r & H).
  exists n, r. intros fuel Hf. split; [by apply H|]. rewrite deepEqual_sym. by apply H.
Qed.


(** ** Values with cycles *)

(** An object whose one property is the object itself. *)
Definition knot (c : option value) (k : jsstr) (l : nat) : jsobj := mkObj ClsObject c 0 [(k, VRef l)] [].

Lemma knot_own c k l key : ownValue (knot c k l) key = if str_eqb k key then VRef l else VUndefined.
Proof. unfold ownValue, knot. cbn [o_props o_hidden propOf]. by destruct (str_eqb k key). Qed.

Lemma knot_class h c k l : h !! l = Some (knot c k l) -> className h (VRef l) = "Object"%string /\ typeof h (VRef l) = "object"%string.
Proof. intros Hl. cbn [className typeof]. by rewrite Hl. Qed.

Lemma knot_not_buffer h c k l : h !! l = Some (knot c k l) -> isBuffer h (VRef l) = false.
Proof.
  intros Hl. destruct (knot_class _ _ _ _ Hl) as [_ Ht]. unfold isBuffer. cbn [objAt]. rewrite Hl. cbn [forallb].
  rewrite knot_own. unfold Inspect.isFunction. destruct (str_eqb _ _); [rewrite Ht|]; cbn; by rewrite andb_false_r.
Qed.

Lemma knot_keys rec c c' k la lb r : rec (VRef la) (VRef lb) = OutOfFuel -> equivKeys rec (knot c k la) (knot c' k lb) = r -> r = OutOfFuel.
Proof.
  intros Hrec <-. unfold equivKeys.
  assert (Hk : forall c l, us_keys (o_props (knot c k l)) = [k]).
  { intros c0 l. unfold us_keys, ownProps. cbn [knot o_props]. by destruct (isIndex k) eqn:Ei; rewrite !filter_cons; cbn [fst]; rewrite Ei. }
  rewrite !Hk.
  rewrite bool_decide_eq_true_2 by done. change (sortStrings [k]) with [k]. cbn [len length Z.of_nat Z.eqb Pos.eqb negb rev app allO].
  unfold readProp, ownProp. cbn [knot o_props propOf]. unfold str_eqb. rewrite bool_decide_eq_true_2 by done. cbn [default from_option id].
  by rewrite Hrec.
Qed.

(** The comparison of [assert.deepEqual] keeps no record of where it is: for
    two objects that contain themselves under the same key no amount of fuel is
    enough (the code overflows its stack), where [_.isEqual] of underscore answers. *)
Lemma deepEqual_cycle_diverges h toPrimitive toJSON fnText fuel la lb ca cb k message :
  h !! la = Some (knot ca k la) -> h !! lb = Some (knot cb k lb) -> la <> lb -> k <> js "prototype" ->
  deepEqual h toPrimitive toJSON fnText fuel (VRef la) (VRef lb) message = OutOfFuel.
Proof.
  intros Ha Hb Hne Hproto.
  assert (Hstr : strictEq (VRef la) (VRef lb) = false) by (cbn; apply bool_decide_eq_false; congruence).
  assert (Hread : forall l c, h !! l = Some (knot c k l) -> readOwn h (VRef l) (js "prototype") = VUndefined).
  { intros l c Hl. unfold readOwn. cbn [objAt]. rewrite Hl, knot_own. unfold str_eqb. by rewrite bool_decide_eq_false_2. }
  destruct (knot_class _ _ _ _ Ha) as [Ca Ta]. destruct (knot_class _ _ _ _ Hb) as [Cb Tb].
  enough (Hdeep : deepEqual_ h toPrimitive fuel (VRef la) (VRef lb) = OutOfFuel) by (unfold deepEqual; by rewrite Hdeep).
  induction fuel as [|fuel IH]; [done|]. cbn [deepEqual_]. rewrite Hstr, (knot_not_buffer _ _ _ _ Ha). cbn [andb].
  unfold isDate, Inspect.isRegExp, isObject. rewrite Ca, Ta, Tb. change (bool_decide ("object"%string = "object"%string)) with true.
  cbn [andb negb strictEq bool_decide decide].
  unfold objEquiv. rewrite (Hread la ca Ha), (Hread lb cb Hb). cbn [isNullOrUndefined nullish orb strictEq negb].
  unfold isPrimitive, isBoolean, isNumber, isString, isUndefined, isArguments. rewrite Ta, Tb, Ca, Cb.
  cbn [objAt]. rewrite Ha, Hb. by eapply knot_keys.
Qed.

(** A tree of an object and an array, and another one that equals it. *)
Definition treeObjects : list jsobj :=
  [mkObj ClsObject None 0 [(js "a", VNum (Num 1)); (js "b", VRef 1)] [];
   mkObj ClsArray None 2 [(js "0", VStr (js "1")); (js "1", VNull)] [];
   mkObj ClsObject None 0 [(js "b", VRef 3); (js "a", VBool true)] [];
   mkObj ClsArray None 2 [(js "0", VNum (Num 1)); (js "1", VUndefined)] []].
Definition treeHeap : jsheap := map_seq 0 treeObjects.

(** What holds of the four objects holds of all of them. *)
Lemma treeHeap_objects (P : nat -> jsobj -> Prop) :
  (forall l o, treeObjects !! l = Some o -> P l o) -> forall l o, treeHeap !! l = Some o -> P l o.
Proof. intros H l o. unfold treeHeap. rewrite lookup_map_seq_0. apply H. Qed.

Ltac tree_cases := intros [|[|[|[|l]]]] o [= <-]; cbn [o_props o_hidden o_class propOf].
Ltac read_prop Hv := repeat (destruct (str_eqb _ _); [first [discriminate|injection Hv as <-; vm_compute; by eauto]|]); done.

Lemma treeHeap_closed : closed treeHeap.
Proof.
  unfold closed, map_Forall. apply treeHeap_objects. tree_cases; (split; [|done]); cbn [o_props o_hidden propOf]; intros key v [Hv|Hv]; read_prop Hv.
Qed.

(** * Blocks that throw *)

(** The exception that a block threw, when the code notices it. *)
Definition noticed (block : option value) : option value := match block with Some e => if toBoolean e then Some e else None | None => None end.

(** Does the third argument of [throws] let an exception through? *)
Definition admits (expected : expectation) (e : value) : bool := match expected with EMatcher _ _ accepts => accepts e | _ => true end.

(** [throws] and [doesNotThrow] report with an [AssertionError] whose message is
    given: nothing is converted to JSON, so the report itself never fails. *)
Definition reports (prefix : jsstr) (r : outcome (thrown + unit)) : Prop :=
  exists e text, r = Ret (inl (TAssertion e)) /\ ae_message e = prefix ++ text /\ ae_generated e = false.

Lemma fail_reports h toJSON fnText a e prefix text : prefix <> [] ->
  reports prefix (fail h toJSON fnText a e (Some (prefix ++ text)) None).
Proof. destruct prefix as [|c p]; [done|]. intros _. cbn. by eexists _, text. Qed.

(** What [assert.throws] and [assert.doesNotThrow] do with a block, in every
    case.  An exception that is falsy ([throw 0], [throw null], ...) is not
    noticed.  [throws] passes when the exception is admitted, throws it again when
    it is not, and reports the missing one; [doesNotThrow] passes when there is
    none, reports one that matches the expectation and throws any other again. *)
Lemma throws_judges h toJSON fnText block expected message :
  match noticed block with
  | None =>
      reports (js "Missing expected exception") (throws h toJSON fnText block expected message) /\
      doesNotThrow h toJSON fnText block expected message = pass
  | Some e =>
      throws h toJSON fnText block expected message = (if admits expected e then pass else Ret (inl (TValue e))) /\
      if match expected with EMatcher _ _ accepts => accepts e | _ => false end
      then reports (js "Got unwanted exception") (doesNotThrow h toJSON fnText block expected message)
      else doesNotThrow h toJSON fnText block expected message = Ret (inl (TValue e))
  end.
Proof.
  assert (Hfail : forall a v prefix text, prefix <> [] -> reports prefix (fail h toJSON fnText a v (Some (prefix ++ text)) None)) by (intros; by apply fail_reports).
  unfold throws, doesNotThrow, throws_, noticed, admits.
  destruct block as [e|]; [destruct (toBoolean e) eqn:Et|]; destruct expected as [|s|v name accepts];
    cbn [expectedException andb orb negb default from_option id]; rewrite ?Et; cbn [andb orb negb];
    try destruct (accepts e); cbn [andb orb negb]; auto.
  all: split; [|done]; by apply Hfail.
Qed.
